(* ===== verification/_CoqProject ===== *)
-Q . S2P
Prelude.v
Text.v
Deps.v
RelayApi.v
ControlApi.v
State.v
Database.v
ControlCore.v
ControlHandlers.v
ControlSpec.v
ControlInvariant.v
Sync.v
Migrate.v
Startup.v
NodeMaps.v
Enrollment.v
Isolation.v
Retry.v
Relay.v
System.v
Transport.v
AdminSocket.v
Files.v
RelayNode.v
RelayLife.v
FrameStream.v
Protocol.v
Exec.v
McpSession.v
McpBridge.v
Proxy.v
RelayTable.v
EdgePin.v
EdgeNode.v
EdgeSystem.v
ClientConfig.v
ClientSystem.v
ClientControl.v
ConnectionPool.v
DaemonRelays.v
McpRegistry.v
Requests.v
TcpTunnel.v
DaemonLife.v
Listeners.v
CommandLine.v
Transfer.v
McpSync.v
ClientCommands.v
EdgeService.v
EdgeCommands.v
Xtask.v
BuildScripts.v
SyncJournal.v
McpAdapters.v
Toy.v
ToyNodes.v
Scenario.v
NodeScenario.v
RelayScenario.v
LifeScenario.v
