(* ===== verification/Prelude.v ===== *)
(** * agent-scale: a verification of its control plane and data plane

    agent-scale lets a Client run commands, MCP servers, proxies and file
    transfers on Edges over iroh. In managed mode a Control server
    (crates/as-control) enrolls Clients, Edges and Relays by invitation, signs a
    node map for each node, and revokes what it removes; Relays (crates/as-relay)
    admit endpoints by a credential from that map and poll Control for
    revocations; Provisioners automate enrollment through a signed HTTP API. An
    Edge (crates/as-edge) serves the Clients its map allows. A Client is a command
    line and a daemon (crates/agent-scale) that keeps connections to its Edges.
    Messages are defined in crates/control-api, crates/relay-api and
    crates/protocol, the framing of the data plane in crates/transport, durable
    files in crates/core.

    ** Files

    Foundations:
    - [Prelude.v] (this file): [result] for Rust's [Result], machine integers as
      [Z] with the Rust methods' overflow behaviour, strings as the bytes of their
      UTF-8 form, vectors, vectors used as keyed tables ([Keyed]: primary keys,
      unique columns, references), the [handler] monad (explicit store, errors as
      values), and the tactics that run such code symbolically ([run_ok],
      [prove_ok], [hstep]).
    - [Deps.v]: code outside the repository as classes of operations ([Keys],
      [Encodings], [Serde], [Urls], [Certificates]) and classes of the documented
      laws that theorems use ([KeysLaws], [EncodingsLaws], [SerdeLaws]). Files
      that need more of it declare their own classes in the same way.
    - [RelayApi.v], [ControlApi.v]: relay-api/src/lib.rs, control-api/src/lib.rs
      and provisioner.rs. One definition per [sign], [verify], [encode] and
      [decode]; signing and verifying agree, domains are separated, and a verified
      message is bound to its signature.
    - [Protocol.v]: the requests and results of protocol/src/lib.rs.
    - [Transport.v], [FrameStream.v]: frames and UDP packets of
      transport/src/lib.rs, first on whole streams, then as reads that wait for
      bytes and can be dropped half-way.
    - [Files.v]: core/src/lib.rs; a file is replaced as a whole or not at all.
    - [Text.v]: parsing and printing of the standard library that the sources use
      ([str::parse] for unsigned integers, [rsplit_once], [replace], [lines],
      [split_whitespace]).

    Control (as-control/src/main.rs, db.rs, schema.sql):
    - [State.v]: [ControlState], [StateChange], [StateDelta::apply].
    - [Database.v], [Sync.v]: the schema, [apply_delta_sync], [load],
      [initialize_sync] and [apply_sync]. Every SQL statement is a function on
      tables with the schema's constraints; a transaction refines the update of
      the snapshot.
    - [ControlCore.v], [ControlHandlers.v]: [commit_delta], the pure helpers and
      every handler, Provisioner action, local command, background task and long
      poll.
    - [ControlSpec.v]: [mutation], the thirteen ways in which Control is meant to
      change its state, and the proof that each handler is at most one of them.
    - [ControlInvariant.v]: what holds after any run of operations: durability and
      consistency of the store, the accounting of credentials, the order of
      generations and revocations, the life of an invitation.
    - [Startup.v]: [init], [bootstrap] and the start of [run] on the files of the
      state directory; restarts at any point of a run.
    - [Migrate.v]: [migrate] and [has_column] on tables of rows with their columns,
      from the files of earlier releases to the tables of [Database.v].
    - [AdminSocket.v]: the administration commands over the local socket, from the
      arguments to the printed lines (main.rs).
    - [NodeMaps.v], [Enrollment.v], [Isolation.v]: what node maps and updates
      grant, enrollment from link to map, and which authority can touch what.
    - [Retry.v]: how the three other programs send a request to Control and repeat
      it while Control is busy (agent-scale/src/control.rs [send], as-edge and
      as-relay [send_control]), composed with Control's handlers.

    Relays and Edges:
    - [Relay.v], [System.v]: admission, revocation updates, polling and restart of
      as-relay/src/main.rs, and Control and a Relay composed: what Control revokes
      an up-to-date Relay refuses, and a Relay can always become up to date.
    - [RelayNode.v]: enrollment of a Relay, its files, its QAD key and
      certificate, the start of [run] and of [poll_control]
      (as-relay/src/main.rs), composed with Control's [claim].
    - [RelayLife.v]: [main] and [run] of as-relay as a whole, with the polling loop
      and the management API, and what a second start does.
    - [RelayTable.v]: the relays an endpoint knows.
    - [EdgePin.v], [EdgeNode.v], [EdgeSystem.v]: which Clients an Edge serves
      (as-edge/src/iroh_edge.rs), its profile, start and Control watch
      (as-edge/src/main.rs), and Control and an Edge composed.
    - [McpRegistry.v]: the Edge's MCP servers (as-edge/src/mcp_registry.rs).
    - [McpBridge.v]: MCP over HTTP (as-edge/src/mcp_http.rs).
    - [EdgeService.v], [EdgeCommands.v]: the current-user service on the three
      systems (as-edge/src/service.rs), and the commands of as-edge with the choice
      of the built-in tool (as-edge/src/main.rs).

    Clients and the data plane:
    - [ClientConfig.v], [ClientSystem.v]: config.json, the commands that change it
      and the daemon's watcher (agent-scale/src/common.rs, control.rs, edge.rs,
      daemon.rs), and Control, a Client and its Edges composed.
    - [ClientControl.v]: [status], [edge invite] and [edge ls] (control.rs,
      edge.rs), and an Edge from its Client's invitation to serving this Client.
    - [ConnectionPool.v]: the daemon's connections (daemon/connection_pool.rs).
    - [DaemonRelays.v], [DaemonLife.v]: the relays of the daemon's endpoint, its
      main loop and idle shutdown (daemon.rs), and how a command finds, replaces
      or starts the daemon (client.rs).
    - [Requests.v], [Transfer.v]: requests and file transfers from command line
      through daemon to Edge and back (client.rs, daemon.rs, iroh_edge.rs).
    - [Exec.v], [McpSession.v]: remote commands and MCP sessions through the three
      programs (client.rs, daemon.rs, as-edge/src/runtime.rs).
    - [Proxy.v], [TcpTunnel.v]: the table of proxies and UDP associations, then
      SOCKS sessions and TCP tunnels (daemon/proxy.rs, as-edge/src/proxy.rs).
    - [Listeners.v]: what accepts connections: the Edge's accept loop, the daemon's
      blobs acceptor, the sessions of a proxy, the start of an MCP session, and the
      daemon's local endpoint with its lock (iroh_edge.rs, daemon.rs,
      daemon/proxy.rs, client.rs, local_ipc.rs).
    - [CommandLine.v], [ClientCommands.v]: what commands make of their arguments
      (agent-scale/src/main.rs) and the texts of the service files
      (as-edge/src/service.rs); then every command of agent-scale, which function
      it calls, what it prints and its exit status.
    - [McpSync.v], [SyncJournal.v], [McpAdapters.v]: MCP servers written into the
      configuration of other programs, with its journal (mcp_sync.rs).

    The repository's own tools:
    - [Xtask.v]: the tasks of src/xtask/src/main.rs as the commands they run.
    - [BuildScripts.v]: the patches that fd-lib/build.rs and rg-lib/build.rs make
      to the upstream sources.

    Instances: [Toy.v], [ToyNodes.v] define computable instances of the classes
    with proofs of their laws; [Scenario.v], [NodeScenario.v],
    [RelayScenario.v] and [LifeScenario.v] run concrete histories in which the hypotheses of the
    theorems hold.

    ** How the code becomes Rocq

    Fallible functions return [result]; an error is the outermost message and, for
    HTTP handlers, the status ([ApiError]); messages produced by third-party
    parsers are not reproduced. Control's store ([Store]) holds the database, the
    snapshot behind the mutex, the notifications and the watch registry. Code that
    runs under a mutex or a lock file is one atomic [handler]. A request that
    releases the mutex in between is several handlers, and what other requests do
    meanwhile is an explicit argument ([others], [wakeups], [resumed]). An [Env]
    carries what a request meets: the clock on arrival and under the mutex (read
    once per critical section), random bytes, whether the disk works, and the
    admission queues. A failed commit leaves the store as it was, because the
    transaction rolls back and the code updates memory only after it.

    [Operation] and [perform] in [ControlSpec.v] collect everything that changes
    the store; [run] iterates them. [System.v] adds the Relay's polls, failed polls
    and restarts as events, [Startup.v] the restarts of Control. A [select!] loop
    is a step function with one event per branch, the outcome of every read and
    write being part of the event; the connection pool and the Client's
    configuration are step functions with one event per await point. Theorems
    about "any history" quantify over lists of such events, so concurrency is the
    interleaving of critical sections.

    A file system is a finite map from paths to contents; a write is given its
    outcome ([WriteOutcome]: nothing happens, replaced but reported as an error,
    replaced). Programs that are run, by the service functions and by xtask, are a
    parameter that answers and may change any file; the commands that were run are
    part of the state. A stream of frames is the bytes sent so far, and a reader gets them
    cut in any way.

    Fuel is needed in four places. [read_frames] reads frames to the end of a
    stream: one step per byte and one for the end are enough, and the theorem is
    stated with exactly that bound; [exec_loop] has the same bound. [read_message]
    and [read_messages] loop over buffered lines and frames: any fuel above the
    buffered bytes plus the weight of the frames (their lengths and one each) is
    enough ([McpBridge.read_messages_terminates]), and [streamable] and
    [legacy_sse] start with that. [send] loops until its deadline: while every turn
    takes some time, one step per nanosecond of the timeout and one more are enough
    (C22, which also bounds the attempts by the seconds). The loops of
    [ensure_daemon] and of [pipe_connect] count as in the code. [join_from_file] retries without
    bound and runs over the list of attempts it is given. Watches wait for a list
    of wakeups and then time out, as the code does after 30 seconds.

    ** What the theorems show

    - Revocation works end to end (C1, C4, C10, C21, C32): a credential whose
      record is gone is refused by every Relay that has caught up, an enrolled
      Relay starts and catches up, and restarts of Control and of the Relay lose
      nothing ([Relay.restart_preserves_admission], C39). A running Relay goes on
      asking Control or admits nobody ([RelayLife.running_relay_polls_or_refuses]).
    - Handlers refine the specification and the database refines the snapshot
      (C2, C3, C5): no request, failed commit or restart leaves memory, tables and
      schema in disagreement. An upgrade keeps the network (C36) and happens once
      ([Migrate.migrate_once]).
    - Who can do what (C11, C15, C16, C30, C31, C35): admission only by valid
      credential, enrollment only with the secret and once, Provisioners and
      Clients confined to what they manage or own.
    - Both ends obey Control (C6, C13, C14, C27, C28, C33, C34): an Edge serves
      exactly the Clients of its newest map or its pin, a Client uses only Edges
      its Control signed, and the two agree on who may talk to whom. C27 follows an
      Edge from the Client's invitation to the moment it serves this Client, and
      [EdgeSystem.enrolled_edge_serves_owner] any enrolled Edge.
    - The data plane reports what happened (C7, C8, C12, C17, C18, C19, C23):
      output and exit codes are never invented or lost, connections lead to
      configured Edges, sessions, tunnels and packets are passed on faithfully,
      files arrive whole. [TcpTunnel.socks_connect_end_to_end] adds which reply a
      SOCKS client gets for what happened at the Edge.
    - Files and registries are what their operations say (C9, C20, C26), and so are
      the relays of the daemon's endpoint (C24).
    - Links enroll (C29), a repeated request takes effect once and its loop ends
      (C22), a command finds a daemon of its version or gives up (C25), and the
      daemon stops only when nobody uses it
      ([DaemonLife.daemon_stops_only_when_unused]); one daemon at a time owns the
      socket ([Listeners.one_daemon_owns_the_socket]), and unauthenticated peers
      hold at most 64 handshakes ([Listeners.accept_loop_is_bounded]).
    - Commands do what they are told (C38): an installed service runs the Edge,
      removing it keeps the Edge's identity
      ([EdgeService.uninstall_preserves_the_edge]), a command reaches the Edge it
      names ([ClientCommands.commands_reach_named_edge]), the administrator's
      commands are the local operations ([AdminSocket.admin_command_is_local]).
    - The repository's tasks work on the pinned sources and overwrite no local
      change ([Xtask.tasks_use_pinned_sources]); a patch of a build script applies
      once or stops the build ([BuildScripts.patches_apply_exactly_once]).
    - Messages and frames: exact framing (C37), domain separation
      ([ControlApi.signing_domains_separate]), binding of every signed field
      ([ControlApi.verified_messages_are_bound]); arguments and
      service files say what was meant ([CommandLine.proxy_target_roundtrip],
      [CommandLine.socks_auth_usable], [CommandLine.service_files_are_exact]).
    - Behaviour the code should not have: a newer map overwritten by an older one
      (C40), frames forged after a dropped read
      ([McpSession.mcp_relay_forges_frames]) and a bridge that never ends
      ([McpBridge.bridge_never_returns]). More such behaviour is stated by
      [Isolation.orphaned_edge_invitation_is_stuck],
      [Startup.interrupted_init_is_stuck], [EdgeSystem.restart_resumes_profile],
      [Proxy.proxy_table_is_consistent], [McpBridge.forwarded_line_is_one_message],
      [Isolation.foreign_request_id_is_refused],
      [RelayNode.busy_control_ends_enrollment], [RelayNode.lost_key_ends_polling],
      [DaemonRelays.noncanonical_relay_is_lost],
      [Migrate.first_release_cannot_be_upgraded],
      [EdgeCommands.noninteractive_join_is_not_repeatable],
      [EdgeService.install_takes_names_uninstall_refuses],
      [EdgeService.name_can_add_a_line], [Xtask.empty_directory_in_checkout] and
      [ClientControl.dot_names_cannot_join].

    The safety theorem C1 is about clocks that do not read past the time of the
    connection: Control deletes a revocation when its own clock passes the
    credential's expiry, so a Relay whose clock is behind Control's could still
    consider the credential valid for the difference. C10 likewise assumes that
    the Relay's clock is not behind the readings so far. Signatures are ideal only
    in [ControlApi.verified_messages_are_bound], where no signature verifies for two
    messages; elsewhere they are only
    required to verify. An update is not bound to the revision it was requested
    for, so [System.v] relies on the Relay applying the answer to its own request,
    which is what [poll_control] does. C7, C17 and C18 are about runs in which no
    loop drops a frame it has begun to read; [McpSession.mcp_relay_forges_frames]
    shows what happens otherwise. C27 is about names other than [.] and [..].

    ** What is not modelled

    - clap: arguments are the values it parses.
    - as-control: the HTTP listener, its routes and body limits, and the loop that
      accepts administration connections, which only call axum and tokio; SQLite's
      pragmas.
    - as-relay: TLS and the relay server itself, which are iroh's.
    - transport: the construction of the endpoint and of Android's resolver, which
      are calls into iroh.
    - as-edge: the built-in fd and rg, which are the upstream programs.
    - agent-scale: [spawn_daemon], the file that names the running daemon, and the
      bytes of the SOCKS handshake, which are
      fast-socks5's.
    - relay-dev: a development server that only configures iroh's relay.
    - fd-lib, rg-lib: copying the source trees.
    - HTTP itself: an exchange is its request and what the other side answered.
    - vendor/iroh and vendor/iroh-blobs: third-party code kept in the repository;
      what is used of it is a parameter. *)
From stdpp Require Export gmap strings list sorting.
From Stdlib Require Export ZArith Lia Ascii.
From Stdlib Require Import ZifyBool.
From Stdlib Require Strings.Byte.

#[global] Open Scope Z_scope.
#[global] Open Scope list_scope.

(** ** Results: Rust's [Result<T, E>] *)

Inductive result (E A : Type) : Type :=
| Ok (a : A)
| Err (e : E).
Arguments Ok {E A} a.
Arguments Err {E A} e.
#[global] Instance result_eq {E A} `{EqDecision E, EqDecision A} : EqDecision (result E A).
Proof. solve_decision. Defined.

Module Result.
Section Ops.
Context {E : Type}.

#[global] Instance result_ret : MRet (result E) := fun A a => Ok a.
#[global] Instance result_bind : MBind (result E) :=
  fun A B f m => match m with Ok a => f a | Err e => Err e end.
#[global] Instance result_fmap : FMap (result E) :=
  fun A B f m => match m with Ok a => Ok (f a) | Err e => Err e end.

Definition ensure (b : bool) (e : E) : result E unit :=
  if b then Ok tt else Err e.

Definition of_option {A} (o : option A) (e : E) : result E A :=
  match o with Some a => Ok a | None => Err e end.

Definition is_ok {A} (r : result E A) : bool :=
  match r with Ok _ => true | Err _ => false end.

Lemma bind_Ok {A B} (f : A -> result E B) (m : result E A) b :
  m ≫= f = Ok b <-> exists a, m = Ok a /\ f a = Ok b.
Proof. destruct m; cbn; naive_solver. Qed.

Lemma bind_Err {A B} (f : A -> result E B) (m : result E A) e :
  m ≫= f = Err e <-> m = Err e \/ exists a, m = Ok a /\ f a = Err e.
Proof. destruct m; cbn; naive_solver. Qed.

Lemma ensure_Ok b e u : ensure b e = Ok u <-> b = true.
Proof. unfold ensure; destruct b, u; naive_solver. Qed.

Lemma of_option_Ok {A} (o : option A) e a : of_option o e = Ok a <-> o = Some a.
Proof. destruct o; cbn; naive_solver. Qed.
End Ops.

Definition map_err {E F A} (f : E -> F) (r : result E A) : result F A :=
  match r with Ok a => Ok a | Err e => Err (f e) end.

Lemma map_err_Ok {E F A} (f : E -> F) (r : result E A) a :
  map_err f r = Ok a <-> r = Ok a.
Proof. destruct r; cbn; naive_solver. Qed.

(** [iter().map(f).collect::<Result<Vec<_>>>()] *)
Fixpoint collect {E A B} (f : A -> result E B) (l : list A) : result E (list B) :=
  match l with
  | [] => Ok []
  | a :: l => b ← f a; bs ← collect f l; Ok (b :: bs)
  end.

Lemma collect_Ok {E A B} (f : A -> result E B) l bs :
  collect f l = Ok bs <-> Forall2 (fun a b => f a = Ok b) l bs.
Proof.
  revert bs; induction l as [|a l IH]; intros bs; cbn.
  - split; [intros [= <-]; constructor | by inversion 1].
  - rewrite bind_Ok. setoid_rewrite bind_Ok. setoid_rewrite IH.
    split.
    + intros (b & ? & bs' & ? & [= <-]); by constructor.
    + inversion 1; subst; eauto.
Qed.

Lemma collect_is_Ok {E A B} (f : A -> result E B) l :
  (exists bs, collect f l = Ok bs) <-> Forall (fun a => exists b, f a = Ok b) l.
Proof.
  setoid_rewrite collect_Ok. split.
  - intros [bs H]. induction H; eauto.
  - induction 1 as [|a l [b ?] ? [bs ?]]; eauto.
Qed.
End Result.
Export Result.

(** ** Machine integers

    A w-bit integer is a [Z]; every operation that can leave the range is
    written out with the Rust method's behaviour at the boundary. *)

Module Int.
Definition u8_max : Z := 2 ^ 8 - 1.
Definition u16_max : Z := 2 ^ 16 - 1.
Definition u32_max : Z := 2 ^ 32 - 1.
Definition u64_max : Z := 2 ^ 64 - 1.
Definition i64_max : Z := 2 ^ 63 - 1.
Definition i64_min : Z := - 2 ^ 63.

Definition in_u64 (x : Z) : Prop := 0 <= x <= u64_max.
Definition in_i64 (x : Z) : Prop := i64_min <= x <= i64_max.

Definition u64_checked_add (a b : Z) : option Z :=
  if a + b <=? u64_max then Some (a + b) else None.
Definition u64_saturating_add (a b : Z) : Z := Z.min (a + b) u64_max.
Definition i64_checked_add (a b : Z) : option Z :=
  if (i64_min <=? a + b) && (a + b <=? i64_max) then Some (a + b) else None.
Definition i64_clamp (x : Z) : Z := Z.max i64_min (Z.min x i64_max).
Definition i64_saturating_add (a b : Z) : Z := i64_clamp (a + b).
Definition i64_saturating_sub (a b : Z) : Z := i64_clamp (a - b).
(** [i64::abs_diff], a [u64]. *)
Definition i64_abs_diff (a b : Z) : Z := Z.abs (a - b).
(** [i64::try_from(x : u64)] *)
Definition i64_try_from (x : Z) : option Z :=
  if x <=? i64_max then Some x else None.
(** [u64::try_from(x : i64)] *)
Definition u64_try_from (x : Z) : option Z :=
  if 0 <=? x then Some x else None.

Lemma u64_checked_add_Some a b c :
  u64_checked_add a b = Some c <-> c = a + b /\ a + b <= u64_max.
Proof. unfold u64_checked_add. destruct (Z.leb_spec (a + b) u64_max); naive_solver lia. Qed.

Lemma i64_try_from_Some x y : i64_try_from x = Some y <-> y = x /\ x <= i64_max.
Proof. unfold i64_try_from. destruct (Z.leb_spec x i64_max); naive_solver lia. Qed.

Lemma u64_try_from_Some x y : u64_try_from x = Some y <-> y = x /\ 0 <= x.
Proof. unfold u64_try_from. destruct (Z.leb_spec 0 x); naive_solver lia. Qed.

Lemma i64_checked_add_Some a b c :
  i64_checked_add a b = Some c <-> c = a + b /\ in_i64 (a + b).
Proof.
  unfold i64_checked_add, in_i64.
  destruct (Z.leb_spec i64_min (a + b)), (Z.leb_spec (a + b) i64_max); naive_solver lia.
Qed.

Lemma i64_clamp_id x : in_i64 x -> i64_clamp x = x.
Proof. unfold in_i64, i64_clamp. lia. Qed.
End Int.
Export Int.

(** ** Boolean tests and the tactics that read them *)

Declare Scope rust_scope.
Delimit Scope rust_scope with rust.
Notation "a == b" := (bool_decide (a = b)) (at level 70) : rust_scope.
Notation "a != b" := (negb (bool_decide (a = b))) (at level 70) : rust_scope.
#[global] Open Scope rust_scope.
#[global] Arguments bool_decide : simpl never.

(** Turns the boolean guards a branch was taken under into propositions. *)
Ltac breflect :=
  repeat match goal with
  | H : context [bool_decide_pack] |- _ => fail 1
  | H : bool_decide _ = true |- _ => apply bool_decide_eq_true in H
  | H : bool_decide _ = false |- _ => apply bool_decide_eq_false in H
  | H : negb _ = true |- _ => apply negb_true_iff in H
  | H : negb _ = false |- _ => apply negb_false_iff in H
  | H : (_ && _)%bool = true |- _ => apply andb_true_iff in H as [??]
  | H : (_ || _)%bool = false |- _ => apply orb_false_iff in H as [??]
  | H : (_ <=? _) = true |- _ => apply Z.leb_le in H
  | H : (_ <=? _) = false |- _ => apply Z.leb_gt in H
  | H : (_ <? _) = true |- _ => apply Z.ltb_lt in H
  | H : (_ <? _) = false |- _ => apply Z.ltb_ge in H
  | H : (_ =? _) = true |- _ => apply Z.eqb_eq in H
  | H : (_ =? _) = false |- _ => apply Z.eqb_neq in H
  end.

(** Inverts a successful run of straight-line fallible code. *)
Ltac run_ok :=
  repeat match goal with
  | H : Ok _ = Ok _ |- _ => injection H as H; try subst
  | H : Ok _ = Err _ |- _ => discriminate H
  | H : Err _ = Ok _ |- _ => discriminate H
  | H : mbind _ _ = Ok _ |- _ => apply bind_Ok in H as (? & ? & H)
  | H : ensure _ _ = Ok _ |- _ => apply ensure_Ok in H
  | H : of_option _ _ = Ok _ |- _ => apply of_option_Ok in H
  | H : map_err _ _ = Ok _ |- _ => apply map_err_Ok in H
  | H : u64_checked_add _ _ = Some _ |- _ => apply u64_checked_add_Some in H as [??]
  | H : i64_try_from _ = Some _ |- _ => apply i64_try_from_Some in H as [??]
  | H : u64_try_from _ = Some _ |- _ => apply u64_try_from_Some in H as [??]
  | H : i64_checked_add _ _ = Some _ |- _ => apply i64_checked_add_Some in H as [??]
  end; breflect.

(** The converse: splits the goal "this fallible code succeeds" into its guards. *)
Ltac prove_ok :=
  repeat match goal with
  | |- Ok _ = Ok _ => reflexivity
  | |- mbind _ _ = Ok _ => apply bind_Ok; first [exists tt | eexists]; split
  | |- ensure _ _ = Ok _ => apply ensure_Ok
  | |- of_option _ _ = Ok _ => apply of_option_Ok
  | |- map_err _ _ = Ok _ => apply map_err_Ok
  | |- negb _ = true => apply negb_true_iff
  | |- negb _ = false => apply negb_false_iff
  | |- bool_decide _ = true => apply bool_decide_eq_true
  | |- bool_decide _ = false => apply bool_decide_eq_false
  | |- (_ && _)%bool = true => apply andb_true_iff; split
  | |- (_ <? _) = true => apply Z.ltb_lt
  | |- (_ <=? _) = true => apply Z.leb_le
  end.

#[global] Instance byte_eq : EqDecision Byte.byte := Byte.byte_eq_dec.

(** ** Strings

    A Rust string is the [string] of its UTF-8 bytes, so [len] is the number of
    characters of the model's string. *)

Module Str.
Definition chars (s : string) : list ascii := String.list_ascii_of_string s.
Definition len (s : string) : Z := Z.of_nat (String.length s).
Definition contains (c : ascii) (s : string) : bool := existsb (fun a => a == c) (chars s).

Fixpoint strip_prefix (p s : string) : option string :=
  match p, s with
  | EmptyString, _ => Some s
  | String a p, String b s => if a == b then strip_prefix p s else None
  | String _ _, EmptyString => None
  end.

Fixpoint split_once (c : ascii) (s : string) : option (string * string) :=
  match s with
  | EmptyString => None
  | String a s' =>
      if a == c then Some (EmptyString, s')
      else match split_once c s' with
           | Some (l, r) => Some (String a l, r)
           | None => None
           end
  end.

Fixpoint trim_end_matches (c : ascii) (s : string) : string :=
  match s with
  | EmptyString => EmptyString
  | String a s' =>
      let t := trim_end_matches c s' in
      if (t == EmptyString) && (a == c) then EmptyString else String a t
  end.

Definition is_ascii_alphanumeric (c : ascii) : bool :=
  let n := N_of_ascii c in
  ((48 <=? n)%N && (n <=? 57)%N) || ((65 <=? n)%N && (n <=? 90)%N) ||
  ((97 <=? n)%N && (n <=? 122)%N).

(** [s.trim().is_empty()]: only code points of Unicode's [White_Space], here as
    their UTF-8 bytes. *)
Fixpoint is_blank (s : string) : bool :=
  match s with
  | EmptyString => true
  | String a s1 =>
      let n := N_of_ascii a in
      if ((9 <=? n)%N && (n <=? 13)%N) || (n =? 32)%N then is_blank s1
      else match s1 with
      | EmptyString => false
      | String b s2 =>
          let m := N_of_ascii b in
          if (n =? 194)%N then ((m =? 133)%N || (m =? 160)%N) && is_blank s2
          else match s2 with
          | EmptyString => false
          | String c s3 =>
              let k := N_of_ascii c in
              match n, m with
              | 225%N, 154%N => (k =? 128)%N
              | 226%N, 128%N => ((128 <=? k)%N && (k <=? 138)%N) || (k =? 168)%N || (k =? 169)%N
                                || (k =? 175)%N
              | 226%N, 129%N => (k =? 159)%N
              | 227%N, 128%N => (k =? 128)%N
              | _, _ => false
              end && is_blank s3
          end
      end
  end.

(** [str::trim]: what precedes a blank rest, after the leading white space. *)
Fixpoint trim_end (s : string) : string :=
  match s with
  | EmptyString => EmptyString
  | String a s' => if is_blank s then EmptyString else String a (trim_end s')
  end.

Fixpoint trim_start (s : string) : string :=
  match s with
  | EmptyString => s
  | String a s1 =>
      if is_blank (String a EmptyString) then trim_start s1
      else match s1 with
      | EmptyString => s
      | String b s2 =>
          if is_blank (String a (String b EmptyString)) then trim_start s2
          else match s2 with
          | EmptyString => s
          | String c s3 =>
              if is_blank (String a (String b (String c EmptyString))) then trim_start s3 else s
          end
      end
  end.

Definition trim (s : string) : string := trim_start (trim_end s).

Lemma append_cons a p s : String a p +:+ s = String a (p +:+ s).
Proof. done. Qed.

Lemma strip_prefix_app p s : strip_prefix p (p +:+ s) = Some s.
Proof.
  induction p as [|a p IH]; [done|]. rewrite append_cons. cbn.
  by rewrite bool_decide_eq_true_2.
Qed.

Lemma strip_prefix_inv p s r : strip_prefix p s = Some r -> s = p +:+ r.
Proof.
  revert s. induction p as [|a p IH]; intros s; cbn; [by intros [= ->]|]. destruct s as [|b s]; [done|].
  case_bool_decide as E; [|done]. intros Hs. rewrite append_cons. subst b. f_equal. by apply IH.
Qed.

Lemma split_once_app c l r :
  (forall a, a ∈ chars l -> a <> c) -> split_once c (l +:+ String c r) = Some (l, r).
Proof.
  induction l as [|a l IH]; intros Hl;
    [change ("" +:+ String c r) with (String c r)|rewrite append_cons]; cbn;
    [by rewrite bool_decide_eq_true_2|].
  rewrite bool_decide_eq_false_2 by (apply Hl, list_elem_of_here).
  rewrite IH; [done|]. intros b Hb. apply Hl. by apply list_elem_of_further.
Qed.

Lemma split_once_Some c s l r : split_once c s = Some (l, r) -> s = l +:+ String c r.
Proof.
  revert l r. induction s as [|a s IH]; intros l r; cbn; [done|].
  case_bool_decide as E; [intros [= <- <-]; by subst|].
  destruct (split_once c s) as [[l' r']|]; [|done]. intros [= <- <-]. rewrite append_cons. f_equal. by apply IH.
Qed.

Lemma contains_false c s : contains c s = false <-> forall a, a ∈ chars s -> a <> c.
Proof.
  unfold contains. rewrite <- not_true_iff_false, existsb_exists.
  setoid_rewrite <- list_elem_of_In. setoid_rewrite bool_decide_eq_true. naive_solver.
Qed.

(** A letter or a digit starts no white space. *)
Lemma alphanumeric_not_blank a s : is_ascii_alphanumeric a = true -> is_blank (String a s) = false.
Proof.
  unfold is_ascii_alphanumeric. intros Ha. cbn [is_blank]. set (n := N_of_ascii a) in *.
  assert (Hn : (48 <= n <= 122)%N) by lia.
  replace (((9 <=? n) && (n <=? 13) || (n =? 32))%N)%bool with false by (symmetry; lia).
  destruct s as [|b s]; [done|]. replace (n =? 194)%N with false by (symmetry; lia).
  destruct s as [|c s]; [done|].
  destruct n as [|p]; [done|]. do 8 (destruct p as [p|p|]; try done; try lia).
Qed.

Lemma trim_line s :
  (forall c, c ∈ chars s -> is_ascii_alphanumeric c = true) -> trim (s +:+ String "010" EmptyString) = s.
Proof.
  intros Hs. unfold trim. replace (trim_end (s +:+ String "010" EmptyString)) with s.
  - destruct s as [|a s]; [done|]. specialize (Hs a (list_elem_of_here _ _)).
    cbn [trim_start]. rewrite alphanumeric_not_blank by done. destruct s as [|b s]; [done|].
    rewrite alphanumeric_not_blank by done. destruct s as [|c s]; [done|].
    by rewrite alphanumeric_not_blank.
  - induction s as [|a s IH]; [done|]. rewrite append_cons. cbn [trim_end].
    rewrite alphanumeric_not_blank by (apply Hs, list_elem_of_here).
    f_equal. apply IH. intros c Hc. apply Hs. by apply list_elem_of_further.
Qed.

Lemma trim_end_matches_idem c s :
  trim_end_matches c (trim_end_matches c s) = trim_end_matches c s.
Proof.
  induction s as [|a s IH]; cbn; [done|].
  destruct (bool_decide (trim_end_matches c s = "") && bool_decide (a = c))%bool eqn:E; [done|].
  cbn. by rewrite IH, E.
Qed.

Lemma append_nonempty_l s t : s <> ""%string -> s +:+ t <> ""%string.
Proof. destruct s; done. Qed.
End Str.

(** ** Vectors of records, searched and updated by key *)

Module Vec.
(** [iter().any(p)], [iter().all(p)], [iter().find(p)], [retain(p)] *)
Definition any {T} (p : T -> bool) (l : list T) : bool := existsb p l.
Definition all {T} (p : T -> bool) (l : list T) : bool := forallb p l.
Definition find {T} (p : T -> bool) (l : list T) : option T := List.find p l.
Definition retain {T} (p : T -> bool) (l : list T) : list T := List.filter p l.

Section Facts.
Context {T : Type}.
Implicit Types (p : T -> bool) (l : list T) (x : T).

Lemma any_true p l : any p l = true <-> exists x, x ∈ l /\ p x = true.
Proof. unfold any. rewrite existsb_exists. by setoid_rewrite list_elem_of_In. Qed.

Lemma any_false p l : any p l = false <-> forall x, x ∈ l -> p x = false.
Proof.
  rewrite <- not_true_iff_false, any_true. split.
  - intros H x Hx. apply not_true_iff_false. eauto.
  - intros H (x & Hx & Hp). rewrite (H x Hx) in Hp. done.
Qed.

Lemma all_true p l : all p l = true <-> forall x, x ∈ l -> p x = true.
Proof. unfold all. rewrite forallb_forall. by setoid_rewrite list_elem_of_In. Qed.

Lemma all_false p l : all p l = false -> exists x, x ∈ l /\ p x = false.
Proof.
  unfold all. induction l as [|y l IH]; cbn; [done|]. destruct (p y) eqn:Hy; cbn.
  - intros Hl. destruct (IH Hl) as (x & ? & ?). exists x. split; [by apply list_elem_of_further|done].
  - intros _. exists y. split; [apply list_elem_of_here|done].
Qed.

Lemma find_Some p l x : find p l = Some x -> x ∈ l /\ p x = true.
Proof. unfold find. intros [? ?]%find_some. by rewrite list_elem_of_In. Qed.

Lemma find_None p l : find p l = None <-> forall x, x ∈ l -> p x = false.
Proof.
  unfold find. split.
  - intros H x Hx. apply (find_none _ _ H). by apply list_elem_of_In.
  - induction l as [|y l IH]; intros H; [done|]; cbn.
    rewrite (H y) by apply list_elem_of_here. apply IH. intros x Hx. apply H. by apply list_elem_of_further.
Qed.

Lemma find_any p l : any p l = true <-> is_Some (find p l).
Proof.
  destruct (find p l) as [x|] eqn:E.
  - split; [eauto|]. intros _. apply any_true. exists x. by apply find_Some.
  - rewrite <- not_false_iff_true, any_false, <- find_None. rewrite E.
    split; [done | by intros []].
Qed.

Lemma elem_of_retain p l x : x ∈ retain p l <-> x ∈ l /\ p x = true.
Proof. unfold retain. rewrite !list_elem_of_In. apply filter_In. Qed.

Lemma retain_perm p l l' : l ≡ₚ l' -> retain p l ≡ₚ retain p l'.
Proof.
  unfold retain. induction 1; cbn; repeat case_match; try done; eauto using perm_swap.
  all: by etrans.
Qed.

Lemma retain_all p l : (forall x, x ∈ l -> p x = true) -> retain p l = l.
Proof.
  induction l as [|y l IH]; intros H; [done|]; cbn.
  rewrite (H y) by apply list_elem_of_here. f_equal. apply IH. intros x Hx.
  apply H. by apply list_elem_of_further.
Qed.

Lemma retain_ext p q l : (forall x, x ∈ l -> p x = q x) -> retain p l = retain q l.
Proof.
  induction l as [|y l IH]; intros Hpq; [done|]; cbn.
  rewrite <- (Hpq y) by apply list_elem_of_here.
  change (List.filter p l) with (retain p l). change (List.filter q l) with (retain q l).
  rewrite IH; [done|]. intros x Hx. by apply Hpq, list_elem_of_further.
Qed.

Lemma retain_retain p q l : retain p (retain q l) = retain (fun x => q x && p x)%bool l.
Proof.
  induction l as [|y l IH]; [done|]; cbn. destruct (q y); cbn; [|done].
  by destruct (p y); cbn; [f_equal|].
Qed.

Lemma any_perm p l l' : l ≡ₚ l' -> any p l = any p l'.
Proof.
  intros Hp. apply eq_true_iff_eq. rewrite !any_true.
  by setoid_rewrite Hp.
Qed.

Lemma all_perm p l l' : l ≡ₚ l' -> all p l = all p l'.
Proof.
  intros Hp. apply eq_true_iff_eq. rewrite !all_true.
  by setoid_rewrite Hp.
Qed.

Lemma any_retain p q l : any p (retain q l) = any (fun x => q x && p x)%bool l.
Proof.
  apply eq_true_iff_eq. rewrite !any_true. setoid_rewrite elem_of_retain.
  setoid_rewrite andb_true_iff. naive_solver.
Qed.
End Facts.
Lemma omap_id_fmap {A B} (f : A -> option B) (l : list A) : omap id (f <$> l) = omap f l.
Proof. induction l as [|a l IH]; [done|]. cbn. by rewrite IH. Qed.

Lemma NoDup_omap {A B C} (g : A -> C) (f : A -> option B) (l : list A) :
  NoDup (g <$> l) ->
  (forall x y b, x ∈ l -> y ∈ l -> f x = Some b -> f y = Some b -> g x = g y) ->
  NoDup (omap f l).
Proof.
  induction l as [|a l IH]; [constructor|]. cbn. intros [Hfresh Hn]%NoDup_cons Hinj.
  assert (NoDup (omap f l)) by (apply IH; [done|]; intros; eapply Hinj; eauto using list_elem_of_further).
  destruct (f a) as [b|] eqn:E; [|done]. apply NoDup_cons. split; [|done].
  intros (y & Hy & Ey)%list_elem_of_omap. apply Hfresh, list_elem_of_fmap. exists y. split; [|done].
  eapply Hinj; eauto using list_elem_of_here, list_elem_of_further.
Qed.

End Vec.

Lemma Forall2_elem_r {A B} (R : A -> B -> Prop) l k y :
  Forall2 R l k -> y ∈ k -> exists x, x ∈ l /\ R x y.
Proof.
  induction 1 as [|a b l k Hab Hl IH]; [by intros ?%not_elem_of_nil|].
  intros [->|Hy]%elem_of_cons; [exists a; split; [apply list_elem_of_here|done]|].
  destruct (IH Hy) as (x & ? & ?). exists x. split; [by apply list_elem_of_further|done].
Qed.

(** The order of [String], by bytes. *)
Definition str_le (a b : string) : Prop := String.leb a b = true.
#[global] Instance str_le_dec a b : Decision (str_le a b).
Proof. unfold str_le. apply _. Defined.

(** Iterating over a [BTreeMap<String, _>]: the entries in the order of their
    keys. *)
Definition btree_iter {A} (m : gmap string A) : list (string * A) :=
  merge_sort (fun a b => str_le (fst a) (fst b)) (map_to_list m).

Lemma elem_of_btree_iter {A} (m : gmap string A) k x : (k, x) ∈ btree_iter m <-> m !! k = Some x.
Proof. unfold btree_iter. by rewrite merge_sort_Permutation, elem_of_map_to_list. Qed.

Lemma NoDup_btree_iter {A} (m : gmap string A) : NoDup (btree_iter m).*1.
Proof. unfold btree_iter. rewrite merge_sort_Permutation. apply NoDup_fst_map_to_list. Qed.

Module Keyed.
Import Vec.

(** A vector of records with a string key. The two operations the program
    performs on one, [upsert] (replace the record with the same key in place,
    or push) and [retain] on the key, are the list forms of a map's insert and
    delete as long as no key occurs twice. *)
Section Keyed.
Context {T : Type} (key : T -> string).
Implicit Types (l : list T) (x y : T) (k : string).

Fixpoint upsert l x : list T :=
  match l with
  | [] => [x]
  | y :: l => if key y == key x then x :: l else y :: upsert l x
  end.

Definition without k l : list T := retain (fun y => key y != k) l.
Definition lookup k l : option T := find (fun y => key y == k) l.
Definition unique l : Prop := NoDup (key <$> l).

Lemma without_cons k y l :
  without k (y :: l) = if key y == k then without k l else y :: without k l.
Proof. unfold without; cbn. by destruct (bool_decide _). Qed.

Lemma elem_of_without k l y : y ∈ without k l <-> y ∈ l /\ key y <> k.
Proof.
  unfold without. rewrite elem_of_retain, negb_true_iff, bool_decide_eq_false. done.
Qed.

Lemma unique_cons y l : unique (y :: l) <-> (forall z, z ∈ l -> key z <> key y) /\ unique l.
Proof.
  unfold unique. rewrite fmap_cons, NoDup_cons. split; intros [H ?]; split; try done.
  - intros z Hz E. apply H. rewrite <- E. by apply list_elem_of_fmap_2.
  - intros (z & E & Hz)%list_elem_of_fmap. by eapply H.
Qed.

Lemma unique_inj l x y : unique l -> x ∈ l -> y ∈ l -> key x = key y -> x = y.
Proof.
  induction l as [|z l IH]; [by intros _ ?%not_elem_of_nil|].
  rewrite unique_cons, !elem_of_cons. intros [H ?] [->|?] [->|?] E; eauto.
  - by edestruct H.
  - by edestruct H.
Qed.

Lemma lookup_Some l k x : unique l -> lookup k l = Some x <-> x ∈ l /\ key x = k.
Proof.
  intros Hu. split.
  - intros [? ?%bool_decide_eq_true]%find_Some. done.
  - intros [Hx <-]. unfold lookup. destruct (find _ l) as [y|] eqn:E.
    + apply find_Some in E as [Hy E]. apply bool_decide_eq_true in E.
      f_equal. by eapply unique_inj.
    + eapply find_None in E; [|done]. by rewrite bool_decide_eq_true_2 in E.
Qed.

Lemma lookup_None l k : lookup k l = None <-> forall x, x ∈ l -> key x <> k.
Proof. unfold lookup. rewrite find_None. by setoid_rewrite bool_decide_eq_false. Qed.

Lemma upsert_fresh l x : (forall y, y ∈ l -> key y <> key x) -> upsert l x = l ++ [x].
Proof.
  induction l as [|y l IH]; intros H; [done|]; cbn.
  rewrite bool_decide_eq_false_2 by (apply H, list_elem_of_here).
  f_equal. apply IH. intros z Hz. apply H. by apply list_elem_of_further.
Qed.

Lemma without_fresh k l : (forall y, y ∈ l -> key y <> k) -> without k l = l.
Proof.
  intros H. apply retain_all. intros x Hx. by apply negb_true_iff, bool_decide_eq_false, H.
Qed.

Lemma upsert_perm_without l x : unique l -> upsert l x ≡ₚ x :: without (key x) l.
Proof.
  induction l as [|y l IH]; [done|]; rewrite unique_cons, without_cons; intros [Hy ?]; cbn.
  case_bool_decide as E.
  - rewrite without_fresh; [done|]. rewrite <- E. apply Hy.
  - rewrite IH by done. apply perm_swap.
Qed.

Lemma elem_of_upsert l x y : unique l -> y ∈ upsert l x <-> y = x \/ (y ∈ l /\ key y <> key x).
Proof.
  intros Hu. rewrite (upsert_perm_without l x Hu), elem_of_cons, elem_of_without. done.
Qed.

Lemma unique_perm l l' : l ≡ₚ l' -> unique l -> unique l'.
Proof. unfold unique. by intros ->. Qed.

Lemma unique_retain p l : unique l -> unique (retain p l).
Proof.
  induction l as [|y l IH]; [done|]. rewrite unique_cons. intros [Hy ?]; cbn.
  case_match; [|by apply IH]. rewrite unique_cons. split; [|by apply IH].
  intros z [? _]%elem_of_retain. by apply Hy.
Qed.

Lemma unique_without k l : unique l -> unique (without k l).
Proof. apply unique_retain. Qed.

Lemma unique_upsert l x : unique l -> unique (upsert l x).
Proof.
  intros Hu. eapply unique_perm; [symmetry; by apply upsert_perm_without|].
  rewrite unique_cons. split; [|by apply unique_without].
  intros z [? ?]%elem_of_without. done.
Qed.

Lemma without_perm k l l' : l ≡ₚ l' -> without k l ≡ₚ without k l'.
Proof. apply retain_perm. Qed.

Lemma upsert_perm l l' x : unique l -> l ≡ₚ l' -> upsert l x ≡ₚ upsert l' x.
Proof.
  intros Hu Hp. rewrite !upsert_perm_without; eauto using unique_perm.
  by rewrite (without_perm (key x) l l').
Qed.

Lemma lookup_perm k l l' : unique l -> l ≡ₚ l' -> lookup k l = lookup k l'.
Proof.
  intros Hu Hp. assert (Hu' : unique l') by eauto using unique_perm.
  destruct (lookup k l') as [x|] eqn:E.
  - apply lookup_Some in E as [??]; [|done]. apply lookup_Some; [done|]. by rewrite Hp.
  - rewrite lookup_None in E. apply lookup_None. setoid_rewrite Hp. done.
Qed.

Lemma lookup_upsert_eq l x : unique l -> lookup (key x) (upsert l x) = Some x.
Proof.
  intros Hu. apply lookup_Some; [by apply unique_upsert|].
  rewrite elem_of_upsert by done. auto.
Qed.

Lemma lookup_upsert_ne l x k : unique l -> key x <> k -> lookup k (upsert l x) = lookup k l.
Proof.
  intros Hu Hk. destruct (lookup k l) as [y|] eqn:E.
  - apply lookup_Some in E as [? <-]; [|done].
    apply lookup_Some; [by apply unique_upsert|]. rewrite elem_of_upsert by done. auto.
  - rewrite lookup_None in E |- *. intros y. rewrite elem_of_upsert by done.
    intros [->|[? ?]]; auto.
Qed.

Lemma lookup_without_eq l k : lookup k (without k l) = None.
Proof. apply lookup_None. by intros x [? ?]%elem_of_without. Qed.

Lemma lookup_without_ne l k k' : unique l -> k <> k' -> lookup k' (without k l) = lookup k' l.
Proof.
  intros Hu Hk. destruct (lookup k' l) as [y|] eqn:E.
  - apply lookup_Some in E as [? <-]; [|done].
    apply lookup_Some; [by apply unique_without|]. rewrite elem_of_without. auto.
  - rewrite lookup_None in E |- *. intros y [? ?]%elem_of_without. auto.
Qed.

(** A secondary key: a (partial) UNIQUE column. Two records that share a value
    of it are the same record. *)
Section Secondary.
Context {K : Type} `{EqDecision K} (f : T -> option K).

Definition secondary l : Prop :=
  forall a b v, a ∈ l -> b ∈ l -> f a = Some v -> f b = Some v -> key a = key b.

(** [x] can be inserted, or replace the record with its key. *)
Definition secondary_free l x : bool :=
  match f x with
  | None => true
  | Some v => all (fun b => (key b == key x) || (f b != Some v))%bool l
  end.

Lemma secondary_sub l l' : (forall x, x ∈ l' -> x ∈ l) -> secondary l -> secondary l'.
Proof. unfold secondary. eauto. Qed.

Lemma secondary_retain p l : secondary l -> secondary (retain p l).
Proof. apply secondary_sub. by intros x [? _]%elem_of_retain. Qed.

Lemma secondary_without k l : secondary l -> secondary (without k l).
Proof. apply secondary_retain. Qed.

Lemma secondary_free_true l x v b :
  secondary_free l x = true -> f x = Some v -> b ∈ l -> f b = Some v -> key b = key x.
Proof.
  unfold secondary_free. intros Hf Hx Hb Hk. rewrite Hx in Hf. eapply all_true in Hf; [|exact Hb].
  apply orb_true_iff in Hf as [?|?]; breflect; congruence.
Qed.

Lemma secondary_upsert l x :
  unique l -> secondary l -> secondary_free l x = true -> secondary (upsert l x).
Proof.
  intros Hu Hs Hf a b v. rewrite !elem_of_upsert by done.
  intros [->|[Ha ?]] [->|[Hb ?]] Ea Eb; try done.
  - symmetry. by eapply secondary_free_true.
  - by eapply secondary_free_true.
  - by eapply Hs.
Qed.

Lemma secondary_perm l l' : l ≡ₚ l' -> secondary l -> secondary l'.
Proof. intros Hp. apply secondary_sub. intros x. by rewrite Hp. Qed.
End Secondary.

(** A foreign key column [f] into a set of parent keys. *)
Definition refers (f : T -> option string) l (parents : list string) : Prop :=
  forall x p, x ∈ l -> f x = Some p -> p ∈ parents.

Definition refers_ok (f : T -> option string) x (parents : list string) : bool :=
  match f x with None => true | Some p => bool_decide (p ∈ parents) end.

Lemma refers_upsert f l x ps :
  unique l -> refers f l ps -> refers_ok f x ps = true -> refers f (upsert l x) ps.
Proof.
  intros Hu Hr Ho y p. rewrite elem_of_upsert by done. intros [->|[? ?]] E; [|by eapply Hr].
  unfold refers_ok in Ho. rewrite E in Ho. by breflect.
Qed.

Lemma refers_sub f l l' ps : (forall x, x ∈ l' -> x ∈ l) -> refers f l ps -> refers f l' ps.
Proof. unfold refers. eauto. Qed.

Lemma refers_retain f p l ps : refers f l ps -> refers f (retain p l) ps.
Proof. apply refers_sub. by intros x [? _]%elem_of_retain. Qed.

Lemma refers_mono f l ps ps' : (forall p, p ∈ ps -> p ∈ ps') -> refers f l ps -> refers f l ps'.
Proof. unfold refers. eauto. Qed.

Lemma keys_upsert l x k : k ∈ key <$> upsert l x <-> k = key x \/ k ∈ key <$> l.
Proof.
  induction l as [|y l IH]; cbn -[fmap].
  - rewrite list_elem_of_fmap. setoid_rewrite elem_of_cons. cbn. set_solver.
  - case_bool_decide as E; rewrite !fmap_cons, !elem_of_cons; [|rewrite IH]; naive_solver.
Qed.

Lemma secondary_free_perm {K} `{EqDecision K} (f : T -> option K) l l' x :
  l ≡ₚ l' -> secondary_free f l x = secondary_free f l' x.
Proof. intros Hp. unfold secondary_free. destruct (f x); [by apply all_perm|done]. Qed.

(** A record that keeps its key and its secondary value can be put back. *)
Lemma secondary_free_same {K} `{EqDecision K} (f : T -> option K) l x y :
  secondary f l -> y ∈ l -> key x = key y -> f x = f y -> secondary_free f l x = true.
Proof.
  intros Hs Hy Hk Hf. unfold secondary_free. destruct (f x) as [v|] eqn:E; [|done].
  apply all_true. intros z Hz. apply orb_true_iff.
  destruct (decide (f z = Some v)) as [E'|E'].
  - left. apply bool_decide_eq_true. rewrite Hk. by apply (Hs z y v).
  - right. by apply negb_true_iff, bool_decide_eq_false.
Qed.

(** A record whose secondary value no record has can be put. *)
Lemma secondary_free_none {K} `{EqDecision K} (f : T -> option K) l x :
  (forall y, y ∈ l -> f y <> f x) -> secondary_free f l x = true.
Proof.
  intros Hn. unfold secondary_free. destruct (f x) as [v|] eqn:E; [|done].
  apply all_true. intros z Hz. apply orb_true_iff. right.
  by apply negb_true_iff, bool_decide_eq_false, Hn.
Qed.

(** A table: distinct keys, and a CHECK on every row. *)
Definition table (check : T -> bool) l : Prop := unique l /\ all check l = true.

Lemma table_upsert check l x : table check l -> check x = true -> table check (upsert l x).
Proof.
  intros [Hu Hc] Hx. split; [by apply unique_upsert|]. apply all_true. intros y.
  rewrite elem_of_upsert by done. intros [->|[? _]]; [done|]. by eapply all_true in Hc.
Qed.

Lemma table_retain check p l : table check l -> table check (retain p l).
Proof.
  intros [Hu Hc]. split; [by apply unique_retain|]. apply all_true.
  intros y [? _]%elem_of_retain. by eapply all_true in Hc.
Qed.

Lemma keys_without k k' l : k' ∈ key <$> without k l <-> k' ∈ key <$> l /\ k' <> k.
Proof.
  rewrite !list_elem_of_fmap. setoid_rewrite elem_of_without. naive_solver.
Qed.
End Keyed.

(** Deleting a list of keys, one by one. *)
Lemma without_keys {T} (key : T -> string) ks l :
  fold_left (fun l k => without key k l) ks l =
  retain (fun x => negb (bool_decide (key x ∈ ks))) l.
Proof.
  revert l. induction ks as [|k ks IH]; intros l; cbn.
  - symmetry. apply retain_all. done.
  - rewrite IH. unfold without. rewrite retain_retain. apply retain_ext. intros x _.
    rewrite <- negb_orb. f_equal. apply eq_true_iff_eq.
    rewrite orb_true_iff, !bool_decide_eq_true, elem_of_cons. done.
Qed.

(** Deleting the keys of the records that satisfy [p], one by one, deletes
    exactly those records. *)
Lemma without_all {T} (key : T -> string) (p : T -> bool) l :
  unique key l ->
  fold_left (fun l k => without key k l) (key <$> retain p l) l = retain (fun x => negb (p x)) l.
Proof.
  intros Hu. rewrite without_keys. apply retain_ext. intros x Hx. f_equal. apply eq_true_iff_eq.
  rewrite bool_decide_eq_true, list_elem_of_fmap. setoid_rewrite elem_of_retain. split.
  - intros (y & E & Hy & Hp). by rewrite (unique_inj key l x y).
  - eauto.
Qed.

(** Storing records with distinct keys, one by one. *)
Lemma unique_upserts {T} (key : T -> string) xs l :
  unique key l -> unique key (fold_left (upsert key) xs l).
Proof. revert l. induction xs as [|x xs IH]; intros l Hl; [done|]. by apply IH, unique_upsert. Qed.

Lemma elem_of_upserts {T} (key : T -> string) xs l y :
  unique key l -> unique key xs ->
  y ∈ fold_left (upsert key) xs l <-> y ∈ xs \/ (y ∈ l /\ key y ∉ key <$> xs).
Proof.
  revert l. induction xs as [|x xs IH]; intros l Hl; cbn [fold_left].
  - intros _. rewrite elem_of_nil. set_solver.
  - rewrite unique_cons. intros [Hx Hxs].
    rewrite IH, elem_of_upsert, fmap_cons, !elem_of_cons by eauto using unique_upsert.
    split; [naive_solver|]. intros [[->|?]|[? Hn]]; [|naive_solver..].
    right. split; [by left|]. intros (z & E & Hz)%list_elem_of_fmap. by eapply Hx.
Qed.

Lemma upserts_fresh {T} (key : T -> string) xs l :
  unique key xs -> (forall x y, x ∈ xs -> y ∈ l -> key y <> key x) ->
  fold_left (upsert key) xs l = (l ++ xs)%list.
Proof.
  revert l. induction xs as [|x xs IH]; intros l; cbn; [by rewrite app_nil_r|].
  rewrite unique_cons. intros [Hx Hxs] Hl.
  rewrite upsert_fresh by (intros; apply Hl; [apply list_elem_of_here|done]).
  rewrite IH, <- app_assoc; [done..|]. intros z y Hz. rewrite elem_of_app, list_elem_of_singleton.
  intros [?| ->]; [by apply Hl; [apply list_elem_of_further|]|]. intros E. by apply (Hx z).
Qed.

(** Vectors with distinct keys and the same records are permutations. *)
Lemma unique_ext {T} (key : T -> string) l l' :
  unique key l -> unique key l' -> (forall x, x ∈ l <-> x ∈ l') -> l ≡ₚ l'.
Proof.
  intros Hl Hl' He. apply NoDup_Permutation; [..|done]; by eapply NoDup_fmap_1.
Qed.

(** Two keyed vectors related element by element evolve in step. *)
Lemma upsert_Forall2 {A B} (ka : A -> string) (kb : B -> string) (R : A -> B -> Prop) l l' x y :
  (forall a b, R a b -> ka a = kb b) -> Forall2 R l l' -> R x y ->
  Forall2 R (upsert ka l x) (upsert kb l' y).
Proof.
  intros HR Hl Hxy. induction Hl as [|a b l l' Hab ? IH]; cbn; [by repeat constructor|].
  rewrite (HR a b), (HR x y) by done. by case_bool_decide; constructor.
Qed.

Lemma without_Forall2 {A B} (ka : A -> string) (kb : B -> string) (R : A -> B -> Prop) l l' k :
  (forall a b, R a b -> ka a = kb b) -> Forall2 R l l' ->
  Forall2 R (without ka k l) (without kb k l').
Proof.
  intros HR Hl. induction Hl as [|a b l l' Hab ? IH]; [constructor|].
  rewrite !without_cons, (HR a b) by done. by case_bool_decide; [|constructor].
Qed.
End Keyed.

Create HintDb vec.
Create HintDb schema.
#[export] Hint Resolve Keyed.unique_upsert Keyed.unique_without Keyed.unique_retain : vec.
#[export] Hint Resolve Keyed.upsert_perm Keyed.without_perm Vec.retain_perm : vec.

(** ** Stateful handlers

    A handler that runs with the state mutex held is a state transformer that
    returns a [result]; an error keeps the writes made before it, as in Rust. *)

Definition handler (S E A : Type) : Type := S -> S * result E A.

Module Handler.
Section Ops.
Context {S E : Type}.

#[global] Instance handler_ret : MRet (handler S E) := fun A a s => (s, Ok a).
#[global] Instance handler_bind : MBind (handler S E) :=
  fun A B f m s => match m s with
                   | (s', Ok a) => f a s'
                   | (s', Err e) => (s', Err e)
                   end.

Definition get {A} (f : S -> A) : handler S E A := fun s => (s, Ok (f s)).
Definition throw {A} (e : E) : handler S E A := fun s => (s, Err e).
Definition lift {A} (r : result E A) : handler S E A := fun s => (s, r).
Definition require (b : bool) (e : E) : handler S E unit :=
  fun s => (s, ensure b e).
Definition modify (f : S -> S) : handler S E unit := fun s => (f s, Ok tt).
(** What other tasks do to the state while this one does not hold the mutex. *)
Definition interleave (others : S -> S) : handler S E unit := fun s => (others s, Ok tt).

Lemma bind_inv {A B} (f : A -> handler S E B) (m : handler S E A) s s' r :
  (m ≫= f) s = (s', r) ->
  (exists a s1, m s = (s1, Ok a) /\ f a s1 = (s', r)) \/
  (exists e, m s = (s', Err e) /\ r = Err e).
Proof.
  unfold mbind, handler_bind. destruct (m s) as [s1 [a|e]]; [eauto|].
  intros [= <- <-]. eauto.
Qed.

Lemma bind_get {A B} (g : S -> A) (f : A -> handler S E B) s : (get g ≫= f) s = f (g s) s.
Proof. done. Qed.

Lemma bind_modify {A} (g : S -> S) (f : unit -> handler S E A) s : (modify g ≫= f) s = f tt (g s).
Proof. done. Qed.

Lemma bind_lift_inv {A B} (r : result E A) (f : A -> handler S E B) s s' x :
  (lift r ≫= f) s = (s', x) ->
  (exists a, r = Ok a /\ f a s = (s', x)) \/ (exists e, r = Err e /\ s' = s /\ x = Err e).
Proof. unfold mbind, handler_bind, lift. destruct r; [eauto|]. intros [= <- <-]. eauto. Qed.

Lemma bind_require_inv {B} b (e : E) (f : unit -> handler S E B) s s' x :
  (require b e ≫= f) s = (s', x) ->
  (b = true /\ f tt s = (s', x)) \/ (b = false /\ s' = s /\ x = Err e).
Proof. unfold mbind, handler_bind, require. destruct b; cbn; [eauto|]. intros [= <- <-]. eauto. Qed.

Lemma bind_eq_Ok {A B} (f : A -> handler S E B) (m : handler S E A) s s1 a :
  m s = (s1, Ok a) -> (m ≫= f) s = f a s1.
Proof. unfold mbind, handler_bind. by intros ->. Qed.
End Ops.
End Handler.
Export Handler.

(** A loop that deletes keys *)
Lemma lookup_deletes {A} (ks : list string) (m : gmap string A) a :
  fold_left (fun m k => delete k m) ks m !! a = if bool_decide (a ∈ ks) then None else m !! a.
Proof.
  revert m. induction ks as [|k ks IH]; intros m; cbn; [by rewrite bool_decide_eq_false_2 by set_solver|].
  rewrite IH. destruct (decide (a = k)) as [->|Hne].
  - rewrite lookup_delete_eq, (bool_decide_eq_true_2 (k ∈ k :: ks)) by apply list_elem_of_here.
    by case_bool_decide.
  - rewrite lookup_delete_ne by done. by rewrite (bool_decide_ext (a ∈ k :: ks) (a ∈ ks)) by set_solver.
Qed.

(** Symbolic execution of a handler from the front: [H : m s = (s', r)]. Reads
    are resolved, and every fallible step splits into the branch that goes on
    and the early return. *)
Ltac hstep H :=
  let a := fresh "a" in let e := fresh "e" in let E := fresh "E" in
  let Hs := fresh "Hs" in let Hx := fresh "Hx" in
  lazymatch type of H with
  | mbind _ (get _) _ = _ => rewrite bind_get in H; cbv beta in H
  | mbind _ (modify _) _ = _ => rewrite bind_modify in H; cbv beta in H
  | mbind _ (lift _) _ = _ =>
      apply bind_lift_inv in H as [(a & E & H)|(e & E & Hs & Hx)];
      [lazymatch type of a with
       | unit => destruct a
       | (_ * _)%type => destruct a as [? ?]
       | _ => idtac
       end; cbv beta iota in H|first [discriminate Hx|subst]]
  | mbind _ (require _ _) _ = _ =>
      apply bind_require_inv in H as [(E & H)|(E & Hs & Hx)];
      [cbv beta in H|first [discriminate Hx|subst]]
  | lift _ _ = _ => first [discriminate H|injection H as <- <-]
  | throw _ _ = _ => first [discriminate H|injection H as <- <-]
  | mret _ _ = _ => first [discriminate H|injection H as <- <-]
  end.
