(* ===== verification/Text.v ===== *)
(** * Text: what the programs use of Rust's [str]

    Decimal integers ([str::parse] for unsigned types and [Display]), splitting
    from the right, suffixes, and [replace] of a character by a text. *)
From stdpp Require Import pretty.
From S2P Require Import Prelude.
Open Scope string_scope.
Open Scope Z_scope.

(** ** Unsigned integers *)

Definition digit_value (c : ascii) : option Z :=
  let n := Z.of_N (N_of_ascii c) in
  if (48 <=? n) && (n <=? 57) then Some (n - 48) else None.

(** Digit by digit, with the overflow check of [checked_mul] and [checked_add] *)
Fixpoint parse_digits (max acc : Z) (s : string) : option Z :=
  match s with
  | EmptyString => Some acc
  | String c s =>
      match digit_value c with
      | Some d => if acc * 10 + d <=? max then parse_digits max (acc * 10 + d) s else None
      | None => None
      end
  end.

(** [s.parse::<uN>()] for the type with maximum [max]: one leading plus sign is
    allowed, and there is a digit. *)
Definition parse_uint (max : Z) (s : string) : option Z :=
  match s with
  | EmptyString => None
  | String "+" EmptyString => None
  | String "+" s => parse_digits max 0 s
  | _ => parse_digits max 0 s
  end.

(** ** Splitting and trimming *)

(** [s.rsplit_once(c)]: at the last [c] *)
Fixpoint rsplit_once (c : ascii) (s : string) : option (string * string) :=
  match s with
  | EmptyString => None
  | String a s' =>
      match rsplit_once c s' with
      | Some (l, r) => Some (String a l, r)
      | None => if a == c then Some (EmptyString, s') else None
      end
  end.

(** The lines of a text, each ended by a newline or by the end of the text *)
Fixpoint text_lines (s : string) : list string :=
  match s with
  | EmptyString => []
  | String a s' =>
      if a == "010"%char then EmptyString :: text_lines s'
      else match text_lines s' with
           | [] => [String a EmptyString]
           | line :: rest => String a line :: rest
           end
  end.

(** [s.split_whitespace()]: the word that starts here, and the words after it *)
Definition next_word (word_rest : string * list string) : list string :=
  match word_rest with
  | (EmptyString, rest) => rest
  | (word, rest) => word :: rest
  end.

Fixpoint words_from (s : string) : string * list string :=
  match s with
  | EmptyString => (EmptyString, [])
  | String a s1 =>
      let after := words_from s1 in
      let pushed := (String a after.1, after.2) in
      if Str.is_blank (String a EmptyString) then (EmptyString, next_word after)
      else match s1 with
      | EmptyString => pushed
      | String b s2 =>
          if Str.is_blank (String a (String b EmptyString)) then (EmptyString, next_word (words_from s2))
          else match s2 with
          | EmptyString => pushed
          | String c s3 =>
              if Str.is_blank (String a (String b (String c EmptyString))) then (EmptyString, next_word (words_from s3))
              else pushed
          end
      end
  end.
Definition split_whitespace (s : string) : list string := next_word (words_from s).

(** [s.strip_suffix(c)] *)
Fixpoint strip_last (c : ascii) (s : string) : option string :=
  match s with
  | EmptyString => None
  | String a EmptyString => if a == c then Some EmptyString else None
  | String a s => String a <$> strip_last c s
  end.

(** [s.replace(c, by_)] *)
Fixpoint replace (c : ascii) (by_ s : string) : string :=
  match s with
  | EmptyString => EmptyString
  | String a s => (if a == c then by_ else String a EmptyString) +:+ replace c by_ s
  end.

(** ** Lemmas *)

Definition is_digit (c : ascii) : Prop := is_Some (digit_value c).

Lemma digit_value_bounds c d : digit_value c = Some d -> 0 <= d <= 9.
Proof. unfold digit_value. case_match eqn:E; [|done]. intros [= <-]. lia. Qed.

Lemma parse_digits_bounds max acc s n :
  0 <= acc <= max -> parse_digits max acc s = Some n -> 0 <= n <= max.
Proof.
  revert acc. induction s as [|c s IH]; cbn; intros acc Ha; [by intros [= <-]|].
  destruct (digit_value c) as [d|] eqn:Ed; [|done]. apply digit_value_bounds in Ed.
  case_match eqn:E; [|done]. apply IH. lia.
Qed.

Lemma parse_uint_digits max s :
  s <> "" -> (forall c, c ∈ Str.chars s -> is_digit c) -> parse_uint max s = parse_digits max 0 s.
Proof.
  intros Hs Hd. destruct s as [|c s]; [done|].
  assert (Hc : is_digit c) by apply Hd, list_elem_of_here.
  destruct c as [[] [] [] [] [] [] [] []]; try done; by destruct Hc.
Qed.

Lemma parse_uint_bounds max s n : 0 <= max -> parse_uint max s = Some n -> 0 <= n <= max.
Proof.
  intros Hm Hp. assert (exists t, parse_digits max 0 t = Some n) as [t Ht].
  { unfold parse_uint in Hp. repeat case_match; try done; eauto. }
  eapply parse_digits_bounds; [|exact Ht]. lia.
Qed.

(** [Display] of an unsigned integer *)
Definition uint_to_string (n : Z) : string := pretty (Z.to_N n).

Lemma digit_value_char x : (x < 10)%N -> digit_value (pretty_N_char x) = Some (Z.of_N x).
Proof. intros Hx. destruct x as [|p]; [done|]. do 4 (destruct p as [p|p|]; try done; try lia). Qed.

Lemma pretty_go_ind (P : N -> string -> string -> Prop) :
  (forall s, P 0%N s s) ->
  (forall x s t, (0 < x)%N -> P (x / 10)%N (String (pretty_N_char (x mod 10)) s) t -> P x s t) ->
  forall x s, P x s (pretty_N_go x s).
Proof.
  intros H0 HS x. induction (N.lt_wf_0 x) as [x _ IH]. intros s.
  destruct (decide (x = 0%N)) as [->|Hx]; [rewrite pretty_N_go_0; apply H0|].
  rewrite pretty_N_go_step by lia. apply HS; [lia|]. apply IH, N.div_lt; lia.
Qed.

Lemma pretty_go_digits x s c : c ∈ Str.chars (pretty_N_go x s) -> is_digit c \/ c ∈ Str.chars s.
Proof.
  refine (pretty_go_ind (fun x s t => c ∈ Str.chars t -> is_digit c \/ c ∈ Str.chars s) _ _ x s).
  - auto.
  - intros x' s' t Hx IH Ht. destruct (IH Ht) as [?|Hin]; [by left|].
    cbn in Hin. apply elem_of_cons in Hin as [->|?]; [left|by right].
    unfold is_digit. rewrite digit_value_char; [eauto|]. by apply N.mod_lt.
Qed.

Lemma parse_pretty_go max x s : 0 <= max ->
  parse_digits max 0 (pretty_N_go x s) =
  if Z.of_N x <=? max then parse_digits max (Z.of_N x) s else None.
Proof.
  intros Hm. refine (pretty_go_ind (fun x s t => parse_digits max 0 t =
    if Z.of_N x <=? max then parse_digits max (Z.of_N x) s else None) _ _ x s).
  - intros s'. cbn. by rewrite (proj2 (Z.leb_le 0 max) Hm).
  - intros x' s' t Hx ->. cbn [parse_digits].
    assert (Hmod : (x' mod 10 < 10)%N) by (by apply N.mod_lt). rewrite digit_value_char by done.
    pose proof (N.div_mod x' 10 ltac:(done)) as E.
    replace (Z.of_N (x' / 10) * 10 + Z.of_N (x' mod 10)) with (Z.of_N x') by lia.
    destruct (Z.leb_spec (Z.of_N x') max) as [?|?], (Z.leb_spec (Z.of_N (x' / 10)) max) as [?|?]; try done.
    assert ((x' / 10 <= x')%N) by (apply N.Div0.div_le_upper_bound; lia). lia.
Qed.

Lemma pretty_go_nonempty x s : (0 < x)%N -> pretty_N_go x s <> "".
Proof.
  intros Hx. refine (pretty_go_ind (fun x s t => (0 < x)%N \/ s <> "" -> t <> "") _ _ x s (or_introl Hx)).
  - intros s' [?|?]; [lia|done].
  - intros x' s' t _ IH _. apply IH. by right.
Qed.

Lemma uint_to_string_digits n c : c ∈ Str.chars (uint_to_string n) -> is_digit c.
Proof.
  unfold uint_to_string, pretty, pretty_N. case_decide.
  - intros [->|Hc]%elem_of_cons; [by eexists|]. by apply not_elem_of_nil in Hc.
  - intros [?|Hc]%pretty_go_digits; [done|]. by apply not_elem_of_nil in Hc.
Qed.

(** Printing an integer and parsing it gives it back, when it fits. *)
Lemma parse_uint_to_string max n : 0 <= n <= max -> parse_uint max (uint_to_string n) = Some n.
Proof.
  intros Hn. rewrite parse_uint_digits.
  - unfold uint_to_string, pretty, pretty_N. case_decide as E.
    + replace n with 0 by lia. destruct max; [done..|lia].
    + rewrite parse_pretty_go, Z2N.id by lia. by rewrite (proj2 (Z.leb_le n max)) by lia.
  - unfold uint_to_string, pretty, pretty_N. case_decide; [done|]. apply pretty_go_nonempty. lia.
  - apply uint_to_string_digits.
Qed.

Lemma append_assoc (a b c : string) : a +:+ (b +:+ c) = (a +:+ b) +:+ c.
Proof. induction a as [|x a IH]; [done|]. rewrite !Str.append_cons. by rewrite IH. Qed.

Lemma rsplit_once_none c s : (forall a, a ∈ Str.chars s -> a <> c) -> rsplit_once c s = None.
Proof.
  induction s as [|a s IH]; intros Hs; [done|]. cbn. rewrite IH by (intros b Hb; apply Hs; by right).
  rewrite bool_decide_eq_false_2; [done|]. apply Hs, list_elem_of_here.
Qed.

Lemma rsplit_once_app c l r :
  (forall a, a ∈ Str.chars r -> a <> c) -> rsplit_once c (l +:+ String c r) = Some (l, r).
Proof.
  intros Hr. induction l as [|a l IH].
  - change ("" +:+ String c r) with (String c r). cbn. rewrite rsplit_once_none by done.
    by rewrite bool_decide_eq_true_2.
  - rewrite Str.append_cons. cbn. by rewrite IH.
Qed.

Lemma rsplit_once_Some c s l r :
  rsplit_once c s = Some (l, r) -> s = l +:+ String c r /\ forall a, a ∈ Str.chars r -> a <> c.
Proof.
  revert l r. induction s as [|a s IH]; cbn; intros l r; [done|].
  destruct (rsplit_once c s) as [[l' r']|] eqn:E.
  - intros [= <- <-]. destruct (IH l' r' eq_refl) as [-> ?]. by rewrite Str.append_cons.
  - case_bool_decide as Ec; [|done]. intros [= <- <-]. subst a. split; [done|]. intros b Hb ->.
    clear IH. induction s as [|a s IH]; cbn in *; [by apply not_elem_of_nil in Hb|].
    destruct (rsplit_once c s) as [[? ?]|]; [done|]. case_bool_decide as Ea; [done|].
    apply elem_of_cons in Hb as [->|Hb]; [done|]. by apply IH.
Qed.

Lemma strip_last_app c s : strip_last c (s +:+ String c "") = Some s.
Proof.
  induction s as [|a s IH].
  - change ("" +:+ String c "") with (String c ""). cbn. by rewrite bool_decide_eq_true_2.
  - rewrite Str.append_cons. cbn. destruct (s +:+ String c "") eqn:E; [by destruct s|]. by rewrite IH.
Qed.

Lemma strip_last_Some c s t : strip_last c s = Some t -> s = t +:+ String c "".
Proof.
  revert t. induction s as [|a s IH]; cbn; intros t; [done|]. destruct s as [|b s].
  - case_bool_decide as E; [|done]. intros [= <-]. by subst.
  - intros (u & Hu & ->)%fmap_Some. rewrite Str.append_cons. f_equal. by apply IH.
Qed.

(** Lines without newlines are read back from a text of them. *)
Lemma text_lines_app line rest :
  Str.contains "010" line = false -> text_lines (line +:+ String "010" rest) = line :: text_lines rest.
Proof.
  intros Hl. rewrite Str.contains_false in Hl. induction line as [|a line IH]; [done|]. rewrite Str.append_cons. cbn [text_lines].
  rewrite bool_decide_eq_false_2 by (apply Hl, list_elem_of_here).
  by rewrite IH by (intros b Hb; apply Hl; by right).
Qed.
