(* ===== verification/Deps.v ===== *)
(** * Third-party code the program calls

    The cryptography (iroh's Ed25519 keys, SHA-256), the encodings (hex,
    base64url) and the serializer (serde_json) live outside the repository.
    They are parameters of the model: the classes below carry the operations,
    and the [...Laws] classes state the documented behaviour the program
    relies on. Nothing here is proved; [Toy.v] gives instances that compute. *)
From S2P Require Import Prelude.

Notation bytes := (list Byte.byte).

(** ** iroh identities ([iroh_base::{EndpointId, SecretKey, Signature}]) *)

Class Keys := {
  EndpointId : Type;
  EndpointId_eq :: EqDecision EndpointId;
  EndpointId_countable :: Countable EndpointId;
  SecretKey : Type;
  Signature : Type;
  Signature_eq :: EqDecision Signature;
  public : SecretKey -> EndpointId;
  id_to_string : EndpointId -> string;
  id_parse : string -> option EndpointId;
  key_sign : SecretKey -> bytes -> Signature;
  id_verify : EndpointId -> bytes -> Signature -> bool;
  sig_to_bytes : Signature -> bytes;
  sig_from_bytes : bytes -> Signature;
}.

Class KeysLaws `{Keys} : Prop := {
  (** [Display] and [FromStr] of an [EndpointId] round-trip. *)
  id_parse_to_string : forall id, id_parse (id_to_string id) = Some id;
  (** A signature verifies under the signer's public key. *)
  id_verify_sign : forall k m, id_verify (public k) m (key_sign k m) = true;
  (** An [EndpointId] prints as non-empty hexadecimal text. *)
  id_to_string_nonempty : forall id, id_to_string id <> ""%string;
  id_to_string_alphanumeric : forall id c,
    c ∈ String.list_ascii_of_string (id_to_string id) -> Str.is_ascii_alphanumeric c = true;
  sig_bytes_length : forall s, length (sig_to_bytes s) = 64%nat;
  sig_from_to : forall s, sig_from_bytes (sig_to_bytes s) = s;
}.

(** ** Digests and text encodings *)

Class Encodings := {
  sha256 : bytes -> bytes;
  hex_encode : bytes -> string;
  hex_decode : string -> option bytes;
  b64_encode : bytes -> string;
  b64_decode : string -> option bytes;
}.

Class EncodingsLaws `{Encodings} : Prop := {
  hex_decode_encode : forall b, hex_decode (hex_encode b) = Some b;
  (** Two digits per byte, none of them a colon. *)
  hex_encode_length : forall b, String.length (hex_encode b) = (2 * length b)%nat;
  hex_encode_no_colon : forall b c, c ∈ String.list_ascii_of_string (hex_encode b) -> c <> ":"%char;
  b64_decode_encode : forall b, b64_decode (b64_encode b) = Some b;
}.

(** ** serde_json

    [to_vec] is total: the serialized types are derived structs and enums
    without maps keyed by anything but strings, for which serde_json's
    serializer cannot fail. *)

Class Serde (T : Type) := {
  to_vec : T -> bytes;
  from_slice : bytes -> option T;
}.

Class SerdeLaws (T : Type) `{Serde T} : Prop := {
  from_slice_to_vec : forall x, from_slice (to_vec x) = Some x;
}.

Lemma to_vec_inj `{SerdeLaws T} (x y : T) : to_vec x = to_vec y -> x = y.
Proof. intros E. apply (inj Some). by rewrite <- !from_slice_to_vec, E. Qed.

Lemma id_to_string_no_colon `{KeysLaws} (id : EndpointId) c :
  c ∈ String.list_ascii_of_string (id_to_string id) -> c <> ":"%char.
Proof. by intros Hc%id_to_string_alphanumeric ->. Qed.

Lemma id_to_string_inj `{KeysLaws} (a b : EndpointId) :
  id_to_string a = id_to_string b -> a = b.
Proof. intros E. apply (inj Some). by rewrite <- !id_parse_to_string, E. Qed.

(** ** The url and rcgen crates *)

Class Urls := {
  Url : Type;
  url_parse : string -> result string Url;
  url_scheme : Url -> string;
  url_host_str : Url -> option string;
  url_path : Url -> string;
  url_query : Url -> option string;
  url_fragment : Url -> option string;
  url_set_path : Url -> string -> Url;
  url_to_string : Url -> string;
}.

(** The certificate parameters the program overrides before signing. *)
Record CertificateProfile (Name : Type) := {
  cp_explicit_no_ca : bool;
  cp_key_usages : list string;
  cp_extended_key_usages : list string;
  cp_use_authority_key_identifier : bool;
  cp_distinguished_name : Name;
  cp_not_before : Z;
  cp_not_after : Z;
}.
Arguments cp_not_before {Name}.
Arguments cp_not_after {Name}.
Arguments cp_distinguished_name {Name}.
Arguments cp_explicit_no_ca {Name}.
Arguments cp_key_usages {Name}.
Arguments cp_extended_key_usages {Name}.
Arguments cp_use_authority_key_identifier {Name}.

Class Certificates := {
  Issuer : Type;
  SigningRequest : Type;
  SanType : Type;
  SanType_eq :: EqDecision SanType;
  DistinguishedName : Type;
  (** [CertificateSigningRequestParams::from_der] and [params.subject_alt_names] *)
  csr_from_der : bytes -> result string SigningRequest;
  csr_subject_alt_names : SigningRequest -> list SanType;
  (** [CertificateParams::new(vec![host])]: its SANs and distinguished name *)
  params_new : string -> result string (list SanType * DistinguishedName);
  dn_push_common_name : DistinguishedName -> string -> DistinguishedName;
  (** [csr.signed_by(issuer)] after the parameters were overridden *)
  csr_signed_by : SigningRequest -> CertificateProfile DistinguishedName -> Issuer ->
    result string bytes;
  (** [KeyPair::try_from(key_der)] and [Issuer::from_ca_cert_der(cert_der, key)] *)
  issuer_from_ca_cert_der : bytes -> bytes -> result string Issuer;
}.
