(* ===== verification/RelayApi.v ===== *)
(** * The relay-api crate: Relay admission credentials and revocation updates

    Models crates/relay-api/src/lib.rs: the payloads Control signs for Relays,
    their canonical byte form, signing, verification, token encoding and
    validation. Errors are the outermost [anyhow] message. *)
From stdpp Require Import pretty.
From S2P Require Import Prelude Deps.
Open Scope string_scope.
Open Scope Z_scope.

(** A byte-string literal that ends in a NUL, [b"...\0"]. *)
Definition domain (s : string) : bytes := String.list_byte_of_string s ++ [Byte.x00].

Definition CREDENTIAL_DOMAIN : bytes := domain "agent-scale-relay-credential-v3".
Definition REVOCATION_DOMAIN : bytes := domain "agent-scale-relay-revocations-v3".
Definition RELAY_PROTOCOL_VERSION : Z := 3.

Inductive RelaySubjectKind := SubjectClient | SubjectEdge.

Record RelayCredential := {
  rc_protocol_version : Z;
  rc_audience : string;
  rc_control_id : string;
  rc_endpoint_id : string;
  rc_kind : RelaySubjectKind;
  rc_generation : Z;
  rc_issued_at : Z;
  rc_expires_at : Z;
}.

Record Revocation := {
  rv_endpoint_id : string;
  rv_revoked_through_generation : Z;
  rv_expires_at : Z;
  rv_revision : Z;
}.

Record RevocationUpdate := {
  ru_protocol_version : Z;
  ru_audience : string;
  ru_version : Z;
  ru_issued_at : Z;
  ru_revocations : list Revocation;
}.

Record RelayStatus := {
  rs_audience : string;
  rs_control_id : string;
  rs_version : Z;
  rs_revocations : nat;
}.

#[global] Instance RelaySubjectKind_eq : EqDecision RelaySubjectKind.
Proof. solve_decision. Defined.
#[global] Instance RelayCredential_eq : EqDecision RelayCredential.
Proof. solve_decision. Defined.
#[global] Instance Revocation_eq : EqDecision Revocation.
Proof. solve_decision. Defined.
#[global] Instance RevocationUpdate_eq : EqDecision RevocationUpdate.
Proof. solve_decision. Defined.

Section RelayApi.
Context `{Keys, Encodings}.

Record SignedRelayCredential := {
  src_credential : RelayCredential;
  src_signature : Signature;
}.

Record SignedRevocationUpdate := {
  sru_update : RevocationUpdate;
  sru_signature : Signature;
}.

Context `{Serde RelayCredential, Serde RevocationUpdate, Serde SignedRelayCredential}.

(** [canonical_bytes(domain, value)] *)
Definition canonical_bytes {T} `{Serde T} (dom : bytes) (value : T) : bytes :=
  dom ++ to_vec value.

Definition ensure_relay_protocol_version (version : Z) : result string unit :=
  ensure (version == RELAY_PROTOCOL_VERSION)
    ("unsupported Relay protocol version " ++ pretty version ++ "; expected "
     ++ pretty RELAY_PROTOCOL_VERSION).

Definition credential_endpoint_id (c : RelayCredential) : result string EndpointId :=
  of_option (id_parse (rc_endpoint_id c)) "invalid credential endpoint id".

Definition credential_validate (c : RelayCredential) : result string unit :=
  ensure_relay_protocol_version (rc_protocol_version c);;
  ensure (rc_audience c != "") "credential audience is empty";;
  ensure (0 <? rc_generation c) "credential generation must be positive";;
  ensure (rc_issued_at c <? rc_expires_at c) "credential expiry must follow issuance";;
  _ ← credential_endpoint_id c;
  _ ← of_option (id_parse (rc_control_id c)) "invalid credential control id";
  Ok tt.

Definition credential_sign (credential : RelayCredential) (key : SecretKey)
  : result string SignedRelayCredential :=
  credential_validate credential;;
  Ok {| src_credential := credential;
        src_signature := key_sign key (canonical_bytes CREDENTIAL_DOMAIN credential) |}.

Definition credential_verify (s : SignedRelayCredential) (control_id : EndpointId)
  : result string unit :=
  ensure (rc_control_id (src_credential s) == id_to_string control_id) "control id mismatch";;
  ensure (id_verify control_id (canonical_bytes CREDENTIAL_DOMAIN (src_credential s))
            (src_signature s))
    "invalid Control signature".

Definition credential_encode (s : SignedRelayCredential) : result string string :=
  Ok (b64_encode (to_vec s)).

Definition credential_decode (value : string) : result string SignedRelayCredential :=
  b ← of_option (b64_decode value) "invalid Relay credential encoding";
  of_option (from_slice b) "invalid Relay credential".

(** [RevocationUpdate::entries] *)
Definition update_entries (u : RevocationUpdate) : result string (list (EndpointId * Z)) :=
  collect (fun r =>
    id ← of_option (id_parse (rv_endpoint_id r))
           ("invalid revoked endpoint id '" ++ rv_endpoint_id r ++ "'");
    Ok (id, rv_revoked_through_generation r)) (ru_revocations u).

(** [RevocationUpdate::validate] *)
Definition update_validate (u : RevocationUpdate) : result string unit :=
  ensure_relay_protocol_version (ru_protocol_version u);;
  ensure (ru_audience u != "") "revocation audience is empty";;
  _ ← collect (fun r =>
        ensure (0 <? rv_revoked_through_generation r) "revoked generation must be positive";;
        ensure ((0 <? rv_revision r) && (rv_revision r <=? ru_version u))%bool
          "revocation revision is outside the signed update range") (ru_revocations u);
  _ ← update_entries u;
  Ok tt.

Definition update_sign (update : RevocationUpdate) (key : SecretKey)
  : result string SignedRevocationUpdate :=
  update_validate update;;
  Ok {| sru_update := update;
        sru_signature := key_sign key (canonical_bytes REVOCATION_DOMAIN update) |}.

Definition update_verify (s : SignedRevocationUpdate) (control_id : EndpointId)
  : result string unit :=
  ensure (id_verify control_id (canonical_bytes REVOCATION_DOMAIN (sru_update s))
            (sru_signature s))
    "invalid Control signature".

(** ** Facts *)

Lemma credential_validate_Ok c :
  credential_validate c = Ok tt <->
  rc_protocol_version c = RELAY_PROTOCOL_VERSION /\ rc_audience c <> "" /\
  0 < rc_generation c /\ rc_issued_at c < rc_expires_at c /\
  is_Some (id_parse (rc_endpoint_id c)) /\ is_Some (id_parse (rc_control_id c)).
Proof.
  unfold credential_validate, ensure_relay_protocol_version, credential_endpoint_id. split.
  - intros Hv. run_ok. eauto 10.
  - intros (? & ? & ? & ? & [a Ha] & [b Hb]). prove_ok; eauto.
Qed.

Lemma update_validate_Ok u :
  update_validate u = Ok tt <->
  ru_protocol_version u = RELAY_PROTOCOL_VERSION /\ ru_audience u <> "" /\
  Forall (fun r => 0 < rv_revoked_through_generation r /\ 0 < rv_revision r <= ru_version u /\
                   is_Some (id_parse (rv_endpoint_id r))) (ru_revocations u).
Proof.
  unfold update_validate, ensure_relay_protocol_version, update_entries. split.
  - intros Hv. run_ok. split_and!; [done..|].
    repeat match goal with
    | E : collect _ _ = Ok _ |- _ =>
        apply (ex_intro (fun bs => collect _ _ = Ok bs)) in E; rewrite collect_is_Ok in E
    end.
    rewrite Forall_forall in *. intros r Hr.
    repeat match goal with E : forall x, x ∈ _ -> _ |- _ => destruct (E r Hr); clear E end.
    run_ok. split_and!; eauto.
  - intros (? & ? & Hf).
    match goal with |- context [collect ?f _ ≫= (fun _ => collect ?g _ ≫= _)] =>
      destruct (proj2 (collect_is_Ok f (ru_revocations u))) as [us Hus];
      [|destruct (proj2 (collect_is_Ok g (ru_revocations u))) as [es Hes]] end.
    + eapply Forall_impl; [exact Hf|]. intros r (? & [] & _). exists tt. by prove_ok.
    + eapply Forall_impl; [exact Hf|]. intros r (_ & _ & [a Ha]).
      eexists. by prove_ok.
    + prove_ok; eauto.
Qed.

(** A credential Control signs survives its token encoding and is accepted
    by [verify] under Control's own identity: encoding then decoding returns the
    same signed credential, which verifies and still validates. *)
Theorem credential_token_roundtrip `{!KeysLaws, !EncodingsLaws, !SerdeLaws SignedRelayCredential}
  (c : RelayCredential) (key : SecretKey) (s : SignedRelayCredential) :
  rc_control_id c = id_to_string (public key) ->
  credential_sign c key = Ok s ->
  src_credential s = c /\
  (token ← credential_encode s; credential_decode token) = Ok s /\
  credential_verify s (public key) = Ok tt /\
  credential_validate (src_credential s) = Ok tt.
Proof.
  intros Hid Hs. unfold credential_sign in Hs. run_ok. destruct x. cbn. split_and!; [done| |..].
  - unfold credential_encode, credential_decode. prove_ok; [apply b64_decode_encode|].
    apply from_slice_to_vec.
  - unfold credential_verify; cbn. prove_ok; [done|]. apply id_verify_sign.
  - done.
Qed.
End RelayApi.
