(* ===== verification/ControlApi.v ===== *)
(** * The control-api crate: signed Control messages

    Models crates/control-api/src/lib.rs and provisioner.rs: the payloads that
    Clients, Edges, Relays, Provisioners and Control exchange, the bytes each
    signature covers, and the verification of every message. Errors are the
    outermost [anyhow] message. *)
From stdpp Require Import pretty.
From S2P Require Import Prelude Deps RelayApi.
Open Scope string_scope.
Open Scope Z_scope.

Definition INVITE_DOMAIN : bytes := domain "agent-scale-control-invite-v5".
Definition CLAIM_DOMAIN : bytes := domain "agent-scale-control-claim-v5".
Definition EDGE_INVITE_REQUEST_DOMAIN : bytes :=
  domain "agent-scale-control-edge-invite-request-v5".
Definition EDGE_REMOVE_REQUEST_DOMAIN : bytes :=
  domain "agent-scale-control-edge-remove-request-v5".
Definition STATUS_REQUEST_DOMAIN : bytes := domain "agent-scale-control-status-request-v5".
Definition WATCH_DOMAIN : bytes := domain "agent-scale-control-watch-v5".
Definition MAP_DOMAIN : bytes := domain "agent-scale-control-map-v5".
Definition CONTROL_PROTOCOL_VERSION : Z := 5.

(** ** Payloads *)

Inductive InviteKind :=
| KClient
| KEdge (owner_id : string)
| KRelay (url : string).

Record Invite := {
  inv_protocol_version : Z;
  inv_audience : string;
  inv_control_url : string;
  inv_control_id : string;
  inv_invite_id : string;
  inv_name : string;
  inv_kind : InviteKind;
  inv_secret_hash : string;
  inv_expires_at : Z;
}.

Record Claim := {
  cl_protocol_version : Z;
  cl_invite_id : string;
  cl_endpoint_id : string;
  cl_issued_at : Z;
  cl_nonce : string;
  cl_relay_qad_port : option Z;
  cl_relay_tls_csr : option bytes;
}.

Record RelayInfo := { ri_name : string; ri_url : string; ri_qad_port : option Z }.

Record EdgeInfo := {
  ei_name : string;
  ei_endpoint_id : string;
  ei_owner_id : string;
  ei_owner_name : string;
}.

Record ClientInfo := { ci_name : string; ci_endpoint_id : string; ci_edges : nat }.

Record RelayNodeInfo := {
  rn_name : string;
  rn_endpoint_id : string;
  rn_url : string;
  rn_qad_port : option Z;
}.

Record InviteInfo := {
  ii_invite_id : string;
  ii_name : string;
  ii_kind : InviteKind;
  ii_expires_at : Z;
  ii_state : string;
}.

Record Overview := {
  ov_revision : Z;
  ov_clients : list ClientInfo;
  ov_edges : list EdgeInfo;
  ov_relays : list RelayNodeInfo;
  ov_invites : list InviteInfo;
}.

Record NodeMap := {
  nm_protocol_version : Z;
  nm_audience : string;
  nm_control_url : string;
  nm_control_id : string;
  nm_revision : Z;
  nm_issued_at : Z;
  nm_recipient_id : string;
  nm_relays : list RelayInfo;
  nm_relay_credential : option string;
  nm_relay_ca_der : bytes;
  nm_allowed_clients : list string;
  nm_edges : list EdgeInfo;
}.

Record ControlStatus := {
  cs_audience : string;
  cs_control_url : string;
  cs_control_id : string;
  cs_revision : Z;
  cs_clients : nat;
  cs_edges : nat;
  cs_relays : nat;
}.

Record InviteResult := { ir_invite_id : string; ir_join_url : string; ir_expires_at : Z }.

#[global] Instance InviteKind_eq : EqDecision InviteKind.
Proof. solve_decision. Defined.
#[global] Instance Invite_eq : EqDecision Invite.
Proof. solve_decision. Defined.

(** ** Provisioner requests *)

Definition PROVISIONER_AUTH_SCHEME : string := "AgentScale-Ed25519".
Definition REQUEST_DOMAIN : bytes :=
  domain "agent-scale-control-provisioner-http-v1" ++ domain "POST" ++ domain "/v1/provisioner".

Inductive ProvisionerAction :=
| GetTopology
| InviteClient (name : string) (ttl_secs : Z) (secret : string)
| InviteEdge (owner name : string) (ttl_secs : Z) (secret : string)
| RevokeInvite (invite_id : string)
| RemoveClient (name : string)
| RemoveEdge (owner name : string)
| TransferEdge (owner name endpoint_id new_owner : string).

Record ProvisionerRequest := {
  pr_protocol_version : Z;
  pr_audience : string;
  pr_request_id : string;
  pr_issued_at : Z;
  pr_expected_revision : option Z;
  pr_action : ProvisionerAction;
}.

Record ManagedEdgeInfo := { me_name : string; me_endpoint_id : string }.
Record ManagedClientInfo := {
  mc_name : string;
  mc_endpoint_id : string;
  mc_edges : list ManagedEdgeInfo;
}.
Record ProvisionerTopology := {
  pt_revision : Z;
  pt_clients : list ManagedClientInfo;
  pt_invites : list InviteInfo;
}.
Inductive ProvisionerResponse :=
| RTopology (t : ProvisionerTopology)
| RInvite (r : InviteResult)
| ROk (revision : Z).

Record ProvisionerHttpRequest := { ph_body : bytes; ph_authorization : string }.

(** The tuples whose serialization a request's signature covers. *)
Definition EdgeInvitePayload : Type := Z * string * string * string * Z * string * Z.
Definition EdgeRemovePayload : Type := Z * string * string * string * Z * string * string.
Definition StatusPayload : Type := Z * string * string * Z * string.
Definition WatchPayload : Type := Z * string * Z * Z * string * option Z.

Section Messages.
Context `{Keys}.

Record JoinToken := { jt_invite : Invite; jt_secret : string; jt_signature : Signature }.
Record ClaimRequest := { cr_token : JoinToken; cr_claim : Claim; cr_signature : Signature }.

Record EdgeInviteRequest := {
  eir_protocol_version : Z;
  eir_client_id : string;
  eir_audience : string;
  eir_request_id : string;
  eir_issued_at : Z;
  eir_name : string;
  eir_ttl_secs : Z;
  eir_signature : Signature;
}.

Record EdgeRemoveRequest := {
  err_protocol_version : Z;
  err_client_id : string;
  err_audience : string;
  err_nonce : string;
  err_issued_at : Z;
  err_name : string;
  err_endpoint_id : string;
  err_signature : Signature;
}.

Record StatusRequest := {
  sr_protocol_version : Z;
  sr_client_id : string;
  sr_audience : string;
  sr_issued_at : Z;
  sr_nonce : string;
  sr_signature : Signature;
}.

Record WatchRequest := {
  wr_protocol_version : Z;
  wr_endpoint_id : string;
  wr_known_revision : Z;
  wr_issued_at : Z;
  wr_nonce : string;
  wr_relay_qad_port : option Z;
  wr_signature : Signature;
}.

Record SignedNodeMap := { snm_map : NodeMap; snm_signature : Signature }.

Record JoinResult := {
  jr_name : string;
  jr_kind : InviteKind;
  jr_map : SignedNodeMap;
  jr_relay_tls_certificate_der : option bytes;
}.
End Messages.

(** The serializers of every signed or encoded Control payload. *)
Class ControlSerde `{Keys} := {
  serde_invite :: Serde Invite;
  serde_join_token :: Serde JoinToken;
  serde_claim :: Serde Claim;
  serde_edge_invite :: Serde EdgeInvitePayload;
  serde_edge_remove :: Serde EdgeRemovePayload;
  serde_status :: Serde StatusPayload;
  serde_watch :: Serde WatchPayload;
  serde_node_map :: Serde NodeMap;
  serde_action :: Serde ProvisionerAction;
  serde_provisioner_request :: Serde ProvisionerRequest;
}.

Class ControlSerdeLaws `{ControlSerde} : Prop := {
  serde_invite_ok :: SerdeLaws Invite;
  serde_join_token_ok :: SerdeLaws JoinToken;
  serde_claim_ok :: SerdeLaws Claim;
  serde_edge_invite_ok :: SerdeLaws EdgeInvitePayload;
  serde_edge_remove_ok :: SerdeLaws EdgeRemovePayload;
  serde_status_ok :: SerdeLaws StatusPayload;
  serde_watch_ok :: SerdeLaws WatchPayload;
  serde_node_map_ok :: SerdeLaws NodeMap;
  serde_action_ok :: SerdeLaws ProvisionerAction;
  serde_provisioner_request_ok :: SerdeLaws ProvisionerRequest;
}.

Section Operations.
Context `{Keys, Encodings, !ControlSerde}.

Definition ensure_protocol_version (version : Z) : result string unit :=
  ensure (version == CONTROL_PROTOCOL_VERSION)
    ("unsupported control protocol version " ++ pretty version ++ "; expected "
     ++ pretty CONTROL_PROTOCOL_VERSION).

Definition domain_bytes {T} `{Serde T} (dom : bytes) (value : T) : bytes :=
  dom ++ to_vec value.

Definition hash_secret (secret : string) : string :=
  hex_encode (sha256 (domain "agent-scale-invite-secret-v2"
                      ++ String.list_byte_of_string secret)%list).

(** *** Join tokens and claims *)

Definition token_new (invite : Invite) (secret : string) (key : SecretKey)
  : result string JoinToken :=
  Ok {| jt_invite := invite;
        jt_secret := secret;
        jt_signature := key_sign key (domain_bytes INVITE_DOMAIN invite) |}.

Definition token_verify (t : JoinToken) : result string EndpointId :=
  ensure_protocol_version (inv_protocol_version (jt_invite t));;
  id ← of_option (id_parse (inv_control_id (jt_invite t))) "invalid control id";
  ensure (id_verify id (domain_bytes INVITE_DOMAIN (jt_invite t)) (jt_signature t))
    "invalid invite signature";;
  ensure (hash_secret (jt_secret t) == inv_secret_hash (jt_invite t)) "invalid invite secret";;
  Ok id.

Definition token_encode (t : JoinToken) : result string string :=
  Ok (b64_encode (to_vec t)).

Definition token_decode (value : string) : result string JoinToken :=
  b ← of_option (b64_decode value) "invalid join token encoding";
  of_option (from_slice b) "invalid join token".

Definition token_join_url (t : JoinToken) : result string string :=
  encoded ← token_encode t;
  Ok (Str.trim_end_matches "/" (inv_control_url (jt_invite t)) ++ "/join#" ++ encoded).

Definition claim_sign_with_relay_qad (token : JoinToken) (key : SecretKey) (issued_at : Z)
  (nonce : string) (relay_qad_port : option Z) (relay_tls_csr : option bytes)
  : result string ClaimRequest :=
  let claim :=
    {| cl_protocol_version := CONTROL_PROTOCOL_VERSION;
       cl_invite_id := inv_invite_id (jt_invite token);
       cl_endpoint_id := id_to_string (public key);
       cl_issued_at := issued_at;
       cl_nonce := nonce;
       cl_relay_qad_port := relay_qad_port;
       cl_relay_tls_csr := relay_tls_csr |} in
  Ok {| cr_token := token;
        cr_claim := claim;
        cr_signature := key_sign key (domain_bytes CLAIM_DOMAIN claim) |}.

Definition claim_sign (token : JoinToken) (key : SecretKey) (issued_at : Z) (nonce : string)
  : result string ClaimRequest :=
  claim_sign_with_relay_qad token key issued_at nonce None None.

Definition claim_verify (r : ClaimRequest) : result string EndpointId :=
  ensure_protocol_version (cl_protocol_version (cr_claim r));;
  ensure (cl_invite_id (cr_claim r) == inv_invite_id (jt_invite (cr_token r)))
    "invite id mismatch";;
  id ← of_option (id_parse (cl_endpoint_id (cr_claim r))) "invalid endpoint id";
  ensure (id_verify id (domain_bytes CLAIM_DOMAIN (cr_claim r)) (cr_signature r))
    "invalid claim signature";;
  Ok id.

(** *** Client requests. A request is built with a placeholder signature that
    is then replaced; [signing_bytes] does not cover the signature. *)

Definition edge_invite_payload (r : EdgeInviteRequest) : EdgeInvitePayload :=
  (eir_protocol_version r, eir_client_id r, eir_audience r, eir_request_id r,
   eir_issued_at r, eir_name r, eir_ttl_secs r).

Definition edge_invite_signing_bytes (r : EdgeInviteRequest) : bytes :=
  domain_bytes EDGE_INVITE_REQUEST_DOMAIN (edge_invite_payload r).

Definition edge_invite_sign (key : SecretKey) (audience request_id : string) (issued_at : Z)
  (name : string) (ttl_secs : Z) : result string EdgeInviteRequest :=
  let request signature :=
    {| eir_protocol_version := CONTROL_PROTOCOL_VERSION;
       eir_client_id := id_to_string (public key);
       eir_audience := audience;
       eir_request_id := request_id;
       eir_issued_at := issued_at;
       eir_name := name;
       eir_ttl_secs := ttl_secs;
       eir_signature := signature |} in
  let placeholder := request (key_sign key (String.list_byte_of_string "placeholder")) in
  Ok (request (key_sign key (edge_invite_signing_bytes placeholder))).

Definition edge_invite_verify (r : EdgeInviteRequest) : result string EndpointId :=
  ensure_protocol_version (eir_protocol_version r);;
  id ← of_option (id_parse (eir_client_id r)) "invalid client id";
  ensure (id_verify id (edge_invite_signing_bytes r) (eir_signature r))
    "invalid edge invitation request signature";;
  Ok id.

Definition edge_remove_payload (r : EdgeRemoveRequest) : EdgeRemovePayload :=
  (err_protocol_version r, err_client_id r, err_audience r, err_nonce r,
   err_issued_at r, err_name r, err_endpoint_id r).

Definition edge_remove_signing_bytes (r : EdgeRemoveRequest) : bytes :=
  domain_bytes EDGE_REMOVE_REQUEST_DOMAIN (edge_remove_payload r).

Definition edge_remove_sign (key : SecretKey) (audience nonce : string) (issued_at : Z)
  (name endpoint_id : string) : result string EdgeRemoveRequest :=
  _ ← of_option (id_parse endpoint_id) "invalid edge endpoint id";
  let request signature :=
    {| err_protocol_version := CONTROL_PROTOCOL_VERSION;
       err_client_id := id_to_string (public key);
       err_audience := audience;
       err_nonce := nonce;
       err_issued_at := issued_at;
       err_name := name;
       err_endpoint_id := endpoint_id;
       err_signature := signature |} in
  let placeholder := request (key_sign key (String.list_byte_of_string "placeholder")) in
  Ok (request (key_sign key (edge_remove_signing_bytes placeholder))).

Definition edge_remove_verify (r : EdgeRemoveRequest) : result string EndpointId :=
  ensure_protocol_version (err_protocol_version r);;
  _ ← of_option (id_parse (err_endpoint_id r)) "invalid edge endpoint id";
  id ← of_option (id_parse (err_client_id r)) "invalid client id";
  ensure (id_verify id (edge_remove_signing_bytes r) (err_signature r))
    "invalid edge removal request signature";;
  Ok id.

Definition status_payload (r : StatusRequest) : StatusPayload :=
  (sr_protocol_version r, sr_client_id r, sr_audience r, sr_issued_at r, sr_nonce r).

Definition status_signing_bytes (r : StatusRequest) : bytes :=
  domain_bytes STATUS_REQUEST_DOMAIN (status_payload r).

Definition status_sign (key : SecretKey) (audience : string) (issued_at : Z) (nonce : string)
  : result string StatusRequest :=
  let request signature :=
    {| sr_protocol_version := CONTROL_PROTOCOL_VERSION;
       sr_client_id := id_to_string (public key);
       sr_audience := audience;
       sr_issued_at := issued_at;
       sr_nonce := nonce;
       sr_signature := signature |} in
  let placeholder := request (key_sign key (String.list_byte_of_string "placeholder")) in
  Ok (request (key_sign key (status_signing_bytes placeholder))).

Definition status_verify (r : StatusRequest) : result string EndpointId :=
  ensure_protocol_version (sr_protocol_version r);;
  id ← of_option (id_parse (sr_client_id r)) "invalid client id";
  ensure (id_verify id (status_signing_bytes r) (sr_signature r))
    "invalid status request signature";;
  Ok id.

(** *** Watches *)

Definition watch_payload (r : WatchRequest) : WatchPayload :=
  (wr_protocol_version r, wr_endpoint_id r, wr_known_revision r, wr_issued_at r,
   wr_nonce r, wr_relay_qad_port r).

Definition watch_signing_bytes (r : WatchRequest) : bytes :=
  domain_bytes WATCH_DOMAIN (watch_payload r).

Definition watch_sign (key : SecretKey) (known_revision issued_at : Z) (nonce : string)
  : result string WatchRequest :=
  let request signature :=
    {| wr_protocol_version := CONTROL_PROTOCOL_VERSION;
       wr_endpoint_id := id_to_string (public key);
       wr_known_revision := known_revision;
       wr_issued_at := issued_at;
       wr_nonce := nonce;
       wr_relay_qad_port := None;
       wr_signature := signature |} in
  let placeholder := request (key_sign key (String.list_byte_of_string "placeholder")) in
  Ok (request (key_sign key (watch_signing_bytes placeholder))).

Definition watch_sign_relay (key : SecretKey) (known_revision issued_at : Z) (nonce : string)
  (relay_qad_port : option Z) : result string WatchRequest :=
  request ← watch_sign key known_revision issued_at nonce;
  let with_port signature :=
    {| wr_protocol_version := wr_protocol_version request;
       wr_endpoint_id := wr_endpoint_id request;
       wr_known_revision := wr_known_revision request;
       wr_issued_at := wr_issued_at request;
       wr_nonce := wr_nonce request;
       wr_relay_qad_port := relay_qad_port;
       wr_signature := signature |} in
  let request' := with_port (wr_signature request) in
  Ok (with_port (key_sign key (watch_signing_bytes request'))).

Definition watch_verify (r : WatchRequest) : result string EndpointId :=
  ensure_protocol_version (wr_protocol_version r);;
  id ← of_option (id_parse (wr_endpoint_id r)) "invalid endpoint id";
  ensure (id_verify id (watch_signing_bytes r) (wr_signature r)) "invalid watch signature";;
  Ok id.

(** *** Node maps *)

Definition node_map_sign (map : NodeMap) (key : SecretKey) : result string SignedNodeMap :=
  Ok {| snm_map := map; snm_signature := key_sign key (domain_bytes MAP_DOMAIN map) |}.

Definition node_map_verify (m : SignedNodeMap) (control_id recipient : EndpointId)
  : result string unit :=
  ensure_protocol_version (nm_protocol_version (snm_map m));;
  ensure (nm_control_id (snm_map m) == id_to_string control_id) "control id mismatch";;
  ensure (nm_recipient_id (snm_map m) == id_to_string recipient) "map recipient mismatch";;
  ensure (id_verify control_id (domain_bytes MAP_DOMAIN (snm_map m)) (snm_signature m))
    "invalid node map signature".

(** *** Provisioner authorization *)

Definition provisioner_signing_bytes (body : bytes) : bytes := REQUEST_DOMAIN ++ sha256 body.

Definition provisioner_authorization (key : SecretKey) (body : bytes) : string :=
  let signature := key_sign key (provisioner_signing_bytes body) in
  PROVISIONER_AUTH_SCHEME ++ " " ++ id_to_string (public key) ++ ":"
  ++ hex_encode (sig_to_bytes signature).

Definition verify_provisioner_authorization (value : string) (body : bytes)
  : result string EndpointId :=
  credentials ← of_option
    (match Str.strip_prefix PROVISIONER_AUTH_SCHEME value with
     | Some value => Str.strip_prefix " " value
     | None => None
     end) "unsupported provisioner authorization scheme";
  '(endpoint_id, encoded_signature) ← of_option (Str.split_once ":" credentials)
    "malformed provisioner authorization credentials";
  ensure (endpoint_id != "") "missing provisioner endpoint id";;
  ensure ((encoded_signature != "") && negb (Str.contains ":" encoded_signature))
    "malformed provisioner signature";;
  endpoint_id ← of_option (id_parse endpoint_id) "invalid provisioner endpoint id";
  signature_bytes ← of_option (hex_decode encoded_signature)
    "invalid provisioner signature encoding";
  ensure (length signature_bytes == 64%nat) "invalid provisioner signature length";;
  ensure (id_verify endpoint_id (provisioner_signing_bytes body)
            (sig_from_bytes signature_bytes))
    "invalid provisioner request signature";;
  Ok endpoint_id.

Definition provisioner_http_new (request : ProvisionerRequest) (key : SecretKey)
  : result string ProvisionerHttpRequest :=
  let body := to_vec request in
  Ok {| ph_body := body; ph_authorization := provisioner_authorization key body |}.

Definition provisioner_http_verify (r : ProvisionerHttpRequest) : result string EndpointId :=
  verify_provisioner_authorization (ph_authorization r) (ph_body r).

Definition provisioner_sign (key : SecretKey) (audience request_id : string) (issued_at : Z)
  (expected_revision : option Z) (action : ProvisionerAction)
  : result string ProvisionerHttpRequest :=
  provisioner_http_new
    {| pr_protocol_version := CONTROL_PROTOCOL_VERSION;
       pr_audience := audience;
       pr_request_id := request_id;
       pr_issued_at := issued_at;
       pr_expected_revision := expected_revision;
       pr_action := action |} key.

Definition verify_protocol (r : ProvisionerRequest) : result string unit :=
  ensure_protocol_version (pr_protocol_version r).

Definition action_hash (action : ProvisionerAction) : result string string :=
  Ok (hex_encode (sha256 (domain "agent-scale-control-provisioner-action-v1"
                          ++ to_vec action)%list)).
End Operations.

(** ** Signatures *)

(** Every domain a signature is computed under, in both API crates. *)
Definition SIGNING_DOMAINS : list bytes :=
  [INVITE_DOMAIN; CLAIM_DOMAIN; EDGE_INVITE_REQUEST_DOMAIN; EDGE_REMOVE_REQUEST_DOMAIN;
   STATUS_REQUEST_DOMAIN; WATCH_DOMAIN; MAP_DOMAIN; REQUEST_DOMAIN;
   CREDENTIAL_DOMAIN; REVOCATION_DOMAIN].

Lemma SIGNING_DOMAINS_prefix_free d1 d2 :
  d1 ∈ SIGNING_DOMAINS -> d2 ∈ SIGNING_DOMAINS -> d1 `prefix_of` d2 -> d1 = d2.
Proof.
  assert (Hc : Vec.all (fun d1 => Vec.all (fun d2 =>
            (d1 == d2) || negb (bool_decide (d1 `prefix_of` d2)))%bool SIGNING_DOMAINS)
          SIGNING_DOMAINS = true) by (vm_compute; reflexivity).
  intros H1 H2 Hp. eapply Vec.all_true in Hc; [|exact H1].
  eapply Vec.all_true in Hc; [|exact H2].
  apply orb_true_iff in Hc as [E|E]; breflect; done.
Qed.

(** Domain separation: the bytes signed for one kind of message are never
    the bytes signed for another, whatever the serializer produces, so a
    signature cannot be replayed as one for a different message kind. *)
Theorem signing_domains_separate {T1 T2} `{Serde T1, Serde T2} d1 d2 (v1 : T1) (v2 : T2) :
  d1 ∈ SIGNING_DOMAINS -> d2 ∈ SIGNING_DOMAINS ->
  domain_bytes d1 v1 = domain_bytes d2 v2 -> d1 = d2.
Proof.
  unfold domain_bytes. intros H1 H2 E.
  assert (Hp : d1 `prefix_of` d2 \/ d2 `prefix_of` d1).
  { apply (prefix_weak_total _ _ (d1 ++ to_vec v1)%list); [by eexists|rewrite E; by eexists]. }
  destruct Hp; [|symmetry]; by apply SIGNING_DOMAINS_prefix_free.
Qed.

Lemma domain_bytes_inj {T} `{SerdeLaws T} d (v1 v2 : T) :
  domain_bytes d v1 = domain_bytes d v2 -> v1 = v2.
Proof. unfold domain_bytes. intros ?%(inj (app d)). by apply to_vec_inj. Qed.

Section RoundTrips.
Context `{KeysLaws, EncodingsLaws, !ControlSerde, !ControlSerdeLaws}.

(** Enrollment: a token Control issues for an invitation decodes from its
    fragment to itself and verifies to Control's identity, and a claim made with
    it verifies to the claimant's identity. *)
Theorem enrollment_roundtrip (invite : Invite) (secret nonce : string) (control node : SecretKey)
  (issued_at : Z) (qad_port : option Z) (csr : option bytes) :
  inv_protocol_version invite = CONTROL_PROTOCOL_VERSION ->
  inv_control_id invite = id_to_string (public control) ->
  inv_secret_hash invite = hash_secret secret ->
  exists token request,
    token_new invite secret control = Ok token /\
    (fragment ← token_encode token; token_decode fragment) = Ok token /\
    token_verify token = Ok (public control) /\
    claim_sign_with_relay_qad token node issued_at nonce qad_port csr = Ok request /\
    claim_verify request = Ok (public node).
Proof.
  intros Hv Hc Hh. do 2 eexists. split_and!; [reflexivity| | |reflexivity|].
  - unfold token_encode, token_decode. prove_ok; [apply b64_decode_encode|].
    apply from_slice_to_vec.
  - unfold token_verify, ensure_protocol_version; cbn. rewrite Hc, id_parse_to_string.
    prove_ok; try done. apply id_verify_sign.
  - unfold claim_verify, ensure_protocol_version; cbn. rewrite id_parse_to_string.
    prove_ok; try done. apply id_verify_sign.
Qed.

(** Every request a Client, Edge or Relay signs verifies to its own
    identity, and a node map verifies for exactly the Control and recipient it
    names. *)
Theorem request_signatures_verify (key : SecretKey) (audience id name nonce : string)
  (edge : EndpointId) (issued_at ttl known : Z) (port : option Z) :
  (edge_invite_sign key audience id issued_at name ttl ≫= edge_invite_verify) = Ok (public key) /\
  (edge_remove_sign key audience nonce issued_at name (id_to_string edge) ≫= edge_remove_verify)
    = Ok (public key) /\
  (status_sign key audience issued_at nonce ≫= status_verify) = Ok (public key) /\
  (watch_sign key known issued_at nonce ≫= watch_verify) = Ok (public key) /\
  (watch_sign_relay key known issued_at nonce port ≫= watch_verify) = Ok (public key) /\
  (forall map recipient,
     nm_protocol_version map = CONTROL_PROTOCOL_VERSION ->
     nm_control_id map = id_to_string (public key) ->
     (node_map_sign map key ≫= fun m => node_map_verify m (public key) recipient) = Ok tt <->
     nm_recipient_id map = id_to_string recipient).
Proof.
  unfold edge_invite_sign, edge_remove_sign, status_sign, watch_sign_relay, watch_sign,
    node_map_sign, edge_invite_verify, edge_remove_verify, status_verify, watch_verify,
    ensure_protocol_version.
  split_and!.
  1-5: prove_ok; cbn; rewrite ?id_parse_to_string; prove_ok; cbn; rewrite ?id_parse_to_string;
       try done; try apply id_verify_sign.
  intros map recipient Hv Hc. unfold node_map_verify, ensure_protocol_version. split.
  - intros Hm. run_ok. done.
  - intros Hr. prove_ok; cbn; prove_ok; try done. apply id_verify_sign.
Qed.

(** The [Authorization] value a Provisioner computes for a body is accepted
    for that body and identifies the Provisioner; the signed request decodes to
    the request that was built. *)
Theorem provisioner_authorization_roundtrip (key : SecretKey) (audience request_id : string)
  (issued_at : Z) (expected_revision : option Z) (action : ProvisionerAction) :
  exists http request,
    provisioner_sign key audience request_id issued_at expected_revision action = Ok http /\
    provisioner_http_verify http = Ok (public key) /\
    from_slice (ph_body http) = Some request /\
    verify_protocol request = Ok tt /\ pr_action request = action.
Proof.
  do 2 eexists. split_and!; [reflexivity| |apply from_slice_to_vec|by cbn|done].
  unfold provisioner_http_verify, provisioner_http_new, verify_provisioner_authorization,
    provisioner_authorization; cbn [ph_body ph_authorization].
  rewrite Str.strip_prefix_app, (Str.strip_prefix_app " "). cbn [of_option].
  apply bind_Ok. eexists; split; [reflexivity|]. apply bind_Ok. eexists; split.
  { apply of_option_Ok, (Str.split_once_app ":" (id_to_string (public key))).
    apply id_to_string_no_colon. }
  cbn beta iota. prove_ok.
  - apply id_to_string_nonempty.
  - intros E%(f_equal String.length). rewrite hex_encode_length, sig_bytes_length in E.
    discriminate E.
  - apply Str.contains_false, hex_encode_no_colon.
  - apply id_parse_to_string.
  - apply hex_decode_encode.
  - apply sig_bytes_length.
  - rewrite sig_from_to. apply id_verify_sign.
Qed.
End RoundTrips.

Section Binding.
Context `{Keys, Encodings, !ControlSerde, !ControlSerdeLaws}.
Context `{SerdeLaws RelayCredential, SerdeLaws RevocationUpdate}.
(** Message-bound security of the signature scheme: under one key, no signature
    verifies for two messages. *)
Hypothesis signature_message_bound : forall id m m' s,
  id_verify id m s = true -> id_verify id m' s = true -> m = m'.

Lemma bound_payload {T} `{SerdeLaws T} d id (v v' : T) s :
  id_verify id (domain_bytes d v) s = true -> id_verify id (domain_bytes d v') s = true -> v = v'.
Proof. intros Hv Hv'. eapply domain_bytes_inj, signature_message_bound; eauto. Qed.

(** Tamper evidence: two messages accepted under the same identity with the
    same signature are equal, so no signed field of an invitation, claim,
    Client request, watch, node map, credential or revocation update can be
    changed without invalidating it. *)
Theorem verified_messages_are_bound (id id' : EndpointId) :
  (forall t t', token_verify t = Ok id -> token_verify t' = Ok id ->
     jt_signature t = jt_signature t' -> jt_invite t = jt_invite t') /\
  (forall r r', claim_verify r = Ok id -> claim_verify r' = Ok id ->
     cr_signature r = cr_signature r' -> cr_claim r = cr_claim r') /\
  (forall r r', edge_invite_verify r = Ok id -> edge_invite_verify r' = Ok id ->
     eir_signature r = eir_signature r' -> r = r') /\
  (forall r r', edge_remove_verify r = Ok id -> edge_remove_verify r' = Ok id ->
     err_signature r = err_signature r' -> r = r') /\
  (forall r r', status_verify r = Ok id -> status_verify r' = Ok id ->
     sr_signature r = sr_signature r' -> r = r') /\
  (forall r r', watch_verify r = Ok id -> watch_verify r' = Ok id ->
     wr_signature r = wr_signature r' -> r = r') /\
  (forall m m', node_map_verify m id id' = Ok tt -> node_map_verify m' id id' = Ok tt ->
     snm_signature m = snm_signature m' -> m = m') /\
  (forall c c', credential_verify c id = Ok tt -> credential_verify c' id = Ok tt ->
     src_signature c = src_signature c' -> c = c') /\
  (forall u u', update_verify u id = Ok tt -> update_verify u' id = Ok tt ->
     sru_signature u = sru_signature u' -> u = u').
Proof.
  split_and!; intros a b Ha Hb Hs;
    unfold token_verify, claim_verify, edge_invite_verify, edge_remove_verify, status_verify,
      watch_verify, node_map_verify, credential_verify, update_verify in Ha, Hb;
    run_ok; rewrite Hs in *;
    match goal with
    | H1 : id_verify _ _ ?s = true, H2 : id_verify _ _ ?s = true |- _ =>
        pose proof (bound_payload _ _ _ _ _ H1 H2) as E
    end;
    try exact E; destruct a, b; cbn in *; unfold edge_invite_payload, edge_remove_payload,
      status_payload, watch_payload in E; cbn in *; congruence.
Qed.
End Binding.
