(* ===== verification/State.v ===== *)
(** * as-control: the Control state and its deltas

    Models the records of crates/as-control/src/main.rs, [StateChange],
    [StateDelta] and [upsert_record]: the in-memory snapshot that every handler
    reads and the only way it is mutated. *)
From S2P Require Import Prelude Deps ControlApi.
Open Scope string_scope.
Open Scope Z_scope.
Import Vec.

Definition STATE_SCHEMA : Z := 6.

Record ClientRecord := {
  c_name : string;
  c_endpoint_id : string;
  c_managed_by : option string;
  c_generation : Z;
  c_issued_at : Z;
  c_expires_at : Z;
}.

Record EdgeRecord := {
  e_name : string;
  e_endpoint_id : string;
  e_owner_id : string;
  e_generation : Z;
  e_issued_at : Z;
  e_expires_at : Z;
}.

Record RelayRecord := {
  r_name : string;
  r_endpoint_id : string;
  r_url : string;
  r_qad_port : option Z;
}.

Record RevocationRecord := {
  v_endpoint_id : string;
  v_generation : Z;
  v_expires_at : Z;
  v_revision : Z;
}.

Record ProvisionerRecord := { p_name : string; p_endpoint_id : string }.

Inductive InviteState := Pending | Claimed | Revoked.

Record InviteRecord := {
  i_invite : Invite;
  i_state : InviteState;
  i_claimed_by : option string;
  i_request_id : option string;
  i_managed_by : option string;
  i_request_hash : option string;
  i_terminal_at : option Z;
}.

Record ControlState := {
  st_schema : Z;
  st_audience : string;
  st_public_url : string;
  st_relay_ca_der : bytes;
  st_revision : Z;
  st_relay_revision : Z;
  st_clients : list ClientRecord;
  st_edges : list EdgeRecord;
  st_relays : list RelayRecord;
  st_invites : list InviteRecord;
  st_provisioners : list ProvisionerRecord;
  st_revocations : list RevocationRecord;
}.

#[global] Instance ClientRecord_eq : EqDecision ClientRecord.
Proof. solve_decision. Defined.
#[global] Instance EdgeRecord_eq : EqDecision EdgeRecord.
Proof. solve_decision. Defined.
#[global] Instance RelayRecord_eq : EqDecision RelayRecord.
Proof. solve_decision. Defined.
#[global] Instance RevocationRecord_eq : EqDecision RevocationRecord.
Proof. solve_decision. Defined.
#[global] Instance ProvisionerRecord_eq : EqDecision ProvisionerRecord.
Proof. solve_decision. Defined.
#[global] Instance InviteState_eq : EqDecision InviteState.
Proof. solve_decision. Defined.
#[global] Instance InviteRecord_eq : EqDecision InviteRecord.
Proof. solve_decision. Defined.

(** [invite.invite.invite_id], the key of an invitation record *)
Definition i_id (i : InviteRecord) : string := inv_invite_id (i_invite i).

(** Field updates of the mutable state. *)
Definition with_clients (s : ControlState) v := {|
  st_schema := st_schema s; st_audience := st_audience s; st_public_url := st_public_url s;
  st_relay_ca_der := st_relay_ca_der s; st_revision := st_revision s;
  st_relay_revision := st_relay_revision s; st_clients := v; st_edges := st_edges s;
  st_relays := st_relays s; st_invites := st_invites s;
  st_provisioners := st_provisioners s; st_revocations := st_revocations s |}.
Definition with_edges (s : ControlState) v := {|
  st_schema := st_schema s; st_audience := st_audience s; st_public_url := st_public_url s;
  st_relay_ca_der := st_relay_ca_der s; st_revision := st_revision s;
  st_relay_revision := st_relay_revision s; st_clients := st_clients s; st_edges := v;
  st_relays := st_relays s; st_invites := st_invites s;
  st_provisioners := st_provisioners s; st_revocations := st_revocations s |}.
Definition with_relays (s : ControlState) v := {|
  st_schema := st_schema s; st_audience := st_audience s; st_public_url := st_public_url s;
  st_relay_ca_der := st_relay_ca_der s; st_revision := st_revision s;
  st_relay_revision := st_relay_revision s; st_clients := st_clients s;
  st_edges := st_edges s; st_relays := v; st_invites := st_invites s;
  st_provisioners := st_provisioners s; st_revocations := st_revocations s |}.
Definition with_invites (s : ControlState) v := {|
  st_schema := st_schema s; st_audience := st_audience s; st_public_url := st_public_url s;
  st_relay_ca_der := st_relay_ca_der s; st_revision := st_revision s;
  st_relay_revision := st_relay_revision s; st_clients := st_clients s;
  st_edges := st_edges s; st_relays := st_relays s; st_invites := v;
  st_provisioners := st_provisioners s; st_revocations := st_revocations s |}.
Definition with_provisioners (s : ControlState) v := {|
  st_schema := st_schema s; st_audience := st_audience s; st_public_url := st_public_url s;
  st_relay_ca_der := st_relay_ca_der s; st_revision := st_revision s;
  st_relay_revision := st_relay_revision s; st_clients := st_clients s;
  st_edges := st_edges s; st_relays := st_relays s; st_invites := st_invites s;
  st_provisioners := v; st_revocations := st_revocations s |}.
Definition with_revocations (s : ControlState) v := {|
  st_schema := st_schema s; st_audience := st_audience s; st_public_url := st_public_url s;
  st_relay_ca_der := st_relay_ca_der s; st_revision := st_revision s;
  st_relay_revision := st_relay_revision s; st_clients := st_clients s;
  st_edges := st_edges s; st_relays := st_relays s; st_invites := st_invites s;
  st_provisioners := st_provisioners s; st_revocations := v |}.
Definition with_revisions (s : ControlState) revision relay_revision := {|
  st_schema := st_schema s; st_audience := st_audience s; st_public_url := st_public_url s;
  st_relay_ca_der := st_relay_ca_der s; st_revision := revision;
  st_relay_revision := relay_revision; st_clients := st_clients s;
  st_edges := st_edges s; st_relays := st_relays s; st_invites := st_invites s;
  st_provisioners := st_provisioners s; st_revocations := st_revocations s |}.

(** ** Deltas *)

Inductive StateChange :=
| PutClient (record : ClientRecord)
| DeleteClient (endpoint_id : string)
| PutEdge (record : EdgeRecord)
| DeleteEdge (endpoint_id : string)
| PutRelay (record : RelayRecord)
| DeleteRelay (endpoint_id : string)
| PutInvite (record : InviteRecord)
| DeleteInvite (invite_id : string)
| PutProvisioner (record : ProvisionerRecord)
| DeleteProvisioner (endpoint_id : string)
| PutRevocation (record : RevocationRecord)
| DeleteRevocation (endpoint_id : string).

Inductive Publish := PublishNone | PublishNodes | PublishNodesAndRelays.

Record StateDelta := { d_changes : list StateChange; d_publish : Publish }.

Definition delta_quiet (changes : list StateChange) : StateDelta :=
  {| d_changes := changes; d_publish := PublishNone |}.
Definition delta_topology (changes : list StateChange) : StateDelta :=
  {| d_changes := changes; d_publish := PublishNodes |}.
Definition delta_revocation (changes : list StateChange) : StateDelta :=
  {| d_changes := changes; d_publish := PublishNodesAndRelays |}.

Fixpoint upsert_record {T} (items : list T) (record : T) (same_key : T -> T -> bool) : list T :=
  match items with
  | [] => [record]
  | item :: items =>
      if same_key item record then record :: items
      else item :: upsert_record items record same_key
  end.

Definition apply_change (state : ControlState) (change : StateChange) : ControlState :=
  match change with
  | PutClient record => with_clients state
      (upsert_record (st_clients state) record (fun item key => c_endpoint_id item == c_endpoint_id key))
  | DeleteClient endpoint_id => with_clients state
      (retain (fun item => c_endpoint_id item != endpoint_id) (st_clients state))
  | PutEdge record => with_edges state
      (upsert_record (st_edges state) record (fun item key => e_endpoint_id item == e_endpoint_id key))
  | DeleteEdge endpoint_id => with_edges state
      (retain (fun item => e_endpoint_id item != endpoint_id) (st_edges state))
  | PutRelay record => with_relays state
      (upsert_record (st_relays state) record (fun item key => r_endpoint_id item == r_endpoint_id key))
  | DeleteRelay endpoint_id => with_relays state
      (retain (fun item => r_endpoint_id item != endpoint_id) (st_relays state))
  | PutInvite record => with_invites state
      (upsert_record (st_invites state) record
         (fun item key => inv_invite_id (i_invite item) == inv_invite_id (i_invite key)))
  | DeleteInvite invite_id => with_invites state
      (retain (fun item => inv_invite_id (i_invite item) != invite_id) (st_invites state))
  | PutProvisioner record => with_provisioners state
      (upsert_record (st_provisioners state) record
         (fun item key => p_endpoint_id item == p_endpoint_id key))
  | DeleteProvisioner endpoint_id => with_provisioners state
      (retain (fun item => p_endpoint_id item != endpoint_id) (st_provisioners state))
  | PutRevocation record => with_revocations state
      (upsert_record (st_revocations state) record
         (fun item key => v_endpoint_id item == v_endpoint_id key))
  | DeleteRevocation endpoint_id => with_revocations state
      (retain (fun item => v_endpoint_id item != endpoint_id) (st_revocations state))
  end.

(** [StateDelta::apply] *)
Definition delta_apply (delta : StateDelta) (state : ControlState) : ControlState :=
  fold_left apply_change (d_changes delta) state.

Lemma upsert_record_keyed {T} (key : T -> string) l x :
  upsert_record l x (fun a b => key a == key b) = Keyed.upsert key l x.
Proof. induction l as [|y l IH]; cbn; [done|]. by rewrite IH. Qed.
