(* ===== verification/Database.v ===== *)
(** * as-control: the durable database

    Models crates/as-control/src/db.rs over the tables of schema.sql. A table
    is the list of its rows in rowid order; every SQL statement of the program
    is a function on the tables that fails with SQLite's constraint error, with
    the CHECK, UNIQUE, PRIMARY KEY and FOREIGN KEY clauses of the schema written
    out (CHECK first, then UNIQUE, then the foreign keys at the end of the
    statement). A transaction that fails is rolled back: its caller keeps the
    tables it had. The rows of [clients], [edges], [relays] and
    [relay_revocations] have exactly the columns of the in-memory records. *)
From stdpp Require Import pretty.
From S2P Require Import Prelude Deps ControlApi State.
Open Scope string_scope.
Open Scope Z_scope.
Import Vec.

Record MetadataRow := {
  md_schema_version : Z;
  md_audience : string;
  md_public_url : string;
  md_relay_ca_der : bytes;
  md_revision : Z;
  md_relay_revision : Z;
}.

Record ProvisionerRow := { pv_endpoint_id : string; pv_name : string; pv_active : bool }.

Record InvitationRow := {
  iv_invite_id : string;
  iv_name : string;
  iv_kind : string;
  iv_owner_id : option string;
  iv_invite_json : bytes;
  iv_expires_at : Z;
  iv_state : string;
  iv_claimed_by : option string;
  iv_request_id : option string;
  iv_managed_by : option string;
  iv_request_hash : option string;
  iv_terminal_at : option Z;
}.

Record Database := {
  db_metadata : option MetadataRow;
  db_provisioners : list ProvisionerRow;
  db_clients : list ClientRecord;
  db_edges : list EdgeRecord;
  db_revocations : list RevocationRecord;
  db_relays : list RelayRecord;
  db_invitations : list InvitationRow;
}.

Definition db_with_clients (d : Database) v invitations := {|
  db_metadata := db_metadata d; db_provisioners := db_provisioners d; db_clients := v;
  db_edges := db_edges d; db_revocations := db_revocations d; db_relays := db_relays d;
  db_invitations := invitations |}.
Definition db_with_edges (d : Database) v := {|
  db_metadata := db_metadata d; db_provisioners := db_provisioners d;
  db_clients := db_clients d; db_edges := v; db_revocations := db_revocations d;
  db_relays := db_relays d; db_invitations := db_invitations d |}.
Definition db_with_revocations (d : Database) v := {|
  db_metadata := db_metadata d; db_provisioners := db_provisioners d;
  db_clients := db_clients d; db_edges := db_edges d; db_revocations := v;
  db_relays := db_relays d; db_invitations := db_invitations d |}.
Definition db_with_relays (d : Database) v := {|
  db_metadata := db_metadata d; db_provisioners := db_provisioners d;
  db_clients := db_clients d; db_edges := db_edges d; db_revocations := db_revocations d;
  db_relays := v; db_invitations := db_invitations d |}.
Definition db_with_invitations (d : Database) v := {|
  db_metadata := db_metadata d; db_provisioners := db_provisioners d;
  db_clients := db_clients d; db_edges := db_edges d; db_revocations := db_revocations d;
  db_relays := db_relays d; db_invitations := v |}.
Definition db_with_provisioners (d : Database) v := {|
  db_metadata := db_metadata d; db_provisioners := v;
  db_clients := db_clients d; db_edges := db_edges d; db_revocations := db_revocations d;
  db_relays := db_relays d; db_invitations := db_invitations d |}.
Definition db_with_metadata (d : Database) v := {|
  db_metadata := v; db_provisioners := db_provisioners d;
  db_clients := db_clients d; db_edges := db_edges d; db_revocations := db_revocations d;
  db_relays := db_relays d; db_invitations := db_invitations d |}.

(** ** The schema's constraints *)

Definition FK_FAILED : string := "FOREIGN KEY constraint failed".

(** Indexed columns: [None] is a NULL, which no UNIQUE index constrains. *)
Definition client_name_key (c : ClientRecord) : option string := Some (c_name c).
Definition edge_name_key (e : EdgeRecord) : option (string * string) :=
  Some (e_owner_id e, e_name e).
Definition relay_name_key (r : RelayRecord) : option string := Some (r_name r).
Definition relay_url_key (r : RelayRecord) : option string := Some (r_url r).
Definition provisioner_name_key (p : ProvisionerRow) : option string :=
  if pv_active p then Some (pv_name p) else None.
Definition edge_owner_ref (e : EdgeRecord) : option string := Some (e_owner_id e).

Definition provisioner_ids (d : Database) : list string := pv_endpoint_id <$> db_provisioners d.
Definition client_ids (d : Database) : list string := c_endpoint_id <$> db_clients d.

Definition check_client (c : ClientRecord) : bool :=
  (0 <? c_generation c) && (c_issued_at c <? c_expires_at c).
Definition check_edge (e : EdgeRecord) : bool :=
  (0 <? e_generation e) && (e_issued_at e <? e_expires_at e).
Definition check_revocation (v : RevocationRecord) : bool :=
  (0 <? v_generation v) && (0 <? v_revision v).
Definition check_relay (r : RelayRecord) : bool :=
  match r_qad_port r with None => true | Some p => (1 <=? p) && (p <=? 65535) end.
Definition check_invitation (i : InvitationRow) : bool :=
  bool_decide (iv_kind i ∈ ["client"; "edge"; "relay"]) &&
  bool_decide (iv_state i ∈ ["pending"; "claimed"; "revoked"]) &&
  ((iv_kind i == "edge") || (iv_owner_id i == None)) &&
  Bool.eqb (iv_state i == "pending") (iv_terminal_at i == None).
Definition check_metadata (m : MetadataRow) : bool :=
  (md_audience m != "") && (md_public_url m != "") && (md_relay_ca_der m != []) &&
  (0 <=? md_revision m) && (0 <? md_relay_revision m).

(** ** SQL statements *)

(** [INSERT INTO clients(..) VALUES (..) ON CONFLICT(endpoint_id) DO UPDATE SET ..] *)
Definition put_client (d : Database) (c : ClientRecord) : result string Database :=
  ensure (check_client c) "CHECK constraint failed: clients";;
  ensure (Keyed.secondary_free c_endpoint_id client_name_key (db_clients d) c)
    "UNIQUE constraint failed: clients.name";;
  ensure (Keyed.refers_ok c_managed_by c (provisioner_ids d)) FK_FAILED;;
  Ok (db_with_clients d (Keyed.upsert c_endpoint_id (db_clients d) c) (db_invitations d)).

Definition unset_owner (endpoint_id : string) (i : InvitationRow) : InvitationRow :=
  if iv_owner_id i == Some endpoint_id then {|
    iv_invite_id := iv_invite_id i; iv_name := iv_name i; iv_kind := iv_kind i;
    iv_owner_id := None; iv_invite_json := iv_invite_json i; iv_expires_at := iv_expires_at i;
    iv_state := iv_state i; iv_claimed_by := iv_claimed_by i; iv_request_id := iv_request_id i;
    iv_managed_by := iv_managed_by i; iv_request_hash := iv_request_hash i;
    iv_terminal_at := iv_terminal_at i |} else i.

(** [DELETE FROM clients WHERE endpoint_id = ?1]: [edges.owner_id] restricts the
    deletion, [invitations.owner_id] is set to NULL. *)
Definition delete_client (d : Database) (endpoint_id : string) : result string Database :=
  if any (fun c => c_endpoint_id c == endpoint_id) (db_clients d) then
    ensure (negb (any (fun e => e_owner_id e == endpoint_id) (db_edges d))) FK_FAILED;;
    Ok (db_with_clients d (Keyed.without c_endpoint_id endpoint_id (db_clients d))
          (unset_owner endpoint_id <$> db_invitations d))
  else Ok d.

Definition put_edge (d : Database) (e : EdgeRecord) : result string Database :=
  ensure (check_edge e) "CHECK constraint failed: edges";;
  ensure (Keyed.secondary_free e_endpoint_id edge_name_key (db_edges d) e)
    "UNIQUE constraint failed: edges.owner_id, edges.name";;
  ensure (Keyed.refers_ok edge_owner_ref e (client_ids d)) FK_FAILED;;
  Ok (db_with_edges d (Keyed.upsert e_endpoint_id (db_edges d) e)).

Definition delete_edge (d : Database) (endpoint_id : string) : result string Database :=
  Ok (db_with_edges d (Keyed.without e_endpoint_id endpoint_id (db_edges d))).

Definition put_relay (d : Database) (r : RelayRecord) : result string Database :=
  ensure (check_relay r) "CHECK constraint failed: relays";;
  ensure (Keyed.secondary_free r_endpoint_id relay_name_key (db_relays d) r)
    "UNIQUE constraint failed: relays.name";;
  ensure (Keyed.secondary_free r_endpoint_id relay_url_key (db_relays d) r)
    "UNIQUE constraint failed: relays.url";;
  Ok (db_with_relays d (Keyed.upsert r_endpoint_id (db_relays d) r)).

Definition delete_relay (d : Database) (endpoint_id : string) : result string Database :=
  Ok (db_with_relays d (Keyed.without r_endpoint_id endpoint_id (db_relays d))).

Definition put_invitation (d : Database) (i : InvitationRow) : result string Database :=
  ensure (check_invitation i) "CHECK constraint failed: invitations";;
  ensure (Keyed.secondary_free iv_invite_id iv_request_id (db_invitations d) i)
    "UNIQUE constraint failed: invitations.request_id";;
  ensure (Keyed.refers_ok iv_owner_id i (client_ids d)) FK_FAILED;;
  ensure (Keyed.refers_ok iv_managed_by i (provisioner_ids d)) FK_FAILED;;
  Ok (db_with_invitations d (Keyed.upsert iv_invite_id (db_invitations d) i)).

Definition delete_invitation (d : Database) (invite_id : string) : result string Database :=
  Ok (db_with_invitations d (Keyed.without iv_invite_id invite_id (db_invitations d))).

Definition put_provisioner (d : Database) (endpoint_id name : string) : result string Database :=
  let row := {| pv_endpoint_id := endpoint_id; pv_name := name; pv_active := true |} in
  ensure (Keyed.secondary_free pv_endpoint_id provisioner_name_key (db_provisioners d) row)
    "UNIQUE constraint failed: provisioners.name";;
  Ok (db_with_provisioners d (Keyed.upsert pv_endpoint_id (db_provisioners d) row)).

(** [ensure_provisioner_placeholder] *)
Definition ensure_provisioner_placeholder (d : Database) (endpoint_id : string)
  : result string Database :=
  if any (fun p => pv_endpoint_id p == endpoint_id) (db_provisioners d) then Ok d
  else Ok (db_with_provisioners d (db_provisioners d ++
             [{| pv_endpoint_id := endpoint_id; pv_name := "deleted:" ++ endpoint_id;
                 pv_active := false |}])).

(** [UPDATE provisioners SET active = 0 WHERE endpoint_id = ?1] *)
Definition deactivate_provisioner (d : Database) (endpoint_id : string) : result string Database :=
  Ok (db_with_provisioners d
        ((fun p => if pv_endpoint_id p == endpoint_id
                   then {| pv_endpoint_id := pv_endpoint_id p; pv_name := pv_name p;
                           pv_active := false |}
                   else p) <$> db_provisioners d)).

(** [DELETE FROM provisioners WHERE active = 0 AND endpoint_id NOT IN (the
    managed_by of some invitation or client)]. The deleted rows have no
    references, so neither foreign key acts. *)
Definition delete_unreferenced_provisioners (d : Database) : result string Database :=
  Ok (db_with_provisioners d
        (retain (fun p => pv_active p ||
                   any (fun i => iv_managed_by i == Some (pv_endpoint_id p)) (db_invitations d) ||
                   any (fun c => c_managed_by c == Some (pv_endpoint_id p)) (db_clients d))%bool
           (db_provisioners d))).

Definition put_revocation (d : Database) (v : RevocationRecord) : result string Database :=
  ensure (check_revocation v) "CHECK constraint failed: relay_revocations";;
  Ok (db_with_revocations d (Keyed.upsert v_endpoint_id (db_revocations d) v)).

Definition delete_revocation (d : Database) (endpoint_id : string) : result string Database :=
  Ok (db_with_revocations d (Keyed.without v_endpoint_id endpoint_id (db_revocations d))).

(** [UPDATE metadata SET revision = ?1, relay_revision = ?2 WHERE id = 1 AND
    revision = ?3 AND relay_revision = ?4], followed by the check that one row
    changed. *)
Definition update_revisions (d : Database)
  (revision relay_revision expected_revision expected_relay_revision : Z)
  : result string Database :=
  match db_metadata d with
  | Some m =>
      if (md_revision m == expected_revision) && (md_relay_revision m == expected_relay_revision)
      then
        let m' := {| md_schema_version := md_schema_version m; md_audience := md_audience m;
                     md_public_url := md_public_url m; md_relay_ca_der := md_relay_ca_der m;
                     md_revision := revision; md_relay_revision := relay_revision |} in
        ensure (check_metadata m') "CHECK constraint failed: metadata";;
        Ok (db_with_metadata d (Some m'))
      else Err "durable Control revision changed while applying mutation"
  | None => Err "durable Control revision changed while applying mutation"
  end.

(** ** [apply_delta_sync] *)

Definition invite_state_text (s : InviteState) : string :=
  match s with Pending => "pending" | Claimed => "claimed" | Revoked => "revoked" end.

Section WithSerde.
Context `{Serde Invite}.

(** The column values of an invitation, its [owner_id] given separately. *)
Definition invitation_row (item : InviteRecord) (owner_id : option string) : InvitationRow := {|
  iv_invite_id := inv_invite_id (i_invite item);
  iv_name := inv_name (i_invite item);
  iv_kind := match inv_kind (i_invite item) with
             | KClient => "client" | KEdge _ => "edge" | KRelay _ => "relay" end;
  iv_owner_id := owner_id;
  iv_invite_json := to_vec (i_invite item);
  iv_expires_at := inv_expires_at (i_invite item);
  iv_state := invite_state_text (i_state item);
  iv_claimed_by := i_claimed_by item;
  iv_request_id := i_request_id item;
  iv_managed_by := i_managed_by item;
  iv_request_hash := i_request_hash item;
  iv_terminal_at := i_terminal_at item |}.

Definition invite_owner_column (kind : InviteKind) : option string :=
  match kind with KEdge owner_id => Some owner_id | _ => None end.

(** One iteration of the loop of [apply_delta_sync]. *)
Definition apply_change_sync (relay_revision : Z) (d : Database) (change : StateChange)
  : result string Database :=
  match change with
  | PutClient item =>
      d ← match c_managed_by item with
          | Some endpoint_id => ensure_provisioner_placeholder d endpoint_id
          | None => Ok d
          end;
      _ ← of_option (i64_try_from (c_generation item))
            "Client credential generation exceeds SQLite range";
      put_client d item
  | DeleteClient endpoint_id => delete_client d endpoint_id
  | PutEdge item =>
      _ ← of_option (i64_try_from (e_generation item))
            "Edge credential generation exceeds SQLite range";
      put_edge d item
  | DeleteEdge endpoint_id => delete_edge d endpoint_id
  | PutRelay item => put_relay d item
  | DeleteRelay endpoint_id => delete_relay d endpoint_id
  | PutInvite item =>
      d ← match i_managed_by item with
          | Some endpoint_id => ensure_provisioner_placeholder d endpoint_id
          | None => Ok d
          end;
      put_invitation d (invitation_row item (invite_owner_column (inv_kind (i_invite item))))
  | DeleteInvite invite_id => delete_invitation d invite_id
  | PutProvisioner item => put_provisioner d (p_endpoint_id item) (p_name item)
  | DeleteProvisioner endpoint_id => deactivate_provisioner d endpoint_id
  | PutRevocation item =>
      ensure (v_revision item <=? relay_revision) "revocation record is ahead of Relay revision";;
      _ ← of_option (i64_try_from (v_generation item))
            "revoked credential generation exceeds SQLite range";
      _ ← of_option (i64_try_from (v_revision item)) "revocation revision exceeds SQLite range";
      put_revocation d item
  | DeleteRevocation endpoint_id => delete_revocation d endpoint_id
  end.

Fixpoint apply_changes_sync (relay_revision : Z) (changes : list StateChange) (d : Database)
  : result string Database :=
  match changes with
  | [] => Ok d
  | change :: changes =>
      d ← apply_change_sync relay_revision d change;
      apply_changes_sync relay_revision changes d
  end.

(** [io] says whether SQLite's own input and output succeed; when they do not,
    the transaction is rolled back. *)
Definition apply_delta_sync (io : bool)
  (expected_revision expected_relay_revision revision relay_revision : Z)
  (delta : StateDelta) (d : Database) : result string Database :=
  ensure ((revision == expected_revision) ||
          (revision == u64_saturating_add expected_revision 1))
    "control revision must remain unchanged or advance atomically by one";;
  ensure ((relay_revision == expected_relay_revision) ||
          (relay_revision == u64_saturating_add expected_relay_revision 1))
    "Relay revision must remain unchanged or advance atomically by one";;
  d ← apply_changes_sync relay_revision (d_changes delta) d;
  d ← delete_unreferenced_provisioners d;
  revision ← of_option (i64_try_from revision) "control revision exceeds SQLite range";
  relay_revision ← of_option (i64_try_from relay_revision) "Relay revision exceeds SQLite range";
  expected_revision ← of_option (i64_try_from expected_revision)
    "control revision exceeds SQLite range";
  expected_relay_revision ← of_option (i64_try_from expected_relay_revision)
    "Relay revision exceeds SQLite range";
  d ← update_revisions d revision relay_revision expected_revision expected_relay_revision;
  ensure io "disk I/O error";;
  Ok d.

(** ** [load] *)

(** ORDER BY one column, or two *)
Definition by_key {T} (key : T -> string) (a b : T) : Prop := str_le (key a) (key b).
#[global] Instance by_key_dec {T} (key : T -> string) a b : Decision (by_key key a b).
Proof. unfold by_key. apply _. Defined.
Definition by_owner_name (a b : EdgeRecord) : Prop :=
  if e_owner_id a == e_owner_id b then str_le (e_name a) (e_name b)
  else str_le (e_owner_id a) (e_owner_id b).
#[global] Instance by_owner_name_dec a b : Decision (by_owner_name a b).
Proof. unfold by_owner_name. destruct (bool_decide _); apply _. Defined.

Definition load_invitation (row : InvitationRow) : result string InviteRecord :=
  invite ← of_option (from_slice (iv_invite_json row)) "Conversion error from type Text";
  state ← (if iv_state row == "pending" then Ok Pending
           else if iv_state row == "claimed" then Ok Claimed
           else if iv_state row == "revoked" then Ok Revoked
           else Err "Query is not read-only");
  Ok {| i_invite := invite; i_state := state; i_claimed_by := iv_claimed_by row;
        i_request_id := iv_request_id row; i_managed_by := iv_managed_by row;
        i_request_hash := iv_request_hash row; i_terminal_at := iv_terminal_at row |}.

(** The [u64] columns of a row, read back from SQLite's signed integers. *)
Definition load_client (c : ClientRecord) : result string ClientRecord :=
  _ ← of_option (u64_try_from (c_generation c)) "Integer 0 out of range at index 3"; Ok c.
Definition load_edge (e : EdgeRecord) : result string EdgeRecord :=
  _ ← of_option (u64_try_from (e_generation e)) "Integer 0 out of range at index 3"; Ok e.
Definition load_revocation (v : RevocationRecord) : result string RevocationRecord :=
  _ ← of_option (u64_try_from (v_generation v)) "Integer 0 out of range at index 1";
  _ ← of_option (u64_try_from (v_revision v)) "Integer 0 out of range at index 3"; Ok v.

Definition provisioner_of (p : ProvisionerRow) : ProvisionerRecord :=
  {| p_name := pv_name p; p_endpoint_id := pv_endpoint_id p |}.

Definition active_provisioners (d : Database) : list ProvisionerRecord :=
  provisioner_of <$> retain pv_active (db_provisioners d).

Definition load (d : Database) : result string ControlState :=
  m ← of_option (db_metadata d)
        "database is not initialized; run `as-control init` to initialize a new network";
  ensure (md_schema_version m == STATE_SCHEMA)
    ("unsupported state schema " ++ pretty (md_schema_version m));;
  revision ← of_option (u64_try_from (md_revision m)) "negative control revision";
  relay_revision ← of_option (u64_try_from (md_relay_revision m)) "negative Relay revision";
  let provisioners := merge_sort (by_key p_name) (active_provisioners d) in
  clients ← collect load_client (merge_sort (by_key c_name) (db_clients d));
  edges ← collect load_edge (merge_sort by_owner_name (db_edges d));
  let relays := merge_sort (by_key r_name) (db_relays d) in
  invites ← collect load_invitation (db_invitations d);
  revocations ← collect load_revocation (merge_sort (by_key v_endpoint_id) (db_revocations d));
  Ok {| st_schema := md_schema_version m; st_audience := md_audience m;
        st_public_url := md_public_url m; st_relay_ca_der := md_relay_ca_der m;
        st_revision := revision; st_relay_revision := relay_revision;
        st_clients := clients; st_edges := edges; st_relays := relays; st_invites := invites;
        st_provisioners := provisioners; st_revocations := revocations |}.
End WithSerde.

(** ** The schema as an invariant *)

Definition invitations_ok (l : list InvitationRow) (clients provisioners : list string) : Prop :=
  Keyed.table iv_invite_id check_invitation l /\
  Keyed.secondary iv_invite_id iv_request_id l /\
  Keyed.refers iv_owner_id l clients /\
  Keyed.refers iv_managed_by l provisioners.

(** Every constraint of schema.sql holds of the tables. *)
Record db_ok (d : Database) : Prop := {
  ok_metadata : forall m, db_metadata d = Some m -> check_metadata m = true;
  ok_provisioners : Keyed.unique pv_endpoint_id (db_provisioners d);
  ok_provisioner_names : Keyed.secondary pv_endpoint_id provisioner_name_key (db_provisioners d);
  ok_clients : Keyed.table c_endpoint_id check_client (db_clients d);
  ok_client_names : Keyed.secondary c_endpoint_id client_name_key (db_clients d);
  ok_client_managers : Keyed.refers c_managed_by (db_clients d) (provisioner_ids d);
  ok_edges : Keyed.table e_endpoint_id check_edge (db_edges d);
  ok_edge_names : Keyed.secondary e_endpoint_id edge_name_key (db_edges d);
  ok_edge_owners : Keyed.refers edge_owner_ref (db_edges d) (client_ids d);
  ok_revocations : Keyed.table v_endpoint_id check_revocation (db_revocations d);
  ok_relays : Keyed.table r_endpoint_id check_relay (db_relays d);
  ok_relay_names : Keyed.secondary r_endpoint_id relay_name_key (db_relays d);
  ok_relay_urls : Keyed.secondary r_endpoint_id relay_url_key (db_relays d);
  ok_invitations : invitations_ok (db_invitations d) (client_ids d) (provisioner_ids d);
}.

Section Refinement.
Context `{Serde Invite}.

(** ** The specification the tables implement

    [admissible] is the condition, stated on the in-memory snapshot alone, under
    which the database accepts a change. *)
Definition admissible (relay_revision : Z) (st : ControlState) (change : StateChange) : bool :=
  match change with
  | PutClient c => (c_generation c <=? i64_max) && check_client c &&
      Keyed.secondary_free c_endpoint_id client_name_key (st_clients st) c
  | DeleteClient id => negb (any (fun e => e_owner_id e == id) (st_edges st))
  | PutEdge e => (e_generation e <=? i64_max) && check_edge e &&
      Keyed.secondary_free e_endpoint_id edge_name_key (st_edges st) e &&
      any (fun c => c_endpoint_id c == e_owner_id e) (st_clients st)
  | PutRelay r => check_relay r &&
      Keyed.secondary_free r_endpoint_id relay_name_key (st_relays st) r &&
      Keyed.secondary_free r_endpoint_id relay_url_key (st_relays st) r
  | PutInvite i => Bool.eqb (i_state i == Pending) (i_terminal_at i == None) &&
      Keyed.secondary_free i_id i_request_id (st_invites st) i &&
      match inv_kind (i_invite i) with
      | KEdge owner => any (fun c => c_endpoint_id c == owner) (st_clients st)
      | _ => true
      end
  | PutProvisioner p =>
      Keyed.secondary_free p_endpoint_id (fun q => Some (p_name q)) (st_provisioners st) p
  | PutRevocation v => (v_revision v <=? relay_revision) && (v_generation v <=? i64_max) &&
      (v_revision v <=? i64_max) && check_revocation v
  | DeleteEdge _ | DeleteRelay _ | DeleteInvite _ | DeleteProvisioner _
  | DeleteRevocation _ => true
  end.

Fixpoint admissible_all (relay_revision : Z) (st : ControlState) (changes : list StateChange)
  : bool :=
  match changes with
  | [] => true
  | change :: changes =>
      admissible relay_revision st change &&
      admissible_all relay_revision (apply_change st change) changes
  end.

(** ** The abstraction relation *)

Definition metadata_of (st : ControlState) : MetadataRow := {|
  md_schema_version := st_schema st; md_audience := st_audience st;
  md_public_url := st_public_url st; md_relay_ca_der := st_relay_ca_der st;
  md_revision := st_revision st; md_relay_revision := st_relay_revision st |}.

(** The row of an invitation: its owner column is the invitation's owner, or
    NULL once the owner was deleted. *)
Definition invitation_row_of (row : InvitationRow) (i : InviteRecord) : Prop :=
  exists owner, row = invitation_row i owner /\
    (owner = invite_owner_column (inv_kind (i_invite i)) \/ owner = None).

Record represents (d : Database) (st : ControlState) : Prop := {
  rep_metadata : db_metadata d = Some (metadata_of st);
  rep_provisioners : active_provisioners d ≡ₚ st_provisioners st;
  rep_clients : db_clients d ≡ₚ st_clients st;
  rep_edges : db_edges d ≡ₚ st_edges st;
  rep_revocations : db_revocations d ≡ₚ st_revocations st;
  rep_relays : db_relays d ≡ₚ st_relays st;
  rep_invites : Forall2 invitation_row_of (db_invitations d) (st_invites st);
}.

Definition refines (r : result string Database) (accepted : bool) (st : ControlState) : Prop :=
  match r with
  | Ok d => accepted = true /\ db_ok d /\ represents d st
  | Err _ => accepted = false
  end.

(** *** Stepping through guarded statements *)

Lemma refines_ensure b e (k : unit -> result string Database) rest st :
  (b = true -> refines (k tt) rest st) -> refines (u ← ensure b e; k u) (b && rest) st.
Proof. destruct b; cbn; auto. Qed.

Lemma refines_ensure_last b e (k : unit -> result string Database) st :
  (b = true -> refines (k tt) true st) -> refines (u ← ensure b e; k u) b st.
Proof. destruct b; cbn; auto. Qed.

Lemma refines_i64 x e (k : Z -> result string Database) rest st :
  (x <= i64_max -> refines (k x) rest st) ->
  refines (u ← of_option (i64_try_from x) e; k u) ((x <=? i64_max) && rest) st.
Proof. unfold i64_try_from. destruct (Z.leb_spec x i64_max); cbn; auto. Qed.

Lemma refines_accepted a b r st : a = b -> refines r a st -> refines r b st.
Proof. by intros ->. Qed.

Lemma elem_of_keys {T} (key : T -> string) (l : list T) k :
  bool_decide (k ∈ key <$> l) = any (fun x => key x == k) l.
Proof.
  apply eq_true_iff_eq. rewrite bool_decide_eq_true, any_true, list_elem_of_fmap.
  setoid_rewrite bool_decide_eq_true. naive_solver.
Qed.


Lemma invitations_ok_mono l cs cs' ps ps' :
  (forall k, k ∈ cs -> k ∈ cs') -> (forall k, k ∈ ps -> k ∈ ps') ->
  invitations_ok l cs ps -> invitations_ok l cs' ps'.
Proof. intros Hc Hp (? & ? & ? & ?). repeat split; eauto using Keyed.refers_mono; apply H0. Qed.

Lemma keys_upsert_mono {T} (key : T -> string) l x k :
  k ∈ key <$> l -> k ∈ key <$> Keyed.upsert key l x.
Proof. rewrite Keyed.keys_upsert. auto. Qed.


(** *** The rows of invitations and provisioners *)

Lemma unset_owner_id k i : iv_invite_id (unset_owner k i) = iv_invite_id i.
Proof. unfold unset_owner. by case_match. Qed.
Lemma unset_owner_request k i : iv_request_id (unset_owner k i) = iv_request_id i.
Proof. unfold unset_owner. by case_match. Qed.
Lemma unset_owner_manager k i : iv_managed_by (unset_owner k i) = iv_managed_by i.
Proof. unfold unset_owner. by case_match. Qed.
Lemma unset_owner_owner k i p :
  iv_owner_id (unset_owner k i) = Some p <-> iv_owner_id i = Some p /\ p <> k.
Proof. unfold unset_owner. case_bool_decide; cbn; naive_solver. Qed.
Lemma unset_owner_check k i : check_invitation i = true -> check_invitation (unset_owner k i) = true.
Proof.
  unfold unset_owner. case_bool_decide; [|done]. unfold check_invitation; cbn.
  rewrite (bool_decide_eq_true_2 (None = None)) by done. rewrite orb_true_r.
  intros ?. breflect. by repeat (apply andb_true_iff; split); try apply bool_decide_eq_true_2.
Qed.

Lemma unset_owner_ok k l cs ps :
  invitations_ok l cs ps ->
  invitations_ok (unset_owner k <$> l) (retain (fun c => c != k) cs) ps.
Proof.
  intros ([Hu Hc] & Hs & Ho & Hm). repeat split.
  - unfold Keyed.unique. rewrite <- list_fmap_compose.
    erewrite list_fmap_ext; [exact Hu|]. intros _ i _. apply unset_owner_id.
  - apply all_true. intros i (j & -> & Hj)%list_elem_of_fmap.
    apply unset_owner_check. by eapply all_true in Hc.
  - intros a b v (i & -> & Hi)%list_elem_of_fmap (j & -> & Hj)%list_elem_of_fmap.
    rewrite !unset_owner_request, !unset_owner_id. by apply Hs.
  - intros a p (i & -> & Hi)%list_elem_of_fmap [??]%unset_owner_owner.
    apply elem_of_retain. split; [by eapply Ho|]. by apply negb_true_iff, bool_decide_eq_false.
  - intros a p (i & -> & Hi)%list_elem_of_fmap. rewrite unset_owner_manager. by apply Hm.
Qed.

Lemma unset_owner_rows k rows l :
  Forall2 invitation_row_of rows l -> Forall2 invitation_row_of (unset_owner k <$> rows) l.
Proof.
  induction 1 as [|row i rows l (owner & -> & Ho)]; constructor; [|done].
  unfold unset_owner. case_bool_decide; [|by eexists].
  exists None. split; [done|by right].
Qed.

Lemma invitation_row_key row i : invitation_row_of row i -> iv_invite_id row = i_id i.
Proof. by intros (? & -> & _). Qed.

Lemma invitation_row_request row i : invitation_row_of row i -> iv_request_id row = i_request_id i.
Proof. by intros (? & -> & _). Qed.

Lemma invitation_rows_free rows l row i :
  Forall2 invitation_row_of rows l -> invitation_row_of row i ->
  Keyed.secondary_free iv_invite_id iv_request_id rows row =
  Keyed.secondary_free i_id i_request_id l i.
Proof.
  intros Hl Hi. unfold Keyed.secondary_free. rewrite (invitation_row_request row i) by done.
  destruct (i_request_id i) as [v|]; [|done].
  induction Hl as [|a b rows l Hab Hl IH]; [done|]. cbn. f_equal; [|exact IH].
  by rewrite (invitation_row_key a b), (invitation_row_key row i), (invitation_row_request a b).
Qed.

Lemma invitation_row_check i owner :
  owner = None \/ owner = invite_owner_column (inv_kind (i_invite i)) ->
  check_invitation (invitation_row i owner) =
  Bool.eqb (i_state i == Pending) (i_terminal_at i == None).
Proof.
  intros Ho. unfold check_invitation, invitation_row; cbn.
  by destruct (inv_kind (i_invite i)), (i_state i), Ho as [->| ->].
Qed.

Lemma active_cons p l :
  provisioner_of <$> retain pv_active (p :: l) =
  ((if pv_active p then [provisioner_of p] else []) ++ (provisioner_of <$> retain pv_active l))%list.
Proof. cbn. by destruct (pv_active p). Qed.

Lemma active_upsert l row :
  Keyed.unique pv_endpoint_id l -> pv_active row = true ->
  provisioner_of <$> retain pv_active (Keyed.upsert pv_endpoint_id l row) ≡ₚ
  Keyed.upsert p_endpoint_id (provisioner_of <$> retain pv_active l) (provisioner_of row).
Proof.
  intros Hu Ha. induction l as [|y l IH]; [cbn; by rewrite Ha|].
  apply Keyed.unique_cons in Hu as [Hy Hu]. cbn [Keyed.upsert].
  case_bool_decide as E; rewrite !active_cons; [rewrite Ha|rewrite IH by done].
  - destruct (pv_active y); cbn; [by rewrite bool_decide_eq_true_2|].
    rewrite Keyed.upsert_fresh; [by rewrite Permutation_app_comm|].
    intros q (z & -> & [Hz _]%elem_of_retain)%list_elem_of_fmap. cbn. rewrite <- E. by apply Hy.
  - destruct (pv_active y); cbn; [|done]. by rewrite bool_decide_eq_false_2.
Qed.

Lemma active_free l row :
  pv_active row = true ->
  Keyed.secondary_free pv_endpoint_id provisioner_name_key l row =
  Keyed.secondary_free p_endpoint_id (fun q => Some (p_name q))
    (provisioner_of <$> retain pv_active l) (provisioner_of row).
Proof.
  intros Ha. unfold Keyed.secondary_free, provisioner_name_key. rewrite Ha. cbn.
  induction l as [|y l IH]; [done|]. rewrite active_cons. cbn.
  destruct (pv_active y); cbn; [f_equal; exact IH|].
  by rewrite (bool_decide_eq_false_2 (None = _)), orb_true_r.
Qed.

Lemma active_unique l : Keyed.unique pv_endpoint_id l ->
  Keyed.unique p_endpoint_id (provisioner_of <$> retain pv_active l).
Proof.
  intros Hu%(Keyed.unique_retain _ pv_active). unfold Keyed.unique.
  by rewrite <- list_fmap_compose.
Qed.

Lemma table_unique {T} (key : T -> string) check l : Keyed.table key check l -> Keyed.unique key l.
Proof. by intros [? _]. Qed.

#[local] Hint Resolve table_unique Keyed.table_upsert Keyed.table_retain Keyed.secondary_upsert
  Keyed.secondary_retain Keyed.refers_upsert Keyed.refers_retain Keyed.unique_upsert Keyed.unique_retain
  Keyed.upsert_perm Vec.retain_perm : schema.

(** Splits "the statement is accepted" into the schema's clauses and the
    abstraction's, and discharges those of the tables it does not write. *)
Ltac accepted :=
  cbn; split; [reflexivity|split; constructor; cbn; rewrite ?upsert_record_keyed;
  unfold Keyed.without; try done;
  eauto with schema].

Section Statements.
Variables (d : Database) (st : ControlState).
Hypotheses (Hok : db_ok d) (Hrep : represents d st).

Lemma put_client_refines c :
  Keyed.refers_ok c_managed_by c (provisioner_ids d) = true ->
  refines (put_client d c)
    (check_client c && Keyed.secondary_free c_endpoint_id client_name_key (st_clients st) c)
    (apply_change st (PutClient c)).
Proof.
  intros Hm. destruct Hok, Hrep. unfold put_client.
  rewrite <- (Keyed.secondary_free_perm _ _ _ _ c rep_clients0).
  apply refines_ensure; intros ?. apply refines_ensure_last; intros ?.
  rewrite Hm. accepted.
  - eapply Keyed.refers_mono, ok_edge_owners0. intros k. apply keys_upsert_mono.
  - eapply invitations_ok_mono, ok_invitations0; [|done]. intros k. apply keys_upsert_mono.
Qed.

Lemma put_edge_refines e :
  refines (put_edge d e)
    (check_edge e && Keyed.secondary_free e_endpoint_id edge_name_key (st_edges st) e &&
     any (fun c => c_endpoint_id c == e_owner_id e) (st_clients st))
    (apply_change st (PutEdge e)).
Proof.
  destruct Hok, Hrep. unfold put_edge.
  rewrite <- (Keyed.secondary_free_perm _ _ _ _ e rep_edges0), <- andb_assoc.
  apply refines_ensure; intros ?. apply refines_ensure; intros ?.
  rewrite <- (any_perm _ _ _ rep_clients0), <- elem_of_keys.
  apply refines_ensure_last; intros ?. accepted.
Qed.

Lemma put_relay_refines r :
  refines (put_relay d r)
    (check_relay r && Keyed.secondary_free r_endpoint_id relay_name_key (st_relays st) r &&
     Keyed.secondary_free r_endpoint_id relay_url_key (st_relays st) r)
    (apply_change st (PutRelay r)).
Proof.
  destruct Hok, Hrep. unfold put_relay.
  rewrite <- !(Keyed.secondary_free_perm _ _ _ _ r rep_relays0), <- andb_assoc.
  apply refines_ensure; intros ?. apply refines_ensure; intros ?.
  apply refines_ensure_last; intros ?. accepted.
Qed.

Lemma put_revocation_refines v :
  refines (put_revocation d v) (check_revocation v) (apply_change st (PutRevocation v)).
Proof.
  destruct Hok, Hrep. unfold put_revocation. apply refines_ensure_last; intros ?. accepted.
Qed.

Lemma delete_edge_refines k : refines (delete_edge d k) true (apply_change st (DeleteEdge k)).
Proof. destruct Hok, Hrep. accepted. Qed.

Lemma delete_relay_refines k : refines (delete_relay d k) true (apply_change st (DeleteRelay k)).
Proof. destruct Hok, Hrep. accepted. Qed.

Lemma delete_revocation_refines k :
  refines (delete_revocation d k) true (apply_change st (DeleteRevocation k)).
Proof. destruct Hok, Hrep. accepted. Qed.

Lemma delete_invitation_refines k :
  refines (delete_invitation d k) true (apply_change st (DeleteInvite k)).
Proof.
  destruct Hok as [], Hrep. accepted.
  - destruct ok_invitations0 as (? & ? & ? & ?).
    refine (conj _ (conj _ (conj _ _))); eauto with schema.
  - apply (Keyed.without_Forall2 iv_invite_id i_id); [|done]. apply invitation_row_key.
Qed.

Lemma delete_client_refines k :
  refines (delete_client d k) (negb (any (fun e => e_owner_id e == k) (st_edges st)))
    (apply_change st (DeleteClient k)).
Proof.
  destruct Hok, Hrep. unfold delete_client. rewrite <- (any_perm _ _ _ rep_edges0).
  destruct (any (fun c => c_endpoint_id c == k) (db_clients d)) eqn:Hk.
  - apply refines_ensure_last; intros Ho. accepted.
    + intros e p He [= <-]. unfold client_ids; cbn. apply Keyed.keys_without.
      split; [by eapply ok_edge_owners0|]. apply negb_true_iff in Ho.
      eapply any_false in Ho; [|done]. by breflect.
    + eapply invitations_ok_mono, unset_owner_ok, ok_invitations0; [|done].
      intros c [??]%elem_of_retain. apply Keyed.keys_without. by breflect.
    + by apply unset_owner_rows.
  - assert (Hno : any (fun e => e_owner_id e == k) (db_edges d) = false).
    { apply any_false. intros e He. apply bool_decide_eq_false. intros <-.
      assert (Hin : bool_decide (e_owner_id e ∈ client_ids d) = true)
        by (by apply bool_decide_eq_true, (ok_edge_owners0 e)).
      unfold client_ids in Hin. by rewrite elem_of_keys, Hk in Hin. }
    rewrite Hno. split; [done|]. split; [done|]. constructor; cbn; try done.
    rewrite <- (retain_perm _ _ _ rep_clients0). rewrite retain_all; [done|].
    intros c Hc. eapply any_false in Hk; [|done]. by rewrite Hk.
Qed.

Lemma put_invitation_refines i :
  Keyed.refers_ok i_managed_by i (provisioner_ids d) = true ->
  refines (put_invitation d (invitation_row i (invite_owner_column (inv_kind (i_invite i)))))
    (admissible 0 st (PutInvite i)) (apply_change st (PutInvite i)).
Proof.
  intros Hm. destruct Hok as [], Hrep. unfold put_invitation, admissible.
  destruct ok_invitations0 as (? & ? & ? & ?).
  assert (Hi : invitation_row_of (invitation_row i (invite_owner_column (inv_kind (i_invite i)))) i)
    by (by eexists; eauto).
  rewrite <- (invitation_rows_free _ _ _ _ rep_invites0 Hi), <- andb_assoc.
  pose proof (invitation_row_check i _ (or_intror eq_refl)) as Hc.
  rewrite <- Hc. clear Hc.
  apply refines_ensure; intros ?. apply refines_ensure; intros ?.
  eapply refines_accepted; [|apply refines_ensure_last; intros Ho].
  { unfold Keyed.refers_ok; cbn. destruct (inv_kind (i_invite i)); cbn; try done.
    unfold client_ids. by rewrite elem_of_keys, (any_perm _ _ _ rep_clients0). }
  unfold Keyed.refers_ok in Hm |- * at 1; cbn. rewrite Hm. accepted.
  - refine (conj _ (conj _ (conj _ _))); eauto with schema.
  - by apply (Keyed.upsert_Forall2 iv_invite_id i_id); [apply invitation_row_key|..].
Qed.

Lemma put_provisioner_refines p :
  refines (put_provisioner d (p_endpoint_id p) (p_name p))
    (Keyed.secondary_free p_endpoint_id (fun q => Some (p_name q)) (st_provisioners st) p)
    (apply_change st (PutProvisioner p)).
Proof.
  destruct Hok, Hrep. unfold put_provisioner.
  set (row := {| pv_endpoint_id := p_endpoint_id p; pv_name := p_name p; pv_active := true |}).
  assert (Hp : provisioner_of row = p) by (by destruct p).
  rewrite <- (Keyed.secondary_free_perm _ _ _ _ p rep_provisioners0).
  eapply refines_accepted; [|apply refines_ensure_last; intros ?; accepted].
  - rewrite (active_free _ row) by done. by rewrite Hp.
  - eapply Keyed.refers_mono, ok_client_managers0. intros k. apply keys_upsert_mono.
  - eapply invitations_ok_mono, ok_invitations0; [done|]. intros k. apply keys_upsert_mono.
  - etrans; [by apply (active_upsert _ row)|]. rewrite Hp.
    apply Keyed.upsert_perm; [by apply active_unique|done].
Qed.

Lemma placeholder_refines k :
  exists d', ensure_provisioner_placeholder d k = Ok d' /\ db_ok d' /\ represents d' st /\
    k ∈ provisioner_ids d'.
Proof.
  destruct Hok as [], Hrep as []. unfold ensure_provisioner_placeholder.
  rewrite <- elem_of_keys. case_bool_decide as Hk; [by exists d|].
  eexists. split; [done|].
  set (row := {| pv_endpoint_id := k; pv_name := "deleted:" +:+ k; pv_active := false |}).
  assert (Hup : (db_provisioners d ++ [row])%list = Keyed.upsert pv_endpoint_id (db_provisioners d) row).
  { rewrite Keyed.upsert_fresh; [done|]. intros y Hy E. apply Hk. unfold provisioner_ids.
    rewrite list_elem_of_fmap. eauto. }
  assert (Hact : active_provisioners (db_with_provisioners d (db_provisioners d ++ [row])%list) =
                 active_provisioners d).
  { unfold active_provisioners, retain; cbn. by rewrite List.filter_app, app_nil_r. }
  rewrite Hup in Hact |- *.
  split; [|split]; [split; cbn; try done; eauto with schema|..].
  - eapply Keyed.refers_mono, ok_client_managers0. intros j. apply keys_upsert_mono.
  - eapply invitations_ok_mono, ok_invitations0; [done|]. intros j. apply keys_upsert_mono.
  - split; try done. by rewrite Hact.
  - apply Keyed.keys_upsert. auto.
Qed.

Lemma manager_placeholder (m : option string) :
  exists d', match m with
             | Some k => ensure_provisioner_placeholder d k
             | None => Ok d
             end = Ok d' /\ db_ok d' /\ represents d' st /\
    match m with None => true | Some k => bool_decide (k ∈ provisioner_ids d') end = true.
Proof.
  destruct m as [k|]; [|by exists d].
  destruct (placeholder_refines k) as (d' & ? & ? & ? & ?). exists d'.
  split_and!; try done. by apply bool_decide_eq_true.
Qed.

Lemma active_deactivate k l :
  provisioner_of <$> retain pv_active
    ((fun p => if pv_endpoint_id p == k
               then {| pv_endpoint_id := pv_endpoint_id p; pv_name := pv_name p;
                       pv_active := false |} else p) <$> l) =
  Keyed.without p_endpoint_id k (provisioner_of <$> retain pv_active l).
Proof.
  induction l as [|y l IH]; [done|]. rewrite fmap_cons, !active_cons, IH.
  case_bool_decide as E; cbn [pv_active]; destruct (pv_active y); try done; cbn [app];
    rewrite Keyed.without_cons; [by rewrite bool_decide_eq_true_2|by rewrite bool_decide_eq_false_2].
Qed.

Lemma deactivate_provisioner_refines k :
  refines (deactivate_provisioner d k) true (apply_change st (DeleteProvisioner k)).
Proof.
  destruct Hok as [], Hrep as [].
  set (f p := if pv_endpoint_id p == k
              then {| pv_endpoint_id := pv_endpoint_id p; pv_name := pv_name p;
                      pv_active := false |} else p).
  assert (Hids : pv_endpoint_id <$> (f <$> db_provisioners d) = provisioner_ids d).
  { unfold provisioner_ids. rewrite <- list_fmap_compose. apply list_fmap_ext. intros _ p _.
    subst f. cbn. by case_match. }
  accepted; try (unfold provisioner_ids; cbn; fold f; by rewrite Hids).
  - unfold Keyed.unique. fold f. by rewrite Hids.
  - intros a b v (p & -> & Hp)%list_elem_of_fmap (q & -> & Hq)%list_elem_of_fmap.
    unfold provisioner_name_key. do 2 case_bool_decide; cbn; try done. by apply ok_provisioner_names0.
  - unfold active_provisioners; cbn. rewrite active_deactivate. by apply Keyed.without_perm.
Qed.

Lemma delete_unreferenced_refines : refines (delete_unreferenced_provisioners d) true st.
Proof.
  destruct Hok as [], Hrep as [].
  assert (Hkeep : forall k, k ∈ provisioner_ids d ->
    any (fun i => iv_managed_by i == Some k) (db_invitations d) ||
    any (fun c => c_managed_by c == Some k) (db_clients d) = true ->
    k ∈ pv_endpoint_id <$> retain (fun p => pv_active p ||
                   any (fun i => iv_managed_by i == Some (pv_endpoint_id p)) (db_invitations d) ||
                   any (fun c => c_managed_by c == Some (pv_endpoint_id p)) (db_clients d))%bool
           (db_provisioners d)).
  { intros k (p & -> & Hp)%list_elem_of_fmap Hr. apply list_elem_of_fmap. exists p.
    split; [done|]. apply elem_of_retain. split; [done|].
    by rewrite <- orb_assoc, Hr, orb_true_r. }
  accepted.
  - intros c p Hc E. apply Hkeep; [by eapply ok_client_managers0|].
    apply orb_true_iff. right. apply any_true. exists c. by rewrite E, bool_decide_eq_true_2.
  - destruct ok_invitations0 as (? & ? & ? & Hm). refine (conj _ (conj _ (conj _ _))); try done.
    intros i p Hi E. apply Hkeep; [by eapply Hm|].
    apply orb_true_iff. left. apply any_true. exists i. by rewrite E, bool_decide_eq_true_2.
  - rewrite <- rep_provisioners0. apply Permutation_map, eq_subrelation. apply _.
    unfold retain. cbn. clear. induction (db_provisioners d) as [|y l IH]; [done|].
    cbn. destruct (pv_active y) eqn:E; cbn; rewrite ?E, ?IH; [done|].
    case_match; cbn; by rewrite ?E, ?IH.
Qed.
End Statements.

Lemma apply_change_sync_refines rr d st change :
  db_ok d -> represents d st ->
  refines (apply_change_sync rr d change) (admissible rr st change) (apply_change st change).
Proof.
  intros Hok Hrep. destruct change; cbn [apply_change_sync admissible].
  - destruct (manager_placeholder d st Hok Hrep (c_managed_by record)) as (d' & -> & ? & ? & Hm).
    rewrite <- andb_assoc. apply refines_i64; intros ?. by apply put_client_refines.
  - by apply delete_client_refines.
  - rewrite <- !andb_assoc. apply refines_i64; intros ?.
    rewrite !andb_assoc. by apply put_edge_refines.
  - by apply delete_edge_refines.
  - by apply put_relay_refines.
  - by apply delete_relay_refines.
  - destruct (manager_placeholder d st Hok Hrep (i_managed_by record)) as (d' & -> & ? & ? & Hm).
    by apply put_invitation_refines.
  - by apply delete_invitation_refines.
  - by apply put_provisioner_refines.
  - by apply deactivate_provisioner_refines.
  - rewrite <- !andb_assoc. apply refines_ensure; intros ?.
    apply refines_i64; intros ?. apply refines_i64; intros ?. by apply put_revocation_refines.
  - by apply delete_revocation_refines.
Qed.

Lemma apply_changes_sync_refines rr changes d st :
  db_ok d -> represents d st ->
  refines (apply_changes_sync rr changes d) (admissible_all rr st changes)
    (fold_left apply_change changes st).
Proof.
  revert d st. induction changes as [|change changes IH]; intros d st Hok Hrep; [done|].
  cbn. pose proof (apply_change_sync_refines rr d st change Hok Hrep) as Hc.
  destruct (apply_change_sync rr d change) as [d'|e]; cbn in Hc |- *; [|by rewrite Hc].
  destruct Hc as (-> & ? & ?). by apply IH.
Qed.

(** The whole transaction is accepted exactly when the two revisions are the
    stored ones, each stays or advances by one, the changes are admissible one
    after the other, the numbers fit SQLite's integers and the disk works. *)
Definition commit_accepted (io : bool) (er err r rr : Z) (delta : StateDelta) (st : ControlState)
  : bool :=
  (((r == er) || (r == u64_saturating_add er 1)) &&
  (((rr == err) || (rr == u64_saturating_add err 1)) &&
  (admissible_all rr st (d_changes delta) &&
  ((r <=? i64_max) && ((rr <=? i64_max) && ((er <=? i64_max) && ((err <=? i64_max) &&
  (((st_revision st == er) && (st_relay_revision st == err)) && io))))))))%bool.

Lemma fold_revisions changes st :
  metadata_of (fold_left apply_change changes st) = metadata_of st.
Proof.
  revert st. induction changes as [|ch changes IH]; intros st; [done|].
  cbn. rewrite IH. by destruct ch.
Qed.

Lemma fold_revision changes st : st_revision (fold_left apply_change changes st) = st_revision st.
Proof. exact (f_equal md_revision (fold_revisions changes st)). Qed.

Lemma fold_relay_revision changes st :
  st_relay_revision (fold_left apply_change changes st) = st_relay_revision st.
Proof. exact (f_equal md_relay_revision (fold_revisions changes st)). Qed.

Lemma fold_audience changes st : st_audience (fold_left apply_change changes st) = st_audience st.
Proof. exact (f_equal md_audience (fold_revisions changes st)). Qed.

Lemma fold_public_url changes st :
  st_public_url (fold_left apply_change changes st) = st_public_url st.
Proof. exact (f_equal md_public_url (fold_revisions changes st)). Qed.

Lemma update_revisions_refines d st r rr er err :
  db_ok d -> represents d st -> 0 <= r -> 0 < rr ->
  refines (update_revisions d r rr er err)
    ((st_revision st == er) && (st_relay_revision st == err)) (with_revisions st r rr).
Proof.
  intros [] [] Hr Hrr. unfold update_revisions. rewrite rep_metadata0. cbn.
  destruct (bool_decide (st_revision st = er) && bool_decide (st_relay_revision st = err))%bool;
    [|done].
  assert (Hc : check_metadata (metadata_of (with_revisions st r rr)) = true).
  { specialize (ok_metadata0 _ rep_metadata0). unfold check_metadata in *; cbn in *.
    breflect. by prove_ok; breflect. }
  unfold ensure. unfold metadata_of in Hc. cbn in Hc. rewrite Hc. cbn.
  split; [done|]. split; split; cbn; try done. by intros m [= <-].
Qed.

Lemma refines_bind (m : result string Database) (k : Database -> result string Database)
  acc rest st st' :
  refines m acc st ->
  (forall d, db_ok d -> represents d st -> refines (k d) rest st') ->
  refines (d ← m; k d) (acc && rest) st'.
Proof. destruct m; cbn; [|by intros ->]. intros (-> & ? & ?) Hk. by apply Hk. Qed.

Lemma apply_delta_sync_spec io er err r rr delta d st :
  db_ok d -> represents d st ->
  refines (apply_delta_sync io er err r rr delta d) (commit_accepted io er err r rr delta st)
    (with_revisions (delta_apply delta st) r rr).
Proof.
  intros Hok Hrep. unfold apply_delta_sync, commit_accepted.
  apply refines_ensure; intros Hr. apply refines_ensure; intros Hrr.
  eapply refines_bind; [by apply apply_changes_sync_refines|]. intros d1 Hok1 Hrep1.
  pose proof (delete_unreferenced_refines d1 _ Hok1 Hrep1) as H1.
  destruct (delete_unreferenced_provisioners d1) as [d2|]; [|done]. destruct H1 as (_ & Hok2 & Hrep2).
  cbn [mbind result_bind].
  do 4 (apply refines_i64; intros ?).
  rewrite <- (fold_revision (d_changes delta)), <- (fold_relay_revision (d_changes delta)).
  pose proof (ok_metadata d Hok _ (rep_metadata d st Hrep)) as Hm.
  unfold check_metadata in Hm. cbn in Hm. breflect.
  destruct (decide (st_revision st = er /\ st_relay_revision st = err)) as [[He1 He2]|Hne].
  - eapply refines_bind; [apply update_revisions_refines; try done|].
    + apply orb_true_iff in Hr as [?|?]; breflect; unfold u64_saturating_add, u64_max in *; lia.
    + apply orb_true_iff in Hrr as [?|?]; breflect; unfold u64_saturating_add, u64_max in *; lia.
    + intros d3 ? ?. apply refines_ensure_last; by intros _.
  - unfold update_revisions. rewrite (rep_metadata _ _ Hrep2). cbn.
    rewrite fold_revision, fold_relay_revision.
    assert (Hb : (st_revision st == er) && (st_relay_revision st == err) = false).
    { apply not_true_iff_false. intros ?. breflect. auto. }
    by rewrite Hb.
Qed.
(** C3. Applying a delta to SQLite refines applying it to the snapshot: the
    transaction commits exactly when [commit_accepted] holds of the snapshot
    the tables represent, and then every constraint of the schema holds again
    and the tables represent [delta_apply]'s snapshot at the new revisions. *)
Theorem apply_delta_sync_refines io er err r rr delta d st :
  db_ok d -> represents d st ->
  refines (apply_delta_sync io er err r rr delta d) (commit_accepted io er err r rr delta st)
    (with_revisions (delta_apply delta st) r rr).
Proof. apply apply_delta_sync_spec. Qed.
End Refinement.

(** ** Loading a snapshot back *)

(** Two snapshots are the same up to the order of the vectors whose order has no
    meaning; invitations keep theirs. *)
Record same_state (st st' : ControlState) : Prop := {
  same_metadata : metadata_of st = metadata_of st';
  same_provisioners : st_provisioners st ≡ₚ st_provisioners st';
  same_clients : st_clients st ≡ₚ st_clients st';
  same_edges : st_edges st ≡ₚ st_edges st';
  same_revocations : st_revocations st ≡ₚ st_revocations st';
  same_relays : st_relays st ≡ₚ st_relays st';
  same_invites : st_invites st = st_invites st';
}.

#[global] Instance same_state_equivalence : Equivalence same_state.
Proof.
  split.
  - by intros st.
  - intros a b []. by split.
  - intros a b c [] []. split; try (by etrans).
Qed.

#[global] Instance represents_proper `{Serde Invite} d : Proper (same_state ==> iff) (represents d).
Proof.
  assert (Himp : forall a b, same_state a b -> represents d a -> represents d b).
  { intros a b [] []. split; try (by etrans); congruence. }
  intros a b Hab. split; apply Himp; [done|by symmetry].
Qed.

Section Load.
Context `{SerdeLaws Invite}.

Lemma collect_id {T} (f : T -> result string T) (l : list T) :
  (forall x, x ∈ l -> f x = Ok x) -> collect f l = Ok l.
Proof.
  intros Hf. apply collect_Ok. induction l as [|x l IH]; constructor.
  - apply Hf, list_elem_of_here.
  - apply IH. intros y Hy. by apply Hf, list_elem_of_further.
Qed.

Lemma load_invitation_row row i : invitation_row_of row i -> load_invitation row = Ok i.
Proof.
  intros (owner & -> & _). unfold load_invitation, invitation_row; cbn.
  rewrite from_slice_to_vec. cbn. by destruct i as [inv []].
Qed.

(** A table's rows are read back as they are, in whatever order. *)
Lemma collect_sorted {T} (f : T -> result string T) key check (R : T -> T -> Prop)
  `{!forall x y, Decision (R x y)} l :
  Keyed.table key check l -> (forall x, check x = true -> f x = Ok x) ->
  collect f (merge_sort R l) = Ok (merge_sort R l).
Proof.
  intros [_ Hc] Hf. apply collect_id. intros x Hx. apply Hf.
  rewrite merge_sort_Permutation in Hx. by eapply all_true in Hc.
Qed.

Lemma load_same d st :
  db_ok d -> represents d st -> st_schema st = STATE_SCHEMA ->
  exists st', load d = Ok st' /\ same_state st' st.
Proof.
  intros [] [] Hs. pose proof (ok_metadata0 _ rep_metadata0) as Hm.
  unfold check_metadata in Hm; cbn in Hm. breflect.
  assert (Hi : collect load_invitation (db_invitations d) = Ok (st_invites st)).
  { apply collect_Ok. eapply Forall2_impl; [done|]. apply load_invitation_row. }
  eexists. split.
  - unfold load. rewrite rep_metadata0.
    rewrite Hi, (collect_sorted _ _ _ _ _ ok_clients0), (collect_sorted _ _ _ _ _ ok_edges0),
      (collect_sorted _ _ _ _ _ ok_revocations0).
    + prove_ok; try done; apply u64_try_from_Some; split; try done; cbn; lia.
    + intros v Hv. unfold check_revocation in Hv. breflect. unfold load_revocation.
      by prove_ok; try apply u64_try_from_Some; split; try done; lia.
    + intros v Hv. unfold check_edge in Hv. breflect. unfold load_edge.
      by prove_ok; try apply u64_try_from_Some; split; try done; lia.
    + intros v Hv. unfold check_client in Hv. breflect. unfold load_client.
      by prove_ok; try apply u64_try_from_Some; split; try done; lia.
  - split; cbn; rewrite ?merge_sort_Permutation; done.
Qed.

(** A restart loses nothing: loading tables that satisfy the schema succeeds
    and yields the snapshot they represent, up to the order of its vectors. *)
Theorem load_recovers d st :
  db_ok d -> represents d st -> st_schema st = STATE_SCHEMA ->
  exists st', load d = Ok st' /\ same_state st' st.
Proof. apply load_same. Qed.
End Load.
