(* ===== verification/ControlCore.v ===== *)
(** * as-control: the store, committing a delta, and the pure helpers

    Models the functions of crates/as-control/src/main.rs that every handler is
    built from: errors, admission, [commit_delta], the watch registry, the
    validation of names, times and URLs, invitations, node maps, credentials and
    revocations. A helper that reads [unix_timestamp()] or draws random bytes
    takes the value read as an argument. *)
From stdpp Require Import pretty.
From S2P Require Import Prelude Deps RelayApi ControlApi State Database.
Open Scope string_scope.
Open Scope Z_scope.
Import Vec.

Definition CLOCK_SKEW_SECS : Z := 300.
Definition RELAY_CREDENTIAL_LIFETIME_SECS : Z := 7 * 24 * 60 * 60.
Definition RELAY_CREDENTIAL_RENEW_BEFORE_SECS : Z := 2 * 24 * 60 * 60.
Definition WATCHES_PER_ENDPOINT : nat := 2.
Definition INVITATION_RETENTION_SECS : Z := 7 * 24 * 60 * 60.

(** ** Errors *)

Record ApiError := { ae_status : Z; ae_message : string; ae_retry_after : bool }.

Definition api_error (status : Z) (error : string) : ApiError :=
  {| ae_status := status; ae_message := error; ae_retry_after := false |}.
Definition bad : string -> ApiError := api_error 400.
Definition unauthorized : string -> ApiError := api_error 401.
Definition forbidden : string -> ApiError := api_error 403.
Definition conflict : string -> ApiError := api_error 409.
Definition gone : string -> ApiError := api_error 410.
Definition internal : string -> ApiError := api_error 500.
Definition retryable (status : Z) (error : string) : ApiError :=
  {| ae_status := status; ae_message := error; ae_retry_after := true |}.

(** ** Admission: what the two semaphores of a queue answer *)

Inductive Admission := Granted | QueueFull | TimedOut | Closed.

Definition admitted (a : Admission) (label : string) : result ApiError unit :=
  match a with
  | Granted => Ok tt
  | QueueFull => Err (retryable 503 (label ++ " queue is full"))
  | TimedOut => Err (retryable 503 (label ++ " queue timed out"))
  | Closed => Err (internal (label ++ " queue closed"))
  end.

(** What a request meets: the clock when it arrives and while the state mutex is
    held, the random generator, the disk and the two admission queues. *)
Record Env := {
  env_received : Z;
  env_now : Z;
  env_random : nat -> bytes;
  env_io : bool;
  env_verification : Admission;
  env_mutation : Admission;
}.

Definition verification_permit (env : Env) : result ApiError unit :=
  admitted (env_verification env) "signature verification".
Definition mutation_permit (env : Env) : result ApiError unit :=
  admitted (env_mutation env) "mutation".

(** ** Watches: [WatchRegistry] and [WatchGuard] *)

Definition watch_acquire (counts : gmap string nat) (endpoint_id : string)
  : gmap string nat * result ApiError unit :=
  let count := default 0%nat (counts !! endpoint_id) in
  if (WATCHES_PER_ENDPOINT <=? count)%nat
  then (<[endpoint_id := count]> counts,
        Err (retryable 429 "too many concurrent watches for this endpoint"))
  else (<[endpoint_id := S count]> counts, Ok tt).

(** [Drop for WatchGuard] *)
Definition watch_release (counts : gmap string nat) (endpoint_id : string) : gmap string nat :=
  match counts !! endpoint_id with
  | Some count =>
      if (count - 1 =? 0)%nat then delete endpoint_id counts
      else <[endpoint_id := (count - 1)%nat]> counts
  | None => counts
  end.

(** ** Pure checks *)

Definition validate_name (name : string) : result string unit :=
  ensure ((name != "") && (Str.len name <=? 64)) "name must contain 1-64 characters";;
  ensure (forallb (fun b => Str.is_ascii_alphanumeric b ||
                    bool_decide (b ∈ ["-"; "_"; "."]%char))%bool (Str.chars name))
    "name may contain only ASCII letters, digits, '-', '_', and '.'".

Definition validate_request_id (value : string) : result string unit :=
  ensure ((1 <=? Str.len value) && (Str.len value <=? 128))
    "request id must contain 1-128 characters";;
  ensure (forallb (fun b => Str.is_ascii_alphanumeric b ||
                    bool_decide (b ∈ ["-"; "_"; "."; ":"; "/"]%char))%bool (Str.chars value))
    "request id contains unsupported characters".

Definition validate_join_secret (value : string) : result string unit :=
  ensure ((32 <=? Str.len value) && (Str.len value <=? 128))
    "join secret must contain 32-128 characters";;
  ensure (forallb (fun b => Str.is_ascii_alphanumeric b ||
                    bool_decide (b ∈ ["-"; "_"]%char))%bool (Str.chars value))
    "join secret must use URL-safe base64 characters".

(** The check the two Client requests make of their nonce or request id. *)
Definition check_length_128 (what value : string) : result ApiError unit :=
  ensure (negb ((value == "") || (128 <? Str.len value)))
    (bad (what ++ " must contain 1-128 characters")).

Definition check_time (issued_at now : Z) : result string unit :=
  ensure (i64_abs_diff issued_at now <=? CLOCK_SKEW_SECS)
    "request timestamp outside allowed window".

Definition validate_qad_port (port : option Z) : result string unit :=
  ensure (port != Some 0) "QAD public port must be between 1 and 65535".

Definition parse_edge_ref (value : string) : result ApiError (string * string) :=
  of_option (Str.split_once "/" value) (bad "edge must be written as <client>/<edge>").

Section Urls.
Context `{Urls}.

Definition is_loopback (url : Url) : bool :=
  match url_host_str url with
  | Some host => bool_decide (host ∈ ["localhost"; "127.0.0.1"; "::1"])
  | None => false
  end.

Definition normalize_public_url (value : string) : result string string :=
  url ← map_err (fun _ => "invalid public URL") (url_parse value);
  ensure ((url_query url == None) && (url_fragment url == None))
    "public URL cannot contain query or fragment";;
  ensure ((url_scheme url == "https") || ((url_scheme url == "http") && is_loopback url))
    "public URL must use HTTPS unless it targets loopback";;
  let path := Str.trim_end_matches "/" (url_path url) in
  let url := url_set_path url path in
  Ok (Str.trim_end_matches "/" (url_to_string url)).

Definition normalize_relay_url (value : string) : result string string :=
  url ← map_err (fun _ => "invalid relay URL") (url_parse value);
  ensure ((url_query url == None) && (url_fragment url == None))
    "relay URL cannot contain query or fragment";;
  ensure ((url_scheme url == "https") || ((url_scheme url == "http") && is_loopback url))
    "relay URL must use HTTPS unless it targets loopback";;
  let url := if url_path url == "" then url_set_path url "/" else url in
  Ok (url_to_string url).
End Urls.

(** ** Reading the snapshot *)

Definition client_name (state : ControlState) (id : string) : option string :=
  c_name <$> find (fun item => c_endpoint_id item == id) (st_clients state).

Definition client_id_by_name (state : ControlState) (name : string) : result ApiError string :=
  of_option (c_endpoint_id <$> find (fun client => c_name client == name) (st_clients state))
    (bad ("unknown client '" ++ name ++ "'")).

Definition managed_client_id (state : ControlState) (name provisioner_id : string)
  : result ApiError string :=
  of_option (c_endpoint_id <$>
               find (fun client => (c_name client == name) &&
                                   (c_managed_by client == Some provisioner_id))%bool
                 (st_clients state))
    (bad ("unknown managed client '" ++ name ++ "'")).

Definition check_expected_revision (state : ControlState) (expected : option Z)
  : result ApiError unit :=
  match expected with
  | Some expected =>
      ensure (expected == st_revision state)
        (conflict ("revision mismatch: expected " ++ pretty expected ++ ", current " ++
                   pretty (st_revision state)))
  | None => Ok tt
  end.

Definition authorize_provisioner (state : ControlState) (audience provisioner_id : string)
  : result ApiError unit :=
  ensure (audience == st_audience state) (unauthorized "control audience mismatch");;
  ensure (any (fun item => p_endpoint_id item == provisioner_id) (st_provisioners state))
    (forbidden "provisioner is not registered").

Definition invite_is_active_pending (now : Z) (record : InviteRecord) : bool :=
  (i_state record == Pending) && (now <=? inv_expires_at (i_invite record)).

(** A pending invitation that would clash with one of this name and kind. *)
Definition invite_clashes (name : string) (kind : InviteKind) (record : InviteRecord) : bool :=
  match inv_kind (i_invite record), kind with
  | KClient, KClient => inv_name (i_invite record) == name
  | KEdge l, KEdge r => (l == r) && (inv_name (i_invite record) == name)
  | KRelay l, KRelay r => (inv_name (i_invite record) == name) || (l == r)
  | _, _ => false
  end.

Definition validate_invite_name (now : Z) (state : ControlState) (name : string)
  (kind : InviteKind) : result ApiError unit :=
  let registered_duplicate :=
    match kind with
    | KClient => any (fun item => c_name item == name) (st_clients state)
    | KEdge owner_id =>
        any (fun item => (e_owner_id item == owner_id) && (e_name item == name))%bool
          (st_edges state)
    | KRelay url =>
        any (fun item => (r_name item == name) || (r_url item == url))%bool (st_relays state)
    end in
  let pending_duplicate :=
    any (fun record => invite_is_active_pending now record && invite_clashes name kind record)%bool
      (st_invites state) in
  ensure (negb (registered_duplicate || pending_duplicate))
    (conflict "name or relay URL already exists").

Definition invite_info (now : Z) (invite : InviteRecord) : InviteInfo := {|
  ii_invite_id := inv_invite_id (i_invite invite);
  ii_name := inv_name (i_invite invite);
  ii_kind := inv_kind (i_invite invite);
  ii_expires_at := inv_expires_at (i_invite invite);
  ii_state := if (i_state invite == Pending) && (inv_expires_at (i_invite invite) <? now)
              then "expired" else invite_state_text (i_state invite) |}.

Definition edge_info (state : ControlState) (edge : EdgeRecord) : EdgeInfo := {|
  ei_name := e_name edge; ei_endpoint_id := e_endpoint_id edge; ei_owner_id := e_owner_id edge;
  ei_owner_name := default "unknown" (client_name state (e_owner_id edge)) |}.

Definition overview (now : Z) (state : ControlState) : Overview := {|
  ov_revision := st_revision state;
  ov_clients := (fun client => {|
      ci_name := c_name client; ci_endpoint_id := c_endpoint_id client;
      ci_edges := length (retain (fun edge => e_owner_id edge == c_endpoint_id client)
                            (st_edges state)) |}) <$> st_clients state;
  ov_edges := edge_info state <$> st_edges state;
  ov_relays := (fun relay => {|
      rn_name := r_name relay; rn_endpoint_id := r_endpoint_id relay; rn_url := r_url relay;
      rn_qad_port := r_qad_port relay |}) <$> st_relays state;
  ov_invites := invite_info now <$> st_invites state |}.

Definition provisioner_topology (now : Z) (state : ControlState) (provisioner_id : string)
  : ProvisionerTopology := {|
  pt_revision := st_revision state;
  pt_clients := (fun client => {|
      mc_name := c_name client; mc_endpoint_id := c_endpoint_id client;
      mc_edges := (fun edge => {| me_name := e_name edge; me_endpoint_id := e_endpoint_id edge |})
        <$> retain (fun edge => e_owner_id edge == c_endpoint_id client) (st_edges state) |})
    <$> retain (fun client => c_managed_by client == Some provisioner_id) (st_clients state);
  pt_invites := invite_info now
    <$> retain (fun invite => i_managed_by invite == Some provisioner_id) (st_invites state) |}.

(** ** Computing changes *)

(** [revocation_change] *)
Definition revocation_record (state : ControlState) (endpoint_id : string) (generation expires_at : Z)
  : RevocationRecord :=
  let revision := u64_saturating_add (st_relay_revision state) 1 in
  match find (fun r => v_endpoint_id r == endpoint_id) (st_revocations state) with
  | Some existing => {|
      v_endpoint_id := endpoint_id;
      v_generation := Z.max (v_generation existing) generation;
      v_expires_at := Z.max (v_expires_at existing) expires_at;
      v_revision := revision |}
  | None => {| v_endpoint_id := endpoint_id; v_generation := generation;
               v_expires_at := expires_at; v_revision := revision |}
  end.

Definition revocation_change (state : ControlState) (endpoint_id : string)
  (generation expires_at : Z) : StateChange :=
  PutRevocation (revocation_record state endpoint_id generation expires_at).

(** When an invitation stops being kept: the instant of its retention clock. *)
Definition invite_terminal (now : Z) (invite : InviteRecord) : Z :=
  match i_state invite with
  | Pending => inv_expires_at (i_invite invite)
  | Claimed | Revoked => default now (i_terminal_at invite)
  end.

Definition cleanup_invitations (state : ControlState) (now : Z) : ControlState :=
  with_invites state
    (retain (fun invite => now <? i64_saturating_add (invite_terminal now invite)
                                    INVITATION_RETENTION_SECS) (st_invites state)).

Definition cleanup_revocations (state : ControlState) (now : Z) : ControlState :=
  with_revocations state (retain (fun r => now <? v_expires_at r) (st_revocations state)).

(** The changes one tick of [invitation_cleanup_loop] commits. *)
Definition cleanup_changes (state : ControlState) (now : Z) : list StateChange :=
  (((fun invite => DeleteInvite (inv_invite_id (i_invite invite)))
     <$> retain (fun invite => i64_saturating_add (invite_terminal now invite)
                                 INVITATION_RETENTION_SECS <=? now) (st_invites state)) ++
  ((fun r => DeleteRevocation (v_endpoint_id r))
     <$> retain (fun r => v_expires_at r <=? now) (st_revocations state)))%list.

Section Store.
Context `{Keys, Encodings, !ControlSerde, !Certificates}.
Context `{!Serde RelayCredential, !Serde SignedRelayCredential}.

(** [claimed_node_change] *)
Definition claimed_node_change (state : ControlState) (invite : Invite) (endpoint_id : EndpointId)
  (managed_by : option string) (relay_qad_port : option Z) (credential_generation now : Z)
  : result ApiError StateChange :=
  match inv_kind invite with
  | KClient =>
      ensure (negb (any (fun item => (c_name item == inv_name invite) ||
                                     (c_endpoint_id item == id_to_string endpoint_id))%bool
                      (st_clients state)))
        (conflict "client name or identity already exists");;
      Ok (PutClient {|
        c_name := inv_name invite; c_endpoint_id := id_to_string endpoint_id;
        c_managed_by := managed_by; c_generation := credential_generation; c_issued_at := now;
        c_expires_at := i64_saturating_add now RELAY_CREDENTIAL_LIFETIME_SECS |})
  | KEdge owner_id =>
      (* [anyhow_client_exists] *)
      ensure (any (fun item => c_endpoint_id item == owner_id) (st_clients state))
        (bad "unknown client");;
      ensure (negb (any (fun item =>
                (e_owner_id item == owner_id) && (e_name item == inv_name invite) ||
                (e_endpoint_id item == id_to_string endpoint_id))%bool (st_edges state)))
        (conflict "edge name or identity already exists");;
      Ok (PutEdge {|
        e_name := inv_name invite; e_endpoint_id := id_to_string endpoint_id;
        e_owner_id := owner_id; e_generation := credential_generation; e_issued_at := now;
        e_expires_at := i64_saturating_add now RELAY_CREDENTIAL_LIFETIME_SECS |})
  | KRelay url =>
      ensure (negb (any (fun item => (r_name item == inv_name invite) || (r_url item == url) ||
                                     (r_endpoint_id item == id_to_string endpoint_id))%bool
                      (st_relays state)))
        (conflict "relay name, URL, or identity already exists");;
      Ok (PutRelay {|
        r_name := inv_name invite; r_endpoint_id := id_to_string endpoint_id; r_url := url;
        r_qad_port := relay_qad_port |})
  end.

Definition anyhow_node_exists (state : ControlState) (id : EndpointId) : result ApiError unit :=
  ensure (any (fun item => c_endpoint_id item == id_to_string id) (st_clients state) ||
          any (fun item => e_endpoint_id item == id_to_string id) (st_edges state))
    (forbidden "node is not registered").

Definition anyhow_relay_exists (state : ControlState) (id : EndpointId) : result ApiError unit :=
  ensure (any (fun item => r_endpoint_id item == id_to_string id) (st_relays state))
    (forbidden "relay is not registered").

(** ** Invitations *)

Definition random_token (random : nat -> bytes) (n : nat) : string := b64_encode (random n).

Definition build_invite (random : nat -> bytes) (now : Z) (key : SecretKey) (state : ControlState)
  (name : string) (kind : InviteKind) (ttl_secs : Z) (secret : string)
  : result string (InviteResult * InviteRecord) :=
  ensure ((1 <=? ttl_secs) && (ttl_secs <=? 7 * 24 * 60 * 60))
    "TTL must be between 1 second and 7 days";;
  let invite_id := random_token random 16 in
  expires_at ← of_option (i64_checked_add now ttl_secs) "invite expiry overflow";
  let invite := {|
    inv_protocol_version := CONTROL_PROTOCOL_VERSION; inv_audience := st_audience state;
    inv_control_url := st_public_url state; inv_control_id := id_to_string (public key);
    inv_invite_id := invite_id; inv_name := name; inv_kind := kind;
    inv_secret_hash := hash_secret secret; inv_expires_at := expires_at |} in
  token ← token_new invite secret key;
  join_url ← token_join_url token;
  Ok ({| ir_invite_id := invite_id; ir_join_url := join_url; ir_expires_at := expires_at |},
      {| i_invite := invite; i_state := Pending; i_claimed_by := None; i_request_id := None;
         i_managed_by := None; i_request_hash := None; i_terminal_at := None |}).

Definition invite_result (key : SecretKey) (invite : Invite) (secret : string)
  : result string InviteResult :=
  ensure (hash_secret secret == inv_secret_hash invite)
    "join secret does not match existing request";;
  token ← token_new invite secret key;
  join_url ← token_join_url token;
  Ok {| ir_invite_id := inv_invite_id invite; ir_join_url := join_url;
        ir_expires_at := inv_expires_at invite |}.

Definition validate_token_for_state (token : JoinToken) (state : ControlState)
  (control_id : EndpointId) (now : Z) : result ApiError unit :=
  let invite := jt_invite token in
  ensure (negb ((inv_control_id invite != id_to_string control_id) ||
                (inv_audience invite != st_audience state) ||
                (inv_control_url invite != st_public_url state)))
    (unauthorized "invite belongs to another control");;
  ensure (negb (inv_expires_at invite <? now)) (gone "invite expired");;
  stored ← of_option (find (fun record => inv_invite_id (i_invite record) == inv_invite_id invite)
                        (st_invites state)) (gone "unknown invite");
  ensure (i_invite stored == invite) (unauthorized "invite payload mismatch").

(** ** Relay claims and their TLS certificates *)

Definition is_relay_kind (kind : InviteKind) : bool :=
  match kind with KRelay _ => true | _ => false end.

Definition validate_relay_claim (kind : InviteKind) (qad_port : option Z) (csr_der : option bytes)
  : result ApiError (option Z) :=
  if negb (is_relay_kind kind) then
    ensure (negb (bool_decide (is_Some qad_port) || bool_decide (is_Some csr_der)))
      (bad "only Relay claims may advertise QAD");;
    Ok None
  else
    map_err bad (validate_qad_port qad_port);;
    ensure (Bool.eqb (bool_decide (is_Some qad_port)) (bool_decide (is_Some csr_der)))
      (bad "Relay QAD port and TLS CSR must be provided together");;
    Ok qad_port.

Definition issue_relay_tls_certificate `{Urls} (now : Z) (csr_der : option bytes) (kind : InviteKind)
  (qad_port : option Z) (issuer : Issuer) : result ApiError (option bytes) :=
  match kind with
  | KRelay url =>
      match qad_port with
      | None =>
          ensure (negb (bool_decide (is_Some csr_der)))
            (bad "QAD is disabled for this Relay enrollment");;
          Ok None
      | Some _ =>
          csr_der ← of_option csr_der (bad "QAD-enabled Relay claim is missing its TLS CSR");
          ensure (Z.of_nat (length csr_der) <=? 16 * 1024) (bad "Relay TLS CSR is too large");;
          url ← map_err bad (url_parse url);
          host ← of_option (url_host_str url) (bad "Relay URL has no host");
          csr ← map_err bad (csr_from_der csr_der);
          '(expected_sans, expected_name) ← map_err bad (params_new host);
          ensure (csr_subject_alt_names csr == expected_sans)
            (bad "Relay TLS CSR SAN does not match its Relay URL host");;
          let profile := {|
            cp_explicit_no_ca := true; cp_key_usages := ["DigitalSignature"];
            cp_extended_key_usages := ["ServerAuth"]; cp_use_authority_key_identifier := true;
            cp_distinguished_name := dn_push_common_name expected_name host;
            cp_not_before := now - 24 * 60 * 60; cp_not_after := now + 825 * 24 * 60 * 60 |} in
          certificate ← map_err internal (csr_signed_by csr profile issuer);
          Ok (Some certificate)
      end
  | _ =>
      ensure (negb (bool_decide (is_Some csr_der)))
        (bad "only Relay claims may include a TLS CSR");;
      Ok None
  end.

(** ** Credentials and node maps *)

Definition sign_relay_credential (state : ControlState) (key : SecretKey) (endpoint_id : EndpointId)
  (kind : RelaySubjectKind) (generation issued_at expires_at : Z) : result string string :=
  signed ← credential_sign {|
    rc_protocol_version := RELAY_PROTOCOL_VERSION; rc_audience := st_audience state;
    rc_control_id := id_to_string (public key); rc_endpoint_id := id_to_string endpoint_id;
    rc_kind := kind; rc_generation := generation; rc_issued_at := issued_at;
    rc_expires_at := expires_at |} key;
  credential_encode signed.

(** What a node map grants its recipient: credential, peers and edges. *)
Definition map_grants (state : ControlState) (key : SecretKey) (recipient : EndpointId)
  : result string (option string * list string * list EdgeInfo) :=
  let recipient_string := id_to_string recipient in
  match find (fun edge => e_endpoint_id edge == recipient_string) (st_edges state) with
  | Some edge =>
      credential ← sign_relay_credential state key recipient SubjectEdge
                     (e_generation edge) (e_issued_at edge) (e_expires_at edge);
      Ok (Some credential, [e_owner_id edge], [])
  | None =>
      match find (fun client => c_endpoint_id client == recipient_string) (st_clients state) with
      | Some client =>
          let edges := edge_info state <$>
            retain (fun edge => e_owner_id edge == recipient_string) (st_edges state) in
          credential ← sign_relay_credential state key recipient SubjectClient
                         (c_generation client) (c_issued_at client) (c_expires_at client);
          Ok (Some credential, [], edges)
      | None =>
          ensure (any (fun relay => r_endpoint_id relay == recipient_string) (st_relays state))
            "node is not registered";;
          Ok (None, [], [])
      end
  end.

Definition signed_map (now : Z) (state : ControlState) (key : SecretKey) (recipient : EndpointId)
  : result string SignedNodeMap :=
  let relays := (fun relay => {| ri_name := r_name relay; ri_url := r_url relay;
                                 ri_qad_port := r_qad_port relay |}) <$> st_relays state in
  '(relay_credential, allowed_clients, edges) ← map_grants state key recipient;
  node_map_sign {|
    nm_protocol_version := CONTROL_PROTOCOL_VERSION; nm_audience := st_audience state;
    nm_control_url := st_public_url state; nm_control_id := id_to_string (public key);
    nm_revision := st_revision state; nm_issued_at := now;
    nm_recipient_id := id_to_string recipient; nm_relays := relays;
    nm_relay_credential := relay_credential; nm_relay_ca_der := st_relay_ca_der state;
    nm_allowed_clients := allowed_clients; nm_edges := edges |} key.

(** ** The store and [commit_delta] *)

Record Store := {
  s_database : Database;
  s_key : SecretKey;
  s_relay_ca : Issuer;
  s_state : ControlState;
  s_changed : nat;        (* times [changed.notify_waiters()] ran *)
  s_relay_changed : nat;  (* times [relay_changed.notify_waiters()] ran *)
  s_watches : gmap string nat;
}.

Definition next_revision (publish : Publish) (current : ControlState) : result ApiError Z :=
  match publish with
  | PublishNone => Ok (st_revision current)
  | PublishNodes | PublishNodesAndRelays =>
      of_option (u64_checked_add (st_revision current) 1) (internal "revision overflow")
  end.

Definition next_relay_revision (publish : Publish) (current : ControlState) : result ApiError Z :=
  match publish with
  | PublishNone | PublishNodes => Ok (st_relay_revision current)
  | PublishNodesAndRelays =>
      of_option (u64_checked_add (st_relay_revision current) 1) (internal "Relay revision overflow")
  end.

Definition commit_delta (io : bool) (delta : StateDelta) : handler Store ApiError unit := fun s =>
  let current := s_state s in
  let r :=
    revision ← next_revision (d_publish delta) current;
    relay_revision ← next_relay_revision (d_publish delta) current;
    database ← map_err internal
      (apply_delta_sync io (st_revision current) (st_relay_revision current)
         revision relay_revision delta (s_database s));
    Ok (database, revision, relay_revision) in
  match r with
  | Err e => (s, Err e)
  | Ok (database, revision, relay_revision) =>
      ({| s_database := database; s_key := s_key s; s_relay_ca := s_relay_ca s;
          s_state := with_revisions (delta_apply delta current) revision relay_revision;
          s_changed := match d_publish delta with
                       | PublishNone => s_changed s
                       | _ => S (s_changed s) end;
          s_relay_changed := match d_publish delta with
                             | PublishNodesAndRelays => S (s_relay_changed s)
                             | _ => s_relay_changed s end;
          s_watches := s_watches s |}, Ok tt)
  end.
End Store.
