(* ===== verification/ControlHandlers.v ===== *)
(** * as-control: the request handlers

    One definition per handler of crates/as-control/src/main.rs, and one per
    branch of the two dispatch functions. The code between taking and releasing
    the state mutex is one atomic [handler]; a request that takes the mutex
    several times is several handlers, and what the other requests do to the
    store in between is an explicit argument. *)
From stdpp Require Import pretty.
From S2P Require Import Prelude Deps RelayApi ControlApi State Database ControlCore.
Open Scope string_scope.
Open Scope Z_scope.
Import Vec.

Inductive LocalAdminRequest :=
| LOverview
| LListClients
| LListEdges
| LListRelays
| LListInvites
| LListProvisioners
| LInviteClient (name : string) (ttl_secs : Z)
| LInviteEdge (name owner : string) (ttl_secs : Z)
| LInviteRelay (name url : string) (ttl_secs : Z)
| LRevokeInvite (invite_id : string)
| LRemoveClient (name : string)
| LTransferEdge (edge new_client : string)
| LRemoveEdge (edge : string)
| LRemoveRelay (name : string)
| LAddProvisioner (name endpoint_id : string)
| LRemoveProvisioner (name : string).

Record ProvisionerInfo := { pi_name : string; pi_endpoint_id : string; pi_clients : nat }.

Inductive LocalAdminResponse :=
| AOverview (o : Overview)
| AClients (l : list ClientInfo)
| AEdges (l : list EdgeInfo)
| ARelays (l : list RelayNodeInfo)
| AInvites (l : list InviteInfo)
| AProvisioners (l : list ProvisionerInfo)
| AInvite (r : InviteResult)
| AOk
| AError (message : string).

(** Record updates of the handlers: [let mut x = x.clone(); x.field = ..] *)
Definition invite_terminated (state : InviteState) (claimed_by : option string) (at_ : Z)
  (i : InviteRecord) : InviteRecord := {|
  i_invite := i_invite i; i_state := state;
  i_claimed_by := match claimed_by with Some c => Some c | None => i_claimed_by i end;
  i_request_id := i_request_id i; i_managed_by := i_managed_by i;
  i_request_hash := i_request_hash i; i_terminal_at := Some at_ |}.
Definition invite_attributed (request_id managed_by request_hash : option string)
  (i : InviteRecord) : InviteRecord := {|
  i_invite := i_invite i; i_state := i_state i; i_claimed_by := i_claimed_by i;
  i_request_id := request_id; i_managed_by := managed_by; i_request_hash := request_hash;
  i_terminal_at := i_terminal_at i |}.
Definition edge_owned_by (owner_id : string) (e : EdgeRecord) : EdgeRecord := {|
  e_name := e_name e; e_endpoint_id := e_endpoint_id e; e_owner_id := owner_id;
  e_generation := e_generation e; e_issued_at := e_issued_at e; e_expires_at := e_expires_at e |}.
Definition edge_renewed (issued_at expires_at : Z) (e : EdgeRecord) : EdgeRecord := {|
  e_name := e_name e; e_endpoint_id := e_endpoint_id e; e_owner_id := e_owner_id e;
  e_generation := e_generation e; e_issued_at := issued_at; e_expires_at := expires_at |}.
Definition client_renewed (issued_at expires_at : Z) (c : ClientRecord) : ClientRecord := {|
  c_name := c_name c; c_endpoint_id := c_endpoint_id c; c_managed_by := c_managed_by c;
  c_generation := c_generation c; c_issued_at := issued_at; c_expires_at := expires_at |}.
Definition relay_with_qad (qad_port : option Z) (r : RelayRecord) : RelayRecord := {|
  r_name := r_name r; r_endpoint_id := r_endpoint_id r; r_url := r_url r; r_qad_port := qad_port |}.

Section Handlers.
Context `{Keys, Encodings, !ControlSerde, !Certificates, !Urls}.
Context `{!Serde RelayCredential, !Serde SignedRelayCredential, !Serde RevocationUpdate}.

Notation Control := (handler Store ApiError).

(** ** Status *)

Definition status (env : Env) (request : StatusRequest) : Control ControlStatus :=
  lift (verification_permit env);;
  client ← lift (map_err unauthorized (status_verify request));
  let client_id := id_to_string client in
  lift (map_err unauthorized (check_time (sr_issued_at request) (env_received env)));;
  lift (check_length_128 "nonce" (sr_nonce request));;
  state ← get s_state;
  key ← get s_key;
  require (sr_audience request == st_audience state) (unauthorized "control audience mismatch");;
  require (any (fun client => c_endpoint_id client == client_id) (st_clients state))
    (forbidden "client is not registered");;
  mret {| cs_audience := st_audience state; cs_control_url := st_public_url state;
          cs_control_id := id_to_string (public key); cs_revision := st_revision state;
          cs_clients := length (st_clients state); cs_edges := length (st_edges state);
          cs_relays := length (st_relays state) |}.

(** ** Enrollment *)

(** Before the mutation queue: everything that needs no state. *)
Definition claim_checks (env : Env) (request : ClaimRequest) : result ApiError EndpointId :=
  verification_permit env;;
  _ ← map_err unauthorized (token_verify (cr_token request));
  endpoint_id ← map_err unauthorized (claim_verify request);
  map_err unauthorized (check_time (cl_issued_at (cr_claim request)) (env_received env));;
  Ok endpoint_id.

(** A pending invitation is consumed. *)
Definition claim_pending (env : Env) (record : InviteRecord) (endpoint_id : EndpointId)
  (relay_qad_port : option Z) (certificate : option bytes) : Control JoinResult :=
  state ← get s_state;
  key ← get s_key;
  let now := env_received env in
  credential_generation ← lift (of_option (u64_checked_add (st_revision state) 1)
                                  (internal "revision overflow"));
  node_change ← lift (claimed_node_change state (i_invite record) endpoint_id
                        (i_managed_by record) relay_qad_port credential_generation now);
  let invite_record := invite_terminated Claimed (Some (id_to_string endpoint_id)) now record in
  commit_delta (env_io env) (delta_topology [node_change; PutInvite invite_record]);;
  state ← get s_state;
  map ← lift (map_err internal (signed_map (env_now env) state key endpoint_id));
  mret {| jr_name := inv_name (i_invite record); jr_kind := inv_kind (i_invite record);
          jr_map := map; jr_relay_tls_certificate_der := certificate |}.

(** The same node repeats its claim. *)
Definition claim_repeated (env : Env) (request : ClaimRequest) (record : InviteRecord)
  (endpoint_id : EndpointId) (relay_qad_port : option Z) (certificate : option bytes)
  : Control JoinResult :=
  state ← get s_state;
  key ← get s_key;
  require (match find (fun relay => r_endpoint_id relay == cl_endpoint_id (cr_claim request))
                   (st_relays state) with
           | Some relay => r_qad_port relay == relay_qad_port
           | None => true
           end) (conflict "Relay QAD port differs from its enrolled value");;
  map ← lift (map_err internal (signed_map (env_now env) state key endpoint_id));
  mret {| jr_name := inv_name (i_invite record); jr_kind := inv_kind (i_invite record);
          jr_map := map; jr_relay_tls_certificate_der := certificate |}.

Definition claim_mutation (env : Env) (request : ClaimRequest) (endpoint_id : EndpointId)
  : Control JoinResult :=
  state ← get s_state;
  key ← get s_key;
  relay_ca ← get s_relay_ca;
  lift (validate_token_for_state (cr_token request) state (public key) (env_received env));;
  record ← lift (of_option (find (fun record => inv_invite_id (i_invite record) ==
                                                cl_invite_id (cr_claim request))
                              (st_invites state)) (gone "unknown invite"));
  relay_qad_port ← lift (validate_relay_claim (inv_kind (i_invite record))
                           (cl_relay_qad_port (cr_claim request))
                           (cl_relay_tls_csr (cr_claim request)));
  certificate ← lift (issue_relay_tls_certificate (env_now env) (cl_relay_tls_csr (cr_claim request))
                        (inv_kind (i_invite record)) relay_qad_port relay_ca);
  match i_state record with
  | Pending => claim_pending env record endpoint_id relay_qad_port certificate
  | Claimed =>
      if i_claimed_by record == Some (cl_endpoint_id (cr_claim request))
      then claim_repeated env request record endpoint_id relay_qad_port certificate
      else throw (conflict "invite was already claimed")
  | Revoked => throw (gone "invite was revoked")
  end.

Definition claim (env : Env) (request : ClaimRequest) : Control JoinResult :=
  endpoint_id ← lift (claim_checks env request);
  lift (mutation_permit env);;
  claim_mutation env request endpoint_id.

(** ** Requests of a Client *)

Definition client_edge_invite_mutation (env : Env) (request : EdgeInviteRequest)
  (client : EndpointId) : Control InviteResult :=
  state ← get s_state;
  key ← get s_key;
  require (eir_audience request == st_audience state) (unauthorized "control audience mismatch");;
  managed_by ← lift (of_option
    (c_managed_by <$> find (fun c => c_endpoint_id c == id_to_string client) (st_clients state))
    (forbidden "client is not registered"));
  require (negb (any (fun invite => i_request_id invite == Some (eir_request_id request))
                   (st_invites state)))
    (conflict "edge invitation request was already used");;
  let kind := KEdge (id_to_string client) in
  lift (validate_invite_name (env_now env) state (eir_name request) kind);;
  '(result, record) ← lift (map_err bad
    (build_invite (env_random env) (env_now env) key state (eir_name request) kind
       (eir_ttl_secs request) (random_token (env_random env) 32)));
  let record := invite_attributed (Some (eir_request_id request)) managed_by None record in
  commit_delta (env_io env) (delta_topology [PutInvite record]);;
  mret result.

Definition client_edge_invite (env : Env) (request : EdgeInviteRequest) : Control InviteResult :=
  lift (verification_permit env);;
  client ← lift (map_err unauthorized (edge_invite_verify request));
  lift (map_err unauthorized (check_time (eir_issued_at request) (env_received env)));;
  lift (map_err bad (validate_name (eir_name request)));;
  lift (check_length_128 "request id" (eir_request_id request));;
  lift (mutation_permit env);;
  client_edge_invite_mutation env request client.

Definition client_edge_remove_mutation (env : Env) (request : EdgeRemoveRequest)
  (client : EndpointId) : Control SignedNodeMap :=
  let client_id := id_to_string client in
  state ← get s_state;
  key ← get s_key;
  require (err_audience request == st_audience state) (unauthorized "control audience mismatch");;
  require (any (fun c => c_endpoint_id c == client_id) (st_clients state))
    (forbidden "client is not registered");;
  removed ← lift (of_option
    (find (fun edge => (e_owner_id edge == client_id) && (e_name edge == err_name request) &&
                       (e_endpoint_id edge == err_endpoint_id request))%bool (st_edges state))
    (bad ("unknown edge '" ++ err_name request ++ "' with the expected identity")));
  let revocation := revocation_change state (e_endpoint_id removed) (e_generation removed)
                      (e_expires_at removed) in
  commit_delta (env_io env) (delta_revocation [DeleteEdge (e_endpoint_id removed); revocation]);;
  state ← get s_state;
  lift (map_err internal (signed_map (env_now env) state key client)).

Definition client_edge_remove (env : Env) (request : EdgeRemoveRequest) : Control SignedNodeMap :=
  lift (verification_permit env);;
  client ← lift (map_err unauthorized (edge_remove_verify request));
  lift (map_err unauthorized (check_time (err_issued_at request) (env_received env)));;
  lift (map_err bad (validate_name (err_name request)));;
  lift (check_length_128 "nonce" (err_nonce request));;
  lift (mutation_permit env);;
  client_edge_remove_mutation env request client.

(** ** Requests of a Provisioner *)

Definition provisioner_ok : Control ProvisionerResponse :=
  state ← get s_state; mret (ROk (st_revision state)).

Definition provisioner_invite (env : Env) (provisioner_id : string) (request : ProvisionerRequest)
  (name : string) (kind : InviteKind) (ttl_secs : Z) (secret : string) : Control ProvisionerResponse :=
  lift (map_err bad (validate_name name));;
  lift (map_err bad (validate_join_secret secret));;
  request_hash ← lift (map_err internal (action_hash (pr_action request)));
  state ← get s_state;
  key ← get s_key;
  match find (fun item => (i_managed_by item == Some provisioner_id) &&
                          (i_request_id item == Some (pr_request_id request)))%bool
          (st_invites state) with
  | Some existing =>
      require (i_request_hash existing == Some request_hash)
        (conflict "request id was already used for another action");;
      result ← lift (map_err internal (invite_result key (i_invite existing) secret));
      mret (RInvite result)
  | None =>
      lift (check_expected_revision state (pr_expected_revision request));;
      lift (validate_invite_name (env_now env) state name kind);;
      '(result, record) ← lift (map_err bad
        (build_invite (env_random env) (env_now env) key state name kind ttl_secs secret));
      let record := invite_attributed (Some (pr_request_id request)) (Some provisioner_id)
                      (Some request_hash) record in
      commit_delta (env_io env) (delta_topology [PutInvite record]);;
      mret (RInvite result)
  end.

Definition provisioner_invite_edge (env : Env) (provisioner_id : string)
  (request : ProvisionerRequest) (owner name : string) (ttl_secs : Z) (secret : string)
  : Control ProvisionerResponse :=
  state ← get s_state;
  owner_id ← lift (managed_client_id state owner provisioner_id);
  provisioner_invite env provisioner_id request name (KEdge owner_id) ttl_secs secret.

Definition provisioner_revoke_invite (env : Env) (provisioner_id : string)
  (request : ProvisionerRequest) (invite_id : string) : Control ProvisionerResponse :=
  state ← get s_state;
  invite ← lift (of_option
    (find (fun item => (inv_invite_id (i_invite item) == invite_id) &&
                       (i_managed_by item == Some provisioner_id))%bool (st_invites state))
    (bad "unknown managed invite"));
  match i_state invite with
  | Revoked => provisioner_ok
  | Claimed => throw (conflict "claimed invites cannot be revoked")
  | Pending =>
      lift (check_expected_revision state (pr_expected_revision request));;
      commit_delta (env_io env)
        (delta_topology [PutInvite (invite_terminated Revoked None (env_now env) invite)]);;
      provisioner_ok
  end.

(** The two reasons a Client cannot be removed, shared with the local dispatch. *)
Definition client_is_free (now : Z) (state : ControlState) (client : ClientRecord)
  : result ApiError unit :=
  ensure (negb (any (fun edge => e_owner_id edge == c_endpoint_id client) (st_edges state)))
    (conflict "client still owns edges");;
  ensure (negb (any (fun invite => invite_is_active_pending now invite &&
                       match inv_kind (i_invite invite) with
                       | KEdge owner_id => owner_id == c_endpoint_id client
                       | _ => false
                       end)%bool (st_invites state)))
    (conflict "client still has pending edge invites").

Definition provisioner_remove_client (env : Env) (provisioner_id : string)
  (request : ProvisionerRequest) (name : string) : Control ProvisionerResponse :=
  state ← get s_state;
  match find (fun item => (c_name item == name) && (c_managed_by item == Some provisioner_id))%bool
          (st_clients state) with
  | None =>
      require (negb (any (fun item => c_name item == name) (st_clients state)))
        (forbidden "client is managed by another authority");;
      provisioner_ok
  | Some client =>
      lift (client_is_free (env_now env) state client);;
      lift (check_expected_revision state (pr_expected_revision request));;
      let revocation := revocation_change state (c_endpoint_id client) (c_generation client)
                          (c_expires_at client) in
      commit_delta (env_io env)
        (delta_revocation [DeleteClient (c_endpoint_id client); revocation]);;
      provisioner_ok
  end.

Definition provisioner_remove_edge (env : Env) (provisioner_id : string)
  (request : ProvisionerRequest) (owner name : string) : Control ProvisionerResponse :=
  state ← get s_state;
  owner_id ← lift (managed_client_id state owner provisioner_id);
  match find (fun item => (e_owner_id item == owner_id) && (e_name item == name))%bool
          (st_edges state) with
  | None => provisioner_ok
  | Some edge =>
      lift (check_expected_revision state (pr_expected_revision request));;
      let revocation := revocation_change state (e_endpoint_id edge) (e_generation edge)
                          (e_expires_at edge) in
      commit_delta (env_io env) (delta_revocation [DeleteEdge (e_endpoint_id edge); revocation]);;
      provisioner_ok
  end.

Definition provisioner_transfer_edge (env : Env) (provisioner_id : string)
  (request : ProvisionerRequest) (owner name endpoint_id new_owner : string)
  : Control ProvisionerResponse :=
  id ← lift (of_option (id_parse endpoint_id) (bad "invalid edge endpoint id"));
  let endpoint_id := id_to_string id in
  state ← get s_state;
  owner_id ← lift (managed_client_id state owner provisioner_id);
  new_owner_id ← lift (managed_client_id state new_owner provisioner_id);
  let is_edge_of owner item :=
    ((e_owner_id item == owner) && (e_name item == name) && (e_endpoint_id item == endpoint_id))%bool in
  match find (is_edge_of owner_id) (st_edges state) with
  | None =>
      if any (is_edge_of new_owner_id) (st_edges state) then provisioner_ok
      else throw (bad "unknown managed edge")
  | Some edge =>
      require (negb (any (fun item => (e_owner_id item == new_owner_id) &&
                                      (e_name item == name))%bool (st_edges state)))
        (conflict "target client already has an edge with this name");;
      lift (check_expected_revision state (pr_expected_revision request));;
      commit_delta (env_io env) (delta_topology [PutEdge (edge_owned_by new_owner_id edge)]);;
      provisioner_ok
  end.

Definition dispatch_provisioner_mutation (env : Env) (provisioner_id : string)
  (request : ProvisionerRequest) : Control ProvisionerResponse :=
  match pr_action request with
  | GetTopology => throw (internal "queries are handled before mutation dispatch")
  | InviteClient name ttl_secs secret =>
      provisioner_invite env provisioner_id request name KClient ttl_secs secret
  | InviteEdge owner name ttl_secs secret =>
      provisioner_invite_edge env provisioner_id request owner name ttl_secs secret
  | RevokeInvite invite_id => provisioner_revoke_invite env provisioner_id request invite_id
  | RemoveClient name => provisioner_remove_client env provisioner_id request name
  | RemoveEdge owner name => provisioner_remove_edge env provisioner_id request owner name
  | TransferEdge owner name endpoint_id new_owner =>
      provisioner_transfer_edge env provisioner_id request owner name endpoint_id new_owner
  end.

(** The [Authorization] header: absent, or the outcome of [to_str]. *)
Definition provisioner_checks (env : Env) (header : option (result string string)) (body : bytes)
  : result ApiError (string * ProvisionerRequest) :=
  verification_permit env;;
  header ← of_option header (unauthorized "missing provisioner authorization");
  authorization ← map_err unauthorized header;
  id ← map_err unauthorized (verify_provisioner_authorization authorization body);
  request ← of_option (from_slice body) (bad "invalid request body");
  map_err bad (verify_protocol request);;
  map_err unauthorized (check_time (pr_issued_at request) (env_received env));;
  map_err bad (validate_request_id (pr_request_id request));;
  Ok (id_to_string id, request).

Definition provisioner_mutation (env : Env) (provisioner_id : string) (request : ProvisionerRequest)
  : Control ProvisionerResponse :=
  state ← get s_state;
  lift (authorize_provisioner state (pr_audience request) provisioner_id);;
  dispatch_provisioner_mutation env provisioner_id request.

Definition provisioner_request (env : Env) (header : option (result string string)) (body : bytes)
  : Control ProvisionerResponse :=
  '(provisioner_id, request) ← lift (provisioner_checks env header body);
  match pr_action request with
  | GetTopology =>
      state ← get s_state;
      lift (authorize_provisioner state (pr_audience request) provisioner_id);;
      mret (RTopology (provisioner_topology (env_now env) state provisioner_id))
  | _ =>
      lift (mutation_permit env);;
      provisioner_mutation env provisioner_id request
  end.

(** ** Local administration *)

Definition local_create_invite (env : Env) (name : string) (kind : InviteKind) (ttl_secs : Z)
  (managed_by : option string) : Control LocalAdminResponse :=
  lift (map_err bad (validate_name name));;
  state ← get s_state;
  key ← get s_key;
  lift (validate_invite_name (env_now env) state name kind);;
  '(result, record) ← lift (map_err bad
    (build_invite (env_random env) (env_now env) key state name kind ttl_secs
       (random_token (env_random env) 32)));
  let record := invite_attributed None managed_by None record in
  commit_delta (env_io env) (delta_topology [PutInvite record]);;
  mret (AInvite result).

(** The owner is looked up, and the mutex released, before the invitation is
    created; [others] is what happens to the store in between. *)
Definition local_invite_edge (env : Env) (others : Store -> Store) (name owner : string)
  (ttl_secs : Z) : Control LocalAdminResponse :=
  state ← get s_state;
  '(owner_id, managed_by) ← lift (of_option
    ((fun client => (c_endpoint_id client, c_managed_by client))
       <$> find (fun client => c_name client == owner) (st_clients state))
    (bad ("unknown client '" ++ owner ++ "'")));
  interleave others;;
  local_create_invite env name (KEdge owner_id) ttl_secs managed_by.

Definition local_invite_relay (env : Env) (name url : string) (ttl_secs : Z)
  : Control LocalAdminResponse :=
  url ← lift (map_err bad (normalize_relay_url url));
  local_create_invite env name (KRelay url) ttl_secs None.

Definition local_revoke_invite (env : Env) (invite_id : string) : Control LocalAdminResponse :=
  state ← get s_state;
  invite ← lift (of_option
    (find (fun item => inv_invite_id (i_invite item) == invite_id) (st_invites state))
    (bad "unknown invite"));
  match i_state invite with
  | Pending =>
      commit_delta (env_io env)
        (delta_topology [PutInvite (invite_terminated Revoked None (env_now env) invite)]);;
      mret AOk
  | Claimed => throw (conflict "claimed invites cannot be revoked")
  | Revoked => mret AOk
  end.

Definition local_remove_client (env : Env) (name : string) : Control LocalAdminResponse :=
  state ← get s_state;
  client ← lift (of_option (find (fun client => c_name client == name) (st_clients state))
                   (bad ("unknown client '" ++ name ++ "'")));
  lift (client_is_free (env_now env) state client);;
  let revocation := revocation_change state (c_endpoint_id client) (c_generation client)
                      (c_expires_at client) in
  commit_delta (env_io env) (delta_revocation [DeleteClient (c_endpoint_id client); revocation]);;
  mret AOk.

Definition local_transfer_edge (env : Env) (edge new_client : string)
  : Control LocalAdminResponse :=
  '(owner_name, edge_name) ← lift (parse_edge_ref edge);
  state ← get s_state;
  old_owner ← lift (client_id_by_name state owner_name);
  new_owner ← lift (client_id_by_name state new_client);
  require (negb (any (fun item => (e_owner_id item == new_owner) && (e_name item == edge_name))%bool
                   (st_edges state)))
    (conflict "target client already has an edge with this name");;
  record ← lift (of_option
    (find (fun item => (e_owner_id item == old_owner) && (e_name item == edge_name))%bool
       (st_edges state))
    (bad ("unknown edge '" ++ edge ++ "'")));
  commit_delta (env_io env) (delta_topology [PutEdge (edge_owned_by new_owner record)]);;
  mret AOk.

Definition local_remove_edge (env : Env) (edge : string) : Control LocalAdminResponse :=
  '(owner_name, edge_name) ← lift (parse_edge_ref edge);
  state ← get s_state;
  owner_id ← lift (client_id_by_name state owner_name);
  removed ← lift (of_option
    (find (fun item => (e_owner_id item == owner_id) && (e_name item == edge_name))%bool
       (st_edges state))
    (bad ("unknown edge '" ++ edge ++ "'")));
  let revocation := revocation_change state (e_endpoint_id removed) (e_generation removed)
                      (e_expires_at removed) in
  commit_delta (env_io env) (delta_revocation [DeleteEdge (e_endpoint_id removed); revocation]);;
  mret AOk.

Definition local_remove_relay (env : Env) (name : string) : Control LocalAdminResponse :=
  state ← get s_state;
  relay ← lift (of_option (find (fun relay => r_name relay == name) (st_relays state))
                  (bad ("unknown relay '" ++ name ++ "'")));
  commit_delta (env_io env) (delta_revocation [DeleteRelay (r_endpoint_id relay)]);;
  mret AOk.

Definition local_add_provisioner (env : Env) (name endpoint_id : string)
  : Control LocalAdminResponse :=
  lift (map_err bad (validate_name name));;
  id ← lift (of_option (id_parse endpoint_id) (bad "invalid provisioner endpoint id"));
  let endpoint_id := id_to_string id in
  state ← get s_state;
  require (negb (any (fun item => (p_name item == name) || (p_endpoint_id item == endpoint_id))%bool
                   (st_provisioners state)))
    (conflict "provisioner name or identity already exists");;
  commit_delta (env_io env)
    (delta_topology [PutProvisioner {| p_name := name; p_endpoint_id := endpoint_id |}]);;
  mret AOk.

Definition local_remove_provisioner (env : Env) (name : string) : Control LocalAdminResponse :=
  state ← get s_state;
  provisioner ← lift (of_option (find (fun item => p_name item == name) (st_provisioners state))
                        (bad ("unknown provisioner '" ++ name ++ "'")));
  require (negb (any (fun client => c_managed_by client == Some (p_endpoint_id provisioner))
                   (st_clients state)))
    (conflict "provisioner still manages clients");;
  require (negb (any (fun invite => invite_is_active_pending (env_now env) invite &&
                        (i_managed_by invite == Some (p_endpoint_id provisioner)))%bool
                   (st_invites state)))
    (conflict "provisioner still owns pending invites");;
  commit_delta (env_io env) (delta_topology [DeleteProvisioner (p_endpoint_id provisioner)]);;
  mret AOk.

Definition local_list_provisioners (state : ControlState) : list ProvisionerInfo :=
  (fun item => {| pi_name := p_name item; pi_endpoint_id := p_endpoint_id item;
                  pi_clients := length (retain (fun client =>
                    c_managed_by client == Some (p_endpoint_id item)) (st_clients state)) |})
    <$> st_provisioners state.

Definition dispatch_local_admin (env : Env) (others : Store -> Store) (request : LocalAdminRequest)
  : Control LocalAdminResponse :=
  let view f := state ← get s_state; mret (f state) in
  match request with
  | LOverview => view (fun state => AOverview (overview (env_now env) state))
  | LListClients => view (fun state => AClients (ov_clients (overview (env_now env) state)))
  | LListEdges => view (fun state => AEdges (ov_edges (overview (env_now env) state)))
  | LListRelays => view (fun state => ARelays (ov_relays (overview (env_now env) state)))
  | LListInvites => view (fun state => AInvites (ov_invites (overview (env_now env) state)))
  | LListProvisioners => view (fun state => AProvisioners (local_list_provisioners state))
  | LInviteClient name ttl_secs => local_create_invite env name KClient ttl_secs None
  | LInviteEdge name owner ttl_secs => local_invite_edge env others name owner ttl_secs
  | LInviteRelay name url ttl_secs => local_invite_relay env name url ttl_secs
  | LRevokeInvite invite_id => local_revoke_invite env invite_id
  | LRemoveClient name => local_remove_client env name
  | LTransferEdge edge new_client => local_transfer_edge env edge new_client
  | LRemoveEdge edge => local_remove_edge env edge
  | LRemoveRelay name => local_remove_relay env name
  | LAddProvisioner name endpoint_id => local_add_provisioner env name endpoint_id
  | LRemoveProvisioner name => local_remove_provisioner env name
  end.

(** [handle_local_admin]: an error becomes the [Error] response. *)
Definition local_admin_response (r : result ApiError LocalAdminResponse) : LocalAdminResponse :=
  match r with Ok response => response | Err e => AError (ae_message e) end.

(** ** Background cleanup: one tick of [invitation_cleanup_loop] *)

Definition cleanup_tick (env : Env) : Control unit :=
  state ← get s_state;
  let changes := cleanup_changes state (env_now env) in
  if changes == [] then mret tt else commit_delta (env_io env) (delta_quiet changes).

(** ** Watches *)

(** The read-only half of [renew_relay_credential_if_needed]: is a renewal due? *)
Definition renewal_due (state : ControlState) (endpoint_id : EndpointId) (renew_at : Z)
  : result ApiError bool :=
  let endpoint := id_to_string endpoint_id in
  let expires_at :=
    match c_expires_at <$> find (fun c => c_endpoint_id c == endpoint) (st_clients state) with
    | Some expires_at => Some expires_at
    | None => e_expires_at <$> find (fun e => e_endpoint_id e == endpoint) (st_edges state)
    end in
  match expires_at with
  | None => anyhow_node_exists state endpoint_id;; Ok false
  | Some expires_at => Ok (negb (renew_at <? expires_at))
  end.

Definition renew_mutation (env : Env) (endpoint_id : EndpointId) : Control bool :=
  let now := env_received env in
  let renew_at := i64_saturating_add now RELAY_CREDENTIAL_RENEW_BEFORE_SECS in
  let expires_at := i64_saturating_add now RELAY_CREDENTIAL_LIFETIME_SECS in
  let endpoint := id_to_string endpoint_id in
  state ← get s_state;
  match find (fun c => c_endpoint_id c == endpoint) (st_clients state) with
  | Some record =>
      if renew_at <? c_expires_at record then mret false
      else commit_delta (env_io env) (delta_quiet [PutClient (client_renewed now expires_at record)]);;
           mret true
  | None =>
      match find (fun e => e_endpoint_id e == endpoint) (st_edges state) with
      | Some record =>
          if renew_at <? e_expires_at record then mret false
          else commit_delta (env_io env) (delta_quiet [PutEdge (edge_renewed now expires_at record)]);;
               mret true
      | None => lift (anyhow_node_exists state endpoint_id);; mret false
      end
  end.

Definition renew_relay_credential_if_needed (env : Env) (others : Store -> Store)
  (endpoint_id : EndpointId) : Control bool :=
  let renew_at := i64_saturating_add (env_received env) RELAY_CREDENTIAL_RENEW_BEFORE_SECS in
  state ← get s_state;
  due ← lift (renewal_due state endpoint_id renew_at);
  if negb due then mret false
  else
    lift (mutation_permit env);;
    interleave others;;
    renew_mutation env endpoint_id.

Definition qad_port_mutation (env : Env) (endpoint_id : EndpointId) (qad_port : option Z)
  : Control unit :=
  state ← get s_state;
  relay ← lift (of_option (find (fun relay => r_endpoint_id relay == id_to_string endpoint_id)
                             (st_relays state)) (forbidden "relay is not registered"));
  if r_qad_port relay != qad_port
  then commit_delta (env_io env) (delta_topology [PutRelay (relay_with_qad qad_port relay)])
  else mret tt.

Definition update_relay_qad_port_if_needed (env : Env) (others : Store -> Store)
  (endpoint_id : EndpointId) (qad_port : option Z) : Control unit :=
  state ← get s_state;
  relay ← lift (of_option (find (fun relay => r_endpoint_id relay == id_to_string endpoint_id)
                             (st_relays state)) (forbidden "relay is not registered"));
  if r_qad_port relay == qad_port then mret tt
  else
    lift (mutation_permit env);;
    interleave others;;
    qad_port_mutation env endpoint_id qad_port.

(** The waiting loops: each element of [wakeups] is what the other requests did
    to the store before one notification; after the last one the 30 seconds
    elapse. *)
Fixpoint wait_for_revision (endpoint_id : EndpointId) (known : Z) (wakeups : list (Store -> Store))
  : Control bool := fun s =>
  match anyhow_node_exists (s_state s) endpoint_id with
  | Err e => (s, Err e)
  | Ok _ =>
      if known <? st_revision (s_state s) then (s, Ok true)
      else match wakeups with
           | [] => (s, Ok false)
           | others :: wakeups => wait_for_revision endpoint_id known wakeups (others s)
           end
  end.

Fixpoint wait_for_relay_revision (endpoint_id : EndpointId) (known : Z)
  (wakeups : list (Store -> Store)) : Control bool := fun s =>
  match anyhow_relay_exists (s_state s) endpoint_id with
  | Err e => (s, Err e)
  | Ok _ =>
      if st_relay_revision (s_state s) <? known
      then (s, Err (bad "Relay revision is ahead of Control"))
      else if known <? st_relay_revision (s_state s) then (s, Ok true)
      else match wakeups with
           | [] => (s, Ok false)
           | others :: wakeups => wait_for_relay_revision endpoint_id known wakeups (others s)
           end
  end.

(** Holds a [WatchGuard] while [body] runs and drops it on every path. *)
Definition with_watch {A} (endpoint_id : EndpointId) (body : Control A) : Control A := fun s =>
  let set counts s := {|
    s_database := s_database s; s_key := s_key s; s_relay_ca := s_relay_ca s;
    s_state := s_state s; s_changed := s_changed s; s_relay_changed := s_relay_changed s;
    s_watches := counts |} in
  match watch_acquire (s_watches s) (id_to_string endpoint_id) with
  | (counts, Err e) => (set counts s, Err e)
  | (counts, Ok _) =>
      let '(s, r) := body (set counts s) in
      (set (watch_release (s_watches s) (id_to_string endpoint_id)) s, r)
  end.

(** [None] is the empty 204 response; [resumed] is what happens to the store
    between the end of the wait and the answer. *)
Definition watch (env : Env) (others : Store -> Store) (wakeups : list (Store -> Store))
  (resumed : Store -> Store) (request : WatchRequest) : Control (option SignedNodeMap) :=
  lift (verification_permit env);;
  endpoint_id ← lift (map_err unauthorized (watch_verify request));
  lift (map_err unauthorized (check_time (wr_issued_at request) (env_received env)));;
  with_watch endpoint_id (
    renewed ← renew_relay_credential_if_needed env others endpoint_id;
    changed ← (if renewed : bool then mret true
               else wait_for_revision endpoint_id (wr_known_revision request) wakeups);
    if negb changed then mret None
    else
      interleave resumed;;
      state ← get s_state;
      key ← get s_key;
      map ← lift (map_err internal (signed_map (env_now env) state key endpoint_id));
      mret (Some map)).

(** The revocations a Relay that knows [known_revision] has not seen. *)
Definition revocation_update (now : Z) (state : ControlState) (known_revision : Z)
  : RevocationUpdate := {|
  ru_protocol_version := RELAY_PROTOCOL_VERSION;
  ru_audience := st_audience state;
  ru_version := st_relay_revision state;
  ru_issued_at := now;
  ru_revocations := (fun r => {|
      rv_endpoint_id := v_endpoint_id r; rv_revoked_through_generation := v_generation r;
      rv_expires_at := v_expires_at r; rv_revision := v_revision r |})
    <$> retain (fun r => known_revision <? v_revision r) (st_revocations state) |}.

(** The last critical section of [relay_watch]. *)
Definition relay_watch_respond (env : Env) (endpoint_id : EndpointId) (known_revision : Z)
  : Control SignedRevocationUpdate :=
  state ← get s_state;
  key ← get s_key;
  lift (anyhow_relay_exists state endpoint_id);;
  lift (map_err internal (update_sign (revocation_update (env_now env) state known_revision) key)).

Definition relay_watch (env : Env) (others : Store -> Store) (wakeups : list (Store -> Store))
  (resumed : Store -> Store) (request : WatchRequest) : Control (option SignedRevocationUpdate) :=
  lift (verification_permit env);;
  endpoint_id ← lift (map_err unauthorized (watch_verify request));
  lift (map_err unauthorized (check_time (wr_issued_at request) (env_received env)));;
  lift (map_err bad (validate_qad_port (wr_relay_qad_port request)));;
  with_watch endpoint_id (
    update_relay_qad_port_if_needed env others endpoint_id (wr_relay_qad_port request);;
    changed ← wait_for_relay_revision endpoint_id (wr_known_revision request) wakeups;
    if negb changed then mret None
    else
      interleave resumed;;
      update ← relay_watch_respond env endpoint_id (wr_known_revision request);
      mret (Some update)).
End Handlers.
