(* ===== verification/ControlSpec.v ===== *)
(** * as-control: the mutations Control performs

    The abstract specification of Control: [mutation] lists the changes of the
    snapshot Control is meant to make, each with its precondition, and every
    critical section of the handlers is shown to be one of them or a no-op. *)
From S2P Require Import Prelude Deps RelayApi ControlApi State Database ControlCore ControlHandlers.
Open Scope string_scope.
Open Scope Z_scope.
Import Vec.

Section Spec.
Context `{Keys, Encodings, !ControlSerde, !Certificates, !Urls}.
Context `{!Serde RelayCredential, !Serde SignedRelayCredential, !Serde RevocationUpdate}.

(** ** The specification *)

(** [mutation st now token delta]: at clock reading [now], with the fresh random
    token [token], Control may apply [delta]. *)
Inductive mutation (st : ControlState) (now : Z) (token : string) : StateDelta -> Prop :=
| m_issue_invite i :
    i_id i = token -> i_state i = Pending -> i_claimed_by i = None -> i_terminal_at i = None ->
    inv_audience (i_invite i) = st_audience st -> inv_control_url (i_invite i) = st_public_url st ->
    now < inv_expires_at (i_invite i) <= now + 7 * 24 * 60 * 60 ->
    validate_invite_name now st (inv_name (i_invite i)) (inv_kind (i_invite i)) = Ok tt ->
    mutation st now token (delta_topology [PutInvite i])
| m_enroll i id port change :
    i ∈ st_invites st -> i_state i = Pending -> now <= inv_expires_at (i_invite i) ->
    port <> Some 0 ->
    claimed_node_change st (i_invite i) id (i_managed_by i) port (st_revision st + 1) now
      = Ok change ->
    mutation st now token
      (delta_topology [change; PutInvite (invite_terminated Claimed (Some (id_to_string id)) now i)])
| m_revoke_invite i :
    i ∈ st_invites st -> i_state i = Pending ->
    mutation st now token (delta_topology [PutInvite (invite_terminated Revoked None now i)])
| m_remove_client c :
    c ∈ st_clients st -> client_is_free now st c = Ok tt ->
    mutation st now token (delta_revocation [DeleteClient (c_endpoint_id c);
      revocation_change st (c_endpoint_id c) (c_generation c) (c_expires_at c)])
| m_remove_edge e :
    e ∈ st_edges st ->
    mutation st now token (delta_revocation [DeleteEdge (e_endpoint_id e);
      revocation_change st (e_endpoint_id e) (e_generation e) (e_expires_at e)])
| m_transfer_edge e owner :
    e ∈ st_edges st -> owner ∈ c_endpoint_id <$> st_clients st ->
    (forall f, f ∈ st_edges st -> e_owner_id f = owner -> e_name f <> e_name e) ->
    mutation st now token (delta_topology [PutEdge (edge_owned_by owner e)])
| m_remove_relay r :
    r ∈ st_relays st -> mutation st now token (delta_revocation [DeleteRelay (r_endpoint_id r)])
| m_set_qad_port r port :
    r ∈ st_relays st -> mutation st now token (delta_topology [PutRelay (relay_with_qad port r)])
| m_renew_client c :
    c ∈ st_clients st ->
    c_expires_at c <= i64_saturating_add now RELAY_CREDENTIAL_RENEW_BEFORE_SECS ->
    mutation st now token (delta_quiet [PutClient
      (client_renewed now (i64_saturating_add now RELAY_CREDENTIAL_LIFETIME_SECS) c)])
| m_renew_edge e :
    e ∈ st_edges st ->
    e_expires_at e <= i64_saturating_add now RELAY_CREDENTIAL_RENEW_BEFORE_SECS ->
    mutation st now token (delta_quiet [PutEdge
      (edge_renewed now (i64_saturating_add now RELAY_CREDENTIAL_LIFETIME_SECS) e)])
| m_add_provisioner name id :
    (forall q, q ∈ st_provisioners st -> p_name q <> name /\ p_endpoint_id q <> id_to_string id) ->
    mutation st now token
      (delta_topology [PutProvisioner {| p_name := name; p_endpoint_id := id_to_string id |}])
| m_remove_provisioner p :
    p ∈ st_provisioners st ->
    (forall c, c ∈ st_clients st -> c_managed_by c <> Some (p_endpoint_id p)) ->
    mutation st now token (delta_topology [DeleteProvisioner (p_endpoint_id p)])
| m_cleanup : mutation st now token (delta_quiet (cleanup_changes st now)).

(** ** Critical sections *)

(** Everything that takes the state mutex to write: the requests, the second
    halves of the ones that take it twice, and the background task. *)
Inductive Operation :=
| OClaim (request : ClaimRequest)
| OClientEdgeInvite (request : EdgeInviteRequest)
| OClientEdgeRemove (request : EdgeRemoveRequest)
| OProvisioner (header : option (result string string)) (body : bytes)
| OLocal (request : LocalAdminRequest)
| OLocalCreateInvite (name : string) (kind : InviteKind) (ttl_secs : Z) (managed_by : option string)
| OCleanup
| ORenew (endpoint_id : EndpointId)
| OQadPort (endpoint_id : EndpointId) (qad_port : option Z).

Definition perform (env : Env) (op : Operation) (s : Store) : Store :=
  match op with
  | OClaim request => (claim env request s).1
  | OClientEdgeInvite request => (client_edge_invite env request s).1
  | OClientEdgeRemove request => (client_edge_remove env request s).1
  | OProvisioner header body => (provisioner_request env header body s).1
  | OLocal request => (dispatch_local_admin env id request s).1
  | OLocalCreateInvite name kind ttl_secs managed_by =>
      (local_create_invite env name kind ttl_secs managed_by s).1
  | OCleanup => (cleanup_tick env s).1
  | ORenew endpoint_id => (renew_mutation env endpoint_id s).1
  | OQadPort endpoint_id qad_port => (qad_port_mutation env endpoint_id qad_port s).1
  end.

Definition committed (s : Store) (delta : StateDelta) (s' : Store) : Prop :=
  exists io, commit_delta io delta s = (s', Ok tt).

(** [s] and [s'] are related by at most one mutation, at one of the request's two
    clock readings. *)
Definition mutates (env : Env) (s s' : Store) : Prop :=
  s' = s \/
  exists now delta, (now = env_received env \/ now = env_now env) /\
    mutation (s_state s) now (random_token (env_random env) 16) delta /\ committed s delta s'.

Definition obeys {A} (env : Env) (m : handler Store ApiError A) : Prop :=
  forall s s' r, m s = (s', r) -> mutates env s s'.

(** ** Symbolic execution up to a commit *)

Lemma bind_commit_inv {B} io delta (f : unit -> handler Store ApiError B) s s' x :
  (commit_delta io delta ≫= f) s = (s', x) ->
  (exists s1, commit_delta io delta s = (s1, Ok tt) /\ f tt s1 = (s', x)) \/
  (exists e, commit_delta io delta s = (s, Err e) /\ s' = s /\ x = Err e).
Proof.
  unfold mbind, handler_bind. destruct (commit_delta io delta s) as [s1 [[]|e]] eqn:E; [eauto|].
  intros [= <- <-]. assert (Hs : s1 = s).
  { unfold commit_delta in E. case_match; [|congruence]. by repeat case_match. }
  subst. eauto.
Qed.

Lemma commit_unit_inv io delta s s' x :
  commit_delta io delta s = (s', x) ->
  commit_delta io delta s = (s', Ok tt) \/ s' = s.
Proof.
  intros E. destruct x as [[]|e]; [auto|]. right. unfold commit_delta in E.
  case_match; [|congruence]. by repeat case_match.
Qed.

Lemma mutates_commit env s s' io now delta :
  now = env_received env \/ now = env_now env -> mutation (s_state s) now (random_token (env_random env) 16) delta ->
  commit_delta io delta s = (s', Ok tt) -> mutates env s s'.
Proof. intros ???. right. exists now, delta. split_and!; [done..|]. by exists io. Qed.
End Spec.

(** Runs a handler to its end: branches that return early leave the store
    unchanged, the others leave the commit and what was checked before it. *)
Ltac hrun H :=
  repeat first
    [ hstep H
    | lazymatch type of H with
      | mbind _ (commit_delta _ _) _ = _ =>
          let E := fresh "E" in let Hs := fresh "Hs" in let Hx := fresh "Hx" in
          apply bind_commit_inv in H as [(? & E & H)|(? & E & Hs & Hx)];
          [cbv beta in H|first [discriminate Hx|subst]]
      | match ?x with _ => _ end _ = _ => let E := fresh "E" in destruct x eqn:E
      end ].

Section Refinement.
Context `{Keys, Encodings, !ControlSerde, !Certificates, !Urls}.
Context `{!Serde RelayCredential, !Serde SignedRelayCredential, !Serde RevocationUpdate}.
Implicit Types (env : Env) (s : Store).

Lemma build_invite_Ok random now key state name kind ttl secret res record :
  build_invite random now key state name kind ttl secret = Ok (res, record) ->
  i_id record = random_token random 16 /\
  i_state record = Pending /\ i_claimed_by record = None /\ i_terminal_at record = None /\
  inv_audience (i_invite record) = st_audience state /\
  inv_control_url (i_invite record) = st_public_url state /\
  inv_name (i_invite record) = name /\ inv_kind (i_invite record) = kind /\
  now < inv_expires_at (i_invite record) <= now + 7 * 24 * 60 * 60.
Proof. intros Hb. unfold build_invite in Hb. run_ok. cbn. split_and!; try done; lia. Qed.

Lemma find_by {T} (p : T -> bool) l x e : of_option (find p l) e = @Ok ApiError T x ->
  x ∈ l /\ p x = true.
Proof. intros ?%of_option_Ok. by apply find_Some. Qed.

(** The last lines of every handler that issues an invitation. *)
Lemma issue_mutates env s s' io key name kind ttl secret request managed hash res record :
  validate_invite_name (env_now env) (s_state s) name kind = Ok tt ->
  map_err bad (build_invite (env_random env) (env_now env) key (s_state s) name kind ttl secret)
    = Ok (res, record) ->
  commit_delta io (delta_topology [PutInvite (invite_attributed request managed hash record)]) s
    = (s', Ok tt) ->
  mutates env s s'.
Proof.
  intros Hn Hb Hc. apply map_err_Ok in Hb.
  apply build_invite_Ok in Hb as (? & ? & ? & ? & ? & ? & ? & ? & ?).
  eapply mutates_commit; [by right| |exact Hc]. apply m_issue_invite; cbn; try done. congruence.
Qed.

(** Closes the branches that changed nothing. *)
Ltac unchanged := try (by left).


(** What the checks before and inside the critical section establish of the
    invitation a claim consumes. *)
Lemma claim_record env request id state key record (err : ApiError) :
  claim_checks env request = Ok id ->
  validate_token_for_state (cr_token request) state (public key) (env_received env) = Ok tt ->
  of_option (find (fun record => inv_invite_id (i_invite record) == cl_invite_id (cr_claim request))
               (st_invites state)) err = Ok record ->
  record ∈ st_invites state /\ i_invite record = jt_invite (cr_token request) /\
  env_received env <= inv_expires_at (i_invite record).
Proof.
  intros Hc Hv Hf. unfold claim_checks, claim_verify in Hc. run_ok.
  unfold validate_token_for_state in Hv. run_ok.
  match goal with
  | E1 : cl_invite_id _ = _, E2 : find _ _ = Some ?x, E3 : i_invite ?x = _ |- _ =>
      rewrite E1, E2 in Hf; injection Hf as ->; apply find_Some in E2 as [? _]; rewrite E3
  end.
  done.
Qed.

Lemma validate_relay_claim_port kind port csr port' :
  validate_relay_claim kind port csr = Ok port' -> port' <> Some 0.
Proof.
  unfold validate_relay_claim, validate_qad_port. intros Hv.
  destruct (is_relay_kind kind); cbn in Hv; run_ok; congruence.
Qed.

Lemma claim_pending_mutates env id record port certificate s s' r :
  record ∈ st_invites (s_state s) -> i_state record = Pending ->
  env_received env <= inv_expires_at (i_invite record) -> port <> Some 0 ->
  claim_pending env record id port certificate s = (s', r) -> mutates env s s'.
Proof.
  intros Hin Hp Hx Hport Hr. unfold claim_pending in Hr. hrun Hr; unchanged.
  all: run_ok; subst.
  all: (eapply mutates_commit; [by left|by eapply m_enroll|done]).
Qed.

Lemma claim_mutates env request : obeys env (claim env request).
Proof.
  intros s s' r Hr. unfold claim in Hr. do 2 (hstep Hr; unchanged). unfold claim_mutation in Hr.
  hrun Hr; unchanged.
  - edestruct claim_record as (? & ? & ?); [done..|].
    eapply claim_pending_mutates; eauto using validate_relay_claim_port.
  - unfold claim_repeated in Hr. hrun Hr; unchanged.
Qed.

Lemma client_edge_invite_mutates env request : obeys env (client_edge_invite env request).
Proof.
  intros s s' r Hr. unfold client_edge_invite, client_edge_invite_mutation in Hr.
  hrun Hr; unchanged. eapply issue_mutates; eauto.
Qed.

Lemma commit_mutates env s s' io now delta :
  commit_delta io delta s = (s', Ok tt) -> mutation (s_state s) now (random_token (env_random env) 16) delta ->
  now = env_received env \/ now = env_now env -> mutates env s s'.
Proof. intros. by eapply mutates_commit. Qed.

(** Commits one mutation of the list, from the record a search returned. *)
Ltac by_mutation c :=
  repeat match goal with
  | E : of_option (find _ _) _ = Ok _ |- _ => apply find_by in E as [? ?]
  | E : find _ _ = Some _ |- _ => apply find_Some in E as [? ?]
  end;
  eapply commit_mutates; [eassumption|by eapply c|first [by left|by right]].

Lemma client_edge_remove_mutates env request : obeys env (client_edge_remove env request).
Proof.
  intros s s' r Hr. unfold client_edge_remove, client_edge_remove_mutation in Hr.
  hrun Hr; unchanged; by_mutation m_remove_edge.
Qed.

Lemma provisioner_ok_id s s' r : provisioner_ok s = (s', r) -> s' = s.
Proof. unfold provisioner_ok. intros Hr. by hrun Hr. Qed.

Lemma provisioner_invite_mutates env pid request name kind ttl secret :
  obeys env (provisioner_invite env pid request name kind ttl secret).
Proof.
  intros s s' r Hr. unfold provisioner_invite in Hr. hrun Hr; unchanged.
  eapply issue_mutates; eauto.
Qed.

Lemma managed_client_id_Ok st name pid id :
  managed_client_id st name pid = Ok id ->
  exists c, c ∈ st_clients st /\ c_endpoint_id c = id /\ c_name c = name /\
    c_managed_by c = Some pid.
Proof.
  unfold managed_client_id. intros Hm. run_ok.
  destruct (find _ _) as [c|] eqn:E; [|done]. cbn in Hm. injection Hm as <-.
  apply find_Some in E as [? ?]. run_ok. eauto.
Qed.

Lemma client_id_by_name_Ok st name id :
  client_id_by_name st name = Ok id ->
  exists c, c ∈ st_clients st /\ c_endpoint_id c = id /\ c_name c = name.
Proof.
  unfold client_id_by_name. intros Hm. run_ok.
  destruct (find _ _) as [c|] eqn:E; [|done]. cbn in Hm. injection Hm as <-.
  apply find_Some in E as [? ?]. run_ok. eauto.
Qed.

(** The last lines of the two transfer handlers. *)
Lemma transfer_mutates env s s' io e name owner :
  e ∈ st_edges (s_state s) -> e_name e = name ->
  owner ∈ c_endpoint_id <$> st_clients (s_state s) ->
  any (fun item => (e_owner_id item == owner) && (e_name item == name))%bool
    (st_edges (s_state s)) = false ->
  commit_delta io (delta_topology [PutEdge (edge_owned_by owner e)]) s = (s', Ok tt) ->
  mutates env s s'.
Proof.
  intros He <- Ho Hn Hc. eapply mutates_commit; [by right| |exact Hc].
  apply m_transfer_edge; [done..|]. intros f Hf Hfo Hfn.
  eapply any_false in Hn; [|exact Hf]. cbn in Hn.
  by rewrite !bool_decide_eq_true_2 in Hn.
Qed.

Lemma provisioner_transfer_mutates env pid request owner name endpoint new_owner :
  obeys env (provisioner_transfer_edge env pid request owner name endpoint new_owner).
Proof.
  intros s s' r Hr. unfold provisioner_transfer_edge in Hr. hrun Hr; unchanged.
  - repeat match goal with
    | E : managed_client_id _ _ _ = Ok _ |- _ => apply managed_client_id_Ok in E as (? & ? & ? & ? & ?)
    | E : find _ _ = Some _ |- _ => apply find_Some in E as [? ?]
    end. run_ok. subst. apply provisioner_ok_id in Hr as ->.
    eapply transfer_mutates; eauto; rewrite ?list_elem_of_fmap; eauto.
  - left. by apply provisioner_ok_id in Hr.
Qed.

Lemma dispatch_provisioner_mutates env pid request :
  obeys env (dispatch_provisioner_mutation env pid request).
Proof.
  unfold dispatch_provisioner_mutation. destruct (pr_action request); intros s s' r Hr.
  - hrun Hr; unchanged.
  - by eapply provisioner_invite_mutates.
  - unfold provisioner_invite_edge in Hr. do 2 (hstep Hr; unchanged).
    by eapply provisioner_invite_mutates.
  - unfold provisioner_revoke_invite in Hr. hrun Hr; unchanged;
      apply provisioner_ok_id in Hr as ->; unchanged. by_mutation m_revoke_invite.
  - unfold provisioner_remove_client in Hr. hrun Hr; unchanged;
      apply provisioner_ok_id in Hr as ->; unchanged. by_mutation m_remove_client.
  - unfold provisioner_remove_edge in Hr. hrun Hr; unchanged;
      apply provisioner_ok_id in Hr as ->; unchanged. by_mutation m_remove_edge.
  - by eapply provisioner_transfer_mutates.
Qed.

Lemma provisioner_request_mutates env header body : obeys env (provisioner_request env header body).
Proof.
  intros s s' r Hr. unfold provisioner_request, provisioner_mutation in Hr.
  hrun Hr; unchanged; by eapply dispatch_provisioner_mutates.
Qed.

Lemma local_create_invite_mutates env name kind ttl managed_by :
  obeys env (local_create_invite env name kind ttl managed_by).
Proof.
  intros s s' r Hr. unfold local_create_invite in Hr. hrun Hr; unchanged.
  eapply issue_mutates; eauto.
Qed.

Lemma local_transfer_mutates env edge new_client : obeys env (local_transfer_edge env edge new_client).
Proof.
  intros s s' r Hr. unfold local_transfer_edge in Hr. hrun Hr; unchanged.
  repeat match goal with
  | E : client_id_by_name _ _ = Ok _ |- _ => apply client_id_by_name_Ok in E as (? & ? & ? & ?)
  | E : of_option (find _ _) _ = Ok _ |- _ => apply find_by in E as [? ?]
  end. run_ok. subst.
  eapply transfer_mutates; eauto; rewrite ?list_elem_of_fmap; eauto.
Qed.

Lemma local_provisioner_mutates env name id :
  obeys env (local_add_provisioner env name id) /\ obeys env (local_remove_provisioner env name).
Proof.
  split; intros s s' r Hr.
  - unfold local_add_provisioner in Hr. hrun Hr; unchanged.
    eapply mutates_commit; [by right|apply m_add_provisioner|done].
    intros q Hq. run_ok. eapply any_false in Hq; [|done]. cbn in Hq. by run_ok.
  - unfold local_remove_provisioner in Hr. hrun Hr; unchanged.
    apply find_by in E as [? ?]. eapply mutates_commit; [by right|apply m_remove_provisioner|done];
      [done|]. intros c Hc. run_ok. eapply any_false in Hc; [|done]. cbn in Hc. by run_ok.
Qed.

Lemma dispatch_local_admin_mutates env request : obeys env (dispatch_local_admin env id request).
Proof.
  unfold dispatch_local_admin.
  destruct request; intros s s' r Hr; try (hrun Hr; unchanged; fail).
  - by eapply local_create_invite_mutates.
  - unfold local_invite_edge in Hr. do 2 (hstep Hr; unchanged).
    unfold mbind, handler_bind, interleave in Hr. by eapply local_create_invite_mutates.
  - unfold local_invite_relay in Hr. hstep Hr; unchanged. by eapply local_create_invite_mutates.
  - unfold local_revoke_invite in Hr. hrun Hr; unchanged. by_mutation m_revoke_invite.
  - unfold local_remove_client in Hr. hrun Hr; unchanged. by_mutation m_remove_client.
  - by eapply local_transfer_mutates.
  - unfold local_remove_edge in Hr. hrun Hr; unchanged. by_mutation m_remove_edge.
  - unfold local_remove_relay in Hr. hrun Hr; unchanged. by_mutation m_remove_relay.
  - by eapply (proj1 (local_provisioner_mutates env _ _)).
  - by eapply (proj2 (local_provisioner_mutates env _ "")).
Qed.

Lemma cleanup_tick_mutates env : obeys env (cleanup_tick env).
Proof.
  intros s s' r Hr. unfold cleanup_tick in Hr. hrun Hr; unchanged.
  apply commit_unit_inv in Hr as [Hr|Hr]; [|by left]. by_mutation m_cleanup.
Qed.

Lemma renew_mutates env id : obeys env (renew_mutation env id).
Proof.
  intros s s' r Hr. unfold renew_mutation in Hr. hrun Hr; unchanged; run_ok.
  - by_mutation m_renew_client.
  - by_mutation m_renew_edge.
Qed.

Lemma qad_port_mutates env id port : obeys env (qad_port_mutation env id port).
Proof.
  intros s s' r Hr. unfold qad_port_mutation in Hr. hrun Hr; unchanged.
  apply commit_unit_inv in Hr as [Hr|Hr]; [|by left]. by_mutation m_set_qad_port.
Qed.

Lemma mutates_perform env op s : mutates env s (perform env op s).
Proof.
  assert (Ho : forall A (m : handler Store ApiError A), obeys env m -> mutates env s (m s).1).
  { intros A m Hm. destruct (m s) as [s' r] eqn:E. by eapply Hm. }
  destruct op; cbn [perform]; apply Ho.
  - apply claim_mutates.
  - apply client_edge_invite_mutates.
  - apply client_edge_remove_mutates.
  - apply provisioner_request_mutates.
  - apply dispatch_local_admin_mutates.
  - apply local_create_invite_mutates.
  - apply cleanup_tick_mutates.
  - apply renew_mutates.
  - apply qad_port_mutates.
Qed.
(** C2. Control's handlers implement the specification: whatever a request, the
    background cleanup or the second half of a watch does, the store is left
    unchanged or one mutation of the specification is committed to it, with its
    precondition met at one of the request's clock readings. *)
Theorem operations_refine_spec env op s : mutates env s (perform env op s).
Proof. apply mutates_perform. Qed.
End Refinement.
