(* ===== verification/ControlInvariant.v ===== *)
(** * as-control: invariants of every reachable store

    Durability (the tables always represent the snapshot), the registry's
    consistency, and the accounting of Relay credentials, each shown to hold
    after any sequence of operations by induction over the specification's
    mutations. *)
From S2P Require Import Prelude Deps RelayApi ControlApi State Database ControlCore ControlHandlers.
From S2P Require Import ControlSpec.
Open Scope string_scope.
Open Scope Z_scope.
Import Vec.

(** ** Consistency of a snapshot *)

Record state_ok (st : ControlState) : Prop := {
  so_metadata : check_metadata (metadata_of st) = true;
  so_clients : Keyed.table c_endpoint_id check_client (st_clients st);
  so_client_names : Keyed.secondary c_endpoint_id client_name_key (st_clients st);
  so_edges : Keyed.table e_endpoint_id check_edge (st_edges st);
  so_edge_names : Keyed.secondary e_endpoint_id edge_name_key (st_edges st);
  so_edge_owners : Keyed.refers edge_owner_ref (st_edges st) (c_endpoint_id <$> st_clients st);
  so_relays : Keyed.table r_endpoint_id check_relay (st_relays st);
  so_relay_names : Keyed.secondary r_endpoint_id relay_name_key (st_relays st);
  so_relay_urls : Keyed.secondary r_endpoint_id relay_url_key (st_relays st);
  so_revocations : Keyed.table v_endpoint_id check_revocation (st_revocations st);
  so_invites : Keyed.unique i_id (st_invites st);
  so_request_ids : Keyed.secondary i_id i_request_id (st_invites st);
  so_provisioners : Keyed.unique p_endpoint_id (st_provisioners st);
}.

(** ** From the tables to the snapshot *)

Section Tables.
Context `{Serde Invite}.

Lemma refers_perm {T} (f : T -> option string) l l' ps ps' :
  l ≡ₚ l' -> ps ≡ₚ ps' -> Keyed.refers f l ps -> Keyed.refers f l' ps'.
Proof. intros Hl Hp Hr x p. rewrite <- Hl, <- Hp. apply Hr. Qed.

Lemma table_perm {T} (key : T -> string) check l l' :
  l ≡ₚ l' -> Keyed.table key check l -> Keyed.table key check l'.
Proof.
  intros Hl [Hu Hc]. split; [by eapply Keyed.unique_perm|]. by rewrite <- (all_perm _ _ _ Hl).
Qed.

Lemma invites_of_rows rows l :
  Forall2 invitation_row_of rows l ->
  Keyed.unique iv_invite_id rows -> Keyed.secondary iv_invite_id iv_request_id rows ->
  Keyed.unique i_id l /\ Keyed.secondary i_id i_request_id l.
Proof.
  intros Hf Hu Hs. split.
  - unfold Keyed.unique in *. replace (i_id <$> l) with (iv_invite_id <$> rows); [done|].
    clear -Hf. induction Hf as [|row i rows l Hi]; [done|].
    rewrite !fmap_cons. f_equal; [by apply invitation_row_key|done].
  - intros a b v Ha Hb Ea Eb.
    destruct (Forall2_elem_r _ _ _ _ Hf Ha) as (ra & ? & Ra), (Forall2_elem_r _ _ _ _ Hf Hb) as (rb & ? & Rb).
    rewrite <- (invitation_row_key _ _ Ra), <- (invitation_row_key _ _ Rb).
    rewrite <- (invitation_row_request _ _ Ra) in Ea. rewrite <- (invitation_row_request _ _ Rb) in Eb.
    by eapply Hs.
Qed.

Lemma tables_ok_state d st : db_ok d -> represents d st -> state_ok st.
Proof.
  intros [] []. destruct ok_invitations as ([? _] & ? & _).
  edestruct invites_of_rows; [done..|].
  split; eauto using table_perm, Keyed.secondary_perm.
  - eapply refers_perm; [done| |done]. by apply Permutation_map.
  - eapply Keyed.unique_perm; [done|]. by apply active_unique.
Qed.
End Tables.

Section Invariant.
Context `{Keys, Encodings, !ControlSerde, !Certificates, !Urls}.
Context `{!Serde RelayCredential, !Serde SignedRelayCredential, !Serde RevocationUpdate}.
Implicit Types (s : Store) (st : ControlState).

(** The database satisfies its schema and holds the snapshot in memory. *)
Definition store_ok s : Prop := db_ok (s_database s) /\ represents (s_database s) (s_state s).

(** An identity as Control stores it: the canonical text of a key. *)
Definition canonical (x : string) : Prop := exists id, x = id_to_string id.

(** Generations never exceed the revision they were allocated from, and
    revocations never run ahead of the Relay revision. *)
Record numbered (revision relay_revision : Z) st : Prop := {
  no_clients : forall c, c ∈ st_clients st ->
    c_generation c <= revision /\ canonical (c_endpoint_id c);
  no_edges : forall e, e ∈ st_edges st ->
    e_generation e <= revision /\ canonical (e_endpoint_id e);
  no_relays : forall r, r ∈ st_relays st -> canonical (r_endpoint_id r);
  no_revocations : forall v, v ∈ st_revocations st ->
    v_generation v <= revision /\ v_revision v <= relay_revision /\
    canonical (v_endpoint_id v);
}.

Definition numbering_ok st : Prop := numbered (st_revision st) (st_relay_revision st) st.

(** The condition a change puts on the record it stores. *)
Definition put_numbered (revision relay_revision : Z) (change : StateChange) : Prop :=
  match change with
  | PutClient c => c_generation c <= revision /\ canonical (c_endpoint_id c)
  | PutEdge e => e_generation e <= revision /\ canonical (e_endpoint_id e)
  | PutRelay r => canonical (r_endpoint_id r)
  | PutRevocation v => v_generation v <= revision /\ v_revision v <= relay_revision /\
      canonical (v_endpoint_id v)
  | _ => True
  end.

(** A run: operations performed one after the other, each in its environment. *)
Definition run (ops : list (Env * Operation)) s : Store :=
  fold_left (fun s '(env, op) => perform env op s) ops s.

(** ** Credentials *)

(** The node [id] holds a record whose credential has generation [g] and expires
    at [x]: what a node map issued at this state carries. *)
Definition issued st (id : string) (g x : Z) : Prop :=
  (exists c, c ∈ st_clients st /\ c_endpoint_id c = id /\ c_generation c = g /\ c_expires_at c = x) \/
  (exists e, e ∈ st_edges st /\ e_endpoint_id e = id /\ e_generation e = g /\ e_expires_at e = x).

(** The record is still there, possibly renewed. *)
Definition registered st (id : string) (g x : Z) : Prop := exists x', x <= x' /\ issued st id g x'.

Definition revoked st (id : string) (g x : Z) : Prop :=
  exists v, v ∈ st_revocations st /\ v_endpoint_id v = id /\ g <= v_generation v /\
    x <= v_expires_at v.

Definition accounted st (id : string) (g x : Z) : Prop :=
  registered st id g x \/ revoked st id g x.

(** Some clock reading of the run had reached [x]. *)
Definition expired_during (ops : list (Env * Operation)) (x : Z) : Prop :=
  exists env op, (env, op) ∈ ops /\ (x <= env_received env \/ x <= env_now env).

Lemma store_ok_state s : store_ok s -> state_ok (s_state s).
Proof. intros [??]. by eapply tables_ok_state. Qed.

(** ** What a commit does *)

Lemma commit_delta_Ok io delta s s' :
  store_ok s -> commit_delta io delta s = (s', Ok tt) ->
  exists revision relay_revision,
    next_revision (d_publish delta) (s_state s) = Ok revision /\
    next_relay_revision (d_publish delta) (s_state s) = Ok relay_revision /\
    admissible_all relay_revision (s_state s) (d_changes delta) = true /\
    s_state s' = with_revisions (delta_apply delta (s_state s)) revision relay_revision /\
    s_key s' = s_key s /\ store_ok s'.
Proof.
  intros [Hok Hrep] Hc. unfold commit_delta in Hc.
  destruct (next_revision _ _) as [r|] eqn:E1; [|done].
  destruct (next_relay_revision _ _) as [rr|] eqn:E2; [|done]. cbn [mbind result_bind] in Hc.
  destruct (apply_delta_sync _ _ _ _ _ _ _) as [d|e] eqn:E3; [|done].
  injection Hc as <-. exists r, rr. cbn.
  pose proof (apply_delta_sync_spec io (st_revision (s_state s)) (st_relay_revision (s_state s))
    r rr delta _ _ Hok Hrep) as Hr. rewrite E3 in Hr. destruct Hr as (Ha & ? & ?).
  unfold commit_accepted in Ha. run_ok. done.
Qed.

(** ** How each change moves credentials *)

Lemma elem_of_upsert_record {T} (key : T -> string) l x y :
  Keyed.unique key l ->
  y ∈ upsert_record l x (fun a b => key a == key b) <-> y = x \/ (y ∈ l /\ key y <> key x).
Proof. intros Hu. rewrite upsert_record_keyed. by apply Keyed.elem_of_upsert. Qed.

Lemma elem_of_upsert_record_sub {T} (same : T -> T -> bool) l x y :
  y ∈ upsert_record l x same -> y = x \/ y ∈ l.
Proof.
  induction l as [|z l IH]; cbn; [intros [->|?]%elem_of_cons; auto|].
  case_match; rewrite !elem_of_cons; naive_solver.
Qed.

Lemma registered_put_client st c id g x :
  Keyed.unique c_endpoint_id (st_clients st) ->
  (forall c0, c0 ∈ st_clients st -> c_endpoint_id c0 = c_endpoint_id c ->
     c_generation c = c_generation c0 /\ c_expires_at c0 <= c_expires_at c) ->
  registered st id g x -> registered (apply_change st (PutClient c)) id g x.
Proof.
  intros Hu Hc (x' & Hx & [(c0 & Hin & E & Hg & He)|Hedge]); [|exists x'; split; [done|by right]].
  destruct (decide (c_endpoint_id c0 = c_endpoint_id c)) as [Hk|Hk].
  - destruct (Hc c0 Hin Hk) as [Hg' ?]. exists (c_expires_at c). split; [lia|]. left. exists c.
    cbn. rewrite elem_of_upsert_record by done. split_and!; try done; [by left|congruence..].
  - exists x'. split; [done|]. left. exists c0. cbn. rewrite elem_of_upsert_record by done. auto.
Qed.

Lemma registered_put_edge st e id g x :
  Keyed.unique e_endpoint_id (st_edges st) ->
  (forall e0, e0 ∈ st_edges st -> e_endpoint_id e0 = e_endpoint_id e ->
     e_generation e = e_generation e0 /\ e_expires_at e0 <= e_expires_at e) ->
  registered st id g x -> registered (apply_change st (PutEdge e)) id g x.
Proof.
  intros Hu He (x' & Hx & [Hclient|(e0 & Hin & E & Hg & He0)]); [exists x'; split; [done|by left]|].
  destruct (decide (e_endpoint_id e0 = e_endpoint_id e)) as [Hk|Hk].
  - destruct (He e0 Hin Hk) as [Hg' ?]. exists (e_expires_at e). split; [lia|]. right. exists e.
    cbn. rewrite elem_of_upsert_record by done. split_and!; try done; [by left|congruence..].
  - exists x'. split; [done|]. right. exists e0. cbn. rewrite elem_of_upsert_record by done. auto.
Qed.

Lemma registered_delete_client st c id g x :
  Keyed.unique c_endpoint_id (st_clients st) -> c ∈ st_clients st ->
  registered st id g x ->
  registered (apply_change st (DeleteClient (c_endpoint_id c))) id g x \/
  (id = c_endpoint_id c /\ g = c_generation c /\ x <= c_expires_at c).
Proof.
  intros Hu Hc (x' & Hx & [(c0 & Hin & E & Hg & He)|Hedge]);
    [|left; exists x'; split; [done|by right]].
  destruct (decide (c_endpoint_id c0 = c_endpoint_id c)) as [Hk|Hk].
  - right. rewrite (Keyed.unique_inj c_endpoint_id _ c0 c Hu Hin Hc Hk) in *. split_and!; congruence || lia.
  - left. exists x'. split; [done|]. left. exists c0. cbn. rewrite elem_of_retain.
    split_and!; try done. by apply negb_true_iff, bool_decide_eq_false.
Qed.

Lemma registered_delete_edge st e id g x :
  Keyed.unique e_endpoint_id (st_edges st) -> e ∈ st_edges st ->
  registered st id g x ->
  registered (apply_change st (DeleteEdge (e_endpoint_id e))) id g x \/
  (id = e_endpoint_id e /\ g = e_generation e /\ x <= e_expires_at e).
Proof.
  intros Hu Hc (x' & Hx & [Hclient|(e0 & Hin & E & Hg & He)]);
    [left; exists x'; split; [done|by left]|].
  destruct (decide (e_endpoint_id e0 = e_endpoint_id e)) as [Hk|Hk].
  - right. rewrite (Keyed.unique_inj e_endpoint_id _ e0 e Hu Hin Hc Hk) in *. split_and!; congruence || lia.
  - left. exists x'. split; [done|]. right. exists e0. cbn. rewrite elem_of_retain.
    split_and!; try done. by apply negb_true_iff, bool_decide_eq_false.
Qed.

(** [revocation_change] computed from [st] keeps what [st'] has revoked and
    revokes its argument, as long as the two agree on revocations. *)
Lemma revocation_record_covers st k g x :
  let v := revocation_record st k g x in
  v_endpoint_id v = k /\ g <= v_generation v /\ x <= v_expires_at v /\
  v_revision v = u64_saturating_add (st_relay_revision st) 1 /\
  (forall v0, find (fun r => v_endpoint_id r == k) (st_revocations st) = Some v0 ->
     v_generation v0 <= v_generation v /\ v_expires_at v0 <= v_expires_at v).
Proof.
  unfold revocation_record. cbn zeta. destruct (find _ _) as [v0|]; cbn.
  - split_and!; try done; try lia. intros ? [= ->]. lia.
  - split_and!; try done; lia.
Qed.

Lemma revoked_put_revocation st st' k g0 x0 id g x :
  Keyed.unique v_endpoint_id (st_revocations st) -> st_revocations st' = st_revocations st ->
  revoked st id g x \/ (id = k /\ g <= g0 /\ x <= x0) ->
  revoked (apply_change st' (revocation_change st k g0 x0)) id g x.
Proof.
  intros Hu Hst Hr. pose proof (revocation_record_covers st k g0 x0) as (Hk & Hg & Hx & _ & Hmax).
  unfold revoked, revocation_change. cbn -[revocation_record]. rewrite Hst.
  setoid_rewrite (elem_of_upsert_record v_endpoint_id); [|done].
  destruct Hr as [(v & Hv & Hid & ? & ?)|(-> & ? & ?)]; [|eexists; split; [by left|]; split_and!; lia || done].
  destruct (decide (id = k)) as [->|Hne].
  - eexists. split; [by left|]. destruct (Hmax v).
    + apply (Keyed.lookup_Some v_endpoint_id); done.
    + split_and!; try done; lia.
  - exists v. split_and!; try done. right. split; [done|congruence].
Qed.

(** ** Cleanup *)

Lemma fold_delete_invites ids st :
  fold_left apply_change (DeleteInvite <$> ids) st =
  with_invites st (fold_left (fun l k => Keyed.without i_id k l) ids (st_invites st)).
Proof. revert st. induction ids as [|k ids IH]; intros st; [by destruct st|]. cbn. by rewrite IH. Qed.

Lemma fold_delete_revocations ids st :
  fold_left apply_change (DeleteRevocation <$> ids) st =
  with_revocations st
    (fold_left (fun l k => Keyed.without v_endpoint_id k l) ids (st_revocations st)).
Proof. revert st. induction ids as [|k ids IH]; intros st; [by destruct st|]. cbn. by rewrite IH. Qed.

(** The hourly cleanup, which deletes the stale rows one by one, computes the
    snapshot that the two cleanup functions of a restart compute. *)
Lemma cleanup_delta_eq st now :
  Keyed.unique i_id (st_invites st) -> Keyed.unique v_endpoint_id (st_revocations st) ->
  delta_apply (delta_quiet (cleanup_changes st now)) st =
  cleanup_revocations (cleanup_invitations st now) now.
Proof.
  intros Hi Hv. unfold delta_apply, cleanup_changes; cbn [d_changes delta_quiet].
  rewrite fold_left_app.
  rewrite (list_fmap_compose i_id DeleteInvite), (list_fmap_compose v_endpoint_id DeleteRevocation).
  rewrite fold_delete_invites, fold_delete_revocations. cbn [st_revocations with_invites].
  rewrite !Keyed.without_all by done. unfold cleanup_revocations, cleanup_invitations. cbn.
  f_equal; [f_equal|]; apply retain_ext; intros x _; by rewrite Z.leb_antisym, negb_involutive.
Qed.

Lemma revoked_cleanup st now id g x :
  Keyed.unique i_id (st_invites st) -> Keyed.unique v_endpoint_id (st_revocations st) ->
  revoked st id g x ->
  revoked (delta_apply (delta_quiet (cleanup_changes st now)) st) id g x \/ x <= now.
Proof.
  intros Hi Hu (v & Hv & Hid & ? & ?). rewrite cleanup_delta_eq by done.
  destruct (Z.ltb_spec now (v_expires_at v)) as [Hl|Hl]; [left|right; lia].
  exists v. cbn. rewrite elem_of_retain, Z.ltb_lt. done.
Qed.

(** *** One mutation accounts for every credential it touches *)

Lemma saturating_renewal now :
  i64_saturating_add now RELAY_CREDENTIAL_RENEW_BEFORE_SECS <=
  i64_saturating_add now RELAY_CREDENTIAL_LIFETIME_SECS.
Proof.
  unfold i64_saturating_add, i64_clamp, RELAY_CREDENTIAL_RENEW_BEFORE_SECS,
    RELAY_CREDENTIAL_LIFETIME_SECS. lia.
Qed.

Lemma enroll_accounted st i id0 port gen now change id g x :
  state_ok st ->
  claimed_node_change st (i_invite i) id0 (i_managed_by i) port gen now = Ok change ->
  registered st id g x -> registered (apply_change st change) id g x.
Proof.
  intros Hok Hc Hr. unfold claimed_node_change in Hc.
  destruct (inv_kind (i_invite i)); run_ok; subst; [| |done].
  - apply registered_put_client; [apply Hok| |done]. intros c0 Hc0 E.
    match goal with Ha : any _ (st_clients st) = false |- _ =>
      eapply any_false in Ha; [|exact Hc0]; cbn in Ha end. run_ok. done.
  - apply registered_put_edge; [apply Hok| |done]. intros e0 He0 E.
    match goal with Ha : any _ (st_edges st) = false |- _ =>
      eapply any_false in Ha; [|exact He0]; cbn in Ha end. run_ok. done.
Qed.

Lemma claimed_node_change_keeps st invite id managed port gen now change :
  claimed_node_change st invite id managed port gen now = Ok change ->
  forall st', st_revocations (apply_change st' change) = st_revocations st' /\
    st_invites (apply_change st' change) = st_invites st'.
Proof. unfold claimed_node_change. intros Hc st'. destruct (inv_kind invite); run_ok; by subst. Qed.

Lemma mutation_revoked st now token delta id g x :
  state_ok st -> mutation st now token delta -> revoked st id g x ->
  revoked (delta_apply delta st) id g x \/ x <= now.
Proof.
  intros Hok Hm Hv. pose proof (so_revocations st Hok) as [Huv _]. pose proof (so_invites st Hok).
  destruct Hm as [|i id0 port change ? ? ? ? Hch| | | | | | | | | | |];
    [..|by apply revoked_cleanup]; left;
    cbn [delta_apply delta_topology delta_revocation delta_quiet d_changes fold_left];
    try exact Hv; try (apply revoked_put_revocation; auto).
  unfold revoked in *. cbn. by rewrite (proj1 (claimed_node_change_keeps _ _ _ _ _ _ _ _ Hch st)).
Qed.

Lemma mutation_registered st now token delta id g x :
  state_ok st -> mutation st now token delta -> registered st id g x ->
  accounted (delta_apply delta st) id g x.
Proof.
  intros Hok Hm Hr. pose proof Hok as [? [Huc _] ? [Hue _] ? ? ? ? ? [Huv _] Hui ? ?].
  pose proof (saturating_renewal now).
  destruct Hm as [|i id0 port change ? ? ? ? Hch| | | | | | | | | | |];
    [..|left; by rewrite cleanup_delta_eq];
    cbn [delta_apply delta_topology delta_revocation delta_quiet d_changes fold_left];
    try (left; exact Hr).
  - left. exact (enroll_accounted _ _ _ _ _ _ _ _ _ _ Hok Hch Hr).
  - edestruct (registered_delete_client st c) as [?|(? & ? & ?)]; [done..|by left|].
    right. apply revoked_put_revocation; auto. right. split_and!; [done|lia..].
  - edestruct (registered_delete_edge st e) as [?|(? & ? & ?)]; [done..|by left|].
    right. apply revoked_put_revocation; auto. right. split_and!; [done|lia..].
  - left. apply registered_put_edge; [done| |done].
    intros e0 He0 E. by rewrite (Keyed.unique_inj e_endpoint_id _ e0 e Hue He0).
  - left. apply registered_put_client; [done| |done].
    intros c0 Hc0 E. rewrite (Keyed.unique_inj c_endpoint_id _ c0 c Huc Hc0) by done. cbn. lia.
  - left. apply registered_put_edge; [done| |done].
    intros e0 He0 E. rewrite (Keyed.unique_inj e_endpoint_id _ e0 e Hue He0) by done. cbn. lia.
Qed.

Lemma mutation_accounted st now token delta id g x :
  state_ok st -> mutation st now token delta -> accounted st id g x ->
  accounted (delta_apply delta st) id g x \/ x <= now.
Proof.
  intros Hok Hm [Hr|Hv].
  - left. by eapply mutation_registered.
  - edestruct mutation_revoked as [?|?]; [done..|left; by right|by right].
Qed.

(** A revocation that a mutation adds carries the next Relay revision. *)
Lemma mutation_new_revocation st now token delta v :
  state_ok st -> mutation st now token delta -> v ∈ st_revocations (delta_apply delta st) ->
  v ∈ st_revocations st \/
  (d_publish delta = PublishNodesAndRelays /\
   v_revision v = u64_saturating_add (st_relay_revision st) 1).
Proof.
  intros Hok Hm. pose proof (so_revocations st Hok) as [Huv _]. pose proof (so_invites st Hok).
  destruct Hm as [|i id0 port change ? ? ? ? Hch| |c| e| | | | | | | |];
    [..|rewrite cleanup_delta_eq by done; cbn; intros [? _]%elem_of_retain; by left];
    cbn [delta_apply delta_topology delta_revocation delta_quiet d_changes fold_left];
    try (intros Hv; left; exact Hv).
  - cbn. rewrite (proj1 (claimed_node_change_keeps _ _ _ _ _ _ _ _ Hch st)). auto.
  - cbn -[revocation_record]. intros [->|?]%elem_of_upsert_record_sub; [right|by left].
    split; [done|]. apply revocation_record_covers.
  - cbn -[revocation_record]. intros [->|?]%elem_of_upsert_record_sub; [right|by left].
    split; [done|]. apply revocation_record_covers.
Qed.

(** ** Numbering *)

Lemma numbered_apply r rr st change :
  numbered r rr st -> put_numbered r rr change -> numbered r rr (apply_change st change).
Proof.
  intros [] Hp. destruct change; split; cbn in *; intros y;
    try (intros [->|?]%elem_of_upsert_record_sub); try (intros [? _]%elem_of_retain); auto.
Qed.

Lemma numbered_fold r rr changes st :
  numbered r rr st -> Forall (put_numbered r rr) changes ->
  numbered r rr (fold_left apply_change changes st).
Proof.
  intros Hn Hc. revert st Hn. induction Hc; intros st Hn; [done|]. cbn. auto using numbered_apply.
Qed.

Lemma numbered_mono r rr r' rr' st : numbered r rr st -> r <= r' -> rr <= rr' -> numbered r' rr' st.
Proof.
  intros [Hc He Hr Hv] ? ?. split; intros y Hy; [apply Hc in Hy|apply He in Hy|by apply Hr|apply Hv in Hy];
    split_and!; try apply Hy; lia.
Qed.

Lemma next_revisions publish st r rr :
  next_revision publish st = Ok r -> next_relay_revision publish st = Ok rr ->
  r = match publish with PublishNone => st_revision st | _ => st_revision st + 1 end /\
  rr = match publish with
       | PublishNodesAndRelays => st_relay_revision st + 1 | _ => st_relay_revision st end /\
  (publish = PublishNodesAndRelays ->
   u64_saturating_add (st_relay_revision st) 1 = st_relay_revision st + 1).
Proof.
  destruct publish; cbn; intros; run_ok; split_and!; try done.
  intros _. unfold u64_saturating_add. lia.
Qed.

Lemma revocation_record_numbered st k g x r rr :
  numbering_ok st -> st_revision st <= r -> g <= st_revision st -> canonical k ->
  u64_saturating_add (st_relay_revision st) 1 = rr ->
  put_numbered r rr (revocation_change st k g x).
Proof.
  intros Hn ? ? Hk Hs. cbn -[revocation_record]. unfold revocation_record. rewrite Hs.
  destruct (find _ _) as [v0|] eqn:E; cbn; [|split_and!; try done; lia].
  apply find_Some in E as [Hv _]. apply Hn in Hv as (? & ? & ?). split_and!; try done; lia.
Qed.

Lemma mutation_numbering st now token delta r rr :
  mutation st now token delta -> numbering_ok st ->
  next_revision (d_publish delta) st = Ok r -> next_relay_revision (d_publish delta) st = Ok rr ->
  numbering_ok (with_revisions (delta_apply delta st) r rr).
Proof.
  intros Hm Hn Hx1 Hx2. destruct (next_revisions _ _ _ _ Hx1 Hx2) as (Er & Err & Hsat).
  unfold numbering_ok. cbn.
  assert (Hr : st_revision st <= r) by (subst r; case_match; lia).
  assert (Hrr : st_relay_revision st <= rr) by (subst rr; case_match; lia).
  cut (numbered r rr (delta_apply delta st)); [by intros []|].
  apply numbered_fold; [by eapply numbered_mono|].
  destruct Hn as [Hnc Hne Hnr Hnv].
  destruct Hm as [|? ? ? ? ? ? ? ? Hch| |c Hc| e He|e ? He| |? ? Hrl|c Hc|e He| | |];
    cbn [d_changes d_publish delta_topology delta_quiet delta_revocation] in *;
    repeat apply Forall_cons_2; try apply Forall_nil_2; subst r rr; try done; try (by apply Hnr);
    try (apply Hnc in Hc as [? ?]); try (apply Hne in He as [? ?]);
    try (apply revocation_record_numbered; auto; by split); cbn; try (split; [lia|done]);
    try (by apply Hnr).
  - unfold claimed_node_change in Hch. destruct (inv_kind _); run_ok; subst; cbn;
      unfold canonical; eauto.
    all: split; [lia|eauto].
  - apply Forall_app. split; apply Forall_fmap; by apply Forall_forall.
Qed.

(** ** Runs *)

(** What one operation does, from a consistent store. *)
Lemma perform_step env op s :
  store_ok s ->
  perform env op s = s \/
  exists now delta revision relay_revision,
    (now = env_received env \/ now = env_now env) /\
    mutation (s_state s) now (random_token (env_random env) 16) delta /\
    next_revision (d_publish delta) (s_state s) = Ok revision /\
    next_relay_revision (d_publish delta) (s_state s) = Ok relay_revision /\
    s_state (perform env op s) =
      with_revisions (delta_apply delta (s_state s)) revision relay_revision /\
    s_key (perform env op s) = s_key s /\ store_ok (perform env op s).
Proof.
  intros Hok. destruct (mutates_perform env op s) as [?|(now & delta & ? & ? & io & Hc)]; [by left|].
  right. destruct (commit_delta_Ok _ _ _ _ Hok Hc) as (r & rr & ? & ? & _ & ? & ? & ?).
  by exists now, delta, r, rr.
Qed.

Lemma perform_ok env op s : store_ok s -> store_ok (perform env op s).
Proof.
  intros Hok. destruct (perform_step env op s Hok) as [->|(? & ? & ? & ? & ? & ? & ? & ? & ? & ? & ?)];
    done.
Qed.

Lemma run_store_ok ops s : store_ok s -> store_ok (run ops s).
Proof.
  revert s. induction ops as [|[env op] ops IH]; intros s Hok; [done|]. by apply IH, perform_ok.
Qed.

Lemma perform_numbering env op s :
  store_ok s -> numbering_ok (s_state s) -> numbering_ok (s_state (perform env op s)).
Proof.
  intros Hok Hn.
  destruct (perform_step env op s Hok) as [->|(? & ? & ? & ? & ? & ? & ? & ? & -> & ? & ?)]; [done|].
  by eapply mutation_numbering.
Qed.

Lemma run_numbering ops s :
  store_ok s -> numbering_ok (s_state s) -> numbering_ok (s_state (run ops s)).
Proof.
  revert s. induction ops as [|[env op] ops IH]; intros s Hok Hn; [done|].
  apply IH; [by apply perform_ok|by apply perform_numbering].
Qed.

Lemma run_accounted ops s id g x :
  store_ok s -> accounted (s_state s) id g x ->
  accounted (s_state (run ops s)) id g x \/ expired_during ops x.
Proof.
  revert s. induction ops as [|[env op] ops IH]; intros s Hok Ha; [by left|].
  assert (Hstep : accounted (s_state (perform env op s)) id g x \/
                  x <= env_received env \/ x <= env_now env).
  { destruct (perform_step env op s Hok)
      as [->|(now & delta & r & rr & Hnow & Hm & _ & _ & -> & _ & _)]; [by left|].
    destruct (mutation_accounted _ now _ delta id g x (store_ok_state s Hok) Hm Ha) as [?|?]; [by left|].
    right. destruct Hnow as [-> | ->]; auto. }
  destruct Hstep as [Ha'|Hx].
  - destruct (IH _ (perform_ok env op s Hok) Ha') as [?|(env' & op' & ? & ?)]; [by left|].
    right. exists env', op'. split; [by apply list_elem_of_further|done].
  - right. exists env, op. split; [apply list_elem_of_here|done].
Qed.

(** No credential escapes: take any credential a node could hold at some
    point of Control's life. After any further requests, cleanups and renewals
    its record is still registered with the same generation and at least that
    expiry, or a revocation covers its generation up to its expiry, or a clock
    reading of the run shows that it has expired. *)
Theorem credentials_accounted ops s id g x :
  store_ok s -> issued (s_state s) id g x ->
  accounted (s_state (run ops s)) id g x \/ expired_during ops x.
Proof.
  intros Hok Hi. apply run_accounted; [done|]. left. by exists x.
Qed.

(** C5. Durability: whatever is requested and whichever commits fail, the
    database satisfies every constraint of its schema and holds exactly the
    snapshot in memory, and the snapshot's names, identities and references are
    consistent. *)
Theorem store_always_consistent ops s :
  store_ok s -> store_ok (run ops s) /\ state_ok (s_state (run ops s)).
Proof. intros Hok. split; [|apply store_ok_state]; by apply run_store_ok. Qed.

(** ** New generations *)

Definition holds_generation st (id : string) (g : Z) : Prop := exists x, issued st id g x.

(** The generations a change can introduce. *)
Lemma holds_generation_apply st change id g :
  holds_generation (apply_change st change) id g ->
  holds_generation st id g \/
  match change with
  | PutClient c => c_endpoint_id c = id /\ c_generation c = g
  | PutEdge e => e_endpoint_id e = id /\ e_generation e = g
  | _ => False
  end.
Proof.
  unfold holds_generation, issued.
  intros (x & [(y & Hy & ? & ? & ?)|(y & Hy & ? & ? & ?)]); destruct change; cbn in *;
    try (apply elem_of_upsert_record_sub in Hy as [->|Hy]); try (apply elem_of_retain in Hy as [Hy _]);
    eauto 10.
Qed.

Lemma holds_client st c : c ∈ st_clients st -> holds_generation st (c_endpoint_id c) (c_generation c).
Proof. intros. eexists. left. eauto. Qed.
Lemma holds_edge st e : e ∈ st_edges st -> holds_generation st (e_endpoint_id e) (e_generation e).
Proof. intros. eexists. right. eauto. Qed.

Lemma mutation_new_generation st now token delta id g :
  state_ok st -> mutation st now token delta -> holds_generation (delta_apply delta st) id g ->
  holds_generation st id g \/
  (g = st_revision st + 1 /\ d_publish delta = PublishNodes /\
   st_revocations (delta_apply delta st) = st_revocations st).
Proof.
  intros Hok Hm. destruct Hm as [|? ? ? ? ? ? ? ? Hch| |c Hc|e He|e ? He| | |c Hc|e He| | |];
    [..|rewrite cleanup_delta_eq by apply Hok; intros Hh; by left];
    cbn [delta_apply delta_topology delta_revocation delta_quiet d_changes d_publish fold_left];
    intros Hh;
    repeat (apply holds_generation_apply in Hh as [Hh|Hh];
            cbv beta iota delta [revocation_change] in Hh; try done);
    try (by left); try (destruct Hh as [<- <-]; left; cbn; auto using holds_client, holds_edge).
  right. unfold claimed_node_change in Hch. destruct (inv_kind _); run_ok; subst; [| |done];
    destruct Hh as [_ <-]; done.
Qed.

(** C30. A new credential is never born revoked: when an operation makes a node
    hold a generation it did not hold before, that generation is the new
    revision, above the generation of every revocation Control has. *)
Theorem new_generations_outrank_revocations env op s id g :
  store_ok s -> numbering_ok (s_state s) ->
  holds_generation (s_state (perform env op s)) id g -> ~ holds_generation (s_state s) id g ->
  g = st_revision (s_state (perform env op s)) /\
  forall v, v ∈ st_revocations (s_state (perform env op s)) -> v_generation v < g.
Proof.
  intros Hok Hn Hh Hnew.
  destruct (perform_step env op s Hok) as [E|(now & delta & r & rr & _ & Hm & Hr & Hrr & E & _)];
    rewrite E in Hh |- *; [done|].
  destruct (next_revisions _ _ _ _ Hr Hrr) as (Er & _).
  apply (mutation_new_generation _ _ _ _ _ _ (store_ok_state s Hok) Hm) in Hh
    as [Hh|(-> & Hp & Hv)]; [done|].
  cbn. rewrite Hp in Er. split; [done|]. intros v. rewrite Hv. intros ?%Hn. lia.
Qed.

(** ** The life of an invitation *)

(** How a record may change: not at all, or once, from pending to a terminal
    state, keeping everything that identifies it. *)
Definition invite_evolves (i i' : InviteRecord) : Prop :=
  i' = i \/
  (i_state i = Pending /\ i_state i' <> Pending /\ is_Some (i_terminal_at i') /\
   i_invite i' = i_invite i /\ i_request_id i' = i_request_id i /\
   i_managed_by i' = i_managed_by i /\ i_request_hash i' = i_request_hash i).

(** The record with an id in the next state, if any, evolved from this one. *)
Definition invites_evolve st st' : Prop :=
  forall i i', i ∈ st_invites st -> i' ∈ st_invites st' -> i_id i' = i_id i -> invite_evolves i i'.

Lemma put_invite_evolves st st' i :
  Keyed.unique i_id (st_invites st) -> st_invites st' = st_invites st ->
  (forall i0, i0 ∈ st_invites st -> i_id i0 = i_id i -> invite_evolves i0 i) ->
  invites_evolve st (apply_change st' (PutInvite i)).
Proof.
  intros Hu Est Hi a b Ha Hb E. cbn in Hb. rewrite Est in Hb.
  apply (elem_of_upsert_record i_id) in Hb as [->|[Hb _]]; [|left; by eapply Keyed.unique_inj|done].
  apply Hi; [done|by symmetry].
Qed.

Lemma invites_same st st' :
  Keyed.unique i_id (st_invites st) -> (forall i, i ∈ st_invites st' -> i ∈ st_invites st) ->
  invites_evolve st st'.
Proof. intros Hu Hs a b Ha Hb E. left. eapply Keyed.unique_inj; eauto. Qed.

Lemma terminated_evolves st i state claimed now :
  Keyed.unique i_id (st_invites st) -> i ∈ st_invites st -> i_state i = Pending ->
  state <> Pending ->
  forall i0, i0 ∈ st_invites st -> i_id i0 = i_id (invite_terminated state claimed now i) ->
    invite_evolves i0 (invite_terminated state claimed now i).
Proof.
  intros Hu Hi Hp Hs i0 Hi0 E. rewrite (Keyed.unique_inj i_id _ i0 i Hu Hi0 Hi E).
  right. cbn. split_and!; done || eauto.
Qed.

Lemma mutation_invites st now token delta :
  state_ok st -> mutation st now token delta -> token ∉ i_id <$> st_invites st ->
  invites_evolve st (delta_apply delta st).
Proof.
  intros Hok Hm Hf. pose proof (so_invites st Hok) as Hu. pose proof (so_revocations st Hok) as [Huv _].
  destruct Hm as [i Hid|? ? ? ? ? ? ? ? Hch| | | | | | | | | | |];
    [| | |(apply invites_same; [done|]; by intros i Hi)..|];
    cbn [delta_apply delta_topology delta_revocation delta_quiet d_changes d_publish fold_left].
  - apply put_invite_evolves; [done..|]. intros i0 Hi0 E. destruct Hf.
    rewrite <- Hid, list_elem_of_fmap. eauto.
  - apply put_invite_evolves; [done| |by apply terminated_evolves].
    apply (claimed_node_change_keeps _ _ _ _ _ _ _ _ Hch).
  - apply put_invite_evolves; [done..|by apply terminated_evolves].
  - change (invites_evolve st (delta_apply (delta_quiet (cleanup_changes st now)) st)).
    rewrite cleanup_delta_eq by done. apply invites_same; [done|].
    intros i. cbn. by intros [? _]%elem_of_retain.
Qed.

(** C31. An invitation is used at most once: provided its new random tokens are
    fresh, no operation changes an invitation other than by moving it from
    pending to claimed or revoked, once, with its payload, its manager and its
    request kept; a terminal invitation never changes again. *)
Theorem invitations_used_once env op s i i' :
  store_ok s -> random_token (env_random env) 16 ∉ i_id <$> st_invites (s_state s) ->
  i ∈ st_invites (s_state s) -> i' ∈ st_invites (s_state (perform env op s)) -> i_id i' = i_id i ->
  i' = i \/
  (i_state i = Pending /\ i_state i' <> Pending /\ is_Some (i_terminal_at i') /\
   i_invite i' = i_invite i /\ i_request_id i' = i_request_id i /\
   i_managed_by i' = i_managed_by i /\ i_request_hash i' = i_request_hash i).
Proof.
  intros Hok Hf Hi Hi' E. pose proof (store_ok_state s Hok) as Hst.
  destruct (perform_step env op s Hok) as [Es|(now & delta & r & rr & _ & Hm & _ & _ & Es & _)];
    rewrite Es in Hi'.
  - left. eapply Keyed.unique_inj; eauto. apply Hst.
  - by eapply (mutation_invites _ _ _ _ Hst Hm Hf).
Qed.

(** ** When a commit goes through *)

Lemma commit_delta_total delta s revision relay_revision :
  store_ok s ->
  next_revision (d_publish delta) (s_state s) = Ok revision ->
  next_relay_revision (d_publish delta) (s_state s) = Ok relay_revision ->
  revision <= i64_max -> relay_revision <= i64_max ->
  admissible_all relay_revision (s_state s) (d_changes delta) = true ->
  exists s', commit_delta true delta s = (s', Ok tt) /\
    s_state s' = with_revisions (delta_apply delta (s_state s)) revision relay_revision /\
    s_key s' = s_key s /\ s_relay_ca s' = s_relay_ca s /\ store_ok s'.
Proof.
  intros [Hok Hrep] Hr Hrr Hb Hbr Ha. pose proof Hr as Hr0.
  destruct (next_revisions _ _ _ _ Hr Hrr) as (Er & Err & _).
  pose proof (apply_delta_sync_spec true (st_revision (s_state s)) (st_relay_revision (s_state s))
    revision relay_revision delta _ _ Hok Hrep) as Hd.
  assert (Hacc : commit_accepted true (st_revision (s_state s)) (st_relay_revision (s_state s))
    revision relay_revision delta (s_state s) = true).
  { assert (st_revision (s_state s) <= revision) by (subst revision; case_match; lia).
    assert (st_relay_revision (s_state s) <= relay_revision) by (subst relay_revision; case_match; lia).
    unfold commit_accepted, u64_saturating_add, u64_max, i64_max in *. rewrite Ha.
    prove_ok; try lia; try done; apply orb_true_iff; destruct (d_publish delta); subst;
      first [left; by apply bool_decide_eq_true|right; apply bool_decide_eq_true; lia]. }
  unfold refines in Hd. rewrite Hacc in Hd.
  destruct (apply_delta_sync _ _ _ _ _ _ _) as [d|] eqn:E; [|done]. destruct Hd as (_ & ? & ?).
  eexists. unfold commit_delta. rewrite Hr0, Hrr. cbn [mbind result_bind]. rewrite E. cbn.
  split_and!; try done.
Qed.

Lemma admissible_cleanup rr st now st' :
  admissible_all rr st' (cleanup_changes st now) = true.
Proof.
  assert (Hd : Forall (fun change => match change with
      | DeleteInvite _ | DeleteRevocation _ => True | _ => False end) (cleanup_changes st now))
    by (apply Forall_app; split; apply Forall_fmap; by apply Forall_forall).
  revert st'. induction Hd as [|change l Hc _ IH]; intros st'; [done|]. by destruct change; cbn.
Qed.

(** The two cleanups agree: the hourly tick, which commits the deletion of
    each stale invitation and expired revocation, never fails while the disk
    works, and leaves exactly the snapshot that the functions used at start-up
    ([cleanup_invitations] and [cleanup_revocations]) compute. *)
Theorem cleanup_tick_agrees env s :
  store_ok s -> env_io env = true ->
  st_revision (s_state s) <= i64_max -> st_relay_revision (s_state s) <= i64_max ->
  exists s', cleanup_tick env s = (s', Ok tt) /\ store_ok s' /\
    s_state s' = cleanup_revocations (cleanup_invitations (s_state s) (env_now env)) (env_now env).
Proof.
  intros Hok Hio Hr Hrr. pose proof (store_ok_state s Hok) as Hst.
  rewrite <- (cleanup_delta_eq (s_state s) (env_now env)) by apply Hst.
  unfold cleanup_tick. rewrite bind_get, Hio.
  destruct (bool_decide_reflect (cleanup_changes (s_state s) (env_now env) = [])) as [->|_]; [by exists s|].
  edestruct (commit_delta_total (delta_quiet (cleanup_changes (s_state s) (env_now env))) s)
    as (s' & Hc & Es & _ & _ & ?); [done|reflexivity|reflexivity|done|done|apply admissible_cleanup|].
  exists s'. split_and!; [done..|]. rewrite Es, cleanup_delta_eq by apply Hst. by destruct (s_state s).
Qed.
End Invariant.
