(* ===== verification/Sync.v ===== *)
(** * as-control: storing a whole snapshot (src/crates/as-control/src/db.rs)

    [Database::create] writes a first snapshot ([initialize_sync]); a start and
    [bootstrap] write the difference of two snapshots ([apply_sync]). The
    statements are those of [Database.v]; the main result is that a committed
    difference leaves exactly the new snapshot in the tables. *)
From S2P Require Import Prelude Deps RelayApi ControlApi State Database ControlCore ControlHandlers.
From S2P Require Import ControlSpec ControlInvariant.
Open Scope string_scope.
Open Scope Z_scope.
Import Vec.

(** ** Differences *)

(** [items.iter().map(|item| (key(item), item)).collect::<HashMap<_, _>>()] *)
Definition index {T} (key : T -> string) (items : list T) : gmap string T :=
  fold_left (fun m item => <[key item := item]> m) items ∅.

(** [previous.keys().filter(|key| !next.contains_key(key))], in the order of the
    map, which is no order of the vectors. *)
Definition removed {T} (key : T -> string) (previous next : list T) : list string :=
  retain (fun k => index key next !! k == None) (map_to_list (index key previous)).*1.

(** The items of [next] for which [previous.get(key) != Some(item)]. *)
Definition changed {T} `{EqDecision T} (key : T -> string) (previous next : list T) : list T :=
  retain (fun item => index key previous !! key item != Some item) next.

(** [for item in items { statement(item)?; }] *)
Fixpoint for_each {T} (statement : Database -> T -> result string Database) (items : list T)
  (d : Database) : result string Database :=
  match items with
  | [] => Ok d
  | item :: items => d ← statement d item; for_each statement items d
  end.

Section WithSerde.
Context `{Serde Invite}.

(** ** Statements on one item *)

(** The owner column: only a registered owner is referenced. *)
Definition registered_owner (clients : list ClientRecord) (kind : InviteKind) : option string :=
  match kind with
  | KEdge owner_id =>
      if any (fun client => c_endpoint_id client == owner_id) clients then Some owner_id else None
  | _ => None
  end.

Definition sync_client (d : Database) (item : ClientRecord) : result string Database :=
  _ ← of_option (i64_try_from (c_generation item))
        "Client credential generation exceeds SQLite range";
  put_client d item.

Definition sync_edge (d : Database) (item : EdgeRecord) : result string Database :=
  _ ← of_option (i64_try_from (e_generation item))
        "Edge credential generation exceeds SQLite range";
  put_edge d item.

Definition sync_revocation (d : Database) (item : RevocationRecord) : result string Database :=
  _ ← of_option (i64_try_from (v_generation item))
        "revoked credential generation exceeds SQLite range";
  _ ← of_option (i64_try_from (v_revision item)) "revocation revision exceeds SQLite range";
  put_revocation d item.

Definition sync_provisioner (d : Database) (item : ProvisionerRecord) : result string Database :=
  put_provisioner d (p_endpoint_id item) (p_name item).

Definition sync_invitation (clients : list ClientRecord) (d : Database) (item : InviteRecord)
  : result string Database :=
  put_invitation d (invitation_row item (registered_owner clients (inv_kind (i_invite item)))).

(** [UPDATE metadata SET schema_version = ?1, .. WHERE id = 1 AND revision = ?7
    AND relay_revision = ?8] *)
Definition update_metadata (d : Database) (m : MetadataRow)
  (expected_revision expected_relay_revision : Z) : result string Database :=
  match db_metadata d with
  | Some stored =>
      ensure ((md_revision stored == expected_revision) &&
              (md_relay_revision stored == expected_relay_revision))
        "durable Control revision changed while applying mutation";;
      ensure (check_metadata m) "CHECK constraint failed: metadata";;
      Ok (db_with_metadata d (Some m))
  | None => Err "durable Control revision changed while applying mutation"
  end.

(** ** [apply_sync] *)

Definition sync_guards (previous next : ControlState) (d : Database) : result string unit :=
  m ← of_option (db_metadata d) "Query returned no rows";
  stored_revision ← of_option (u64_try_from (md_revision m)) "negative stored control revision";
  stored_relay_revision ← of_option (u64_try_from (md_relay_revision m))
    "negative stored Relay revision";
  ensure ((stored_revision == st_revision previous) &&
          (stored_relay_revision == st_relay_revision previous))
    "durable Control state changed while applying mutation";;
  ensure ((st_revision next == st_revision previous) ||
          (st_revision next == u64_saturating_add (st_revision previous) 1))
    "control revision must remain unchanged or advance atomically by one";;
  ensure ((st_relay_revision next == st_relay_revision previous) ||
          (st_relay_revision next == u64_saturating_add (st_relay_revision previous) 1))
    "Relay revision must remain unchanged or advance atomically by one";;
  ensure (all (fun revocation => v_revision revocation <=? st_relay_revision next)
            (st_revocations next))
    "revocation record is ahead of the Relay revision".

(** Children are deleted before their parents, and Provisioners, which other
    rows may still reference, only deactivated at the end. *)
Definition sync_deletions (previous next : ControlState) (d : Database) : result string Database :=
  d ← for_each delete_invitation (removed i_id (st_invites previous) (st_invites next)) d;
  d ← for_each delete_edge (removed e_endpoint_id (st_edges previous) (st_edges next)) d;
  d ← for_each delete_client (removed c_endpoint_id (st_clients previous) (st_clients next)) d;
  d ← for_each delete_relay (removed r_endpoint_id (st_relays previous) (st_relays next)) d;
  for_each delete_revocation
    (removed v_endpoint_id (st_revocations previous) (st_revocations next)) d.

Definition sync_changes (previous next : ControlState) (d : Database) : result string Database :=
  d ← for_each ensure_provisioner_placeholder
        (omap c_managed_by (st_clients next) ++ omap i_managed_by (st_invites next))%list d;
  d ← for_each sync_provisioner
        (changed p_endpoint_id (st_provisioners previous) (st_provisioners next)) d;
  d ← for_each sync_client (changed c_endpoint_id (st_clients previous) (st_clients next)) d;
  d ← for_each sync_edge (changed e_endpoint_id (st_edges previous) (st_edges next)) d;
  d ← for_each put_relay (changed r_endpoint_id (st_relays previous) (st_relays next)) d;
  d ← for_each sync_revocation
        (changed v_endpoint_id (st_revocations previous) (st_revocations next)) d;
  for_each (sync_invitation (st_clients next))
    (changed i_id (st_invites previous) (st_invites next)) d.

(** [io] says whether SQLite's own input and output succeed. *)
Definition apply_sync (io : bool) (previous next : ControlState) (d : Database)
  : result string Database :=
  sync_guards previous next d;;
  d ← sync_deletions previous next d;
  d ← sync_changes previous next d;
  d ← for_each deactivate_provisioner
        (removed p_endpoint_id (st_provisioners previous) (st_provisioners next)) d;
  d ← delete_unreferenced_provisioners d;
  revision ← of_option (i64_try_from (st_revision next)) "control revision exceeds SQLite range";
  relay_revision ← of_option (i64_try_from (st_relay_revision next))
    "Relay revision exceeds SQLite range";
  expected_revision ← of_option (i64_try_from (st_revision previous))
    "control revision exceeds SQLite range";
  expected_relay_revision ← of_option (i64_try_from (st_relay_revision previous))
    "Relay revision exceeds SQLite range";
  d ← update_metadata d
        {| md_schema_version := st_schema next; md_audience := st_audience next;
           md_public_url := st_public_url next; md_relay_ca_der := st_relay_ca_der next;
           md_revision := revision; md_relay_revision := relay_revision |}
        expected_revision expected_relay_revision;
  ensure io "disk I/O error";;
  Ok d.

(** ** [initialize_sync] *)

(** A plain [INSERT]: the primary key must be new. *)
Definition insert_new {T} (key : T -> string) (table : Database -> list T)
  (put : Database -> T -> result string Database) (column : string) (d : Database) (item : T)
  : result string Database :=
  ensure (negb (any (fun row => key row == key item) (table d)))
    ("UNIQUE constraint failed: " ++ column);;
  put d item.

Definition insert_client : Database -> ClientRecord -> result string Database :=
  insert_new c_endpoint_id db_clients sync_client "clients.endpoint_id".
Definition insert_edge : Database -> EdgeRecord -> result string Database :=
  insert_new e_endpoint_id db_edges sync_edge "edges.endpoint_id".
Definition insert_relay : Database -> RelayRecord -> result string Database :=
  insert_new r_endpoint_id db_relays put_relay "relays.endpoint_id".
Definition insert_revocation : Database -> RevocationRecord -> result string Database :=
  insert_new v_endpoint_id db_revocations sync_revocation "relay_revocations.endpoint_id".

Definition insert_invitation (clients : list ClientRecord) (d : Database) (item : InviteRecord)
  : result string Database :=
  d ← match i_managed_by item with
      | Some endpoint_id => ensure_provisioner_placeholder d endpoint_id
      | None => Ok d
      end;
  ensure (negb (any (fun row => iv_invite_id row == i_id item) (db_invitations d)))
    "UNIQUE constraint failed: invitations.invite_id";;
  sync_invitation clients d item.

(** The five [DELETE]s, children first, and [UPDATE provisioners SET active = 0] *)
Definition clear_tables (d : Database) : Database := {|
  db_metadata := db_metadata d;
  db_provisioners := (fun p => {| pv_endpoint_id := pv_endpoint_id p; pv_name := pv_name p;
                                  pv_active := false |}) <$> db_provisioners d;
  db_clients := []; db_edges := []; db_revocations := []; db_relays := [];
  db_invitations := [] |}.

Definition initialize_sync (io : bool) (state : ControlState) (d : Database)
  : result string Database :=
  match db_metadata d with
  | Some m =>
      stored_revision ← of_option (u64_try_from (md_revision m))
        "negative stored control revision";
      ensure ((st_revision state == stored_revision) ||
              (st_revision state == u64_saturating_add stored_revision 1))
        "control revision must remain unchanged or advance atomically by one";;
      stored_relay_revision ← of_option (u64_try_from (md_relay_revision m))
        "negative stored Relay revision";
      ensure ((st_relay_revision state == stored_relay_revision) ||
              (st_relay_revision state == u64_saturating_add stored_relay_revision 1))
        "Relay revision must remain unchanged or advance atomically by one"
  | None => Ok tt
  end;;
  ensure (all (fun revocation => v_revision revocation <=? st_relay_revision state)
            (st_revocations state))
    "revocation record is ahead of the Relay revision";;
  let d := clear_tables d in
  revision ← of_option (i64_try_from (st_revision state)) "control revision exceeds SQLite range";
  relay_revision ← of_option (i64_try_from (st_relay_revision state))
    "Relay revision exceeds SQLite range";
  let m := {| md_schema_version := st_schema state; md_audience := st_audience state;
              md_public_url := st_public_url state; md_relay_ca_der := st_relay_ca_der state;
              md_revision := revision; md_relay_revision := relay_revision |} in
  ensure (check_metadata m) "CHECK constraint failed: metadata";;
  let d := db_with_metadata d (Some m) in
  d ← for_each sync_provisioner (st_provisioners state) d;
  d ← for_each insert_client (st_clients state) d;
  d ← for_each insert_edge (st_edges state) d;
  d ← for_each insert_relay (st_relays state) d;
  d ← for_each insert_revocation (st_revocations state) d;
  d ← for_each (insert_invitation (st_clients state)) (st_invites state) d;
  d ← delete_unreferenced_provisioners d;
  ensure io "disk I/O error";;
  Ok d.

(** A freshly migrated file: the tables exist and are empty. *)
Definition empty_database : Database := {|
  db_metadata := None; db_provisioners := []; db_clients := []; db_edges := [];
  db_revocations := []; db_relays := []; db_invitations := [] |}.

(** [Database::create] on a path without a file *)
Definition create (io : bool) (state : ControlState) : result string Database :=
  initialize_sync io state empty_database.
End WithSerde.

(** ** Differences of keyed vectors *)

Section Differences.
Context {T : Type} `{EqDecision T} (key : T -> string).
Implicit Types (previous next : list T).

Lemma index_snoc l x : index key (l ++ [x])%list = <[key x := x]> (index key l).
Proof. unfold index. by rewrite fold_left_app. Qed.

Lemma index_Some l k x : Keyed.unique key l -> index key l !! k = Some x <-> x ∈ l /\ key x = k.
Proof.
  revert k x. induction l as [|y l IH] using rev_ind; intros k x Hu.
  - unfold index; cbn. rewrite lookup_empty. split; [done|]. by intros [?%not_elem_of_nil _].
  - eapply Keyed.unique_perm in Hu; [|apply Permutation_app_comm]. cbn in Hu.
    apply Keyed.unique_cons in Hu as [Hy Hu].
    rewrite index_snoc, lookup_insert_Some, IH, elem_of_app, list_elem_of_singleton by done.
    naive_solver.
Qed.

Lemma index_None l k : index key l !! k = None <-> k ∉ key <$> l.
Proof.
  induction l as [|y l IH] using rev_ind; [by split; [intros _ ?%not_elem_of_nil|]|].
  rewrite index_snoc, lookup_insert_None, IH, fmap_app, not_elem_of_app. cbn.
  rewrite list_elem_of_singleton. naive_solver.
Qed.

Lemma elem_of_removed previous next k :
  k ∈ removed key previous next <-> k ∈ key <$> previous /\ k ∉ key <$> next.
Proof.
  unfold removed. rewrite elem_of_retain, bool_decide_eq_true, index_None.
  assert (Hk : k ∈ (map_to_list (index key previous)).*1 <-> ~ (index key previous !! k = None)).
  { rewrite eq_None_not_Some, list_elem_of_fmap. split.
    - intros ([k' x] & -> & Hx%elem_of_map_to_list). cbn. rewrite Hx. eauto.
    - intros Hn. destruct (index key previous !! k) as [x|] eqn:E; [|by destruct Hn; intros [??]].
      exists (k, x). split; [done|]. by apply elem_of_map_to_list. }
  rewrite Hk, index_None. split; intros [Hp ?]; (split; [|done]).
  - by apply dec_stable.
  - auto.
Qed.

Lemma elem_of_changed previous next x :
  Keyed.unique key previous -> x ∈ changed key previous next <-> x ∈ next /\ x ∉ previous.
Proof.
  intros Hu. unfold changed. rewrite elem_of_retain, negb_true_iff, bool_decide_eq_false.
  rewrite index_Some by done. naive_solver.
Qed.

Lemma changed_app previous a b :
  changed key previous (a ++ b)%list = (changed key previous a ++ changed key previous b)%list.
Proof. apply List.filter_app. Qed.

Lemma unique_changed previous next :
  Keyed.unique key next -> Keyed.unique key (changed key previous next).
Proof. apply Keyed.unique_retain. Qed.

Lemma removed_sub previous next : (forall x, x ∈ previous -> x ∈ next) -> removed key previous next = [].
Proof.
  intros Hs. apply elem_of_nil_inv. intros k [(x & -> & Hx)%list_elem_of_fmap Hn]%elem_of_removed.
  apply Hn. by apply list_elem_of_fmap_2, Hs.
Qed.

Lemma changed_sub previous next :
  Keyed.unique key previous -> (forall x, x ∈ next -> x ∈ previous) ->
  changed key previous next = [].
Proof.
  intros Hu Hs. apply elem_of_nil_inv. intros x [? Hn]%elem_of_changed; [|done]. by apply Hn, Hs.
Qed.

(** What a table holds after the deletions and the changes, in its order. *)
Definition synced previous next : list T :=
  fold_left (Keyed.upsert key) (changed key previous next)
    (fold_left (fun l k => Keyed.without key k l) (removed key previous next) previous).

Lemma synced_perm previous next :
  Keyed.unique key previous -> Keyed.unique key next -> synced previous next ≡ₚ next.
Proof.
  intros Hp Hn. unfold synced. rewrite Keyed.without_keys.
  apply (Keyed.unique_ext key); [by apply Keyed.unique_upserts, Keyed.unique_retain|done|]. intros x.
  rewrite Keyed.elem_of_upserts by eauto using Keyed.unique_retain, unique_changed.
  rewrite elem_of_changed, elem_of_retain, negb_true_iff, bool_decide_eq_false, elem_of_removed by done.
  split.
  - intros [[??]|[[Hx Hr] Hc]]; [done|].
    assert (Hk : key x ∈ key <$> next).
    { apply dec_stable. intros ?. apply Hr. split; [by apply list_elem_of_fmap_2|done]. }
    apply list_elem_of_fmap in Hk as (y & E & Hy).
    destruct (decide (y ∈ previous)) as [Hyp|Hyp].
    + by rewrite (Keyed.unique_inj key previous x y).
    + destruct Hc. rewrite E. apply list_elem_of_fmap_2. by apply elem_of_changed.
  - intros Hx. destruct (decide (x ∈ previous)) as [Hxp|]; [right|by left]. split; [split|].
    + done.
    + intros [_ Hk]. apply Hk. by apply list_elem_of_fmap_2.
    + intros (y & E & [Hy Hyp]%elem_of_changed)%list_elem_of_fmap; [|done].
      apply Hyp. by rewrite <- (Keyed.unique_inj key next x y).
Qed.

(** Provisioners are changed before they are removed, with the same result. *)
Lemma synced_late previous next :
  Keyed.unique key previous -> Keyed.unique key next ->
  fold_left (fun l k => Keyed.without key k l) (removed key previous next)
    (fold_left (Keyed.upsert key) (changed key previous next) previous) ≡ₚ next.
Proof.
  intros Hp Hn. etrans; [|by apply (synced_perm previous)]. unfold synced. rewrite !Keyed.without_keys.
  apply (Keyed.unique_ext key); eauto using Keyed.unique_upserts, Keyed.unique_retain. intros x.
  rewrite elem_of_retain, !Keyed.elem_of_upserts by eauto using Keyed.unique_retain, unique_changed.
  rewrite elem_of_retain, !negb_true_iff, !bool_decide_eq_false, elem_of_removed.
  split; [intros [[?|[??]] ?]; auto|]. intros [Hx|[[??] ?]]; [|auto]. split; [by left|].
  apply elem_of_changed in Hx as [Hx _]; [|done]. intros [_ Hk]. apply Hk. by apply list_elem_of_fmap_2.
Qed.

(** Dropping some records and appending new ones keeps the order. *)
Lemma synced_retain p previous new :
  Keyed.unique key previous -> Keyed.unique key (retain p previous ++ new)%list ->
  (forall x y, x ∈ new -> y ∈ previous -> key y <> key x) ->
  synced previous (retain p previous ++ new)%list = (retain p previous ++ new)%list.
Proof.
  intros Hp Hu Hn. unfold synced. rewrite Keyed.without_keys.
  assert (Hc : changed key previous (retain p previous ++ new)%list = new).
  { rewrite changed_app, (changed_sub previous) by (done || by intros x [? _]%elem_of_retain).
    apply retain_all. intros x Hx. apply negb_true_iff, bool_decide_eq_false.
    rewrite index_Some by done. intros [? _]. by apply (Hn x x). }
  assert (Hr : retain (fun x => negb (bool_decide (key x ∈ removed key previous
      (retain p previous ++ new)%list))) previous = retain p previous).
  { apply retain_ext. intros x Hx. apply eq_true_iff_eq.
    rewrite negb_true_iff, bool_decide_eq_false, elem_of_removed, fmap_app, elem_of_app. split.
    - intros Hk. assert (Hin : key x ∈ key <$> retain p previous).
      { apply dec_stable. intros Hno. apply Hk. split; [by apply list_elem_of_fmap_2|].
        intros [?|(y & E & Hy)%list_elem_of_fmap]; [done|]. by apply (Hn y x). }
      apply list_elem_of_fmap in Hin as (y & E & [Hy Hpy]%elem_of_retain).
      by rewrite (Keyed.unique_inj key previous x y).
    - intros Hpx [_ Hk]. apply Hk. left. by apply list_elem_of_fmap_2, elem_of_retain. }
  rewrite Hc, Hr. apply Keyed.upserts_fresh.
  - unfold Keyed.unique in Hu. rewrite fmap_app in Hu. by apply NoDup_app in Hu as (_ & _ & ?).
  - intros x y Hx [? _]%elem_of_retain. by apply Hn.
Qed.
End Differences.

(** ** What a loop of statements stores *)

Section Loops.
Context `{Serde Invite}.

Definition stores (d : Database) (st : ControlState) : Prop := db_ok d /\ represents d st.

Lemma refines_stores r accepted st d : refines r accepted st -> r = Ok d -> stores d st.
Proof. intros Hr ->. by destruct Hr as (_ & ? & ?). Qed.

(** A loop whose statement acts on one vector of the snapshot. *)
Lemma for_each_stores {T A} (get : ControlState -> A) (set : ControlState -> A -> ControlState)
  (op : A -> T -> A) (f : Database -> T -> result string Database) items d d' st :
  (forall st, set st (get st) = st) -> (forall st a, get (set st a) = a) ->
  (forall st a b, set (set st a) b = set st b) ->
  (forall d st x d', stores d st -> f d x = Ok d' -> stores d' (set st (op (get st) x))) ->
  for_each f items d = Ok d' -> stores d st ->
  stores d' (set st (fold_left op items (get st))).
Proof.
  intros Hsg Hgs Hss Hf. revert d st. induction items as [|x items IH]; cbn; intros d st Hr Hd.
  - run_ok. by rewrite Hsg.
  - run_ok. eapply Hf in Hd; [|done]. eapply IH in Hd; [|done].
    by rewrite Hgs, Hss in Hd.
Qed.

(** The same when the statement changes nothing the snapshot shows. *)
Lemma for_each_keeps {T} (f : Database -> T -> result string Database) items d d' st :
  (forall d x d', stores d st -> f d x = Ok d' -> stores d' st) ->
  for_each f items d = Ok d' -> stores d st -> stores d' st.
Proof.
  intros Hf. revert d. induction items as [|x items IH]; cbn; intros d Hr Hd; run_ok; eauto.
Qed.

Lemma placeholder_stores d k d' st :
  stores d st -> ensure_provisioner_placeholder d k = Ok d' -> stores d' st.
Proof.
  intros [Hok Hrep] Hr. destruct (placeholder_refines d st Hok Hrep k) as (d1 & E & ? & ? & _).
  rewrite E in Hr. run_ok. by split.
Qed.

Definition deleted {T} (key : T -> string) (l : list T) (k : string) : list T :=
  Keyed.without key k l.

Lemma delete_invitation_stores d st k d' :
  stores d st -> delete_invitation d k = Ok d' ->
  stores d' (with_invites st (deleted i_id (st_invites st) k)).
Proof. intros [??] Hr. eapply refines_stores, Hr. by apply delete_invitation_refines. Qed.

Lemma delete_edge_stores d st k d' :
  stores d st -> delete_edge d k = Ok d' ->
  stores d' (with_edges st (deleted e_endpoint_id (st_edges st) k)).
Proof. intros [??] Hr. eapply refines_stores, Hr. by apply delete_edge_refines. Qed.

Lemma delete_client_stores d st k d' :
  stores d st -> delete_client d k = Ok d' ->
  stores d' (with_clients st (deleted c_endpoint_id (st_clients st) k)).
Proof. intros [??] Hr. eapply refines_stores, Hr. by apply delete_client_refines. Qed.

Lemma delete_relay_stores d st k d' :
  stores d st -> delete_relay d k = Ok d' ->
  stores d' (with_relays st (deleted r_endpoint_id (st_relays st) k)).
Proof. intros [??] Hr. eapply refines_stores, Hr. by apply delete_relay_refines. Qed.

Lemma delete_revocation_stores d st k d' :
  stores d st -> delete_revocation d k = Ok d' ->
  stores d' (with_revocations st (deleted v_endpoint_id (st_revocations st) k)).
Proof. intros [??] Hr. eapply refines_stores, Hr. by apply delete_revocation_refines. Qed.

Lemma deactivate_provisioner_stores d st k d' :
  stores d st -> deactivate_provisioner d k = Ok d' ->
  stores d' (with_provisioners st (deleted p_endpoint_id (st_provisioners st) k)).
Proof. intros [??] Hr. eapply refines_stores, Hr. by apply deactivate_provisioner_refines. Qed.

Lemma put_client_stores d st c d' :
  stores d st -> sync_client d c = Ok d' ->
  stores d' (with_clients st (Keyed.upsert c_endpoint_id (st_clients st) c)).
Proof.
  intros [Hok Hrep] Hr. unfold sync_client in Hr. run_ok. rewrite <- upsert_record_keyed.
  eapply refines_stores; [|eassumption]. apply put_client_refines; [done..|].
  unfold put_client in Hr. by run_ok.
Qed.

Lemma put_provisioner_stores d st p d' :
  stores d st -> sync_provisioner d p = Ok d' ->
  stores d' (with_provisioners st (Keyed.upsert p_endpoint_id (st_provisioners st) p)).
Proof.
  intros [??] Hr. rewrite <- upsert_record_keyed. eapply refines_stores, Hr.
  by apply put_provisioner_refines.
Qed.

Lemma put_edge_stores d st e d' :
  stores d st -> sync_edge d e = Ok d' ->
  stores d' (with_edges st (Keyed.upsert e_endpoint_id (st_edges st) e)).
Proof.
  intros [??] (? & _ & Hr)%bind_Ok. rewrite <- upsert_record_keyed. eapply refines_stores, Hr.
  by apply put_edge_refines.
Qed.

Lemma put_relay_stores d st r d' :
  stores d st -> put_relay d r = Ok d' ->
  stores d' (with_relays st (Keyed.upsert r_endpoint_id (st_relays st) r)).
Proof.
  intros [??] Hr. rewrite <- upsert_record_keyed. eapply refines_stores, Hr.
  by apply put_relay_refines.
Qed.

Lemma put_revocation_stores d st v d' :
  stores d st -> sync_revocation d v = Ok d' ->
  stores d' (with_revocations st (Keyed.upsert v_endpoint_id (st_revocations st) v)).
Proof.
  intros [??] (? & _ & (? & _ & Hr)%bind_Ok)%bind_Ok. rewrite <- upsert_record_keyed.
  eapply refines_stores, Hr. by apply put_revocation_refines.
Qed.

Lemma put_invitation_stores owner d st i d' :
  owner = invite_owner_column (inv_kind (i_invite i)) \/ owner = None ->
  stores d st -> put_invitation d (invitation_row i owner) = Ok d' ->
  stores d' (with_invites st (Keyed.upsert i_id (st_invites st) i)).
Proof.
  intros Ho [Hok Hrep] Hr. unfold put_invitation in Hr. run_ok. destruct Hok, Hrep.
  destruct ok_invitations as (? & ? & ? & ?).
  split; split; cbn; try done.
  - refine (conj _ (conj _ (conj _ _))).
    + by apply Keyed.table_upsert.
    + by apply (Keyed.secondary_upsert iv_invite_id iv_request_id); [eapply table_unique|..].
    + by apply Keyed.refers_upsert; [eapply table_unique|..].
    + by apply Keyed.refers_upsert; [eapply table_unique|..].
  - apply (Keyed.upsert_Forall2 iv_invite_id i_id); [apply invitation_row_key|done|].
    by exists owner.
Qed.

Lemma registered_owner_column clients kind :
  registered_owner clients kind = invite_owner_column kind \/ registered_owner clients kind = None.
Proof. destruct kind; cbn; auto. destruct (any _ _); auto. Qed.

(** ** Storing a difference *)

(** No key occurs twice in a vector. *)
Record keyed (st : ControlState) : Prop := {
  keyed_clients : Keyed.unique c_endpoint_id (st_clients st);
  keyed_edges : Keyed.unique e_endpoint_id (st_edges st);
  keyed_relays : Keyed.unique r_endpoint_id (st_relays st);
  keyed_revocations : Keyed.unique v_endpoint_id (st_revocations st);
  keyed_invites : Keyed.unique i_id (st_invites st);
  keyed_provisioners : Keyed.unique p_endpoint_id (st_provisioners st);
}.

Lemma state_ok_keyed st : state_ok st -> keyed st.
Proof. intros []. split; eauto using table_unique. Qed.

Lemma stores_keyed d st : stores d st -> keyed st.
Proof. intros [??]. by eapply state_ok_keyed, tables_ok_state. Qed.

(** One loop of statements: [H] runs it from tables that store a snapshot, and
    [lem] is what one statement stores. *)
Ltac loop H get set lem :=
  match type of H with for_each _ ?l ?d = Ok ?d' =>
    match goal with Hs : stores d ?st |- _ =>
      eapply (for_each_stores get set) in H; [|by intros []|done|done| |exact Hs];
      [clear Hs|clear; intros ? ? ? ?; apply lem]
    end
  end.

Lemma sync_deletions_stores previous next d d' :
  sync_deletions previous next d = Ok d' -> stores d previous ->
  stores d' (with_revocations (with_relays (with_clients (with_edges (with_invites previous
    (fold_left (deleted i_id) (removed i_id (st_invites previous) (st_invites next)) (st_invites previous)))
    (fold_left (deleted e_endpoint_id) (removed e_endpoint_id (st_edges previous) (st_edges next)) (st_edges previous)))
    (fold_left (deleted c_endpoint_id) (removed c_endpoint_id (st_clients previous) (st_clients next)) (st_clients previous)))
    (fold_left (deleted r_endpoint_id) (removed r_endpoint_id (st_relays previous) (st_relays next)) (st_relays previous)))
    (fold_left (deleted v_endpoint_id) (removed v_endpoint_id (st_revocations previous) (st_revocations next)) (st_revocations previous))).
Proof.
  intros (d1 & Hi & (d2 & He & (d3 & Hc & (d4 & Hr & Hv)%bind_Ok)%bind_Ok)%bind_Ok)%bind_Ok Hs.
  loop Hi st_invites with_invites delete_invitation_stores.
  loop He st_edges with_edges delete_edge_stores.
  loop Hc st_clients with_clients delete_client_stores.
  loop Hr st_relays with_relays delete_relay_stores.
  loop Hv st_revocations with_revocations delete_revocation_stores.
  exact Hv.
Qed.

Lemma sync_changes_stores previous next d d' st :
  sync_changes previous next d = Ok d' -> stores d st ->
  stores d' (with_invites (with_revocations (with_relays (with_edges (with_clients (with_provisioners st
    (fold_left (Keyed.upsert p_endpoint_id) (changed p_endpoint_id (st_provisioners previous) (st_provisioners next)) (st_provisioners st)))
    (fold_left (Keyed.upsert c_endpoint_id) (changed c_endpoint_id (st_clients previous) (st_clients next)) (st_clients st)))
    (fold_left (Keyed.upsert e_endpoint_id) (changed e_endpoint_id (st_edges previous) (st_edges next)) (st_edges st)))
    (fold_left (Keyed.upsert r_endpoint_id) (changed r_endpoint_id (st_relays previous) (st_relays next)) (st_relays st)))
    (fold_left (Keyed.upsert v_endpoint_id) (changed v_endpoint_id (st_revocations previous) (st_revocations next)) (st_revocations st)))
    (fold_left (Keyed.upsert i_id) (changed i_id (st_invites previous) (st_invites next)) (st_invites st))).
Proof.
  intros (d0 & Hm & (d1 & Hp & (d2 & Hc & (d3 & He & (d4 & Hr & (d5 & Hv & Hi
    )%bind_Ok)%bind_Ok)%bind_Ok)%bind_Ok)%bind_Ok)%bind_Ok Hs.
  eapply for_each_keeps in Hm; [|intros; by eapply placeholder_stores|done]. clear Hs.
  loop Hp st_provisioners with_provisioners put_provisioner_stores.
  loop Hc st_clients with_clients put_client_stores.
  loop He st_edges with_edges put_edge_stores.
  loop Hr st_relays with_relays put_relay_stores.
  loop Hv st_revocations with_revocations put_revocation_stores.
  loop Hi st_invites with_invites put_invitation_stores.
  - exact Hi.
  - apply registered_owner_column.
Qed.

Lemma update_metadata_stores d st m expected expected_relay d' :
  stores d st -> update_metadata d m expected expected_relay = Ok d' ->
  db_ok d' /\ d' = db_with_metadata d (Some m).
Proof.
  intros [[] []] Hr. unfold update_metadata in Hr. rewrite rep_metadata in Hr. run_ok.
  split; [|done]. split; try done. by intros ? [= <-].
Qed.

Lemma apply_sync_stores io previous next d d' :
  stores d previous -> keyed next -> apply_sync io previous next d = Ok d' ->
  stores d' (with_invites next (synced i_id (st_invites previous) (st_invites next))).
Proof.
  intros Hs [] Hr. destruct (stores_keyed _ _ Hs). unfold apply_sync in Hr.
  apply bind_Ok in Hr as (_ & _ & (d1 & H1 & (d2 & H2 & (d3 & H3 & (d4 & H4 & Hr)%bind_Ok)%bind_Ok)%bind_Ok)%bind_Ok).
  eapply sync_deletions_stores in H1; [|done]. eapply sync_changes_stores in H2; [|done].
  loop H3 st_provisioners with_provisioners deactivate_provisioner_stores.
  eapply refines_stores in H4; [|apply delete_unreferenced_refines; apply H3].
  run_ok. match goal with Hu : update_metadata _ _ _ _ = Ok _ |- _ =>
    eapply update_metadata_stores in Hu as [? ->]; [|done] end.
  subst. split; [done|]. destruct H4 as [_ []]. split; cbn in *; try done.
  - etrans; [done|]. by apply synced_late.
  - etrans; [done|]. by apply synced_perm.
  - etrans; [done|]. by apply synced_perm.
  - etrans; [done|]. by apply synced_perm.
  - etrans; [done|]. by apply synced_perm.
Qed.

(** ** Storing a first snapshot *)

Definition bare (st : ControlState) : ControlState :=
  with_invites (with_revocations (with_relays (with_edges (with_clients (with_provisioners st
    []) []) []) []) []) [].

Lemma db_ok_empty : db_ok empty_database.
Proof.
  split; cbn; try done; unfold invitations_ok, Keyed.table, Keyed.unique, Keyed.secondary, Keyed.refers.
  all: split_and?; try constructor; intros; try done;
    match goal with E : _ ∈ [] |- _ => destruct (not_elem_of_nil _ E) end.
Qed.

Lemma clear_tables_stores d st :
  db_ok d -> check_metadata (metadata_of st) = true ->
  stores (db_with_metadata (clear_tables d) (Some (metadata_of st))) (bare st).
Proof.
  intros [] Hm. destruct db_ok_empty. split; split; cbn; try done;
    try (by intros ? ? ?%not_elem_of_nil).
  - by intros m [= <-].
  - unfold Keyed.unique. by rewrite <- list_fmap_compose.
  - by intros ? ? ? (? & -> & _)%list_elem_of_fmap.
  - destruct ok_invitations0 as (? & ? & _). split_and!; [done..| |];
      by intros ? ? ?%not_elem_of_nil.
  - unfold active_provisioners. rewrite (elem_of_nil_inv (retain _ _)); [done|].
    by intros ? [(? & -> & _)%list_elem_of_fmap ?]%elem_of_retain.
Qed.

Lemma insert_new_Ok {T} (key : T -> string) table put column d (item : T) d' :
  insert_new key table put column d item = Ok d' -> put d item = Ok d'.
Proof. by intros (? & _ & ?)%bind_Ok. Qed.

Lemma insert_client_stores d st x d' :
  stores d st -> insert_client d x = Ok d' ->
  stores d' (with_clients st (Keyed.upsert c_endpoint_id (st_clients st) x)).
Proof. intros ? ?%insert_new_Ok. by eapply put_client_stores. Qed.

Lemma insert_edge_stores d st x d' :
  stores d st -> insert_edge d x = Ok d' ->
  stores d' (with_edges st (Keyed.upsert e_endpoint_id (st_edges st) x)).
Proof. intros ? ?%insert_new_Ok. by eapply put_edge_stores. Qed.

Lemma insert_relay_stores d st x d' :
  stores d st -> insert_relay d x = Ok d' ->
  stores d' (with_relays st (Keyed.upsert r_endpoint_id (st_relays st) x)).
Proof. intros ? ?%insert_new_Ok. by eapply put_relay_stores. Qed.

Lemma insert_revocation_stores d st x d' :
  stores d st -> insert_revocation d x = Ok d' ->
  stores d' (with_revocations st (Keyed.upsert v_endpoint_id (st_revocations st) x)).
Proof. intros ? ?%insert_new_Ok. by eapply put_revocation_stores. Qed.

Lemma insert_invitation_stores clients d st i d' :
  stores d st -> insert_invitation clients d i = Ok d' ->
  stores d' (with_invites st (Keyed.upsert i_id (st_invites st) i)).
Proof.
  intros Hs (d1 & Hp & (? & _ & Hr)%bind_Ok)%bind_Ok.
  eapply put_invitation_stores, Hr; [apply registered_owner_column|].
  destruct (i_managed_by i); [by eapply placeholder_stores|]. by injection Hp as <-.
Qed.

Lemma initialize_sync_stores io st d d' :
  db_ok d -> keyed st -> initialize_sync io st d = Ok d' -> stores d' st.
Proof.
  intros Hok [] (? & _ & (? & _ & Hr)%bind_Ok)%bind_Ok.
  apply bind_Ok in Hr as (? & [-> _]%of_option_Ok%i64_try_from_Some &
    (? & [-> _]%of_option_Ok%i64_try_from_Some & (? & Hm%ensure_Ok & Hr)%bind_Ok)%bind_Ok).
  pose proof (clear_tables_stores d st Hok Hm) as Hs. unfold metadata_of in Hs.
  apply bind_Ok in Hr as (d1 & Hp & (d2 & Hc & (d3 & He & (d4 & Hr & (d5 & Hv & (d6 & Hi & Hu
    )%bind_Ok)%bind_Ok)%bind_Ok)%bind_Ok)%bind_Ok).
  loop Hp st_provisioners with_provisioners put_provisioner_stores.
  loop Hc st_clients with_clients insert_client_stores.
  loop He st_edges with_edges insert_edge_stores.
  loop Hr st_relays with_relays insert_relay_stores.
  loop Hv st_revocations with_revocations insert_revocation_stores.
  loop Hi st_invites with_invites insert_invitation_stores.
  apply bind_Ok in Hu as (d7 & Hu & Hio). run_ok.
  eapply refines_stores in Hu; [|apply delete_unreferenced_refines; apply Hi].
  revert Hu. unfold bare. cbn. rewrite !Keyed.upserts_fresh by (done || set_solver).
  by destruct st.
Qed.

(** ** Differences that only drop invitations and revocations and add invitations *)

Definition metadata_is (m : MetadataRow) (d : Database) : Prop := db_metadata d = Some m.

Lemma for_each_total {T} (P : Database -> Prop) (f : Database -> T -> result string Database) items d :
  (forall d x, x ∈ items -> P d -> exists d', f d x = Ok d' /\ P d') ->
  P d -> exists d', for_each f items d = Ok d' /\ P d'.
Proof.
  revert d. induction items as [|x items IH]; intros d Hf Hd; cbn; [by eauto|].
  destruct (Hf d x) as (d1 & -> & ?); [apply list_elem_of_here|done|].
  apply IH; [|done]. intros d2 y Hy. apply Hf. by apply list_elem_of_further.
Qed.

Lemma placeholder_total m k d :
  metadata_is m d -> exists d', ensure_provisioner_placeholder d k = Ok d' /\ metadata_is m d'.
Proof. unfold ensure_provisioner_placeholder. intros. destruct (any _ _); eauto. Qed.

(** A new invitation with no owner, no manager and no request id violates no
    constraint. *)
Definition plain (i : InviteRecord) : Prop :=
  i_state i = Pending /\ i_request_id i = None /\ i_managed_by i = None /\
  i_terminal_at i = None /\ invite_owner_column (inv_kind (i_invite i)) = None.

Lemma sync_plain_total m clients i d :
  plain i -> metadata_is m d -> exists d', sync_invitation clients d i = Ok d' /\ metadata_is m d'.
Proof.
  intros (Hs & Hr & Hm & Ht & Ho) Hd. unfold sync_invitation.
  assert (Hreg : registered_owner clients (inv_kind (i_invite i)) = None)
    by (by destruct (registered_owner_column clients (inv_kind (i_invite i))) as [-> | ->]).
  rewrite Hreg. exists (db_with_invitations d (Keyed.upsert iv_invite_id (db_invitations d) (invitation_row i None))).
  split; [|exact Hd]. unfold put_invitation. prove_ok.
  - rewrite invitation_row_check by (by left). by rewrite Hs, Ht.
  - unfold Keyed.secondary_free. cbn. by rewrite Hr.
  - done.
  - unfold Keyed.refers_ok. cbn. by rewrite Hm.
Qed.

(** [next] keeps some invitations and revocations of [previous] and adds [new]. *)
Definition trimmed (p : InviteRecord -> bool) (q : RevocationRecord -> bool)
  (previous : ControlState) (new : list InviteRecord) : ControlState :=
  with_revocations (with_invites previous (retain p (st_invites previous) ++ new)%list)
    (retain q (st_revocations previous)).

Definition sized (st : ControlState) : Prop :=
  0 <= st_revision st <= i64_max /\ 0 <= st_relay_revision st <= i64_max.

Lemma sync_guards_trimmed p q previous new d :
  metadata_is (metadata_of previous) d -> sized previous ->
  (forall v, v ∈ st_revocations previous -> v_revision v <= st_relay_revision previous) ->
  sync_guards previous (trimmed p q previous new) d = Ok tt.
Proof.
  unfold metadata_is. intros Hd [??] Hv. unfold sync_guards. rewrite Hd. unfold i64_max in *.
  prove_ok; [reflexivity|..]; try (apply u64_try_from_Some; unfold u64_max; split; [done|cbn; lia]);
    try reflexivity; try (by rewrite bool_decide_eq_true_2).
  apply all_true. intros v [? _]%elem_of_retain. by apply Z.leb_le, Hv.
Qed.

Lemma sync_deletions_trimmed p q previous new d :
  metadata_is (metadata_of previous) d ->
  exists d', sync_deletions previous (trimmed p q previous new) d = Ok d' /\
    metadata_is (metadata_of previous) d'.
Proof.
  intros Hd. unfold sync_deletions. cbn [trimmed st_edges st_clients st_relays with_revocations with_invites].
  rewrite (removed_sub e_endpoint_id), (removed_sub c_endpoint_id), (removed_sub r_endpoint_id) by done.
  edestruct (for_each_total (metadata_is (metadata_of previous)) delete_invitation) as (d1 & -> & ?);
    [by eauto|done|].
  apply for_each_total; [by eauto|done].
Qed.

Lemma sync_changes_trimmed p q previous new d :
  metadata_is (metadata_of previous) d -> keyed previous -> Forall plain new ->
  exists d', sync_changes previous (trimmed p q previous new) d = Ok d' /\
    metadata_is (metadata_of previous) d'.
Proof.
  intros Hd [] Hn. unfold sync_changes.
  edestruct (for_each_total (metadata_is (metadata_of previous)) ensure_provisioner_placeholder)
    as (d1 & -> & ?); [intros; by apply placeholder_total|done|].
  cbn [trimmed st_edges st_clients st_relays st_provisioners st_revocations st_invites with_revocations
    with_invites mbind result_bind].
  rewrite (changed_sub p_endpoint_id), (changed_sub c_endpoint_id), (changed_sub e_endpoint_id),
    (changed_sub r_endpoint_id), (changed_sub v_endpoint_id)
    by (done || by intros ? [? _]%elem_of_retain).
  cbn [for_each mbind result_bind].
  rewrite changed_app, changed_sub by (done || by intros ? [? _]%elem_of_retain).
  apply for_each_total; [|done]. intros d2 i [Hi _]%elem_of_retain. apply sync_plain_total.
  rewrite Forall_forall in Hn. by apply Hn.
Qed.

Lemma keyed_trimmed p q previous new :
  keyed previous -> Keyed.unique i_id new ->
  (forall i j, i ∈ new -> j ∈ st_invites previous -> i_id j <> i_id i) ->
  keyed (trimmed p q previous new).
Proof.
  intros [] Hu Hf. split; cbn; eauto using Keyed.unique_retain.
  unfold Keyed.unique. rewrite fmap_app. apply NoDup_app. split_and!; [by apply Keyed.unique_retain| |done].
  intros k (j & -> & [Hj _]%elem_of_retain)%list_elem_of_fmap (i & E & Hi)%list_elem_of_fmap.
  by apply (Hf i j).
Qed.

(** Whenever such a difference is committed, it is stored in order. *)
Lemma sync_trimmed_stores io p q previous new d d' :
  stores d previous -> Keyed.unique i_id new ->
  (forall i j, i ∈ new -> j ∈ st_invites previous -> i_id j <> i_id i) ->
  apply_sync io previous (trimmed p q previous new) d = Ok d' ->
  stores d' (trimmed p q previous new).
Proof.
  intros Hs Hu Hf Ha. pose proof (stores_keyed _ _ Hs) as Hk.
  eapply apply_sync_stores in Ha; [|done|by apply keyed_trimmed].
  cbn [trimmed st_invites with_revocations with_invites] in Ha.
  rewrite synced_retain in Ha; [done|apply Hk|by apply (keyed_trimmed p q)|done].
Qed.

Lemma apply_sync_trimmed p q previous new d :
  stores d previous -> sized previous ->
  (forall v, v ∈ st_revocations previous -> v_revision v <= st_relay_revision previous) ->
  Forall plain new -> Keyed.unique i_id new ->
  (forall i j, i ∈ new -> j ∈ st_invites previous -> i_id j <> i_id i) ->
  exists d', apply_sync true previous (trimmed p q previous new) d = Ok d' /\
    stores d' (trimmed p q previous new).
Proof.
  intros Hs [Hr Hrr] Hv Hn Hu Hf. pose proof (stores_keyed _ _ Hs) as Hk.
  pose proof (rep_metadata _ _ (proj2 Hs)) as Hm.
  pose proof (ok_metadata _ (proj1 Hs) _ Hm) as Hc.
  assert (Hex : exists d', apply_sync true previous (trimmed p q previous new) d = Ok d').
  { unfold apply_sync. rewrite sync_guards_trimmed by done. cbn [mbind result_bind].
    destruct (sync_deletions_trimmed p q previous new d Hm) as (d1 & -> & Hm1).
    cbn [mbind result_bind].
    destruct (sync_changes_trimmed p q previous new d1 Hm1 Hk Hn) as (d2 & -> & Hm2).
    cbn [mbind result_bind]. rewrite (removed_sub p_endpoint_id) by done.
    eexists. unfold metadata_is in Hm2. unfold update_metadata, delete_unreferenced_provisioners.
    cbn [mbind result_bind for_each]. cbn [db_metadata db_with_provisioners]. rewrite Hm2.
    prove_ok; try (apply i64_try_from_Some; split; [done|cbn; lia]); try done; exact Hc. }
  destruct Hex as (d' & Ha). exists d'. split; [done|]. by eapply sync_trimmed_stores.
Qed.

(** A committed difference is exact: when the tables hold [previous] and
    [apply_sync] commits, they satisfy the schema and hold [next], whatever the
    two snapshots are, with the invitations kept in table order. *)
Theorem apply_sync_exact io previous next d d' :
  stores d previous -> keyed next -> apply_sync io previous next d = Ok d' ->
  stores d' (with_invites next (synced i_id (st_invites previous) (st_invites next))) /\
  synced i_id (st_invites previous) (st_invites next) ≡ₚ st_invites next.
Proof. intros Hs Hk Hr. split; [by eapply apply_sync_stores|]. apply synced_perm; [|apply Hk].
  by eapply keyed_invites, stores_keyed. Qed.
End Loops.
