(* ===== verification/Migrate.v ===== *)
(** * as-control: migrations of the database file

    [migrate] of src/crates/as-control/src/db.rs on a SQLite file: tables with
    named columns and rows of SQLite values, as they are before the typed rows of
    Database.v can be read. A file of an earlier release has the columns of
    schema.sql without those that the later migrations add. *)
From S2P Require Import Prelude Deps ControlApi State Database ControlCore Sync ControlInvariant.
Open Scope string_scope.
Open Scope Z_scope.

Inductive Value := Null | Integer (n : Z) | Text (s : string) | Blob (b : bytes).
#[global] Instance Value_eq : EqDecision Value.
Proof. solve_decision. Defined.

Inductive TableName := TMigrations | TMetadata | TProvisioners | TClients | TEdges | TRevocations | TRelays | TInvitations.
#[global] Instance TableName_eq : EqDecision TableName.
Proof. solve_decision. Defined.

Notation Row := (gmap string Value).
Record Table := { t_columns : list string; t_rows : list Row }.
(** The tables that exist *)
Notation File := (TableName -> option Table).

Definition with_table (name : TableName) (table : Table) (file : File) : File :=
  fun other => if other == name then Some table else file other.

(** ** SQL *)

(** [CREATE TABLE IF NOT EXISTS] *)
Definition create_table (name : TableName) (columns : list string) (file : File) : File :=
  match file name with
  | Some _ => file
  | None => with_table name {| t_columns := columns; t_rows := [] |} file
  end.

Definition table (name : TableName) (file : File) : result string Table := of_option (file name) "no such table".

(** [PRAGMA table_info] lists no columns of a table that does not exist. *)
Definition has_column (file : File) (name : TableName) (column : string) : bool :=
  match file name with Some t => bool_decide (column ∈ t_columns t) | None => false end.

(** [ALTER TABLE .. ADD COLUMN .. DEFAULT ..] *)
Definition add_column (name : TableName) (column : string) (value : Value) (file : File) : result string File :=
  t ← table name file;
  ensure (negb (has_column file name column)) "duplicate column name";;
  Ok (with_table name {| t_columns := t_columns t ++ [column]; t_rows := insert column value <$> t_rows t |} file).

Definition insert_row (name : TableName) (row : Row) (file : File) : result string File :=
  t ← table name file;
  Ok (with_table name {| t_columns := t_columns t; t_rows := (t_rows t ++ [row])%list |} file).

(** [UPDATE .. SET ..] without a condition, of columns that are NOT NULL *)
Definition update_rows (name : TableName) (values : Row) (file : File) : result string File :=
  t ← table name file;
  ensure ((t_rows t == []) || bool_decide (map_Forall (fun _ value => value <> Null) values)) "NOT NULL constraint failed";;
  Ok (with_table name {| t_columns := t_columns t; t_rows := (fun row => values ∪ row) <$> t_rows t |} file).

(** [SELECT revision FROM metadata WHERE id = 1] as a scalar *)
Definition metadata_revision (file : File) : result string Value :=
  t ← table TMetadata file;
  Ok match Vec.find (fun row => row !! "id" == Some (Integer 1)) (t_rows t) with
     | Some row => default Null (row !! "revision")
     | None => Null
     end.
(** [max(1, ..)] is NULL for a NULL. *)
Definition max_one (value : Value) : Value :=
  match value with Integer n => Integer (Z.max 1 n) | other => other end.

(** ** schema.sql *)

Definition columns_of (name : TableName) : list string :=
  match name with
  | TMigrations => ["version"; "applied_at"]
  | TMetadata => ["id"; "schema_version"; "audience"; "public_url"; "relay_ca_der"; "revision"; "relay_revision"]
  | TProvisioners => ["endpoint_id"; "name"; "active"]
  | TClients => ["endpoint_id"; "name"; "managed_by";
                 "credential_generation"; "credential_issued_at"; "credential_expires_at"]
  | TEdges => ["endpoint_id"; "name"; "owner_id";
               "credential_generation"; "credential_issued_at"; "credential_expires_at"]
  | TRevocations => ["endpoint_id"; "revoked_through_generation"; "expires_at"; "revision"]
  | TRelays => ["endpoint_id"; "name"; "url"; "qad_port"]
  | TInvitations => ["invite_id"; "name"; "kind"; "owner_id"; "invite_json"; "expires_at"; "state"; "claimed_by";
                     "request_id"; "managed_by"; "request_hash"; "terminal_at"]
  end.

Definition MIGRATION_1 (file : File) : File :=
  fold_left (fun file name => create_table name (columns_of name) file)
    [TMigrations; TMetadata; TProvisioners; TClients; TEdges; TRevocations; TRelays; TInvitations] file.

(** ** [migrate] *)

Definition applied (version : Z) (file : File) : bool :=
  match file TMigrations with
  | Some t => Vec.any (fun row => row !! "version" == Some (Integer version)) (t_rows t)
  | None => false
  end.

Definition record_migration (version now : Z) (file : File) : result string File :=
  insert_row TMigrations {["version" := Integer version; "applied_at" := Integer now]} file.

Definition add_missing (name : TableName) (column : string) (value : Value) (file : File) : result string File :=
  if has_column file name column then Ok file else add_column name column value file.

(** The credential columns of [clients] or [edges], filled for every node *)
Definition add_credentials (name : TableName) (now expires_at : Z) (file : File) : result string File :=
  if has_column file name "credential_generation" then Ok file
  else
    file ← add_column name "credential_generation" (Integer 1) file;
    file ← add_column name "credential_issued_at" (Integer 0) file;
    file ← add_column name "credential_expires_at" (Integer 1) file;
    revision ← metadata_revision file;
    update_rows name {["credential_generation" := max_one revision; "credential_issued_at" := Integer now;
                       "credential_expires_at" := Integer expires_at]} file.

Definition migration_2 (now : Z) (file : File) : result string File :=
  file ← add_missing TMetadata "relay_ca_der" Null file;
  file ← add_missing TRelays "qad_port" Null file;
  record_migration 2 now file.

Definition migration_3 (now : Z) (file : File) : result string File :=
  let expires_at := i64_saturating_add now RELAY_CREDENTIAL_LIFETIME_SECS in
  file ← add_missing TMetadata "relay_revision" (Integer 1) file;
  file ← add_credentials TClients now expires_at file;
  file ← add_credentials TEdges now expires_at file;
  file ← update_rows TMetadata {["schema_version" := Integer STATE_SCHEMA]}
           (create_table TRevocations (columns_of TRevocations) file);
  record_migration 3 now file.

(** A migration that was applied is not applied again. *)
Definition once (version : Z) (step : File -> result string File) (file : File) : result string File :=
  if applied version file then Ok file else step file.

(** [clock] is the reading of the clock for each migration. *)
Definition migrate (io : bool) (clock : Z -> Z) (file : File) : result string File :=
  let file := create_table TMigrations (columns_of TMigrations) file in
  file ← once 1 (fun file => record_migration 1 (clock 1) (MIGRATION_1 file)) file;
  file ← once 2 (migration_2 (clock 2)) file;
  file ← once 3 (migration_3 (clock 3)) file;
  ensure io "disk I/O error";;
  Ok file.

(** ** Reading the typed rows *)

Definition value_of (row : Row) (column : string) : result string Value := of_option (row !! column) "no such column".
Definition get_int (row : Row) (column : string) : result string Z :=
  value ← value_of row column; match value with Integer n => Ok n | _ => Err "Invalid column type" end.
Definition get_text (row : Row) (column : string) : result string string :=
  value ← value_of row column; match value with Text s => Ok s | _ => Err "Invalid column type" end.
Definition get_blob (row : Row) (column : string) : result string bytes :=
  value ← value_of row column; match value with Blob b => Ok b | _ => Err "Invalid column type" end.
(** [Option<String>] and [Option<i64>] *)
Definition get_opt {A} (get : Row -> string -> result string A) (row : Row) (column : string) : result string (option A) :=
  value ← value_of row column;
  match value with Null => Ok None | _ => Some <$> get row column end.

Definition read_metadata (row : Row) : result string MetadataRow :=
  schema_version ← get_int row "schema_version";
  audience ← get_text row "audience";
  public_url ← get_text row "public_url";
  relay_ca_der ← get_blob row "relay_ca_der";
  revision ← get_int row "revision";
  relay_revision ← get_int row "relay_revision";
  Ok {| md_schema_version := schema_version; md_audience := audience; md_public_url := public_url;
        md_relay_ca_der := relay_ca_der; md_revision := revision; md_relay_revision := relay_revision |}.
Definition read_provisioner (row : Row) : result string ProvisionerRow :=
  endpoint_id ← get_text row "endpoint_id"; name ← get_text row "name"; active ← get_int row "active";
  Ok {| pv_endpoint_id := endpoint_id; pv_name := name; pv_active := active == 1 |}.
Definition read_client (row : Row) : result string ClientRecord :=
  name ← get_text row "name"; endpoint_id ← get_text row "endpoint_id"; managed_by ← get_opt get_text row "managed_by";
  generation ← get_int row "credential_generation"; issued_at ← get_int row "credential_issued_at";
  expires_at ← get_int row "credential_expires_at";
  Ok {| c_name := name; c_endpoint_id := endpoint_id; c_managed_by := managed_by; c_generation := generation;
        c_issued_at := issued_at; c_expires_at := expires_at |}.
Definition read_edge (row : Row) : result string EdgeRecord :=
  name ← get_text row "name"; endpoint_id ← get_text row "endpoint_id"; owner_id ← get_text row "owner_id";
  generation ← get_int row "credential_generation"; issued_at ← get_int row "credential_issued_at";
  expires_at ← get_int row "credential_expires_at";
  Ok {| e_name := name; e_endpoint_id := endpoint_id; e_owner_id := owner_id; e_generation := generation;
        e_issued_at := issued_at; e_expires_at := expires_at |}.
Definition read_revocation (row : Row) : result string RevocationRecord :=
  endpoint_id ← get_text row "endpoint_id"; generation ← get_int row "revoked_through_generation";
  expires_at ← get_int row "expires_at"; revision ← get_int row "revision";
  Ok {| v_endpoint_id := endpoint_id; v_generation := generation; v_expires_at := expires_at; v_revision := revision |}.
Definition read_relay (row : Row) : result string RelayRecord :=
  name ← get_text row "name"; endpoint_id ← get_text row "endpoint_id"; url ← get_text row "url";
  qad_port ← get_opt get_int row "qad_port";
  Ok {| r_name := name; r_endpoint_id := endpoint_id; r_url := url; r_qad_port := qad_port |}.
Definition read_invitation (row : Row) : result string InvitationRow :=
  invite_id ← get_text row "invite_id"; name ← get_text row "name"; kind ← get_text row "kind";
  owner_id ← get_opt get_text row "owner_id"; invite_json ← get_text row "invite_json";
  expires_at ← get_int row "expires_at"; state ← get_text row "state"; claimed_by ← get_opt get_text row "claimed_by";
  request_id ← get_opt get_text row "request_id"; managed_by ← get_opt get_text row "managed_by";
  request_hash ← get_opt get_text row "request_hash"; terminal_at ← get_opt get_int row "terminal_at";
  Ok {| iv_invite_id := invite_id; iv_name := name; iv_kind := kind; iv_owner_id := owner_id;
        iv_invite_json := String.list_byte_of_string invite_json; iv_expires_at := expires_at; iv_state := state;
        iv_claimed_by := claimed_by; iv_request_id := request_id; iv_managed_by := managed_by;
        iv_request_hash := request_hash; iv_terminal_at := terminal_at |}.

Definition read_rows {A} (read : Row -> result string A) (name : TableName) (file : File) : result string (list A) :=
  t ← table name file; collect read (t_rows t).

(** The tables as the statements of Database.v see them *)
Definition read_database (file : File) : result string Database :=
  t ← table TMetadata file;
  metadata ← match Vec.find (fun row => row !! "id" == Some (Integer 1)) (t_rows t) with
             | Some row => Some <$> read_metadata row
             | None => Ok None
             end;
  provisioners ← read_rows read_provisioner TProvisioners file;
  clients ← read_rows read_client TClients file;
  edges ← read_rows read_edge TEdges file;
  revocations ← read_rows read_revocation TRevocations file;
  relays ← read_rows read_relay TRelays file;
  invitations ← read_rows read_invitation TInvitations file;
  Ok {| db_metadata := metadata; db_provisioners := provisioners; db_clients := clients; db_edges := edges;
        db_revocations := revocations; db_relays := relays; db_invitations := invitations |}.

(** ** Files of earlier releases *)

Definition opt_text (o : option string) : Value := from_option Text Null o.
Definition opt_int (o : option Z) : Value := from_option Integer Null o.

Definition migration_row (version at_ : Z) : Row := {["version" := Integer version; "applied_at" := Integer at_]}.
Definition provisioner_row (p : ProvisionerRow) : Row :=
  {["endpoint_id" := Text (pv_endpoint_id p); "name" := Text (pv_name p);
    "active" := Integer (if pv_active p then 1 else 0)]}.
Definition old_client_row (c : ClientRecord) : Row :=
  {["endpoint_id" := Text (c_endpoint_id c); "name" := Text (c_name c); "managed_by" := opt_text (c_managed_by c)]}.
Definition old_edge_row (e : EdgeRecord) : Row :=
  {["endpoint_id" := Text (e_endpoint_id e); "name" := Text (e_name e); "owner_id" := Text (e_owner_id e)]}.
Definition relay_row (r : RelayRecord) : Row :=
  {["endpoint_id" := Text (r_endpoint_id r); "name" := Text (r_name r); "url" := Text (r_url r);
    "qad_port" := opt_int (r_qad_port r)]}.
Definition invitation_file_row (i : InvitationRow) : Row :=
  {["invite_id" := Text (iv_invite_id i); "name" := Text (iv_name i); "kind" := Text (iv_kind i);
    "owner_id" := opt_text (iv_owner_id i); "invite_json" := Text (String.string_of_list_byte (iv_invite_json i));
    "expires_at" := Integer (iv_expires_at i); "state" := Text (iv_state i); "claimed_by" := opt_text (iv_claimed_by i);
    "request_id" := opt_text (iv_request_id i); "managed_by" := opt_text (iv_managed_by i);
    "request_hash" := opt_text (iv_request_hash i); "terminal_at" := opt_int (iv_terminal_at i)]}.
Definition old_metadata_row (m : MetadataRow) : Row :=
  {["id" := Integer 1; "schema_version" := Integer (md_schema_version m); "audience" := Text (md_audience m);
    "public_url" := Text (md_public_url m); "relay_ca_der" := Blob (md_relay_ca_der m);
    "revision" := Integer (md_revision m)]}.

(** The tables that migrations 1 and 2 left at times [t1] and [t2]: no
    credentials, no Relay revision, no revocations *)
Definition version_2_file (t1 t2 : Z) (m : MetadataRow) (d : Database) : File := fun name =>
  match name with
  | TMigrations => Some {| t_columns := columns_of TMigrations; t_rows := [migration_row 1 t1; migration_row 2 t2] |}
  | TMetadata => Some {| t_columns := ["id"; "schema_version"; "audience"; "public_url"; "relay_ca_der"; "revision"];
                         t_rows := [old_metadata_row m] |}
  | TProvisioners => Some {| t_columns := columns_of TProvisioners; t_rows := provisioner_row <$> db_provisioners d |}
  | TClients => Some {| t_columns := ["endpoint_id"; "name"; "managed_by"]; t_rows := old_client_row <$> db_clients d |}
  | TEdges => Some {| t_columns := ["endpoint_id"; "name"; "owner_id"]; t_rows := old_edge_row <$> db_edges d |}
  | TRevocations => None
  | TRelays => Some {| t_columns := columns_of TRelays; t_rows := relay_row <$> db_relays d |}
  | TInvitations => Some {| t_columns := columns_of TInvitations; t_rows := invitation_file_row <$> db_invitations d |}
  end.

(** What the upgrade makes of it: every node gets a credential of the current
    revision. *)
Definition upgraded_client (revision now : Z) (c : ClientRecord) : ClientRecord := {|
  c_name := c_name c; c_endpoint_id := c_endpoint_id c; c_managed_by := c_managed_by c;
  c_generation := Z.max 1 revision; c_issued_at := now;
  c_expires_at := i64_saturating_add now RELAY_CREDENTIAL_LIFETIME_SECS |}.
Definition upgraded_edge (revision now : Z) (e : EdgeRecord) : EdgeRecord := {|
  e_name := e_name e; e_endpoint_id := e_endpoint_id e; e_owner_id := e_owner_id e;
  e_generation := Z.max 1 revision; e_issued_at := now;
  e_expires_at := i64_saturating_add now RELAY_CREDENTIAL_LIFETIME_SECS |}.
Definition upgraded_database (now : Z) (m : MetadataRow) (d : Database) : Database := {|
  db_metadata := Some {| md_schema_version := STATE_SCHEMA; md_audience := md_audience m; md_public_url := md_public_url m;
                         md_relay_ca_der := md_relay_ca_der m; md_revision := md_revision m; md_relay_revision := 1 |};
  db_provisioners := db_provisioners d;
  db_clients := upgraded_client (md_revision m) now <$> db_clients d;
  db_edges := upgraded_edge (md_revision m) now <$> db_edges d;
  db_revocations := []; db_relays := db_relays d; db_invitations := db_invitations d |}.

Lemma add_column_ok name column value file t :
  file name = Some t -> has_column file name column = false ->
  add_column name column value file =
  Ok (with_table name {| t_columns := t_columns t ++ [column]; t_rows := insert column value <$> t_rows t |} file).
Proof. intros Ht Hc. unfold add_column, table. rewrite Ht, Hc. done. Qed.

Lemma update_rows_ok name values file t :
  file name = Some t -> map_Forall (fun _ value => value <> Null) values ->
  update_rows name values file =
  Ok (with_table name {| t_columns := t_columns t; t_rows := (fun row => values ∪ row) <$> t_rows t |} file).
Proof.
  intros Ht Hv. unfold update_rows, table. rewrite Ht. cbn [of_option mbind result_bind].
  rewrite (bool_decide_eq_true_2 _ Hv), orb_true_r. done.
Qed.

Lemma collect_fmap {A B} (enc : A -> Row) (read : Row -> result string B) (g : A -> B) (l : list A) :
  (forall x, read (enc x) = Ok (g x)) -> collect read (enc <$> l) = Ok (g <$> l).
Proof. intros Hr. induction l as [|x l IH]; [done|]. cbn. by rewrite Hr, IH. Qed.

(** A row with the three new columns *)
Definition with_credentials (revision now expires_at : Z) (row : Row) : Row :=
  ({["credential_generation" := Integer (Z.max 1 revision); "credential_issued_at" := Integer now;
     "credential_expires_at" := Integer expires_at]} : Row) ∪
  (<["credential_expires_at" := Integer 1]> (<["credential_issued_at" := Integer 0]>
    (<["credential_generation" := Integer 1]> row))).

Lemma has_column_same file file' name column : file' name = file name -> has_column file' name column = has_column file name column.
Proof. unfold has_column. by intros ->. Qed.

Lemma with_table_eq name t file : with_table name t file name = Some t.
Proof. unfold with_table. by rewrite bool_decide_eq_true_2. Qed.
Lemma with_table_ne name other t file : other <> name -> with_table name t file other = file other.
Proof. intros Hne. unfold with_table. by rewrite bool_decide_eq_false_2. Qed.

Lemma metadata_revision_same file file' : file' TMetadata = file TMetadata -> metadata_revision file' = metadata_revision file.
Proof. unfold metadata_revision, table. by intros ->. Qed.

Lemma add_credentials_ok name now expires_at file t revision :
  file name = Some t -> name <> TMetadata -> metadata_revision file = Ok (Integer revision) ->
  "credential_generation" ∉ t_columns t -> "credential_issued_at" ∉ t_columns t -> "credential_expires_at" ∉ t_columns t ->
  exists file' columns, add_credentials name now expires_at file = Ok file' /\
    file' name = Some {| t_columns := columns; t_rows := with_credentials revision now expires_at <$> t_rows t |} /\
    forall other, other <> name -> file' other = file other.
Proof.
  intros Ht Hne Hm Hg Hi He. unfold add_credentials.
  assert (Hc : has_column file name "credential_generation" = false).
  { unfold has_column. rewrite Ht. by apply bool_decide_eq_false_2. }
  rewrite Hc, (add_column_ok _ _ _ _ t Ht Hc). cbn [mbind result_bind].
  erewrite add_column_ok; [|apply with_table_eq|].
  2: { unfold has_column. rewrite with_table_eq. apply bool_decide_eq_false_2. cbn. set_solver. }
  cbn [mbind result_bind]. erewrite add_column_ok; [|apply with_table_eq|].
  2: { unfold has_column. rewrite with_table_eq. apply bool_decide_eq_false_2. cbn. set_solver. }
  cbn [mbind result_bind]. rewrite (metadata_revision_same file) by (by rewrite !with_table_ne).
  rewrite Hm. cbn [mbind result_bind max_one]. erewrite update_rows_ok; [|apply with_table_eq|].
  - eexists _, _. split; [done|]. split.
    + rewrite with_table_eq. cbn [t_columns t_rows]. by rewrite <- !list_fmap_compose.
    + intros other Ho. by rewrite !with_table_ne.
  - repeat (apply map_Forall_insert_2; [done|]). apply map_Forall_empty.
Qed.

Lemma read_rows_fmap {A B} (enc : A -> Row) (read : Row -> result string B) (g : A -> B) (l : list A) name file columns :
  file name = Some {| t_columns := columns; t_rows := enc <$> l |} -> (forall x, read (enc x) = Ok (g x)) ->
  read_rows read name file = Ok (g <$> l).
Proof. intros Hf Hr. unfold read_rows, table. rewrite Hf. cbn [of_option mbind result_bind t_rows]. by apply collect_fmap. Qed.

(** Every row that is kept is read back. *)
Lemma read_provisioner_row p : read_provisioner (provisioner_row p) = Ok p.
Proof. by destruct p as [? ? []]. Qed.
Lemma read_relay_row r : read_relay (relay_row r) = Ok r.
Proof. by destruct r as [? ? ? []]. Qed.
Lemma read_invitation_row i : read_invitation (invitation_file_row i) = Ok i.
Proof.
  destruct i as [? ? ? owner json ? ? claimed request managed hash terminal].
  rewrite <- (String.list_byte_of_string_of_list_byte json) at 2.
  by destruct owner, claimed, request, managed, hash, terminal.
Qed.
Lemma read_upgraded_client revision now expires_at c :
  read_client (with_credentials revision now expires_at (old_client_row c)) =
  Ok {| c_name := c_name c; c_endpoint_id := c_endpoint_id c; c_managed_by := c_managed_by c;
        c_generation := Z.max 1 revision; c_issued_at := now; c_expires_at := expires_at |}.
Proof. by destruct c as [? ? []]. Qed.
Lemma read_upgraded_edge revision now expires_at e :
  read_edge (with_credentials revision now expires_at (old_edge_row e)) =
  Ok {| e_name := e_name e; e_endpoint_id := e_endpoint_id e; e_owner_id := e_owner_id e;
        e_generation := Z.max 1 revision; e_issued_at := now; e_expires_at := expires_at |}.
Proof. done. Qed.

Lemma migrate_version_2 t1 t2 clock m d :
  exists file, migrate true clock (version_2_file t1 t2 m d) = Ok file /\
    read_database file = Ok (upgraded_database (clock 3) m d).
Proof.
  set (old := version_2_file t1 t2 m d). set (expires_at := i64_saturating_add (clock 3) RELAY_CREDENTIAL_LIFETIME_SECS).
  set (file1 := with_table TMetadata {| t_columns := ["id"; "schema_version"; "audience"; "public_url"; "relay_ca_der";
    "revision"; "relay_revision"]; t_rows := [<["relay_revision" := Integer 1]> (old_metadata_row m)] |} old).
  destruct (add_credentials_ok TClients (clock 3) expires_at file1 _ (md_revision m) eq_refl) as (file2 & c2 & E2 & Hc2 & Ho2);
    [done|done|set_solver..|].
  destruct (add_credentials_ok TEdges (clock 3) expires_at file2
    {| t_columns := ["endpoint_id"; "name"; "owner_id"]; t_rows := old_edge_row <$> db_edges d |} (md_revision m))
    as (file3 & c3 & E3 & Hc3 & Ho3); [by rewrite Ho2|done| |set_solver..|].
  { rewrite (metadata_revision_same file1) by (by apply Ho2). done. }
  assert (Hkeep : forall name, name <> TClients -> name <> TEdges -> file3 name = file1 name).
  { intros name Hc He. by rewrite Ho3, Ho2. }
  assert (Hclients : file3 TClients = Some {| t_columns := c2;
    t_rows := with_credentials (md_revision m) (clock 3) expires_at <$> (old_client_row <$> db_clients d) |}).
  { rewrite Ho3 by done. exact Hc2. }
  eexists. split.
  - unfold migrate, once. cbv zeta. change (create_table TMigrations _ _) with old.
    assert (A1 : applied 1 old = true) by reflexivity. assert (A2 : applied 2 old = true) by reflexivity.
    assert (A3 : applied 3 old = false) by reflexivity.
    rewrite A1. cbn [mbind result_bind]. rewrite A2. cbn [mbind result_bind]. rewrite A3.
    unfold migration_3. change (add_missing TMetadata _ _ old) with (Ok file1 : result string File).
    cbn [mbind result_bind]. fold expires_at. rewrite E2. cbn [mbind result_bind]. rewrite E3. cbn [mbind result_bind].
    unfold create_table. rewrite Hkeep by done. change (file1 TRevocations) with (@None Table). cbv iota.
    erewrite update_rows_ok; [|rewrite with_table_ne by done; rewrite Hkeep by done; reflexivity|].
    2: { apply map_Forall_insert_2; [done|]. apply map_Forall_empty. }
    cbn [mbind result_bind]. unfold record_migration, insert_row, table. rewrite !with_table_ne, Hkeep by done. reflexivity.
  - set (file := with_table TMigrations _ _). unfold read_database.
    assert (Hrows : forall name, name <> TMigrations -> name <> TMetadata -> name <> TRevocations -> file name = file3 name).
    { intros name H1 H2 H3. unfold file. by rewrite !with_table_ne. }
    rewrite (read_rows_fmap provisioner_row _ id (db_provisioners d) TProvisioners file (columns_of TProvisioners));
      [|by rewrite Hrows, Hkeep|apply read_provisioner_row].
    rewrite (read_rows_fmap (with_credentials (md_revision m) (clock 3) expires_at ∘ old_client_row) _ (upgraded_client (md_revision m) (clock 3)) (db_clients d) TClients file c2);
      [|by rewrite Hrows, Hclients, list_fmap_compose|intros c; apply read_upgraded_client].
    rewrite (read_rows_fmap (with_credentials (md_revision m) (clock 3) expires_at ∘ old_edge_row) _ (upgraded_edge (md_revision m) (clock 3)) (db_edges d) TEdges file c3);
      [|by rewrite Hrows, Hc3, list_fmap_compose|intros e; apply read_upgraded_edge].
    rewrite (read_rows_fmap relay_row _ id (db_relays d) TRelays file (columns_of TRelays));
      [|by rewrite Hrows, Hkeep|apply read_relay_row].
    rewrite (read_rows_fmap invitation_file_row _ id (db_invitations d) TInvitations file (columns_of TInvitations));
      [|by rewrite Hrows, Hkeep|apply read_invitation_row].
    unfold upgraded_database. rewrite !list_fmap_id. reflexivity.
Qed.

(** ** Migrations are applied once *)

(** What a step leaves alone: the recorded migrations, and other tables *)
Definition touches (names : list TableName) (step : File -> result string File) : Prop :=
  forall file file', step file = Ok file' -> forall name, name ∉ names -> file' name = file name.
Definition keeps_applied (step : File -> result string File) : Prop :=
  forall file file', step file = Ok file' -> forall version, applied version file = true -> applied version file' = true.

Lemma touches_keeps names step : touches names step -> TMigrations ∉ names -> keeps_applied step.
Proof. intros Ht Hn file file' Hs version. unfold applied. by rewrite (Ht _ _ Hs). Qed.

Lemma touches_add_column name column value : touches [name] (add_column name column value).
Proof.
  intros file file' Hs other Ho. unfold add_column in Hs. run_ok. apply with_table_ne. set_solver.
Qed.
Lemma touches_add_missing name column value : touches [name] (add_missing name column value).
Proof.
  intros file file'. unfold add_missing. case_match; [by intros [= ->]|]. apply touches_add_column.
Qed.
Lemma touches_update name values : touches [name] (update_rows name values).
Proof. intros file file' Hs other Ho. unfold update_rows in Hs. run_ok. apply with_table_ne. set_solver. Qed.
Lemma touches_add_credentials name now expires_at : touches [name] (add_credentials name now expires_at).
Proof.
  intros file file' Hs other Ho. unfold add_credentials in Hs. destruct (has_column _ _ _); [by injection Hs as ->|].
  apply bind_Ok in Hs as (f1 & H1 & Hs). apply bind_Ok in Hs as (f2 & H2 & Hs). apply bind_Ok in Hs as (f3 & H3 & Hs).
  apply bind_Ok in Hs as (r & _ & Hs).
  by rewrite (touches_update _ _ _ _ Hs), (touches_add_column _ _ _ _ _ H3), (touches_add_column _ _ _ _ _ H2),
    (touches_add_column _ _ _ _ _ H1).
Qed.

Lemma record_applied version now file file' :
  record_migration version now file = Ok file' ->
  applied version file' = true /\ (forall v, applied v file = true -> applied v file' = true) /\
  forall name, name <> TMigrations -> file' name = file name.
Proof.
  unfold record_migration, insert_row, table. intros Hs. apply bind_Ok in Hs as (t & Ht & Hs). apply of_option_Ok in Ht.
  injection Hs as <-. unfold applied. rewrite with_table_eq, Ht. cbn [t_rows].
  split; [|split; [|intros name Hn; by apply with_table_ne]].
  - apply Vec.any_true. eexists. split; [apply elem_of_app; right; by apply list_elem_of_singleton|].
    by apply bool_decide_eq_true_2.
  - intros v (row & Hin & Hr)%Vec.any_true. apply Vec.any_true. exists row. split; [apply elem_of_app; by left|done].
Qed.

Lemma create_table_other name columns file other : other <> name -> create_table name columns file other = file other.
Proof. intros Ho. unfold create_table. destruct (file name); [done|]. by apply with_table_ne. Qed.
Lemma create_table_same name columns file t : file name = Some t -> create_table name columns file = file.
Proof. unfold create_table. by intros ->. Qed.

Lemma migration_2_applied now file file' :
  migration_2 now file = Ok file' ->
  applied 2 file' = true /\ (forall v, applied v file = true -> applied v file' = true) /\
  forall name, name ∉ [TMigrations; TMetadata; TRelays] -> file' name = file name.
Proof.
  intros (f1 & H1 & (f2 & H2 & H3)%bind_Ok)%bind_Ok. apply record_applied in H3 as (Ha & Hk & Ho). split; [done|]. split.
  - intros v Hv. apply Hk. eapply (touches_keeps _ _ (touches_add_missing _ _ _)); [|exact H2|]; [set_solver|].
    eapply (touches_keeps _ _ (touches_add_missing _ _ _)); [|exact H1|]; [set_solver|done].
  - intros name Hn. rewrite Ho, (touches_add_missing _ _ _ _ _ H2), (touches_add_missing _ _ _ _ _ H1); [done|set_solver..].
Qed.

Lemma migration_3_applied now file file' :
  migration_3 now file = Ok file' ->
  applied 3 file' = true /\ forall v, applied v file = true -> applied v file' = true.
Proof.
  intros (f1 & H1 & (f2 & H2 & (f3 & H3 & (f4 & H4 & H5)%bind_Ok)%bind_Ok)%bind_Ok)%bind_Ok.
  apply record_applied in H5 as (Ha & Hk & _). split; [done|]. intros v Hv. apply Hk.
  eapply (touches_keeps _ _ (touches_update _ _)); [|exact H4|]; [set_solver|].
  unfold applied. rewrite create_table_other by done. fold (applied v f3).
  eapply (touches_keeps _ _ (touches_add_credentials _ _ _)); [|exact H3|]; [set_solver|].
  eapply (touches_keeps _ _ (touches_add_credentials _ _ _)); [|exact H2|]; [set_solver|].
  eapply (touches_keeps _ _ (touches_add_missing _ _ _)); [|exact H1|]; [set_solver|done].
Qed.

(** A migrated file is migrated: the next start changes nothing. *)
Theorem migrate_once io io' clock clock' file file' :
  migrate io clock file = Ok file' -> io' = true -> migrate io' clock' file' = Ok file'.
Proof.
  intros (f1 & H1 & (f2 & H2 & (f3 & H3 & H4)%bind_Ok)%bind_Ok)%bind_Ok ->.
  assert (E : f3 = file') by (by destruct io; [injection H4|]). subst f3.
  assert (A : applied 1 file' = true /\ applied 2 file' = true /\ applied 3 file' = true).
  { unfold once in *.
    assert (A1 : applied 1 f1 = true).
    { destruct (applied 1 _) eqn:A in H1; [injection H1 as <-; done|]. by apply record_applied in H1 as [? _]. }
    assert (A2 : applied 1 f2 = true /\ applied 2 f2 = true).
    { destruct (applied 2 f1) eqn:A in H2; [by injection H2 as <-|]. apply migration_2_applied in H2 as (? & Hk & _). auto. }
    destruct A2 as [A2 A2']. destruct (applied 3 f2) eqn:A in H3; [by injection H3 as <-|].
    apply migration_3_applied in H3 as (? & Hk). auto. }
  destruct A as (A1 & A2 & A3).
  destruct (file' TMigrations) as [t|] eqn:Et; [|unfold applied in A1; by rewrite Et in A1].
  unfold migrate. rewrite (create_table_same _ _ _ t Et). unfold once. rewrite A1. cbn [mbind result_bind].
  rewrite A2. cbn [mbind result_bind]. by rewrite A3.
Qed.

(** A file without tables gets those of schema.sql, empty. *)
Theorem migrate_new_file clock :
  exists file, migrate true clock (fun _ => None) = Ok file /\ read_database file = Ok empty_database /\
    forall name, exists t, file name = Some t /\ t_columns t = columns_of name.
Proof.
  eexists. split; [reflexivity|]. split; [reflexivity|]. intros name. destruct name; eexists; (split; [reflexivity|reflexivity]).
Qed.

(** ** A file of the first release *)

Definition first_metadata_row (m : MetadataRow) : Row :=
  {["id" := Integer 1; "schema_version" := Integer (md_schema_version m); "audience" := Text (md_audience m);
    "public_url" := Text (md_public_url m); "revision" := Integer (md_revision m)]}.
Definition first_relay_row (r : RelayRecord) : Row :=
  {["endpoint_id" := Text (r_endpoint_id r); "name" := Text (r_name r); "url" := Text (r_url r)]}.
Definition version_1_file (t1 : Z) (m : MetadataRow) (d : Database) : File := fun name =>
  match name with
  | TMigrations => Some {| t_columns := columns_of TMigrations; t_rows := [migration_row 1 t1] |}
  | TMetadata => Some {| t_columns := ["id"; "schema_version"; "audience"; "public_url"; "revision"];
                         t_rows := [first_metadata_row m] |}
  | TRelays => Some {| t_columns := ["endpoint_id"; "name"; "url"]; t_rows := first_relay_row <$> db_relays d |}
  | name => version_2_file t1 t1 m d name
  end.

Lemma read_database_metadata file t row e :
  file TMetadata = Some t -> Vec.find (fun row => row !! "id" == Some (Integer 1)) (t_rows t) = Some row ->
  read_metadata row = Err e -> read_database file = Err e.
Proof. intros Ht Hf He. unfold read_database, table. rewrite Ht. cbn [of_option mbind result_bind]. by rewrite Hf, He. Qed.

(** A Control of the first release cannot be upgraded: migration 2 adds the
    column of the Relay CA's certificate as NULL, nothing ever fills it in, and
    [load], which reads it as bytes, fails at every start from then on. *)
Theorem first_release_cannot_be_upgraded t1 io clock m d file :
  migrate io clock (version_1_file t1 m d) = Ok file -> read_database file = Err "Invalid column type".
Proof.
  intros (f1 & H1 & (f2 & H2 & (f3 & H3 & H4)%bind_Ok)%bind_Ok)%bind_Ok.
  assert (E : f3 = file) by (by destruct io; [injection H4|]). subst f3. injection H1 as <-.
  change (migration_2 (clock 2) (version_1_file t1 m d) = Ok f2) in H2. apply bind_Ok in H2 as (g1 & G1 & (g2 & G2 & G3)%bind_Ok).
  injection G1 as <-. apply record_applied in G3 as (_ & _ & G3).
  assert (E2 : f2 TMetadata = Some {| t_columns := ["id"; "schema_version"; "audience"; "public_url"; "revision"; "relay_ca_der"];
    t_rows := [<["relay_ca_der" := Null]> (first_metadata_row m)] |}).
  { rewrite G3 by done. rewrite (touches_add_missing _ _ _ _ _ G2) by set_solver. done. }
  unfold once in H3. destruct (applied 3 f2); [injection H3 as <-; by eapply read_database_metadata|].
  apply bind_Ok in H3 as (h1 & K1 & (h2 & K2 & (h3 & K3 & (h4 & K4 & K5)%bind_Ok)%bind_Ok)%bind_Ok).
  assert (Hh : has_column f2 TMetadata "relay_revision" = false) by (unfold has_column; by rewrite E2).
  unfold add_missing in K1. rewrite Hh, (add_column_ok _ _ _ _ _ E2 Hh) in K1. injection K1 as <-.
  set (h0 := with_table TMetadata _ f2) in K2.
  assert (E3 : create_table TRevocations (columns_of TRevocations) h3 TMetadata = h0 TMetadata).
  { rewrite create_table_other by done.
    by rewrite (touches_add_credentials _ _ _ _ _ K3), (touches_add_credentials _ _ _ _ _ K2) by set_solver. }
  unfold h0 in E3. rewrite with_table_eq in E3.
  rewrite (update_rows_ok _ _ _ _ E3) in K4 by (apply map_Forall_insert_2; [done|]; apply map_Forall_empty).
  injection K4 as E4. apply record_applied in K5 as (_ & _ & K5).
  eapply read_database_metadata; [rewrite K5, <- E4 by done; apply with_table_eq|reflexivity|reflexivity].
Qed.

(** ** The upgraded network *)

Definition upgraded_state (now : Z) (st : ControlState) : ControlState := {|
  st_schema := STATE_SCHEMA; st_audience := st_audience st; st_public_url := st_public_url st;
  st_relay_ca_der := st_relay_ca_der st; st_revision := st_revision st; st_relay_revision := 1;
  st_clients := upgraded_client (st_revision st) now <$> st_clients st;
  st_edges := upgraded_edge (st_revision st) now <$> st_edges st; st_relays := st_relays st; st_invites := st_invites st;
  st_provisioners := st_provisioners st; st_revocations := [] |}.

(** Changing what no key, index or reference looks at *)
Section Mapped.
Context {T : Type} (key : T -> string) (f : T -> T).
Hypothesis same_key : forall x, key (f x) = key x.

Lemma table_fmap check l : (forall x, check (f x) = true) -> Keyed.table key check l -> Keyed.table key check (f <$> l).
Proof.
  intros Hc [Hu _]. split.
  - unfold Keyed.unique in *. rewrite <- list_fmap_compose. by rewrite (list_fmap_ext _ key) by (intros; apply same_key).
  - apply Vec.all_true. intros x (y & -> & _)%list_elem_of_fmap. apply Hc.
Qed.

Lemma secondary_fmap {K} (col : T -> option K) l :
  (forall x, col (f x) = col x) -> Keyed.secondary key col l -> Keyed.secondary key col (f <$> l).
Proof.
  intros Hc Hs a b v (x & -> & Hx)%list_elem_of_fmap (y & -> & Hy)%list_elem_of_fmap. rewrite !Hc, !same_key. by apply Hs.
Qed.

Lemma refers_fmap (col : T -> option string) l ids :
  (forall x, col (f x) = col x) -> Keyed.refers col l ids -> Keyed.refers col (f <$> l) ids.
Proof. intros Hc Hr x v (y & -> & Hy)%list_elem_of_fmap. rewrite Hc. by apply Hr. Qed.
End Mapped.

Lemma upgraded_fresh now : i64_min <= now -> now < i64_max -> now < i64_saturating_add now RELAY_CREDENTIAL_LIFETIME_SECS.
Proof. unfold i64_saturating_add, i64_clamp, i64_min, i64_max, RELAY_CREDENTIAL_LIFETIME_SECS. lia. Qed.

Lemma upgraded_ok now m d :
  db_ok d -> db_metadata d = Some m -> i64_min <= now -> now < i64_max -> db_ok (upgraded_database now m d).
Proof.
  intros Hok Hm Hlo Hhi. pose proof (upgraded_fresh now Hlo Hhi) as Hf. pose proof (ok_metadata d Hok m Hm) as Hmd.
  destruct Hok.
  assert (Hids : client_ids (upgraded_database now m d) = client_ids d).
  { unfold client_ids. cbn. rewrite <- list_fmap_compose. by apply list_fmap_ext. }
  assert (Hc : forall c, check_client (upgraded_client (md_revision m) now c) = true).
  { intros c. unfold check_client. cbn. apply andb_true_iff. split; apply Z.ltb_lt; lia. }
  assert (He : forall e, check_edge (upgraded_edge (md_revision m) now e) = true).
  { intros e. unfold check_edge. cbn. apply andb_true_iff. split; apply Z.ltb_lt; lia. }
  split; rewrite ?Hids; cbn [upgraded_database db_metadata db_provisioners db_clients db_edges db_revocations db_relays db_invitations];
    try done.
  - intros m' [= <-]. unfold check_metadata in *. cbn. rewrite !andb_true_iff in Hmd |- *. by destruct Hmd as [[[[? ?] ?] ?] _].
  - by apply table_fmap.
  - by apply secondary_fmap.
  - by apply refers_fmap.
  - by apply table_fmap.
  - by apply secondary_fmap.
  - by apply refers_fmap.
  - split; [constructor|done].
Qed.

Section Upgrade.
Context `{SerdeLaws Invite}.

Lemma upgraded_represents now d st :
  represents d st -> represents (upgraded_database now (metadata_of st) d) (upgraded_state now st).
Proof.
  intros []. split; cbn [upgraded_database db_metadata db_provisioners db_clients db_edges db_revocations db_relays db_invitations];
    try done; cbn; by f_equiv.
Qed.

End Upgrade.
