(* ===== verification/Startup.v ===== *)
(** * as-control: initialization, bootstrap and start-up (src/crates/as-control/src/main.rs)

    The state directory as Control's commands find and leave it: [init] writes
    the first snapshot, [bootstrap] prepares one Relay invitation before Control
    runs, [run] loads the snapshot, drops what has expired and stores it back.
    Shows that what [init] leaves can be run, that a restart keeps everything but
    expired records, and that the accounting of credentials survives any mix of
    requests and restarts. *)
From S2P Require Import Prelude Deps RelayApi ControlApi State Database ControlCore ControlHandlers.
From S2P Require Import ControlSpec ControlInvariant Sync.
From stdpp Require Import pretty.
Open Scope string_scope.
Open Scope Z_scope.
Import Vec.

Section Startup.
Context `{Keys, Encodings, !ControlSerde, !Certificates, !Urls}.
Context `{!Serde RelayCredential, !Serde SignedRelayCredential, !Serde RevocationUpdate}.

(** The files of the state directory, and the file given as
    [--relay-invite-out]. *)
Record StateDir := {
  sd_key : option SecretKey;
  sd_database : option Database;
  sd_ca_key : option bytes;
  sd_ca_cert : option bytes;
  sd_relay_invite : option string;
}.

Definition empty_dir : StateDir := {|
  sd_key := None; sd_database := None; sd_ca_key := None; sd_ca_cert := None;
  sd_relay_invite := None |}.

Definition with_key (dir : StateDir) key := {|
  sd_key := Some key; sd_database := sd_database dir; sd_ca_key := sd_ca_key dir;
  sd_ca_cert := sd_ca_cert dir; sd_relay_invite := sd_relay_invite dir |}.
Definition with_database (dir : StateDir) d := {|
  sd_key := sd_key dir; sd_database := Some d; sd_ca_key := sd_ca_key dir;
  sd_ca_cert := sd_ca_cert dir; sd_relay_invite := sd_relay_invite dir |}.
Definition with_ca (dir : StateDir) key_der cert_der := {|
  sd_key := sd_key dir; sd_database := sd_database dir; sd_ca_key := Some key_der;
  sd_ca_cert := Some cert_der; sd_relay_invite := sd_relay_invite dir |}.
Definition with_relay_invite (dir : StateDir) text := {|
  sd_key := sd_key dir; sd_database := sd_database dir; sd_ca_key := sd_ca_key dir;
  sd_ca_cert := sd_ca_cert dir; sd_relay_invite := Some text |}.

Definition exists_file {A} (file : option A) : bool := match file with Some _ => true | None => false end.

(** What one command draws and meets: a new identity, a new CA (its key and
    certificate), a clock reading, random bytes, whether SQLite's output
    succeeds and whether [control.lock] is free. *)
Record Boot := {
  b_key : SecretKey;
  b_ca_key : bytes;
  b_ca_cert : bytes;
  b_now : Z;
  b_random : nat -> bytes;
  b_io : bool;
  b_lock_free : bool;
}.

Definition initial_state (audience public_url : string) (relay_ca_der : bytes) : ControlState := {|
  st_schema := STATE_SCHEMA; st_audience := audience; st_public_url := public_url;
  st_relay_ca_der := relay_ca_der; st_revision := 0; st_relay_revision := 1;
  st_clients := []; st_edges := []; st_relays := []; st_invites := [];
  st_provisioners := []; st_revocations := [] |}.

Notation command A := (handler StateDir string A).
Import Handler.

(** [scale_core::load_or_create_secret(&key_path(dir))] *)
Definition load_or_create_key (boot : Boot) : command SecretKey := fun dir =>
  match sd_key dir with
  | Some key => (dir, Ok key)
  | None => (with_key dir (b_key boot), Ok (b_key boot))
  end.

Definition load_relay_ca (dir : StateDir) : result string (bytes * Issuer) :=
  key_der ← of_option (sd_ca_key dir) "read Relay CA key";
  cert_der ← of_option (sd_ca_cert dir) "read Relay CA certificate";
  issuer ← issuer_from_ca_cert_der key_der cert_der;
  Ok (cert_der, issuer).

Definition load_or_create_relay_ca (boot : Boot) : command (bytes * Issuer) := fun dir =>
  match sd_ca_key dir, sd_ca_cert dir with
  | Some _, Some _ => (dir, load_relay_ca dir)
  | None, None =>
      let dir := with_ca dir (b_ca_key boot) (b_ca_cert boot) in (dir, load_relay_ca dir)
  | _, _ => (dir, Err "incomplete Relay CA state: relay-ca.key and relay-ca.der must both exist")
  end.

(** [Database::create]: the migrated, empty file is there before the snapshot
    is written to it. *)
Definition create_database (boot : Boot) (state : ControlState) : command Database := fun dir =>
  let opened := default empty_database (sd_database dir) in
  match initialize_sync (b_io boot) state opened with
  | Ok d => (with_database dir d, Ok d)
  | Err e => (with_database dir opened, Err e)
  end.

(** [init] *)
Definition init (boot : Boot) (public_url audience : string) : command EndpointId :=
  require (negb (Str.is_blank audience)) "--audience must not be empty";;
  public_url ← lift (normalize_public_url public_url);
  dir ← get id;
  require (negb (exists_file (sd_key dir)) && negb (exists_file (sd_database dir)))
    "control state already exists";;
  key ← load_or_create_key boot;
  relay_ca ← load_or_create_relay_ca boot;
  create_database boot (initial_state audience public_url (fst relay_ca));;
  mret (public key).

(** [create_invite], which pushes the record it builds *)
Definition create_invite (boot : Boot) (key : SecretKey) (state : ControlState) (name : string)
  (kind : InviteKind) (ttl_secs : Z) : result string (InviteResult * ControlState) :=
  '(result, record) ← build_invite (b_random boot) (b_now boot) key state name kind ttl_secs
     (random_token (b_random boot) 32);
  Ok (result, with_invites state (st_invites state ++ [record])%list).

Definition is_pending_relay (invite : InviteRecord) : bool :=
  is_relay_kind (inv_kind (i_invite invite)) && (i_state invite == Pending).

(** [bootstrap], from the point where the snapshot is at hand: the snapshot it
    stores, and the invitation it hands out when no Relay is enrolled. *)
Definition bootstrap_state (boot : Boot) (key : SecretKey) (state : ControlState)
  (relay_name relay_url : string) (relay_ttl_secs : Z)
  : result string (ControlState * option InviteResult) :=
  match st_relays state with
  | [] =>
      let state := with_invites state
        (retain (fun invite => negb (is_relay_kind (inv_kind (i_invite invite))) ||
                               (i_state invite != Pending)) (st_invites state)) in
      '(result, state) ← create_invite boot key state relay_name (KRelay relay_url) relay_ttl_secs;
      Ok (state, Some result)
  | _ =>
      ensure (any (fun relay => (r_name relay == relay_name) && (r_url relay == relay_url))
                (st_relays state)) "configured Relay name or URL does not match durable state";;
      Ok (state, None)
  end.

(** [database.apply_sync(..)] on the file of the directory *)
Definition sync_database (boot : Boot) (previous next : ControlState) (d : Database)
  : command Database := fun dir =>
  match apply_sync (b_io boot) previous next d with
  | Ok d => (with_database dir d, Ok d)
  | Err e => (dir, Err e)
  end.

(** Either the durable snapshot or a first one. *)
Definition open_or_create (boot : Boot) (public_url audience : string)
  : command (SecretKey * Database * ControlState) :=
  dir ← get id;
  match sd_database dir with
  | Some database =>
      key ← lift (of_option (sd_key dir) "read identity control.key");
      state ← lift (load database);
      mret (key, database, state)
  | None =>
      key ← load_or_create_key boot;
      relay_ca ← load_or_create_relay_ca boot;
      let state := initial_state audience public_url (fst relay_ca) in
      database ← create_database boot state;
      mret (key, database, state)
  end.

Definition already_prepared (dir : StateDir) : bool :=
  exists_file (sd_key dir) && exists_file (sd_database dir) && exists_file (sd_ca_key dir) &&
  exists_file (sd_ca_cert dir) && exists_file (sd_relay_invite dir).

Definition newline : string := String (Ascii.ascii_of_nat 10) EmptyString.

Definition write_invitation (join_url : string) : command unit := fun dir =>
  (with_relay_invite dir (join_url ++ newline), Ok tt).

Definition bootstrap (boot : Boot) (public_url audience relay_name relay_url : string)
  (relay_ttl_secs : Z) : command unit :=
  lift (validate_name relay_name);;
  require (negb (Str.is_blank audience)) "--audience must not be empty";;
  public_url ← lift (normalize_public_url public_url);
  relay_url ← lift (normalize_relay_url relay_url);
  dir ← get id;
  if already_prepared dir then mret tt
  else
    require (b_lock_free boot)
      "control state is already in use; bootstrap must run before as-control run";;
    let key_exists := exists_file (sd_key dir) in
    let database_exists := exists_file (sd_database dir) in
    let ca_exists := exists_file (sd_ca_key dir) && exists_file (sd_ca_cert dir) in
    require (Bool.eqb key_exists database_exists && Bool.eqb database_exists ca_exists)
      "incomplete control state: control.key, control.db, relay-ca.key, and relay-ca.der must all exist or all be absent";;
    '(key, database, state) ← open_or_create boot public_url audience;
    require (st_audience state == audience)
      "configured Control audience does not match durable state";;
    require (st_public_url state == public_url)
      "configured Control public URL does not match durable state";;
    '(next, relay_invite) ← lift (bootstrap_state boot key state relay_name relay_url relay_ttl_secs);
    sync_database boot state next database;;
    match relay_invite with
    | Some invite => write_invitation (ir_join_url invite)
    | None => mret tt
    end.

(** [open_exclusive] and the part of [run] before the listeners start: the store
    Control serves requests from. *)
Definition control_start (boot : Boot) : command Store :=
  require (b_lock_free boot)
    "control state is already in use (stop as-control before offline bootstrap)";;
  dir ← get id;
  database ← lift (of_option (sd_database dir)
    "control database is missing; run `as-control init` to initialize a new network");
  key ← lift (of_option (sd_key dir) "read identity control.key");
  state ← lift (load database);
  '(relay_ca_der, relay_ca) ← lift (load_relay_ca dir);
  require (st_relay_ca_der state == relay_ca_der) "Relay CA files do not match control.db";;
  require (st_schema state == STATE_SCHEMA)
    ("unsupported state schema " ++ pretty (st_schema state));;
  let next := cleanup_revocations (cleanup_invitations state (b_now boot)) (b_now boot) in
  database ← sync_database boot state next database;
  mret {| s_database := database; s_key := key; s_relay_ca := relay_ca; s_state := next;
          s_changed := 0%nat; s_relay_changed := 0%nat; s_watches := ∅ |}.

(** ** Snapshots up to order *)

#[global] Instance cleanup_proper now :
  Proper (same_state ==> same_state)
    (fun st => cleanup_revocations (cleanup_invitations st now) now).
Proof.
  intros a b []. split; cbn; try done.
  - by apply retain_perm.
  - by f_equal.
Qed.

#[global] Instance issued_proper : Proper (same_state ==> eq ==> eq ==> eq ==> iff) issued.
Proof.
  intros a b [] id ? <- g ? <- x ? <-. unfold issued.
  by setoid_rewrite same_clients; setoid_rewrite same_edges.
Qed.

#[global] Instance accounted_proper : Proper (same_state ==> eq ==> eq ==> eq ==> iff) accounted.
Proof.
  intros a b [] id ? <- g ? <- x ? <-. unfold accounted, registered, revoked, issued.
  setoid_rewrite same_clients. setoid_rewrite same_edges. by setoid_rewrite same_revocations.
Qed.

#[global] Instance numbering_proper : Proper (same_state ==> iff) numbering_ok.
Proof.
  assert (Himp : forall a b, same_state a b -> numbering_ok a -> numbering_ok b).
  { intros a b [[=] ? Hc He Hv Hr ?] [Nc Ne Nr Nv]. unfold numbering_ok.
    replace (st_revision b) with (st_revision a). replace (st_relay_revision b) with (st_relay_revision a).
    split; intros y; [rewrite <- Hc; apply Nc|rewrite <- He; apply Ne|rewrite <- Hr; apply Nr|
      rewrite <- Hv; apply Nv]. }
  intros a b Hab. split; apply Himp; [done|by symmetry].
Qed.

(** ** Restarts *)

Context `{!ControlSerdeLaws}.
Variables (ca_key ca_cert : bytes) (ca : Issuer).
Hypothesis Hca : issuer_from_ca_cert_der ca_key ca_cert = Ok ca.

(** The directory a running Control leaves behind. *)
Definition store_dir (s : Store) : StateDir := {|
  sd_key := Some (s_key s); sd_database := Some (s_database s); sd_ca_key := Some ca_key;
  sd_ca_cert := Some ca_cert; sd_relay_invite := None |}.

(** What a store must satisfy to be run from its directory. *)
Record durable (s : Store) : Prop := {
  du_store : store_ok s;
  du_numbering : numbering_ok (s_state s);
  du_sized : sized (s_state s);
  du_schema : st_schema (s_state s) = STATE_SCHEMA;
  du_ca : st_relay_ca_der (s_state s) = ca_cert;
}.

Definition usable (boot : Boot) : Prop := b_io boot = true /\ b_lock_free boot = true.

Definition cleaned (now : Z) (st : ControlState) : ControlState :=
  cleanup_revocations (cleanup_invitations st now) now.

Lemma cleaned_trimmed now st :
  cleaned now st = trimmed
    (fun invite => now <? i64_saturating_add (invite_terminal now invite) INVITATION_RETENTION_SECS)
    (fun r => now <? v_expires_at r) st [].
Proof. unfold cleaned, trimmed, cleanup_revocations, cleanup_invitations. by rewrite app_nil_r. Qed.

Lemma numbering_cleaned now st : numbering_ok st -> numbering_ok (cleaned now st).
Proof.
  intros [Nc Ne Nr Nv]. split; cbn; [done..|]. intros v [? _]%elem_of_retain. by apply Nv.
Qed.

Lemma restart_ok boot s :
  durable s -> usable boot ->
  exists s', control_start boot (store_dir s) = (store_dir s', Ok s') /\ durable s' /\
    same_state (s_state s') (cleaned (b_now boot) (s_state s)) /\ s_key s' = s_key s.
Proof.
  intros [[Hok Hrep] Hn Hz Hs Hc] [Hio Hl].
  destruct (load_same _ _ Hok Hrep Hs) as (st & Hload & Hst).
  rewrite <- Hst in Hn. rewrite <- Hst in Hrep.
  injection (same_metadata _ _ Hst) as E1 E2 E3 E4 E5 E6.
  destruct (apply_sync_trimmed
    (fun invite => b_now boot <? i64_saturating_add (invite_terminal (b_now boot) invite)
                     INVITATION_RETENTION_SECS)
    (fun r => b_now boot <? v_expires_at r) st [] (s_database s)) as (d' & Ha & Hd').
  - done.
  - unfold sized. by rewrite E5, E6.
  - intros v Hv. by apply Hn.
  - constructor.
  - constructor.
  - by intros ? ? ?%not_elem_of_nil.
  - rewrite <- cleaned_trimmed in Ha, Hd'.
    exists {| s_database := d'; s_key := s_key s; s_relay_ca := ca; s_state := cleaned (b_now boot) st;
              s_changed := 0%nat; s_relay_changed := 0%nat; s_watches := ∅ |}.
    split; [|split; [|split; [by apply (cleanup_proper (b_now boot))|done]]].
    + unfold control_start, sync_database, mbind, handler_bind, require, get, lift, mret, handler_ret. cbn.
      rewrite Hl, Hload. cbn. unfold load_relay_ca. cbn. rewrite Hca. cbn.
      rewrite !bool_decide_eq_true_2 by congruence. cbn. unfold cleaned in Ha. by rewrite Hio, Ha.
    + split; cbn; [done|by apply numbering_cleaned| |congruence..]. unfold sized. cbn. by rewrite E5, E6.
Qed.

Lemma restart_accounted now st id g x :
  accounted st id g x -> accounted (cleaned now st) id g x \/ x <= now.
Proof.
  intros [Hr|(v & Hv & Hid & ? & ?)]; [left; by left|].
  destruct (Z.ltb_spec now (v_expires_at v)) as [Hl|Hl]; [left; right|right; lia].
  exists v. cbn. rewrite elem_of_retain, Z.ltb_lt. done.
Qed.

(** ** Control's whole life: requests and restarts *)

Lemma commit_sized io delta s s' :
  store_ok s -> commit_delta io delta s = (s', Ok tt) ->
  sized (s_state s') /\ metadata_of (s_state s') =
    metadata_of (with_revisions (s_state s) (st_revision (s_state s')) (st_relay_revision (s_state s'))).
Proof.
  intros [Hok Hrep] Hc. unfold commit_delta in Hc.
  destruct (next_revision _ _) as [r|]; [|done].
  destruct (next_relay_revision _ _) as [rr|]; [|done]. cbn [mbind result_bind] in Hc.
  destruct (apply_delta_sync _ _ _ _ _ _ _) as [d|e] eqn:E3; [|done].
  injection Hc as <-. cbn.
  pose proof (apply_delta_sync_spec io (st_revision (s_state s)) (st_relay_revision (s_state s))
    r rr delta _ _ Hok Hrep) as Hr. rewrite E3 in Hr. destruct Hr as (Ha & Hd & Hrep').
  pose proof (ok_metadata _ Hd _ (rep_metadata _ _ Hrep')) as Hm.
  unfold commit_accepted in Ha. unfold check_metadata in Hm. cbn in Hm. run_ok.
  split; [unfold sized; cbn; lia|].
  injection (fold_revisions (d_changes delta) (s_state s)) as E1 E2 E4 E5 _ _.
  unfold metadata_of, delta_apply. cbn. by rewrite E1, E2, E4, E5.
Qed.

Lemma perform_durable env op s : durable s -> durable (perform env op s).
Proof.
  intros [Hok Hn Hz Hs Hc].
  destruct (mutates_perform env op s) as [->|(now & delta & _ & _ & io & Hcd)]; [done|].
  destruct (commit_sized _ _ _ _ Hok Hcd) as [? [= Es _ _ Ec]].
  split; [by apply perform_ok|by apply perform_numbering|done|by rewrite Es|by rewrite Ec].
Qed.

Inductive LifeEvent :=
| Served (env : Env) (op : Operation)
| Restarted (boot : Boot).

(** A start that fails leaves the directory, and so the next start, as it was. *)
Definition live (s : Store) (event : LifeEvent) : Store :=
  match event with
  | Served env op => perform env op s
  | Restarted boot => match control_start boot (store_dir s) with
                      | (_, Ok s') => s'
                      | (_, Err _) => s
                      end
  end.

(** Some clock reading of this life had reached [x]. *)
Definition reached (x : Z) (event : LifeEvent) : Prop :=
  match event with
  | Served env _ => x <= env_received env \/ x <= env_now env
  | Restarted boot => x <= b_now boot
  end.

(** A start that cannot write or lock stops. *)
Lemma unusable_start boot s :
  durable s -> ~ usable boot -> live s (Restarted boot) = s.
Proof.
  intros Hd Hu. cbn. unfold control_start, sync_database, mbind, handler_bind, require, get, lift. cbn.
  destruct (b_lock_free boot) eqn:Hl; [|done]. cbn.
  destruct (b_io boot) eqn:Hio; [by destruct Hu|].
  destruct (load _) as [st|]; [|done]. cbn. rewrite Hca. cbn.
  destruct (ensure _ _); [|done]. destruct (ensure _ _); [|done].
  destruct (apply_sync false _ _ _) as [d|] eqn:E; [|done].
  exfalso. unfold apply_sync in E. by run_ok.
Qed.

Lemma live_durable event s : durable s -> durable (live s event).
Proof.
  intros Hd. destruct event as [env op|boot]; [by apply perform_durable|].
  destruct (decide (b_io boot = true /\ b_lock_free boot = true)) as [Hu|Hu].
  - destruct (restart_ok boot s Hd Hu) as (s' & E & ? & _). cbn. by rewrite E.
  - by rewrite unusable_start.
Qed.

Lemma lives_durable events s : durable s -> durable (fold_left live events s).
Proof.
  revert s. induction events as [|event events IH]; intros s Hd; [done|]. by apply IH, live_durable.
Qed.

Lemma live_accounted event s id g x :
  durable s -> accounted (s_state s) id g x ->
  accounted (s_state (live s event)) id g x \/ reached x event.
Proof.
  intros Hd Ha. destruct event as [env op|boot].
  - destruct (run_accounted [(env, op)] s id g x (du_store _ Hd) Ha) as [?|(? & ? & Hin & ?)]; [by left|].
    apply list_elem_of_singleton in Hin. injection Hin as -> ->. by right.
  - destruct (decide (b_io boot = true /\ b_lock_free boot = true)) as [Hu|Hu].
    + destruct (restart_ok boot s Hd Hu) as (s' & E & _ & Hs & _). cbn. rewrite E, Hs.
      by apply restart_accounted.
    + rewrite unusable_start by done. by left.
Qed.

(** C4. Control can be stopped and restarted at any point: through any mix of
    requests, cleanups and restarts, successful or not, the database stays
    consistent with the snapshot and can be started from again, and every
    credential that was issued stays registered or covered by a revocation until
    a clock reading of that life shows it has expired. *)
Theorem credentials_survive_restarts events s id g x :
  durable s -> issued (s_state s) id g x ->
  durable (fold_left live events s) /\
  (accounted (s_state (fold_left live events s)) id g x \/ Exists (reached x) events).
Proof.
  intros Hd Hi. assert (Ha : accounted (s_state s) id g x) by (left; by exists x). clear Hi.
  revert s Hd Ha. induction events as [|event events IH]; intros s Hd Ha; cbn; [by auto|].
  pose proof (live_durable event s Hd) as Hd'.
  destruct (live_accounted event s id g x Hd Ha) as [Ha'|Hr].
  - destruct (IH _ Hd' Ha') as [? [?|?]]; split; auto.
  - split; [by apply lives_durable|right; by constructor].
Qed.

(** ** Initialization *)

Lemma is_blank_nonempty audience : Str.is_blank audience = false -> audience <> "".
Proof. by intros Hb ->. Qed.

Lemma initialize_initial audience public_url :
  audience <> "" -> public_url <> "" -> ca_cert <> [] ->
  exists d, initialize_sync true (initial_state audience public_url ca_cert) empty_database = Ok d.
Proof.
  intros Ha Hu Hc. eexists. unfold initialize_sync. cbn.
  unfold check_metadata. cbn. rewrite !bool_decide_eq_false_2 by done. reflexivity.
Qed.

Lemma keyed_initial audience public_url der : keyed (initial_state audience public_url der).
Proof. split; constructor. Qed.

Lemma same_initial st audience public_url der :
  same_state st (initial_state audience public_url der) -> st = initial_state audience public_url der.
Proof.
  intros [[= ] Hp Hc He Hv Hr Hi]. destruct st; cbn in *.
  apply Permutation_nil_r in Hp, Hc, He, Hv, Hr. by subst.
Qed.

(** A network can be initialized and run: in an empty directory [init]
    succeeds for any audience that is not blank and any public URL that
    normalizes, and starting Control on what it leaves succeeds, with the new
    key, the normalized URL and an empty, consistent registry. *)
Theorem init_then_run boot boot' url url' audience :
  normalize_public_url url = Ok url' -> url' <> "" -> Str.is_blank audience = false ->
  b_ca_key boot = ca_key -> b_ca_cert boot = ca_cert -> ca_cert <> [] -> b_io boot = true ->
  usable boot' ->
  exists dir s, init boot url audience empty_dir = (dir, Ok (public (b_key boot))) /\
    control_start boot' dir = (store_dir s, Ok s) /\ durable s /\ s_key s = b_key boot /\
    s_state s = initial_state audience url' ca_cert.
Proof.
  intros Hn Hu Hb Hk Hc Hne Hio Hu'.
  destruct (initialize_initial audience url') as (d & Hd); [by apply is_blank_nonempty|done..|].
  pose proof (initialize_sync_stores _ _ _ _ db_ok_empty (keyed_initial audience url' ca_cert) Hd) as Hs.
  set (s0 := {| s_database := d; s_key := b_key boot; s_relay_ca := ca;
    s_state := initial_state audience url' ca_cert; s_changed := 0%nat; s_relay_changed := 0%nat;
    s_watches := ∅ |}).
  assert (Hd0 : durable s0).
  { split; [exact Hs|split; by intros ? ?%not_elem_of_nil| |done..].
    unfold sized, i64_max; cbn; lia. }
  destruct (restart_ok boot' s0 Hd0 Hu') as (s & Hst & Hds & Hsame & Hkey).
  exists (store_dir s0), s. split; [|split_and!; [done..|]].
  - unfold init, create_database, load_or_create_key, load_or_create_relay_ca, mbind, handler_bind,
      require, get, lift, mret, handler_ret. rewrite Hb, Hn. cbn -[initialize_sync].
    rewrite Hk, Hc, Hca. cbn -[initialize_sync]. by rewrite Hio, Hd.
  - by apply same_initial.
Qed.

Lemma initialize_fails st : exists e, initialize_sync false st empty_database = Err e.
Proof.
  destruct (initialize_sync false st empty_database) as [d|e] eqn:E; [|by exists e].
  exfalso. unfold initialize_sync in E. by run_ok.
Qed.

(** An interrupted initialization cannot be completed: when writing the
    first snapshot fails, the key, the CA and an empty database stay behind,
    starting Control then fails with the advice to run [as-control init], and
    running [init] again is always refused. *)
Theorem interrupted_init_is_stuck boot boot' url url' audience :
  normalize_public_url url = Ok url' -> Str.is_blank audience = false ->
  b_ca_key boot = ca_key -> b_ca_cert boot = ca_cert -> b_io boot = false ->
  b_lock_free boot' = true ->
  exists dir, (exists e, init boot url audience empty_dir = (dir, Err e)) /\
    control_start boot' dir = (dir, Err
      "database is not initialized; run `as-control init` to initialize a new network") /\
    forall boot2 url2 audience2, exists e, init boot2 url2 audience2 dir = (dir, Err e).
Proof.
  intros Hn Hb Hk Hc Hio Hl.
  exists {| sd_key := Some (b_key boot); sd_database := Some empty_database; sd_ca_key := Some ca_key;
    sd_ca_cert := Some ca_cert; sd_relay_invite := None |}. split_and!.
  - destruct (initialize_fails (initial_state audience url' ca_cert)) as [e He]. exists e.
    unfold init, create_database, load_or_create_key, load_or_create_relay_ca, mbind, handler_bind,
      require, get, lift. rewrite Hb, Hn. cbn -[initialize_sync]. rewrite Hk, Hc, Hca.
    cbn -[initialize_sync]. by rewrite Hio, He.
  - unfold control_start, mbind, handler_bind, require, get, lift. by rewrite Hl.
  - intros boot2 url2 audience2. unfold init, mbind, handler_bind, require, get, lift.
    destruct (ensure _ _); [|by eauto]. destruct (normalize_public_url url2); by eauto.
Qed.

(** ** Bootstrap *)

Definition unclaimed_relay (invite : InviteRecord) : bool :=
  negb (is_relay_kind (inv_kind (i_invite invite))) || (i_state invite != Pending).

Lemma bootstrap_state_trimmed boot key st name url ttl next invite :
  st_relays st = [] -> bootstrap_state boot key st name url ttl = Ok (next, invite) ->
  exists result record,
    build_invite (b_random boot) (b_now boot) key (trimmed unclaimed_relay (fun _ => true) st [])
      name (KRelay url) ttl (random_token (b_random boot) 32) = Ok (result, record) /\
    invite = Some result /\ next = trimmed unclaimed_relay (fun _ => true) st [record].
Proof.
  intros Hr Hb. unfold bootstrap_state in Hb. rewrite Hr in Hb.
  apply bind_Ok in Hb as ([result st'] & Hc & [= <- <-]).
  apply bind_Ok in Hc as ([result' record] & Hc & [= <- <-]). exists result', record.
  unfold trimmed. rewrite (retain_all (fun _ => true)), app_nil_r by done.
  split_and!; [|done|by destruct st]. by destruct st.
Qed.

(** Bootstrap prepares exactly one Relay invitation: on the directory of any
    Control that has no Relay yet, a successful [bootstrap] leaves a directory
    Control can run from, with the one pending Relay invitation it wrote to the
    output file and everything else as it was. *)
Theorem bootstrap_prepares_one_relay boot s url audience name relay_url ttl dir' :
  durable s -> st_relays (s_state s) = [] ->
  (forall i, i ∈ st_invites (s_state s) -> i_id i <> random_token (b_random boot) 16) ->
  bootstrap boot url audience name relay_url ttl (store_dir s) = (dir', Ok tt) ->
  exists s' result record relay_url', durable s' /\ s_key s' = s_key s /\
    dir' = with_relay_invite (store_dir s') (ir_join_url result ++ newline) /\
    normalize_relay_url relay_url = Ok relay_url' /\
    inv_name (i_invite record) = name /\ inv_kind (i_invite record) = KRelay relay_url' /\
    i_state record = Pending /\
    same_state (s_state s') (with_invites (s_state s)
      (retain unclaimed_relay (st_invites (s_state s)) ++ [record])%list).
Proof.
  intros [[Hok Hrep] Hn Hz Hs Hc] Hrel Hf Hb. unfold bootstrap in Hb.
  do 5 hstep Hb. cbn in Hb. do 2 hstep Hb.
  destruct (load_same _ _ Hok Hrep Hs) as (st & Hload & Hst).
  rewrite (bind_eq_Ok _ _ _ (store_dir s) (s_key s, s_database s, st)) in Hb
    by (unfold open_or_create, mbind, handler_bind, get, lift; cbn; by rewrite Hload).
  cbv beta iota in Hb. do 3 hstep Hb.
  assert (Hrl : st_relays st = []).
  { apply Permutation_nil_r. rewrite <- Hrel. apply Hst. }
  destruct (bootstrap_state_trimmed _ _ _ _ _ _ _ _ Hrl E7) as (result & record & Hbi & -> & ->).
  destruct (build_invite_Ok _ _ _ _ _ _ _ _ _ _ Hbi) as (Hid & Hp & _ & _ & _ & _ & Hnm & Hkd & _).
  unfold mbind, handler_bind, sync_database in Hb.
  destruct (apply_sync _ _ _ _) as [d1|] eqn:Ha; [|done].
  injection Hb as <-. rewrite <- Hst in Hn. rewrite <- Hst in Hrep.
  injection (same_metadata _ _ Hst) as M1 M2 M3 M4 M5 M6.
  apply sync_trimmed_stores in Ha; [|done|..].
  2: { unfold Keyed.unique. apply NoDup_singleton. }
  2: { intros i j ->%list_elem_of_singleton Hj. rewrite Hid. apply Hf. by rewrite <- (same_invites _ _ Hst). }
  exists {| s_database := d1; s_key := s_key s; s_relay_ca := s_relay_ca s;
    s_state := trimmed unclaimed_relay (fun _ => true) st [record];
    s_changed := 0%nat; s_relay_changed := 0%nat; s_watches := ∅ |}, result, record, a0.
  split_and!; try done.
  - split; cbn; [done| |unfold sized; cbn; by rewrite M5, M6|congruence..].
    destruct Hn. split; cbn; [done..|]. intros v [? _]%elem_of_retain. auto.
  - destruct Hst. split; cbn; rewrite ?(retain_all (fun _ => true)) by done; try done.
    by rewrite same_invites.
Qed.
End Startup.
