(* ===== verification/NodeMaps.v ===== *)
(** * as-control: node maps and revocation updates

    What a node map grants and that a registered node always gets one, and the
    signed revocation updates Relays receive. *)
From S2P Require Import Prelude Deps RelayApi ControlApi State Database ControlCore ControlHandlers.
From S2P Require Import ControlSpec ControlInvariant.
Open Scope string_scope.
Open Scope Z_scope.
Import Vec.

Section NodeMaps.
Context `{KeysLaws, EncodingsLaws, !ControlSerde, !Certificates, !Urls}.
Context `{!Serde RelayCredential, !Serde SignedRelayCredential, !Serde RevocationUpdate}.
Implicit Types (s : Store) (st : ControlState).

Lemma sign_relay_credential_Ok `{!SerdeLaws SignedRelayCredential} st key id kind g a x token :
  sign_relay_credential st key id kind g a x = Ok token ->
  exists c, credential_decode token = Ok c /\ credential_verify c (public key) = Ok tt /\
    credential_validate (src_credential c) = Ok tt /\
    rc_audience (src_credential c) = st_audience st /\
    rc_endpoint_id (src_credential c) = id_to_string id /\ rc_kind (src_credential c) = kind /\
    rc_generation (src_credential c) = g /\ rc_issued_at (src_credential c) = a /\
    rc_expires_at (src_credential c) = x.
Proof.
  unfold sign_relay_credential, credential_sign, credential_encode. intros Hs. run_ok.
  repeat match goal with u : unit |- _ => destruct u end. eexists. split.
  - unfold credential_decode. rewrite b64_decode_encode. cbn. by rewrite from_slice_to_vec.
  - split; [|done]. unfold credential_verify; cbn. prove_ok; [done|]. apply id_verify_sign.
Qed.

Lemma issued_credential `{!SerdeLaws SignedRelayCredential} st key id kind g a x token :
  sign_relay_credential st key id kind g a x = Ok token -> issued st (id_to_string id) g x ->
  exists c, credential_decode token = Ok c /\ credential_verify c (public key) = Ok tt /\
    credential_validate (src_credential c) = Ok tt /\
    rc_endpoint_id (src_credential c) = id_to_string id /\
    issued st (id_to_string id) (rc_generation (src_credential c)) (rc_expires_at (src_credential c)).
Proof.
  intros (c & ? & ? & ? & _ & ? & _ & <- & _ & <-)%sign_relay_credential_Ok ?. by exists c.
Qed.

Lemma signed_map_verifies now st key recipient m :
  signed_map now st key recipient = Ok m -> node_map_verify m (public key) recipient = Ok tt.
Proof.
  intros Hm. unfold signed_map in Hm. run_ok. destruct x as [[credential allowed] edges].
  unfold node_map_sign in Hm. run_ok.
  unfold node_map_verify, ensure_protocol_version; cbn. prove_ok; try done. apply id_verify_sign.
Qed.


(** ** A registered node always gets its map *)

Lemma sign_relay_credential_total st key id kind g a x :
  st_audience st <> "" -> 0 < g -> a < x -> exists token, sign_relay_credential st key id kind g a x = Ok token.
Proof.
  intros. eexists. unfold sign_relay_credential, credential_sign.
  apply bind_Ok. eexists. split; [|reflexivity]. apply bind_Ok. exists tt. split; [|reflexivity].
  apply credential_validate_Ok. cbn. rewrite !id_parse_to_string. eauto 10.
Qed.

Lemma signed_map_total now st key recipient :
  state_ok st ->
  (exists c, c ∈ st_clients st /\ c_endpoint_id c = id_to_string recipient) \/
  (exists e, e ∈ st_edges st /\ e_endpoint_id e = id_to_string recipient) \/
  (exists r, r ∈ st_relays st /\ r_endpoint_id r = id_to_string recipient) ->
  exists m, signed_map now st key recipient = Ok m.
Proof.
  intros Hok Hin. pose proof (so_metadata st Hok) as Hm. unfold check_metadata in Hm; cbn in Hm. breflect.
  assert (Hg : exists g, map_grants st key recipient = Ok g).
  { unfold map_grants. destruct (find (fun edge => e_endpoint_id edge == _) _) as [e|] eqn:Ee.
    - apply find_Some in Ee as [He _]. pose proof (so_edges st Hok) as [_ Hc].
      eapply all_true in Hc; [|exact He]. unfold check_edge in Hc. breflect.
      edestruct (sign_relay_credential_total st key recipient SubjectEdge (e_generation e))
        as [token Ht]; [done..|]. rewrite Ht. cbn. eauto.
    - destruct (find (fun client => c_endpoint_id client == _) _) as [c|] eqn:Ec.
      + apply find_Some in Ec as [Hc0 _]. pose proof (so_clients st Hok) as [_ Hc].
        eapply all_true in Hc; [|exact Hc0]. unfold check_client in Hc. breflect.
        edestruct (sign_relay_credential_total st key recipient SubjectClient (c_generation c))
          as [token Ht]; [done..|]. rewrite Ht. cbn. eauto.
      + eexists. prove_ok. rewrite find_None in Ee. rewrite find_None in Ec.
        destruct Hin as [(c & Hc & E)|[(e & He & E)|(r & Hr & E)]].
        * apply Ec in Hc. by breflect.
        * apply Ee in He. by breflect.
        * apply any_true. exists r. split; [done|by apply bool_decide_eq_true]. }
  destruct Hg as [[[credential allowed] edges] Hg]. eexists. unfold signed_map. rewrite Hg. done.
Qed.

(** ** Revocation updates *)

(** The Relay-side form of a revocation record. *)
Definition revocation_of (v : RevocationRecord) : Revocation := {|
  rv_endpoint_id := v_endpoint_id v; rv_revoked_through_generation := v_generation v;
  rv_expires_at := v_expires_at v; rv_revision := v_revision v |}.

Lemma elem_of_update now st known r :
  r ∈ ru_revocations (revocation_update now st known) <->
  exists v, v ∈ st_revocations st /\ known < v_revision v /\ r = revocation_of v.
Proof.
  cbn. rewrite list_elem_of_fmap. setoid_rewrite elem_of_retain. setoid_rewrite Z.ltb_lt.
  naive_solver.
Qed.

Lemma update_sign_total now st known key :
  state_ok st -> numbering_ok st ->
  exists u, update_sign (revocation_update now st known) key = Ok u /\
    sru_update u = revocation_update now st known /\ update_verify u (public key) = Ok tt.
Proof.
  intros Hok Hn. pose proof (so_metadata st Hok) as Hm. unfold check_metadata in Hm; cbn in Hm. breflect.
  eexists. split_and!.
  - unfold update_sign. apply bind_Ok. exists tt. split; [|reflexivity]. apply update_validate_Ok.
    split_and!; [done..|]. apply Forall_forall. intros r (v & Hv & _ & ->)%elem_of_update. cbn.
    destruct (no_revocations _ _ _ Hn v Hv) as (_ & ? & [id ->]). rewrite id_parse_to_string.
    pose proof (so_revocations st Hok) as [_ Hc]. eapply all_true in Hc; [|exact Hv].
    unfold check_revocation in Hc. breflect. split_and!; eauto; lia.
  - done.
  - unfold update_verify; cbn. prove_ok. apply id_verify_sign.
Qed.

(** Control can always answer a Relay: from any reachable store, the
    revocation update for any known revision passes its own validation and is
    signed, verifies under Control's identity, and carries every revocation that
    is newer than what the Relay knows. *)
Theorem revocation_update_signs now ops s known :
  store_ok s -> numbering_ok (s_state s) ->
  let st := s_state (run ops s) in
  exists u, update_sign (revocation_update now st known) (s_key s) = Ok u /\
    update_verify u (public (s_key s)) = Ok tt /\
    ru_version (sru_update u) = st_relay_revision st /\
    (forall v, v ∈ st_revocations st -> known < v_revision v ->
       revocation_of v ∈ ru_revocations (sru_update u)).
Proof.
  intros Hok Hn st. destruct (update_sign_total now st known (s_key s)) as (u & Hu & Eu & Hv).
  - by apply store_ok_state, run_store_ok.
  - by apply run_numbering.
  - exists u. rewrite Eu. split_and!; try done. intros v ? ?. apply elem_of_update. eauto.
Qed.
End NodeMaps.
