(* ===== verification/Enrollment.v ===== *)
(** * as-control: enrollment end to end

    From an invitation the operator creates to the node it admits: nothing is
    enrolled without the invitation's secret, a valid claim of a pending
    invitation succeeds, and repeating it changes nothing. *)
From S2P Require Import Prelude Deps RelayApi ControlApi State Database ControlCore ControlHandlers.
From S2P Require Import ControlSpec ControlInvariant NodeMaps.
Open Scope string_scope.
Open Scope Z_scope.
Import Vec.

Section Enrollment.
Context `{KeysLaws, EncodingsLaws, !ControlSerde, !Certificates, !Urls}.
Context `{!Serde RelayCredential, !Serde SignedRelayCredential, !Serde RevocationUpdate}.
Implicit Types (s : Store) (st : ControlState) (env : Env).

(** Control's answer to a claim, as a node sees it *)
Definition claim_answer env s (request : ClaimRequest) : result string JoinResult :=
  map_err ae_message (snd (claim env request s)).

(** ** No enrollment without the secret *)

(** C16. A claim that succeeds proves the right to enroll: its token is the one
    Control signed for a stored invitation that had not expired when the claim
    arrived, its secret hashes to the invitation's, the claimant signed for the
    identity it enrolls, and the invitation was pending or already claimed by
    that very identity. *)
Theorem claim_requires_secret env request s s' r :
  claim env request s = (s', Ok r) ->
  exists record control id,
    record ∈ st_invites (s_state s) /\ i_invite record = jt_invite (cr_token request) /\
    hash_secret (jt_secret (cr_token request)) = inv_secret_hash (i_invite record) /\
    inv_control_id (i_invite record) = id_to_string (public (s_key s)) /\
    id_parse (inv_control_id (i_invite record)) = Some control /\
    id_verify control (domain_bytes INVITE_DOMAIN (i_invite record))
      (jt_signature (cr_token request)) = true /\
    id_parse (cl_endpoint_id (cr_claim request)) = Some id /\
    id_verify id (domain_bytes CLAIM_DOMAIN (cr_claim request)) (cr_signature request) = true /\
    env_received env <= inv_expires_at (i_invite record) /\
    (i_state record = Pending \/
     i_state record = Claimed /\ i_claimed_by record = Some (cl_endpoint_id (cr_claim request))).
Proof.
  intros Hr. unfold claim in Hr. hrun Hr; try done. unfold claim_mutation in Hr.
  hrun Hr; try done; (edestruct claim_record as (? & Einv & ?); [done..|]);
    unfold claim_checks, token_verify, claim_verify, validate_token_for_state in *; run_ok;
    rewrite ?Einv; match goal with E : i_state ?i = _ |- _ => exists i end;
    do 2 eexists; rewrite ?Einv; split_and!; try done; eauto.
Qed.

(** ** A valid claim of a pending invitation succeeds *)

Lemma lifetime_follows now : i64_min <= now < i64_max ->
  now < i64_saturating_add now RELAY_CREDENTIAL_LIFETIME_SECS.
Proof.
  unfold i64_saturating_add, i64_clamp, RELAY_CREDENTIAL_LIFETIME_SECS, i64_min, i64_max. lia.
Qed.

(** Putting back an invitation of the snapshot in a terminal state. *)
Lemma admissible_terminated rr st i state claimed now :
  Keyed.secondary i_id i_request_id (st_invites st) -> i ∈ st_invites st -> state <> Pending ->
  (forall owner, inv_kind (i_invite i) = KEdge owner ->
     any (fun c => c_endpoint_id c == owner) (st_clients st) = true) ->
  admissible rr st (PutInvite (invite_terminated state claimed now i)) = true.
Proof.
  intros Hs Hi Hst Ho. cbn. rewrite !andb_true_iff. split_and!.
  - by rewrite !bool_decide_eq_false_2.
  - eapply Keyed.secondary_free_same; [done|exact Hi|done..].
  - destruct (inv_kind (i_invite i)) eqn:E; try done. by apply Ho.
Qed.

(** The change an enrollment makes is one the database accepts. *)
Lemma enroll_admissible st invite id managed port now change :
  state_ok st -> port <> Some 0 -> (forall p, port = Some p -> 0 <= p <= u16_max) ->
  claimed_node_change st invite id managed port (st_revision st + 1) now = Ok change ->
  st_revision st < i64_max -> i64_min <= now < i64_max ->
  admissible (st_relay_revision st) st change = true.
Proof.
  intros Hok Hp0 Hp Hc Hrev Hnow.
  pose proof (so_metadata st Hok) as Hm. unfold check_metadata in Hm; cbn in Hm. breflect.
  pose proof (lifetime_follows now Hnow).
  assert (Hnone : forall {T} (p : T -> bool) l y, any p l = false -> y ∈ l -> p y = false).
  { intros T p l y Ha Hy. by eapply any_false in Ha. }
  unfold claimed_node_change in Hc. destruct (inv_kind invite) as [|owner|url]; run_ok;
    cbn -[Keyed.secondary_free any]; unfold check_client, check_edge, check_relay; prove_ok;
    cbn -[Keyed.secondary_free any]; try lia; try done;
    try (apply Keyed.secondary_free_none; intros y Hy;
         unfold client_name_key, edge_name_key, relay_name_key, relay_url_key; cbn;
         eapply Hnone in Hy; [|eassumption]; cbn in Hy; run_ok; try congruence).
  - match goal with E : (_ && _)%bool = false |- _ => apply andb_false_iff in E as [?|?] end;
      breflect; congruence.
  - destruct port as [p|]; [|done]. specialize (Hp p eq_refl). unfold u16_max in Hp.
    prove_ok; [|lia]. assert (p <> 0) by congruence. lia.
Qed.

(** The enrolled node is registered afterwards. *)
Lemma claimed_node_registered st invite id managed port gen now change :
  state_ok st -> claimed_node_change st invite id managed port gen now = Ok change ->
  let st' := apply_change st change in
  (exists c, c ∈ st_clients st' /\ c_endpoint_id c = id_to_string id) \/
  (exists e, e ∈ st_edges st' /\ e_endpoint_id e = id_to_string id) \/
  (exists r, r ∈ st_relays st' /\ r_endpoint_id r = id_to_string id).
Proof.
  intros Hok Hc. pose proof Hok as [? [Huc _] ? [Hue _] ? ? [Hur _] ? ? ? ? ? ?].
  unfold claimed_node_change in Hc. destruct (inv_kind invite); run_ok; cbn;
    [left|right; left|right; right]; eexists; rewrite elem_of_upsert_record by done;
    (split; [by left|done]).
Qed.

Lemma claim_pending_total env record id port certificate change s :
  store_ok s -> record ∈ st_invites (s_state s) -> env_io env = true ->
  port <> Some 0 -> (forall p, port = Some p -> 0 <= p <= u16_max) ->
  claimed_node_change (s_state s) (i_invite record) id (i_managed_by record) port
    (st_revision (s_state s) + 1) (env_received env) = Ok change ->
  st_revision (s_state s) < i64_max -> st_relay_revision (s_state s) <= i64_max ->
  i64_min <= env_received env < i64_max ->
  exists s' m,
    claim_pending env record id port certificate s =
      (s', Ok {| jr_name := inv_name (i_invite record); jr_kind := inv_kind (i_invite record);
                 jr_map := m; jr_relay_tls_certificate_der := certificate |}) /\
    s_state s' = with_revisions (delta_apply (delta_topology [change;
        PutInvite (invite_terminated Claimed (Some (id_to_string id)) (env_received env) record)])
      (s_state s)) (st_revision (s_state s) + 1) (st_relay_revision (s_state s)) /\
    s_key s' = s_key s /\ s_relay_ca s' = s_relay_ca s /\ store_ok s' /\
    signed_map (env_now env) (s_state s') (s_key s) id = Ok m.
Proof.
  intros Hok Hin Hio Hp0 Hp Hc Hrev Hrel Hnow. pose proof (store_ok_state s Hok) as Hst.
  assert (Hnext : u64_checked_add (st_revision (s_state s)) 1 = Some (st_revision (s_state s) + 1)).
  { apply u64_checked_add_Some. unfold u64_max, i64_max in *. lia. }
  destruct (commit_delta_total (delta_topology [change;
      PutInvite (invite_terminated Claimed (Some (id_to_string id)) (env_received env) record)]) s
      (st_revision (s_state s) + 1) (st_relay_revision (s_state s)))
    as (s' & Hcommit & Es' & Ek & Eca & Hok'); try done; try lia.
  { cbn. by rewrite Hnext. }
  { cbn [d_changes delta_topology admissible_all]. rewrite andb_true_r, andb_true_iff. split.
    { by eapply enroll_admissible. }
    pose proof (claimed_node_change_keeps _ _ _ _ _ _ _ _ Hc (s_state s)) as [_ Ei].
    apply admissible_terminated; rewrite ?Ei; try done; [apply Hst|].
    intros owner Eo. unfold claimed_node_change in Hc. rewrite Eo in Hc. run_ok. done. }
  destruct (signed_map_total (env_now env) (s_state s') (s_key s) id) as [m Hm].
  { by apply store_ok_state. }
  { rewrite Es'. by eapply (claimed_node_registered (s_state s)). }
  exists s', m. split; [|done]. unfold claim_pending.
  rewrite !bind_get. rewrite Hnext. cbn [of_option].
  rewrite (bind_eq_Ok _ (lift (Ok _)) s s _ eq_refl). rewrite Hc.
  rewrite (bind_eq_Ok _ (lift (Ok _)) s s _ eq_refl). rewrite Hio.
  rewrite (bind_eq_Ok _ _ s s' tt Hcommit). rewrite bind_get, Hm. done.
Qed.

(** ** From invitation to node *)

Context `{!ControlSerdeLaws}.

(** The link an invitation is handed out as carries a token that Control itself
    accepts. *)
Lemma build_invite_token random now key st name kind ttl secret res record :
  build_invite random now key st name kind ttl secret = Ok (res, record) ->
  exists fragment token,
    ir_join_url res = Str.trim_end_matches "/" (st_public_url st) +:+ "/join#" +:+ fragment /\
    token_decode fragment = Ok token /\ token_verify token = Ok (public key) /\
    jt_invite token = i_invite record /\ ir_expires_at res = inv_expires_at (i_invite record) /\
    inv_control_id (i_invite record) = id_to_string (public key).
Proof.
  unfold build_invite, token_new, token_join_url, token_encode. intros Hb. run_ok.
  do 2 eexists. cbn [ir_join_url jt_invite inv_control_url]. split; [reflexivity|].
  split; [unfold token_decode; rewrite b64_decode_encode; cbn; by rewrite from_slice_to_vec|].
  split_and!; [|done..].
  - unfold token_verify, ensure_protocol_version; cbn. rewrite id_parse_to_string.
    prove_ok; try done. apply id_verify_sign.
Qed.

Lemma claim_checks_pass env token key issued_at nonce port csr request control :
  token_verify token = Ok control ->
  claim_sign_with_relay_qad token key issued_at nonce port csr = Ok request ->
  env_verification env = Granted -> i64_abs_diff issued_at (env_received env) <= CLOCK_SKEW_SECS ->
  claim_checks env request = Ok (public key).
Proof.
  intros Ht Hs Hv Hskew. unfold claim_sign_with_relay_qad in Hs. run_ok.
  unfold claim_checks, verification_permit, claim_verify, check_time, ensure_protocol_version.
  rewrite Hv. cbn. rewrite Ht. cbn. rewrite id_parse_to_string.
  prove_ok; try done. apply id_verify_sign.
Qed.

(** The steps of a Client's or Edge's claim, one lemma each. *)
Lemma find_invite s record :
  store_ok s -> record ∈ st_invites (s_state s) ->
  find (fun r => inv_invite_id (i_invite r) == inv_invite_id (i_invite record))
    (st_invites (s_state s)) = Some record.
Proof.
  intros Hok Hin. apply (Keyed.lookup_Some i_id); [|done].
  by apply (so_invites _ (store_ok_state s Hok)).
Qed.

Lemma validate_token_passes token s record now :
  store_ok s -> record ∈ st_invites (s_state s) -> i_invite record = jt_invite token ->
  inv_control_id (i_invite record) = id_to_string (public (s_key s)) ->
  inv_audience (i_invite record) = st_audience (s_state s) ->
  inv_control_url (i_invite record) = st_public_url (s_state s) ->
  now <= inv_expires_at (i_invite record) ->
  validate_token_for_state token (s_state s) (public (s_key s)) now = Ok tt.
Proof.
  intros Hok Hin Einv Ecid Eaud Eurl Hx. unfold validate_token_for_state.
  rewrite <- Einv, Ecid, Eaud, Eurl. apply bind_Ok. exists tt.
  split; [by rewrite !bool_decide_eq_true_2 by done|].
  apply bind_Ok. exists tt. split; [apply ensure_Ok, negb_true_iff, Z.ltb_ge; lia|].
  apply bind_Ok. exists record. split; [by rewrite find_invite|]. prove_ok. congruence.
Qed.

Lemma validate_no_qad kind : is_relay_kind kind = false -> validate_relay_claim kind None None = Ok None.
Proof. unfold validate_relay_claim. by intros ->. Qed.

Lemma no_certificate now kind issuer :
  is_relay_kind kind = false -> issue_relay_tls_certificate now None kind None issuer = Ok None.
Proof. by destruct kind. Qed.

(** A Client's or Edge's claim of a pending invitation of the snapshot. *)
Lemma claim_of_pending env request id s record change :
  store_ok s -> claim_checks env request = Ok id ->
  env_mutation env = Granted -> env_io env = true ->
  record ∈ st_invites (s_state s) -> i_state record = Pending ->
  i_invite record = jt_invite (cr_token request) ->
  cl_invite_id (cr_claim request) = inv_invite_id (i_invite record) ->
  inv_control_id (i_invite record) = id_to_string (public (s_key s)) ->
  inv_audience (i_invite record) = st_audience (s_state s) ->
  inv_control_url (i_invite record) = st_public_url (s_state s) ->
  is_relay_kind (inv_kind (i_invite record)) = false ->
  cl_relay_qad_port (cr_claim request) = None -> cl_relay_tls_csr (cr_claim request) = None ->
  env_received env <= inv_expires_at (i_invite record) -> i64_min <= env_received env < i64_max ->
  claimed_node_change (s_state s) (i_invite record) id (i_managed_by record) None
    (st_revision (s_state s) + 1) (env_received env) = Ok change ->
  st_revision (s_state s) < i64_max -> st_relay_revision (s_state s) <= i64_max ->
  exists s' m,
    claim env request s =
      (s', Ok {| jr_name := inv_name (i_invite record); jr_kind := inv_kind (i_invite record);
                 jr_map := m; jr_relay_tls_certificate_der := None |}) /\
    s_state s' = with_revisions (delta_apply (delta_topology [change;
        PutInvite (invite_terminated Claimed (Some (id_to_string id)) (env_received env) record)])
      (s_state s)) (st_revision (s_state s) + 1) (st_relay_revision (s_state s)) /\
    s_key s' = s_key s /\ s_relay_ca s' = s_relay_ca s /\ store_ok s' /\
    signed_map (env_now env) (s_state s') (s_key s) id = Ok m.
Proof.
  intros Hok Hchk Hmut Hio Hin Hpend Einv Eid Ecid Eaud Eurl Hkind Eport Ecsr Hx Hnow Hch Hrev Hrel.
  destruct (claim_pending_total env record id None None change s)
    as (s' & m & Hcl & Hrest); try done.
  exists s', m. split; [|done]. rewrite <- Hcl.
  unfold claim, claim_mutation, mutation_permit. rewrite Hchk, Hmut. cbn [admitted].
  rewrite 2!(bind_eq_Ok _ (lift (Ok _)) s s _ eq_refl), !bind_get.
  rewrite (validate_token_passes _ _ record), Eid, (find_invite s record) by done. cbn [of_option].
  rewrite 2!(bind_eq_Ok _ (lift (Ok _)) s s _ eq_refl), Eport, Ecsr, validate_no_qad by done.
  rewrite (bind_eq_Ok _ (lift (Ok _)) s s _ eq_refl), no_certificate by done.
  by rewrite (bind_eq_Ok _ (lift (Ok _)) s s _ eq_refl), Hpend.
Qed.

Lemma claim_sign_fields token key issued_at nonce :
  exists request, claim_sign token key issued_at nonce = Ok request /\
    cr_token request = token /\ cl_invite_id (cr_claim request) = inv_invite_id (jt_invite token) /\
    cl_relay_qad_port (cr_claim request) = None /\ cl_relay_tls_csr (cr_claim request) = None.
Proof. by eexists. Qed.

(** A Client's name that passed [validate_invite_name] and a new identity. *)
Lemma client_change_ok st st' invite id managed port gen now now' name :
  st_clients st' = st_clients st -> inv_kind invite = KClient -> inv_name invite = name ->
  validate_invite_name now st name KClient = Ok tt ->
  (forall c, c ∈ st_clients st -> c_endpoint_id c <> id_to_string id) ->
  claimed_node_change st' invite id managed port gen now' = Ok (PutClient {|
    c_name := name; c_endpoint_id := id_to_string id; c_managed_by := managed;
    c_generation := gen; c_issued_at := now';
    c_expires_at := i64_saturating_add now' RELAY_CREDENTIAL_LIFETIME_SECS |}).
Proof.
  intros Ec Ek <- Hv Hnew. unfold claimed_node_change. rewrite Ek, Ec.
  apply bind_Ok. exists tt. split; [|done]. prove_ok. apply any_false. intros c Hc.
  unfold validate_invite_name in Hv. run_ok. eapply any_false in H7; [|exact Hc].
  apply orb_false_iff. split; [done|]. by apply bool_decide_eq_false, Hnew.
Qed.


(** ** Repeating a claim *)

(** What a successful claim leaves behind: the invitation is claimed by the
    enrolled identity, and the node's map was taken from the final snapshot. *)
Lemma claim_leaves_record env request s s' r :
  store_ok s -> claim env request s = (s', Ok r) ->
  exists id record,
    id_parse (cl_endpoint_id (cr_claim request)) = Some id /\
    store_ok s' /\ s_key s' = s_key s /\ st_audience (s_state s') = st_audience (s_state s) /\
    st_public_url (s_state s') = st_public_url (s_state s) /\
    record ∈ st_invites (s_state s') /\ i_invite record = jt_invite (cr_token request) /\
    cl_invite_id (cr_claim request) = inv_invite_id (i_invite record) /\
    i_state record = Claimed /\
    (i_claimed_by record = Some (id_to_string id) \/
     i_claimed_by record = Some (cl_endpoint_id (cr_claim request))) /\
    jr_name r = inv_name (i_invite record) /\ jr_kind r = inv_kind (i_invite record) /\
    inv_control_id (i_invite record) = id_to_string (public (s_key s)) /\
    inv_audience (i_invite record) = st_audience (s_state s) /\
    inv_control_url (i_invite record) = st_public_url (s_state s) /\
    signed_map (env_now env) (s_state s') (s_key s') id = Ok (jr_map r).
Proof.
  intros Hok Hr. unfold claim in Hr. hrun Hr. unfold claim_mutation in Hr.
  pose proof (store_ok_state s Hok) as Hst.
  hrun Hr; (edestruct claim_record as (? & Einv & ?); [done..|]);
    unfold claim_checks, claim_verify, validate_token_for_state in *;
    [unfold claim_pending in Hr|unfold claim_repeated in Hr]; hrun Hr; run_ok; eexists.
  - match goal with E : commit_delta _ (delta_topology [_; PutInvite ?i]) _ = _ |- _ => exists i end.
    split; [eassumption|]. match goal with E : commit_delta _ _ _ = _ |- _ =>
      apply (commit_delta_Ok _ _ _ _ Hok) in E as (rv & rr & Er & Err & _ & Es & Ek & Hok') end.
    match goal with E : claimed_node_change _ _ _ _ _ _ _ = Ok _ |- _ =>
      pose proof (claimed_node_change_keeps _ _ _ _ _ _ _ _ E (s_state s)) as [_ Ei] end.
    rewrite Es, Ek. unfold delta_apply. cbn [st_audience st_public_url st_invites with_revisions].
    rewrite fold_audience, fold_public_url. split_and!; try done; try (cbn; congruence).
    + cbn. rewrite Ei. apply elem_of_upsert_record; [apply Hst|by left].
    + by left.
    + match goal with E : signed_map _ (s_state _) _ _ = _ |- _ => rewrite Es in E; exact E end.
  - match goal with E : i_state ?i = Claimed |- _ => exists i end.
    split; [eassumption|]. split_and!; try done; try congruence. by right.
Qed.

Lemma signed_map_any_time now now' st key id m :
  signed_map now st key id = Ok m -> exists m', signed_map now' st key id = Ok m'.
Proof.
  unfold signed_map. intros Hm. run_ok. destruct x as [[? ?] ?]. eexists. rewrite H7. done.
Qed.

(** A claim can be repeated: when a Client or Edge lost the answer to its
    claim and sends it again in time, Control returns the same name and kind
    with a valid map for it and changes nothing. *)
Theorem repeated_claim_is_idempotent env env' request s s1 r id :
  store_ok s -> claim env request s = (s1, Ok r) ->
  cl_endpoint_id (cr_claim request) = id_to_string id -> is_relay_kind (jr_kind r) = false ->
  (forall relay, relay ∈ st_relays (s_state s1) -> r_endpoint_id relay <> id_to_string id) ->
  claim_checks env' request = Ok id -> env_mutation env' = Granted ->
  env_received env' <= inv_expires_at (jt_invite (cr_token request)) ->
  cl_relay_qad_port (cr_claim request) = None -> cl_relay_tls_csr (cr_claim request) = None ->
  exists r', claim env' request s1 = (s1, Ok r') /\
    jr_name r' = jr_name r /\ jr_kind r' = jr_kind r /\
    node_map_verify (jr_map r') (public (s_key s)) id = Ok tt.
Proof.
  intros Hok Hr Eid Hkind Hrel Hchk Hmut Hx Ep Ec.
  destruct (claim_leaves_record _ _ _ _ _ Hok Hr) as (id0 & record & Hid & Hok1 & Ek & Ea & Eu & Hin &
    Einv & Ecl & Hst & Hby & Ename & Ekind & Ecid & Eaud & Eurl & Hmap).
  rewrite Eid, id_parse_to_string in Hid. injection Hid as <-. rewrite <- Eid in Hby.
  assert (Hby' : i_claimed_by record = Some (cl_endpoint_id (cr_claim request)))
    by (by destruct Hby).
  destruct (signed_map_any_time _ (env_now env') _ _ _ _ Hmap) as [m' Hm'].
  eexists. split; [unfold claim, claim_mutation, mutation_permit|].
  - rewrite Hchk, Hmut. cbn [admitted].
    rewrite 2!(bind_eq_Ok _ (lift (Ok _)) s1 s1 _ eq_refl), !bind_get.
    rewrite (validate_token_passes _ _ record), Ecl, (find_invite s1 record) by (done || congruence).
    cbn [of_option]. rewrite 2!(bind_eq_Ok _ (lift (Ok _)) s1 s1 _ eq_refl).
    rewrite Ekind in Hkind. rewrite Ep, Ec, validate_no_qad by done.
    rewrite (bind_eq_Ok _ (lift (Ok _)) s1 s1 _ eq_refl), no_certificate by done.
    rewrite (bind_eq_Ok _ (lift (Ok _)) s1 s1 _ eq_refl), Hst, bool_decide_eq_true_2 by done.
    unfold claim_repeated. rewrite !bind_get, Eid.
    destruct (find _ (st_relays (s_state s1))) as [relay|] eqn:Erel.
    { apply find_Some in Erel as [Hin' Erel]. breflect. by destruct (Hrel relay Hin'). }
    rewrite (bind_eq_Ok _ (require true _) s1 s1 _ eq_refl), Hm'. reflexivity.
  - cbn. rewrite <- Ek. split_and!; try done. by eapply signed_map_verifies.
Qed.
End Enrollment.
