(* ===== verification/Isolation.v ===== *)
(** * as-control: what each authority can touch

    A Provisioner only changes the Clients, Edges and invitations it manages, a
    stale expected revision changes nothing, a replayed invitation request is
    answered without a second invitation, and a Client only removes its own
    Edges. *)
From S2P Require Import Prelude Deps RelayApi ControlApi State Database ControlCore ControlHandlers.
From S2P Require Import ControlSpec ControlInvariant.
Open Scope string_scope.
Open Scope Z_scope.
Import Vec.

Section Isolation.
Context `{Keys, Encodings, !ControlSerde, !Certificates, !Urls}.
Context `{!Serde RelayCredential, !Serde SignedRelayCredential, !Serde RevocationUpdate}.
Implicit Types (s : Store) (st : ControlState) (env : Env).

(** [owner] is a Client that [pid] manages. *)
Definition manages (pid : string) st (owner : string) : Prop :=
  exists c, c ∈ st_clients st /\ c_endpoint_id c = owner /\ c_managed_by c = Some pid.

(** Everything [pid] does not manage is the same in both snapshots. *)
Record confined (pid : string) st st' : Prop := {
  cf_clients : forall c, c_managed_by c <> Some pid -> c ∈ st_clients st' <-> c ∈ st_clients st;
  cf_edges : forall e, ~ manages pid st (e_owner_id e) -> e ∈ st_edges st' <-> e ∈ st_edges st;
  cf_invites : forall i, i_managed_by i <> Some pid -> i ∈ st_invites st' <-> i ∈ st_invites st;
  cf_relays : st_relays st' = st_relays st;
  cf_provisioners : st_provisioners st' = st_provisioners st;
}.

Lemma confined_revisions pid st st' r rr :
  confined pid st st' -> confined pid st (with_revisions st' r rr).
Proof. by intros []. Qed.

Lemma confined_refl pid st : confined pid st st.
Proof. done. Qed.

Section Deltas.
Variables (pid : string) (st : ControlState).
Hypothesis Hok : state_ok st.

Lemma confined_put_invite i :
  i_managed_by i = Some pid ->
  (forall i0, i0 ∈ st_invites st -> i_id i0 = i_id i -> i_managed_by i0 = Some pid) ->
  confined pid st (delta_apply (delta_topology [PutInvite i]) st).
Proof.
  intros Hm Hi. split; try done. intros j Hj. cbn. rewrite elem_of_upsert_record by apply Hok.
  split; [intros [->|[? _]]; done|]. intros Hin. right. split; [done|]. intros E.
  by destruct Hj, (Hi j).
Qed.

Lemma confined_remove_client c v :
  c ∈ st_clients st -> c_managed_by c = Some pid ->
  confined pid st (delta_apply (delta_revocation [DeleteClient (c_endpoint_id c); PutRevocation v]) st).
Proof.
  intros Hc Hm. destruct (so_clients st Hok) as [Hu _]. split; try done. intros f Hf. cbn.
  rewrite elem_of_retain, negb_true_iff, bool_decide_eq_false. split; [by intros []|].
  intros Hin. split; [done|]. intros E. by rewrite (Keyed.unique_inj c_endpoint_id _ f c Hu) in Hf.
Qed.

Lemma confined_remove_edge e v :
  e ∈ st_edges st -> manages pid st (e_owner_id e) ->
  confined pid st (delta_apply (delta_revocation [DeleteEdge (e_endpoint_id e); PutRevocation v]) st).
Proof.
  intros He Hm. destruct (so_edges st Hok) as [Hu _]. split; try done. intros f Hf. cbn.
  rewrite elem_of_retain, negb_true_iff, bool_decide_eq_false. split; [by intros []|].
  intros Hin. split; [done|]. intros E. by rewrite (Keyed.unique_inj e_endpoint_id _ f e Hu) in Hf.
Qed.

Lemma confined_transfer e owner :
  e ∈ st_edges st -> manages pid st (e_owner_id e) -> manages pid st owner ->
  confined pid st (delta_apply (delta_topology [PutEdge (edge_owned_by owner e)]) st).
Proof.
  intros He Hm Ho. destruct (so_edges st Hok) as [Hu _]. split; try done. intros f Hf. cbn.
  rewrite elem_of_upsert_record by done. split; [intros [->|[? _]]; done|].
  intros Hin. right. split; [done|]. cbn. intros E.
  by rewrite (Keyed.unique_inj e_endpoint_id _ f e Hu) in Hf.
Qed.
End Deltas.

Lemma managed_client_manages st name pid id :
  managed_client_id st name pid = Ok id -> manages pid st id.
Proof. intros (c & ? & ? & ? & ?)%managed_client_id_Ok. by exists c. Qed.

(** A committed delta is confined when its effect on the snapshot is. *)
Lemma commit_confined pid io delta s s' :
  store_ok s -> commit_delta io delta s = (s', Ok tt) ->
  confined pid (s_state s) (delta_apply delta (s_state s)) -> confined pid (s_state s) (s_state s').
Proof.
  intros Hok Hc Hd. destruct (commit_delta_Ok _ _ _ _ Hok Hc) as (r & rr & _ & _ & _ & -> & _).
  by apply confined_revisions.
Qed.

Ltac unchanged := try apply confined_refl.
Ltac found := repeat match goal with
  | E : of_option (find _ _) _ = Ok _ |- _ => apply find_by in E as [? ?]
  | E : find _ _ = Some _ |- _ => apply find_Some in E as [? ?]
  | E : managed_client_id _ _ _ = Ok _ |- _ => apply managed_client_manages in E
  | E : provisioner_ok _ = (_, _) |- _ => apply provisioner_ok_id in E as ->
  end; run_ok.

Lemma provisioner_invite_confined env pid request name kind ttl secret s s' r :
  store_ok s -> random_token (env_random env) 16 ∉ i_id <$> st_invites (s_state s) ->
  provisioner_invite env pid request name kind ttl secret s = (s', r) ->
  confined pid (s_state s) (s_state s').
Proof.
  intros Hok Hf Hr. unfold provisioner_invite in Hr. hrun Hr; unchanged.
  eapply commit_confined; [done..|]. apply confined_put_invite; [by apply store_ok_state|done|].
  intros j Hj E'. destruct Hf. apply list_elem_of_fmap. exists j. split; [|done].
  rewrite E'. match goal with E : map_err bad _ = _ |- _ => apply map_err_Ok, build_invite_Ok in E end.
  cbn. symmetry. tauto.
Qed.

Lemma dispatch_confined env pid request s s' r :
  store_ok s -> random_token (env_random env) 16 ∉ i_id <$> st_invites (s_state s) ->
  dispatch_provisioner_mutation env pid request s = (s', r) ->
  confined pid (s_state s) (s_state s').
Proof.
  intros Hok Hf Hr. pose proof (store_ok_state s Hok) as Hst.
  unfold dispatch_provisioner_mutation in Hr. destruct (pr_action request).
  - hrun Hr; unchanged.
  - by eapply provisioner_invite_confined.
  - unfold provisioner_invite_edge in Hr. do 2 (hstep Hr; unchanged).
    by eapply provisioner_invite_confined.
  - unfold provisioner_revoke_invite in Hr. hrun Hr; found; unchanged.
    eapply commit_confined; [done..|]. apply confined_put_invite; [done..|].
    intros i0 Hi0 E'. by rewrite (Keyed.unique_inj i_id _ i0 a (so_invites _ Hst) Hi0).
  - unfold provisioner_remove_client in Hr. hrun Hr; found; unchanged.
    eapply commit_confined; [done..|]. by apply confined_remove_client.
  - unfold provisioner_remove_edge in Hr. hrun Hr; found; unchanged.
    eapply commit_confined; [done..|]. apply confined_remove_edge; [done..|]. congruence.
  - unfold provisioner_transfer_edge in Hr. hrun Hr; found; unchanged.
    eapply commit_confined; [done..|]. apply confined_transfer; [done..| |done]. congruence.
Qed.

(** C15. Provisioners are isolated from each other: a request authorized as one
    Provisioner leaves every Client it does not manage, every Edge of those
    Clients, every invitation it did not create, and all Relays and Provisioners
    as they were, whatever the request contains and however it ends. *)
Theorem provisioner_is_confined env header body pid request s s' r :
  store_ok s -> random_token (env_random env) 16 ∉ i_id <$> st_invites (s_state s) ->
  provisioner_checks env header body = Ok (pid, request) ->
  provisioner_request env header body s = (s', r) ->
  confined pid (s_state s) (s_state s').
Proof.
  intros Hok Hf Hc Hr. unfold provisioner_request, provisioner_mutation in Hr. rewrite Hc in Hr.
  hrun Hr; unchanged; (eapply dispatch_confined; [done..|]);
    match goal with E : Ok _ = Ok _ |- _ => injection E as -> -> end; done.
Qed.

(** ** Optimistic concurrency *)

Lemma expected_revision_stale st n e :
  n <> st_revision st -> check_expected_revision st (Some n) = Ok e -> False.
Proof. cbn. intros Hn Hc. run_ok. done. Qed.

(** Compare-and-set: a Provisioner's request that expects another revision
    than the current one never changes the store, whatever it asks for. *)
Theorem stale_revision_changes_nothing env header body pid request n s s' r :
  provisioner_checks env header body = Ok (pid, request) ->
  pr_expected_revision request = Some n -> n <> st_revision (s_state s) ->
  provisioner_request env header body s = (s', r) -> s' = s.
Proof.
  intros Hc He Hn Hr. unfold provisioner_request, provisioner_mutation in Hr. rewrite Hc in Hr.
  hrun Hr; try done; match goal with E : Ok _ = Ok _ |- _ => injection E as <- <- end;
    match goal with E : pr_action _ = _ |- _ => unfold dispatch_provisioner_mutation in Hr; rewrite E in Hr end;
    try (unfold provisioner_invite_edge in Hr; hstep Hr; hstep Hr; [|done]);
    try unfold provisioner_invite in Hr; try unfold provisioner_revoke_invite in Hr;
    try unfold provisioner_remove_client in Hr; try unfold provisioner_remove_edge in Hr;
    try unfold provisioner_transfer_edge in Hr; hrun Hr; try done;
    try (rewrite He in *; exfalso; eapply expected_revision_stale; eassumption);
    by apply provisioner_ok_id in Hr.
Qed.

(** ** Idempotent invitations *)

Lemma provisioner_invite_result random now key st name kind ttl secret res record :
  build_invite random now key st name kind ttl secret = Ok (res, record) ->
  invite_result key (i_invite record) secret = Ok res.
Proof.
  unfold build_invite, invite_result, token_new, token_join_url, token_encode. intros Hb. run_ok.
  cbn. by rewrite bool_decide_eq_true_2.
Qed.

Lemma find_request st i pid q :
  state_ok st -> i ∈ st_invites st -> i_managed_by i = Some pid -> i_request_id i = Some q ->
  find (fun item => (i_managed_by item == Some pid) && (i_request_id item == Some q))%bool
    (st_invites st) = Some i.
Proof.
  intros Hok Hi Hm Hq. destruct (find _ _) as [j|] eqn:E.
  - apply find_Some in E as [Hj E]. run_ok. f_equal.
    eapply (Keyed.unique_inj i_id); [apply Hok|done..|]. by eapply (so_request_ids st Hok).
  - rewrite find_None in E. specialize (E i Hi). cbn in E.
    by rewrite !bool_decide_eq_true_2 in E.
Qed.

(** A Provisioner may repeat an invitation request it got no answer to: with
    the same request id and action it gets the same invitation and link again,
    at any later time, and the store stays as it is. *)
Theorem invitation_request_replays env env' pid request name kind ttl secret s s1 r :
  store_ok s ->
  provisioner_invite env pid request name kind ttl secret s = (s1, Ok r) ->
  provisioner_invite env' pid request name kind ttl secret s1 = (s1, Ok r).
Proof.
  intros Hok Hr. unfold provisioner_invite in Hr. hrun Hr.
  - unfold provisioner_invite. rewrite E, E0, E1.
    rewrite 3!(bind_eq_Ok _ (lift (Ok _)) s s _ eq_refl), !bind_get, E2, E3.
    rewrite (bind_eq_Ok _ (require true _) s s _ eq_refl), E4. done.
  - match goal with E : commit_delta _ _ _ = (?x, _) |- _ => rename x into s1;
      destruct (commit_delta_Ok _ _ _ _ Hok E) as (rv & rr & _ & _ & _ & Es & Ek & Hok1) end.
    apply map_err_Ok, provisioner_invite_result in E5.
    unfold provisioner_invite. rewrite E, E0, E1.
    rewrite 3!(bind_eq_Ok _ (lift (Ok _)) s1 s1 _ eq_refl), !bind_get.
    match goal with E : commit_delta _ (delta_topology [PutInvite ?i]) _ = _ |- _ =>
      rewrite (find_request (s_state s1) i pid (pr_request_id request));
      [|by apply store_ok_state| |done|done] end.
    + cbn. rewrite bool_decide_eq_true_2 by done.
      rewrite (bind_eq_Ok _ (require true _) s1 s1 _ eq_refl), Ek, E5. done.
    + rewrite Es. cbn. apply elem_of_upsert_record; [|by left].
      apply (so_invites _ (store_ok_state s Hok)).
Qed.

(** ** Requests of a Client *)

(** C35. A Client only removes Edges it owns: whatever it asks for, Clients,
    Relays, invitations, Provisioners and other Clients' Edges stay as they are;
    when the request succeeds, the Edge it named is gone and its credential is
    revoked. *)
Theorem client_removes_only_its_edges env request client s s' r :
  store_ok s -> edge_remove_verify request = Ok client ->
  client_edge_remove env request s = (s', r) ->
  st_clients (s_state s') = st_clients (s_state s) /\
  st_relays (s_state s') = st_relays (s_state s) /\
  st_invites (s_state s') = st_invites (s_state s) /\
  st_provisioners (s_state s') = st_provisioners (s_state s) /\
  (forall e, e_owner_id e <> id_to_string client ->
     e ∈ st_edges (s_state s') <-> e ∈ st_edges (s_state s)) /\
  (forall m, r = Ok m -> exists e, e ∈ st_edges (s_state s) /\ e_name e = err_name request /\
     e_endpoint_id e = err_endpoint_id request /\ e_owner_id e = id_to_string client /\
     (forall f, f ∈ st_edges (s_state s') -> e_endpoint_id f <> e_endpoint_id e) /\
     revoked (s_state s') (e_endpoint_id e) (e_generation e) (e_expires_at e)).
Proof.
  intros Hok Hv Hr. pose proof (store_ok_state s Hok) as Hst.
  unfold client_edge_remove, client_edge_remove_mutation in Hr. rewrite Hv in Hr. hrun Hr; try done.
  found. match goal with E : commit_delta _ _ _ = (?x, _), He : ?edge ∈ st_edges _ |- _ =>
    rename x into s1, edge into e;
    destruct (commit_delta_Ok _ _ _ _ Hok E) as (rv & rr & _ & _ & _ & Es & _) end.
  destruct (so_edges _ Hst) as [Hue _]. destruct (so_revocations _ Hst) as [Huv _].
  rewrite Es. split_and!; try done.
  - intros f Hf. cbn. rewrite elem_of_retain, negb_true_iff, bool_decide_eq_false.
    split; [by intros []|]. intros Hin. split; [done|]. intros Ef.
    rewrite (Keyed.unique_inj e_endpoint_id _ f e Hue) in Hf; done.
  - intros m _. exists e. split_and!; try done.
    + intros f. cbn. by intros [_ ?%negb_true_iff%bool_decide_eq_false]%elem_of_retain.
    + apply (revoked_put_revocation (s_state s)); [done..|]. right. split_and!; lia || done.
Qed.

(** ** The watch registry *)

(** Every endpoint in the registry holds one or two watches. *)
Definition registry_ok (counts : gmap string nat) : Prop :=
  map_Forall (fun _ n => (1 <= n <= WATCHES_PER_ENDPOINT)%nat) counts.

(** No endpoint holds more than two watches: acquiring keeps the bound and
    refuses exactly the third, and dropping a guard undoes its acquisition, so
    the registry does not grow with the endpoints that came and went. *)
Theorem watches_are_bounded counts k :
  registry_ok counts ->
  registry_ok (watch_acquire counts k).1 /\
  registry_ok (watch_release counts k) /\
  (counts !! k = Some WATCHES_PER_ENDPOINT <-> is_ok (watch_acquire counts k).2 = false) /\
  (counts !! k = Some WATCHES_PER_ENDPOINT -> (watch_acquire counts k).1 = counts) /\
  (counts !! k <> Some WATCHES_PER_ENDPOINT ->
     watch_release (watch_acquire counts k).1 k = counts).
Proof.
  intros Hok. unfold watch_acquire, watch_release, WATCHES_PER_ENDPOINT in *.
  assert (Hk : counts !! k = None \/ counts !! k = Some 1%nat \/ counts !! k = Some 2%nat).
  { destruct (counts !! k) as [n|] eqn:E; [|by left]. apply Hok in E.
    unfold WATCHES_PER_ENDPOINT in E. right. destruct n as [|[|[|]]]; auto; lia. }
  destruct Hk as [E|[E|E]]; rewrite E; cbn; rewrite ?lookup_insert_eq; cbn; split_and!; try done;
    try (apply map_Forall_insert_2; [unfold WATCHES_PER_ENDPOINT; lia|done]);
    try (by apply map_Forall_delete);
    intros; rewrite ?insert_insert_eq, ?delete_insert_id, ?insert_id; done.
Qed.

(** ** Requests that the schema refuses *)

Lemma commit_delta_refused io delta s :
  store_ok s -> (forall rr, admissible_all rr (s_state s) (d_changes delta) = false) ->
  exists e, commit_delta io delta s = (s, Err e) /\ ae_status e = 500.
Proof.
  intros [Hok Hrep] Ha. unfold commit_delta.
  destruct (next_revision _ _) as [r|e] eqn:E1; [|exists e; split; [done|]].
  2: { unfold next_revision in E1. destruct (d_publish delta); cbn in E1; [done|..];
         destruct (u64_checked_add _ _); cbn in E1; by simplify_eq. }
  destruct (next_relay_revision _ _) as [rr|e] eqn:E2; [|exists e; split; [done|]].
  2: { unfold next_relay_revision in E2. destruct (d_publish delta); cbn in E2; [done..|];
         destruct (u64_checked_add _ _); cbn in E2; by simplify_eq. }
  cbn [mbind result_bind].
  pose proof (apply_delta_sync_spec io (st_revision (s_state s)) (st_relay_revision (s_state s))
    r rr delta _ _ Hok Hrep) as Hr.
  destruct (apply_delta_sync _ _ _ _ _ _ _) as [d|e] eqn:E3.
  - destruct Hr as (Hacc & _). unfold commit_accepted in Hacc. breflect. rewrite Ha in *. done.
  - exists (internal e). done.
Qed.

(** An Edge invitation that outlives its owner cannot be revoked: when it has
    expired unclaimed and the owning Client has since been removed, the
    administrator's request to revoke it ends in an internal error and changes
    nothing, because the row would name an owner that no longer exists. *)
Theorem orphaned_edge_invitation_is_stuck env s i owner :
  store_ok s -> i ∈ st_invites (s_state s) -> i_state i = Pending ->
  inv_kind (i_invite i) = KEdge owner ->
  (forall c, c ∈ st_clients (s_state s) -> c_endpoint_id c <> owner) ->
  exists e, local_revoke_invite env (i_id i) s = (s, Err e) /\ ae_status e = 500.
Proof.
  intros Hok Hi Hp Hk Hc. pose proof (store_ok_state s Hok) as Hst.
  unfold local_revoke_invite. rewrite bind_get.
  assert (Hf : find (fun item => inv_invite_id (i_invite item) == i_id i) (st_invites (s_state s)) = Some i).
  { destruct (find _ _) as [j|] eqn:E.
    - apply find_Some in E as [Hj E]. breflect. f_equal.
      by eapply (Keyed.unique_inj i_id); [apply Hst|..].
    - rewrite find_None in E. specialize (E i Hi). cbn in E. by rewrite bool_decide_eq_true_2 in E. }
  rewrite Hf, (bind_eq_Ok _ (lift (of_option (Some i) _)) s s i eq_refl), Hp.
  destruct (commit_delta_refused (env_io env)
    (delta_topology [PutInvite (invite_terminated Revoked None (env_now env) i)]) s Hok) as (e & He & ?).
  - intros rr. cbn -[Keyed.secondary_free any]. rewrite Hk.
    assert (Ha : any (fun c => c_endpoint_id c == owner) (st_clients (s_state s)) = false).
    { apply any_false. intros c Hin. by apply bool_decide_eq_false, Hc. }
    by rewrite Ha, !andb_false_r.
  - exists e. split; [|done]. unfold mbind, Handler.handler_bind. by rewrite He.
Qed.

(** Request ids are shared by all Provisioners and Clients: an invitation
    request whose id somebody else has used is refused and changes nothing, even
    though the handler only looks for the id among the requester's own
    invitations. *)
Theorem foreign_request_id_is_refused env pid request name kind ttl secret s s' r i :
  store_ok s -> random_token (env_random env) 16 ∉ i_id <$> st_invites (s_state s) ->
  i ∈ st_invites (s_state s) -> i_request_id i = Some (pr_request_id request) ->
  i_managed_by i <> Some pid ->
  provisioner_invite env pid request name kind ttl secret s = (s', r) ->
  s' = s /\ exists e, r = Err e.
Proof.
  intros Hok Hfresh Hi Hq Hm Hr. pose proof (store_ok_state s Hok) as Hst.
  unfold provisioner_invite in Hr. hrun Hr; eauto.
  - exfalso. apply find_Some in E2 as [Hi0 E2]. breflect.
    assert (Ei : i0 = i); [|congruence].
    eapply (Keyed.unique_inj i_id); [apply Hst|done..|]. by eapply (so_request_ids _ Hst).
  - exfalso. match goal with E : commit_delta _ (delta_topology [PutInvite ?rec]) _ = _ |- _ =>
      set (record := rec) in E; destruct (commit_delta_refused (env_io env) (delta_topology [PutInvite record]) s Hok)
        as (e & He & _); [|rewrite He in E; by simplify_eq] end.
    intros rr. cbn -[Keyed.secondary_free any].
    assert (Hsf : Keyed.secondary_free i_id i_request_id (st_invites (s_state s)) record = false).
    { apply not_true_iff_false. intros Hsf.
      apply map_err_Ok, build_invite_Ok in E5 as (Eid & _). apply Hfresh.
      rewrite <- Eid. change (i_id i1) with (i_id record).
      rewrite <- (Keyed.secondary_free_true _ _ _ _ _ _ Hsf eq_refl Hi Hq).
      by apply list_elem_of_fmap_2. }
    by rewrite Hsf, andb_false_r.
Qed.
End Isolation.
