(* ===== verification/Retry.v ===== *)
(** * Requests to Control, with retries

    Clients, Edges and Relays send their HTTP requests to Control through one
    function: [send] of src/crates/agent-scale/src/control.rs, and its copies
    [send_control] in src/crates/as-edge/src/main.rs and
    src/crates/as-relay/src/main.rs. It sends the same request again while Control
    answers that it is busy, until a deadline. Times are nanoseconds. *)
From S2P Require Import Prelude Text Deps RelayApi ControlApi State Database ControlCore ControlHandlers ControlSpec.
Open Scope string_scope.
Open Scope Z_scope.

(** ** [Duration] *)

Definition SECOND : Z := 10 ^ 9.
Definition MILLISECOND : Z := 10 ^ 6.
Definition duration_max : Z := u64_max * SECOND + 999999999.
Definition duration_saturating_add (a b : Z) : Z := Z.min (a + b) duration_max.
(** [deadline.saturating_duration_since(now)] *)
Definition saturating_duration_since (deadline now : Z) : Z := Z.max 0 (deadline - now).

(** ** The loop *)

(** The status, the [Retry-After] header where it is readable as text, and the
    body *)
Record Response (B : Type) := { rsp_status : Z; rsp_retry_after : option string; rsp_body : B }.
Arguments rsp_status {B}. Arguments rsp_retry_after {B}. Arguments rsp_body {B}.

(** What time does in one turn: the exchange takes [tn_elapsed], the generator
    draws the u16 [tn_jitter], and the sleep ends [tn_late] after it should. *)
Record Turn := { tn_elapsed : Z; tn_jitter : Z; tn_late : Z }.

(** The deadline passed, Control asks for more patience than is left, or the HTTP
    client failed *)
Inductive SendError := RequestTimedOut | ControlBusy | HttpClient (message : string).

(** How a call ends: the attempts made, the time, the server's state, the
    result *)
Record Sent (S B : Type) := { sn_attempts : nat; sn_now : Z; sn_server : S; sn_result : result SendError (Response B) }.
Arguments sn_attempts {S B}. Arguments sn_now {S B}. Arguments sn_server {S B}. Arguments sn_result {S B}.

Section Send.
Context {S B : Type}.
(** [exchange n] is what the [n]-th attempt does to the server, and its reply or
    the error of the HTTP client. *)
Context (exchange : nat -> S -> S * result string (Response B)) (turns : nat -> Turn).

Definition busy (response : Response B) : bool := (rsp_status response =? 429) || (rsp_status response =? 503).

Definition retry_seconds (response : Response B) : option Z :=
  if busy response then rsp_retry_after response ≫= parse_uint u64_max else None.

Definition retry_delay (seconds jitter : Z) : Z :=
  duration_saturating_add (seconds * SECOND) ((jitter mod 1001) * MILLISECOND).

(** The [loop]; the body of a request is JSON, which [try_clone] can copy. *)
Fixpoint send_loop (fuel : nat) (deadline : Z) (n : nat) (now : Z) (server : S) : option (Sent S B) :=
  match fuel with
  | O => None
  | Datatypes.S fuel =>
      let remaining := saturating_duration_since deadline now in
      let finish attempts now server r :=
        Some {| sn_attempts := attempts; sn_now := now; sn_server := server; sn_result := r |} in
      if remaining =? 0 then finish n now server (Err RequestTimedOut)
      else
        let '(server, reply) := exchange n server in
        let turn := turns n in
        if remaining <? tn_elapsed turn then finish (Datatypes.S n) deadline server (Err RequestTimedOut)
        else
          let now := now + tn_elapsed turn in
          match reply with
          | Err e => finish (Datatypes.S n) now server (Err (HttpClient e))
          | Ok response =>
              match retry_seconds response with
              | None => finish (Datatypes.S n) now server (Ok response)
              | Some seconds =>
                  let delay := retry_delay seconds (tn_jitter turn) in
                  if delay <? saturating_duration_since deadline now
                  then send_loop fuel deadline (Datatypes.S n) (now + delay + tn_late turn) server
                  else finish (Datatypes.S n) now server (Err ControlBusy)
              end
          end
  end.

Definition send (fuel : nat) (timeout now : Z) (server : S) : option (Sent S B) :=
  send_loop fuel (now + timeout) 0 now server.

(** The copies, word for word the same *)
Definition edge_send_control := send.
Definition relay_send_control := send.

(** ** Termination and time *)

(** Time moves: an exchange takes some time, and nothing happens early. *)
Definition time_passes : Prop := forall n, 0 < tn_elapsed (turns n) /\ 0 <= tn_jitter (turns n) /\ 0 <= tn_late (turns n).

Lemma retry_delay_nonneg seconds jitter : 0 <= seconds -> 0 <= jitter -> 0 <= retry_delay seconds jitter.
Proof.
  intros Hs Hj. unfold retry_delay, duration_saturating_add, duration_max, u64_max, SECOND, MILLISECOND.
  pose proof (Z.mod_pos_bound jitter 1001). lia.
Qed.

Lemma retry_seconds_bounds response seconds :
  retry_seconds response = Some seconds -> 0 <= seconds <= u64_max.
Proof.
  unfold retry_seconds. case_match; [|done]. intros (text & _ & Hp)%bind_Some.
  eapply parse_uint_bounds; [done|exact Hp].
Qed.

Lemma send_loop_returns fuel deadline n now server :
  time_passes -> saturating_duration_since deadline now < Z.of_nat fuel ->
  exists sent, send_loop fuel deadline n now server = Some sent.
Proof.
  intros Ht. revert n now server. induction fuel as [|fuel IH]; intros n now server Hf.
  { unfold saturating_duration_since in Hf. lia. }
  cbn [send_loop]. cbv zeta. destruct (Z.eqb_spec (saturating_duration_since deadline now) 0) as [|Hr]; [eauto|].
  destruct (exchange n server) as [server' reply]. case_match eqn:El; [eauto|].
  destruct reply as [response|e]; [|eauto].
  destruct (retry_seconds response) as [seconds|] eqn:Es; [|eauto]. case_match; [|eauto].
  apply IH. destruct (Ht n) as (He & Hj & Hl). apply retry_seconds_bounds in Es as [Hs _].
  pose proof (retry_delay_nonneg seconds _ Hs Hj). unfold saturating_duration_since in *. lia.
Qed.

(** What holds of every call that returns, by induction on the loop. *)
Lemma send_loop_ends fuel deadline n now server sent :
  time_passes -> send_loop fuel deadline n now server = Some sent ->
  (n <= sn_attempts sent)%nat /\
  (sn_now sent <= Z.max now deadline \/ exists k, (n <= k < sn_attempts sent)%nat /\ sn_now sent <= deadline + tn_late (turns k)).
Proof.
  intros Ht. revert n now server. induction fuel as [|fuel IH]; intros n now server; [done|].
  cbn [send_loop]. cbv zeta. destruct (Z.eqb_spec (saturating_duration_since deadline now) 0) as [|Hr].
  { intros [= <-]. cbn. split; [lia|left; lia]. }
  unfold saturating_duration_since in *.
  destruct (exchange n server) as [server' reply]. destruct (Z.ltb_spec (Z.max 0 (deadline - now)) (tn_elapsed (turns n))).
  { intros [= <-]. cbn. split; [lia|left; lia]. }
  destruct reply as [response|e]; [|intros [= <-]; cbn; split; [lia|left; lia]].
  destruct (retry_seconds response) as [seconds|]; [|intros [= <-]; cbn; split; [lia|left; lia]].
  destruct (Z.ltb_spec (retry_delay seconds (tn_jitter (turns n))) (Z.max 0 (deadline - (now + tn_elapsed (turns n)))));
    [|intros [= <-]; cbn; split; [lia|left; lia]].
  intros [Hn Hnow]%IH. split; [lia|]. destruct Hnow as [Hnow|(k & Hk & Hnow)].
  - destruct (Z.le_gt_cases (sn_now sent) deadline); [left; lia|]. right. exists n. lia.
  - right. exists k. lia.
Qed.

(** When every answer that asks for patience asks for a second at least, the
    attempts are at most one per second and one more. *)
Lemma send_loop_attempts fuel deadline n now server sent :
  time_passes ->
  (forall k s response seconds, (exchange k s).2 = Ok response -> retry_seconds response = Some seconds -> 1 <= seconds) ->
  send_loop fuel deadline n now server = Some sent ->
  (Z.of_nat (sn_attempts sent) - Z.of_nat n) * SECOND <= Z.max 0 (deadline - now) + SECOND.
Proof.
  intros Ht Hsec. revert n now server. induction fuel as [|fuel IH]; intros n now server; [done|].
  cbn [send_loop]. cbv zeta. unfold SECOND in *.
  destruct (Z.eqb_spec (saturating_duration_since deadline now) 0) as [|Hr]; [intros [= <-]; cbn; lia|].
  unfold saturating_duration_since in *. destruct (exchange n server) as [server' reply] eqn:Ee.
  case_match; [intros [= <-]; cbn; lia|]. destruct reply as [response|e]; [|intros [= <-]; cbn; lia].
  destruct (retry_seconds response) as [seconds|] eqn:Es; [|intros [= <-]; cbn; lia].
  case_match eqn:Ed; [|intros [= <-]; cbn; lia]. apply Z.ltb_lt in Ed. intros Hsent%IH.
  assert (H1 : 1 <= seconds) by (eapply (Hsec n server); [by rewrite Ee|done]).
  apply retry_seconds_bounds in Es as [_ Hmax]. destruct (Ht n) as (He & Hj & Hl).
  assert (Hd : 10 ^ 9 <= retry_delay seconds (tn_jitter (turns n))).
  { unfold retry_delay, duration_saturating_add, duration_max, SECOND, MILLISECOND, u64_max in *.
    pose proof (Z.mod_pos_bound (tn_jitter (turns n)) 1001). lia. }
  lia.
Qed.
End Send.

(** ** What the server sees *)

Section Effect.
Context {S B : Type} (others : nat -> S -> S) (serve : nat -> S -> S * result string (Response B)).
Context (turns : nat -> Turn).

(** Others use the server before each attempt. *)
Definition among_others (n : nat) (s : S) : S * result string (Response B) := serve n (others n s).

(** What they alone do before and between the attempts from [n] up to [k] *)
Definition interference (n k : nat) (s : S) : S := fold_left (fun s i => others i s) (seq n (k - n)) s.

Lemma interference_step n k s : (n < k)%nat -> interference n k s = interference (Datatypes.S n) k (others n s).
Proof.
  intros Hk. unfold interference. replace (k - n)%nat with (Datatypes.S (k - Datatypes.S n)) by lia. done.
Qed.

(** When an answer that is retried leaves the server as it was, only the last
    attempt has an effect. *)
Lemma send_loop_effect fuel deadline n now s sent :
  (forall k s s' response seconds, serve k s = (s', Ok response) -> retry_seconds response = Some seconds -> s' = s) ->
  send_loop among_others turns fuel deadline n now s = Some sent ->
  let s0 := interference n (sn_attempts sent) s in
  (n <= sn_attempts sent)%nat /\
  (forall response, sn_result sent = Ok response ->
     exists k, sn_attempts sent = Datatypes.S k /\ serve k s0 = (sn_server sent, Ok response)) /\
  (sn_server sent = s0 \/ exists k, sn_attempts sent = Datatypes.S k /\ sn_server sent = (serve k s0).1).
Proof.
  cbv zeta. intros Hb. revert n now s. induction fuel as [|fuel IH]; intros n now s; [done|].
  cbn [send_loop]. cbv zeta. case_match.
  { intros [= <-]. cbn [sn_attempts sn_server sn_result]. split; [done|]. split; [done|]. left. unfold interference. by rewrite Nat.sub_diag. }
  assert (Hi : interference n (Datatypes.S n) s = others n s).
  { rewrite interference_step by lia. unfold interference. by rewrite Nat.sub_diag. }
  unfold among_others at 1. destruct (serve n (others n s)) as [s' reply] eqn:Ee.
  case_match; [intros [= <-]; cbn [sn_attempts sn_server sn_result]; rewrite Hi; split; [lia|]; split; [done|]; right; exists n; by rewrite Ee|].
  destruct reply as [response|e];
    [|intros [= <-]; cbn [sn_attempts sn_server sn_result]; rewrite Hi; split; [lia|]; split; [done|]; right; exists n; by rewrite Ee].
  destruct (retry_seconds response) as [seconds|] eqn:Es.
  2: { intros [= <-]. cbn [sn_attempts sn_server sn_result]. rewrite Hi. split; [lia|]. split; [|right; exists n; by rewrite Ee].
       intros ? [= <-]. exists n. by rewrite Ee. }
  case_match; [|intros [= <-]; cbn [sn_attempts sn_server sn_result]; rewrite Hi; split; [lia|]; split; [done|]; right; exists n; by rewrite Ee].
  rewrite (Hb _ _ _ _ _ Ee Es). intros (Hn & Hok & Hst)%IH.
  rewrite interference_step by lia. split; [lia|]. by split.
Qed.
End Effect.

(** ** Requests that change Control *)

(** [IntoResponse] of a handler's result *)
Definition api_response {A} (r : result ApiError A) : Response (result string A) :=
  match r with
  | Ok a => {| rsp_status := 200; rsp_retry_after := None; rsp_body := Ok a |}
  | Err e => {| rsp_status := ae_status e; rsp_retry_after := if ae_retry_after e then Some "1" else None;
                rsp_body := Err (ae_message e) |}
  end.

(** What the network does to an attempt *)
Inductive Delivery := NotDelivered | AnswerLost | Delivered.

Section Control.
Context `{Keys, Encodings, !ControlSerde, !Certificates, !Urls}.
Context `{!Serde RelayCredential, !Serde SignedRelayCredential, !Serde RevocationUpdate}.
Implicit Types (s : Store) (env : Env).

Inductive Sendable := SendClaim (request : ClaimRequest) | SendEdgeInvite (request : EdgeInviteRequest)
| SendEdgeRemove (request : EdgeRemoveRequest).
Inductive Accepted := Joined (joined : JoinResult) | Invited (invite : InviteResult) | Removed (map : SignedNodeMap).

Definition handle env (request : Sendable) : handler Store ApiError Accepted :=
  match request with
  | SendClaim request => joined ← claim env request; mret (Joined joined)
  | SendEdgeInvite request => invite ← client_edge_invite env request; mret (Invited invite)
  | SendEdgeRemove request => map ← client_edge_remove env request; mret (Removed map)
  end.

Definition control_exchange (request : Sendable) (envs : nat -> Env) (delivery : nat -> Delivery) (n : nat) s
  : Store * result string (Response (result string Accepted)) :=
  match delivery n with
  | NotDelivered => (s, Err "error sending request")
  | AnswerLost => ((handle (envs n) request s).1, Err "error sending request")
  | Delivered => let '(s, r) := handle (envs n) request s in (s, Ok (api_response r))
  end.

(** A request that Control asks to repeat has changed nothing. *)
Definition patient {A} (m : handler Store ApiError A) : Prop :=
  forall s s' e, m s = (s', Err e) -> ae_retry_after e = true -> s' = s.

Lemma patient_bind {A B} (m : handler Store ApiError A) (f : A -> B) : patient m -> patient (a ← m; mret (f a)).
Proof.
  intros Hm s s' e [(a & s1 & _ & Hr)|(e' & Hr & [= ->])]%bind_inv Hb; [done|]. by eapply Hm.
Qed.

Lemma internal_is_final {A} (r : result string A) e : map_err internal r = Err e -> ae_retry_after e = false.
Proof. destruct r; [done|]. by intros [= <-]. Qed.

(** After a commit, only building the answer can fail. *)
Ltac patiently H :=
  hrun H; try done;
  match goal with E : map_err internal _ = Err _ |- _ => apply internal_is_final in E; congruence end.

Lemma claim_patient env request : patient (claim env request).
Proof.
  intros s s' e Hr Hb. unfold claim in Hr. hrun Hr; try done. unfold claim_mutation in Hr.
  hrun Hr; try done; unfold claim_pending, claim_repeated in Hr; patiently Hr.
Qed.

Lemma client_edge_invite_patient env request : patient (client_edge_invite env request).
Proof.
  intros s s' e Hr Hb. unfold client_edge_invite in Hr. hrun Hr; try done.
  unfold client_edge_invite_mutation in Hr. cbv zeta in Hr. hrun Hr; done.
Qed.

Lemma client_edge_remove_patient env request : patient (client_edge_remove env request).
Proof.
  intros s s' e Hr Hb. unfold client_edge_remove in Hr. hrun Hr; try done.
  unfold client_edge_remove_mutation in Hr. cbv zeta in Hr. hrun Hr; try done.
  unfold lift in Hr. injection Hr as <- Hr. apply internal_is_final in Hr. congruence.
Qed.

Lemma handle_patient env request : patient (handle env request).
Proof.
  destruct request; apply patient_bind;
    [apply claim_patient|apply client_edge_invite_patient|apply client_edge_remove_patient].
Qed.

Lemma handle_mutates env request s : mutates env s (handle env request s).1.
Proof.
  assert (Hm : forall A B (m : handler Store ApiError A) (f : A -> B), obeys env m -> mutates env s ((a ← m; mret (f a)) s).1).
  { intros A B m f Ho. unfold mbind, handler_bind. destruct (m s) as [s' [a|e]] eqn:E; by eapply Ho. }
  destruct request; apply Hm; [apply claim_mutates|apply client_edge_invite_mutates|apply client_edge_remove_mutates].
Qed.

Lemma exchange_patient request envs delivery k s s' response seconds :
  control_exchange request envs delivery k s = (s', Ok response) -> retry_seconds response = Some seconds -> s' = s.
Proof.
  unfold control_exchange. destruct (delivery k); try done.
  destruct (handle (envs k) request s) as [s1 r] eqn:E. intros [= <- <-] Hs. unfold retry_seconds in Hs.
  case_match; [|done]. destruct r as [a|e]; [done|]. cbn in Hs.
  destruct (ae_retry_after e) eqn:Ea; [|done]. by eapply handle_patient.
Qed.

Lemma exchange_seconds request envs delivery k s response seconds :
  (control_exchange request envs delivery k s).2 = Ok response -> retry_seconds response = Some seconds -> seconds = 1.
Proof.
  unfold control_exchange. destruct (delivery k); try done.
  destruct (handle (envs k) request s) as [s1 r]. intros [= <-] Hs. unfold retry_seconds in Hs.
  case_match; [|done]. destruct r as [a|e]; [done|]. cbn in Hs. destruct (ae_retry_after e); [|done].
  by injection Hs as <-.
Qed.

(** C22. A request that changes Control is sent to the end and takes effect at most
    once, however often it is repeated. While time passes, [send] returns, after
    at most one attempt per second of its timeout and one more, and no later than
    the deadline but for a sleep that ends late. Whatever other requests do
    meanwhile ([others]) and whichever messages the network loses, Control ends up
    where those others alone leave it, or with one execution of the request on
    top, which is at most one mutation; and an answer that [send] returns is the
    answer of that execution. *)
Theorem request_takes_effect_once request envs delivery others turns timeout now s :
  time_passes turns -> 0 <= timeout ->
  exists sent,
    send (among_others others (control_exchange request envs delivery)) turns (Datatypes.S (Z.to_nat timeout))
      timeout now s = Some sent /\
    Z.of_nat (sn_attempts sent) <= timeout / SECOND + 1 /\
    (forall late, (forall n, tn_late (turns n) <= late) -> sn_now sent <= now + timeout + late) /\
    let s0 := interference others 0 (sn_attempts sent) s in
    (forall response, sn_result sent = Ok response ->
       exists n r, sn_attempts sent = Datatypes.S n /\ handle (envs n) request s0 = (sn_server sent, r) /\
                   response = api_response r) /\
    (sn_server sent = s0 \/
     exists n, sn_attempts sent = Datatypes.S n /\ sn_server sent = (handle (envs n) request s0).1 /\
               mutates (envs n) s0 (sn_server sent)).
Proof.
  intros Ht Hto. set (exchange := among_others others (control_exchange request envs delivery)).
  destruct (send_loop_returns exchange turns (Datatypes.S (Z.to_nat timeout)) (now + timeout) 0 now s Ht) as [sent Hs].
  { unfold saturating_duration_since. lia. }
  exists sent. split; [exact Hs|].
  pose proof (send_loop_ends exchange turns _ _ _ _ _ _ Ht Hs) as [_ Hend].
  assert (Hatt : (Z.of_nat (sn_attempts sent) - Z.of_nat 0) * SECOND <= Z.max 0 (now + timeout - now) + SECOND).
  { eapply (send_loop_attempts exchange turns); [exact Ht| |exact Hs].
    intros k s1 response seconds Hr Hse. by rewrite (exchange_seconds _ _ _ _ _ _ _ Hr Hse). }
  destruct (send_loop_effect others (control_exchange request envs delivery) turns _ _ _ _ _ _
    (exchange_patient request envs delivery) Hs) as (_ & Hok & Hst).
  split; [|split; [|split]].
  - apply Z.lt_succ_r. unfold Z.succ. apply (Z.mul_lt_mono_pos_r SECOND); [done|].
    pose proof (Z.mul_succ_div_gt timeout SECOND eq_refl). unfold Z.succ, SECOND in *. lia.
  - intros late Hl. destruct (Ht 0%nat) as (_ & _ & Hl0). specialize (Hl 0%nat) as Hl1.
    destruct Hend as [?|(k & _ & ?)]; [|specialize (Hl k)]; lia.
  - intros response Hr. destruct (Hok response Hr) as (k & Hk & Hx). unfold control_exchange in Hx.
    destruct (delivery k); try done. destruct (handle (envs k) request _) as [s1 r] eqn:E. injection Hx as <- <-.
    by exists k, r.
  - destruct Hst as [?|(k & Hk & Hx)]; [by left|]. unfold control_exchange in Hx.
    destruct (delivery k); [by left|right..]; exists k.
    + rewrite Hx. split; [done|]. split; [done|]. apply handle_mutates.
    + pose proof (handle_mutates (envs k) request (interference others 0 (sn_attempts sent) s)) as Hm.
      destruct (handle (envs k) request _) as [s1 r]. rewrite Hx. by split.
Qed.
End Control.
