(* ===== verification/Relay.v ===== *)
(** * as-relay: admission by credential and the revocation index

    Models crates/as-relay/src/main.rs: [DynamicAccess::on_connect] and
    [validate_credential], which admit an endpoint from its Control-signed
    credential alone, and [apply_revocation_update] with the polling of Control
    that keeps the revocations current. The state file, the revocation marker and
    the calls that close client connections are fields of the state. *)
From stdpp Require Import pretty.
From S2P Require Import Prelude Deps RelayApi ControlApi.
Open Scope string_scope.
Open Scope Z_scope.
Import Vec.

Definition MAX_CLOCK_SKEW_SECS : Z := 300.

Record RelayError := { re_status : Z; re_message : string }.
Definition relay_bad_request (m : string) : RelayError := {| re_status := 400; re_message := m |}.
Definition relay_conflict (m : string) : RelayError := {| re_status := 409; re_message := m |}.
Definition relay_unauthorized (m : string) : RelayError := {| re_status := 401; re_message := m |}.
Definition relay_internal (m : string) : RelayError := {| re_status := 500; re_message := m |}.

Inductive Access := Allow | Deny (reason : string).

(** [HashMap<EndpointId, (u64, i64)>]: generation and expiry of a revocation *)
Notation RevocationIndex := (gmap EndpointId (Z * Z)).

Section Relay.
Context `{Keys, Encodings}.
Context `{!Serde RelayCredential, !Serde SignedRelayCredential, !Serde RevocationUpdate}.

Record Relay := {
  rl_audience : string;
  rl_authority_id : EndpointId;
  rl_current : RevocationUpdate;
  rl_state_file : RevocationUpdate;
  rl_revoked : RevocationIndex;
  rl_enrollment_revoked : bool;
  rl_revoked_marker : bool;
  rl_disconnected : list EndpointId;  (* arguments of [clients.disconnect] *)
  rl_shutdown : bool;                 (* [clients.shutdown()] ran *)
}.

(** ** Admission *)

Definition revoked_through (revoked : RevocationIndex) (endpoint_id : EndpointId) (now : Z) : Z :=
  match revoked !! endpoint_id with
  | Some (generation, expires_at) => if now <? expires_at then generation else 0
  | None => 0
  end.

Definition validate_credential (token : option string) (endpoint_id authority_id : EndpointId)
  (audience : string) (revoked : RevocationIndex) (now : Z) : result string unit :=
  token ← of_option token "missing Relay credential";
  signed ← credential_decode token;
  credential_verify signed authority_id;;
  let credential := src_credential signed in
  credential_validate credential;;
  ensure (rc_audience credential == audience) "credential audience mismatch";;
  id ← credential_endpoint_id credential;
  ensure (id == endpoint_id) "credential endpoint mismatch";;
  ensure (rc_issued_at credential <=? i64_saturating_add now MAX_CLOCK_SKEW_SECS)
    "credential is not valid yet";;
  ensure (now <? rc_expires_at credential) "credential expired";;
  ensure (revoked_through revoked endpoint_id now <? rc_generation credential)
    "credential was revoked".

Definition on_connect (relay : Relay) (endpoint_id : EndpointId) (token : option string) (now : Z)
  : Access :=
  if rl_enrollment_revoked relay then Deny "Relay enrollment is revoked"
  else match validate_credential token endpoint_id (rl_authority_id relay) (rl_audience relay)
               (rl_revoked relay) now with
       | Ok _ => Allow
       | Err _ => Deny "endpoint is not authorized"
       end.

(** ** Revocation updates *)

(** Collecting pairs into a [HashMap]: a later pair replaces an earlier one. *)
Definition collect_map {A} (l : list (EndpointId * A)) : gmap EndpointId A :=
  fold_left (fun m '(k, v) => <[k := v]> m) l ∅.

Definition validate_revocations (update : RevocationUpdate) (audience : string)
  : result string RevocationIndex :=
  update_validate update;;
  ensure (ru_audience update == audience) "revocation audience mismatch";;
  entries ← update_entries update;
  let ids := collect_map
    (zip_with (fun revocation '(endpoint_id, generation) =>
                 (endpoint_id, (generation, rv_expires_at revocation)))
       (ru_revocations update) entries) in
  ensure (size ids == length (ru_revocations update))
    "revocation update contains duplicate endpoint ids";;
  Ok ids.

Definition update_with_revocations (u : RevocationUpdate) (l : list Revocation) : RevocationUpdate := {|
  ru_protocol_version := ru_protocol_version u; ru_audience := ru_audience u;
  ru_version := ru_version u; ru_issued_at := ru_issued_at u; ru_revocations := l |}.

(** [persist_revocation_state], [revoked.store] and [*current = ..], in this order *)
Definition install (relay : Relay) (current : RevocationUpdate) (revoked : RevocationIndex)
  (disconnected : list EndpointId) : Relay := {|
  rl_audience := rl_audience relay; rl_authority_id := rl_authority_id relay;
  rl_current := current; rl_state_file := current; rl_revoked := revoked;
  rl_enrollment_revoked := rl_enrollment_revoked relay;
  rl_revoked_marker := rl_revoked_marker relay;
  rl_disconnected := rl_disconnected relay ++ disconnected; rl_shutdown := rl_shutdown relay |}.

Definition relay_status (relay : Relay) (current : RevocationUpdate) : RelayStatus := {|
  rs_audience := rl_audience relay; rs_control_id := id_to_string (rl_authority_id relay);
  rs_version := ru_version current; rs_revocations := length (ru_revocations current) |}.

(** An update of the version the Relay has: it must be known already, and expired
    revocations are dropped. *)
Definition apply_same_version (io : bool) (now : Z) (relay : Relay) (update : RevocationUpdate)
  : Relay * result RelayError RelayStatus :=
  let current := rl_current relay in
  if all (fun r => any (fun existing => existing == r) (ru_revocations current))
       (ru_revocations update) then
    if any (fun r => rv_expires_at r <=? now) (ru_revocations current) then
      let pruned := update_with_revocations current
        (retain (fun r => now <? rv_expires_at r) (ru_revocations current)) in
      match validate_revocations pruned (rl_audience relay) with
      | Err e => (relay, Err (relay_bad_request e))
      | Ok active =>
          if io then let relay := install relay pruned active [] in
                     (relay, Ok (relay_status relay pruned))
          else (relay, Err (relay_internal "disk I/O error"))
      end
    else (relay, Ok (relay_status relay current))
  else (relay, Err (relay_conflict "revocation version already has different content")).

(** The unexpired revocations of the current state, by parsed identity. *)
Definition unexpired (now : Z) (current : RevocationUpdate) : gmap EndpointId Revocation :=
  collect_map (omap (fun r => (fun id => (id, r)) <$> id_parse (rv_endpoint_id r))
    (retain (fun r => now <? rv_expires_at r) (ru_revocations current))).

(** The loop that merges the update into them. *)
Fixpoint merge_revocations (merged : gmap EndpointId Revocation) (l : list Revocation)
  : result RelayError (gmap EndpointId Revocation) :=
  match l with
  | [] => Ok merged
  | r :: l =>
      endpoint_id ← of_option (id_parse (rv_endpoint_id r)) (relay_bad_request "invalid endpoint id");
      ensure (match merged !! endpoint_id with
              | Some existing => negb (rv_revoked_through_generation r <?
                                       rv_revoked_through_generation existing)
              | None => true
              end) (relay_conflict "revocation generation moved backwards");;
      merge_revocations (<[endpoint_id := r]> merged) l
  end.

Definition revocation_order (a b : Revocation) : Prop :=
  String.leb (rv_endpoint_id a) (rv_endpoint_id b) = true.
#[global] Instance revocation_order_dec a b : Decision (revocation_order a b).
Proof. unfold revocation_order. apply _. Defined.

(** The endpoints whose live connections the update closes. *)
Definition newly_revoked (now : Z) (old delta : RevocationIndex) : list EndpointId :=
  omap (fun '(endpoint_id, (generation, expires_at)) =>
          if (now <? expires_at) && (revoked_through old endpoint_id now <? generation)
          then Some endpoint_id else None) (map_to_list delta).

Definition apply_newer_version (io : bool) (now : Z) (relay : Relay) (update : RevocationUpdate)
  (delta : RevocationIndex) : Relay * result RelayError RelayStatus :=
  let current := rl_current relay in
  let r :=
    ensure (Z.abs (i64_saturating_sub now (ru_issued_at update)) <=? MAX_CLOCK_SKEW_SECS)
      (relay_unauthorized "revocation timestamp is outside the 5 minute window");;
    ensure (negb (any (fun r => rv_revision r <=? ru_version current) (ru_revocations update)))
      (relay_conflict "revocation update overlaps the applied revision");;
    merged ← merge_revocations (unexpired now current) (ru_revocations update);
    let accumulated := {|
      ru_protocol_version := RELAY_PROTOCOL_VERSION; ru_audience := ru_audience update;
      ru_version := ru_version update; ru_issued_at := ru_issued_at update;
      ru_revocations := merge_sort revocation_order (map_to_list merged).*2 |} in
    next ← map_err relay_bad_request (validate_revocations accumulated (rl_audience relay));
    ensure io (relay_internal "disk I/O error");;
    Ok (accumulated, next) in
  match r with
  | Err e => (relay, Err e)
  | Ok (accumulated, next) =>
      let relay' := install relay accumulated next (newly_revoked now (rl_revoked relay) delta) in
      (relay', Ok (relay_status relay' accumulated))
  end.

Definition apply_revocation_update (io : bool) (now : Z) (relay : Relay)
  (signed : SignedRevocationUpdate) : Relay * result RelayError RelayStatus :=
  let update := sru_update signed in
  let current := rl_current relay in
  match (map_err relay_unauthorized (update_verify signed (rl_authority_id relay));;
         map_err relay_bad_request (validate_revocations update (rl_audience relay))) with
  | Err e => (relay, Err e)
  | Ok delta =>
      if ru_version update <? ru_version current then
        (relay, Err (relay_conflict ("revocation version " ++ pretty (ru_version update) ++
                     " is older than current version " ++ pretty (ru_version current))))
      else if ru_version update == ru_version current then apply_same_version io now relay update
      else apply_newer_version io now relay update delta
  end.

(** ** Start-up and polling *)

(** [load_or_initialize] on the bytes of the state file, if it exists; the second
    component is the file afterwards. *)
Definition load_or_initialize (io : bool) (now : Z) (file : option bytes) (audience : string)
  : result string (RevocationUpdate * bytes) :=
  match file with
  | Some data => state ← of_option (from_slice data) "parse revocations.json"; Ok (state, data)
  | None =>
      let state := {| ru_protocol_version := RELAY_PROTOCOL_VERSION; ru_audience := audience;
                      ru_version := 0; ru_issued_at := now; ru_revocations := [] |} in
      ensure io "disk I/O error";;
      Ok (state, to_vec state)
  end.

(** The parts of [run] that bring up the access state, from the loaded
    revocations and from the profile and the state directory *)
Definition bring_up (authority_id : EndpointId) (audience : string) (marker : bool) (state : RevocationUpdate)
  : result string Relay :=
  revocations ← validate_revocations state audience;
  Ok {| rl_audience := audience; rl_authority_id := authority_id;
        rl_current := state; rl_state_file := state; rl_revoked := revocations;
        rl_enrollment_revoked := false; rl_revoked_marker := marker;
        rl_disconnected := []; rl_shutdown := false |}.

Definition start (io : bool) (now : Z) (control_id audience : string) (marker : bool)
  (file : option bytes) : result string Relay :=
  authority_id ← of_option (id_parse control_id) "invalid profile control id";
  ensure (negb (Str.is_blank audience)) "audience must not be empty";;
  ensure (negb marker)
    "Relay enrollment was revoked; remove this state directory and enroll a new Relay identity";;
  loaded ← load_or_initialize io now file audience;
  bring_up authority_id audience marker (fst loaded).

Definition requested_qad_port (port : option Z) (disabled : bool) (default_port : Z)
  : result string (option Z) :=
  ensure (negb (disabled && bool_decide (is_Some port)))
    "--no-qad cannot be combined with --qad-port";;
  if disabled then Ok None
  else
    let port := default default_port port in
    ensure (port != 0) "--qad-port must be between 1 and 65535";;
    Ok (Some port).

(** [revoke_all]: deny every endpoint, mark the state directory, drop everyone. *)
Definition revoke_all (marker_written : bool) (relay : Relay) : Relay := {|
  rl_audience := rl_audience relay; rl_authority_id := rl_authority_id relay;
  rl_current := rl_current relay; rl_state_file := rl_state_file relay;
  rl_revoked := rl_revoked relay; rl_enrollment_revoked := true;
  rl_revoked_marker := rl_revoked_marker relay || marker_written;
  rl_disconnected := rl_disconnected relay; rl_shutdown := true |}.

(** What one request of [poll_control] meets. *)
Inductive Answer :=
| NoContent
| Update (signed : SignedRevocationUpdate)
| Undecodable
| Status (code : Z)
| Unreachable.

(** How the loop goes on: at once with the backoff reset, after the backoff, or
    not at all. *)
Inductive Poll := PollNow | PollLater | PollStop.

Definition poll_answer (io : bool) (now : Z) (control_id : EndpointId) (audience : string)
  (relay : Relay) (answer : Answer) : Relay * Poll :=
  match answer with
  | NoContent => (relay, PollNow)
  | Update signed =>
      match (update_verify signed control_id;;
             validate_revocations (sru_update signed) audience) with
      | Err _ => (relay, PollLater)
      | Ok _ =>
          match apply_revocation_update io now relay signed with
          | (relay, Err _) => (relay, PollLater)
          | (relay, Ok _) => (relay, PollNow)
          end
      end
  | Undecodable => (relay, PollLater)
  | Status code =>
      if (code == 403) || (code == 410) then (revoke_all io relay, PollStop)
      else (relay, PollLater)
  | Unreachable => (relay, PollLater)
  end.

Definition next_backoff (backoff : Z) : Z := Z.min (backoff * 2) 60.
End Relay.

(** ** Facts about the index *)

Section Facts.
Context `{Keys, Encodings}.
Context `{!Serde RelayCredential, !Serde SignedRelayCredential, !Serde RevocationUpdate}.
Implicit Types (u : RevocationUpdate) (relay : Relay).

Lemma collect_map_list_to_map {A} (l : list (EndpointId * A)) :
  collect_map l = list_to_map (reverse l).
Proof.
  unfold collect_map. induction l as [|[k v] l IH] using rev_ind; [done|].
  rewrite fold_left_app, reverse_snoc. cbn. by rewrite IH.
Qed.

Lemma collect_map_lookup {A} (l : list (EndpointId * A)) k v :
  NoDup l.*1 -> collect_map l !! k = Some v <-> (k, v) ∈ l.
Proof.
  intros Hn. rewrite collect_map_list_to_map, <- elem_of_list_to_map.
  - by rewrite elem_of_reverse.
  - by rewrite fmap_reverse, reverse_Permutation.
Qed.

Lemma collect_map_size {A} (l : list (EndpointId * A)) :
  size (collect_map l) = length l <-> NoDup l.*1.
Proof.
  rewrite collect_map_list_to_map, <- (length_reverse l), <- (reverse_Permutation l.*1),
    <- fmap_reverse.
  induction (reverse l) as [|[k v] l' IH]; cbn; [split; [constructor|done]|].
  assert (Hle : (size (list_to_map l' : gmap EndpointId A) <= length l')%nat).
  { clear. induction l' as [|[k v] l' IH]; cbn; [done|]. rewrite map_size_insert. case_match; cbn; lia. }
  rewrite NoDup_cons, map_size_insert, <- IH.
  destruct (list_to_map l' !! k) eqn:E; cbn.
  - split; [intros; lia|]. intros [Hk _]. apply elem_of_list_to_map_2 in E.
    destruct Hk. apply list_elem_of_fmap. by exists (k, a).
  - apply not_elem_of_list_to_map in E. split; [|intros [_ ->]; lia]. intros; split; [done|lia].
Qed.

(** The identities an update names. *)
Definition update_ids u : list (option EndpointId) := (fun r => id_parse (rv_endpoint_id r)) <$> ru_revocations u.

(** The entry of an update for an identity. *)
Definition names u (id : EndpointId) (r : Revocation) : Prop :=
  r ∈ ru_revocations u /\ id_parse (rv_endpoint_id r) = Some id.

Lemma update_entries_Ok u es :
  update_entries u = Ok es ->
  es.*1 = omap id (update_ids u) /\
  Forall2 (fun r e => id_parse (rv_endpoint_id r) = Some e.1 /\
                      rv_revoked_through_generation r = e.2) (ru_revocations u) es.
Proof.
  unfold update_entries, update_ids. rewrite collect_Ok. intros Hf.
  assert (Hf' : Forall2 (fun r e => id_parse (rv_endpoint_id r) = Some e.1 /\
                      rv_revoked_through_generation r = e.2) (ru_revocations u) es).
  { eapply Forall2_impl; [exact Hf|]. intros r [k g] Hr. by run_ok. }
  split; [|done]. clear Hf. induction Hf' as [|r e l es [Hp _] _ IH]; [done|].
  cbn. rewrite Hp. cbn. by rewrite IH.
Qed.

Lemma zip_entries (P : Revocation -> EndpointId * Z -> Prop) rs es :
  Forall2 P rs es ->
  let l := zip_with (fun revocation '(endpoint_id, generation) =>
             (endpoint_id, (generation, rv_expires_at revocation))) rs es in
  l.*1 = es.*1 /\ length l = length rs.
Proof.
  cbn zeta. induction 1 as [|r [k g] rs es _ _ [IH1 IH2]]; [done|].
  cbn. split; [by rewrite IH1|by rewrite IH2].
Qed.

(** The index an update denotes: one entry per revocation, no identity twice. *)
Lemma validate_revocations_Ok u audience ids :
  validate_revocations u audience = Ok ids ->
  update_validate u = Ok tt /\ ru_audience u = audience /\ NoDup (omap id (update_ids u)) /\
  (forall k g x, ids !! k = Some (g, x) <->
     exists r, names u k r /\ rv_revoked_through_generation r = g /\ rv_expires_at r = x).
Proof.
  unfold validate_revocations. intros Hv. run_ok. destruct x.
  match goal with E : update_entries u = Ok ?l |- _ => rename l into es; pose proof E as He end.
  apply update_entries_Ok in He as [Hids Hf].
  destruct (zip_entries _ _ _ Hf) as [Hl Hlen]. set (l := zip_with _ _ _) in *.
  assert (Hn : NoDup l.*1) by (apply collect_map_size; congruence).
  split_and!; [done..|by rewrite <- Hids, <- Hl|].
  intros k g x. rewrite collect_map_lookup by done. subst l. clear -Hf.
  unfold names. induction Hf as [|r [k' g'] rs es [Hp Hg] _ IH]; cbn.
  - split; [by intros ?%not_elem_of_nil|]. by intros (? & [?%not_elem_of_nil _] & _).
  - rewrite elem_of_cons, IH. setoid_rewrite elem_of_cons. cbn in *. naive_solver.
Qed.

Lemma validate_revocations_total u :
  update_validate u = Ok tt -> NoDup (omap id (update_ids u)) ->
  exists ids, validate_revocations u (ru_audience u) = Ok ids.
Proof.
  intros Hv Hn. pose proof Hv as Hv'. unfold update_validate in Hv'. run_ok.
  match goal with E : update_entries u = Ok ?l |- _ => rename l into es; rename E into Ees;
    pose proof Ees as He end.
  apply update_entries_Ok in He as [Hids Hf].
  eexists. unfold validate_revocations. prove_ok; [exact Hv|done|exact Ees|]. cbv zeta. prove_ok.
  destruct (zip_entries _ _ _ Hf) as [Hl <-]. apply collect_map_size. by rewrite Hl, Hids.
Qed.

(** ** Merging an update *)

Lemma NoDup_names u k r r' :
  NoDup (omap id (update_ids u)) -> names u k r -> names u k r' -> r = r'.
Proof.
  unfold names, update_ids. intros Hn [Hr Hp] [Hr' Hp'].
  induction (ru_revocations u) as [|a l IH]; [by apply not_elem_of_nil in Hr|]. cbn in Hn.
  assert (Hin : forall b, b ∈ l -> id_parse (rv_endpoint_id b) = Some k ->
            k ∈ omap id ((fun r => id_parse (rv_endpoint_id r)) <$> l)).
  { intros b Hb Hpb. apply list_elem_of_omap. exists (Some k). split; [|done].
    apply list_elem_of_fmap. by exists b. }
  apply elem_of_cons in Hr as [->|Hr], Hr' as [->|Hr']; try done.
  - rewrite Hp in Hn. apply NoDup_cons in Hn as [Hn _]. destruct Hn. by apply (Hin r').
  - rewrite Hp' in Hn. apply NoDup_cons in Hn as [Hn _]. destruct Hn. by apply (Hin r).
  - apply IH; try done. destruct (id_parse (rv_endpoint_id a)); [|exact Hn].
    apply NoDup_cons in Hn as [_ Hn]. exact Hn.
Qed.

Lemma omap_ids_sub {P : Revocation -> bool} l :
  NoDup (omap id ((fun r => id_parse (rv_endpoint_id r)) <$> l)) ->
  NoDup (omap (fun r => id_parse (rv_endpoint_id r)) (retain P l)).
Proof.
  induction l as [|a l IH]; [done|]. cbn. destruct (id_parse (rv_endpoint_id a)) as [k|] eqn:E; cbn.
  - intros [Hk Hn]%NoDup_cons. case_match; cbn; [rewrite E|by apply IH].
    apply NoDup_cons. split; [|by apply IH]. intros (r & Hr & Er)%list_elem_of_omap.
    apply elem_of_retain in Hr as [Hr _]. destruct Hk. apply list_elem_of_omap.
    exists (Some k). split; [|done]. apply list_elem_of_fmap. by exists r.
  - intros Hn. case_match; cbn; rewrite ?E; by apply IH.
Qed.

Lemma unexpired_lookup now u k r :
  NoDup (omap id (update_ids u)) ->
  unexpired now u !! k = Some r <-> names u k r /\ now < rv_expires_at r.
Proof.
  intros Hn. unfold unexpired. rewrite collect_map_lookup.
  - rewrite list_elem_of_omap. setoid_rewrite elem_of_retain. setoid_rewrite Z.ltb_lt. unfold names.
    split.
    + intros (r' & [Hr' ?] & E). destruct (id_parse (rv_endpoint_id r')) eqn:Ep; [|done].
      cbn in E. injection E as -> ->. done.
    + intros [[Hr Hp] ?]. exists r. split; [done|]. by rewrite Hp.
  - apply (omap_ids_sub (P := fun r => now <? rv_expires_at r)) in Hn. clear -Hn. revert Hn.
    induction (retain (fun r => now <? rv_expires_at r) (ru_revocations u)) as [|a l IH];
      [constructor|]. cbn. destruct (id_parse (rv_endpoint_id a)) as [k|] eqn:E; cbn; [|done].
    intros [Hk Hn]%NoDup_cons. apply NoDup_cons. split; [|by apply IH].
    intros ([k' r'] & Ek & Hin)%list_elem_of_fmap. cbn in Ek. subst k'. destruct Hk.
    apply list_elem_of_omap in Hin as (b & Hb & Eb). apply list_elem_of_omap. exists b.
    split; [done|]. destruct (id_parse (rv_endpoint_id b)); cbn in Eb; naive_solver.
Qed.

Lemma merge_revocations_Ok merged l merged' :
  NoDup (omap id ((fun r => id_parse (rv_endpoint_id r)) <$> l)) ->
  merge_revocations merged l = Ok merged' ->
  forall k r, merged' !! k = Some r <->
    (r ∈ l /\ id_parse (rv_endpoint_id r) = Some k) \/
    (merged !! k = Some r /\ forall r', r' ∈ l -> id_parse (rv_endpoint_id r') <> Some k).
Proof.
  revert merged. induction l as [|a l IH]; intros merged Hn Hm k r; cbn in Hm.
  - injection Hm as <-. split; [|by intros [[?%not_elem_of_nil _]|[? _]]].
    intros ?. right. split; [done|]. by intros ? ?%not_elem_of_nil.
  - run_ok. rename x into ka. match goal with E : id_parse _ = Some ka |- _ => rename E into Ea end.
    cbn in Hn. rewrite Ea in Hn. apply NoDup_cons in Hn as [Hka Hn].
    assert (Hfresh : forall b, b ∈ l -> id_parse (rv_endpoint_id b) <> Some ka).
    { intros b Hb Eb. apply Hka. apply list_elem_of_omap. exists (Some ka). split; [|done].
      apply list_elem_of_fmap. by exists b. }
    rewrite (IH _ Hn Hm). setoid_rewrite elem_of_cons.
    destruct (decide (k = ka)) as [->|Hne]; [rewrite lookup_insert_eq|rewrite lookup_insert_ne by done];
      naive_solver.
Qed.

(** The state file's form of a merged map. *)
Definition sorted_values (m : gmap EndpointId Revocation) : list Revocation :=
  merge_sort revocation_order (map_to_list m).*2.

(** Every revocation sits under its own identity. *)
Definition keyed_by_id (m : gmap EndpointId Revocation) : Prop :=
  forall k r, m !! k = Some r -> id_parse (rv_endpoint_id r) = Some k.

Lemma elem_of_sorted_values m r : r ∈ sorted_values m <-> exists k, m !! k = Some r.
Proof.
  unfold sorted_values. rewrite merge_sort_Permutation, list_elem_of_fmap. split.
  - intros ([k r'] & -> & Hin). exists k. by apply elem_of_map_to_list.
  - intros [k Hk]. exists (k, r). split; [done|]. by apply elem_of_map_to_list.
Qed.

Lemma names_sorted_values u m k r :
  ru_revocations u = sorted_values m -> keyed_by_id m -> names u k r <-> m !! k = Some r.
Proof.
  intros Eu Hm. unfold names. rewrite Eu, elem_of_sorted_values. split.
  - intros [[k' Hk'] Hp]. pose proof (Hm _ _ Hk'). congruence.
  - intros Hk. eauto.
Qed.

Lemma sorted_values_NoDup u m :
  ru_revocations u = sorted_values m -> keyed_by_id m -> NoDup (omap id (update_ids u)).
Proof.
  intros Eu Hm. unfold update_ids. rewrite Eu. unfold sorted_values.
  assert (Hp : omap id ((fun r => id_parse (rv_endpoint_id r)) <$>
                 merge_sort revocation_order (map_to_list m).*2) ≡ₚ (map_to_list m).*1).
  { rewrite merge_sort_Permutation.
    assert (Hall : forall p, p ∈ map_to_list m -> id_parse (rv_endpoint_id p.2) = Some p.1).
    { intros [k r] Hin. by apply Hm, elem_of_map_to_list. }
    apply eq_subrelation; [apply _|]. revert Hall.
    induction (map_to_list m) as [|[k r] l IH]; intros Hall; [done|]. cbn.
    pose proof (Hall (k, r) (list_elem_of_here _ _)) as Hkr. cbn in Hkr. rewrite Hkr. cbn.
    f_equal. apply IH.
    intros p Hp. by apply Hall, list_elem_of_further. }
  rewrite Hp. apply NoDup_fst_map_to_list.
Qed.

(** ** The Relay's invariant *)

(** The index in memory and the state file are the current revocations'. *)
Definition relay_ok relay : Prop :=
  validate_revocations (rl_current relay) (rl_audience relay) = Ok (rl_revoked relay) /\
  rl_state_file relay = rl_current relay.

Lemma relay_ok_index relay : relay_ok relay ->
  NoDup (omap id (update_ids (rl_current relay))) /\
  (forall k g x, rl_revoked relay !! k = Some (g, x) <->
     exists r, names (rl_current relay) k r /\ rv_revoked_through_generation r = g /\
       rv_expires_at r = x).
Proof. intros [(_ & _ & ? & ?)%validate_revocations_Ok _]. done. Qed.

(** The outcome of a newer update on the index: its own entries replace the old
    ones, the others stay while they last. *)
Definition index_after (now : Z) (old : RevocationIndex) (update : RevocationUpdate)
  (new : RevocationIndex) : Prop :=
  forall k g x, new !! k = Some (g, x) <->
    (exists r, names update k r /\ rv_revoked_through_generation r = g /\ rv_expires_at r = x) \/
    (old !! k = Some (g, x) /\ now < x /\ forall r, ~ names update k r).

Lemma merged_keyed now relay update merged :
  relay_ok relay -> NoDup (omap id (update_ids update)) ->
  merge_revocations (unexpired now (rl_current relay)) (ru_revocations update) = Ok merged ->
  keyed_by_id merged /\
  forall k r, merged !! k = Some r <-> names update k r \/
    (names (rl_current relay) k r /\ now < rv_expires_at r /\ forall r', ~ names update k r').
Proof.
  intros Hok Hn Hm. destruct (relay_ok_index relay Hok) as [Hnc _].
  assert (Hspec : forall k r, merged !! k = Some r <-> names update k r \/
    (names (rl_current relay) k r /\ now < rv_expires_at r /\ forall r', ~ names update k r')).
  { intros k r. rewrite (merge_revocations_Ok _ _ _ Hn Hm k r), unexpired_lookup by done.
    unfold names. naive_solver. }
  split; [|done]. intros k r [[_ ?]|[[_ ?] _]]%Hspec; done.
Qed.

Lemma apply_newer_Ok io now relay update delta relay' st :
  relay_ok relay -> validate_revocations update (rl_audience relay) = Ok delta ->
  apply_newer_version io now relay update delta = (relay', Ok st) ->
  relay_ok relay' /\ ru_version (rl_current relay') = ru_version update /\
  rl_audience relay' = rl_audience relay /\ rl_authority_id relay' = rl_authority_id relay /\
  rl_enrollment_revoked relay' = rl_enrollment_revoked relay /\
  index_after now (rl_revoked relay) update (rl_revoked relay') /\
  rl_disconnected relay' = (rl_disconnected relay ++ newly_revoked now (rl_revoked relay) delta)%list.
Proof.
  intros Hok Hv Ha. unfold apply_newer_version in Ha.
  match type of Ha with (match ?e with _ => _ end) = _ => destruct e as [[acc next]|] eqn:E; [|done] end.
  injection Ha as <- <-. run_ok. rename x1 into merged.
  match goal with E : validate_revocations _ _ = Ok next |- _ => rename E into Hn end.
  apply validate_revocations_Ok in Hv as (_ & _ & Hnd & _).
  edestruct (merged_keyed now relay update) as [Hk Hspec]; [done..|].
  split_and!; try done. cbn. apply validate_revocations_Ok in Hn as (_ & _ & _ & Hix).
  destruct (relay_ok_index relay Hok) as [_ Hold].
  match type of Hix with context [names ?u] =>
    assert (Hnames : forall k r, names u k r <-> merged !! k = Some r)
      by (intros; by apply names_sorted_values) end.
  intros k g e. rewrite Hix. setoid_rewrite Hnames. setoid_rewrite Hspec. rewrite Hold. naive_solver.
Qed.

Lemma names_pruned u now k r :
  names (update_with_revocations u (retain (fun r => now <? rv_expires_at r) (ru_revocations u))) k r <->
  names u k r /\ now < rv_expires_at r.
Proof. unfold names; cbn. rewrite elem_of_retain, Z.ltb_lt. tauto. Qed.

Lemma apply_same_Ok io now relay update relay' r :
  relay_ok relay -> apply_same_version io now relay update = (relay', r) ->
  relay_ok relay' /\ ru_version (rl_current relay') = ru_version (rl_current relay) /\
  rl_audience relay' = rl_audience relay /\ rl_authority_id relay' = rl_authority_id relay /\
  rl_enrollment_revoked relay' = rl_enrollment_revoked relay /\
  (forall k g x, rl_revoked relay' !! k = Some (g, x) -> rl_revoked relay !! k = Some (g, x)) /\
  (forall k g x, rl_revoked relay !! k = Some (g, x) -> now < x -> rl_revoked relay' !! k = Some (g, x)).
Proof.
  intros Hok Ha. unfold apply_same_version in Ha. case_match; [|by simplify_eq].
  case_match; [|by simplify_eq].
  destruct (validate_revocations _ _) as [active|] eqn:Ev; [|by simplify_eq].
  destruct io; [|by simplify_eq]. simplify_eq. cbn.
  destruct (relay_ok_index relay Hok) as [_ Hold].
  pose proof (validate_revocations_Ok _ _ _ Ev) as (_ & _ & _ & Hix).
  setoid_rewrite names_pruned in Hix.
  split_and!; try done.
  - intros k g x (r & [? _] & ? & ?)%Hix. apply Hold. eauto.
  - intros k g x (r & ? & ? & <-)%Hold ?. apply Hix. eauto.
Qed.

Lemma apply_Ok io now relay signed relay' r :
  relay_ok relay -> apply_revocation_update io now relay signed = (relay', r) ->
  relay_ok relay' /\ ru_version (rl_current relay) <= ru_version (rl_current relay') /\
  rl_audience relay' = rl_audience relay /\ rl_authority_id relay' = rl_authority_id relay /\
  rl_enrollment_revoked relay' = rl_enrollment_revoked relay.
Proof.
  intros Hok Ha. unfold apply_revocation_update in Ha.
  match type of Ha with (match ?e with _ => _ end) = _ => destruct e as [delta|] eqn:E end;
    [|by simplify_eq]. run_ok.
  case_match; [by simplify_eq|]. case_match.
  - apply apply_same_Ok in Ha as (? & -> & ? & ? & ? & _); done.
  - destruct r as [st|e]; [|unfold apply_newer_version in Ha; by repeat case_match; simplify_eq].
    eapply apply_newer_Ok in Ha as (? & -> & ? & ? & ? & _); [|done..]. breflect. done.
Qed.

(** ** Accepting an update *)

Lemma merge_revocations_total (merged : gmap EndpointId Revocation) (l : list Revocation) :
  NoDup (omap id ((fun r => id_parse (rv_endpoint_id r)) <$> l)) ->
  (forall r, r ∈ l -> exists k, id_parse (rv_endpoint_id r) = Some k /\
     forall r0, merged !! k = Some r0 ->
       rv_revoked_through_generation r0 <= rv_revoked_through_generation r) ->
  exists merged', merge_revocations merged l = Ok merged'.
Proof.
  revert merged. induction l as [|a l IH]; intros merged Hn Hl; [eauto|].
  destruct (Hl a (list_elem_of_here _ _)) as (k & Hk & Hmono). cbn in Hn. rewrite Hk in Hn.
  apply NoDup_cons in Hn as [Hfresh Hn].
  destruct (IH (<[k := a]> merged) Hn) as [merged' Hm].
  - intros r Hr. destruct (Hl r (list_elem_of_further _ _ _ Hr)) as (k' & Hk' & ?).
    exists k'. split; [done|]. intros r0. rewrite lookup_insert_ne; [eauto|]. intros <-.
    apply Hfresh, list_elem_of_omap. exists (Some k). split; [|done]. apply list_elem_of_fmap. by exists r.
  - exists merged'. cbn. prove_ok; [exact Hk| |exact Hm]. destruct (merged !! k) as [r0|] eqn:E; [|done].
    apply negb_true_iff, Z.ltb_ge. eauto.
Qed.

(** What it takes for the Relay to accept a newer update: its clock agrees with
    Control's, the disk works, and the update continues what the Relay has
    without taking a generation back. *)
Lemma apply_newer_total now relay update delta :
  relay_ok relay -> validate_revocations update (rl_audience relay) = Ok delta ->
  Z.abs (now - ru_issued_at update) <= MAX_CLOCK_SKEW_SECS ->
  ru_version (rl_current relay) <= ru_version update ->
  (forall r, r ∈ ru_revocations update -> ru_version (rl_current relay) < rv_revision r) ->
  (forall k r r0, names update k r -> names (rl_current relay) k r0 -> now < rv_expires_at r0 ->
     rv_revoked_through_generation r0 <= rv_revoked_through_generation r) ->
  exists relay' status, apply_newer_version true now relay update delta = (relay', Ok status).
Proof.
  intros Hok Hval Hage Hver Hrev Hmono. pose proof Hok as [Hcur _].
  pose proof (validate_revocations_Ok _ _ _ Hval) as (Huv%update_validate_Ok & Ha & Hn & _).
  apply validate_revocations_Ok in Hcur as (Hcv%update_validate_Ok & Hca & Hcn & _).
  destruct Huv as (_ & Haud & Hue). destruct Hcv as (_ & _ & Hce). rewrite Forall_forall in Hue, Hce.
  destruct (merge_revocations_total (unexpired now (rl_current relay)) (ru_revocations update) Hn)
    as [merged Hm].
  { intros r Hr. destruct (Hue r Hr) as (_ & _ & [k Hk]). exists k. split; [done|].
    intros r0 [? ?]%unexpired_lookup; [|done]. by eapply (Hmono k r r0). }
  edestruct (merged_keyed now relay update) as [Hkeyed Hspec]; [done..|].
  set (acc := {| ru_protocol_version := RELAY_PROTOCOL_VERSION; ru_audience := ru_audience update;
      ru_version := ru_version update; ru_issued_at := ru_issued_at update;
      ru_revocations := sorted_values merged |}).
  destruct (validate_revocations_total acc) as [next Hnext].
  { apply update_validate_Ok. split_and!; [done..|]. apply Forall_forall.
    intros r [k [[Hr _]|([Hr _] & _)]%Hspec]%elem_of_sorted_values; [by apply Hue|].
    destruct (Hce r Hr) as (? & ? & ?). split_and!; [done|cbn; lia..|done]. }
  { by eapply sorted_values_NoDup. }
  unfold apply_newer_version.
  match goal with |- context [match ?e with _ => _ end] => assert (E : e = Ok (acc, next)) end;
    [|rewrite E; eauto].
  cbn in Hnext. rewrite Ha in Hnext. prove_ok; try done.
  - unfold i64_saturating_sub, i64_clamp, i64_min, i64_max, MAX_CLOCK_SKEW_SECS in *. lia.
  - apply any_false. intros r Hr%Hrev. apply Z.leb_gt. lia.
Qed.

(** ** Properties of the Relay *)

Lemma on_connect_Allow relay endpoint_id token now :
  on_connect relay endpoint_id token now = Allow <->
  rl_enrollment_revoked relay = false /\
  exists t signed, token = Some t /\ credential_decode t = Ok signed /\
    credential_verify signed (rl_authority_id relay) = Ok tt /\
    credential_validate (src_credential signed) = Ok tt /\
    rc_audience (src_credential signed) = rl_audience relay /\
    id_parse (rc_endpoint_id (src_credential signed)) = Some endpoint_id /\
    rc_issued_at (src_credential signed) <= i64_saturating_add now MAX_CLOCK_SKEW_SECS /\
    now < rc_expires_at (src_credential signed) /\
    (forall g x, rl_revoked relay !! endpoint_id = Some (g, x) -> now < x ->
       g < rc_generation (src_credential signed)).
Proof.
  unfold on_connect. destruct (rl_enrollment_revoked relay); [naive_solver|].
  assert (Hr : forall g, 0 < g -> revoked_through (rl_revoked relay) endpoint_id now < g <->
    (forall g' x, rl_revoked relay !! endpoint_id = Some (g', x) -> now < x -> g' < g)).
  { intros g Hg. unfold revoked_through. destruct (rl_revoked relay !! endpoint_id) as [[g' x]|].
    - destruct (Z.ltb_spec now x); split; naive_solver lia.
    - naive_solver. }
  split.
  - destruct (validate_credential _ _ _ _ _ _) as [[]|] eqn:E; [|done]. intros _. split; [done|].
    unfold validate_credential, credential_endpoint_id in E. run_ok.
    repeat match goal with u : unit |- _ => destruct u end. do 2 eexists.
    split_and!; try done; [congruence|]. match goal with E : credential_validate _ = _ |- _ => apply credential_validate_Ok in E end.
    apply Hr; [tauto|done].
  - intros (_ & t & signed & -> & Hd & Hv & Hval & Ha & Hid & Hi & Hx & Hg).
    assert (E : validate_credential (Some t) endpoint_id (rl_authority_id relay) (rl_audience relay)
                  (rl_revoked relay) now = Ok tt); [|by rewrite E].
    unfold validate_credential, credential_endpoint_id. prove_ok; try done.
    apply credential_validate_Ok in Hval. apply Hr; tauto.
Qed.

(** C11. Admission is exactly by credential: the Relay lets an endpoint in if and
    only if its enrollment stands and the token is a credential signed by its
    Control for this audience and this endpoint, already and still valid, with a
    generation above any revocation of the endpoint that has not expired. *)
Theorem admission_is_by_credential relay endpoint_id token now :
  on_connect relay endpoint_id token now = Allow <->
  rl_enrollment_revoked relay = false /\
  exists t signed, token = Some t /\ credential_decode t = Ok signed /\
    credential_verify signed (rl_authority_id relay) = Ok tt /\
    credential_validate (src_credential signed) = Ok tt /\
    rc_audience (src_credential signed) = rl_audience relay /\
    id_parse (rc_endpoint_id (src_credential signed)) = Some endpoint_id /\
    rc_issued_at (src_credential signed) <= i64_saturating_add now MAX_CLOCK_SKEW_SECS /\
    now < rc_expires_at (src_credential signed) /\
    (forall g x, rl_revoked relay !! endpoint_id = Some (g, x) -> now < x ->
       g < rc_generation (src_credential signed)).
Proof. apply on_connect_Allow. Qed.

(** Whatever Control answers, and whether or not the disk works, the index
    the Relay admits by is the one of its current revocations, which is what the
    state file holds, and the applied revision never goes back. *)
Theorem polling_keeps_relay_consistent io now control_id audience relay answer :
  relay_ok relay ->
  let relay' := (poll_answer io now control_id audience relay answer).1 in
  relay_ok relay' /\ ru_version (rl_current relay) <= ru_version (rl_current relay').
Proof.
  intros Hok. destruct answer; cbn; try done.
  - case_match; [|done]. destruct (apply_revocation_update _ _ _ _) as [relay' r] eqn:Ea.
    apply apply_Ok in Ea as (? & ? & _); [|done]. by destruct r.
  - case_match; done.
Qed.

Lemma on_connect_revoked relay id token c g x t :
  rl_revoked relay !! id = Some (g, x) -> credential_decode token = Ok c ->
  rc_generation (src_credential c) <= g -> t < x -> on_connect relay id (Some token) t <> Allow.
Proof.
  intros Hix Hd Hg Hx (_ & t' & c' & [= <-] & Hd' & _ & _ & _ & _ & _ & _ & Hgen)%on_connect_Allow.
  specialize (Hgen g x Hix Hx). rewrite Hd in Hd'. injection Hd' as ->. lia.
Qed.

(** C32. Revocations take effect at once: when the Relay has applied a newer
    update, no credential of a revoked generation gets an endpoint in until the
    revocation expires, and the live connections of every endpoint the update
    newly revokes have been closed. *)
Theorem revocations_take_effect io now relay signed relay' st r id :
  relay_ok relay -> ru_version (rl_current relay) < ru_version (sru_update signed) ->
  apply_revocation_update io now relay signed = (relay', Ok st) ->
  r ∈ ru_revocations (sru_update signed) -> id_parse (rv_endpoint_id r) = Some id ->
  (forall token c t, credential_decode token = Ok c ->
     rc_generation (src_credential c) <= rv_revoked_through_generation r -> t < rv_expires_at r ->
     on_connect relay' id (Some token) t <> Allow) /\
  (now < rv_expires_at r ->
   revoked_through (rl_revoked relay) id now < rv_revoked_through_generation r ->
   id ∈ rl_disconnected relay').
Proof.
  intros Hok Hver Ha Hr Hid. unfold apply_revocation_update in Ha.
  match type of Ha with (match ?e with _ => _ end) = _ => destruct e as [delta|] eqn:E end;
    [|done]. run_ok.
  destruct (Z.ltb_spec (ru_version (sru_update signed)) (ru_version (rl_current relay))); [done|].
  rewrite bool_decide_eq_false_2 in Ha by lia.
  eapply apply_newer_Ok in Ha as (_ & _ & _ & _ & _ & Hix & Hdis); [|done..]. split.
  - intros token c t Hd Hg Ht. eapply on_connect_revoked; [|done..]. apply Hix. left. by exists r.
  - intros Hx Hnew. rewrite Hdis. apply elem_of_app. right. unfold newly_revoked.
    apply list_elem_of_omap.
    exists (id, (rv_revoked_through_generation r, rv_expires_at r)). split.
    + apply elem_of_map_to_list. apply validate_revocations_Ok in E as (_ & _ & _ & Hd).
      apply Hd. by exists r.
    + apply Z.ltb_lt in Hx, Hnew. by rewrite Hx, Hnew.
Qed.

(** ** Restarts *)

Lemma start_ok io now control_id audience marker file relay :
  start io now control_id audience marker file = Ok relay ->
  relay_ok relay /\ rl_audience relay = audience /\ id_parse control_id = Some (rl_authority_id relay) /\
  marker = false /\ rl_enrollment_revoked relay = false.
Proof. intros Hs. unfold start, bring_up in Hs. run_ok. by destruct marker. Qed.

(** A start on the directory of [relay] finds its revocations again. *)
Definition restart (io : bool) (now : Z) relay : result string Relay :=
  start io now (id_to_string (rl_authority_id relay)) (rl_audience relay) (rl_revoked_marker relay)
    (Some (to_vec (rl_state_file relay))).

Lemma restart_same `{!KeysLaws, !SerdeLaws RevocationUpdate} io now relay relay' :
  relay_ok relay -> restart io now relay = Ok relay' ->
  rl_audience relay' = rl_audience relay /\ rl_authority_id relay' = rl_authority_id relay /\
  rl_current relay' = rl_current relay /\ rl_revoked relay' = rl_revoked relay.
Proof.
  intros [Hv Hf] Hs. unfold restart in Hs. pose proof (start_ok _ _ _ _ _ _ _ Hs) as ([Hv' _] & Ea & Ep & _).
  rewrite id_parse_to_string in Ep. injection Ep as Ep.
  assert (Ec : rl_current relay' = rl_current relay).
  { unfold start, bring_up, load_or_initialize in Hs. rewrite from_slice_to_vec in Hs. cbn in Hs. run_ok. done. }
  rewrite Ec, Ea, Hv in Hv'. injection Hv' as ->. done.
Qed.

(** Restarts forget nothing: a Relay started again on its own state
    directory has the same revocations and admits exactly whom it admitted
    before, and one whose revocation marker was written never starts again. *)
Theorem restart_preserves_admission `{!KeysLaws, !SerdeLaws RevocationUpdate} io now relay :
  relay_ok relay -> Str.is_blank (rl_audience relay) = false ->
  if rl_revoked_marker relay then exists e, restart io now relay = Err e
  else exists relay', restart io now relay = Ok relay' /\ relay_ok relay' /\
    rl_current relay' = rl_current relay /\
    (rl_enrollment_revoked relay = false ->
     forall id token t, on_connect relay' id token t = on_connect relay id token t).
Proof.
  intros Hok Ha. destruct (rl_revoked_marker relay) eqn:Em.
  - unfold restart, start. rewrite id_parse_to_string, Ha, Em. cbn. eauto.
  - assert (Hs : exists relay', restart io now relay = Ok relay').
    { destruct Hok as [Hv Hf]. eexists. unfold restart, start, bring_up, load_or_initialize.
      rewrite id_parse_to_string, Ha, Em, from_slice_to_vec, Hf. cbn. rewrite Hv. reflexivity. }
    destruct Hs as [relay' Hs]. exists relay'.
    pose proof (start_ok _ _ _ _ _ _ _ Hs) as (? & _ & _ & _ & Ee).
    destruct (restart_same _ _ _ _ Hok Hs) as (Ea & Eu & ? & Er).
    split_and!; [done..|]. intros E id token t. unfold on_connect. by rewrite Ee, E, Ea, Eu, Er.
Qed.
End Facts.
