(* ===== verification/System.v ===== *)
(** * Control and a Relay together

    Composes the Control store of [ControlHandlers.v] with the Relay of [Relay.v]
    through the exchange of [poll_control] with [relay_watch]: what Control
    revokes, an up-to-date Relay refuses, and a Relay that can reach Control
    becomes up to date. *)
From S2P Require Import Prelude Deps RelayApi ControlApi State Database ControlCore ControlHandlers.
From S2P Require Import ControlSpec ControlInvariant NodeMaps Relay.
Open Scope string_scope.
Open Scope Z_scope.
Import Vec.

Section System.
Context `{KeysLaws, EncodingsLaws, !ControlSerde, !Certificates, !Urls}.
Context `{!Serde RelayCredential, !Serde SignedRelayCredential, !Serde RevocationUpdate}.
Context `{!SerdeLaws RevocationUpdate}.
Implicit Types (s : Store) (st : ControlState) (relay : Relay).

Record System := { sys_control : Store; sys_relay : Relay }.

(** What the Relay [relay_id] that knows [known] gets from [relay_watch] when
    nothing else happens during the request: the wait, then the answer. *)
Definition control_answer (env : Env) (relay_id : EndpointId) (known : Z) s : Answer :=
  match wait_for_relay_revision relay_id known [] s with
  | (_, Err e) => Status (ae_status e)
  | (_, Ok false) => NoContent
  | (s, Ok true) =>
      match relay_watch_respond env relay_id known s with
      | (_, Ok signed) => Update signed
      | (_, Err e) => Status (ae_status e)
      end
  end.

(** One turn of [poll_control]: the Relay asks with the revision it has. *)
Definition poll (env : Env) (io : bool) (now : Z) (relay_id : EndpointId) s relay : Relay :=
  fst (poll_answer io now (rl_authority_id relay) (rl_audience relay) relay
         (control_answer env relay_id (ru_version (rl_current relay)) s)).

(** Control's operations, the Relay's polls, polls that got another answer than
    an update, and restarts of the Relay, in any order. An update that takes time
    to arrive is an [EPoll] before the operations that overtake it: neither side
    reads the other's state in between. *)
Inductive Event :=
| EControl (env : Env) (op : Operation)
| EPoll (env : Env) (io : bool) (now : Z) (relay_id : EndpointId)
| EPollFailed (io : bool) (now : Z) (answer : Answer)
| ERestart (io : bool) (now : Z).

Definition is_update (answer : Answer) : bool :=
  match answer with Update _ => true | _ => false end.

Definition sys_step (event : Event) (sys : System) : System :=
  let s := sys_control sys in
  let relay := sys_relay sys in
  match event with
  | EControl env op => {| sys_control := perform env op s; sys_relay := relay |}
  | EPoll env io now relay_id =>
      {| sys_control := s; sys_relay := poll env io now relay_id s relay |}
  | EPollFailed io now answer =>
      {| sys_control := s;
         sys_relay := if is_update answer then relay
           else fst (poll_answer io now (rl_authority_id relay) (rl_audience relay) relay answer) |}
  | ERestart io now =>
      {| sys_control := s; sys_relay := default relay (match restart io now relay with
                                                       | Ok relay' => Some relay' | Err _ => None end) |}
  end.

Definition sys_run (events : list Event) (sys : System) : System :=
  fold_left (fun sys event => sys_step event sys) events sys.

(** No clock of the event reads past [t]. *)
Definition clocks_before (t : Z) (event : Event) : Prop :=
  match event with
  | EControl env _ => env_received env <= t /\ env_now env <= t
  | EPoll _ _ now _ | EPollFailed _ now _ | ERestart _ now => now <= t
  end.

(** ** How the Relay's index follows Control's revocations *)

(** [t] bounds the clock readings so far. *)
Record follows (t : Z) s relay : Prop := {
  fo_relay : relay_ok relay;
  fo_audience : rl_audience relay = st_audience (s_state s);
  fo_authority : rl_authority_id relay = public (s_key s);
  fo_version : ru_version (rl_current relay) <= st_relay_revision (s_state s);
  (* what the Relay should know by its version, it knows while it matters *)
  fo_complete : forall v id, v ∈ st_revocations (s_state s) ->
    v_revision v <= ru_version (rl_current relay) -> v_endpoint_id v = id_to_string id ->
    v_expires_at v <= t \/
    exists g x, rl_revoked relay !! id = Some (g, x) /\ v_generation v <= g /\ v_expires_at v <= x;
  (* and what it knows, Control has revoked *)
  fo_sound : forall id g x, rl_revoked relay !! id = Some (g, x) ->
    x <= t \/ revoked (s_state s) (id_to_string id) g x;
}.

Lemma perform_audience env op s :
  store_ok s -> st_audience (s_state (perform env op s)) = st_audience (s_state s) /\
    s_key (perform env op s) = s_key s.
Proof.
  intros Hok. destruct (perform_step env op s Hok)
    as [->|(now & delta & r & rr & _ & _ & _ & _ & E & Ek & _)]; [done|].
  rewrite E. cbn. split; [apply fold_audience|done].
Qed.

(** Control's operations keep the Relay behind, never wrong. *)
Lemma follows_perform t env op s relay :
  store_ok s -> env_received env <= t -> env_now env <= t ->
  follows t s relay -> follows t (perform env op s) relay.
Proof.
  intros Hok ? ? [Hr Ha Hk Hv Hc Hs]. destruct (perform_audience env op s Hok) as [Ea Ek].
  destruct (perform_step env op s Hok)
    as [->|(now & delta & r & rr & Hnow & Hm & Hn1 & Hn2 & E & _ & _)]; [done|].
  pose proof (store_ok_state s Hok) as Hst.
  destruct (next_revisions _ _ _ _ Hn1 Hn2) as (_ & Err & Hsat).
  split; rewrite ?Ea, ?Ek; try done; rewrite E; cbn.
  - subst rr. destruct (d_publish delta); lia.
  - intros v id Hin Hrev Hid.
    destruct (mutation_new_revocation _ _ _ _ _ Hst Hm Hin) as [Hin'|[Hp Hrv]]; [by apply Hc|].
    rewrite (Hsat Hp) in Hrv. lia.
  - intros id g x [?|Hrv]%Hs; [by left|].
    destruct (mutation_revoked _ _ _ _ _ _ _ Hst Hm Hrv) as [?|?]; [by right|].
    left. destruct Hnow as [-> | ->]; lia.
Qed.

(** ** Polls *)

Lemma control_answer_Update env relay_id known s signed :
  control_answer env relay_id known s = Update signed ->
  known < st_relay_revision (s_state s) /\
  sru_update signed = revocation_update (env_now env) (s_state s) known /\
  update_verify signed (public (s_key s)) = Ok tt.
Proof.
  unfold control_answer, relay_watch_respond. cbn [wait_for_relay_revision].
  destruct (anyhow_relay_exists (s_state s) relay_id) eqn:Ex; [|done].
  destruct (_ <? known); [done|]. destruct (Z.ltb_spec known (st_relay_revision (s_state s))); [|done].
  unfold mbind, Handler.handler_bind, Handler.get, Handler.lift. rewrite Ex.
  destruct (update_sign _ _) as [u|] eqn:Eu; cbn; [|done]. intros [= <-].
  unfold update_sign in Eu. run_ok. cbn. split_and!; [done..|].
  unfold update_verify; cbn. prove_ok. apply id_verify_sign.
Qed.

(** An update names exactly the revocations the Relay has not seen. *)
Lemma names_update now s known id r :
  numbering_ok (s_state s) ->
  names (revocation_update now (s_state s) known) id r <->
  exists v, v ∈ st_revocations (s_state s) /\ known < v_revision v /\
    v_endpoint_id v = id_to_string id /\ r = revocation_of v.
Proof.
  intros Hn. unfold names. rewrite elem_of_update. split.
  - intros [(v & Hv & ? & ->) Hp]. exists v. cbn in Hp.
    destruct (no_revocations _ _ _ Hn v Hv) as (_ & _ & [id' E]). rewrite E in Hp.
    rewrite id_parse_to_string in Hp. injection Hp as <-. done.
  - intros (v & Hv & ? & E & ->). split; [eauto|]. cbn. by rewrite E, id_parse_to_string.
Qed.

Lemma revocation_unique s v v' :
  state_ok (s_state s) -> v ∈ st_revocations (s_state s) -> v' ∈ st_revocations (s_state s) ->
  v_endpoint_id v = v_endpoint_id v' -> v = v'.
Proof. intros [] ? ? ?. destruct so_revocations as [Hu _]. by eapply Keyed.unique_inj. Qed.

Lemma follows_newer t io env now s relay delta relay' status :
  store_ok s -> numbering_ok (s_state s) -> follows t s relay -> now <= t ->
  let update := revocation_update (env_now env) (s_state s) (ru_version (rl_current relay)) in
  validate_revocations update (rl_audience relay) = Ok delta ->
  apply_newer_version io now relay update delta = (relay', Ok status) ->
  follows t s relay' /\ ru_version (rl_current relay') = st_relay_revision (s_state s).
Proof.
  intros Hok Hn [Hr Ha Hk Hv Hc Hs] Ht update Hval Hap.
  destruct (apply_newer_Ok _ _ _ _ _ _ _ Hr Hval Hap) as (? & Ever & Ea & Eu & _ & Hix & _).
  split; [|done]. split; rewrite ?Ea, ?Eu, ?Ever; try done.
  - intros v id Hin _ Hid. destruct (Z.le_gt_cases (v_revision v) (ru_version (rl_current relay))) as [Hle|Hgt].
    + destruct (Hc v id Hin Hle Hid) as [?|(g & x & Hl & ? & ?)]; [by left|].
      destruct (Z.le_gt_cases x now); [left; lia|]. right. exists g, x. split; [|done].
      apply Hix. right. split_and!; [done|lia|].
      intros r (v' & Hv' & ? & Hid' & _)%names_update; [|done].
      rewrite (revocation_unique s v v') in Hle; [lia|by apply store_ok_state|done..|congruence].
    + right. exists (v_generation v), (v_expires_at v). split; [|lia]. apply Hix. left.
      exists (revocation_of v). split; [|done]. apply names_update; [done|]. exists v. split_and!; [done|lia|done..].
  - intros id g x [(r & Hr' & <- & <-)|(Hl & _)]%Hix; [|by apply Hs].
    apply names_update in Hr' as (v & Hin & _ & Hid & ->); [|done]. right. by exists v.
Qed.

Lemma follows_poll t env io now relay_id s relay :
  store_ok s -> numbering_ok (s_state s) -> now <= t ->
  follows t s relay -> follows t s (poll env io now relay_id s relay).
Proof.
  intros Hok Hn Ht Hf. unfold poll.
  destruct (control_answer env relay_id _ s) as [|signed| |code|] eqn:Ea; cbn; try done.
  - destruct (control_answer_Update _ _ _ _ _ Ea) as (Hlt & Eu & Hver). unfold apply_revocation_update.
    rewrite Eu, (fo_authority _ _ _ Hf), Hver. cbn [mbind result_bind map_err].
    destruct (validate_revocations _ _) as [delta|] eqn:Ed; [|done]. cbn [map_err].
    cbn [ru_version revocation_update].
    destruct (Z.ltb_spec (st_relay_revision (s_state s)) (ru_version (rl_current relay))); [lia|].
    rewrite bool_decide_eq_false_2 by lia.
    destruct (apply_newer_version _ _ _ _ _) as [relay' [status|]] eqn:En; cbn.
    + by eapply follows_newer in En as [? _].
    + unfold apply_newer_version in En. by repeat case_match; simplify_eq.
  - case_match; [|done]. by destruct Hf.
Qed.

(** A response of [relay_watch] as [poll_control] sees it. *)
Definition answer_of (r : result ApiError (option SignedRevocationUpdate)) : Answer :=
  match r with
  | Ok None => NoContent
  | Ok (Some signed) => Update signed
  | Err e => Status (ae_status e)
  end.

(** [control_answer] is what the endpoint returns to an admissible request of a
    Relay whose QAD port is current. *)
Lemma relay_watch_answer env relay_id request record s :
  verification_permit env = Ok tt -> watch_verify request = Ok relay_id ->
  check_time (wr_issued_at request) (env_received env) = Ok tt ->
  validate_qad_port (wr_relay_qad_port request) = Ok tt ->
  (default 0 (s_watches s !! id_to_string relay_id) < WATCHES_PER_ENDPOINT)%nat ->
  find (fun r => r_endpoint_id r == id_to_string relay_id) (st_relays (s_state s)) = Some record ->
  r_qad_port record = wr_relay_qad_port request ->
  answer_of (snd (relay_watch env id [] id request s)) =
  control_answer env relay_id (wr_known_revision request) s.
Proof.
  intros Hp Hv Ht Hq Hw Hf Hport. unfold relay_watch.
  unfold mbind, Handler.handler_bind, Handler.lift. rewrite Hp, Hv, Ht, Hq. cbn [map_err].
  unfold with_watch, watch_acquire. rewrite (proj2 (Nat.leb_gt _ _) Hw).
  unfold update_relay_qad_port_if_needed, mbind, Handler.handler_bind, Handler.get, Handler.lift.
  cbn [s_state]. rewrite Hf. cbn [of_option]. rewrite Hport, bool_decide_eq_true_2 by done.
  cbn [mret Handler.handler_ret]. unfold control_answer. cbn [wait_for_relay_revision s_state].
  unfold relay_watch_respond, Handler.interleave, mbind, Handler.handler_bind, Handler.get, Handler.lift.
  destruct (anyhow_relay_exists (s_state s) relay_id) eqn:Ex; [|done].
  destruct (_ <? wr_known_revision request); [done|]. destruct (wr_known_revision request <? _); [|done].
  cbn [negb id s_state s_key]. rewrite Ex. by destruct (map_err _ _).
Qed.

(** ** Runs of the system *)

Definition control_ops (events : list Event) : list (Env * Operation) :=
  omap (fun event => match event with EControl env op => Some (env, op) | _ => None end) events.

Lemma sys_run_control events sys :
  sys_control (sys_run events sys) = run (control_ops events) (sys_control sys).
Proof.
  revert sys. induction events as [|event events IH]; intros sys; [done|].
  cbn. rewrite IH. by destruct event.
Qed.

Record sys_ok (t : Z) (sys : System) : Prop := {
  sk_store : store_ok (sys_control sys);
  sk_numbering : numbering_ok (s_state (sys_control sys));
  sk_follows : follows t (sys_control sys) (sys_relay sys);
}.

Lemma follows_restart t io now s relay relay' :
  follows t s relay -> restart io now relay = Ok relay' -> follows t s relay'.
Proof.
  intros [Hr Ha Hk Hv Hc Hs] Hre. destruct (restart_same _ _ _ _ Hr Hre) as (Ea & Eu & Ec & Ei).
  apply start_ok in Hre as (? & _). split; rewrite ?Ea, ?Eu, ?Ec, ?Ei; done.
Qed.

Lemma sys_step_ok t event sys :
  clocks_before t event -> sys_ok t sys -> sys_ok t (sys_step event sys).
Proof.
  intros Hcl [Hst Hn Hf]. destruct event as [env op|env io now relay_id|io now answer|io now]; cbn in *.
  - destruct Hcl. split; cbn; [by apply perform_ok|by apply perform_numbering|by apply follows_perform].
  - split; cbn; [done..|by apply follows_poll].
  - split; cbn; [done..|]. destruct answer; cbn; try done. case_match; [|done]. by destruct Hf.
  - split; cbn; [done..|]. destruct (restart io now (sys_relay sys)) eqn:E; [|done]. by eapply follows_restart.
Qed.

Lemma sys_run_ok t events sys :
  Forall (clocks_before t) events -> sys_ok t sys -> sys_ok t (sys_run events sys).
Proof.
  intros Hf. revert sys. induction Hf as [|event events He _ IH]; intros sys Hs; [done|].
  by apply IH, sys_step_ok.
Qed.

(** A Relay that has just enrolled: it starts without a state file, with
    Control's identity and audience. *)
Definition newly_joined (sys : System) : Prop :=
  let s := sys_control sys in
  store_ok s /\ numbering_ok (s_state s) /\
  exists io now, start io now (id_to_string (public (s_key s))) (st_audience (s_state s)) false None
                 = Ok (sys_relay sys).

Lemma newly_joined_ok t sys : newly_joined sys -> sys_ok t sys.
Proof.
  intros (Hst & Hn & io & now & Hs). pose proof (start_ok _ _ _ _ _ _ _ Hs) as (Hr & Ha & Hp & _).
  pose proof (store_ok_state _ Hst) as Hso. pose proof (so_metadata _ Hso) as Hm.
  unfold check_metadata in Hm; cbn in Hm. breflect.
  rewrite id_parse_to_string in Hp. injection Hp as Hp.
  assert (Ec : ru_version (rl_current (sys_relay sys)) = 0 /\
               ru_revocations (rl_current (sys_relay sys)) = [])
    by (unfold start, bring_up, load_or_initialize in Hs; cbn in Hs; run_ok;
        match goal with E : _ = sys_relay sys |- _ => by rewrite <- E end).
  destruct Ec as [Ever Erev]. split; [done..|]. split; rewrite ?Ever; try done; [lia| |].
  - intros v id Hv ?. pose proof (so_revocations _ Hso) as [_ Hc]. eapply all_true in Hc; [|exact Hv].
    unfold check_revocation in Hc. breflect. lia.
  - intros id g x Hl. destruct (relay_ok_index _ Hr) as [_ Hix]. apply Hix in Hl as (r & [Hin _] & _).
    rewrite Erev in Hin. by apply not_elem_of_nil in Hin.
Qed.

Lemma follows_refuses t s relay id g x token c :
  numbering_ok (s_state s) -> follows t s relay ->
  ru_version (rl_current relay) = st_relay_revision (s_state s) ->
  revoked (s_state s) (id_to_string id) g x ->
  credential_decode token = Ok c -> rc_generation (src_credential c) = g ->
  rc_expires_at (src_credential c) = x -> on_connect relay id (Some token) t <> Allow.
Proof.
  intros Hn Hf Ev (v & Hin & Eid & Hg & Hx) Hd <- <- Hallow. pose proof Hallow as Hallow'.
  apply on_connect_Allow in Hallow' as (_ & t' & c' & [= <-] & Hd' & _ & _ & _ & _ & _ & Hlt & _).
  rewrite Hd in Hd'. injection Hd' as <-.
  assert (Hrev : v_revision v <= ru_version (rl_current relay)).
  { rewrite Ev. by apply (no_revocations _ _ _ Hn). }
  destruct (fo_complete _ _ _ Hf v id Hin Hrev Eid) as [?|(g' & x' & Hl & ? & ?)]; [lia|].
  eapply on_connect_revoked; [exact Hl|exact Hd| | |exact Hallow]; lia.
Qed.

(** C1. Revocation is complete, end to end: take any credential Control had
    issued to an endpoint at some point after the Relay enrolled. If by now its
    record is gone, whether removed by an administrator, a provisioner or the
    owner, and the Relay has caught up with Control, the Relay does not let the
    endpoint in with that credential, whatever happened in between. *)
Theorem up_to_date_relay_refuses_revoked t before after sys id token c :
  newly_joined sys -> Forall (clocks_before t) (before ++ after) ->
  let then_ := sys_run before sys in
  let now_ := sys_run after then_ in
  let g := rc_generation (src_credential c) in
  let x := rc_expires_at (src_credential c) in
  credential_decode token = Ok c ->
  issued (s_state (sys_control then_)) (id_to_string id) g x ->
  ~ registered (s_state (sys_control now_)) (id_to_string id) g x ->
  ru_version (rl_current (sys_relay now_)) = st_relay_revision (s_state (sys_control now_)) ->
  on_connect (sys_relay now_) id (Some token) t <> Allow.
Proof.
  intros Hj [Hb Hfa]%Forall_app then_ now_ g x Hd Hi Hnr Ev.
  assert (H1ok : sys_ok t then_) by (by apply sys_run_ok, newly_joined_ok).
  assert (H2ok : sys_ok t now_) by (by apply sys_run_ok).
  destruct (run_accounted (control_ops after) (sys_control then_) (id_to_string id) g x) as [Hac|He].
  - apply H1ok.
  - left. by exists x.
  - rewrite <- sys_run_control in Hac. destruct Hac as [?|Hr]; [done|].
    eapply follows_refuses; [apply H2ok|apply H2ok|done..].
  - intros (_ & t' & c' & [= <-] & Hd' & _ & _ & _ & _ & _ & Hlt & _)%on_connect_Allow.
    rewrite Hd in Hd'. injection Hd' as <-. destruct He as (env & op & Hin & Hle).
    apply list_elem_of_omap in Hin as (event & Hev & Eev). destruct event; simplify_eq.
    rewrite Forall_forall in Hfa. apply Hfa in Hev as [? ?]. destruct Hle; lia.
Qed.

(** ** Catching up *)

Lemma control_answer_behind env relay_id known s :
  store_ok s -> numbering_ok (s_state s) ->
  anyhow_relay_exists (s_state s) relay_id = Ok tt -> known < st_relay_revision (s_state s) ->
  exists signed, control_answer env relay_id known s = Update signed.
Proof.
  intros Hok Hn Hex Hlt.
  destruct (update_sign_total (env_now env) (s_state s) known (s_key s)) as (u & Hu & _);
    [by apply store_ok_state|done|]. exists u.
  unfold control_answer, relay_watch_respond. cbn [wait_for_relay_revision]. rewrite Hex.
  destruct (Z.ltb_spec (st_relay_revision (s_state s)) known); [lia|].
  destruct (Z.ltb_spec known (st_relay_revision (s_state s))); [|lia].
  unfold mbind, Handler.handler_bind, Handler.get, Handler.lift. by rewrite Hex, Hu.
Qed.

Lemma update_accepted t env now s relay delta :
  store_ok s -> numbering_ok (s_state s) -> follows t s relay -> t <= now ->
  Z.abs (now - env_now env) <= MAX_CLOCK_SKEW_SECS ->
  let update := revocation_update (env_now env) (s_state s) (ru_version (rl_current relay)) in
  validate_revocations update (rl_audience relay) = Ok delta ->
  exists relay' status, apply_newer_version true now relay update delta = (relay', Ok status).
Proof.
  intros Hok Hn Hf Ht Hage update Hval. destruct Hf as [Hr _ _ Hver _ Hs].
  apply apply_newer_total; try done.
  - intros r (v & _ & ? & ->)%elem_of_update. done.
  - intros k r r0 (v & Hv & _ & Eid & ->)%names_update Hcur Hx; [|done].
    destruct (relay_ok_index _ Hr) as [_ Hix].
    destruct (Hs k (rv_revoked_through_generation r0) (rv_expires_at r0)) as [?|(v' & Hv' & Eid' & ? & _)];
      [apply Hix; eauto|lia|].
    rewrite (revocation_unique s v v'); [done|by apply store_ok_state|done..|congruence].
Qed.

Lemma update_ids_NoDup now s known :
  store_ok s -> numbering_ok (s_state s) ->
  NoDup (omap id (update_ids (revocation_update now (s_state s) known))).
Proof.
  intros Hok Hn. destruct (store_ok_state s Hok). destruct so_revocations as [Hu _].
  unfold update_ids. rewrite omap_id_fmap.
  apply (NoDup_omap rv_endpoint_id).
  - cbn. rewrite <- list_fmap_compose. by apply Keyed.unique_retain.
  - intros r r' k (v & Hv & _ & ->)%elem_of_update (v' & Hv' & _ & ->)%elem_of_update. cbn.
    destruct (no_revocations _ _ _ Hn v Hv) as (_ & _ & [a ->]).
    destruct (no_revocations _ _ _ Hn v' Hv') as (_ & _ & [b ->]).
    rewrite !id_parse_to_string. congruence.
Qed.

Lemma poll_catches_up t env now relay_id s relay :
  store_ok s -> numbering_ok (s_state s) -> follows t s relay -> t <= now ->
  anyhow_relay_exists (s_state s) relay_id = Ok tt ->
  Z.abs (now - env_now env) <= MAX_CLOCK_SKEW_SECS ->
  let relay' := poll env true now relay_id s relay in
  ru_version (rl_current relay') = st_relay_revision (s_state s) /\
  rl_enrollment_revoked relay' = rl_enrollment_revoked relay.
Proof.
  intros Hok Hn Hf Ht Hex Hage. cbv zeta. pose proof (fo_version _ _ _ Hf) as Hver. unfold poll.
  destruct (Z.eq_dec (ru_version (rl_current relay)) (st_relay_revision (s_state s))) as [E|Hne].
  - unfold control_answer. cbn [wait_for_relay_revision]. rewrite Hex, E, Z.ltb_irrefl. done.
  - destruct (control_answer_behind env relay_id (ru_version (rl_current relay)) s) as [signed Ea];
      [done..|lia|]. rewrite Ea.
    destruct (control_answer_Update _ _ _ _ _ Ea) as (Hlt & Eu & Hv).
    destruct (update_sign_total (env_now env) (s_state s) (ru_version (rl_current relay)) (s_key s))
      as (u & Hu & _); [by apply store_ok_state|done|]. unfold update_sign in Hu. run_ok. destruct x.
    destruct (validate_revocations_total _ ltac:(eassumption)
      (update_ids_NoDup (env_now env) s (ru_version (rl_current relay)) Hok Hn)) as [delta Hd].
    cbn [ru_audience revocation_update] in Hd. rewrite <- (fo_audience _ _ _ Hf) in Hd.
    destruct (update_accepted t env now s relay delta) as (relay' & status & Hap); [done..|].
    cbn [poll_answer]. unfold apply_revocation_update.
    rewrite Eu, (fo_authority _ _ _ Hf), Hv. cbn [mbind result_bind map_err]. rewrite Hd. cbn [map_err].
    cbn [ru_version revocation_update].
    destruct (Z.ltb_spec (st_relay_revision (s_state s)) (ru_version (rl_current relay))); [lia|].
    rewrite bool_decide_eq_false_2 by lia. rewrite Hap. cbn.
    by destruct (apply_newer_Ok _ _ _ _ _ _ _ (fo_relay _ _ _ Hf) Hd Hap) as (_ & -> & _ & _ & -> & _).
Qed.

(** C10. A Relay can always catch up: after any history of Control, polls, failed
    polls and restarts, one successful exchange with Control brings a registered
    Relay to Control's current Relay revision, as long as the Relay's clock is
    within five minutes of Control's and not behind the readings so far, and its
    disk takes the write. No history makes Control issue an update that the Relay
    rejects. *)
Theorem relay_catches_up events env now relay_id sys :
  newly_joined sys -> Forall (clocks_before now) events ->
  let sys' := sys_run events sys in
  anyhow_relay_exists (s_state (sys_control sys')) relay_id = Ok tt ->
  Z.abs (now - env_now env) <= MAX_CLOCK_SKEW_SECS ->
  let sys'' := sys_step (EPoll env true now relay_id) sys' in
  sys_control sys'' = sys_control sys' /\
  ru_version (rl_current (sys_relay sys'')) = st_relay_revision (s_state (sys_control sys'')) /\
  rl_enrollment_revoked (sys_relay sys'') = rl_enrollment_revoked (sys_relay sys').
Proof.
  intros Hj Hcl sys' Hex Hage sys''. split; [done|].
  destruct (sys_run_ok now events sys Hcl (newly_joined_ok now sys Hj)) as [Hok Hn Hf].
  by apply (poll_catches_up now env now relay_id).
Qed.
End System.
