(* ===== verification/Transport.v ===== *)
(** * transport: the frame protocol and the UDP packet codec

    Models crates/transport/src/lib.rs: the frames that Clients, daemons and
    Edges exchange ([header], [split_header] and the two [read_frame]s) and the
    encoding of proxied UDP packets. A stream is the bytes that the peer wrote
    before closing it. *)
From S2P Require Import Prelude Deps.
Open Scope string_scope.
Open Scope Z_scope.

(** ** Bytes *)

Definition byte_val (b : Byte.byte) : Z := Z.of_N (Byte.to_N b).
(** [x as u8] *)
Definition byte_of (x : Z) : Byte.byte := default Byte.x00 (Byte.of_N (Z.to_N (x mod 256))).

(** [u32::to_le_bytes], [u32::from_le_bytes], [u16::to_be_bytes], [u16::from_be_bytes] *)
Definition u32_to_le_bytes (x : Z) : bytes :=
  [byte_of x; byte_of (Z.shiftr x 8); byte_of (Z.shiftr x 16); byte_of (Z.shiftr x 24)].
Definition u32_from_le_bytes (a b c d : Byte.byte) : Z :=
  byte_val a + Z.shiftl (byte_val b) 8 + Z.shiftl (byte_val c) 16 + Z.shiftl (byte_val d) 24.
Definition u16_to_be_bytes (x : Z) : bytes := [byte_of (Z.shiftr x 8); byte_of x].
Definition u16_from_be_bytes (a b : Byte.byte) : Z := Z.shiftl (byte_val a) 8 + byte_val b.

(** [std::str::from_utf8]: the well-formed byte sequences of the Unicode
    standard (no overlong forms, no surrogates, nothing above U+10FFFF). *)
Definition between (lo hi : Z) (b : Byte.byte) : bool := (lo <=? byte_val b) && (byte_val b <=? hi).
Definition continuation : Byte.byte -> bool := between 128 191.

Fixpoint utf8_valid (s : bytes) : bool :=
  match s with
  | [] => true
  | a :: s1 =>
      if byte_val a <=? 127 then utf8_valid s1
      else match s1 with
      | [] => false
      | b :: s2 =>
          if between 194 223 a then continuation b && utf8_valid s2
          else match s2 with
          | [] => false
          | c :: s3 =>
              if between 224 239 a then
                between (if byte_val a =? 224 then 160 else 128)
                        (if byte_val a =? 237 then 159 else 191) b &&
                continuation c && utf8_valid s3
              else match s3 with
              | [] => false
              | d :: s4 =>
                  between 240 244 a &&
                  between (if byte_val a =? 240 then 144 else 128)
                          (if byte_val a =? 244 then 143 else 191) b &&
                  continuation c && continuation d && utf8_valid s4
              end
          end
      end
  end.

Definition as_bytes (s : string) : bytes := String.list_byte_of_string s.
Definition from_utf8 (b : bytes) : result string string :=
  ensure (utf8_valid b) "proxy datagram host is not UTF-8";; Ok (String.string_of_list_byte b).

(** ** Frames *)

Inductive FrameTag := Start | Stdout | Stderr | Exit | Result_ | Data.
#[global] Instance FrameTag_eq : EqDecision FrameTag.
Proof. solve_decision. Defined.

Definition tag_u8 (tag : FrameTag) : Z :=
  match tag with Start => 0 | Stdout => 1 | Stderr => 2 | Exit => 3 | Result_ => 4 | Data => 5 end.

Definition tag_try_from (value : Z) : result string FrameTag :=
  match value with
  | 0 => Ok Start | 1 => Ok Stdout | 2 => Ok Stderr | 3 => Ok Exit | 4 => Ok Result_ | 5 => Ok Data
  | _ => Err "unknown frame tag"
  end.

Record Frame := { tag : FrameTag; payload : bytes }.

Definition MAX_FRAME : Z := 16 * 1024 * 1024.
Definition MAX_UDP_PAYLOAD : Z := 65507.

Definition header (tag : FrameTag) (len : Z) : result string bytes :=
  ensure (len <=? MAX_FRAME) "frame too large";;
  ensure (len <=? u32_max) "frame length exceeds u32";;
  Ok (byte_of (tag_u8 tag) :: u32_to_le_bytes len).

Definition split_header (h0 h1 h2 h3 h4 : Byte.byte) : result string (FrameTag * Z) :=
  tag ← tag_try_from (byte_val h0);
  let len := u32_from_le_bytes h1 h2 h3 h4 in
  ensure (len <=? MAX_FRAME) "frame too large";;
  Ok (tag, len).

(** The bytes both [write_frame]s put on the stream. *)
Definition write_frame (tag : FrameTag) (payload : bytes) : result string bytes :=
  h ← header tag (Z.of_nat (length payload));
  Ok (h ++ payload)%list.

(** [read_exact] on a buffer of [n] bytes. *)
Definition read_exact (n : nat) (stream : bytes) : result string (bytes * bytes) :=
  ensure (n <=? length stream)%nat "early eof";;
  Ok (take n stream, drop n stream).

(** [iroh_wire::read_frame_with_limit]; [io_wire::read_frame] is the same code
    without the limit. The frame comes with the rest of the stream; [None] is a
    clean end. *)
Definition read_frame_with_limit (max_payload : Z) (stream : bytes)
  : result string (option (Frame * bytes)) :=
  match stream with
  | [] => Ok None
  | h0 :: stream =>
      '(hdr, stream) ← read_exact 4 stream;
      match hdr with
      | [h1; h2; h3; h4] =>
          '(tag, n) ← split_header h0 h1 h2 h3 h4;
          ensure (n <=? max_payload) "frame too large for this request";;
          '(buf, stream) ← read_exact (Z.to_nat n) stream;
          Ok (Some ({| tag := tag; payload := buf |}, stream))
      | _ => Err "read frame header"
      end
  end.

Definition read_frame (stream : bytes) : result string (option (Frame * bytes)) :=
  read_frame_with_limit MAX_FRAME stream.

(** A reader's loop until the clean end of the stream. *)
Fixpoint read_frames (fuel : nat) (stream : bytes) : result string (list Frame) :=
  match fuel with
  | O => Err "out of fuel"
  | S fuel =>
      next ← read_frame stream;
      match next with
      | None => Ok []
      | Some (frame, stream) => frames ← read_frames fuel stream; Ok (frame :: frames)
      end
  end.

(** Successive [write_frame]s on one stream. *)
Fixpoint write_frames (frames : list Frame) : result string bytes :=
  match frames with
  | [] => Ok []
  | f :: frames =>
      chunk ← write_frame (tag f) (payload f);
      chunks ← write_frames frames;
      Ok (chunk ++ chunks)%list
  end.

(** ** UDP packets *)

Record ProxyTarget := { host : string; port : Z }.
Record ProxyDatagram := { dg_target : ProxyTarget; dg_payload : bytes }.

Definition encode_proxy_datagram (datagram : ProxyDatagram) : result string bytes :=
  let host := as_bytes (host (dg_target datagram)) in
  ensure (host != []) "proxy datagram host is empty";;
  ensure (Z.of_nat (length host) <=? u8_max) "proxy datagram host is too long";;
  ensure (port (dg_target datagram) != 0) "proxy datagram port is zero";;
  ensure (Z.of_nat (length (dg_payload datagram)) <=? MAX_UDP_PAYLOAD)
    "proxy UDP payload is too large";;
  Ok (byte_of (Z.of_nat (length host)) :: u16_to_be_bytes (port (dg_target datagram)) ++
      host ++ dg_payload datagram)%list.

Definition decode_proxy_datagram (encoded : bytes) : result string ProxyDatagram :=
  match encoded with
  | b0 :: b1 :: b2 :: ((_ :: _) as rest) =>
      let host_len := Z.to_nat (byte_val b0) in
      ensure (negb (host_len =? 0)%nat && (host_len <=? length rest)%nat)
        "proxy datagram host is truncated";;
      let port := u16_from_be_bytes b1 b2 in
      ensure (port != 0) "proxy datagram port is zero";;
      host ← from_utf8 (take host_len rest);
      let payload := drop host_len rest in
      ensure (Z.of_nat (length payload) <=? MAX_UDP_PAYLOAD) "proxy UDP payload is too large";;
      Ok {| dg_target := {| host := host; port := port |}; dg_payload := payload |}
  | _ => Err "proxy datagram is truncated"
  end.

(** ** Facts *)

Lemma byte_val_range b : 0 <= byte_val b < 256.
Proof. unfold byte_val. pose proof (Byte.to_N_bounded b). lia. Qed.

Lemma byte_of_val b : byte_of (byte_val b) = b.
Proof.
  unfold byte_of. rewrite Z.mod_small by apply byte_val_range. unfold byte_val.
  by rewrite N2Z.id, Byte.of_to_N.
Qed.

Lemma byte_val_of x : byte_val (byte_of x) = x mod 256.
Proof.
  unfold byte_of. pose proof (Z.mod_pos_bound x 256).
  destruct (Byte.of_N (Z.to_N (x mod 256))) as [b|] eqn:E; cbn.
  - apply Byte.to_of_N in E. unfold byte_val. rewrite E. lia.
  - apply Byte.of_N_None_iff in E. lia.
Qed.

Lemma u32_le_roundtrip x : 0 <= x <= u32_max ->
  exists a b c d, u32_to_le_bytes x = [a; b; c; d] /\ u32_from_le_bytes a b c d = x.
Proof.
  intros Hx. do 4 eexists. split; [reflexivity|]. unfold u32_from_le_bytes.
  rewrite !byte_val_of, !Z.shiftr_div_pow2, !Z.shiftl_mul_pow2 by lia. unfold u32_max in Hx.
  change (2 ^ 8) with 256. change (2 ^ 16) with 65536. change (2 ^ 24) with 16777216.
  change (2 ^ 32) with 4294967296 in Hx. Z.div_mod_to_equations. lia.
Qed.

Lemma u32_le_inverse a b c d :
  u32_to_le_bytes (u32_from_le_bytes a b c d) = [a; b; c; d] /\
  0 <= u32_from_le_bytes a b c d <= u32_max.
Proof.
  pose proof (byte_val_range a). pose proof (byte_val_range b). pose proof (byte_val_range c).
  pose proof (byte_val_range d). unfold u32_from_le_bytes, u32_max.
  rewrite !Z.shiftl_mul_pow2 by lia. set (x := _ + _ + _ + _).
  change (2 ^ 8) with 256 in x. change (2 ^ 16) with 65536 in x. change (2 ^ 24) with 16777216 in x.
  split; [|change (2 ^ 32) with 4294967296; subst x; lia].
  unfold u32_to_le_bytes.
  assert (Hb : forall y z, y mod 256 = byte_val z -> byte_of y = z).
  { intros y z E. rewrite <- (byte_of_val z), <- E. unfold byte_of. by rewrite Z.mod_mod. }
  rewrite !Z.shiftr_div_pow2 by lia.
  change (2 ^ 8) with 256. change (2 ^ 16) with 65536. change (2 ^ 24) with 16777216.
  repeat f_equal; apply Hb; subst x; Z.div_mod_to_equations; lia.
Qed.

Lemma tag_roundtrip t : tag_try_from (byte_val (byte_of (tag_u8 t))) = Ok t.
Proof. by destruct t. Qed.

Lemma tag_try_from_Ok x t : tag_try_from x = Ok t -> x = tag_u8 t.
Proof.
  unfold tag_try_from. destruct x as [|p|p]; cbn; try congruence; [by intros [= <-]|].
  do 3 (destruct p as [p|p|]; cbn; try congruence; try by intros [= <-]).
Qed.

Lemma read_exact_app a b : read_exact (length a) (a ++ b) = Ok (a, b).
Proof.
  unfold read_exact. prove_ok; [apply Nat.leb_le; rewrite length_app; lia|].
  by rewrite take_app_length, drop_app_length.
Qed.

Lemma read_exact_Ok n s a b : read_exact n s = Ok (a, b) -> s = (a ++ b)%list /\ length a = n.
Proof.
  unfold read_exact. intros Hr. apply bind_Ok in Hr as (? & Hle%ensure_Ok%Nat.leb_le & [= <- <-]).
  split; [by rewrite take_drop|]. rewrite length_take. lia.
Qed.

(** Reading what was written, within the limit, whatever follows. *)
Lemma read_write limit f bs rest :
  write_frame (tag f) (payload f) = Ok bs -> Z.of_nat (length (payload f)) <= limit ->
  read_frame_with_limit limit (bs ++ rest) = Ok (Some (f, rest)).
Proof.
  intros Hw Hl. unfold write_frame, header in Hw. run_ok.
  destruct (u32_le_roundtrip (Z.of_nat (length (payload f)))) as (a & b & c & d & Eb & Ev); [lia|].
  rewrite Eb. cbn [app read_frame_with_limit].
  change (a :: b :: c :: d :: payload f ++ rest)%list with ([a; b; c; d] ++ (payload f ++ rest))%list.
  apply bind_Ok. exists ([a; b; c; d], (payload f ++ rest)%list). split; [apply (read_exact_app [a; b; c; d])|].
  apply bind_Ok. exists (tag f, Z.of_nat (length (payload f))). split.
  { unfold split_header. rewrite tag_roundtrip, Ev. cbn [mbind result_bind]. by prove_ok. }
  prove_ok; [done|rewrite Nat2Z.id; apply read_exact_app|]. by destruct f.
Qed.

(** Only what was written is read. *)
Lemma read_inverse limit stream f rest :
  read_frame_with_limit limit stream = Ok (Some (f, rest)) ->
  exists bs, write_frame (tag f) (payload f) = Ok bs /\ stream = (bs ++ rest)%list /\
    Z.of_nat (length (payload f)) <= limit.
Proof.
  destruct stream as [|h0 s]; [done|]. cbn [read_frame_with_limit]. intros Hr.
  apply bind_Ok in Hr as ([hdr s1] & [-> Hh]%read_exact_Ok & Hr).
  destruct hdr as [|h1 [|h2 [|h3 [|h4 [|? ?]]]]]; try discriminate Hh.
  apply bind_Ok in Hr as ([t n] & Hsplit & Hr). apply bind_Ok in Hr as ([] & Hlim & Hr).
  apply bind_Ok in Hr as ([buf s2] & [-> Hbuf]%read_exact_Ok & [= <- <-]).
  unfold split_header in Hsplit. apply bind_Ok in Hsplit as (t' & Ht%tag_try_from_Ok & Hsplit). run_ok.
  destruct (u32_le_inverse h1 h2 h3 h4) as [Eb Hrange]. set (n := u32_from_le_bytes h1 h2 h3 h4) in *.
  cbn [tag payload]. exists (h0 :: [h1; h2; h3; h4] ++ buf)%list. split_and!; [|done|lia].
  unfold write_frame, header. rewrite Hbuf, Z2Nat.id by lia. prove_ok; [lia..|].
  rewrite Eb, <- Ht, byte_of_val. done.
Qed.

(** A clean end is the end of the bytes. *)
Lemma read_frame_None limit stream : read_frame_with_limit limit stream = Ok None -> stream = [].
Proof.
  destruct stream as [|h0 s]; [done|]. cbn [read_frame_with_limit]. intros Hr.
  apply bind_Ok in Hr as ([hdr s1] & _ & Hr). repeat case_match; try done.
  apply bind_Ok in Hr as ([t n] & _ & Hr). apply bind_Ok in Hr as (? & _ & Hr).
  by apply bind_Ok in Hr as ([buf s2] & _ & Hr).
Qed.

Lemma write_frame_length t p bs : write_frame t p = Ok bs -> Z.of_nat (length p) <= MAX_FRAME.
Proof. unfold write_frame, header. intros Hw. run_ok. lia. Qed.

Lemma write_frame_cons t p bs : write_frame t p = Ok bs -> bs <> [].
Proof. unfold write_frame, header. intros Hw. run_ok. done. Qed.

(** C37. The frame protocol is unambiguous: a receiver that reads a stream to its
    end obtains a list of frames exactly when the stream is what writing those
    frames produces. So frames arrive unchanged and in order, and bytes that no
    writer produces (an unknown tag, an oversized length, a cut-off frame) never
    read as frames. The loop needs one step per byte at most. *)
Theorem frame_stream_exact stream frames :
  read_frames (S (length stream)) stream = Ok frames <-> write_frames frames = Ok stream.
Proof.
  split.
  - generalize (S (length stream)) as fuel. intros fuel. revert stream frames.
    induction fuel as [|fuel IH]; intros stream frames Hr; [done|]. cbn in Hr.
    apply bind_Ok in Hr as ([[f rest]|] & Hn & Hr).
    + apply bind_Ok in Hr as (fs & Hr & [= <-]).
      apply read_inverse in Hn as (bs & Hw & -> & _). cbn. rewrite Hw. cbn.
      by rewrite (IH _ _ Hr).
    + injection Hr as <-. by apply read_frame_None in Hn as ->.
  - assert (Hf : forall fuel, (length stream < fuel)%nat -> write_frames frames = Ok stream ->
                   read_frames fuel stream = Ok frames); [|apply Hf; lia].
    intros fuel. revert stream frames. induction fuel as [|fuel IH]; intros stream frames Hl Hw; [lia|].
    destruct frames as [|f frames]; cbn in Hw; [by injection Hw as <-|].
    apply bind_Ok in Hw as (bs & Hf & Hw). apply bind_Ok in Hw as (rest & Hw & [= <-]). cbn.
    unfold read_frame. rewrite (read_write MAX_FRAME f bs rest Hf).
    + cbn. rewrite (IH rest frames); [done| |done]. pose proof (write_frame_cons _ _ _ Hf).
      rewrite length_app in Hl. destruct bs; [done|]. cbn in Hl. lia.
    + by eapply write_frame_length.
Qed.

(** A connection lost inside a frame is an error, never a clean end and
    never a shorter frame. *)
Theorem truncated_frame_is_an_error f p q :
  write_frame (tag f) (payload f) = Ok (p ++ q)%list -> p <> [] -> q <> [] ->
  exists e, read_frame p = Err e.
Proof.
  intros Hw Hp Hq. destruct (read_frame p) as [[[f' rest]|]|e] eqn:E; [| |eauto].
  - apply read_inverse in E as (bs & Hw' & -> & Hl).
    pose proof (read_write MAX_FRAME f' bs (rest ++ q) Hw' Hl) as Hr.
    rewrite app_assoc in Hr.
    pose proof (read_write MAX_FRAME f _ [] Hw (write_frame_length _ _ _ Hw)) as Hr'. rewrite app_nil_r in Hr'.
    rewrite Hr' in Hr. injection Hr as _ Hnil. symmetry in Hnil. apply app_nil in Hnil as [_ ?]. done.
  - by apply read_frame_None in E.
Qed.

(** ** UDP packets *)

(** What the Rust types guarantee: a [String] is UTF-8 and a port is a [u16]. *)
Definition datagram_wf (d : ProxyDatagram) : Prop :=
  utf8_valid (as_bytes (host (dg_target d))) = true /\ 0 <= port (dg_target d) <= u16_max.

Lemma u16_be_roundtrip x : 0 <= x <= u16_max ->
  u16_from_be_bytes (byte_of (Z.shiftr x 8)) (byte_of x) = x.
Proof.
  intros Hx. unfold u16_from_be_bytes. rewrite !byte_val_of, Z.shiftr_div_pow2, Z.shiftl_mul_pow2 by lia.
  unfold u16_max in Hx. change (2 ^ 8) with 256. change (2 ^ 16) with 65536 in Hx.
  Z.div_mod_to_equations. lia.
Qed.

Lemma u16_be_inverse a b :
  u16_to_be_bytes (u16_from_be_bytes a b) = [a; b] /\ 0 <= u16_from_be_bytes a b <= u16_max.
Proof.
  pose proof (byte_val_range a). pose proof (byte_val_range b).
  unfold u16_from_be_bytes, u16_max, u16_to_be_bytes. rewrite Z.shiftl_mul_pow2 by lia.
  rewrite Z.shiftr_div_pow2 by lia. change (2 ^ 8) with 256. change (2 ^ 16) with 65536.
  split; [|lia].
  rewrite Z.div_add_l, Z.div_small, Z.add_0_r, byte_of_val by lia. do 2 f_equal.
  rewrite <- (byte_of_val b) at 2. unfold byte_of. by rewrite Z.add_comm, Z.mod_add by lia.
Qed.

Lemma from_utf8_Ok b h : from_utf8 b = Ok h <-> utf8_valid b = true /\ as_bytes h = b.
Proof.
  unfold from_utf8, as_bytes. split.
  - intros Hf. run_ok. split; [done|]. apply String.list_byte_of_string_of_list_byte.
  - intros [Hv <-]. prove_ok; [done|]. by rewrite String.string_of_list_byte_of_string.
Qed.

Lemma decode_exact d encoded :
  decode_proxy_datagram encoded = Ok d <-> encode_proxy_datagram d = Ok encoded /\ datagram_wf d.
Proof.
  split.
  - destruct encoded as [|b0 [|b1 [|b2 [|b3 rest]]]]; try done.
    unfold decode_proxy_datagram. set (r := b3 :: rest). intros Hd. run_ok.
    match goal with E : from_utf8 _ = Ok _ |- _ => apply from_utf8_Ok in E as [Hv Eh] end.
    destruct (u16_be_inverse b1 b2) as [Eb ?]. pose proof (byte_val_range b0).
    unfold encode_proxy_datagram, datagram_wf. cbn [dg_target dg_payload host port].
    rewrite Eh. split; [|done].
    match goal with E : (_ =? 0)%nat = false |- _ => apply Nat.eqb_neq in E end.
    match goal with E : (_ <=? _)%nat = true |- _ => apply Nat.leb_le in E end.
    prove_ok; [..|done| |].
    + intros E%(f_equal length). rewrite length_take in E. cbn in E. lia.
    + rewrite length_take. unfold u8_max. lia.
    + done.
    + rewrite Eb, length_take, Nat.min_l, Z2Nat.id, byte_of_val, take_drop by lia. done.
  - intros [He [Hv Hp]]. unfold encode_proxy_datagram in He. run_ok.
    set (h := as_bytes _) in *. cbn [app u16_to_be_bytes].
    assert (Hlen : Z.to_nat (byte_val (byte_of (Z.of_nat (length h)))) = length h).
    { rewrite byte_val_of, Z.mod_small by (unfold u8_max in *; lia). lia. }
    assert (Hdec : (h ++ dg_payload d)%list <> []) by (intros [? _]%app_nil; done).
    unfold decode_proxy_datagram. destruct (h ++ dg_payload d)%list as [|r0 r] eqn:Er; [done|].
    rewrite <- Er, Hlen, u16_be_roundtrip by done. rewrite take_app_length, drop_app_length.
    prove_ok; [| |done|apply from_utf8_Ok; split; [exact Hv|reflexivity]|lia|].
    + apply Nat.eqb_neq. intros ?%length_zero_iff_nil. done.
    + apply Nat.leb_le. rewrite length_app. lia.
    + by destruct d as [[]].
Qed.

(** A proxied UDP packet arrives as it was sent: decoding yields a packet
    exactly when the bytes are the encoding of that packet, so the codec loses
    nothing, has one encoding per packet, and rejects all other input. *)
Theorem proxy_datagram_exact d encoded :
  decode_proxy_datagram encoded = Ok d <-> encode_proxy_datagram d = Ok encoded /\ datagram_wf d.
Proof. apply decode_exact. Qed.
