(* ===== verification/AdminSocket.v ===== *)
(** * as-control: the local administration commands

    A command of the administrator ([main], src/crates/as-control/src/main.rs)
    becomes a [LocalAdminRequest], which [admin_call] writes to the Unix socket and
    [handle_local_admin] answers; both sides frame their message with a length.
    [print_admin_response] prints the answer. A stream is the bytes that the other
    side wrote before closing it. *)
From stdpp Require Import pretty.
From S2P Require Import Prelude Deps RelayApi ControlApi State Database ControlCore ControlHandlers Transport.
Open Scope string_scope.
Open Scope Z_scope.

(** ** Messages with a length *)

(** [write_u32] and [read_u32] are big-endian. *)
Definition u32_to_be_bytes (x : Z) : bytes :=
  [byte_of (Z.shiftr x 24); byte_of (Z.shiftr x 16); byte_of (Z.shiftr x 8); byte_of x].
Definition u32_from_be_bytes (a b c d : Byte.byte) : Z := u32_from_le_bytes d c b a.
(** [len as u32] *)
Definition as_u32 (x : Z) : Z := x mod 2 ^ 32.

Definition ADMIN_LIMIT : Z := 1024 * 1024.

Definition write_message (payload : bytes) : bytes :=
  (u32_to_be_bytes (as_u32 (Z.of_nat (length payload))) ++ payload)%list.

Definition read_admin_message (too_large : string) (stream : bytes) : result string bytes :=
  match stream with
  | a :: b :: c :: d :: rest =>
      let len := u32_from_be_bytes a b c d in
      ensure (len <=? ADMIN_LIMIT) too_large;;
      '(payload, _) ← read_exact (Z.to_nat len) rest;
      Ok payload
  | _ => Err "early eof"
  end.

Lemma u32_be_roundtrip x : 0 <= x <= u32_max ->
  exists a b c d, u32_to_be_bytes x = [a; b; c; d] /\ u32_from_be_bytes a b c d = x.
Proof.
  intros Hx. destruct (u32_le_roundtrip x Hx) as (a & b & c & d & E & Ex). injection E as <- <- <- <-.
  by do 4 eexists.
Qed.

(** A message within the limit is read as it was written. A longer one is refused,
    as long as its length fits in 32 bits. *)
Lemma read_written too_large payload :
  Z.of_nat (length payload) <= u32_max ->
  read_admin_message too_large (write_message payload) =
  if Z.of_nat (length payload) <=? ADMIN_LIMIT then Ok payload else Err too_large.
Proof.
  intros Hl. unfold write_message, as_u32. rewrite Z.mod_small by (unfold u32_max in Hl; lia).
  destruct (u32_be_roundtrip (Z.of_nat (length payload))) as (a & b & c & d & E & Ex); [lia|]. rewrite E.
  cbn -[read_exact]. rewrite Ex. destruct (_ <=? ADMIN_LIMIT); [|done]. cbn -[read_exact].
  rewrite Nat2Z.id. rewrite <- (app_nil_r payload) at 2. by rewrite read_exact_app.
Qed.

(** ** Commands *)

Inductive ClientCommand := CClientInvite (name : string) (ttl_secs : Z) | CClientLs | CClientRm (name : string).
Inductive EdgeCommand :=
| CEdgeInvite (name owner : string) (ttl_secs : Z) | CEdgeLs | CEdgeTransfer (edge new_client : string) | CEdgeRm (edge : string).
Inductive RelayAdminCommand := CRelayInvite (name url : string) (ttl_secs : Z) | CRelayLs | CRelayRm (name : string).
Inductive ProvisionerCommand := CProvisionerAdd (name endpoint_id : string) | CProvisionerLs | CProvisionerRm (name : string).
Inductive InviteCommand := CInviteLs | CInviteRevoke (invite_id : string).
(** [Init], [Bootstrap] and [Run] do not use the socket (Startup.v). *)
Inductive AdminCommand :=
| CStatus
| CClient (command : ClientCommand)
| CEdge (command : EdgeCommand)
| CRelay (command : RelayAdminCommand)
| CProvisioner (command : ProvisionerCommand)
| CInvite (command : InviteCommand).

Definition command_request (command : AdminCommand) : LocalAdminRequest :=
  match command with
  | CStatus => LOverview
  | CClient command =>
      match command with
      | CClientInvite name ttl_secs => LInviteClient name ttl_secs
      | CClientLs => LListClients
      | CClientRm name => LRemoveClient name
      end
  | CEdge command =>
      match command with
      | CEdgeInvite name owner ttl_secs => LInviteEdge name owner ttl_secs
      | CEdgeLs => LListEdges
      | CEdgeTransfer edge new_client => LTransferEdge edge new_client
      | CEdgeRm edge => LRemoveEdge edge
      end
  | CRelay command =>
      match command with
      | CRelayInvite name url ttl_secs => LInviteRelay name url ttl_secs
      | CRelayLs => LListRelays
      | CRelayRm name => LRemoveRelay name
      end
  | CProvisioner command =>
      match command with
      | CProvisionerAdd name endpoint_id => LAddProvisioner name endpoint_id
      | CProvisionerLs => LListProvisioners
      | CProvisionerRm name => LRemoveProvisioner name
      end
  | CInvite command =>
      match command with
      | CInviteLs => LListInvites
      | CInviteRevoke invite_id => LRevokeInvite invite_id
      end
  end.

Section AdminSocket.
Context `{Keys, Encodings, !ControlSerde, !Certificates, !Urls}.
Context `{!Serde RelayCredential, !Serde SignedRelayCredential, !Serde RevocationUpdate}.
Context `{!Serde LocalAdminRequest, !Serde LocalAdminResponse}.
(** [InviteKind]'s derived [Debug] *)
Context (debug_kind : InviteKind -> string).

(** What Control writes in answer to a stream; an error closes the connection. *)
Definition handle_local_admin (env : Env) (others : Store -> Store) (stream : bytes) : handler Store string bytes :=
  fun s =>
  match (payload ← read_admin_message "administration request is too large" stream;
         of_option (from_slice (T := LocalAdminRequest) payload) "parse administration request") with
  | Err e => (s, Err e)
  | Ok request =>
      let '(s, r) := dispatch_local_admin env others request s in
      (s, Ok (write_message (to_vec (local_admin_response r))))
  end.

(** [connected] is the outcome of [UnixStream::connect]. *)
Definition admin_call (connected : result string unit) (env : Env) (others : Store -> Store) (request : LocalAdminRequest)
  : handler Store string LocalAdminResponse := fun s =>
  match connected with
  | Err e => (s, Err e)
  | Ok _ =>
      let '(s, answer) := handle_local_admin env others (write_message (to_vec request)) s in
      (s, payload ← read_admin_message "administration response is too large" match answer with Ok bs => bs | Err _ => [] end;
          of_option (from_slice payload) "decode local administration response")
  end.

(** The lines on standard output *)
Definition print_admin_response (response : LocalAdminResponse) : result string (list string) :=
  match response with
  | AOverview value => Ok [
      "revision: " ++ pretty (ov_revision value);
      "clients:  " ++ pretty (length (ov_clients value));
      "edges:    " ++ pretty (length (ov_edges value));
      "relays:   " ++ pretty (length (ov_relays value))]
  | AClients values => Ok (values ≫= fun client => [
      ci_name client;
      "  endpoint_id: " ++ ci_endpoint_id client;
      "  edges:       " ++ pretty (ci_edges client)])
  | AEdges values => Ok (values ≫= fun edge => [
      ei_owner_name edge ++ "/" ++ ei_name edge;
      "  endpoint_id: " ++ ei_endpoint_id edge])
  | ARelays values => Ok (values ≫= fun relay => [
      rn_name relay;
      "  endpoint_id: " ++ rn_endpoint_id relay;
      "  url:         " ++ rn_url relay;
      match rn_qad_port relay with
      | Some port => "  qad:         udp/" ++ pretty port
      | None => "  qad:         disabled"
      end])
  | AInvites values => Ok (values ≫= fun invite => [
      ii_invite_id invite;
      "  name:    " ++ ii_name invite;
      "  kind:    " ++ debug_kind (ii_kind invite);
      "  state:   " ++ ii_state invite;
      "  expires: " ++ pretty (ii_expires_at invite)])
  | AProvisioners values => Ok (values ≫= fun provisioner => [
      pi_name provisioner;
      "  endpoint_id: " ++ pi_endpoint_id provisioner;
      "  clients:    " ++ pretty (pi_clients provisioner)])
  | AInvite value => Ok [ir_join_url value]
  | AOk => Ok []
  | AError message => Err message
  end.

(** A command of the administrator, to its last line *)
Definition admin_command (connected : result string unit) (env : Env) (others : Store -> Store) (command : AdminCommand)
  : handler Store string (list string) := fun s =>
  let '(s, r) := admin_call connected env others (command_request command) s in
  (s, response ← r; print_admin_response response).

Context `{!SerdeLaws LocalAdminRequest, !SerdeLaws LocalAdminResponse}.

Lemma admin_call_spec env others request s :
  Z.of_nat (length (to_vec request)) <= ADMIN_LIMIT ->
  let '(s', r) := dispatch_local_admin env others request s in
  let response := local_admin_response r in
  Z.of_nat (length (to_vec response)) <= u32_max ->
  admin_call (Ok tt) env others request s =
  (s', if Z.of_nat (length (to_vec response)) <=? ADMIN_LIMIT then Ok response
       else Err "administration response is too large").
Proof.
  intros Hreq. destruct (dispatch_local_admin env others request s) as [s' r] eqn:Ed. cbv zeta. intros Hresp.
  unfold admin_call, handle_local_admin.
  rewrite read_written by (unfold ADMIN_LIMIT in Hreq; unfold u32_max; lia).
  rewrite (proj2 (Z.leb_le _ _) Hreq). cbn [mbind result_bind]. rewrite from_slice_to_vec. cbn [of_option]. rewrite Ed.
  rewrite read_written by done. destruct (_ <=? ADMIN_LIMIT); [|done]. cbn [mbind result_bind].
  by rewrite from_slice_to_vec.
Qed.

(** A command of the administrator has exactly the effect of the operation it
    stands for, and reports exactly its outcome: an error of Control is the
    command's error and prints nothing, a success prints what the response holds.
    Only a response of more than 1 MiB cannot be delivered: the operation has been
    carried out all the same. A command that Control cannot read does nothing. *)
Theorem admin_command_is_local env others command s :
  let request := command_request command in
  let '(s', r) := dispatch_local_admin env others request s in
  let response := local_admin_response r in
  (Z.of_nat (length (to_vec request)) <= ADMIN_LIMIT -> Z.of_nat (length (to_vec response)) <= u32_max ->
   (admin_command (Ok tt) env others command s).1 = s' /\
   (Z.of_nat (length (to_vec response)) <= ADMIN_LIMIT ->
      (admin_command (Ok tt) env others command s).2 =
        match r with Ok response => print_admin_response response | Err e => Err (ae_message e) end) /\
   (ADMIN_LIMIT < Z.of_nat (length (to_vec response)) ->
      (admin_command (Ok tt) env others command s).2 = Err "administration response is too large")) /\
  (ADMIN_LIMIT < Z.of_nat (length (to_vec request)) <= u32_max ->
     admin_command (Ok tt) env others command s = (s, Err "early eof")).
Proof.
  cbv zeta. destruct (dispatch_local_admin env others (command_request command) s) as [s' r] eqn:Ed. split.
  - intros Hreq Hresp. pose proof (admin_call_spec env others (command_request command) s Hreq) as Hc.
    rewrite Ed in Hc. cbv zeta in Hc. specialize (Hc Hresp). unfold admin_command. rewrite Hc. split; [done|]. split.
    + intros Hl. rewrite (proj2 (Z.leb_le _ _) Hl). by destruct r.
    + intros Hl. by rewrite (proj2 (Z.leb_gt _ _) Hl).
  - intros [Hlong Hfit]. unfold admin_command, admin_call, handle_local_admin. rewrite read_written by done.
    by rewrite (proj2 (Z.leb_gt _ _) Hlong).
Qed.
End AdminSocket.
