(* ===== verification/Files.v ===== *)
(** * core: durable private files (src/crates/core/src/lib.rs)

    Identities and state files: [load_or_create_secret], [read_secret],
    [atomic_write], [write_json] and [read_json] on a file system that maps paths
    to contents. Every function replaces a file through a temporary one, so a
    failure leaves the old content or, when only the final directory sync
    failed, the new one. *)
From S2P Require Import Prelude Deps.
Open Scope string_scope.
Open Scope Z_scope.

Notation Fs Path := (gmap Path bytes).

(** How far one replacement of a file gets: the temporary file cannot be
    written or renamed; the rename happens but the directory sync fails; all is
    done. *)
Inductive WriteOutcome := WriteFailed | WriteUnsynced | Written.

(** [serde_json::to_vec_pretty], read back by [from_slice], also with the
    newline the program appends. *)
Definition newline_byte : Byte.byte := Byte.x0a.

Class SerdePretty (T : Type) := {
  pretty_serde :: Serde T;
  to_vec_pretty : T -> bytes;
}.
Class SerdePrettyLaws (T : Type) `{SerdePretty T} : Prop := {
  from_slice_pretty : forall x, from_slice (to_vec_pretty x) = Some x;
  from_slice_pretty_newline : forall x, from_slice (to_vec_pretty x ++ [newline_byte])%list = Some x;
}.

(** [SecretKey::to_bytes], [SecretKey::from_bytes] *)
Class KeyBytes `{Keys} := {
  key_to_bytes : SecretKey -> bytes;
  key_from_bytes : bytes -> SecretKey;
}.
Class KeyBytesLaws `{KeyBytes} : Prop := {
  key_to_bytes_length : forall k, length (key_to_bytes k) = 32%nat;
  key_from_to_bytes : forall k, key_from_bytes (key_to_bytes k) = k;
}.

Section Files.
Context {Path : Type} `{Countable Path}.
Implicit Types (fs : Fs Path) (path : Path).
Notation command A := (handler (Fs Path) string A).

(** [atomic_write_unlocked] (and [atomic_write], whose lock makes it one step) *)
Definition atomic_write (outcome : WriteOutcome) path (data : bytes) : command unit := fun fs =>
  match outcome with
  | WriteFailed => (fs, Err "replace file")
  | WriteUnsynced => (<[path := data]> fs, Err "sync directory")
  | Written => (<[path := data]> fs, Ok tt)
  end.

Definition write_json `{SerdePretty T} (outcome : WriteOutcome) path (value : T) : command unit :=
  atomic_write outcome path (to_vec_pretty value ++ [newline_byte])%list.

Definition read_json `{Serde T} fs path : result string T :=
  data ← of_option (fs !! path) "read file";
  of_option (from_slice data) "parse file".

(** ** Identities *)

Section Identity.
Context `{KeyBytes}.

(** [read_secret]; [None] stands for the [NotFound] error. *)
Definition read_secret fs path : option (result string SecretKey) :=
  data ← fs !! path;
  Some (ensure (Nat.eqb (length data) 32) "invalid identity: expected 32 bytes";;
        Ok (key_from_bytes data)).

(** [SecretKey::generate()] draws [generated]. *)
Definition load_or_create_secret (generated : SecretKey) (outcome : WriteOutcome) path
  : command SecretKey := fun fs =>
  match read_secret fs path with
  | Some (Ok key) => (fs, Ok key)
  | Some (Err e) => (fs, Err e)
  | None =>
      match atomic_write outcome path (key_to_bytes generated) fs with
      | (fs, Ok _) => (fs, Ok generated)
      | (fs, Err e) => (fs, Err e)
      end
  end.

Lemma read_secret_written fs path key `{!KeyBytesLaws} :
  read_secret (<[path := key_to_bytes key]> fs) path = Some (Ok key).
Proof.
  unfold read_secret. rewrite lookup_insert_eq. cbn.
  by rewrite key_to_bytes_length, key_from_to_bytes.
Qed.

Lemma load_elsewhere g o path fs fs' r p :
  load_or_create_secret g o path fs = (fs', r) -> p <> path -> fs' !! p = fs !! p.
Proof.
  unfold load_or_create_secret. intros L Hp.
  destruct (read_secret fs path) as [[?|?]|]; [by injection L as <- <-..|].
  destruct o; injection L as <- <-; rewrite ?lookup_insert_ne by done; done.
Qed.

Lemma load_key_readable generated outcome path fs fs' key `{!KeyBytesLaws} :
  load_or_create_secret generated outcome path fs = (fs', Ok key) -> read_secret fs' path = Some (Ok key).
Proof.
  unfold load_or_create_secret. destruct (read_secret fs path) as [[k|e]|] eqn:Hr; intros L.
  - by injection L as <- <-.
  - done.
  - destruct outcome; try done. injection L as <- <-. apply read_secret_written, _.
Qed.

Lemma read_secret_elsewhere fs path p data :
  p <> path -> read_secret (<[path := data]> fs) p = read_secret fs p.
Proof. intros Hp. unfold read_secret. by rewrite lookup_insert_ne. Qed.

(** An identity never changes: whatever file is there, loading it leaves it
    untouched, byte for byte, and a malformed one is an error; where there is
    none, whichever way the first creation ended, every later load agrees on one
    key and changes nothing. *)
Theorem identity_is_stable `{!KeyBytesLaws} g1 o1 g2 o2 path fs fs1 r1 fs2 r2 :
  load_or_create_secret g1 o1 path fs = (fs1, r1) ->
  load_or_create_secret g2 o2 path fs1 = (fs2, r2) ->
  (forall data, fs !! path = Some data -> fs1 = fs /\ (length data <> 32%nat -> exists e, r1 = Err e)) /\
  (forall key, r1 = Ok key -> fs2 = fs1 /\ r2 = Ok key) /\
  (forall p, p <> path -> fs2 !! p = fs !! p).
Proof.
  intros L1 L2. split; [|split].
  - intros data Hd. unfold load_or_create_secret, read_secret in L1. rewrite Hd in L1. cbn in L1.
    destruct (Nat.eqb_spec (length data) 32); cbn in L1; injection L1 as <- <-; split; eauto; done.
  - intros key ->. unfold load_or_create_secret in L1, L2.
    destruct (read_secret fs path) as [[k|e]|] eqn:E; [|done|].
    + injection L1 as <- <-. rewrite E in L2. by injection L2 as <- <-.
    + destruct o1; [done|done|]. cbn in L1. injection L1 as <- <-.
      rewrite read_secret_written in L2; [by injection L2 as <- <-|done].
  - intros p Hp. by rewrite (load_elsewhere _ _ _ _ _ _ _ L2 Hp), (load_elsewhere _ _ _ _ _ _ _ L1 Hp).
Qed.
End Identity.
End Files.
