(* ===== verification/RelayNode.v ===== *)
(** * as-relay: enrollment, start and the identity it polls with

    [join_control] claims a Relay invitation and leaves the profile, with QAD
    (address discovery over TLS) also a key and a certificate; [join_from_file]
    repeats it while Control is out of reach; [run] starts from the files, and
    [poll_control] begins with the identity in them
    (src/crates/as-relay/src/main.rs). The files are those of the state
    directory. *)
From S2P Require Import Prelude Deps RelayApi ControlApi State Database ControlCore ControlHandlers.
From S2P Require Import ControlSpec ControlInvariant NodeMaps Enrollment Retry Relay System Files.
Open Scope string_scope.
Open Scope Z_scope.

(** The rcgen crate on the side that asks for a certificate, and rustls'
    [with_single_cert] for a chain and the DER form of a key *)
Class TlsKeys `{Certificates} := {
  KeyPair : Type;
  serialize_request : list SanType * DistinguishedName -> list string -> list string -> KeyPair -> result string bytes;
  serialize_der : KeyPair -> bytes;
  with_single_cert : list bytes -> bytes -> result string unit;
}.
(** A certificate signed for a request loads with the key of the request. *)
Class TlsKeysLaws `{TlsKeys} : Prop := {
  signed_request_loads : forall params usages extended key der csr profile issuer certificate ca,
    serialize_request params usages extended key = Ok der -> csr_from_der der = Ok csr ->
    csr_signed_by csr profile issuer = Ok certificate ->
    with_single_cert [certificate; ca] (serialize_der key) = Ok tt /\ certificate <> [];
}.

(** An error of enrollment: one whose chain has a [reqwest::Error], or another *)
Inductive JoinError := HttpError (message : string) | JoinFailed (message : string).

Section RelayNode.
Context `{Keys, Encodings, !ControlSerde, !Urls, !Certificates, !TlsKeys}.
Context `{!Serde RelayCredential, !Serde SignedRelayCredential, !Serde RevocationUpdate}.

Record ControlProfile := {
  pf_schema_version : Z;
  pf_name : string;
  pf_control_url : string;
  pf_control_id : string;
  pf_audience : string;
  pf_endpoint_id : string;
  pf_relay_url : string;
  pf_qad_port : option Z;
  pf_relay_ca_der : bytes;
  pf_qad_certificate_der : bytes;
}.

Definition with_qad_port (port : option Z) (p : ControlProfile) : ControlProfile := {|
  pf_schema_version := pf_schema_version p; pf_name := pf_name p; pf_control_url := pf_control_url p;
  pf_control_id := pf_control_id p; pf_audience := pf_audience p; pf_endpoint_id := pf_endpoint_id p;
  pf_relay_url := pf_relay_url p; pf_qad_port := port; pf_relay_ca_der := pf_relay_ca_der p;
  pf_qad_certificate_der := pf_qad_certificate_der p |}.

Context `{!SerdePretty ControlProfile, !KeyBytes}.
Implicit Types (fs : Fs string) (profile : ControlProfile).

Definition load_profile fs : result string ControlProfile :=
  data ← of_option (fs !! "control.json") "read control.json (run `as-relay join` first)";
  profile ← of_option (from_slice data) "parse control.json";
  ensure (pf_schema_version profile == 2) "unsupported relay profile schema";;
  Ok profile.

Definition load_or_create_relay_key (generated : SecretKey) (outcome : WriteOutcome)
  : handler (Fs string) string SecretKey := load_or_create_secret generated outcome "relay.key".

(** ** [join_control] *)

(** What one attempt meets: the directory, the generators, the clock, Control's
    answer and the outcome of every write *)
Record JoinAttempt := {
  ja_directory : result string unit;
  ja_generated : SecretKey;
  ja_key_outcome : WriteOutcome;
  ja_key_pair : result string KeyPair;
  ja_issued_at : Z;
  ja_nonce : string;
  ja_respond : ClaimRequest -> result JoinError JoinResult;
  ja_qad_outcome : WriteOutcome;
  ja_outcome : WriteOutcome;
}.

(** The QAD key and the request for its certificate *)
Definition request_certificate (key_pair : result string KeyPair) (relay_url : string) (qad_port : option Z)
  : result string (option KeyPair * option bytes) :=
  match qad_port with
  | None => Ok (None, None)
  | Some _ =>
      url ← url_parse relay_url;
      host ← of_option (url_host_str url) "Relay URL has no host";
      qad_key ← key_pair;
      params ← params_new host;
      csr ← serialize_request params ["DigitalSignature"] ["ServerAuth"] qad_key;
      Ok (Some qad_key, Some csr)
  end.

(** Code whose errors are not the HTTP client's *)
Definition plain {A} (r : result string A) : handler (Fs string) JoinError A := lift (map_err JoinFailed r).
Definition on_disk {A} (op : handler (Fs string) string A) : handler (Fs string) JoinError A :=
  fun fs => let '(fs, r) := op fs in (fs, map_err JoinFailed r).

(** The QAD key is written before the profile that names its certificate. *)
Definition write_qad_key (outcome : WriteOutcome) (qad_key : option KeyPair) : handler (Fs string) string unit :=
  match qad_key with
  | Some qad_key => atomic_write outcome "qad.key" (serialize_der qad_key)
  | None => mret tt
  end.

Definition join_control (join_url : string) (control_url : option string) (qad_port : option Z) (attempt : JoinAttempt)
  : handler (Fs string) JoinError ControlProfile :=
  plain (ja_directory attempt);;
  enrolled ← get (fun fs => fs !! "control.json");
  require (enrolled == None) (JoinFailed "relay is already enrolled in control");;
  parsed ← plain (url_parse join_url);
  fragment ← plain (of_option (url_fragment parsed) "join URL is missing its token fragment");
  token ← plain (token_decode fragment);
  control_id ← plain (token_verify token);
  let invite := jt_invite token in
  relay_url ← plain (match inv_kind invite with
                     | KRelay url => Ok url
                     | _ => Err "this invitation is not for a relay"
                     end);
  let control_url := default (inv_control_url invite) control_url in
  _ ← plain (url_parse control_url);
  key ← on_disk (load_or_create_relay_key (ja_generated attempt) (ja_key_outcome attempt));
  '(qad_key, csr_der) ← plain (request_certificate (ja_key_pair attempt) relay_url qad_port);
  request ← plain (claim_sign_with_relay_qad token key (ja_issued_at attempt) (ja_nonce attempt) qad_port csr_der);
  joined ← lift (ja_respond attempt request);
  plain (node_map_verify (jr_map joined) control_id (public key));;
  qad_certificate_der ← plain (match qad_port with
    | Some _ => of_option (jr_relay_tls_certificate_der joined) "Control omitted the managed QAD TLS certificate"
    | None => Ok []
    end);
  on_disk (write_qad_key (ja_qad_outcome attempt) qad_key);;
  let profile := {| pf_schema_version := 2; pf_name := inv_name invite; pf_control_url := control_url;
    pf_control_id := id_to_string control_id; pf_audience := inv_audience invite;
    pf_endpoint_id := id_to_string (public key); pf_relay_url := relay_url; pf_qad_port := qad_port;
    pf_relay_ca_der := nm_relay_ca_der (snm_map (jr_map joined));
    pf_qad_certificate_der := qad_certificate_der |} in
  on_disk (write_json (ja_outcome attempt) "control.json" profile);;
  mret profile.

(** ** [join_from_file] *)

(** The [loop], one list element per attempt; [None] while it is still trying.
    The second component is the sleeps. *)
Fixpoint join_loop (join_url : string) (control_url : option string) (qad_port : option Z) (backoff : Z)
  (attempts : list JoinAttempt) fs : Fs string * list Z * option (result JoinError ControlProfile) :=
  match attempts with
  | [] => (fs, [], None)
  | attempt :: attempts =>
      match join_control join_url control_url qad_port attempt fs with
      | (fs, Ok profile) => (fs, [], Some (Ok profile))
      | (fs, Err (HttpError _)) =>
          let '(fs, sleeps, r) :=
            join_loop join_url control_url qad_port (Z.min (backoff * 2) 30) attempts fs in
          (fs, backoff :: sleeps, r)
      | (fs, Err e) => (fs, [], Some (Err e))
      end
  end.

Definition join_from_file (file : option string) (control_url : option string) (qad_port : option Z)
  (attempts : list JoinAttempt) fs : Fs string * list Z * option (result JoinError ControlProfile) :=
  match file with
  | None => (fs, [], Some (Err (JoinFailed "read join file (restore relay state or provide a fresh Relay invitation)")))
  | Some text =>
      let join_url := Str.trim text in
      if join_url == "" then (fs, [], Some (Err (JoinFailed "Relay invitation file is empty")))
      else join_loop join_url control_url qad_port 1 attempts fs
  end.

(** ** [run] *)

(** The chain and the key QAD serves *)
Definition managed_qad_config profile fs : result string (option (list bytes * bytes)) :=
  match pf_qad_port profile with
  | None => Ok None
  | Some _ =>
      ensure (pf_qad_certificate_der profile != []) "managed QAD TLS certificate is empty";;
      ensure (pf_relay_ca_der profile != []) "managed Relay CA certificate is empty";;
      key_der ← of_option (fs !! "qad.key") "read managed QAD TLS key";
      let chain := [pf_qad_certificate_der profile; pf_relay_ca_der profile] in
      map_err (fun _ => "configure managed QAD TLS certificate") (with_single_cert chain key_der);;
      Ok (Some (chain, key_der))
  end.

(** What the options of [run] say of QAD *)
Record RunOptions := { ro_qad_port : option Z; ro_no_qad : bool; ro_qad_bind_port : Z }.

(** The profile, after the options were applied to it *)
Definition run_profile (options : RunOptions) (outcome : WriteOutcome) : handler (Fs string) string ControlProfile :=
  loaded ← get load_profile;
  profile ← lift loaded;
  require (negb (ro_no_qad options) || (pf_qad_port profile == None)) "--no-qad cannot disable QAD after enrollment";;
  match ro_qad_port options with
  | None => mret profile
  | Some port =>
      requested ← lift (requested_qad_port (Some port) false (ro_qad_bind_port options));
      require (bool_decide (is_Some (pf_qad_port profile)))
        "--qad-port cannot enable QAD after a QAD-disabled enrollment";;
      if pf_qad_port profile == requested then mret profile
      else
        let profile := with_qad_port requested profile in
        write_json outcome "control.json" profile;;
        mret profile
  end.

(** [load_or_initialize] on the state directory *)
Definition load_revocations (io : bool) (now : Z) (audience : string) : handler (Fs string) string RevocationUpdate :=
  file ← get (fun fs => fs !! "revocations.json");
  '(state, data) ← lift (load_or_initialize io now file audience);
  modify (fun fs => <["revocations.json" := data]> fs);;
  mret state.

(** [run] up to the start of the server *)
Definition run_start (options : RunOptions) (outcome : WriteOutcome) (io : bool) (now : Z)
  : handler (Fs string) string (ControlProfile * Relay * option (list bytes * bytes)) :=
  profile ← run_profile options outcome;
  authority_id ← lift (of_option (id_parse (pf_control_id profile)) "invalid profile control id");
  let audience := pf_audience profile in
  require (negb (Str.is_blank audience)) "audience must not be empty";;
  marker ← get (fun fs => bool_decide (is_Some (fs !! "enrollment-revoked")));
  require (negb marker)
    "Relay enrollment was revoked; remove this state directory and enroll a new Relay identity";;
  state ← load_revocations io now audience;
  relay ← lift (bring_up authority_id audience marker state);
  quic ← get (managed_qad_config profile);
  quic ← lift quic;
  mret (profile, relay, quic).

(** ** [poll_control] up to its loop *)

(** [Err] where the task returns with a warning *)
Definition poll_start (generated : SecretKey) (outcome : WriteOutcome) profile
  : handler (Fs string) string (SecretKey * EndpointId) :=
  key ← load_or_create_relay_key generated outcome;
  require (id_to_string (public key) == pf_endpoint_id profile) "relay key does not match control profile";;
  control_id ← lift (of_option (id_parse (pf_control_id profile)) "invalid control identity in relay profile");
  mret (key, control_id).
End RelayNode.

(** ** The QAD key belongs to the certificate *)

Section Joining.
Context `{KeysLaws, EncodingsLaws, !ControlSerde, !Urls, !Certificates, !TlsKeys, !TlsKeysLaws}.
Context `{!Serde RelayCredential, !Serde SignedRelayCredential, !Serde RevocationUpdate}.
Context `{!SerdePretty ControlProfile, !SerdePrettyLaws ControlProfile, !KeyBytes, !KeyBytesLaws}.
Implicit Types (fs : Fs string) (profile : ControlProfile) (s : Store) (env : Env).

(** How far an attempt got: it failed and left the profile alone, or it wrote
    the profile it built from a verified answer, with the key of the certificate
    next to it. *)
Record joined (join_url : string) (control_url : option string) (qad_port : option Z) (attempt : JoinAttempt)
  profile fs fs' : Prop := {
  jo_new : fs !! "control.json" = None;
  jo_elsewhere : forall p, p <> "control.json" -> p <> "relay.key" -> p <> "qad.key" -> fs' !! p = fs !! p;
  jo_written : fs' !! "control.json" = Some (to_vec_pretty profile ++ [newline_byte])%list;
  jo_facts : exists parsed fragment token control_id key qad_key csr request answer,
    url_parse join_url = Ok parsed /\ url_fragment parsed = Some fragment /\ token_decode fragment = Ok token /\
    token_verify token = Ok control_id /\ inv_kind (jt_invite token) = KRelay (pf_relay_url profile) /\
    request_certificate (ja_key_pair attempt) (pf_relay_url profile) qad_port = Ok (qad_key, csr) /\
    claim_sign_with_relay_qad token key (ja_issued_at attempt) (ja_nonce attempt) qad_port csr = Ok request /\
    ja_respond attempt request = Ok answer /\
    node_map_verify (jr_map answer) control_id (public key) = Ok tt /\
    read_secret fs' "relay.key" = Some (Ok key) /\
    (forall k, qad_key = Some k -> fs' !! "qad.key" = Some (serialize_der k)) /\
    (forall p, qad_port = Some p -> jr_relay_tls_certificate_der answer = Some (pf_qad_certificate_der profile)) /\
    profile = {| pf_schema_version := 2; pf_name := inv_name (jt_invite token);
      pf_control_url := default (inv_control_url (jt_invite token)) control_url;
      pf_control_id := id_to_string control_id; pf_audience := inv_audience (jt_invite token);
      pf_endpoint_id := id_to_string (public key); pf_relay_url := pf_relay_url profile; pf_qad_port := qad_port;
      pf_relay_ca_der := nm_relay_ca_der (snm_map (jr_map answer));
      pf_qad_certificate_der := pf_qad_certificate_der profile |};
}.

Lemma load_key_keeps generated outcome fs fs' r p :
  on_disk (load_or_create_relay_key generated outcome) fs = (fs', r) -> p <> "relay.key" -> fs' !! p = fs !! p.
Proof.
  unfold on_disk, load_or_create_relay_key. destruct (load_or_create_secret _ _ _ fs) as [fs1 r1] eqn:L.
  intros [= <- <-] Hp. by eapply load_elsewhere.
Qed.

Lemma write_qad_key_spec outcome qad_key fs fs' r :
  on_disk (write_qad_key outcome qad_key) fs = (fs', r) ->
  (forall p, p <> "qad.key" -> fs' !! p = fs !! p) /\
  (r = Ok tt -> forall k, qad_key = Some k -> fs' !! "qad.key" = Some (serialize_der k)).
Proof.
  unfold on_disk, write_qad_key, atomic_write. destruct qad_key as [k|]; cbn; [|by intros [= <- <-]].
  destruct outcome; intros [= <- <-]; (split; [intros p Hp; by rewrite ?lookup_insert_ne|]); try done.
  intros _ ? [= <-]. apply lookup_insert_eq.
Qed.

Lemma relay_join_inv join_url control_url qad_port attempt fs fs' r :
  join_control join_url control_url qad_port attempt fs = (fs', r) ->
  (exists e, r = Err e /\ fs' !! "control.json" = fs !! "control.json") \/
  exists profile, joined join_url control_url qad_port attempt profile fs fs' /\ (r = Ok profile \/ exists e, r = Err e).
Proof.
  unfold join_control, plain. intros J.
  do 7 (hstep J; try by (left; eexists)). cbv zeta in J. do 2 (hstep J; try by (left; eexists)).
  apply bind_inv in J as [(key & fs1 & L & J)|(e & L & ->)].
  2: { left. exists e. split; [done|]. by eapply load_key_keeps. }
  assert (Hl : fs1 !! "control.json" = fs !! "control.json") by (by eapply load_key_keeps).
  assert (Hk : read_secret fs1 "relay.key" = Some (Ok key)).
  { unfold on_disk, load_or_create_relay_key in L. destruct (load_or_create_secret _ _ _ fs) as [f [k|]] eqn:El; [|done].
    injection L as <- <-. by eapply load_key_readable. }
  do 5 (hstep J; try done; try by (left; eexists)).
  apply bind_inv in J as [([] & fs2 & Q & J)|(e & Q & ->)]; apply write_qad_key_spec in Q as [Hq Hqk].
  2: { left. exists e. split; [done|]. by rewrite Hq. }
  match type of J with context [write_json _ _ ?p] => set (profile := p) in J end.
  assert (Hjoined : forall fs3, fs3 = <["control.json" := (to_vec_pretty profile ++ [newline_byte])%list]> fs2 ->
    joined join_url control_url qad_port attempt profile fs fs3).
  { intros fs3 ->. rewrite !map_err_Ok in *. breflect. split; [done| |apply lookup_insert_eq|].
    { intros p Hp Hpr Hpq. rewrite lookup_insert_ne, Hq by done. by eapply load_key_keeps. }
    exists a, a0, a1, a2, key, o, o0, a5, a6. apply of_option_Ok in E2.
    rewrite read_secret_elsewhere by done. unfold read_secret in *. rewrite Hq, lookup_insert_ne by done.
    split_and!; try done.
    - cbn. destruct (inv_kind (jt_invite a1)); try done. by injection E5 as <-.
    - intros k Hko. rewrite <- (Hqk eq_refl k Hko). done.
    - intros p' Hp'. rewrite Hp' in E11. by apply of_option_Ok in E11. }
  unfold on_disk, write_json, atomic_write, mbind, handler_bind in J.
  destruct (ja_outcome attempt); injection J as <- <-.
  - left. eexists. split; [done|]. by rewrite Hq.
  - right. exists profile. split; [by apply Hjoined|]. right. by eexists.
  - right. exists profile. split; [by apply Hjoined|]. by left.
Qed.

Lemma issue_certificate_inv now csr_der url p ca c :
  issue_relay_tls_certificate now csr_der (KRelay url) (Some p) ca = Ok c ->
  exists der csr params certificate, csr_der = Some der /\ csr_from_der der = Ok csr /\
    csr_signed_by csr params ca = Ok certificate /\ c = Some certificate.
Proof.
  unfold issue_relay_tls_certificate. intros Hi. run_ok.
  match goal with x : (list SanType * DistinguishedName)%type |- _ => destruct x end. run_ok. by do 4 eexists.
Qed.

Lemma validate_relay_claim_inv url port csr port' :
  validate_relay_claim (KRelay url) port csr = Ok port' -> port' = port /\ validate_qad_port port = Ok tt.
Proof.
  unfold validate_relay_claim. cbn. intros Hv. run_ok. by destruct x.
Qed.

(** The Relay's record has the claimed port, whether it is new or was there. *)
Definition has_port st (id : EndpointId) (port : option Z) : Prop :=
  forall relay, relay ∈ st_relays st -> r_endpoint_id relay = id_to_string id -> r_qad_port relay = port.

Lemma claim_pending_relay env record id port certificate url s s' r :
  store_ok s -> claim_pending env record id port certificate s = (s', Ok r) -> inv_kind (i_invite record) = KRelay url ->
  jr_relay_tls_certificate_der r = certificate /\ has_port (s_state s') id port.
Proof.
  intros Hok C Hk. unfold claim_pending in C. cbv zeta in C. hrun C. split; [done|].
  match goal with E : commit_delta _ _ _ = _ |- _ =>
    apply (commit_delta_Ok _ _ _ _ Hok) in E as (rv & rr & _ & _ & _ & Es & _ & _) end.
  match goal with E : claimed_node_change _ _ _ _ _ _ _ = Ok _ |- _ =>
    unfold claimed_node_change in E; rewrite Hk in E end. run_ok. intros relay. rewrite Es. cbn.
  rewrite elem_of_upsert_record by apply (store_ok_state s Hok). intros [->|[_ Hne]] Hid; [done|]. by destruct Hne.
Qed.

Lemma claim_repeated_relay env request record id port certificate s s' r :
  store_ok s -> cl_endpoint_id (cr_claim request) = id_to_string id ->
  claim_repeated env request record id port certificate s = (s', Ok r) ->
  jr_relay_tls_certificate_der r = certificate /\ has_port (s_state s') id port.
Proof.
  intros Hok Hid C. unfold claim_repeated in C. hrun C. split; [done|]. intros relay Hr Hrid.
  destruct (so_relays _ (store_ok_state _ Hok)) as [Hu _].
  match goal with E : match Vec.find ?f ?l with _ => _ end = true |- _ =>
    assert (Ef : Vec.find f l = Some relay); [|rewrite Ef in E; by breflect] end.
  apply (Keyed.lookup_Some r_endpoint_id); [done|]. by rewrite Hid.
Qed.

(** What Control did for a Relay's claim *)
Lemma relay_claim_result env request s s' r id url :
  store_ok s -> claim env request s = (s', Ok r) -> cl_endpoint_id (cr_claim request) = id_to_string id ->
  inv_kind (jt_invite (cr_token request)) = KRelay url ->
  let port := cl_relay_qad_port (cr_claim request) in
  validate_qad_port port = Ok tt /\ has_port (s_state s') id port /\
  (forall p, port = Some p -> exists der csr params certificate,
     cl_relay_tls_csr (cr_claim request) = Some der /\ csr_from_der der = Ok csr /\
     csr_signed_by csr params (s_relay_ca s) = Ok certificate /\
     jr_relay_tls_certificate_der r = Some certificate).
Proof.
  intros Hok C Hid Hk port. unfold claim in C. hrun C. unfold claim_mutation in C.
  assert (Ha : a = id).
  { unfold claim_checks, claim_verify in *. run_ok. rewrite Hid, id_parse_to_string in *. congruence. }
  subst a. hrun C; (edestruct claim_record as (? & Einv & ?); [done..|]); rewrite Einv, Hk in *;
    match goal with E : validate_relay_claim _ _ _ = Ok _ |- _ => apply validate_relay_claim_inv in E as [-> Hq] end;
    (split; [done|]).
  - destruct (claim_pending_relay _ _ _ _ _ url _ _ _ Hok C) as [Hc Hp]; [by rewrite Einv|]. split; [done|].
    intros p Hport. rewrite Hc. subst port. rewrite Hport in E4. by apply issue_certificate_inv in E4.
  - destruct (claim_repeated_relay _ _ _ _ _ _ _ _ _ Hok Hid C) as [Hc Hp]. split; [done|].
    intros p Hport. rewrite Hc. subst port. rewrite Hport in E4. by apply issue_certificate_inv in E4.
Qed.

(** Control, in some state, answers the attempt. *)
Definition asks_control (attempt : JoinAttempt) : Prop := exists env s, store_ok s /\
  forall request answer, ja_respond attempt request = Ok answer -> exists s', claim env request s = (s', Ok answer).

(** Where there is a profile, QAD can be served with the key on disk. *)
Definition qad_consistent fs : Prop :=
  forall profile, load_profile fs = Ok profile -> exists quic, managed_qad_config profile fs = Ok quic.

Lemma load_profile_written profile fs :
  pf_schema_version profile = 2 ->
  fs !! "control.json" = Some (to_vec_pretty profile ++ [newline_byte])%list -> load_profile fs = Ok profile.
Proof. intros Hv Hf. unfold load_profile. rewrite Hf. cbn. rewrite from_slice_pretty_newline. cbn. by rewrite Hv. Qed.

Lemma signed_map_ca now st key id m :
  signed_map now st key id = Ok m -> nm_relay_ca_der (snm_map m) = st_relay_ca_der st.
Proof. unfold signed_map. intros ([[? ?] ?] & _ & Hm)%bind_Ok. by injection Hm as <-. Qed.

Lemma joined_qad join_url control_url qad_port attempt profile fs fs' :
  asks_control attempt -> joined join_url control_url qad_port attempt profile fs fs' ->
  load_profile fs' = Ok profile /\ exists quic, managed_qad_config profile fs' = Ok quic.
Proof.
  intros (env & s & Hok & Hask) [_ _ Hw (parsed & fragment & token & control_id & key & qad_key & csr & request &
    answer & _ & _ & _ & _ & Hkind & Hrc & Hsign & Hresp & _ & _ & Hqk & Hcert & E)].
  split; [apply load_profile_written; [by rewrite E|done]|].
  destruct (Hask _ _ Hresp) as [s' C]. injection Hsign as <-.
  destruct (relay_claim_result _ _ _ _ _ (public key) _ Hok C eq_refl Hkind) as (_ & _ & Hc). cbn in Hc.
  destruct (claim_leaves_record _ _ _ _ _ Hok C) as (id & _ & _ & Hok' & _ & _ & _ & _ & _ & _ & _ & _ & _ & _ & _ & _ & _ & Hm).
  assert (Hca : nm_relay_ca_der (snm_map (jr_map answer)) <> []).
  { rewrite (signed_map_ca _ _ _ _ _ Hm). pose proof (so_metadata _ (store_ok_state _ Hok')) as Hmd.
    unfold check_metadata in Hmd. cbn in Hmd. by breflect. }
  unfold managed_qad_config. rewrite E. cbn [pf_qad_port pf_qad_certificate_der pf_relay_ca_der].
  destruct qad_port as [p|]; [|by eexists].
  destruct (Hc p eq_refl) as (der & csr' & params & certificate & -> & Hder & Hsigned & Hj).
  rewrite (Hcert p eq_refl) in Hj. injection Hj as ->. unfold request_certificate in Hrc. run_ok.
  rewrite (Hqk _ eq_refl). cbn [of_option].
  edestruct (signed_request_loads) as [Hload Hne]; [eassumption..|].
  eexists. prove_ok; [done..|]. by rewrite Hload.
Qed.

(** ** The life of a state directory *)

Inductive RelayCommand :=
| Join (join_url : string) (control_url : option string) (qad_port : option Z) (attempt : JoinAttempt)
| Run (options : RunOptions) (outcome : WriteOutcome) (io : bool) (now : Z)
| PollStart (generated : SecretKey) (outcome : WriteOutcome) (profile : ControlProfile).

Definition relay_command (command : RelayCommand) fs : Fs string :=
  match command with
  | Join join_url control_url qad_port attempt => (join_control join_url control_url qad_port attempt fs).1
  | Run options outcome io now => (run_start options outcome io now fs).1
  | PollStart generated outcome profile => (poll_start generated outcome profile fs).1
  end.
Definition relay_commands (commands : list RelayCommand) fs : Fs string :=
  fold_left (fun fs command => relay_command command fs) commands fs.

(** Files that QAD does not depend on *)
Lemma qad_consistent_elsewhere fs fs' :
  fs' !! "control.json" = fs !! "control.json" -> fs' !! "qad.key" = fs !! "qad.key" ->
  qad_consistent fs -> qad_consistent fs'.
Proof.
  intros Hc Hq Hf profile. unfold load_profile, managed_qad_config. rewrite Hc, Hq. apply Hf.
Qed.

Lemma join_enrolled join_url control_url qad_port attempt fs data :
  fs !! "control.json" = Some data -> (join_control join_url control_url qad_port attempt fs).1 = fs.
Proof.
  intros Hd. destruct (join_control join_url control_url qad_port attempt fs) as [fs' r] eqn:J. cbn.
  unfold join_control, plain in J. hstep J; [|done]. do 2 (hstep J; try done). breflect. congruence.
Qed.

Lemma join_consistent join_url control_url qad_port attempt fs :
  asks_control attempt -> qad_consistent fs ->
  qad_consistent (join_control join_url control_url qad_port attempt fs).1.
Proof.
  intros Ha Hf. destruct (fs !! "control.json") as [data|] eqn:Ec; [by erewrite join_enrolled|].
  destruct (join_control _ _ _ _ fs) as [fs' r] eqn:J. cbn.
  destruct (relay_join_inv _ _ _ _ _ _ _ J) as [(e & _ & Hk)|(profile & Hj & _)].
  - intros profile Hl. unfold load_profile in Hl. by rewrite Hk, Ec in Hl.
  - destruct (joined_qad _ _ _ _ _ _ _ Ha Hj) as [Hl Hq]. intros p Hp. rewrite Hl in Hp. by injection Hp as <-.
Qed.

Lemma run_profile_spec options outcome fs fs' r :
  run_profile options outcome fs = (fs', r) -> qad_consistent fs ->
  qad_consistent fs' /\ (forall p, p <> "control.json" -> fs' !! p = fs !! p).
Proof.
  intros R Hf. unfold run_profile in R. hstep R. do 2 (hstep R; try done).
  destruct (ro_qad_port options) as [port|]; [|by hstep R]. do 2 (hstep R; try done).
  case_match; [by hstep R|].
  destruct (write_json outcome "control.json" (with_qad_port a0 a) fs) as [fs1 r1] eqn:W.
  assert (Efs : fs' = fs1).
  { unfold mbind, handler_bind in R. rewrite W in R. destruct r1; by injection R as <- <-. }
  subst fs1. unfold write_json, atomic_write in W.
  assert (Hw : fs' = fs \/ fs' = <["control.json" := (to_vec_pretty (with_qad_port a0 a) ++ [newline_byte])%list]> fs)
    by (destruct outcome; injection W as <- <-; auto).
  destruct Hw as [-> | ->]; [done|]. split; [|intros p Hp; by rewrite lookup_insert_ne].
  intros profile Hl. destruct (Hf a E) as [quic Hq].
  assert (Hv : pf_schema_version a = 2) by (unfold load_profile in E; run_ok; done).
  rewrite (load_profile_written (with_qad_port a0 a)) in Hl by (done || apply lookup_insert_eq).
  injection Hl as <-. unfold managed_qad_config in *. cbn [pf_qad_port with_qad_port pf_qad_certificate_der pf_relay_ca_der].
  rewrite lookup_insert_ne by done. destruct a0; [|by eexists]. breflect.
  destruct (pf_qad_port a); [by eexists|]. by destruct E2.
Qed.

Lemma load_revocations_keeps io now audience fs fs' r p :
  load_revocations io now audience fs = (fs', r) -> p <> "revocations.json" -> fs' !! p = fs !! p.
Proof.
  unfold load_revocations. intros L Hp. hstep L. hstep L; [|done]. hstep L. injection L as <- <-.
  by rewrite lookup_insert_ne.
Qed.

Lemma run_start_consistent options outcome io now fs :
  qad_consistent fs -> qad_consistent (run_start options outcome io now fs).1.
Proof.
  intros Hf. destruct (run_start options outcome io now fs) as [fs' r] eqn:R. cbn. unfold run_start in R.
  apply bind_inv in R as [(profile & fs1 & P & R)|(e & P & ->)]; apply run_profile_spec in P as [Hf1 _]; try done.
  hstep R; [|done]. cbv zeta in R. do 3 (hstep R; try done).
  apply bind_inv in R as [(state & fs2 & L & R)|(e & L & ->)].
  2: { eapply qad_consistent_elsewhere, Hf1; by eapply load_revocations_keeps. }
  assert (Hf2 : qad_consistent fs2) by (eapply qad_consistent_elsewhere, Hf1; by eapply load_revocations_keeps).
  do 4 (hstep R; try done).
Qed.

Lemma poll_start_consistent generated outcome profile fs :
  qad_consistent fs -> qad_consistent (poll_start generated outcome profile fs).1.
Proof.
  intros Hf. destruct (poll_start generated outcome profile fs) as [fs' r] eqn:P. cbn. unfold poll_start in P.
  assert (Hk : forall fs1 r1, load_or_create_relay_key generated outcome fs = (fs1, r1) -> qad_consistent fs1).
  { intros fs1 r1 L. eapply qad_consistent_elsewhere, Hf; by eapply load_elsewhere. }
  apply bind_inv in P as [(key & fs1 & L & P)|(e & L & ->)]; apply Hk in L; [|done].
  do 3 (hstep P; try done).
Qed.

(** A Relay with QAD can always serve it. Whatever is done to a state directory
    that had no profile (enrollments that succeed, fail or are interrupted
    anywhere, and repeated, with any Control in a consistent state answering them,
    starts with any options, lost writes), a profile in it names a certificate
    that belongs to the TLS key next to it. *)
Theorem qad_always_serves commands fs :
  fs !! "control.json" = None ->
  Forall (fun command => match command with Join _ _ _ attempt => asks_control attempt | _ => True end) commands ->
  let fs' := relay_commands commands fs in
  forall profile, load_profile fs' = Ok profile ->
  match pf_qad_port profile with
  | None => managed_qad_config profile fs' = Ok None
  | Some _ => exists key_der, fs' !! "qad.key" = Some key_der /\
      with_single_cert [pf_qad_certificate_der profile; pf_relay_ca_der profile] key_der = Ok tt /\
      managed_qad_config profile fs' = Ok (Some ([pf_qad_certificate_der profile; pf_relay_ca_der profile], key_der))
  end.
Proof.
  intros Hn Ha fs' profile Hl. assert (Hc : qad_consistent fs').
  { subst fs'. assert (H0c : qad_consistent fs) by (intros p Hp; unfold load_profile in Hp; by rewrite Hn in Hp).
    clear Hn Hl. revert fs H0c. induction Ha as [|command commands Hcmd _ IH]; intros fs Hf; [done|]. cbn.
    apply IH. destruct command; cbn; [by apply join_consistent|by apply run_start_consistent|by apply poll_start_consistent]. }
  destruct (Hc profile Hl) as [quic Hq]. unfold managed_qad_config in *.
  destruct (pf_qad_port profile); [|done]. run_ok. eexists. split; [eassumption|].
  match goal with u : unit |- _ => destruct u end. split; [done|]. prove_ok; try done; eassumption.
Qed.

(** ** A Relay joins the system *)

Lemma initial_start now control audience :
  Str.is_blank audience = false ->
  exists relay, start true now (id_to_string control) audience false None = Ok relay /\
    bring_up control audience false {| ru_protocol_version := RELAY_PROTOCOL_VERSION; ru_audience := audience;
      ru_version := 0; ru_issued_at := now; ru_revocations := [] |} = Ok relay.
Proof.
  intros Hb. set (u := {| ru_protocol_version := RELAY_PROTOCOL_VERSION; ru_audience := audience;
    ru_version := 0; ru_issued_at := now; ru_revocations := [] |}).
  destruct (validate_revocations_total u) as [ids Hids]; [|constructor|].
  { unfold update_validate. cbn. rewrite bool_decide_eq_false_2; [done|]. by intros ->. }
  eexists. split.
  - unfold start. rewrite id_parse_to_string, Hb. cbn. fold u. unfold bring_up. change audience with (ru_audience u).
    rewrite Hids. reflexivity.
  - unfold bring_up. change audience with (ru_audience u). rewrite Hids. reflexivity.
Qed.

Lemma run_start_new options outcome now profile control fs quic :
  load_profile fs = Ok profile -> ro_qad_port options = None -> ro_no_qad options = false ->
  pf_control_id profile = id_to_string control -> Str.is_blank (pf_audience profile) = false ->
  fs !! "revocations.json" = None -> fs !! "enrollment-revoked" = None -> managed_qad_config profile fs = Ok quic ->
  exists relay fs', run_start options outcome true now fs = (fs', Ok (profile, relay, quic)) /\
    start true now (id_to_string control) (pf_audience profile) false None = Ok relay /\
    (forall p, p <> "revocations.json" -> fs' !! p = fs !! p).
Proof.
  intros Hl Ho Hno Hc Hb Hr Hm Hq. destruct (initial_start now control _ Hb) as (relay & Hs & Hbr).
  assert (Hp : run_profile options outcome fs = (fs, Ok profile)).
  { unfold run_profile. rewrite bind_get, Hl, (bind_eq_Ok _ (lift (Ok _)) fs fs _ eq_refl), Hno, Ho.
    by rewrite (bind_eq_Ok _ (require _ _) fs fs tt). }
  set (u := {| ru_protocol_version := RELAY_PROTOCOL_VERSION; ru_audience := pf_audience profile;
    ru_version := 0; ru_issued_at := now; ru_revocations := [] |}) in *.
  assert (Hload : load_revocations true now (pf_audience profile) fs = (<["revocations.json" := to_vec u]> fs, Ok u)).
  { unfold load_revocations. rewrite bind_get, Hr. done. }
  exists relay, (<["revocations.json" := to_vec u]> fs). split; [|split; [done|intros p Hp'; by rewrite lookup_insert_ne]].
  unfold run_start. rewrite (bind_eq_Ok _ _ fs fs _ Hp), Hc, id_parse_to_string. cbn [of_option].
  rewrite (bind_eq_Ok _ (lift (Ok _)) fs fs control eq_refl). cbv zeta. rewrite Hb.
  change (negb false) with true. rewrite (bind_eq_Ok _ (require true _) fs fs tt eq_refl), bind_get, Hm.
  change (bool_decide (is_Some None)) with false. change (negb false) with true.
  rewrite (bind_eq_Ok _ (require true _) fs fs tt eq_refl), (bind_eq_Ok _ _ fs _ _ Hload), Hbr.
  rewrite (bind_eq_Ok _ (lift (Ok _)) _ _ relay eq_refl), bind_get.
  assert (Hq' : managed_qad_config profile (<["revocations.json" := to_vec u]> fs) = Ok quic).
  { unfold managed_qad_config in *. by rewrite lookup_insert_ne. }
  rewrite Hq'. done.
Qed.

Lemma watch_sign_relay_spec key known issued_at nonce port request :
  watch_sign_relay key known issued_at nonce port = Ok request ->
  watch_verify request = Ok (public key) /\ wr_known_revision request = known /\
  wr_issued_at request = issued_at /\ wr_relay_qad_port request = port.
Proof.
  intros Hs. injection Hs as <-. split_and!; try done. unfold watch_verify, ensure_protocol_version. cbn.
  rewrite id_parse_to_string. cbn. by rewrite id_verify_sign.
Qed.

(** The first watch of a Relay brings it to Control's revision. *)
Lemma first_watch env now key relay s port issued_at nonce request :
  newly_joined {| sys_control := s; sys_relay := relay |} ->
  has_port (s_state s) (public key) port -> validate_qad_port port = Ok tt ->
  watch_sign_relay key (ru_version (rl_current relay)) issued_at nonce port = Ok request ->
  verification_permit env = Ok tt -> check_time issued_at (env_received env) = Ok tt ->
  (default 0 (s_watches s !! id_to_string (public key)) < WATCHES_PER_ENDPOINT)%nat ->
  anyhow_relay_exists (s_state s) (public key) = Ok tt -> Z.abs (now - env_now env) <= MAX_CLOCK_SKEW_SECS ->
  let relay' := (poll_answer true now (rl_authority_id relay) (rl_audience relay) relay
                   (answer_of (relay_watch env id [] id request s).2)).1 in
  ru_version (rl_current relay') = st_relay_revision (s_state s).
Proof.
  intros Hj Hport Hq Hw Hperm Ht Hcount Hex Hskew.
  destruct (watch_sign_relay_spec _ _ _ _ _ _ Hw) as (Hv & Hkn & Hti & Hpo).
  destruct (Vec.find (fun r => r_endpoint_id r == id_to_string (public key)) (st_relays (s_state s))) as [rec|] eqn:Ef.
  2: { unfold anyhow_relay_exists in Hex. apply ensure_Ok, Vec.find_any in Hex as [? Hex]. congruence. }
  rewrite (relay_watch_answer env (public key) request rec s); try done; [|by rewrite Hti|by rewrite Hpo|].
  2: { apply Vec.find_Some in Ef as [Hin Hrid]. breflect. rewrite Hpo. by apply Hport. }
  rewrite Hkn. destruct (newly_joined_ok now _ Hj) as [Hok Hn Hfo].
  exact (proj1 (poll_catches_up now env now (public key) s relay Hok Hn Hfo (Z.le_refl _) Hex Hskew)).
Qed.

(** C21. A Relay that enrolled follows Control. When [join_control] succeeds against
    Control, from a directory without older state, [run] starts from the files it
    left, with QAD as enrolled; [poll_control] finds the enrolled identity and
    Control's; Relay and Control are then in the state from which every theorem
    about the two starts ([newly_joined]); and the first watch, with the request
    the program signs, brings the Relay to Control's current revision. *)
Theorem enrolled_relay_follows_control env s join_url control_url qad_port attempt fs fs' profile options outcome now :
  store_ok s -> numbering_ok (s_state s) -> Str.is_blank (st_audience (s_state s)) = false ->
  (forall request, ja_respond attempt request = map_err JoinFailed (claim_answer env s request)) ->
  join_control join_url control_url qad_port attempt fs = (fs', Ok profile) ->
  fs !! "revocations.json" = None -> fs !! "enrollment-revoked" = None ->
  ro_qad_port options = None -> ro_no_qad options = false ->
  exists key claimed s' answer relay quic fs'',
    claim env claimed s = (s', Ok answer) /\ cl_endpoint_id (cr_claim claimed) = id_to_string (public key) /\
    run_start options outcome true now fs' = (fs'', Ok (profile, relay, quic)) /\
    newly_joined {| sys_control := s'; sys_relay := relay |} /\
    (forall generated key_outcome,
       poll_start generated key_outcome profile fs'' = (fs'', Ok (key, public (s_key s')))) /\
    forall env' issued_at nonce request,
      watch_sign_relay key (ru_version (rl_current relay)) issued_at nonce (pf_qad_port profile) = Ok request ->
      verification_permit env' = Ok tt -> check_time issued_at (env_received env') = Ok tt ->
      (default 0 (s_watches s' !! id_to_string (public key)) < WATCHES_PER_ENDPOINT)%nat ->
      anyhow_relay_exists (s_state s') (public key) = Ok tt -> Z.abs (now - env_now env') <= MAX_CLOCK_SKEW_SECS ->
      let relay' := (poll_answer true now (public (s_key s')) (pf_audience profile) relay
                       (answer_of (relay_watch env' id [] id request s').2)).1 in
      ru_version (rl_current relay') = st_relay_revision (s_state s').
Proof.
  intros Hok Hn Hb Hresp J Hr Hm Ho Hno.
  assert (Hask : asks_control attempt).
  { exists env, s. split; [done|]. intros request answer Hr'. rewrite Hresp in Hr'. apply map_err_Ok in Hr'.
    unfold claim_answer in Hr'. destruct (claim env request s) as [s' r]. cbn in Hr'.
    apply map_err_Ok in Hr' as ->. by eexists. }
  destruct (relay_join_inv _ _ _ _ _ _ _ J) as [(e & ? & _)|(profile' & Hj & [[= <-]|(e & ?)])]; try done.
  destruct (joined_qad _ _ _ _ _ _ _ Hask Hj) as [Hl [quic Hq]].
  destruct Hj as [_ Hel _ (parsed & fragment & token & control_id & key & qad_key & csr & request & answer & _ & _ & _ &
    Htok & Hkind & _ & Hsign & Hans & _ & Hkey & _ & _ & E)].
  rewrite Hresp in Hans. apply map_err_Ok in Hans. unfold claim_answer in Hans.
  destruct (claim env request s) as [s' r] eqn:C. cbn in Hans. apply map_err_Ok in Hans as ->. injection Hsign as <-.
  destruct (claim_leaves_record _ _ _ _ _ Hok C) as (id & record & _ & Hok' & Ek & Ea & _ & _ & Einv & _ & _ & _ & _ &
    _ & Ecid & Eaud & _ & _). cbn in Einv.
  assert (Hcid : control_id = public (s_key s)).
  { unfold token_verify in Htok. run_ok. match goal with Hp : id_parse _ = Some control_id |- _ =>
      rewrite <- Einv, Ecid, id_parse_to_string in Hp; congruence end. }
  assert (Haud : pf_audience profile = st_audience (s_state s')) by (rewrite E; cbn; congruence).
  destruct (run_start_new options outcome now profile (public (s_key s')) fs' quic) as (relay & fs'' & R & Hs & Hel');
    try done; [rewrite E; cbn; congruence|by rewrite Haud, Ea|by rewrite Hel|by rewrite Hel|].
  assert (Hj : newly_joined {| sys_control := s'; sys_relay := relay |}).
  { split; [done|]. split; [|exists true, now; cbn; by rewrite <- Haud].
    match type of C with claim _ ?q _ = _ => pose proof (perform_numbering env (OClaim q) s Hok Hn) as Hn' end.
    cbn [perform] in Hn'. by rewrite C in Hn'. }
  exists key. eexists. exists s', answer, relay, quic, fs''. split; [exact C|]. split; [done|]. split; [done|]. split; [done|].
  split.
  - intros generated key_outcome. unfold poll_start, load_or_create_relay_key.
    assert (Hk' : load_or_create_secret generated key_outcome "relay.key" fs'' = (fs'', Ok key)).
    { unfold load_or_create_secret, read_secret in *. rewrite Hel' by done. by rewrite Hkey. }
    rewrite (bind_eq_Ok _ _ fs'' fs'' key Hk'), E. cbn [pf_endpoint_id pf_control_id].
    rewrite bool_decide_eq_true_2, (bind_eq_Ok _ (require true _) fs'' fs'' tt eq_refl) by done.
    rewrite id_parse_to_string, Hcid, Ek. done.
  - intros env' issued_at nonce request Hw Hperm Ht Hcount Hex Hskew.
    destruct (relay_claim_result _ _ _ _ _ (public key) _ Hok C eq_refl Hkind) as (Hq0 & Hport & _).
    pose proof (start_ok _ _ _ _ _ _ _ Hs) as (_ & Hra & Hrk & _).
    rewrite id_parse_to_string in Hrk. injection Hrk as Hrk. rewrite Hrk, <- Hra.
    assert (Eq : pf_qad_port profile = qad_port) by (by rewrite E). rewrite Eq in Hw.
    by eapply (first_watch env' now key relay s' qad_port).
Qed.

(** ** [join_from_file] *)

(** The result of [send_control], as [join_control] sees it: an answer, or an
    error that is the HTTP client's or not *)
Definition sent_error (e : SendError) : JoinError :=
  match e with
  | HttpClient message => HttpError message
  | RequestTimedOut => JoinFailed "claim relay invitation: Control request timed out"
  | ControlBusy => JoinFailed "claim relay invitation: Control is busy"
  end.

Lemma join_loop_spec join_url control_url qad_port backoff attempts fs fs' sleeps r :
  1 <= backoff <= 30 -> join_loop join_url control_url qad_port backoff attempts fs = (fs', sleeps, r) ->
  Forall (fun pause => backoff <= pause <= 30) sleeps /\ Sorted Z.le sleeps /\
  match r with
  | None => length sleeps = length attempts
  | Some r => exists attempt fs1, attempts !! length sleeps = Some attempt /\
      join_control join_url control_url qad_port attempt fs1 = (fs', r) /\ forall message, r <> Err (HttpError message)
  end.
Proof.
  revert backoff fs fs' sleeps. induction attempts as [|attempt attempts IH]; intros backoff fs fs' sleeps Hb; cbn [join_loop].
  { intros [= <- <- <-]. by split_and!. }
  destruct (join_control join_url control_url qad_port attempt fs) as [fs1 [profile|[message|message]]] eqn:J.
  - intros [= <- <- <-]. split_and!; [done..|]. by exists attempt, fs.
  - destruct (join_loop _ _ _ _ attempts fs1) as [[fs2 sleeps2] r2] eqn:L. intros [= <- <- <-].
    apply IH in L as (Hf & Hs & Hr); [|lia]. split_and!.
    + constructor; [lia|]. eapply Forall_impl; [exact Hf|]. intros pause ?. cbv beta in *. lia.
    + constructor; [done|]. destruct Hf; constructor. lia.
    + destruct r2 as [r2|]; cbn; [|by rewrite Hr]. done.
  - intros [= <- <- <-]. split_and!; [done..|]. by exists attempt, fs.
Qed.

(** Enrollment from a file is repeated exactly while the HTTP client fails, with
    pauses between one and thirty seconds that never shrink; the first other
    outcome, success or not, is the result. *)
Theorem join_from_file_retries text control_url qad_port attempts fs fs' sleeps r :
  join_from_file (Some text) control_url qad_port attempts fs = (fs', sleeps, r) -> Str.trim text <> "" ->
  Forall (fun pause => 1 <= pause <= 30) sleeps /\ Sorted Z.le sleeps /\
  match r with
  | None => length sleeps = length attempts
  | Some r => exists attempt fs1, attempts !! length sleeps = Some attempt /\
      join_control (Str.trim text) control_url qad_port attempt fs1 = (fs', r) /\
      forall message, r <> Err (HttpError message)
  end.
Proof.
  intros J Ht. unfold join_from_file in J. cbv zeta in J. rewrite bool_decide_eq_false_2 in J by done.
  by eapply join_loop_spec.
Qed.

(** Only the exchange with Control fails with an error of the HTTP client. *)
Lemma on_disk_error {A} (op : handler (Fs string) string A) fs fs' message :
  on_disk op fs <> (fs', Err (HttpError message)).
Proof. unfold on_disk. destruct (op fs) as [? [?|?]]; intros E; done. Qed.

Ltac not_http J :=
  hstep J; try done;
  try match goal with E : map_err JoinFailed ?x = Err _, Hx : Err (HttpError _) = Err _ |- _ => by destruct x; simplify_eq end.

Lemma join_control_http join_url control_url qad_port attempt fs fs' message :
  join_control join_url control_url qad_port attempt fs = (fs', Err (HttpError message)) ->
  exists request, ja_respond attempt request = Err (HttpError message).
Proof.
  unfold join_control, plain. intros J. do 7 (not_http J). cbv zeta in J. do 2 (not_http J).
  apply bind_inv in J as [(key & fs1 & _ & J)|(e & L & [= <-])]; [|by apply on_disk_error in L].
  do 2 (not_http J). hstep J; [|simplify_eq; by eexists]. do 2 (not_http J).
  apply bind_inv in J as [(u & fs2 & _ & J)|(e & L & [= <-])]; [|by apply on_disk_error in L].
  apply bind_inv in J as [(u' & fs3 & _ & J)|(e & L & [= <-])]; [done|by apply on_disk_error in L].
Qed.

(** Enrollment from a file gives up when Control answers that it is busy or does
    not answer in time, although the loop is there to wait for Control and a
    later attempt could succeed. *)
Theorem busy_control_ends_enrollment text control_url qad_port attempt attempts e fs :
  Str.trim text <> "" -> e = RequestTimedOut \/ e = ControlBusy ->
  (forall request, ja_respond attempt request = Err (sent_error e)) ->
  exists fs' message,
    join_from_file (Some text) control_url qad_port (attempt :: attempts) fs = (fs', [], Some (Err (JoinFailed message))).
Proof.
  intros Ht He Hr. unfold join_from_file. cbv zeta. rewrite bool_decide_eq_false_2 by done. cbn [join_loop].
  destruct (join_control _ _ _ attempt fs) as [fs1 r] eqn:J. exists fs1.
  destruct r as [profile|[message|message]]; [| |by exists message].
  - destruct (relay_join_inv _ _ _ _ _ _ _ J) as [(? & ? & _)|(p & [_ _ _ Hf] & _)]; [done|].
    destruct Hf as (? & ? & ? & ? & ? & ? & ? & ? & ? & _ & _ & _ & _ & _ & _ & _ & Hresp & _). by rewrite Hr in Hresp.
  - apply join_control_http in J as [request J]. rewrite Hr in J. by destruct He as [-> | ->].
Qed.

(** A Relay that lost its key never polls again: the next start creates another
    identity, which does not match the profile, so that the polling task ends, now
    and on every later start; [run] starts all the same, and the Relay goes on
    admitting by the revocations it had. *)
Theorem lost_key_ends_polling profile generated fs :
  fs !! "relay.key" = None -> id_to_string (public generated) <> pf_endpoint_id profile ->
  exists fs' e, poll_start generated Written profile fs = (fs', Err e) /\
    (forall p, p <> "relay.key" -> fs' !! p = fs !! p) /\
    forall generated' outcome, exists e', poll_start generated' outcome profile fs' = (fs', Err e').
Proof.
  intros Hf Hg.
  assert (Hl : load_or_create_relay_key generated Written fs = (<["relay.key" := key_to_bytes generated]> fs, Ok generated)).
  { unfold load_or_create_relay_key, load_or_create_secret, read_secret. by rewrite Hf. }
  set (fs' := <["relay.key" := key_to_bytes generated]> fs) in *.
  assert (Hstop : forall g o fs0, load_or_create_relay_key g o fs0 = (fs', Ok generated) ->
    exists e, poll_start g o profile fs0 = (fs', Err e)).
  { intros g o fs0 L. unfold poll_start. rewrite (bind_eq_Ok _ _ _ _ _ L), bool_decide_eq_false_2 by done. by eexists. }
  destruct (Hstop _ _ _ Hl) as [e He]. exists fs', e. split; [done|]. split; [intros p Hp; by apply lookup_insert_ne|].
  intros g o. apply Hstop. subst fs'. unfold load_or_create_relay_key, load_or_create_secret. by rewrite (read_secret_written fs "relay.key" generated).
Qed.
End Joining.
