(* ===== verification/RelayLife.v ===== *)
(** * as-relay: the life of the process (src/crates/as-relay/src/main.rs)

    [main] and [run] as a whole: the enrollment on the first start, the start from
    the state directory, and then the server, the polling loop with its pauses and
    the management API side by side until the server ends or the user stops it. *)
From S2P Require Import Prelude Deps RelayApi ControlApi State Database ControlCore ControlHandlers Relay Files Retry RelayNode.
Open Scope string_scope.
Open Scope Z_scope.

Definition DEFAULT_QAD_PORT : Z := 7842.

Section RelayLife.
Context `{Keys, Encodings, !ControlSerde, !Urls, !Certificates, !TlsKeys}.
Context `{!Serde RelayCredential, !Serde SignedRelayCredential, !Serde RevocationUpdate}.
Context `{!SerdePretty ControlProfile, !KeyBytes}.
Implicit Types (fs : Fs string) (profile : ControlProfile) (relay : Relay).

(** ** [run]: the enrollment and the start *)

(** The start of [run]. [file] is [--join-if-needed], where it is given: the
    content of the file it names, or none. *)
Definition enroll_if_needed (options : RunOptions) (file : option (option string)) (control_url : option string)
  (attempts : list JoinAttempt) fs : Fs string * list Z * option (result JoinError unit) :=
  match fs !! "control.json", file with
  | None, Some text =>
      match requested_qad_port (ro_qad_port options) (ro_no_qad options) (ro_qad_bind_port options) with
      | Err e => (fs, [], Some (Err (JoinFailed e)))
      | Ok qad_port =>
          let '(fs, sleeps, r) := join_from_file text control_url qad_port attempts fs in
          (fs, sleeps, (fun r => r;; Ok tt) <$> r)
      end
  | _, _ => (fs, [], Some (Ok tt))
  end.

Definition join_message (e : JoinError) : string := match e with HttpError m | JoinFailed m => m end.

(** [run] up to the start of the server; [None] while it still enrolls *)
Definition run_relay (options : RunOptions) (file : option (option string)) (control_url : option string)
  (attempts : list JoinAttempt) (outcome : WriteOutcome) (io : bool) (now : Z) fs
  : Fs string * option (result string (ControlProfile * Relay * option (list bytes * bytes))) :=
  match enroll_if_needed options file control_url attempts fs with
  | (fs, _, None) => (fs, None)
  | (fs, _, Some (Err e)) => (fs, Some (Err (join_message e)))
  | (fs, _, Some (Ok _)) => let '(fs, r) := run_start options outcome io now fs in (fs, Some r)
  end.

(** [Command::Join] *)
Definition relay_join_command (join_url : string) (control_url : option string) (qad_port : option Z) (no_qad : bool)
  (attempt : JoinAttempt) : handler (Fs string) JoinError ControlProfile :=
  qad_port ← lift (map_err JoinFailed (requested_qad_port qad_port no_qad DEFAULT_QAD_PORT));
  join_control join_url control_url qad_port attempt.

(** ** The management API *)

Definition health : Z := 204.
Definition admin_status relay : RelayStatus := relay_status relay (rl_current relay).

(** ** The process *)

(** What the polling loop meets in one turn *)
Record Turn := { tn_io : bool; tn_now : Z; tn_answer : Answer }.

Inductive LifeEvent :=
| Polled (turn : Turn)
| ServerEnded (r : result string unit)    (* [relay.join()] *)
| CtrlC (shutdown : result string unit).

(** The loop polls while [lf_polling]; [lf_sleeps] are its pauses so far. *)
Record Life := {
  lf_relay : Relay;
  lf_polling : bool;
  lf_backoff : Z;
  lf_sleeps : list Z;
  lf_ended : option (result string unit);
}.

Definition life_start relay (polling : bool) : Life :=
  {| lf_relay := relay; lf_polling := polling; lf_backoff := 1; lf_sleeps := []; lf_ended := None |}.

(** One turn of the loop of [poll_control] *)
Definition poll_turn (control_id : EndpointId) (audience : string) (turn : Turn) (life : Life) : Life :=
  match poll_answer (tn_io turn) (tn_now turn) control_id audience (lf_relay life) (tn_answer turn) with
  | (relay, PollNow) =>
      {| lf_relay := relay; lf_polling := true; lf_backoff := 1; lf_sleeps := lf_sleeps life; lf_ended := None |}
  | (relay, PollLater) =>
      {| lf_relay := relay; lf_polling := true; lf_backoff := next_backoff (lf_backoff life);
         lf_sleeps := (lf_sleeps life ++ [lf_backoff life])%list; lf_ended := None |}
  | (relay, PollStop) =>
      {| lf_relay := relay; lf_polling := false; lf_backoff := lf_backoff life; lf_sleeps := lf_sleeps life;
         lf_ended := None |}
  end.

Definition end_life (r : result string unit) (life : Life) : Life :=
  {| lf_relay := lf_relay life; lf_polling := false; lf_backoff := lf_backoff life; lf_sleeps := lf_sleeps life;
     lf_ended := Some r |}.

(** The [select!] of [run], with the polling task next to it *)
Definition life_step (control_id : EndpointId) (audience : string) (event : LifeEvent) (life : Life) : Life :=
  match lf_ended life, event with
  | Some _, _ => life
  | None, Polled turn => if lf_polling life then poll_turn control_id audience turn life else life
  | None, ServerEnded r => end_life (map_err (fun _ => "relay supervisor") r) life
  | None, CtrlC r => end_life (map_err (fun _ => "stop relay") r) life
  end.

Definition life_run (control_id : EndpointId) (audience : string) (events : list LifeEvent) (life : Life) : Life :=
  fold_left (fun life event => life_step control_id audience event life) events life.
End RelayLife.

Section LifeProperties.
Context `{Keys, Encodings, !ControlSerde, !Urls, !Certificates, !TlsKeys}.
Context `{!Serde RelayCredential, !Serde SignedRelayCredential, !Serde RevocationUpdate, !SerdeLaws RevocationUpdate}.
Context `{!SerdePretty ControlProfile, !SerdePrettyLaws ControlProfile, !KeyBytes}.
Implicit Types (fs : Fs string) (profile : ControlProfile) (relay : Relay) (life : Life).

(** ** Polling *)

(** The answers that end the enrollment *)
Definition ends_enrollment (answer : Answer) : bool :=
  match answer with Status code => (code == 403) || (code == 410) | _ => false end.

Lemma poll_answer_stop io now control_id audience relay answer relay' next :
  poll_answer io now control_id audience relay answer = (relay', next) ->
  (next = PollStop <-> ends_enrollment answer = true) /\ (next = PollStop -> rl_enrollment_revoked relay' = true).
Proof.
  destruct answer as [|signed| |code|]; cbn [poll_answer ends_enrollment].
  - by intros [= <- <-].
  - destruct (mbind _ _); [|by intros [= <- <-]]. destruct (apply_revocation_update _ _ _ _) as [? []]; by intros [= <- <-].
  - by intros [= <- <-].
  - destruct (_ || _)%bool; by intros [= <- <-].
  - by intros [= <- <-].
Qed.

Record life_ok life : Prop := {
  lo_backoff : 1 <= lf_backoff life <= 60;
  lo_sleeps : Forall (fun pause => 1 <= pause <= 60) (lf_sleeps life);
  lo_revoked : lf_polling life = false -> lf_ended life = None -> rl_enrollment_revoked (lf_relay life) = true;
}.

Lemma life_step_ok control_id audience event life : life_ok life -> life_ok (life_step control_id audience event life).
Proof.
  intros [Hb Hs Hr]. unfold life_step. destruct (lf_ended life) eqn:He; [by split; rewrite ?He|].
  destruct event as [turn|r|r]; [|by split..]. destruct (lf_polling life) eqn:Hp; [|by split; auto].
  unfold poll_turn. destruct (poll_answer _ _ _ _ _ _) as [relay next] eqn:Ea.
  destruct (poll_answer_stop _ _ _ _ _ _ _ _ Ea) as [_ Hstop]. destruct next; split; cbn; auto; unfold next_backoff; try lia; try done.
  apply Forall_app. split; [done|]. by apply Forall_singleton.
Qed.

Lemma life_run_ok control_id audience events life : life_ok life -> life_ok (life_run control_id audience events life).
Proof. revert life. induction events as [|event events IH]; intros life Hl; [done|]. cbn. by apply IH, life_step_ok. Qed.

(** While the process runs, a Relay either goes on asking Control, with pauses
    between one second and one minute, or Control told it that its enrollment is
    over, and from then on it admits nobody. *)
Theorem running_relay_polls_or_refuses control_id audience events relay :
  let life := life_run control_id audience events (life_start relay true) in
  Forall (fun pause => 1 <= pause <= 60) (lf_sleeps life) /\
  (lf_ended life = None -> lf_polling life = true \/
     forall endpoint_id token now, on_connect (lf_relay life) endpoint_id token now = Deny "Relay enrollment is revoked").
Proof.
  intros life. assert (Hl : life_ok life) by (apply life_run_ok; by split).
  destruct Hl as [_ Hs Hr]. split; [done|]. intros He. destruct (lf_polling life); [by left|right].
  intros endpoint_id token now. unfold on_connect. by rewrite Hr.
Qed.

(** ** Starting again *)

Lemma load_revocations_again io now audience fs fs' state io' now' :
  load_revocations io now audience fs = (fs', Ok state) -> load_revocations io' now' audience fs' = (fs', Ok state).
Proof.
  unfold load_revocations. intros L. hstep L. hstep L. hstep L. injection L as <- <-.
  rewrite bind_get, lookup_insert_eq. unfold load_or_initialize in *.
  assert (Hd : from_slice l = Some r).
  { destruct (fs !! "revocations.json"); run_ok; [done|]. by rewrite from_slice_to_vec. }
  rewrite Hd. cbn. unfold mbind, handler_bind, lift, modify. f_equal. by rewrite insert_insert_eq.
Qed.

Lemma load_profile_same fs fs' : fs' !! "control.json" = fs !! "control.json" -> load_profile fs' = load_profile fs.
Proof. unfold load_profile. by intros ->. Qed.

Lemma run_profile_again options outcome fs fs' profile :
  run_profile options outcome fs = (fs', Ok profile) ->
  load_profile fs' = Ok profile /\ is_Some (fs' !! "control.json") /\
  (forall p, p <> "control.json" -> fs' !! p = fs !! p) /\
  forall outcome' fs'', load_profile fs'' = Ok profile -> run_profile options outcome' fs'' = (fs'', Ok profile).
Proof.
  intros R. assert (Hsome : forall fs0 p, load_profile fs0 = Ok p -> is_Some (fs0 !! "control.json")).
  { intros fs0 p. unfold load_profile. destruct (fs0 !! "control.json"); [by eexists|done]. }
  unfold run_profile in R. hstep R. do 2 hstep R.
  assert (Hend : forall fs1, load_profile fs1 = Ok profile -> (forall p, p <> "control.json" -> fs1 !! p = fs !! p) ->
    fs' = fs1 -> (forall outcome' fs'', load_profile fs'' = Ok profile -> run_profile options outcome' fs'' = (fs'', Ok profile)) ->
    load_profile fs' = Ok profile /\ is_Some (fs' !! "control.json") /\ (forall p, p <> "control.json" -> fs' !! p = fs !! p) /\
    forall outcome' fs'', load_profile fs'' = Ok profile -> run_profile options outcome' fs'' = (fs'', Ok profile))
    by (intros fs1 Hl Hk -> Ha; eauto).
  destruct (ro_qad_port options) as [port|] eqn:Hport.
  2: { hstep R. apply (Hend fs); [done..|]. intros outcome' fs'' Hl. unfold run_profile. rewrite bind_get, Hl, Hport.
       unfold mbind, handler_bind, lift, require. by rewrite E0. }
  do 2 hstep R. destruct (pf_qad_port a == a0) eqn:Hsame.
  - hstep R. apply (Hend fs); [done..|]. intros outcome' fs'' Hl. unfold run_profile. rewrite bind_get, Hl, Hport.
    unfold mbind, handler_bind, lift, require. rewrite E0. cbn [ensure]. rewrite E1, E2. cbn [ensure]. by rewrite Hsame.
  - cbv zeta in R. unfold write_json, atomic_write in R. destruct outcome; try done. injection R as <- <-.
    assert (Hv : pf_schema_version a = 2) by (unfold load_profile in E; run_ok; done).
    apply (Hend (<["control.json" := (to_vec_pretty (with_qad_port a0 a) ++ [newline_byte])%list]> fs));
      [|intros p Hp; by rewrite lookup_insert_ne|done|].
    + unfold load_profile. rewrite lookup_insert_eq. cbn. rewrite from_slice_pretty_newline. cbn. by rewrite Hv.
    + intros outcome' fs'' Hl. unfold run_profile. rewrite bind_get, Hl, Hport.
      assert (Hno : ro_no_qad options = false).
      { apply orb_true_iff in E0 as [?|E0]; [by apply negb_true_iff|]. breflect. rewrite E0 in E2. by destruct E2. }
      unfold mbind, handler_bind, lift, require. cbn [pf_qad_port with_qad_port]. rewrite Hno. cbn [negb orb ensure]. rewrite E1.
      destruct a0 as [requested|]; [|by unfold requested_qad_port in E1; cbn in E1; destruct (port != 0)].
      rewrite (bool_decide_eq_true_2 (is_Some (Some requested))) by by eexists. cbn [ensure]. by rewrite bool_decide_eq_true_2.
Qed.

(** C39. A Relay starts again as it was: whatever invitation file, Control URL and
    attempts a later [run] is given, and however its clock and disk behave, a
    start with the same options from the directory that a successful start left
    neither enrolls nor changes anything, and brings up the same profile, the
    same revocations and the same QAD certificate. *)
Theorem relay_starts_again_as_it_was options file control_url attempts outcome io now fs fs' started :
  run_relay options file control_url attempts outcome io now fs = (fs', Some (Ok started)) ->
  forall file' control_url' attempts' outcome' io' now',
    run_relay options file' control_url' attempts' outcome' io' now' fs' = (fs', Some (Ok started)).
Proof.
  unfold run_relay. destruct (enroll_if_needed options file control_url attempts fs) as [[fs0 sleeps] [[u|e]|]] eqn:Een; [|done..].
  destruct (run_start options outcome io now fs0) as [fs1 r] eqn:R. intros [= <- ->].
  intros file' control_url' attempts' outcome' io' now'.
  unfold run_start in R. apply bind_inv in R as [(profile & fs2 & P & R)|(? & _ & ?)]; [|done].
  destruct (run_profile_again _ _ _ _ _ P) as (Hl & Hsome & Hk & Hagain).
  hstep R. cbv zeta in R. do 3 hstep R.
  apply bind_inv in R as [(state & fs3 & L & R)|(? & _ & ?)]; [|done]. do 3 hstep R. hstep R.
  assert (Hc : fs3 !! "control.json" = fs2 !! "control.json") by (by eapply load_revocations_keeps).
  assert (Hen : enroll_if_needed options file' control_url' attempts' fs3 = (fs3, [], Some (Ok tt))).
  { unfold enroll_if_needed. rewrite Hc. by destruct Hsome as [data ->]. }
  rewrite Hen. unfold run_start.
  rewrite (bind_eq_Ok _ _ _ _ _ (Hagain outcome' fs3 (eq_trans (load_profile_same _ _ Hc) Hl))). cbv zeta.
  assert (Hm : fs3 !! "enrollment-revoked" = fs2 !! "enrollment-revoked") by (by eapply load_revocations_keeps).
  unfold mbind at 1, handler_bind at 1, lift at 1. rewrite E.
  unfold mbind at 1, handler_bind at 1, require at 1. rewrite E0. cbn [ensure]. rewrite bind_get, Hm.
  unfold mbind at 1, handler_bind at 1, require at 1. rewrite E1. cbn [ensure].
  rewrite (bind_eq_Ok _ _ _ _ _ (load_revocations_again _ _ _ _ _ _ io' now' L)).
  unfold mbind at 1, handler_bind at 1, lift at 1. rewrite E2, bind_get, E3. done.
Qed.
End LifeProperties.
