(* ===== verification/FrameStream.v ===== *)
(** * Reading frames from a stream that is still arriving

    [Transport.v] reads frames from a complete stream. The daemon, the Client's
    MCP proxy and the Edge read them inside [tokio::select!] loops, while the
    bytes arrive in pieces. Here [read_frame] (both versions of
    crates/transport/src/lib.rs) is a future: [Reading] says at which of its
    three awaits it is suspended, with the bytes it has already taken from the
    stream, and [poll_frame] resumes it. A [select!] whose other branch completes
    drops the future, and with it those bytes ([abandon]). *)
From S2P Require Import Prelude Deps Transport.
Open Scope string_scope.
Open Scope Z_scope.

(** The await at which [read_frame] is suspended. *)
Inductive Reading :=
| AtTag
| AtHeader (h0 : Byte.byte) (got : bytes)
| AtPayload (tag : FrameTag) (len : Z) (got : bytes).

Inductive Polled :=
| Pending (reading : Reading)
| Ready (frame : Frame)
| Closed                       (* [Ok(None)] *)
| Broken (error : string).

(** [read_exact], resumed with [got] of the [n] bytes read. *)
Definition poll_exact (n : nat) (got available : bytes) : (bytes * bytes) + bytes :=
  let have := (got ++ available)%list in
  if (n <=? length have)%nat then inl (take n have, drop n have) else inr have.

Definition poll_payload tag len got available (closed : bool) : Polled * bytes :=
  match poll_exact (Z.to_nat len) got available with
  | inl (buf, rest) => (Ready {| tag := tag; payload := buf |}, rest)
  | inr got => (if closed then Broken "read payload" else Pending (AtPayload tag len got), [])
  end.

Definition poll_header limit h0 got available (closed : bool) : Polled * bytes :=
  match poll_exact 4 got available with
  | inl ([h1; h2; h3; h4], rest) =>
      match split_header h0 h1 h2 h3 h4 with
      | Err e => (Broken e, rest)
      | Ok (tag, len) =>
          if len <=? limit then poll_payload tag len [] rest closed
          else (Broken "frame too large for this request", rest)
      end
  | inl (_, rest) => (Broken "read frame header", rest)
  | inr got => (if closed then Broken "read frame header" else Pending (AtHeader h0 got), [])
  end.

(** One poll of [read_frame_with_limit] when [available] has arrived and the
    peer has closed the stream or not. The second component is what is left. *)
Definition poll_frame (limit : Z) (reading : Reading) (available : bytes) (closed : bool) : Polled * bytes :=
  match reading with
  | AtTag =>
      match available with
      | [] => (if closed then Closed else Pending AtTag, [])
      | h0 :: rest => poll_header limit h0 [] rest closed
      end
  | AtHeader h0 got => poll_header limit h0 got available closed
  | AtPayload tag len got => poll_payload tag len got available closed
  end.

(** ** A stream and the future that reads it *)

Record Source := {
  src_buffered : bytes;        (* arrived, not yet taken by the reader *)
  src_closed : bool;           (* the peer has finished the stream *)
  src_reading : Reading;
}.
Implicit Types (src : Source) (limit : Z).

Definition new_source : Source := {| src_buffered := []; src_closed := false; src_reading := AtTag |}.
Definition arrive (chunk : bytes) src : Source := {|
  src_buffered := src_buffered src ++ chunk; src_closed := src_closed src; src_reading := src_reading src |}.
Definition close src : Source := {|
  src_buffered := src_buffered src; src_closed := true; src_reading := src_reading src |}.
(** Dropping the future: what it had taken is gone. *)
Definition abandon src : Source := {|
  src_buffered := src_buffered src; src_closed := src_closed src; src_reading := AtTag |}.
(** Polling it; when it has an answer the loop starts a new one. *)
Definition poll limit src : Polled * Source :=
  let '(polled, rest) := poll_frame limit (src_reading src) (src_buffered src) (src_closed src) in
  (polled, {| src_buffered := rest; src_closed := src_closed src;
              src_reading := match polled with Pending reading => reading | _ => AtTag end |}).

(** ** What a suspended read has taken *)

Definition consumed (reading : Reading) : bytes :=
  match reading with
  | AtTag => []
  | AtHeader h0 got => h0 :: got
  | AtPayload tag len got => byte_of (tag_u8 tag) :: u32_to_le_bytes len ++ got
  end.

Definition reading_ok limit (reading : Reading) : Prop :=
  match reading with
  | AtTag => True
  | AtHeader _ got => (length got < 4)%nat
  | AtPayload _ len got => 0 <= len <= MAX_FRAME /\ len <= limit /\ (length got < Z.to_nat len)%nat
  end.

(** Everything that arrived and has not been delivered *)
Definition undelivered src : bytes := consumed (src_reading src) ++ src_buffered src.

Lemma poll_exact_inl n got available buf rest :
  poll_exact n got available = inl (buf, rest) -> (got ++ available)%list = (buf ++ rest)%list /\ length buf = n.
Proof.
  unfold poll_exact. destruct (n <=? _)%nat eqn:E; [|done]. apply Nat.leb_le in E. intros [= <- <-].
  split; [by rewrite take_drop|]. rewrite length_take. lia.
Qed.

Lemma poll_exact_inr n got available have :
  poll_exact n got available = inr have -> have = (got ++ available)%list /\ (length have < n)%nat.
Proof.
  unfold poll_exact. destruct (n <=? _)%nat eqn:E; [done|]. apply Nat.leb_gt in E. by intros [= <-].
Qed.

(** What a suspended read has taken is not a whole frame. *)
Lemma incomplete limit reading :
  reading_ok limit reading -> reading <> AtTag -> exists e, read_frame_with_limit limit (consumed reading) = Err e.
Proof.
  intros Hok Hne. destruct (read_frame_with_limit limit (consumed reading)) as [[[f rest]|]|e] eqn:E; [| |eauto].
  2: by apply read_frame_None in E; destruct reading.
  exfalso. destruct reading as [|h0 got|tag len got]; [done|..]; cbn [reading_ok consumed] in Hok, E.
  - cbn [read_frame_with_limit] in E. apply bind_Ok in E as ([hdr s] & [-> Hh]%read_exact_Ok & _).
    rewrite length_app in Hok. lia.
  - destruct Hok as (Hlen & Hlim & Hgot). destruct (u32_le_roundtrip len) as (a & b & c & d & Eb & Ev).
    { unfold MAX_FRAME, u32_max in *. lia. }
    rewrite Eb in E. cbn [read_frame_with_limit app] in E.
    change (a :: b :: c :: d :: got)%list with ([a; b; c; d] ++ got)%list in E.
    apply bind_Ok in E as ([hdr s] & E4 & E). rewrite (read_exact_app [a; b; c; d]) in E4. injection E4 as <- <-.
    unfold split_header in E. rewrite tag_roundtrip, Ev in E. cbn [mbind result_bind] in E.
    rewrite (proj2 (Z.leb_le _ _) (proj2 Hlen)) in E. cbn [ensure mbind result_bind] in E.
    rewrite (proj2 (Z.leb_le _ _) Hlim) in E. cbn [ensure mbind result_bind] in E.
    apply bind_Ok in E as ([buf s'] & [-> Hb]%read_exact_Ok & _). rewrite length_app in Hgot. lia.
Qed.

(** A read in progress, complete or not, agrees with [read_frame] on all the
    bytes it was given. *)
Lemma poll_payload_spec limit tag len got available closed polled rest :
  0 <= len <= MAX_FRAME -> len <= limit ->
  poll_payload tag len got available closed = (polled, rest) ->
  match polled with
  | Ready f => exists bs, write_frame (Transport.tag f) (payload f) = Ok bs /\
      Z.of_nat (length (payload f)) <= limit /\
      (consumed (AtPayload tag len got) ++ available)%list = (bs ++ rest)%list
  | Pending reading => rest = [] /\ closed = false /\ reading_ok limit reading /\
      consumed reading = (consumed (AtPayload tag len got) ++ available)%list
  | Closed => False
  | Broken _ => closed = true /\ exists e, read_frame_with_limit limit (consumed (AtPayload tag len got) ++ available) = Err e
  end.
Proof.
  intros Hlen Hlim. unfold poll_payload.
  destruct (poll_exact (Z.to_nat len) got available) as [[buf rest']|have] eqn:E.
  - apply poll_exact_inl in E as [E Hb]. intros [= <- <-]. cbn [Transport.tag payload].
    exists (byte_of (tag_u8 tag) :: u32_to_le_bytes len ++ buf)%list. unfold write_frame, header.
    replace (Z.of_nat (length buf)) with len by lia. split_and!; [|done|].
    + unfold MAX_FRAME in *. prove_ok; unfold MAX_FRAME, u32_max; lia || done.
    + cbn [consumed app]. by rewrite <- !app_assoc, E.
  - apply poll_exact_inr in E as [-> Hl].
    assert (Ec : (consumed (AtPayload tag len got) ++ available)%list = consumed (AtPayload tag len (got ++ available)))
      by (cbn [consumed app]; by rewrite <- app_assoc).
    destruct closed; intros [= <- <-]; rewrite Ec; [|by split_and!]. split; [done|]. by apply incomplete.
Qed.

Lemma split_header_Ok h0 h1 h2 h3 h4 tag len :
  split_header h0 h1 h2 h3 h4 = Ok (tag, len) ->
  0 <= len <= MAX_FRAME /\ h0 = byte_of (tag_u8 tag) /\ u32_to_le_bytes len = [h1; h2; h3; h4].
Proof.
  unfold split_header. intros Hs. apply bind_Ok in Hs as (t & Ht%tag_try_from_Ok & Hs). run_ok.
  destruct (u32_le_inverse h1 h2 h3 h4) as [Eb Hr]. split_and!; [lia|lia| |done].
  by rewrite <- Ht, byte_of_val.
Qed.

(** What a reader that is polled has delivered, taken or refused. *)
Definition poll_spec limit (before : bytes) (closed : bool) (polled : Polled) (rest : bytes) : Prop :=
  match polled with
  | Ready f => exists bs, write_frame (tag f) (payload f) = Ok bs /\
      Z.of_nat (length (payload f)) <= limit /\ before = (bs ++ rest)%list
  | Pending reading => rest = [] /\ closed = false /\ reading_ok limit reading /\ consumed reading = before
  | Closed => closed = true /\ before = []
  | Broken _ => (exists e, read_frame_with_limit limit before = Err e) /\
      (closed = true \/ forall more, exists e, read_frame_with_limit limit (before ++ more) = Err e)
  end.

Lemma poll_header_spec limit h0 got available closed polled rest :
  (length got < 4)%nat -> poll_header limit h0 got available closed = (polled, rest) ->
  poll_spec limit (h0 :: got ++ available) closed polled rest.
Proof.
  intros Hgot. unfold poll_header. destruct (poll_exact 4 got available) as [[hdr rest']|have] eqn:E.
  - apply poll_exact_inl in E as [-> Hh].
    destruct hdr as [|h1 [|h2 [|h3 [|h4 [|? ?]]]]]; try discriminate Hh.
    assert (Hread : forall more, read_frame_with_limit limit ((h0 :: [h1; h2; h3; h4] ++ rest') ++ more) =
      '(tag, n) ← split_header h0 h1 h2 h3 h4;
      ensure (n <=? limit) "frame too large for this request";;
      '(buf, stream) ← read_exact (Z.to_nat n) (rest' ++ more);
      Ok (Some ({| tag := tag; payload := buf |}, stream))) by done.
    assert (Hbad : forall error s, (forall more, exists e, read_frame_with_limit limit (s ++ more) = Err e) ->
      poll_spec limit s closed (Broken error) rest').
    { intros error s Hall. split; [|by right]. destruct (Hall []) as [e He]. exists e. by rewrite app_nil_r in He. }
    destruct (split_header h0 h1 h2 h3 h4) as [[t len]|e] eqn:Es.
    + destruct (len <=? limit) eqn:El.
      * intros Hp. apply split_header_Ok in Es as (Hlen & -> & Eb).
        apply (poll_payload_spec limit) in Hp; [|lia..]. unfold poll_spec.
        cbn [consumed app] in Hp. rewrite app_nil_r, Eb in Hp. cbn [app] in Hp |- *.
        destruct polled; try done. destruct Hp. split; [done|by left].
      * intros [= <- <-]. apply Hbad. intros more. rewrite Hread. cbn [mbind result_bind]. rewrite El. by eexists.
    + intros [= <- <-]. apply Hbad. intros more. rewrite Hread. by eexists.
  - apply poll_exact_inr in E as [-> Hl]. destruct closed; intros [= <- <-]; [|done].
    split; [|by left]. by apply (incomplete limit (AtHeader h0 (got ++ available))).
Qed.

Lemma poll_frame_spec limit reading available closed polled rest :
  reading_ok limit reading -> poll_frame limit reading available closed = (polled, rest) ->
  poll_spec limit (consumed reading ++ available) closed polled rest.
Proof.
  destruct reading as [|h0 got|tag len got]; cbn [poll_frame reading_ok].
  - intros _. destruct available as [|h0 available]; [by destruct closed; intros [= <- <-]|].
    intros Hp. apply (poll_header_spec limit h0 [] available closed); [cbn; lia|done].
  - intros Hg Hp. apply (poll_header_spec limit h0 got available closed); done.
  - intros (Hl & Hm & Hg) Hp. apply (poll_payload_spec limit) in Hp; [|done..].
    destruct polled; try done. destruct Hp. split; [done|by left].
Qed.

(** ** Streams that a writer produces *)

(** [sent] is the beginning of what writing frames within [limit] produces. *)
Definition writable limit (sent : bytes) : Prop :=
  exists frames all, write_frames frames = Ok all /\ sent `prefix_of` all /\
    Forall (fun f => Z.of_nat (length (payload f)) <= limit) frames.

Lemma write_frames_app fs gs a b :
  write_frames fs = Ok a -> write_frames gs = Ok b -> write_frames (fs ++ gs) = Ok (a ++ b)%list.
Proof.
  revert a. induction fs as [|f fs IH]; intros a Hf Hg; cbn in *; [by injection Hf as <-|].
  apply bind_Ok in Hf as (x & Hx & Hf). apply bind_Ok in Hf as (y & Hy & [= <-]).
  rewrite Hx. cbn. rewrite (IH y Hy Hg). cbn. by rewrite app_assoc.
Qed.

(** A delivered frame is the next one that was written. *)
Lemma next_frame limit f bs rest frames all :
  write_frame (tag f) (payload f) = Ok bs -> Z.of_nat (length (payload f)) <= limit ->
  write_frames frames = Ok all -> (bs ++ rest)%list `prefix_of` all ->
  exists more all', frames = f :: more /\ write_frames more = Ok all' /\ rest `prefix_of` all'.
Proof.
  intros Hf Hl Hw [k ->]. destruct frames as [|g more]; cbn in Hw.
  { injection Hw as Hw. symmetry in Hw. apply app_nil in Hw as [[Hb _]%app_nil _].
    by apply write_frame_cons in Hf. }
  apply bind_Ok in Hw as (bg & Hg & Hw). apply bind_Ok in Hw as (all' & Hm & [= E]).
  pose proof (read_write MAX_FRAME f bs (rest ++ k) Hf (write_frame_length _ _ _ Hf)) as R1.
  pose proof (read_write MAX_FRAME g bg all' Hg (write_frame_length _ _ _ Hg)) as R2.
  rewrite app_assoc, <- E, R2 in R1. injection R1 as <- ->. exists more, (rest ++ k)%list.
  split_and!; [done|done|by eexists].
Qed.

(** A stream that a writer produces never breaks the reader before it is cut. *)
Lemma writable_reads limit sent :
  writable limit sent -> sent <> [] ->
  exists more r, read_frame_with_limit limit (sent ++ more) = Ok (Some r).
Proof.
  intros (frames & all & Hw & [k ->] & Hl) Hne. destruct frames as [|f frames]; cbn in Hw.
  { injection Hw as Hw. symmetry in Hw. by apply app_nil in Hw as [? _]. }
  apply bind_Ok in Hw as (bs & Hf & Hw). apply bind_Ok in Hw as (all' & Hm & [= E]).
  exists k, (f, all'). rewrite <- E. apply read_write; [done|]. by apply Forall_cons in Hl as [? _].
Qed.

(** ** The reader of a source *)

Lemma poll_source limit src polled src' :
  reading_ok limit (src_reading src) -> poll limit src = (polled, src') ->
  src_closed src' = src_closed src /\ reading_ok limit (src_reading src') /\
  poll_spec limit (undelivered src) (src_closed src) polled (src_buffered src') /\
  src_reading src' = match polled with Pending reading => reading | _ => AtTag end.
Proof.
  intros Hok. unfold poll.
  destruct (poll_frame limit (src_reading src) (src_buffered src) (src_closed src)) as [p rest] eqn:E.
  intros [= <- <-]. apply poll_frame_spec in E; [|done]. cbn. split_and!; [done| |done|done].
  destruct p; [by destruct E as (_ & _ & ? & _)|done..].
Qed.

(** A poll delivers the first of the undelivered frames, or changes nothing. *)
Lemma poll_Ready limit src f src' :
  reading_ok limit (src_reading src) -> poll limit src = (Ready f, src') ->
  reading_ok limit (src_reading src') /\ exists bs, write_frame (tag f) (payload f) = Ok bs /\
    Z.of_nat (length (payload f)) <= limit /\ undelivered src = (bs ++ undelivered src')%list.
Proof.
  intros Hok Hp. apply poll_source in Hp as (_ & Hok' & (bs & Hw & Hl & E) & Er); [|done].
  split; [done|]. exists bs. unfold undelivered at 2. by rewrite Er.
Qed.

Lemma poll_Pending limit src reading src' :
  reading_ok limit (src_reading src) -> poll limit src = (Pending reading, src') ->
  reading_ok limit (src_reading src') /\ undelivered src' = undelivered src /\ src_closed src = false.
Proof.
  intros Hok Hp. apply poll_source in Hp as (_ & Hok' & (Eb & Hc & _ & Ec) & Er); [|done].
  split; [done|]. unfold undelivered at 1. by rewrite Er, Eb, app_nil_r, Ec.
Qed.

(** A whole frame that has arrived is delivered at the next poll. *)
Lemma poll_progress limit src f bs rest :
  reading_ok limit (src_reading src) -> write_frame (tag f) (payload f) = Ok bs ->
  Z.of_nat (length (payload f)) <= limit -> undelivered src = (bs ++ rest)%list ->
  exists src', poll limit src = (Ready f, src') /\ undelivered src' = rest.
Proof.
  intros Hok Hw Hl E. destruct (poll limit src) as [polled src'] eqn:Hp.
  pose proof (read_write limit f bs rest Hw Hl) as Hr. rewrite <- E in Hr.
  pose proof (poll_source limit src polled src' Hok Hp) as (_ & _ & Hs & Er).
  destruct polled as [reading|g| |e]; cbn in Hs.
  - destruct Hs as (_ & _ & Hrk & Ec). rewrite <- Ec in Hr. destruct reading as [|h0 got|t n got]; [done|..];
      apply incomplete in Hrk as [e He]; done || congruence.
  - destruct Hs as (bg & Hg & Hlg & Eg). rewrite Eg, (read_write limit g bg _ Hg Hlg) in Hr.
    injection Hr as -> <-. exists src'. split; [done|]. unfold undelivered. by rewrite Er.
  - destruct Hs as [_ Hs]. by rewrite Hs in Hr.
  - destruct Hs as [[e' He] _]. congruence.
Qed.

(** A reader whose future is never dropped is not broken by a stream that a
    writer produces. *)
Lemma poll_writable limit src e src' :
  reading_ok limit (src_reading src) -> src_closed src = false -> writable limit (undelivered src) ->
  poll limit src <> (Broken e, src').
Proof.
  intros Hok Hc Hw Hp. apply poll_source in Hp as (_ & _ & [[e0 He0] [?|Hall]] & _); [congruence| |done].
  destruct (writable_reads limit (undelivered src) Hw) as (more & r & Hr).
  - intros E. by rewrite E in He0.
  - destruct (Hall more) as [e' He']. congruence.
Qed.

(** ** Writing frames to a stream that can fail *)

(** A write succeeds, or fails after some bytes went out. *)
Inductive WriteEnd := All | Partial (n : nat).

Definition wire (written : WriteEnd) (bs : bytes) : bytes :=
  match written with All => bs | Partial n => take n bs end.

Lemma wire_prefix written bs : wire written bs `prefix_of` bs.
Proof. destruct written; cbn; [done|]. eexists. symmetry. apply take_drop. Qed.

(** ** The bytes in the frames with a tag *)

Definition output (t : FrameTag) (frames : list Frame) : bytes :=
  concat (payload <$> filter (fun f => tag f = t) frames).

(** Decides comparisons of known tags. *)
Ltac compare_tags :=
  repeat match goal with
  | |- context [bool_decide (?a = ?b :> FrameTag)] => is_constructor a; is_constructor b;
      let v := eval vm_compute in (bool_decide (a = b)) in change (bool_decide (a = b)) with v
  end.

Lemma output_app t fs gs : output t (fs ++ gs) = (output t fs ++ output t gs)%list.
Proof. unfold output. by rewrite filter_app, fmap_app, concat_app. Qed.

Lemma output_cons t f fs :
  output t (f :: fs) = ((if tag f == t then payload f else []) ++ output t fs)%list.
Proof.
  unfold output. case_bool_decide as E.
  - by rewrite filter_cons_True.
  - by rewrite filter_cons_False.
Qed.

Lemma write_frames_snoc fs f a b :
  write_frames fs = Ok a -> write_frame (tag f) (payload f) = Ok b -> write_frames (fs ++ [f]) = Ok (a ++ b)%list.
Proof. intros Ha Hb. apply write_frames_app; [done|]. cbn. rewrite Hb. cbn. by rewrite app_nil_r. Qed.

(** The frames of the beginning of a stream are the first frames of it. *)
Lemma write_frames_prefix fs gs a b :
  write_frames fs = Ok a -> write_frames gs = Ok b -> a `prefix_of` b -> fs `prefix_of` gs.
Proof.
  revert gs a b. induction fs as [|f fs IH]; intros gs a b Ha Hb Hp; [apply prefix_nil|]. cbn in Ha.
  apply bind_Ok in Ha as (x & Hx & Ha). apply bind_Ok in Ha as (y & Hy & [= <-]).
  destruct (next_frame MAX_FRAME f x y gs b) as (more & b' & -> & Hm & Hp'); [done|by eapply write_frame_length|done..|].
  apply prefix_cons. by eapply IH.
Qed.

Lemma output_one t t' p : output t [{| tag := t'; payload := p |}] = if t' == t then p else [].
Proof. rewrite output_cons. unfold output. cbn. by rewrite app_nil_r. Qed.

Lemma output_prefix t fs gs : fs `prefix_of` gs -> output t fs `prefix_of` output t gs.
Proof. intros [k ->]. rewrite output_app. by eexists. Qed.

(** ** A reader that loses nothing *)

Definition mid_frame src : bool := match src_reading src with AtTag => false | _ => true end.

(** Of the bytes [arrived], the reader has delivered [frames] and the rest is
    still to come. *)
Definition reads (arrived : bytes) src (frames : list Frame) : Prop :=
  reading_ok MAX_FRAME (src_reading src) /\
  exists done, write_frames frames = Ok done /\ arrived = (done ++ undelivered src)%list.

Lemma reads_new : reads [] new_source [].
Proof. split; [done|]. by exists []. Qed.

Lemma reads_arrive arrived src frames chunk :
  reads arrived src frames -> reads (arrived ++ chunk) (arrive chunk src) frames.
Proof.
  intros [Hok (d & Hd & ->)]. split; [done|]. exists d. split; [done|].
  unfold undelivered. cbn. by rewrite <- !app_assoc.
Qed.

Lemma reads_close arrived src frames : reads arrived src frames -> reads arrived (close src) frames.
Proof. done. Qed.

Lemma reads_abandon arrived src frames :
  mid_frame src = false -> reads arrived src frames -> reads arrived (abandon src) frames.
Proof.
  unfold mid_frame, reads, undelivered. cbn. destruct (src_reading src); [|done..]. intros _ [_ ?]. by split.
Qed.

Lemma reads_Ready arrived src frames f src' :
  reads arrived src frames -> poll MAX_FRAME src = (Ready f, src') -> reads arrived src' (frames ++ [f]).
Proof.
  intros [Hok (d & Hd & ->)] Hp. apply poll_Ready in Hp as (Hok' & bs & Hw & _ & E); [|done].
  split; [done|]. exists (d ++ bs)%list. split; [by apply write_frames_snoc|]. by rewrite E, app_assoc.
Qed.

Lemma reads_Pending arrived src frames r src' :
  reads arrived src frames -> poll MAX_FRAME src = (Pending r, src') -> reads arrived src' frames.
Proof.
  intros [Hok (d & Hd & ->)] Hp. apply poll_Pending in Hp as (Hok' & E & _); [|done].
  split; [done|]. exists d. by rewrite E.
Qed.

(** What has been delivered is a beginning of what the peer wrote. *)
Lemma reads_prefix arrived src frames sent all :
  reads arrived src frames -> write_frames sent = Ok all -> arrived `prefix_of` all -> frames `prefix_of` sent.
Proof.
  intros [_ (d & Hd & ->)] Hs Hp. eapply write_frames_prefix; [done..|]. etrans; [by eexists|done].
Qed.

(** ** One direction of a loop

    While the loop is [running] it has written exactly [frames], and delivered
    exactly [frames] of what arrived; afterwards at most that. *)

Definition sending (sent : bytes) (running : Prop) (frames : list Frame) : Prop :=
  exists all, write_frames frames = Ok all /\ sent `prefix_of` all /\ (running -> sent = all).

Definition receiving (arrived : bytes) src (running : Prop) (frames : list Frame) : Prop :=
  (exists got, write_frames frames = Ok got /\ got `prefix_of` arrived) /\ (running -> reads arrived src frames).

Lemma sending_start running : sending [] running [].
Proof. by exists []. Qed.

Lemma receiving_start running : receiving [] new_source running [].
Proof. split; [by exists []|]. intros _. apply reads_new. Qed.

Lemma sending_mono sent (running running' : Prop) frames :
  sending sent running frames -> (running' -> running) -> sending sent running' frames.
Proof. intros (all & Hw & Hp & Hr) Himp. exists all. split_and!; auto. Qed.

Lemma sending_snoc sent (running running' : Prop) frames f bs written :
  sending sent running frames -> running -> write_frame (tag f) (payload f) = Ok bs ->
  (running' -> written = All) -> sending (sent ++ wire written bs) running' (frames ++ [f]).
Proof.
  intros (all & Hw & _ & Hr) Hrun Hf Hall. rewrite (Hr Hrun). exists (all ++ bs)%list. split_and!.
  - by apply write_frames_snoc.
  - apply prefix_app, wire_prefix.
  - intros Hr'. by rewrite (Hall Hr').
Qed.

Lemma reads_receiving arrived src (running : Prop) frames : reads arrived src frames -> receiving arrived src running frames.
Proof. intros Hr. split; [|done]. destruct Hr as [_ (d & Hd & ->)]. exists d. split; [done|by eexists]. Qed.

Lemma receiving_mono arrived src src' (running running' : Prop) frames more :
  receiving arrived src running frames ->
  (running' -> running /\ (reads arrived src frames -> reads (arrived ++ more) src' frames)) ->
  receiving (arrived ++ more) src' running' frames.
Proof.
  intros [(d & Hd & Hp) Hr] Himp. split; [exists d; split; [done|by apply prefix_app_r]|].
  intros Hr'. destruct (Himp Hr') as [H1 H2]. auto.
Qed.

Lemma receiving_same arrived src src' (running running' : Prop) frames :
  receiving arrived src running frames ->
  (running' -> running /\ (reads arrived src frames -> reads arrived src' frames)) ->
  receiving arrived src' running' frames.
Proof. intros [Hd Hr] Himp. split; [done|]. intros Hr'. destruct (Himp Hr') as [H1 H2]. auto. Qed.

(** What one side has received is a beginning of what the other has sent. *)
Lemma receiving_prefix arrived src running frames sent running' ws :
  receiving arrived src running frames -> sending sent running' ws -> arrived `prefix_of` sent -> frames `prefix_of` ws.
Proof.
  intros [(d & Hd & Hp) _] (all & Hw & Hs & _) Ha. eapply write_frames_prefix; [done..|].
  etrans; [done|]. by etrans.
Qed.

(** A reader that has seen a frame's header waits for its payload. *)
Lemma poll_waits t p bs :
  write_frame t p = Ok bs -> p <> [] ->
  exists hdr, bs = (hdr ++ p)%list /\
    poll MAX_FRAME (arrive hdr new_source) =
      (Pending (AtPayload t (Z.of_nat (length p)) []),
       {| src_buffered := []; src_closed := false; src_reading := AtPayload t (Z.of_nat (length p)) [] |}).
Proof.
  intros Hw Hp. pose proof (write_frame_length _ _ _ Hw) as Hl. unfold write_frame, header in Hw. run_ok.
  destruct (u32_le_roundtrip (Z.of_nat (length p))) as (a & b & c & d & Eb & Ev); [lia|].
  eexists. split; [done|]. rewrite Eb. unfold poll, arrive. cbn [new_source src_buffered src_closed src_reading app].
  cbn [poll_frame poll_header]. unfold poll_header.
  change (poll_exact 4 [] [a; b; c; d]) with (inl (B := bytes) ([a; b; c; d], @nil Byte.byte)). cbv beta iota.
  unfold split_header. rewrite tag_roundtrip, Ev. cbn [mbind result_bind].
  rewrite (proj2 (Z.leb_le _ _) Hl). cbn [ensure mbind result_bind]. cbv beta iota.
  unfold poll_payload, poll_exact. rewrite Nat2Z.id. cbn [app length].
  destruct p as [|x p]; [done|]. rewrite (proj2 (Z.leb_le _ _) Hl). by cbn [length Nat.leb].
Qed.
