(* ===== verification/Protocol.v ===== *)
(** * protocol: the schema Clients and Edges share (src/crates/protocol/src/lib.rs)

    The requests a Client sends to an Edge in a START frame, the answers, and the
    MCP definitions an Edge keeps. *)
From S2P Require Import Prelude Deps Transport.
Open Scope string_scope.
Open Scope Z_scope.

Inductive McpTransport :=
| Stdio (command : string) (args : list string) (cwd : option string)
| Http (url : string)
| Sse (url : string).
#[global] Instance McpTransport_eq : EqDecision McpTransport.
Proof. solve_decision. Defined.

Record McpCatalog := {
  mcp_revision : Z;
  mcp_servers : gmap string McpTransport;
}.

Record RemoteError := { re_code : string; re_message : string }.
#[global] Instance RemoteError_eq : EqDecision RemoteError.
Proof. solve_decision. Defined.

(** [RemoteError::internal] *)
Definition remote_internal (message : string) : RemoteError :=
  {| re_code := "internal"; re_message := message |}.

Inductive RpcResult (T : Type) :=
| RpcOk (value : T)
| RpcError (error : RemoteError).
Arguments RpcOk {T} value.
Arguments RpcError {T} error.

Inductive TransferResult :=
| DownloadReady (hash : string)
| Stored (bytes : Z).

Record ExecParams := {
  ex_command : string;
  ex_args : list string;
  ex_cwd : option string;
}.

Record ProxyConnectResult := { bound_addr : string }.

Inductive EdgeReq :=
| Exec (params : ExecParams)
| PrepareDownload (path : string)
| ReceiveUpload (hash client_id client_relay path : string)
| McpList
| McpUpsert (name : string) (transport : McpTransport)
| McpRemove (name : string)
| McpConnect (name : string)
| ProxyTcpConnect (target : ProxyTarget) (connect_timeout_secs : Z)
| ProxyUdpAssociate (resolve_timeout_secs : Z).

(** A fallible result as the envelope of a RESULT frame. *)
Definition rpc_of {T} (r : result string T) : RpcResult T :=
  match r with
  | Ok value => RpcOk value
  | Err e => RpcError (remote_internal e)
  end.
