(* ===== verification/Exec.v ===== *)
(** * Running a command on an Edge, end to end

    The Edge runs the child and sends its output (crates/as-edge/src/runtime.rs,
    [run_exec], and exec.rs), the Client's daemon passes the frames on
    (crates/agent-scale/src/daemon.rs, [relay_exec]) and the command line shows
    them (crates/agent-scale/src/client.rs, [exec]). The [select!] loops of the
    Edge and of the daemon take one step per branch that completes. The Client's
    own standard output and standard error accept what is written to them. *)
From S2P Require Import Prelude Deps Transport FrameStream Protocol.
Open Scope string_scope.
Open Scope Z_scope.

(** ** Exit codes: [i32::to_le_bytes] and [i32::from_le_bytes] *)

Definition i32_to_le_bytes (x : Z) : bytes := u32_to_le_bytes (x mod 2 ^ 32).
Definition i32_from_le_bytes (a b c d : Byte.byte) : Z :=
  let u := u32_from_le_bytes a b c d in if u <? 2 ^ 31 then u else u - 2 ^ 32.

(** ** The command *)

Definition BUILTIN_COMMANDS : list string := ["fd"; "rg"].
Definition BUILTIN_ENV : string := "AS_EDGE_BUILTIN".

Inductive Program := CurrentExe | Named (command : string).
Record Command := {
  cmd_program : Program;
  cmd_args : list string;
  cmd_env : list (string * string);
  cmd_cwd : option string;
}.

Definition build_command (params : ExecParams) : Command :=
  if bool_decide (ex_command params ∈ BUILTIN_COMMANDS)
  then {| cmd_program := CurrentExe; cmd_args := []; cmd_env := [(BUILTIN_ENV, ex_command params)]; cmd_cwd := None |}
  else {| cmd_program := Named (ex_command params); cmd_args := []; cmd_env := []; cmd_cwd := None |}.

(** [build_command], [cmd.args] and [cmd.current_dir] as in [run_exec] *)
Definition exec_command (params : ExecParams) : Command :=
  let cmd := build_command params in
  {| cmd_program := cmd_program cmd; cmd_args := ex_args params; cmd_env := cmd_env cmd; cmd_cwd := ex_cwd params |}.

(** ** The Edge *)

Inductive ExecPhase :=
| Streaming
| Exiting                 (* both pipes are at their end *)
| Exited                  (* EXIT is sent *)
| Cancelled               (* [Ok(true)] *)
| ExecFailed (error : string).
Inductive Child := Alive | Reaped | Killed.

Record ExecRun := {
  xr_sent : bytes;              (* on the stream to the daemon *)
  xr_stdout_done : bool;
  xr_stderr_done : bool;
  xr_phase : ExecPhase;
  xr_child : Child;
  xr_stdout : bytes;            (* read from the child and put into frames *)
  xr_stderr : bytes;
  xr_status : option Z;         (* the exit code that [child.wait] gave *)
}.
Implicit Types (run : ExecRun).

Inductive ExecEvent :=
| StdoutRead (read : result string bytes) (written : WriteEnd)
| StderrRead (read : result string bytes) (written : WriteEnd)
| PeerActive                                   (* the daemon sends something or closes *)
| ChildExits (status : result string (option Z)) (written : WriteEnd).

(** [terminate_child] and a result of the loop *)
Definition cancelled (phase : ExecPhase) run : ExecRun := {|
  xr_sent := xr_sent run; xr_stdout_done := xr_stdout_done run; xr_stderr_done := xr_stderr_done run;
  xr_phase := phase; xr_child := Killed; xr_stdout := xr_stdout run; xr_stderr := xr_stderr run;
  xr_status := xr_status run |}.

(** The [else] branch, when no other is enabled *)
Definition settle run : ExecRun := {|
  xr_sent := xr_sent run; xr_stdout_done := xr_stdout_done run; xr_stderr_done := xr_stderr_done run;
  xr_phase := if (xr_stdout_done run && xr_stderr_done run)%bool then Exiting else Streaming;
  xr_child := xr_child run; xr_stdout := xr_stdout run; xr_stderr := xr_stderr run; xr_status := xr_status run |}.

Definition stdout_step (read : result string bytes) (written : WriteEnd) run : ExecRun :=
  match read with
  | Err e => cancelled (ExecFailed "read child stdout") run
  | Ok [] => settle {|
      xr_sent := xr_sent run; xr_stdout_done := true; xr_stderr_done := xr_stderr_done run; xr_phase := Streaming;
      xr_child := xr_child run; xr_stdout := xr_stdout run; xr_stderr := xr_stderr run; xr_status := xr_status run |}
  | Ok data =>
      match write_frame Stdout data with
      | Err _ => cancelled Cancelled run
      | Ok bs =>
          let next := {|
            xr_sent := xr_sent run ++ wire written bs; xr_stdout_done := xr_stdout_done run;
            xr_stderr_done := xr_stderr_done run; xr_phase := Streaming; xr_child := xr_child run;
            xr_stdout := xr_stdout run ++ data; xr_stderr := xr_stderr run; xr_status := xr_status run |} in
          match written with All => next | Partial _ => cancelled Cancelled next end
      end
  end.

Definition stderr_step (read : result string bytes) (written : WriteEnd) run : ExecRun :=
  match read with
  | Err e => cancelled (ExecFailed "read child stderr") run
  | Ok [] => settle {|
      xr_sent := xr_sent run; xr_stdout_done := xr_stdout_done run; xr_stderr_done := true; xr_phase := Streaming;
      xr_child := xr_child run; xr_stdout := xr_stdout run; xr_stderr := xr_stderr run; xr_status := xr_status run |}
  | Ok data =>
      match write_frame Stderr data with
      | Err _ => cancelled Cancelled run
      | Ok bs =>
          let next := {|
            xr_sent := xr_sent run ++ wire written bs; xr_stdout_done := xr_stdout_done run;
            xr_stderr_done := xr_stderr_done run; xr_phase := Streaming; xr_child := xr_child run;
            xr_stdout := xr_stdout run; xr_stderr := xr_stderr run ++ data; xr_status := xr_status run |} in
          match written with All => next | Partial _ => cancelled Cancelled next end
      end
  end.

(** [child.wait], [status.code().unwrap_or(-1)] and the EXIT frame. An error
    drops the child, which kills it ([kill_on_drop]). *)
Definition exit_step (status : result string (option Z)) (written : WriteEnd) run : ExecRun :=
  match status with
  | Err e => cancelled (ExecFailed "wait child") run
  | Ok code =>
      let code := default (-1) code in
      match write_frame Exit (i32_to_le_bytes code) with
      | Err e => cancelled (ExecFailed e) run
      | Ok bs => {|
          xr_sent := xr_sent run ++ wire written bs; xr_stdout_done := xr_stdout_done run;
          xr_stderr_done := xr_stderr_done run;
          xr_phase := match written with All => Exited | Partial _ => ExecFailed "write payload" end;
          xr_child := Reaped; xr_stdout := xr_stdout run; xr_stderr := xr_stderr run; xr_status := Some code |}
      end
  end.

Definition exec_step (event : ExecEvent) run : ExecRun :=
  match xr_phase run, event with
  | Streaming, StdoutRead read written => if xr_stdout_done run then run else stdout_step read written run
  | Streaming, StderrRead read written => if xr_stderr_done run then run else stderr_step read written run
  | Streaming, PeerActive => cancelled Cancelled run
  | Exiting, ChildExits status written => exit_step status written run
  | _, _ => run
  end.

Definition exec_start : ExecRun := {|
  xr_sent := []; xr_stdout_done := false; xr_stderr_done := false; xr_phase := Streaming; xr_child := Alive;
  xr_stdout := []; xr_stderr := []; xr_status := None |}.

Definition exec_run (events : list ExecEvent) run : ExecRun :=
  fold_left (fun run event => exec_step event run) events run.

(** The stream when the command cannot be spawned: the message and exit code -1 *)
Definition spawn_failure (command error : string) : bytes :=
  let message := as_bytes ("failed to spawn `" ++ command ++ "`: " ++ error) in
  (match write_frame Stderr message with Ok bs => bs | Err _ => [] end ++
   match write_frame Exit (i32_to_le_bytes (-1)) with Ok bs => bs | Err _ => [] end)%list.

(** ** The daemon *)

Inductive RelayPhase := Relaying | RelayDone | RelayFailed (error : string).

Record ExecRelay := {
  rl_edge : Source;
  rl_written : bytes;           (* on the local stream to the Client *)
  rl_phase : RelayPhase;
}.
Implicit Types (relay : ExecRelay).

Inductive RelayEvent :=
| EdgeSends (chunk : bytes)
| EdgeCloses
| Wake (written : WriteEnd)      (* the read of a frame is polled *)
| ClientSends                   (* [cr.read] gives a byte *)
| ClientGone.

Definition with_edge (edge : Source) relay : ExecRelay :=
  {| rl_edge := edge; rl_written := rl_written relay; rl_phase := rl_phase relay |}.

Definition relay_wake (written : WriteEnd) relay : ExecRelay :=
  let '(polled, edge) := poll MAX_FRAME (rl_edge relay) in
  match polled with
  | Pending _ => with_edge edge relay
  | Ready f =>
      match write_frame (tag f) (payload f) with
      | Err e => {| rl_edge := edge; rl_written := rl_written relay; rl_phase := RelayFailed e |}
      | Ok bs => {|
          rl_edge := edge; rl_written := rl_written relay ++ wire written bs;
          rl_phase := match written with
                      | All => if tag f == Exit then RelayDone else Relaying
                      | Partial _ => RelayFailed "write"
                      end |}
      end
  | Closed => {| rl_edge := edge; rl_written := rl_written relay; rl_phase := RelayDone |}
  | Broken e => {| rl_edge := edge; rl_written := rl_written relay; rl_phase := RelayFailed e |}
  end.

Definition relay_step (event : RelayEvent) relay : ExecRelay :=
  match rl_phase relay, event with
  | Relaying, EdgeSends chunk => with_edge (arrive chunk (rl_edge relay)) relay
  | Relaying, EdgeCloses => with_edge (close (rl_edge relay)) relay
  | Relaying, Wake written => relay_wake written relay
  | Relaying, ClientSends => with_edge (abandon (rl_edge relay)) relay
  | Relaying, ClientGone => {| rl_edge := rl_edge relay; rl_written := rl_written relay; rl_phase := RelayDone |}
  | _, _ => relay
  end.

Definition relay_run (events : list RelayEvent) relay : ExecRelay :=
  fold_left (fun relay event => relay_step event relay) events relay.

(** [relay_exec]: the dial and the START frame, then the loop. When they fail
    the Client is told so and gets exit code 1. *)
Definition relay_exec (edge_name : string) (setup : result string unit) : ExecRelay :=
  match setup with
  | Ok _ => {| rl_edge := new_source; rl_written := []; rl_phase := Relaying |}
  | Err e =>
      let message := as_bytes ("agent-scale: edge '" ++ edge_name ++ "' unreachable: " ++ e ++ String "010" "") in
      {| rl_edge := new_source;
         rl_written := (match write_frame Stderr message with Ok bs => bs | Err _ => [] end ++
                        match write_frame Exit (i32_to_le_bytes 1) with Ok bs => bs | Err _ => [] end)%list;
         rl_phase := RelayDone |}
  end.

(** ** The command line *)

(** What it wrote to its standard output and standard error, and its result *)
Record Shown := { sh_stdout : bytes; sh_stderr : bytes; sh_code : result string Z }.

Definition NO_STATUS : string := "edge closed the request without an exit status (authorization may have changed)".

Definition exit_code (p : bytes) : result string Z :=
  match p with
  | [a; b; c; d] => Ok (i32_from_le_bytes a b c d)
  | _ => Err "malformed EXIT frame: expected four bytes"
  end.

(** The loop of [exec] over what the daemon sends until it closes the stream *)
Fixpoint exec_loop (fuel : nat) (stream : bytes) (stdout stderr : bytes) : Shown :=
  let stop code := {| sh_stdout := stdout; sh_stderr := stderr; sh_code := code |} in
  match fuel with
  | O => stop (Err "out of fuel")
  | S fuel =>
      match read_frame stream with
      | Err e => stop (Err e)
      | Ok None => stop (Err NO_STATUS)
      | Ok (Some (f, rest)) =>
          match tag f with
          | Stdout => exec_loop fuel rest (stdout ++ payload f) stderr
          | Stderr => exec_loop fuel rest stdout (stderr ++ payload f)
          | Exit => stop (exit_code (payload f))
          | _ => stop (Err "unexpected exec frame tag")
          end
      end
  end.

(** One step per frame, and every frame has a header. *)
Definition exec (stream : bytes) : Shown := exec_loop (S (length stream)) stream [] [].

(** ** Frames of a run *)

Definition plain (f : Frame) : Prop := tag f = Stdout \/ tag f = Stderr.

(** ** Exit codes *)

Lemma exit_code_roundtrip code : - 2 ^ 31 <= code < 2 ^ 31 -> exit_code (i32_to_le_bytes code) = Ok code.
Proof.
  intros Hc. unfold exit_code, i32_to_le_bytes.
  destruct (u32_le_roundtrip (code mod 2 ^ 32)) as (a & b & c & d & -> & Ev).
  { unfold u32_max. pose proof (Z.mod_pos_bound code (2 ^ 32)). lia. }
  unfold i32_from_le_bytes. rewrite Ev. f_equal.
  destruct (decide (0 <= code)) as [Hp|Hn].
  - rewrite Z.mod_small by lia. by rewrite (proj2 (Z.ltb_lt _ _)) by lia.
  - replace (code mod 2 ^ 32) with (code + 2 ^ 32).
    + rewrite (proj2 (Z.ltb_ge _ _)); lia.
    + symmetry. rewrite <- (Z.mod_add code 1) by lia. rewrite Z.mul_1_l. apply Z.mod_small. lia.
Qed.

Lemma exit_frame code : exists bs, write_frame Exit (i32_to_le_bytes code) = Ok bs.
Proof. unfold write_frame, header, i32_to_le_bytes, u32_to_le_bytes. cbn. by eexists. Qed.

(** ** The command line's loop *)

Lemma exec_loop_Ok fuel stream out err code :
  sh_code (exec_loop fuel stream out err) = Ok code ->
  exists fs p bs, write_frames (fs ++ [{| tag := Exit; payload := p |}]) = Ok bs /\ bs `prefix_of` stream /\
    Forall plain fs /\ exit_code p = Ok code /\
    sh_stdout (exec_loop fuel stream out err) = (out ++ output Stdout fs)%list /\
    sh_stderr (exec_loop fuel stream out err) = (err ++ output Stderr fs)%list.
Proof.
  revert stream out err. induction fuel as [|fuel IH]; intros stream out err; [done|]. cbn [exec_loop].
  destruct (read_frame stream) as [[[f rest]|]|e] eqn:Er; [|done..].
  apply read_inverse in Er as (bs & Hw & -> & _). destruct f as [t p]. cbn [tag payload] in *.
  destruct t; try done.
  - intros Hc. destruct (IH _ _ _ Hc) as (fs & q & b & Hb & Hp & Hpl & Hq & Ho & He).
    exists ({| tag := Stdout; payload := p |} :: fs), q, (bs ++ b)%list. split_and!; [|by apply prefix_app| | | |].
    + cbn. rewrite Hw. cbn. by rewrite Hb.
    + apply Forall_cons. split; [by left|done].
    + done.
    + by rewrite Ho, output_cons, app_assoc.
    + by rewrite He, output_cons.
  - intros Hc. destruct (IH _ _ _ Hc) as (fs & q & b & Hb & Hp & Hpl & Hq & Ho & He).
    exists ({| tag := Stderr; payload := p |} :: fs), q, (bs ++ b)%list. split_and!; [|by apply prefix_app| | | |].
    + cbn. rewrite Hw. cbn. by rewrite Hb.
    + apply Forall_cons. split; [by right|done].
    + done.
    + by rewrite Ho, output_cons.
    + by rewrite He, output_cons, app_assoc.
  - cbn [sh_code]. intros Hc. exists [], p, bs. split_and!; [|by eexists|done|done|..].
    + cbn. rewrite Hw. cbn. by rewrite app_nil_r.
    + unfold output. cbn. by rewrite app_nil_r.
    + unfold output. cbn. by rewrite app_nil_r.
Qed.

Lemma exec_loop_complete fs p bs rest fuel out err :
  write_frames (fs ++ [{| tag := Exit; payload := p |}]) = Ok bs -> Forall plain fs -> (length fs < fuel)%nat ->
  exec_loop fuel (bs ++ rest) out err =
    {| sh_stdout := out ++ output Stdout fs; sh_stderr := err ++ output Stderr fs; sh_code := exit_code p |}.
Proof.
  revert bs fuel out err. induction fs as [|f fs IH]; intros bs [|fuel] out err Hw Hpl Hf; cbn in Hf; try lia.
  - cbn in Hw. apply bind_Ok in Hw as (b & Hb & [= <-]). cbn [exec_loop]. unfold read_frame.
    rewrite app_nil_r, (read_write MAX_FRAME {| tag := Exit; payload := p |} b rest Hb); [|by eapply write_frame_length].
    cbn. by rewrite !app_nil_r.
  - cbn in Hw. apply bind_Ok in Hw as (b & Hb & Hw). apply bind_Ok in Hw as (c & Hc & [= <-]).
    apply Forall_cons in Hpl as [Hf1 Hpl]. cbn [exec_loop]. unfold read_frame.
    rewrite <- app_assoc, (read_write MAX_FRAME f b (c ++ rest) Hb); [|by eapply write_frame_length].
    rewrite !output_cons. destruct f as [t q]. unfold plain in Hf1. cbn [tag payload] in *.
    destruct Hf1 as [-> | ->]; cbn [tag payload]; (rewrite (IH c); [|done|done|lia]); compare_tags; cbn [app]; by rewrite ?app_assoc.
Qed.

Lemma write_frames_length fs bs : write_frames fs = Ok bs -> (length fs <= length bs)%nat.
Proof.
  revert bs. induction fs as [|f fs IH]; intros bs Hw; cbn in *; [lia|].
  apply bind_Ok in Hw as (b & Hb & Hw). apply bind_Ok in Hw as (c & Hc & [= <-]).
  apply write_frame_cons in Hb. apply IH in Hc. rewrite length_app. destruct b; [done|]. cbn. lia.
Qed.

(** What the command line shows is a beginning of what was sent to it. *)
Lemma exec_loop_prefix fuel stream out err fs all :
  write_frames fs = Ok all -> stream `prefix_of` all ->
  sh_stdout (exec_loop fuel stream out err) `prefix_of` (out ++ output Stdout fs)%list /\
  sh_stderr (exec_loop fuel stream out err) `prefix_of` (err ++ output Stderr fs)%list.
Proof.
  revert stream out err fs all. induction fuel as [|fuel IH]; intros stream out err fs all Hw Hp.
  { split; by eexists. }
  cbn [exec_loop]. destruct (read_frame stream) as [[[f rest]|]|e] eqn:Er; [|split; by eexists..].
  apply read_inverse in Er as (bs & Hf & -> & Hl).
  destruct (next_frame _ _ _ _ _ _ Hf Hl Hw Hp) as (more & all' & -> & Hm & Hp'). rewrite !output_cons.
  destruct f as [t q]. cbn [tag payload]. destruct t; try (split; by eexists); cbn.
  - destruct (IH rest (out ++ q)%list err more all' Hm Hp') as [H1 H2]. by rewrite <- app_assoc in H1.
  - destruct (IH rest out (err ++ q)%list more all' Hm Hp') as [H1 H2]. by rewrite <- app_assoc in H2.
Qed.

(** ** The Edge's stream *)

(** Everything on the stream is output of the child, then its exit code. *)
Record exec_ok run (frames : list Frame) (all : bytes) : Prop := {
  eo_plain : Forall plain frames;
  eo_frames : write_frames frames = Ok all;
  eo_stdout : output Stdout frames = xr_stdout run;
  eo_stderr : output Stderr frames = xr_stderr run;
  eo_sent : match xr_status run with
            | None => xr_sent run `prefix_of` all
            | Some code => exists bs, write_frame Exit (i32_to_le_bytes code) = Ok bs /\
                xr_sent run `prefix_of` (all ++ bs)%list /\ (xr_phase run = Exited -> xr_sent run = (all ++ bs)%list)
            end;
  eo_phase : match xr_phase run with
             | Streaming | Exiting => xr_sent run = all /\ xr_status run = None /\ xr_child run = Alive
             | Exited => xr_status run <> None
             | Cancelled | ExecFailed _ => xr_child run <> Alive
             end;
  eo_reaped : xr_status run <> None -> xr_child run = Reaped;
}.

Lemma cancelled_ok phase run frames all :
  exec_ok run frames all -> xr_status run = None ->
  match phase with Cancelled | ExecFailed _ => True | _ => False end -> exec_ok (cancelled phase run) frames all.
Proof. intros [Hp Hf Ho He Hs Hph Hre] Hn Hc. rewrite Hn in Hs. split; cbn; rewrite ?Hn; try done; by destruct phase. Qed.

(** The end of a pipe. *)
Lemma settle_ok run next frames all :
  exec_ok run frames all -> xr_phase run = Streaming -> xr_sent next = xr_sent run ->
  xr_status next = xr_status run -> xr_child next = xr_child run -> xr_stdout next = xr_stdout run ->
  xr_stderr next = xr_stderr run -> exec_ok (settle next) frames all.
Proof.
  intros [Hp Hf Ho He Hs Hph _] Hst Es Et Ec Eo Ee. rewrite Hst in Hph. destruct Hph as (Hsent & Hn & Ha).
  split; try done; cbn; try congruence; [rewrite Et, Hn in *; congruence|].
  destruct (_ && _)%bool; split_and!; congruence.
Qed.

(** A chunk of output, with a frame [f] for it. *)
Lemma chunk_ok f bs written run next frames all :
  exec_ok run frames all -> xr_phase run = Streaming -> plain f -> write_frame (tag f) (payload f) = Ok bs ->
  xr_sent next = (xr_sent run ++ wire written bs)%list -> xr_status next = xr_status run ->
  xr_phase next = Streaming -> xr_child next = xr_child run ->
  xr_stdout next = (xr_stdout run ++ output Stdout [f])%list ->
  xr_stderr next = (xr_stderr run ++ output Stderr [f])%list ->
  exists frames all, exec_ok (match written with All => next | Partial _ => cancelled Cancelled next end) frames all.
Proof.
  intros [Hp Hf Ho He Hs Hph _] Hst Hpl Hw Es Et Eph Ec Eo Ee. rewrite Hst in Hph.
  destruct Hph as (Hsent & Hn & Ha). exists (frames ++ [f])%list, (all ++ bs)%list.
  assert (Hnext : Forall plain (frames ++ [f]) /\ write_frames (frames ++ [f]) = Ok (all ++ bs)%list /\
    output Stdout (frames ++ [f]) = xr_stdout next /\ output Stderr (frames ++ [f]) = xr_stderr next).
  { split_and!; [apply Forall_app; split; [done|by apply Forall_singleton]|by apply write_frames_snoc|..];
      rewrite output_app; congruence. }
  destruct Hnext as (H1 & H2 & H3 & H4).
  destruct written as [|n]; split; try done; cbn; rewrite ?Eph, ?Et, ?Hn, ?Es, ?Hsent; try done.
  - split_and!; [done..|congruence].
  - apply prefix_app. eexists. symmetry. apply take_drop.
Qed.

Lemma exec_step_ok event run frames all :
  exec_ok run frames all -> exists frames all, exec_ok (exec_step event run) frames all.
Proof.
  intros Hok. assert (Hnone : xr_phase run = Streaming \/ xr_phase run = Exiting -> xr_status run = None).
  { intros Hph. pose proof (eo_phase _ _ _ Hok) as He. destruct Hph as [E|E]; rewrite E in He; apply He. }
  unfold exec_step. destruct (xr_phase run) eqn:Hst; try by eauto.
  - specialize (Hnone (or_introl eq_refl)). destruct event as [read written|read written| |status written]; [| | |by eauto].
    + destruct (xr_stdout_done run); [by eauto|]. unfold stdout_step. destruct read as [data|e].
      2: by exists frames, all; apply cancelled_ok.
      destruct data as [|d data].
      { exists frames, all. by apply (settle_ok run). }
      destruct (write_frame Stdout (d :: data)) as [bs|e] eqn:Hw; [|by exists frames, all; apply cancelled_ok].
      apply (chunk_ok {| tag := Stdout; payload := d :: data |} bs written run _ frames all); try done; [by left|..];
        rewrite output_cons; cbn [tag payload]; compare_tags; cbn; by rewrite ?app_nil_r.
    + destruct (xr_stderr_done run); [by eauto|]. unfold stderr_step. destruct read as [data|e].
      2: by exists frames, all; apply cancelled_ok.
      destruct data as [|d data].
      { exists frames, all. by apply (settle_ok run). }
      destruct (write_frame Stderr (d :: data)) as [bs|e] eqn:Hw; [|by exists frames, all; apply cancelled_ok].
      apply (chunk_ok {| tag := Stderr; payload := d :: data |} bs written run _ frames all); try done; [by right|..];
        rewrite output_cons; cbn [tag payload]; compare_tags; cbn; by rewrite ?app_nil_r.
    + by exists frames, all; apply cancelled_ok.
  - specialize (Hnone (or_intror eq_refl)). destruct event as [| | |status written]; try by eauto. unfold exit_step.
    destruct status as [code|e]; [|by exists frames, all; apply cancelled_ok].
    destruct (exit_frame (default (-1) code)) as [bs Hbs]. rewrite Hbs. exists frames, all.
    destruct Hok as [Hp Hf Ho He Hs Hph _]. rewrite Hst in Hph. destruct Hph as (Hsent & Hn & Ha).
    split; try done; cbn.
    + exists bs. rewrite Hsent. split_and!; [done| |by destruct written].
      apply prefix_app. destruct written as [|n]; [done|]. eexists. symmetry. apply take_drop.
    + by destruct written.
Qed.

Lemma exec_run_ok events : exists frames all, exec_ok (exec_run events exec_start) frames all.
Proof.
  assert (H0 : exec_ok exec_start [] []) by (split; by cbn). revert H0.
  generalize exec_start (@nil Frame) (@nil Byte.byte). unfold exec_run.
  induction events as [|event events IH]; intros run frames all Hok; [by eauto|]. cbn.
  apply (exec_step_ok event) in Hok as (frames' & all' & Hok'). by eapply IH.
Qed.

(** The exit status is asked for when both pipes have been read to their end. *)
Definition drained run : Prop :=
  xr_phase run = Exiting \/ xr_status run <> None -> xr_stdout_done run = true /\ xr_stderr_done run = true.

Lemma settle_drained run : (xr_status run <> None -> xr_stdout_done run = true /\ xr_stderr_done run = true) -> drained (settle run).
Proof.
  intros Hd. unfold drained. cbn. destruct (xr_stdout_done run), (xr_stderr_done run); cbn; intros [?|?]; by auto.
Qed.

Lemma exec_step_drained event run : drained run -> drained (exec_step event run).
Proof.
  intros Hd. assert (Hs : xr_status run <> None -> xr_stdout_done run = true /\ xr_stderr_done run = true)
    by (intros; apply Hd; by right).
  unfold exec_step. destruct (xr_phase run) eqn:Hp; [| |done..].
  - destruct event as [read written|read written| |status written]; [..|by intros [?|?]; auto|done].
    + destruct (xr_stdout_done run) eqn:Eo; [done|]. unfold stdout_step.
      destruct read as [[|d data]|e]; [|destruct (write_frame _ _); [destruct written|]|];
        [apply settle_drained; cbn; intros Hn; by apply Hs in Hn as [? ?]|intros [?|?]; cbn in *; rewrite ?Eo; by auto..].
    + destruct (xr_stderr_done run) eqn:Ee; [done|]. unfold stderr_step.
      destruct read as [[|d data]|e]; [|destruct (write_frame _ _); [destruct written|]|];
        [apply settle_drained; cbn; intros Hn; by apply Hs in Hn as [? ?]|intros [?|?]; cbn in *; rewrite ?Ee; by auto..].
  - assert (Hd' : xr_stdout_done run = true /\ xr_stderr_done run = true) by (apply Hd; by left).
    destruct event as [| | |status written]; try done. unfold exit_step.
    destruct status as [code|e]; [destruct (write_frame _ _)|]; intros _; exact Hd'.
Qed.

Lemma exec_run_drained events : drained (exec_run events exec_start).
Proof.
  unfold exec_run. assert (H0 : drained exec_start) by by intros [?|?]. revert H0. generalize exec_start.
  induction events as [|event events IH]; intros run Hd; [done|]. cbn. by apply IH, exec_step_drained.
Qed.

(** The exit codes that the run has seen are codes of the platform. *)
Definition i32 (code : Z) : Prop := - 2 ^ 31 <= code < 2 ^ 31.
Definition codes_ok (events : list ExecEvent) : Prop :=
  forall code written, ChildExits (Ok (Some code)) written ∈ events -> i32 code.

Lemma exec_status_i32 events code :
  codes_ok events -> xr_status (exec_run events exec_start) = Some code -> i32 code.
Proof.
  unfold exec_run, codes_ok. intros Hc. assert (Hs : forall c, xr_status exec_start = Some c -> i32 c) by done.
  revert Hc Hs. generalize exec_start. induction events as [|event events IH]; intros run Hc Hs; [by apply Hs|]. cbn.
  apply IH; [intros c w Hin; apply (Hc c w); by right|]. intros c. unfold exec_step.
  destruct (xr_phase run), event as [r w|r w| |s w]; try (by apply Hs).
  - destruct (xr_stdout_done run); [by apply Hs|]. unfold stdout_step. destruct r as [[|]|]; try by apply Hs.
    destruct (write_frame _ _); [|by apply Hs]. destruct w; by apply Hs.
  - destruct (xr_stderr_done run); [by apply Hs|]. unfold stderr_step. destruct r as [[|]|]; try by apply Hs.
    destruct (write_frame _ _); [|by apply Hs]. destruct w; by apply Hs.
  - unfold exit_step. destruct s as [o|]; [|by apply Hs]. destruct (write_frame _ _); [|by apply Hs].
    cbn. intros [= <-]. destruct o as [o|]; cbn; [|by split]. apply (Hc o w). by left.
Qed.

(** ** The daemon's relay *)

Definition received (events : list RelayEvent) : bytes :=
  concat (omap (fun event => match event with EdgeSends chunk => Some chunk | _ => None end) events).

Lemma received_snoc events event :
  received (events ++ [event]) =
    (received events ++ match event with EdgeSends chunk => chunk | _ => [] end)%list.
Proof. unfold received. rewrite omap_app, concat_app. by destruct event; cbn; rewrite ?app_nil_r. Qed.

(** What the daemon writes to the Client is what it read from the Edge. *)
Definition relay_ok (arrived : bytes) relay : Prop :=
  rl_written relay `prefix_of` arrived /\
  (rl_phase relay = Relaying ->
     arrived = (rl_written relay ++ undelivered (rl_edge relay))%list /\ reading_ok MAX_FRAME (src_reading (rl_edge relay))).

Lemma relay_wake_ok written arrived relay :
  relay_ok arrived relay -> rl_phase relay = Relaying -> relay_ok arrived (relay_wake written relay).
Proof.
  intros [Hpre Hrel] Hph. destruct (Hrel Hph) as [E Hok]. unfold relay_wake.
  destruct (poll MAX_FRAME (rl_edge relay)) as [polled edge] eqn:Hp. destruct polled as [r|f| |e].
  - apply poll_Pending in Hp as (Hok' & Eu & _); [|done]. split; [done|]. intros _. split; [|done]. cbn. by rewrite Eu.
  - apply poll_Ready in Hp as (Hok' & bs & Hw & _ & Eu); [|done]. rewrite Hw. rewrite Eu in E. split; cbn.
    + rewrite E. apply prefix_app. destruct written; cbn; [by eexists|].
      etrans; [eexists; symmetry; apply take_drop|by eexists].
    + destruct written; [|done]. intros _. split; [by rewrite <- app_assoc|done].
  - by split.
  - by split.
Qed.

Lemma relay_run_ok events name :
  ClientSends ∉ events -> relay_ok (received events) (relay_run events (relay_exec name (Ok tt))).
Proof.
  induction events as [|event events IH] using rev_ind; intros Hnot; [by split|].
  apply not_elem_of_app in Hnot as [Hnot Hev%not_elem_of_cons]. specialize (IH Hnot). rewrite received_snoc.
  unfold relay_run. rewrite fold_left_app. fold (relay_run events (relay_exec name (Ok tt))). cbn.
  set (relay := relay_run _ _) in *. destruct IH as [Hpre Hrel]. unfold relay_step.
  destruct (rl_phase relay) eqn:Hph.
  - specialize (Hrel eq_refl). destruct Hrel as [E Hok]. destruct event as [chunk| |written| |]; rewrite ?app_nil_r.
    + split; cbn; [by apply prefix_app_r|]. intros _. split; [|done].
      rewrite E. unfold undelivered. cbn. by rewrite <- !app_assoc.
    + by split.
    + by apply relay_wake_ok.
    + by destruct Hev.
    + by split.
  - split; [by apply prefix_app_r|]. by rewrite Hph.
  - split; [by apply prefix_app_r|]. by rewrite Hph.
Qed.

Notation exit_with p := {| tag := Exit; payload := p |}.

Lemma no_exit fs p gs : (fs ++ [exit_with p])%list `prefix_of` gs -> ~ Forall plain gs.
Proof.
  intros [k ->] Hpl. apply Forall_app in Hpl as [[_ Hx]%Forall_app _]. apply Forall_singleton in Hx as [?|?]; done.
Qed.

(** The EXIT frame is the last one. *)
Lemma exit_is_last fs p gs q :
  Forall plain fs -> Forall plain gs -> (fs ++ [exit_with p])%list `prefix_of` (gs ++ [exit_with q])%list ->
  fs = gs /\ p = q.
Proof.
  intros Hf Hg. revert gs Hg. induction fs as [|f fs IH]; intros [|g gs] Hg Hp.
  - by apply prefix_cons_inv_1 in Hp as [= ->].
  - apply prefix_cons_inv_1 in Hp as <-. by apply Forall_cons in Hg as [[?|?] _].
  - apply prefix_cons_inv_1 in Hp as ->. by apply Forall_cons in Hf as [[?|?] _].
  - pose proof (prefix_cons_inv_1 _ _ _ _ Hp) as <-. apply prefix_cons_inv_2 in Hp.
    apply Forall_cons in Hf as [_ Hf]. apply Forall_cons in Hg as [_ Hg].
    destruct (IH Hf gs Hg Hp) as [-> ->]. done.
Qed.

(** The stream of the Edge as a sequence of frames *)
Lemma exec_stream run frames all :
  exec_ok run frames all -> exists gs all', write_frames gs = Ok all' /\ xr_sent run `prefix_of` all' /\
    output Stdout gs = xr_stdout run /\ output Stderr gs = xr_stderr run /\
    (xr_status run = None /\ gs = frames \/
     exists code, xr_status run = Some code /\ gs = (frames ++ [exit_with (i32_to_le_bytes code)])%list).
Proof.
  intros [Hpl Hfr Ho He Hs Hph _]. destruct (xr_status run) as [code|] eqn:Es; [|by exists frames, all; auto 10].
  destruct Hs as (bs & Hb & Hs & _). exists (frames ++ [exit_with (i32_to_le_bytes code)])%list, (all ++ bs)%list.
  rewrite !output_app, !output_cons. cbn [tag]. compare_tags. cbn. rewrite !app_nil_r.
  split_and!; [by apply write_frames_snoc|done..|]. right. by exists code.
Qed.


(** ** Everything arrives *)

(** The daemon is undisturbed: the Edge's bytes arrive and the loop runs. *)
Definition undisturbed (event : RelayEvent) : bool :=
  match event with EdgeSends _ | Wake All => true | _ => false end.

(** The relay of a stream that ends with EXIT, while [arrived] of it is there *)
Definition relay_toward (p : bytes) (sent arrived : bytes) relay : Prop :=
  rl_phase relay = RelayDone /\ rl_written relay = sent \/
  rl_phase relay = Relaying /\ src_closed (rl_edge relay) = false /\
  reading_ok MAX_FRAME (src_reading (rl_edge relay)) /\
  arrived = (rl_written relay ++ undelivered (rl_edge relay))%list /\
  exists rest all, write_frames (rest ++ [exit_with p]) = Ok all /\ Forall plain rest /\
    sent = (rl_written relay ++ all)%list.

Section Toward.
Variables (p sent : bytes).

(** A delivered frame moves one frame on. *)
Lemma relay_wake_Ready relay f edge arrived :
  rl_phase relay = Relaying -> relay_toward p sent arrived relay -> arrived `prefix_of` sent ->
  poll MAX_FRAME (rl_edge relay) = (Ready f, edge) -> relay_toward p sent arrived (relay_wake All relay).
Proof.
  intros Hph Ht [k ->] Hp. destruct Ht as [[? _]|(_ & Hcl & Hok & E & rest & all & Hw & Hpl & Es)]; [congruence|].
  unfold relay_wake. rewrite Hp. pose proof (poll_source _ _ _ _ Hok Hp) as (Hcl' & _).
  apply poll_Ready in Hp as (Hok' & bs & Hb & Hl & Eu); [|done]. rewrite Hb.
  rewrite E, <- app_assoc in Es. apply app_inv_head in Es.
  destruct (next_frame MAX_FRAME f bs (undelivered edge) (rest ++ [exit_with p])%list all)
    as (more & all' & Hr & Hm & _); [done..| |].
  { rewrite <- Es, Eu. by eexists. }
  assert (Ea : all = (bs ++ all')%list).
  { rewrite Hr in Hw. cbn in Hw. rewrite Hb in Hw. cbn in Hw. rewrite Hm in Hw. by injection Hw as <-. }
  destruct rest as [|g rest]; cbn in Hr; injection Hr as <- <-.
  - left. cbn. split; [done|]. cbn in Hm. injection Hm as <-. rewrite app_nil_r in Ea. subst bs.
    rewrite E, <- app_assoc. by rewrite Es.
  - apply Forall_cons in Hpl as [Hg Hpl]. right. cbn. split_and!; [|by rewrite Hcl'|done| |].
    + destruct Hg as [-> | ->]; by compare_tags.
    + rewrite E, Eu. by rewrite app_assoc.
    + exists rest, all'. split_and!; [done..|]. rewrite E, <- !app_assoc, Es, Ea. done.
Qed.

Lemma relay_step_toward event relay arrived :
  relay_toward p sent arrived relay -> undisturbed event = true ->
  (arrived ++ match event with EdgeSends chunk => chunk | _ => [] end)%list `prefix_of` sent ->
  relay_toward p sent (arrived ++ match event with EdgeSends chunk => chunk | _ => [] end) (relay_step event relay).
Proof.
  intros Ht Hu Hpre. unfold relay_step. destruct (rl_phase relay) eqn:Hph.
  2: { destruct Ht as [[_ ?]|(? & _)]; [by left|congruence]. }
  2: { destruct Ht as [[? _]|(? & _)]; congruence. }
  destruct event as [chunk| |[|]| |]; try done; rewrite ?app_nil_r in *.
  - destruct Ht as [[? _]|(_ & Hcl & Hok & E & Hrest)]; [congruence|]. right.
    split_and!; [done..| |done]. rewrite E. unfold undelivered. cbn. by rewrite <- !app_assoc.
  - destruct (poll MAX_FRAME (rl_edge relay)) as [polled edge] eqn:Hp. destruct polled as [r|f| |e].
    + destruct Ht as [[? _]|(_ & Hcl & Hok & E & Hrest)]; [congruence|].
      pose proof (poll_source _ _ _ _ Hok Hp) as (Hcl' & _). unfold relay_wake. rewrite Hp.
      apply poll_Pending in Hp as (Hok' & Eu & _); [|done]. right. cbn. rewrite Eu, Hcl'. done.
    + by eapply relay_wake_Ready.
    + destruct Ht as [[? _]|(_ & Hcl & Hok & _)]; [congruence|].
      apply poll_source in Hp as (_ & _ & [? _] & _); [congruence|done].
    + destruct Ht as [[? _]|(_ & Hcl & Hok & E & rest & all & Hw & Hpl & Es)]; [congruence|]. exfalso.
      eapply poll_writable; [done|done| |done]. exists (rest ++ [exit_with p])%list, all. split_and!; [done| |].
      * destruct Hpre as [k ->]. rewrite E, <- app_assoc in Es. apply app_inv_head in Es. rewrite <- Es. by eexists.
      * clear - Hw. revert all Hw. generalize (rest ++ [exit_with p])%list. intros fs.
        induction fs as [|g fs IH]; intros all Hw; [done|]. cbn in Hw.
        apply bind_Ok in Hw as (b & Hb & Hw). apply bind_Ok in Hw as (c & Hc & _).
        apply Forall_cons. split; [by eapply write_frame_length|by eapply IH].
Qed.

(** Once all has arrived, one wake per frame is enough. *)
Lemma relay_drain n relay :
  relay_toward p sent sent relay ->
  (rl_phase relay = Relaying -> (length (undelivered (rl_edge relay)) < n)%nat) ->
  rl_written (relay_run (replicate n (Wake All)) relay) = sent.
Proof.
  revert relay. induction n as [|n IH]; intros relay Ht Hn.
  { destruct Ht as [[_ Hs]|(Hph & _)]; [done|]. specialize (Hn Hph). lia. }
  assert (Ht' : relay_toward p sent sent (relay_step (Wake All) relay)).
  { pose proof (relay_step_toward (Wake All) relay sent Ht eq_refl) as Hs. rewrite app_nil_r in Hs. by apply Hs. }
  cbn. apply IH; [done|]. destruct Ht as [[Hd _]|(Hph & Hcl & Hok & E & rest & all & Hw & Hpl & Es)].
  { unfold relay_step. rewrite Hd. congruence. }
  rewrite E in Es. apply app_inv_head in Es. destruct (rest ++ [exit_with p])%list as [|f more] eqn:Ef.
  { by apply app_nil in Ef as [_ ?]. }
  cbn in Hw. apply bind_Ok in Hw as (b & Hb & Hw). apply bind_Ok in Hw as (c & Hc & [= <-]).
  destruct (poll_progress MAX_FRAME _ f b c Hok Hb) as (edge & Hp & Eu); [by eapply write_frame_length|done|].
  intros _. unfold relay_step. rewrite Hph. unfold relay_wake. rewrite Hp, Hb. cbn. specialize (Hn Hph).
  rewrite Eu. rewrite Es, length_app in Hn. apply write_frame_cons in Hb. destruct b; [done|]. cbn in Hn. lia.
Qed.
End Toward.

(** C8. A command that ends normally is reported completely: when the child has
    closed both pipes and exited and nobody interferes, then, whatever the pieces
    in which the Edge's bytes reach the daemon and whenever its loop runs in
    between, the loop copies the whole stream once all bytes are there, and the
    command line shows all output and returns the child's exit code. *)
Theorem exec_delivers_everything edge_events relay_events name code n :
  let run := exec_run edge_events exec_start in
  let relay := relay_run (relay_events ++ replicate n (Wake All)) (relay_exec name (Ok tt)) in
  codes_ok edge_events -> xr_phase run = Exited -> xr_status run = Some code ->
  Forall (fun event => undisturbed event = true) relay_events ->
  received relay_events = xr_sent run -> (length (xr_sent run) < n)%nat ->
  exec (rl_written relay) =
    {| sh_stdout := xr_stdout run; sh_stderr := xr_stderr run; sh_code := Ok code |}.
Proof.
  intros run relay Hcodes Hph Hst Hun Harr Hn.
  destruct (exec_run_ok edge_events) as (frames & all & Hok). fold run in Hok.
  destruct Hok as [Hpl Hfr Ho He Hs _ _]. rewrite Hst in Hs. destruct Hs as (bs & Hb & _ & Hx).
  specialize (Hx Hph). set (p := i32_to_le_bytes code) in *.
  assert (Hsent : write_frames (frames ++ [exit_with p]) = Ok (xr_sent run)) by (rewrite Hx; by apply write_frames_snoc).
  assert (Hw : rl_written relay = xr_sent run).
  { unfold relay, relay_run. rewrite fold_left_app. fold (relay_run relay_events (relay_exec name (Ok tt))).
    assert (Ht : relay_toward p (xr_sent run) (received relay_events) (relay_run relay_events (relay_exec name (Ok tt)))).
    { assert (Hpre : received relay_events `prefix_of` xr_sent run) by by rewrite Harr. clear Harr Hn relay.
      induction relay_events as [|event events IH] using rev_ind.
      - right. split_and!; [done..|]. by exists frames, (xr_sent run).
      - rewrite received_snoc in Hpre |- *. apply Forall_app in Hun as [Hun Hev]. rewrite Forall_singleton in Hev.
        unfold relay_run. rewrite fold_left_app. cbn. apply relay_step_toward; [|exact Hev|exact Hpre].
        apply IH; [done|]. etrans; [|exact Hpre]. by eexists. }
    rewrite Harr in Ht. apply (relay_drain p (xr_sent run)); [done|]. intros Hrel.
    destruct Ht as [[Hd _]|(_ & _ & _ & E & _)]; [congruence|]. rewrite E, length_app in Hn. lia. }
  rewrite Hw. unfold exec.
  rewrite <- (app_nil_r (xr_sent run)), (exec_loop_complete frames p (xr_sent run) [] _ [] [] Hsent Hpl).
  - cbn. rewrite Ho, He. f_equal. by apply exit_code_roundtrip, (exec_status_i32 edge_events).
  - apply write_frames_length in Hsent. rewrite length_app in Hsent. rewrite app_nil_r. cbn in Hsent. lia.
Qed.
