(* ===== verification/McpSession.v ===== *)
(** * An MCP session with a server that speaks on its standard streams

    The bytes of a session pass three [select!] loops: the Client's proxy
    (crates/agent-scale/src/client.rs, [mcp_run]), its daemon
    (crates/agent-scale/src/daemon.rs, [relay_mcp]) and the Edge
    (crates/as-edge/src/runtime.rs, [mcp_stdio]). Each loop takes one step per
    branch that completes; a completed branch drops the read of a frame that
    another branch had begun. The fields [.._lost] record whether such a read had
    already taken bytes from its stream. *)
From S2P Require Import Prelude Deps Transport FrameStream.
Open Scope string_scope.
Open Scope Z_scope.

Inductive LoopPhase := Looping | LoopDone | LoopFailed (error : string).
#[global] Instance LoopPhase_eq : EqDecision LoopPhase.
Proof. solve_decision. Defined.

(** ** The Client's proxy: [mcp_run] *)

Record McpRun := {
  mr_daemon : Source;
  mr_stdin_open : bool;
  mr_sent : bytes;              (* to the daemon *)
  mr_shut : bool;               (* the stream to the daemon is finished *)
  mr_stdin : bytes;             (* read from the MCP client and put into frames *)
  mr_stdout : bytes;            (* written to the MCP client *)
  mr_stderr : bytes;
  mr_phase : LoopPhase;
  mr_lost : bool;
}.
Implicit Types (mr : McpRun).

Inductive McpRunEvent :=
| StdinRead (read : result string bytes) (written : WriteEnd)
| DaemonSends (chunk : bytes)
| DaemonEnds
| DaemonFrame.                  (* the read of a frame is polled *)

(** A branch other than the daemon's completes. *)
Definition mr_drop mr : McpRun := {|
  mr_daemon := abandon (mr_daemon mr); mr_stdin_open := mr_stdin_open mr; mr_sent := mr_sent mr;
  mr_shut := mr_shut mr; mr_stdin := mr_stdin mr; mr_stdout := mr_stdout mr; mr_stderr := mr_stderr mr;
  mr_phase := mr_phase mr; mr_lost := (mr_lost mr || mid_frame (mr_daemon mr))%bool |}.

Definition mr_set_daemon daemon mr : McpRun := {|
  mr_daemon := daemon; mr_stdin_open := mr_stdin_open mr; mr_sent := mr_sent mr; mr_shut := mr_shut mr;
  mr_stdin := mr_stdin mr; mr_stdout := mr_stdout mr; mr_stderr := mr_stderr mr; mr_phase := mr_phase mr;
  mr_lost := mr_lost mr |}.
Definition mr_set_phase phase mr : McpRun := {|
  mr_daemon := mr_daemon mr; mr_stdin_open := mr_stdin_open mr; mr_sent := mr_sent mr; mr_shut := mr_shut mr;
  mr_stdin := mr_stdin mr; mr_stdout := mr_stdout mr; mr_stderr := mr_stderr mr; mr_phase := phase;
  mr_lost := mr_lost mr |}.
Definition mr_show (stdout stderr : bytes) mr : McpRun := {|
  mr_daemon := mr_daemon mr; mr_stdin_open := mr_stdin_open mr; mr_sent := mr_sent mr; mr_shut := mr_shut mr;
  mr_stdin := mr_stdin mr; mr_stdout := mr_stdout mr ++ stdout; mr_stderr := mr_stderr mr ++ stderr;
  mr_phase := mr_phase mr; mr_lost := mr_lost mr |}.

Definition mr_stdin_step (read : result string bytes) (written : WriteEnd) mr : McpRun :=
  match read with
  | Err _ | Ok [] => {|
      mr_daemon := mr_daemon mr; mr_stdin_open := false; mr_sent := mr_sent mr; mr_shut := true;
      mr_stdin := mr_stdin mr; mr_stdout := mr_stdout mr; mr_stderr := mr_stderr mr; mr_phase := mr_phase mr;
      mr_lost := mr_lost mr |}
  | Ok data =>
      match write_frame Data data with
      | Err e => mr_set_phase (LoopFailed e) mr
      | Ok bs => {|
          mr_daemon := mr_daemon mr; mr_stdin_open := mr_stdin_open mr; mr_sent := mr_sent mr ++ wire written bs;
          mr_shut := mr_shut mr; mr_stdin := mr_stdin mr ++ data; mr_stdout := mr_stdout mr;
          mr_stderr := mr_stderr mr;
          mr_phase := match written with All => mr_phase mr | Partial _ => LoopFailed "write" end;
          mr_lost := mr_lost mr |}
      end
  end.

Definition mr_frame_step mr : McpRun :=
  let '(polled, daemon) := poll MAX_FRAME (mr_daemon mr) in
  let mr := mr_set_daemon daemon mr in
  match polled with
  | Pending _ => mr
  | Ready {| tag := Data; payload := p |} => mr_show p [] mr
  | Ready {| tag := Stderr; payload := p |} => mr_show [] p mr
  | Ready _ | Closed => mr_set_phase LoopDone mr
  | Broken e => mr_set_phase (LoopFailed e) mr
  end.

Definition mcp_run_step (event : McpRunEvent) mr : McpRun :=
  match mr_phase mr, event with
  | Looping, StdinRead read written =>
      if mr_stdin_open mr then mr_stdin_step read written (mr_drop mr) else mr
  | Looping, DaemonSends chunk => mr_set_daemon (arrive chunk (mr_daemon mr)) mr
  | Looping, DaemonEnds => mr_set_daemon (close (mr_daemon mr)) mr
  | Looping, DaemonFrame => mr_frame_step mr
  | _, _ => mr
  end.

(** After the start-up frame *)
Definition mcp_run_start : McpRun := {|
  mr_daemon := new_source; mr_stdin_open := true; mr_sent := []; mr_shut := false; mr_stdin := [];
  mr_stdout := []; mr_stderr := []; mr_phase := Looping; mr_lost := false |}.

Definition mcp_run (events : list McpRunEvent) : McpRun :=
  fold_left (fun mr event => mcp_run_step event mr) events mcp_run_start.

(** ** The daemon: the loop of [relay_mcp] *)

Record McpRelay := {
  ml_client : Source;
  ml_client_open : bool;
  ml_edge : Source;
  ml_to_edge : bytes;
  ml_finished : bool;           (* the stream to the Edge is finished *)
  ml_to_client : bytes;
  ml_phase : LoopPhase;
  ml_lost : bool;
}.
Implicit Types (ml : McpRelay).

Inductive McpRelayEvent :=
| ClientSent (chunk : bytes)
| ClientEnded
| ClientFrame (written : WriteEnd)
| EdgeSent (chunk : bytes)
| EdgeEnded
| EdgeFrame (written : WriteEnd).

Definition ml_set_client client ml : McpRelay := {|
  ml_client := client; ml_client_open := ml_client_open ml; ml_edge := ml_edge ml; ml_to_edge := ml_to_edge ml;
  ml_finished := ml_finished ml; ml_to_client := ml_to_client ml; ml_phase := ml_phase ml; ml_lost := ml_lost ml |}.
Definition ml_set_edge edge ml : McpRelay := {|
  ml_client := ml_client ml; ml_client_open := ml_client_open ml; ml_edge := edge; ml_to_edge := ml_to_edge ml;
  ml_finished := ml_finished ml; ml_to_client := ml_to_client ml; ml_phase := ml_phase ml; ml_lost := ml_lost ml |}.
Definition ml_set_phase phase ml : McpRelay := {|
  ml_client := ml_client ml; ml_client_open := ml_client_open ml; ml_edge := ml_edge ml; ml_to_edge := ml_to_edge ml;
  ml_finished := ml_finished ml; ml_to_client := ml_to_client ml; ml_phase := phase; ml_lost := ml_lost ml |}.

(** The other branch's read is dropped when one completes. *)
Definition ml_drop_client ml : McpRelay := {|
  ml_client := abandon (ml_client ml); ml_client_open := ml_client_open ml; ml_edge := ml_edge ml;
  ml_to_edge := ml_to_edge ml; ml_finished := ml_finished ml; ml_to_client := ml_to_client ml;
  ml_phase := ml_phase ml; ml_lost := (ml_lost ml || mid_frame (ml_client ml))%bool |}.
Definition ml_drop_edge ml : McpRelay := {|
  ml_client := ml_client ml; ml_client_open := ml_client_open ml; ml_edge := abandon (ml_edge ml);
  ml_to_edge := ml_to_edge ml; ml_finished := ml_finished ml; ml_to_client := ml_to_client ml;
  ml_phase := ml_phase ml; ml_lost := (ml_lost ml || mid_frame (ml_edge ml))%bool |}.

Definition ml_write_edge (written : WriteEnd) (bs : bytes) ml : McpRelay := {|
  ml_client := ml_client ml; ml_client_open := ml_client_open ml; ml_edge := ml_edge ml;
  ml_to_edge := ml_to_edge ml ++ wire written bs; ml_finished := ml_finished ml; ml_to_client := ml_to_client ml;
  ml_phase := match written with All => ml_phase ml | Partial _ => LoopFailed "write" end; ml_lost := ml_lost ml |}.
Definition ml_write_client (written : WriteEnd) (bs : bytes) ml : McpRelay := {|
  ml_client := ml_client ml; ml_client_open := ml_client_open ml; ml_edge := ml_edge ml;
  ml_to_edge := ml_to_edge ml; ml_finished := ml_finished ml; ml_to_client := ml_to_client ml ++ wire written bs;
  ml_phase := match written with All => ml_phase ml | Partial _ => LoopFailed "write" end; ml_lost := ml_lost ml |}.
Definition ml_half_close ml : McpRelay := {|
  ml_client := ml_client ml; ml_client_open := false; ml_edge := ml_edge ml; ml_to_edge := ml_to_edge ml;
  ml_finished := true; ml_to_client := ml_to_client ml; ml_phase := ml_phase ml; ml_lost := ml_lost ml |}.

Definition ml_client_step (written : WriteEnd) ml : McpRelay :=
  let '(polled, client) := poll MAX_FRAME (ml_client ml) in
  let ml := ml_set_client client ml in
  match polled with
  | Pending _ => ml
  | Ready {| tag := Data; payload := p |} =>
      match write_frame Data p with
      | Ok bs => ml_write_edge written bs (ml_drop_edge ml)
      | Err e => ml_set_phase (LoopFailed e) ml
      end
  | Ready _ | Closed => ml_half_close (ml_drop_edge ml)
  | Broken e => ml_set_phase (LoopFailed e) ml
  end.

Definition ml_edge_step (written : WriteEnd) ml : McpRelay :=
  let '(polled, edge) := poll MAX_FRAME (ml_edge ml) in
  let ml := ml_set_edge edge ml in
  match polled with
  | Pending _ => ml
  | Ready {| tag := (Data | Stderr) as t; payload := p |} =>
      match write_frame t p with
      | Ok bs => ml_write_client written bs (ml_drop_client ml)
      | Err e => ml_set_phase (LoopFailed e) ml
      end
  | Ready _ | Closed => ml_set_phase LoopDone ml
  | Broken e => ml_set_phase (LoopFailed e) ml
  end.

Definition relay_mcp_step (event : McpRelayEvent) ml : McpRelay :=
  match ml_phase ml, event with
  | Looping, ClientSent chunk => ml_set_client (arrive chunk (ml_client ml)) ml
  | Looping, ClientEnded => ml_set_client (close (ml_client ml)) ml
  | Looping, ClientFrame written => if ml_client_open ml then ml_client_step written ml else ml
  | Looping, EdgeSent chunk => ml_set_edge (arrive chunk (ml_edge ml)) ml
  | Looping, EdgeEnded => ml_set_edge (close (ml_edge ml)) ml
  | Looping, EdgeFrame written => ml_edge_step written ml
  | _, _ => ml
  end.

Definition relay_mcp_start : McpRelay := {|
  ml_client := new_source; ml_client_open := true; ml_edge := new_source; ml_to_edge := []; ml_finished := false;
  ml_to_client := []; ml_phase := Looping; ml_lost := false |}.

Definition relay_mcp (events : list McpRelayEvent) : McpRelay :=
  fold_left (fun ml event => relay_mcp_step event ml) events relay_mcp_start.

(** ** The Edge: the loop of [mcp_stdio] *)

Record McpStdio := {
  ms_client : Source;
  ms_client_open : bool;
  ms_stdin : bytes;             (* written to the server's standard input *)
  ms_stdin_open : bool;
  ms_stderr_open : bool;
  ms_sent : bytes;              (* to the daemon *)
  ms_stdout : bytes;            (* read from the server and put into frames *)
  ms_stderr : bytes;
  ms_phase : LoopPhase;
  ms_killed : bool;
  ms_lost : bool;
}.
Implicit Types (ms : McpStdio).

Inductive McpStdioEvent :=
| PeerSent (chunk : bytes)
| PeerEnded
| PeerFrame (stdin : WriteEnd)                  (* and how the write to the server's input ends *)
| ServerStdout (read : result string bytes) (written : WriteEnd)
| ServerStderr (read : result string bytes) (written : WriteEnd).

Definition ms_set_client client ms : McpStdio := {|
  ms_client := client; ms_client_open := ms_client_open ms; ms_stdin := ms_stdin ms; ms_stdin_open := ms_stdin_open ms;
  ms_stderr_open := ms_stderr_open ms; ms_sent := ms_sent ms; ms_stdout := ms_stdout ms; ms_stderr := ms_stderr ms;
  ms_phase := ms_phase ms; ms_killed := ms_killed ms; ms_lost := ms_lost ms |}.
(** Leaving the loop kills the server: [terminate_child], or [kill_on_drop]. *)
Definition ms_end phase ms : McpStdio := {|
  ms_client := ms_client ms; ms_client_open := ms_client_open ms; ms_stdin := ms_stdin ms;
  ms_stdin_open := ms_stdin_open ms; ms_stderr_open := ms_stderr_open ms; ms_sent := ms_sent ms;
  ms_stdout := ms_stdout ms; ms_stderr := ms_stderr ms; ms_phase := phase; ms_killed := true; ms_lost := ms_lost ms |}.
Definition ms_drop ms : McpStdio := {|
  ms_client := abandon (ms_client ms); ms_client_open := ms_client_open ms; ms_stdin := ms_stdin ms;
  ms_stdin_open := ms_stdin_open ms; ms_stderr_open := ms_stderr_open ms; ms_sent := ms_sent ms;
  ms_stdout := ms_stdout ms; ms_stderr := ms_stderr ms; ms_phase := ms_phase ms; ms_killed := ms_killed ms;
  ms_lost := (ms_lost ms || mid_frame (ms_client ms))%bool |}.
Definition ms_feed (data : bytes) ms : McpStdio := {|
  ms_client := ms_client ms; ms_client_open := ms_client_open ms; ms_stdin := ms_stdin ms ++ data;
  ms_stdin_open := ms_stdin_open ms; ms_stderr_open := ms_stderr_open ms; ms_sent := ms_sent ms;
  ms_stdout := ms_stdout ms; ms_stderr := ms_stderr ms; ms_phase := ms_phase ms; ms_killed := ms_killed ms;
  ms_lost := ms_lost ms |}.
Definition ms_close_stdin ms : McpStdio := {|
  ms_client := ms_client ms; ms_client_open := false; ms_stdin := ms_stdin ms; ms_stdin_open := false;
  ms_stderr_open := ms_stderr_open ms; ms_sent := ms_sent ms; ms_stdout := ms_stdout ms; ms_stderr := ms_stderr ms;
  ms_phase := ms_phase ms; ms_killed := ms_killed ms; ms_lost := ms_lost ms |}.
Definition ms_close_stderr ms : McpStdio := {|
  ms_client := ms_client ms; ms_client_open := ms_client_open ms; ms_stdin := ms_stdin ms;
  ms_stdin_open := ms_stdin_open ms; ms_stderr_open := false; ms_sent := ms_sent ms;
  ms_stdout := ms_stdout ms; ms_stderr := ms_stderr ms; ms_phase := ms_phase ms; ms_killed := ms_killed ms;
  ms_lost := ms_lost ms |}.
Definition ms_send (bs stdout stderr : bytes) ms : McpStdio := {|
  ms_client := ms_client ms; ms_client_open := ms_client_open ms; ms_stdin := ms_stdin ms;
  ms_stdin_open := ms_stdin_open ms; ms_stderr_open := ms_stderr_open ms; ms_sent := ms_sent ms ++ bs;
  ms_stdout := ms_stdout ms ++ stdout; ms_stderr := ms_stderr ms ++ stderr; ms_phase := ms_phase ms;
  ms_killed := ms_killed ms; ms_lost := ms_lost ms |}.

Definition ms_peer_step (stdin : WriteEnd) ms : McpStdio :=
  let '(polled, client) := poll MAX_FRAME (ms_client ms) in
  let ms := ms_set_client client ms in
  match polled with
  | Pending _ => ms
  | Ready {| tag := Data; payload := p |} =>
      if ms_stdin_open ms then
        let ms := ms_feed (wire stdin p) ms in
        match stdin with All => ms | Partial _ => ms_end (LoopFailed "write stdin") ms end
      else ms
  | Ready _ | Closed => ms_close_stdin ms
  | Broken e => ms_end (LoopFailed e) ms
  end.

(** A frame of the server's output; a failing write ends the session. *)
Definition ms_output_step (t : FrameTag) (data stdout stderr : bytes) (written : WriteEnd) ms : McpStdio :=
  match write_frame t data with
  | Err _ => ms_end LoopDone ms
  | Ok bs =>
      let ms := ms_send (wire written bs) stdout stderr ms in
      match written with All => ms | Partial _ => ms_end LoopDone ms end
  end.

Definition mcp_stdio_step (event : McpStdioEvent) ms : McpStdio :=
  match ms_phase ms, event with
  | Looping, PeerSent chunk => ms_set_client (arrive chunk (ms_client ms)) ms
  | Looping, PeerEnded => ms_set_client (close (ms_client ms)) ms
  | Looping, PeerFrame stdin => if ms_client_open ms then ms_peer_step stdin ms else ms
  | Looping, ServerStdout read written =>
      match read with
      | Err _ | Ok [] => ms_end LoopDone ms
      | Ok data => ms_output_step Data data data [] written (ms_drop ms)
      end
  | Looping, ServerStderr read written =>
      if ms_stderr_open ms then
        match read with
        | Err _ | Ok [] => ms_close_stderr (ms_drop ms)
        | Ok data => ms_output_step Stderr data [] data written (ms_drop ms)
        end
      else ms
  | _, _ => ms
  end.

Definition mcp_stdio_start : McpStdio := {|
  ms_client := new_source; ms_client_open := true; ms_stdin := []; ms_stdin_open := true; ms_stderr_open := true;
  ms_sent := []; ms_stdout := []; ms_stderr := []; ms_phase := Looping; ms_killed := false; ms_lost := false |}.

Definition mcp_stdio (events : list McpStdioEvent) : McpStdio :=
  fold_left (fun ms event => mcp_stdio_step event ms) events mcp_stdio_start.

(** ** What arrives at each loop *)

Definition daemon_bytes (events : list McpRunEvent) : bytes :=
  concat (omap (fun event => match event with DaemonSends chunk => Some chunk | _ => None end) events).
Definition client_bytes (events : list McpRelayEvent) : bytes :=
  concat (omap (fun event => match event with ClientSent chunk => Some chunk | _ => None end) events).
Definition edge_bytes (events : list McpRelayEvent) : bytes :=
  concat (omap (fun event => match event with EdgeSent chunk => Some chunk | _ => None end) events).
Definition peer_bytes (events : list McpStdioEvent) : bytes :=
  concat (omap (fun event => match event with PeerSent chunk => Some chunk | _ => None end) events).

Lemma concat_omap_snoc {A} (f : A -> option bytes) events event :
  concat (omap f (events ++ [event])%list) = (concat (omap f events) ++ default [] (f event))%list.
Proof. rewrite omap_app, concat_app. cbn. destruct (f event); cbn; by rewrite ?app_nil_r. Qed.

(** ** The invariants *)

Definition mcp_run_ok (arrived : bytes) mr : Prop :=
  (exists ws, Forall (fun f => tag f = Data) ws /\ output Data ws = mr_stdin mr /\
     sending (mr_sent mr) (mr_phase mr = Looping) ws) /\
  (mr_lost mr = false -> exists fs, output Data fs = mr_stdout mr /\ output Stderr fs = mr_stderr mr /\
     receiving arrived (mr_daemon mr) (mr_phase mr = Looping) fs).

Lemma mr_stdin_step_ok read written arrived mr :
  mcp_run_ok arrived mr -> mr_phase mr = Looping -> mcp_run_ok arrived (mr_stdin_step read written (mr_drop mr)).
Proof.
  intros [(ws & Hd & Ho & Hs) Hr] Hph.
  assert (Hr' : (mr_lost mr || mid_frame (mr_daemon mr))%bool = false -> exists fs, output Data fs = mr_stdout mr /\
    output Stderr fs = mr_stderr mr /\ forall running, receiving arrived (abandon (mr_daemon mr)) running fs).
  { intros [Hl Hm]%orb_false_iff. destruct (Hr Hl) as (fs & H1 & H2 & H3). exists fs. split_and!; [done..|].
    intros running. eapply receiving_same; [done|]. intros _. split; [done|]. by apply reads_abandon. }
  unfold mr_stdin_step. destruct read as [[|c data]|e]; [|destruct (write_frame Data (c :: data)) as [bs|e] eqn:Hw|].
  1,4: split; [by exists ws|]; cbn; intros Hl; destruct (Hr' Hl) as (fs & ? & ? & ?); by exists fs.
  - split; cbn.
    + exists (ws ++ [{| tag := Data; payload := c :: data |}])%list. split_and!.
      * apply Forall_app. split; [done|]. by apply Forall_singleton.
      * rewrite output_app, output_one, Ho. by compare_tags.
      * eapply sending_snoc; [done|done|done|]. rewrite Hph. by destruct written.
    + intros Hl. destruct (Hr' Hl) as (fs & ? & ? & ?). by exists fs.
  - split; cbn.
    + exists ws. split_and!; [done..|]. by eapply sending_mono.
    + intros Hl. destruct (Hr' Hl) as (fs & ? & ? & ?). by exists fs.
Qed.

Lemma mr_frame_step_ok arrived mr :
  mcp_run_ok arrived mr -> mr_phase mr = Looping -> mcp_run_ok arrived (mr_frame_step mr).
Proof.
  intros [(ws & Hd & Ho & Hs) Hr] Hph. unfold mr_frame_step.
  destruct (poll MAX_FRAME (mr_daemon mr)) as [polled daemon] eqn:Hp.
  assert (Hend : forall phase, phase <> Looping -> mcp_run_ok arrived (mr_set_phase phase (mr_set_daemon daemon mr))).
  { intros phase Hne. split; cbn.
    - exists ws. split_and!; [done..|]. by eapply sending_mono.
    - intros Hl. destruct (Hr Hl) as (fs & ? & ? & Hrec). exists fs. split_and!; [done..|].
      by eapply receiving_same. }
  assert (Hshow : forall f, polled = Ready f -> mr_lost mr = false -> exists fs,
    output Data fs = (mr_stdout mr ++ output Data [f])%list /\ output Stderr fs = (mr_stderr mr ++ output Stderr [f])%list /\
    receiving arrived daemon (mr_phase mr = Looping) fs).
  { intros f -> Hl. destruct (Hr Hl) as (fs & Eo & Ee & [_ Hrec]). exists (fs ++ [f])%list.
    rewrite !output_app, Eo, Ee. split_and!; [done..|]. by eapply reads_receiving, reads_Ready; [apply Hrec|]. }
  destruct polled as [r|[t p]| |e]; [|destruct t| |]; try (by apply Hend).
  - split; cbn; [by exists ws|]. intros Hl. destruct (Hr Hl) as (fs & ? & ? & Hrec). exists fs. split_and!; [done..|].
    eapply receiving_same; [done|]. intros Hloop. split; [done|]. intros Hread. by eapply reads_Pending.
  - split; cbn; [by exists ws|]. intros Hl. destruct (Hshow _ eq_refl Hl) as (fs & Eo & Ee & Hrec). exists fs.
    by rewrite Eo, Ee, !output_one; compare_tags.
  - split; cbn; [by exists ws|]. intros Hl. destruct (Hshow _ eq_refl Hl) as (fs & Eo & Ee & Hrec). exists fs.
    by rewrite Eo, Ee, !output_one; compare_tags.
Qed.

Lemma mcp_run_invariant events : mcp_run_ok (daemon_bytes events) (mcp_run events).
Proof.
  induction events as [|event events IH] using rev_ind.
  { split; [exists []; split_and!; [done..|apply sending_start]|]. intros _. exists [].
    split_and!; [done..|apply receiving_start]. }
  unfold daemon_bytes. rewrite concat_omap_snoc. fold (daemon_bytes events).
  unfold mcp_run. rewrite fold_left_app. fold (mcp_run events). cbn. set (mr := mcp_run events) in *.
  unfold mcp_run_step. destruct (mr_phase mr) eqn:Hph.
  - destruct event as [read written|chunk| |]; cbn; rewrite ?app_nil_r.
    + destruct (mr_stdin_open mr); [|done]. by apply mr_stdin_step_ok.
    + destruct IH as [Hs Hr]. split; [done|]. cbn. intros Hl. destruct (Hr Hl) as (fs & ? & ? & Hrec). exists fs.
      split_and!; [done..|]. eapply receiving_mono; [done|]. intros Hloop. split; [done|]. apply reads_arrive.
    + destruct IH as [Hs Hr]. by split.
    + by apply mr_frame_step_ok.
  - destruct IH as [Hs Hr]. split; [done|]. intros Hl. destruct (Hr Hl) as (fs & ? & ? & Hrec). exists fs.
    split_and!; [done..|]. eapply receiving_mono; [done|]. congruence.
  - destruct IH as [Hs Hr]. split; [done|]. intros Hl. destruct (Hr Hl) as (fs & ? & ? & Hrec). exists fs.
    split_and!; [done..|]. eapply receiving_mono; [done|]. congruence.
Qed.

Definition upstream (arrived : bytes) ml : Prop :=
  exists fs, Forall (fun f => tag f = Data) fs /\
    receiving arrived (ml_client ml) (ml_phase ml = Looping /\ ml_client_open ml = true) fs /\
    sending (ml_to_edge ml) (ml_phase ml = Looping) fs.
Definition downstream (arrived : bytes) ml : Prop :=
  exists fs, Forall (fun f => tag f = Data \/ tag f = Stderr) fs /\
    receiving arrived (ml_edge ml) (ml_phase ml = Looping) fs /\ sending (ml_to_client ml) (ml_phase ml = Looping) fs.
Definition relay_mcp_ok (from_client from_edge : bytes) ml : Prop :=
  ml_lost ml = false -> upstream from_client ml /\ downstream from_edge ml.

(** The end of the loop, or of one direction, keeps what was achieved. *)
Lemma upstream_same arrived ml ml' :
  upstream arrived ml -> ml_to_edge ml' = ml_to_edge ml -> (ml_phase ml' = Looping -> ml_phase ml = Looping) ->
  (ml_phase ml' = Looping -> ml_client_open ml' = true -> ml_client_open ml = true /\
     forall fs, reads arrived (ml_client ml) fs -> reads arrived (ml_client ml') fs) ->
  upstream arrived ml'.
Proof.
  intros (fs & Hd & Hrec & Hs) Ee Hph Hcl. exists fs. split_and!; [done| |rewrite Ee; by eapply sending_mono].
  eapply receiving_same; [done|]. intros [H1 H2]. destruct (Hcl H1 H2). auto.
Qed.

Lemma downstream_same arrived ml ml' :
  downstream arrived ml -> ml_to_client ml' = ml_to_client ml -> (ml_phase ml' = Looping -> ml_phase ml = Looping) ->
  (ml_phase ml' = Looping -> forall fs, reads arrived (ml_edge ml) fs -> reads arrived (ml_edge ml') fs) ->
  downstream arrived ml'.
Proof.
  intros (fs & Hd & Hrec & Hs) Ee Hph Hcl. exists fs. split_and!; [done| |rewrite Ee; by eapply sending_mono].
  eapply receiving_same; [done|]. intros H1. auto.
Qed.

Lemma ml_client_step_ok written ac ae ml :
  relay_mcp_ok ac ae ml -> ml_phase ml = Looping -> ml_client_open ml = true ->
  relay_mcp_ok ac ae (ml_client_step written ml).
Proof.
  intros Hok Hph Hopen. unfold ml_client_step.
  destruct (poll MAX_FRAME (ml_client ml)) as [polled client] eqn:Hp.
  assert (Hfail : forall e, relay_mcp_ok ac ae (ml_set_phase (LoopFailed e) (ml_set_client client ml))).
  { intros e Hl. destruct (Hok Hl) as [Hu Hd]. split; [by eapply upstream_same|by eapply downstream_same]. }
  assert (Hdown : forall ml', ml_to_client ml' = ml_to_client ml -> ml_edge ml' = abandon (ml_edge ml) ->
    (ml_phase ml' = Looping -> ml_phase ml = Looping) ->
    downstream ae ml -> mid_frame (ml_edge ml) = false -> downstream ae ml').
  { intros ml' E1 E2 E3 Hd Hm. eapply downstream_same; [done..|]. intros _ fs. rewrite E2. by apply reads_abandon. }
  destruct polled as [r|[t p]| |e]; [|destruct t| |]; try (by apply Hfail).
  1: { intros Hl. destruct (Hok Hl) as [Hu Hd]. split; [|by eapply downstream_same].
       eapply upstream_same; [done..|]. intros _ _. split; [done|]. intros fs Hr. by eapply reads_Pending. }
  1-5,7: intros [Hl Hm]%orb_false_iff; destruct (Hok Hl) as [Hu Hd]; cbn in Hm;
         (split; [by eapply upstream_same|by eapply Hdown]).
  destruct (write_frame Data p) as [bs|e] eqn:Hw; [|by apply Hfail].
  intros [Hl Hm]%orb_false_iff. cbn in Hl, Hm. destruct (Hok Hl) as [(fs & Hfd & [_ Hrec] & Hs) Hd]. split.
  - exists (fs ++ [{| tag := Data; payload := p |}])%list. split_and!.
    + apply Forall_app. split; [done|]. by apply Forall_singleton.
    + apply reads_receiving. eapply reads_Ready; [by apply Hrec|done].
    + eapply sending_snoc; [done|done|done|]. cbn. by destruct written.
  - eapply Hdown; [done|done|done|done|done].
Qed.

Lemma ml_edge_step_ok written ac ae ml :
  relay_mcp_ok ac ae ml -> ml_phase ml = Looping -> relay_mcp_ok ac ae (ml_edge_step written ml).
Proof.
  intros Hok Hph. unfold ml_edge_step.
  destruct (poll MAX_FRAME (ml_edge ml)) as [polled edge] eqn:Hp.
  assert (Hend : forall phase, phase <> Looping -> relay_mcp_ok ac ae (ml_set_phase phase (ml_set_edge edge ml))).
  { intros phase Hne Hl. destruct (Hok Hl) as [Hu Hd]. split; [by eapply upstream_same|by eapply downstream_same]. }
  assert (Hshow : forall t p bs, polled = Ready {| tag := t; payload := p |} -> t = Data \/ t = Stderr ->
    write_frame t p = Ok bs -> relay_mcp_ok ac ae (ml_write_client written bs (ml_drop_client (ml_set_edge edge ml)))).
  { intros t p bs -> Ht Hw [Hl Hm]%orb_false_iff. cbn in Hl, Hm.
    destruct (Hok Hl) as [Hu (fs & Hfd & [_ Hrec] & Hs)]. split.
    - eapply upstream_same; [done..|]. cbn. intros _ Ho. split; [done|]. intros gs. by apply reads_abandon.
    - exists (fs ++ [{| tag := t; payload := p |}])%list. split_and!.
      + apply Forall_app. split; [done|]. by apply Forall_singleton.
      + apply reads_receiving. eapply reads_Ready; [by apply Hrec|done].
      + eapply sending_snoc; [done|done|done|]. cbn. by destruct written. }
  destruct polled as [r|[t p]| |e]; [|destruct t| |]; try (by apply Hend).
  - intros Hl. destruct (Hok Hl) as [Hu Hd]. split; [by eapply upstream_same|].
    eapply downstream_same; [done..|]. intros _ fs Hr. by eapply reads_Pending.
  - destruct (write_frame Stderr p) as [bs|e] eqn:Hw; [|by apply Hend]. eapply Hshow; [done|by right|done].
  - destruct (write_frame Data p) as [bs|e] eqn:Hw; [|by apply Hend]. eapply Hshow; [done|by left|done].
Qed.

Lemma relay_mcp_invariant events : relay_mcp_ok (client_bytes events) (edge_bytes events) (relay_mcp events).
Proof.
  induction events as [|event events IH] using rev_ind.
  { intros _. split; exists []; (split_and!; [done|apply receiving_start|apply sending_start]). }
  unfold client_bytes, edge_bytes. rewrite !concat_omap_snoc. fold (client_bytes events) (edge_bytes events).
  unfold relay_mcp. rewrite fold_left_app. fold (relay_mcp events). cbn. set (ml := relay_mcp events) in *.
  assert (Hidle : forall c e, ml_phase ml <> Looping -> relay_mcp_ok (client_bytes events ++ c) (edge_bytes events ++ e) ml).
  { intros c e Hne Hl. destruct (IH Hl) as [(fs & Hf & Hr & Hs) (gs & Hg & Hr' & Hs')].
    split; [exists fs|exists gs]; (split_and!; [done| |done]); (eapply receiving_mono; [done|]); naive_solver. }
  unfold relay_mcp_step. destruct (ml_phase ml) eqn:Hph; [|by apply Hidle..].
  destruct event as [chunk| |written|chunk| |written]; cbn; rewrite ?app_nil_r.
  - intros Hl. destruct (IH Hl) as [(fs & Hf & Hr & Hs) Hd]. split; [|done]. exists fs. split_and!; [done| |done].
    eapply receiving_mono; [done|]. intros Hloop. split; [done|]. apply reads_arrive.
  - intros Hl. by destruct (IH Hl) as [Hu Hd].
  - destruct (ml_client_open ml) eqn:Ho; [|done]. by apply ml_client_step_ok.
  - intros Hl. destruct (IH Hl) as [Hu (fs & Hf & Hr & Hs)]. split; [done|]. exists fs. split_and!; [done| |done].
    eapply receiving_mono; [done|]. intros Hloop. split; [done|]. apply reads_arrive.
  - intros Hl. by destruct (IH Hl) as [Hu Hd].
  - by apply ml_edge_step_ok.
Qed.

Definition served (ms : McpStdio) : Prop :=
  exists ws, Forall (fun f => tag f = Data \/ tag f = Stderr) ws /\ output Data ws = ms_stdout ms /\
    output Stderr ws = ms_stderr ms /\ sending (ms_sent ms) (ms_phase ms = Looping) ws.
Definition fed (arrived : bytes) ms : Prop :=
  ms_lost ms = false -> exists fs, ms_stdin ms `prefix_of` output Data fs /\
    (ms_phase ms = Looping -> ms_client_open ms = true -> ms_stdin ms = output Data fs) /\
    receiving arrived (ms_client ms) (ms_phase ms = Looping /\ ms_client_open ms = true) fs.
Definition mcp_stdio_ok (arrived : bytes) ms : Prop :=
  served ms /\ fed arrived ms /\ ms_stdin_open ms = ms_client_open ms /\
  (ms_phase ms <> Looping -> ms_killed ms = true).

Lemma served_same ms ms' :
  served ms -> ms_sent ms' = ms_sent ms -> ms_stdout ms' = ms_stdout ms -> ms_stderr ms' = ms_stderr ms ->
  (ms_phase ms' = Looping -> ms_phase ms = Looping) -> served ms'.
Proof.
  intros (ws & Hd & Ho & He & Hs) E1 E2 E3 Hph. exists ws. rewrite E1, E2, E3. split_and!; [done..|].
  by eapply sending_mono.
Qed.

(** A step that feeds nothing to the server; reading goes on only if it loses nothing. *)
Lemma fed_same arrived ms ms' :
  fed arrived ms -> (ms_lost ms' = false -> ms_lost ms = false) -> ms_stdin ms' = ms_stdin ms ->
  (ms_lost ms' = false -> ms_phase ms' = Looping -> ms_client_open ms' = true ->
     ms_phase ms = Looping /\ ms_client_open ms = true /\
     forall fs, reads arrived (ms_client ms) fs -> reads arrived (ms_client ms') fs) ->
  fed arrived ms'.
Proof.
  intros Hf El E1 Hr Hl. destruct (Hf (El Hl)) as (fs & Hp & He & Hrec). exists fs. rewrite E1. split_and!; [done| |].
  - intros H1 H2. destruct (Hr Hl H1 H2) as (? & ? & _). auto.
  - eapply receiving_same; [done|]. intros [H1 H2]. destruct (Hr Hl H1 H2) as (? & ? & ?). auto.
Qed.

Lemma ms_peer_step_ok stdin arrived ms :
  mcp_stdio_ok arrived ms -> ms_phase ms = Looping -> ms_client_open ms = true ->
  mcp_stdio_ok arrived (ms_peer_step stdin ms).
Proof.
  intros (Hs & Hf & Hopen & Hk) Hph Hcl. unfold ms_peer_step.
  destruct (poll MAX_FRAME (ms_client ms)) as [polled client] eqn:Hp.
  assert (Hclose : mcp_stdio_ok arrived (ms_close_stdin (ms_set_client client ms))).
  { split_and!; [by eapply served_same|by eapply fed_same|done|done]. }
  destruct polled as [r|[t p]| |e]; [|destruct t| |]; try done.
  - split_and!; [by eapply served_same| |done|done]. eapply fed_same; [done..|]. intros _ _ _.
    split_and!; [done..|]. intros fs Hr. by eapply reads_Pending.
  - cbn [ms_set_client ms_stdin_open]. rewrite Hopen, Hcl.
    assert (Hfed : forall running, ms_lost ms = false -> exists fs,
      (ms_stdin ms ++ wire stdin p)%list `prefix_of` output Data fs /\
      (stdin = All -> (ms_stdin ms ++ wire stdin p)%list = output Data fs) /\ receiving arrived client running fs).
    { intros running Hl. destruct (Hf Hl) as (fs & _ & He & [_ Hrec]).
      exists (fs ++ [{| tag := Data; payload := p |}])%list.
      rewrite output_app, output_one, (He Hph Hcl). compare_tags. split_and!.
      - apply prefix_app, wire_prefix.
      - by intros ->.
      - apply reads_receiving. eapply reads_Ready; [by apply Hrec|done]. }
    destruct stdin as [|n]; (split_and!; [by eapply served_same| |done|done]); intros Hl;
      destruct (Hfed (ms_phase ms = Looping /\ ms_client_open ms = true) Hl) as (fs & H1 & H2 & H3); exists fs;
      (split_and!; [done|by auto|]); [done|]. eapply receiving_same; [done|]. by intros [? _].
  - split_and!; [by eapply served_same|by eapply fed_same|done|done].
Qed.

Lemma ms_output_step_ok t data stdout stderr written arrived ms :
  mcp_stdio_ok arrived ms -> ms_phase ms = Looping -> t = Data \/ t = Stderr ->
  stdout = output Data [{| tag := t; payload := data |}] -> stderr = output Stderr [{| tag := t; payload := data |}] ->
  mcp_stdio_ok arrived (ms_output_step t data stdout stderr written (ms_drop ms)).
Proof.
  intros (Hs & Hf & Hopen & Hk) Hph Ht Eo Ee.
  assert (Hdrop : forall ms', ms_stdin ms' = ms_stdin ms -> ms_client ms' = abandon (ms_client ms) ->
    ms_client_open ms' = ms_client_open ms ->
    ms_lost ms' = (ms_lost ms || mid_frame (ms_client ms))%bool -> fed arrived ms').
  { intros ms' E1 E2 E3 E4. eapply fed_same; [done| |done|]; rewrite E4.
    - by intros [? _]%orb_false_iff.
    - intros [_ Hm]%orb_false_iff _ H2. split_and!; [done|congruence|]. intros fs. rewrite E2. by apply reads_abandon. }
  unfold ms_output_step. destruct (write_frame t data) as [bs|e] eqn:Hw.
  2: { split_and!; [by eapply served_same|by apply Hdrop|done|done]. }
  destruct Hs as (ws & Hd & Ho & He & Hs).
  assert (Hserved : forall ms', ms_sent ms' = (ms_sent ms ++ wire written bs)%list ->
    ms_stdout ms' = (ms_stdout ms ++ stdout)%list -> ms_stderr ms' = (ms_stderr ms ++ stderr)%list ->
    (ms_phase ms' = Looping -> written = All) -> served ms').
  { intros ms' E1 E2 E3 Hall. exists (ws ++ [{| tag := t; payload := data |}])%list.
    rewrite !output_app, Ho, He, E1, E2, E3, Eo, Ee. split_and!; [|done|done|by eapply sending_snoc].
    apply Forall_app. split; [done|]. by apply Forall_singleton. }
  destruct written; (split_and!; [by apply Hserved|by apply Hdrop|done|done]).
Qed.

Lemma mcp_stdio_invariant events : mcp_stdio_ok (peer_bytes events) (mcp_stdio events).
Proof.
  induction events as [|event events IH] using rev_ind.
  { split_and!; [|intros _|done|done]; exists []; split_and!; try done; [apply sending_start|apply receiving_start]. }
  unfold peer_bytes. rewrite concat_omap_snoc. fold (peer_bytes events).
  unfold mcp_stdio. rewrite fold_left_app. fold (mcp_stdio events). cbn. set (ms := mcp_stdio events) in *.
  assert (Hidle : forall c, ms_phase ms <> Looping -> mcp_stdio_ok (peer_bytes events ++ c) ms).
  { intros c Hne. destruct IH as (Hs & Hf & Hopen & Hk). split_and!; [done| |done|done]. intros Hl.
    destruct (Hf Hl) as (fs & H1 & H2 & H3). exists fs. split_and!; [done..|]. eapply receiving_mono; [done|]. naive_solver. }
  unfold mcp_stdio_step. destruct (ms_phase ms) eqn:Hph; [|by apply Hidle..].
  destruct event as [chunk| |stdin|read written|read written]; cbn; rewrite ?app_nil_r.
  - destruct IH as (Hs & Hf & Hopen & Hk). split_and!; [done| |done|done]. intros Hl.
    destruct (Hf Hl) as (fs & H1 & H2 & H3). exists fs. split_and!; [done..|].
    eapply receiving_mono; [done|]. intros Hloop. split; [done|]. apply reads_arrive.
  - done.
  - destruct (ms_client_open ms) eqn:Ho; [|done]. by apply ms_peer_step_ok.
  - destruct read as [[|c data]|e].
    2: apply ms_output_step_ok; [done|done|by left|by rewrite output_one; compare_tags..].
    all: destruct IH as (Hs & Hf & Hopen & Hk); split_and!; [by eapply served_same|by eapply fed_same|done|done].
  - destruct (ms_stderr_open ms); [|done]. destruct read as [[|c data]|e].
    2: apply ms_output_step_ok; [done|done|by right|by rewrite output_one; compare_tags..].
    all: destruct IH as (Hs & Hf & Hopen & Hk); split_and!; [by eapply served_same| |done|done].
    all: eapply fed_same; [done| |done|]; cbn; [by intros [? _]%orb_false_iff|].
    all: intros [_ Hm]%orb_false_iff _ H2; split_and!; [done..|]; intros fs; by apply reads_abandon.
Qed.

(** C17. An MCP session is a faithful pipe as long as no loop drops a frame it has
    begun to read: whatever the timing, the pieces in which bytes arrive and
    whoever fails or closes first, what the server reads on its standard input is
    a beginning of what the MCP client wrote, what the MCP client reads is a
    beginning of what the server wrote to its standard output, the same holds of
    standard error, and a session that is over has killed the server. *)
Theorem mcp_session_is_a_pipe client_events daemon_events edge_events :
  let client := mcp_run client_events in
  let daemon := relay_mcp daemon_events in
  let edge := mcp_stdio edge_events in
  client_bytes daemon_events `prefix_of` mr_sent client -> peer_bytes edge_events `prefix_of` ml_to_edge daemon ->
  edge_bytes daemon_events `prefix_of` ms_sent edge -> daemon_bytes client_events `prefix_of` ml_to_client daemon ->
  mr_lost client = false -> ml_lost daemon = false -> ms_lost edge = false ->
  ms_stdin edge `prefix_of` mr_stdin client /\
  mr_stdout client `prefix_of` ms_stdout edge /\ mr_stderr client `prefix_of` ms_stderr edge /\
  (ms_phase edge <> Looping -> ms_killed edge = true).
Proof.
  intros client daemon edge H1 H2 H3 H4 Hl1 Hl2 Hl3.
  destruct (mcp_run_invariant client_events) as [(ws & Hws & Ein & Hs) Hr].
  destruct (relay_mcp_invariant daemon_events Hl2) as [(us & _ & Hu & Hus) (ds & _ & Hd & Hds)].
  destruct (mcp_stdio_invariant edge_events) as ((vs & _ & Eo & Ee & Hvs) & Hf & _ & Hk).
  destruct (Hr Hl1) as (fs & Ef & Efe & Hrec). destruct (Hf Hl3) as (gs & Hg & _ & Hgs).
  fold client in Hs, Ein, Ef, Efe, Hrec. fold edge in Hvs, Eo, Ee, Hk, Hg, Hgs.
  assert (Hup : gs `prefix_of` ws) by (etrans; [eapply receiving_prefix; [exact Hgs|exact Hus|exact H2]|by eapply receiving_prefix]).
  assert (Hdown : fs `prefix_of` vs) by (etrans; [eapply receiving_prefix; [exact Hrec|exact Hds|exact H4]|by eapply receiving_prefix]).
  split_and!; [| | |done].
  - etrans; [exact Hg|]. rewrite <- Ein. by apply output_prefix.
  - rewrite <- Ef, <- Eo. by apply output_prefix.
  - rewrite <- Efe, <- Ee. by apply output_prefix.
Qed.

(** The loops do drop such frames, and then the payload of a frame is taken
    for frames: when the header of a frame of the Edge has arrived and the Client
    sends something before the rest does, the daemon forgets the header. If the
    payload's bytes look like a frame, this frame is passed to the Client, which
    the Edge never sent. ([tokio::select!] drops the read of the Edge's frame
    because the read of the Client's frame completes; [read_frame] is not
    cancellation safe.) *)
Theorem mcp_relay_forges_frames f bs q :
  tag f = Data \/ tag f = Stderr -> write_frame (tag f) (payload f) = Ok bs ->
  Z.of_nat (length bs) <= MAX_FRAME -> Z.of_nat (length q) <= MAX_FRAME ->
  exists header sent request,
    write_frame Data bs = Ok sent /\ sent = (header ++ bs)%list /\ write_frame Data q = Ok request /\
    let relay := relay_mcp [EdgeSent header; EdgeFrame All; ClientSent request; ClientFrame All;
                            EdgeSent bs; EdgeFrame All] in
    ml_phase relay = Looping /\ ml_to_edge relay = request /\ ml_to_client relay = bs.
Proof.
  intros Ht Hw Hl Hq. assert (Hwf : forall p, Z.of_nat (length p) <= MAX_FRAME -> exists b, write_frame Data p = Ok b).
  { intros p Hp. unfold write_frame, header. rewrite (proj2 (Z.leb_le _ _) Hp). cbn.
    rewrite (proj2 (Z.leb_le _ _)); [by eexists|]. unfold MAX_FRAME, u32_max in *. lia. }
  destruct (Hwf bs Hl) as [sent Hs]. destruct (Hwf q Hq) as [request Hrq].
  destruct (poll_waits Data bs sent Hs) as (hdr & -> & Hwait); [by eapply write_frame_cons|].
  exists hdr, (hdr ++ bs)%list, request. split_and!; [done..|].
  set (edge := {| src_buffered := []; src_closed := false; src_reading := AtPayload Data (Z.of_nat (length bs)) [] |}) in *.
  destruct (poll_progress MAX_FRAME (arrive request new_source) {| tag := Data; payload := q |} request [])
    as (client & Hpc & _); [done|done|done|by cbn; rewrite app_nil_r|].
  destruct (poll_progress MAX_FRAME (arrive bs (abandon edge)) f bs [])
    as (edge' & Hpe & _); [done|done|by eapply write_frame_length|by cbn; rewrite app_nil_r|].
  assert (S1 : relay_mcp_step (EdgeFrame All) (relay_mcp_step (EdgeSent hdr) relay_mcp_start) =
    ml_set_edge edge relay_mcp_start).
  { change (ml_edge_step All (ml_set_edge (arrive hdr new_source) relay_mcp_start) = ml_set_edge edge relay_mcp_start).
    unfold ml_edge_step. cbn [ml_edge ml_set_edge]. by rewrite Hwait. }
  set (ml1 := ml_set_edge edge relay_mcp_start) in *.
  assert (S2 : relay_mcp_step (ClientFrame All) (relay_mcp_step (ClientSent request) ml1) =
    ml_write_edge All request (ml_drop_edge (ml_set_client client ml1))).
  { change (ml_client_step All (ml_set_client (arrive request new_source) ml1) =
      ml_write_edge All request (ml_drop_edge (ml_set_client client ml1))).
    unfold ml_client_step. cbn [ml_client ml_set_client]. by rewrite Hpc, Hrq. }
  set (ml2 := ml_write_edge All request (ml_drop_edge (ml_set_client client ml1))) in *.
  assert (S3 : relay_mcp_step (EdgeFrame All) (relay_mcp_step (EdgeSent bs) ml2) =
    ml_write_client All bs (ml_drop_client (ml_set_edge edge' ml2))).
  { change (ml_edge_step All (ml_set_edge (arrive bs (abandon edge)) ml2) =
      ml_write_client All bs (ml_drop_client (ml_set_edge edge' ml2))).
    unfold ml_edge_step. cbn [ml_edge ml_set_edge]. rewrite Hpe. destruct f as [t p]. cbn [tag payload] in Ht, Hw.
    destruct Ht as [-> | ->]; by rewrite Hw. }
  unfold relay_mcp. cbn [fold_left]. rewrite S1, S2, S3. done.
Qed.
