(* ===== verification/McpBridge.v ===== *)
(** * An MCP session with a server that speaks HTTP (crates/as-edge/src/mcp_http.rs)

    The Edge cuts the Client's byte stream into newline-delimited messages
    ([read_message]), posts each to the server and sends the lines of the answers
    back through a channel ([OutputSender]) that a writer task empties. Messages
    and lines are the bytes of UTF-8 strings; the HTTP server is what it answers
    to each POST. *)
From S2P Require Import Prelude Deps Transport FrameStream.
Open Scope string_scope.
Open Scope Z_scope.

Definition NEWLINE : Byte.byte := Byte.x0a.
Definition RETURN : Byte.byte := Byte.x0d.
Definition MAX_MESSAGE_BYTES : Z := 16 * 1024 * 1024.

(** ** Reading messages *)

(** [buf.iter().position(|&b| b == b'\n')] and [buf.drain(..=pos)]: the line
    without its newline, and what stays in the buffer *)
Fixpoint take_line (buf : bytes) : option (bytes * bytes) :=
  match buf with
  | [] => None
  | b :: buf =>
      if b == NEWLINE then Some ([], buf)
      else match take_line buf with
           | Some (line, rest) => Some (b :: line, rest)
           | None => None
           end
  end.

(** [if line.last() == Some(&b'\r') { line.pop(); }] *)
Definition strip_return (line : bytes) : bytes :=
  match rev line with
  | b :: line' => if b == RETURN then rev line' else line
  | [] => line
  end.

(** [read_message] on the frames that are still to come: the message, if any,
    the buffer and the frames that are left. One step per frame or line. *)
Fixpoint read_message (fuel : nat) (recv : list (result string Frame)) (buf : bytes)
  : result string (option bytes * bytes * list (result string Frame)) :=
  match fuel with
  | O => Err "out of fuel"
  | S fuel =>
      match take_line buf with
      | Some (line, rest) =>
          let line := strip_return line in
          if line == [] then read_message fuel recv rest else Ok (Some line, rest, recv)
      | None =>
          let at_end recv := Ok (if buf == [] then None else Some buf, [], recv) in
          match recv with
          | [] => at_end []
          | Err e :: _ => Err e
          | Ok f :: recv =>
              match tag f with
              | Data =>
                  ensure (Z.of_nat (length buf + length (payload f)) <=? MAX_MESSAGE_BYTES) "MCP message exceeds 16777216 bytes";;
                  read_message fuel recv (buf ++ payload f)
              | _ => at_end recv
              end
          end
      end
  end.

(** The steps that the frames to come can cause *)
Definition weight (recv : list (result string Frame)) : nat :=
  sum_list_with (fun r => match r with Ok f => S (length (payload f)) | Err _ => 1%nat end) recv.

(** The loop that both bridges run over it: the messages, and how it ends *)
Fixpoint read_messages (fuel : nat) (recv : list (result string Frame)) (buf : bytes) : list bytes * result string unit :=
  match fuel with
  | O => ([], Err "out of fuel")
  | S fuel =>
      match read_message (S (length buf + weight recv)) recv buf with
      | Err e => ([], Err e)
      | Ok (None, _, _) => ([], Ok tt)
      | Ok (Some message, buf, recv) =>
          let '(messages, r) := read_messages fuel recv buf in (message :: messages, r)
      end
  end.

(** ** The output channel *)

(** [OutputSender::send], [push_line] and [push_error]: the frame that is queued *)
Definition queue_frame (t : FrameTag) (data : bytes) : result string Frame :=
  ensure (Z.of_nat (length data) <=? MAX_MESSAGE_BYTES) "MCP message exceeds 16777216 bytes";;
  ensure (Z.of_nat (length data) <=? u32_max) "MCP message size overflow";;
  Ok {| tag := t; payload := data |}.

Definition push_line (data : bytes) : result string (list Frame) :=
  if data == [] then Ok [] else f ← queue_frame Data (data ++ [NEWLINE]); Ok [f].
Definition push_error (error : string) : result string (list Frame) :=
  f ← queue_frame Stderr (as_bytes error ++ [NEWLINE]); Ok [f].
(** [let _ = tx.push_error(..).await] *)
Definition try_push_error (error : string) : list Frame :=
  match push_error error with Ok fs => fs | Err _ => [] end.

(** [String::from_utf8_lossy]: each maximal ill-formed part becomes U+FFFD *)
Definition REPLACEMENT : bytes := [Byte.xef; Byte.xbf; Byte.xbd].

Fixpoint from_utf8_lossy (s : bytes) : bytes :=
  match s with
  | [] => []
  | a :: s1 =>
      if byte_val a <=? 127 then a :: from_utf8_lossy s1
      else if between 194 223 a then
        match s1 with
        | b :: s2 => if continuation b then a :: b :: from_utf8_lossy s2 else REPLACEMENT ++ from_utf8_lossy s1
        | [] => REPLACEMENT
        end
      else if between 224 239 a then
        match s1 with
        | b :: s2 =>
            if between (if byte_val a =? 224 then 160 else 128) (if byte_val a =? 237 then 159 else 191) b then
              match s2 with
              | c :: s3 => if continuation c then a :: b :: c :: from_utf8_lossy s3 else REPLACEMENT ++ from_utf8_lossy s2
              | [] => REPLACEMENT
              end
            else REPLACEMENT ++ from_utf8_lossy s1
        | [] => REPLACEMENT
        end
      else if between 240 244 a then
        match s1 with
        | b :: s2 =>
            if between (if byte_val a =? 240 then 144 else 128) (if byte_val a =? 244 then 143 else 191) b then
              match s2 with
              | c :: s3 =>
                  if continuation c then
                    match s3 with
                    | d :: s4 =>
                        if continuation d then a :: b :: c :: d :: from_utf8_lossy s4
                        else REPLACEMENT ++ from_utf8_lossy s3
                    | [] => REPLACEMENT
                    end
                  else REPLACEMENT ++ from_utf8_lossy s2
              | [] => REPLACEMENT
              end
            else REPLACEMENT ++ from_utf8_lossy s1
        | [] => REPLACEMENT
        end
      else REPLACEMENT ++ from_utf8_lossy s1
  end.

(** [read_bounded_body] *)
Fixpoint read_bounded_body (chunks : list (result string bytes)) (body : bytes) : result string bytes :=
  match chunks with
  | [] => Ok body
  | Err e :: _ => Err "read MCP response body"
  | Ok chunk :: chunks =>
      ensure (Z.of_nat (length body + length chunk) <=? MAX_MESSAGE_BYTES) "MCP response exceeds 16777216 bytes";;
      read_bounded_body chunks (body ++ chunk)
  end.

(** ** Streamable HTTP *)

(** What the server answers: headers, then the events or the chunks of the body *)
Record Response := {
  rs_session : option string;
  rs_content_type : option string;
  rs_events : list (result string bytes);
  rs_chunks : list (result string bytes);
}.

Definition is_sse (r : Response) : bool :=
  match rs_content_type r with
  | Some ct => match String.index 0 "text/event-stream" ct with Some _ => true | None => false end
  | None => false
  end.

(** The events of an SSE answer until an error *)
Fixpoint forward_events (events : list (result string bytes)) : result string (list Frame) :=
  match events with
  | [] => Ok []
  | Err e :: _ => Ok (try_push_error ("MCP SSE error: " ++ e))
  | Ok data :: events =>
      line ← push_line data;
      lines ← forward_events events;
      Ok (line ++ lines)%list
  end.

Definition forward_body (chunks : list (result string bytes)) : result string (list Frame) :=
  match read_bounded_body chunks [] with
  | Ok [] => Ok []
  | Ok body => push_line (from_utf8_lossy body)
  | Err e => Ok (try_push_error ("MCP response body error: " ++ e))
  end.

Definition forward_response (r : Response) : result string (list Frame) :=
  if is_sse r then forward_events (rs_events r) else forward_body (rs_chunks r).

Record Post := { po_session : option string; po_body : bytes }.
(** What the loop has posted, the session id, whether the GET-SSE task was
    started and with which session id, and what it put into the channel *)
Record Streamable := {
  sm_posts : list Post;
  sm_session : option string;
  sm_get_sse : option (option string);
  sm_output : list Frame;
}.
Implicit Types (sm : Streamable).

(** One message: [Ok true] goes on, [Ok false] is the [break] *)
Definition post_step (message : bytes) (answer : result string Response) sm : Streamable * result string bool :=
  let posts := (sm_posts sm ++ [{| po_session := sm_session sm; po_body := message |}])%list in
  match answer with
  | Err e =>
      ({| sm_posts := posts; sm_session := sm_session sm; sm_get_sse := sm_get_sse sm;
          sm_output := sm_output sm ++ try_push_error ("MCP POST failed: " ++ e) |}, Ok false)
  | Ok r =>
      let session := match rs_session r with Some sid => Some sid | None => sm_session sm end in
      let get_sse := match sm_get_sse sm with None => Some session | started => started end in
      let next output := {| sm_posts := posts; sm_session := session; sm_get_sse := get_sse; sm_output := output |} in
      match forward_response r with
      | Ok frames => (next (sm_output sm ++ frames)%list, Ok true)
      | Err e => (next (sm_output sm), Err e)
      end
  end.

(** The loop; [answer k] is the server's answer to the [k]-th POST. *)
Fixpoint post_loop (messages : list bytes) (ends : result string unit) (answer : nat -> result string Response) sm
  : Streamable * result string unit :=
  match messages with
  | [] => (sm, ends)
  | message :: messages =>
      match post_step message (answer (length (sm_posts sm))) sm with
      | (sm, Ok true) => post_loop messages ends answer sm
      | (sm, Ok false) => (sm, Ok tt)
      | (sm, Err e) => (sm, Err e)
      end
  end.

Definition streamable_start : Streamable :=
  {| sm_posts := []; sm_session := None; sm_get_sse := None; sm_output := [] |}.

Definition streamable (recv : list (result string Frame)) (answer : nat -> result string Response)
  : Streamable * result string unit :=
  let '(messages, ends) := read_messages (S (weight recv)) recv [] in
  post_loop messages ends answer streamable_start.

(** [spawn_get_sse]: what the background task puts into the channel *)
Fixpoint forward_get_events (events : list (result string bytes)) : list Frame :=
  match events with
  | [] => []
  | Err e :: _ => try_push_error ("MCP GET-SSE error: " ++ e)
  | Ok data :: events =>
      match push_line data with
      | Ok line => (line ++ forward_get_events events)%list
      | Err _ => []
      end
  end.
Definition get_sse (answer : result string (bool * list (result string bytes))) : list Frame :=
  match answer with
  | Ok (true, events) => forward_get_events events
  | Ok (false, _) => []
  | Err e => try_push_error ("MCP GET-SSE failed: " ++ e)
  end.

(** ** HTTP with a separate event stream *)

Record SseEvent := { ev_event : string; ev_data : bytes }.

Section LegacySse.
Context {Url : Type} (join : bytes -> option Url).

(** The reader task of [legacy_sse]: the first [endpoint] event uses up the slot,
    whether its URL is valid or not. *)
Fixpoint sse_reader (slot : bool) (events : list (result string SseEvent)) : option Url * list Frame :=
  match events with
  | [] | Err _ :: _ => (None, [])
  | Ok ev :: events =>
      if ev_event ev == "endpoint" then
        let '(url, lines) := sse_reader false events in
        (if slot then match join (ev_data ev) with Some u => Some u | None => url end else url, lines)
      else
        match push_line (ev_data ev) with
        | Ok line => let '(url, lines) := sse_reader slot events in (url, (line ++ lines)%list)
        | Err _ => (None, [])
        end
  end.

(** One POST per message until one fails *)
Fixpoint legacy_posts (messages : list bytes) (ends : result string unit) (answer : nat -> result string unit)
  (posts : list bytes) : list bytes * list Frame * result string unit :=
  match messages with
  | [] => (posts, [], ends)
  | message :: messages =>
      match answer (length posts) with
      | Ok _ => legacy_posts messages ends answer (posts ++ [message])
      | Err e => ((posts ++ [message])%list, try_push_error ("MCP POST failed: " ++ e), Ok tt)
      end
  end.

(** [legacy_sse]: what is posted, what the two tasks put into the channel, and
    the result *)
Definition legacy_sse (stream : result string (list (result string SseEvent))) (recv : list (result string Frame))
  (answer : nat -> result string unit) : list bytes * (list Frame * list Frame) * result string unit :=
  match stream with
  | Err _ => ([], ([], []), Err "open sse stream")
  | Ok events =>
      let '(url, lines) := sse_reader true events in
      match url with
      | None => ([], (lines, []), Err "server sent no endpoint event")
      | Some _ =>
          let '(messages, ends) := read_messages (S (weight recv)) recv [] in
          let '(posts, errors, r) := legacy_posts messages ends answer [] in
          (posts, (lines, errors), r)
      end
  end.
End LegacySse.

(** ** The bridge task and its writer *)

Record BridgeTask := {
  bt_tx : bool;                          (* [bridge]'s own sender *)
  bt_loop_tx : bool;                     (* the clone that the loop has *)
  bt_sse_tx : bool;                      (* the clone of the event stream's task *)
  bt_result : option (result string unit);  (* what the loop returned *)
  bt_queue : list Frame;
  bt_sent : bytes;
  bt_finished : bool;                    (* the writer has ended: [send.finish()] *)
  bt_returned : bool;                    (* [bridge] has returned *)
}.
Implicit Types (bt : BridgeTask).

Inductive BridgeEvent :=
| LoopSends (f : Frame)
| SseStarts
| SseSends (f : Frame)
| SseEnds
| LoopReturns (r : result string unit)
| WriterRuns (written : WriteEnd)
| BridgeRuns.                            (* [writer.await] is polled *)

Definition bt_enqueue (fs : list Frame) bt : BridgeTask := {|
  bt_tx := bt_tx bt; bt_loop_tx := bt_loop_tx bt; bt_sse_tx := bt_sse_tx bt; bt_result := bt_result bt;
  bt_queue := bt_queue bt ++ fs; bt_sent := bt_sent bt; bt_finished := bt_finished bt; bt_returned := bt_returned bt |}.
Definition bt_set_sse (sse : bool) bt : BridgeTask := {|
  bt_tx := bt_tx bt; bt_loop_tx := bt_loop_tx bt; bt_sse_tx := sse; bt_result := bt_result bt;
  bt_queue := bt_queue bt; bt_sent := bt_sent bt; bt_finished := bt_finished bt; bt_returned := bt_returned bt |}.
(** The loop's clone is dropped and its background task aborted; [bridge] reports
    an error through its own sender. *)
Definition bt_loop_returns (r : result string unit) bt : BridgeTask := {|
  bt_tx := bt_tx bt; bt_loop_tx := false; bt_sse_tx := false; bt_result := Some r;
  bt_queue := bt_queue bt ++ match r with Ok _ => [] | Err e => try_push_error ("MCP HTTP bridge: " ++ e) end;
  bt_sent := bt_sent bt; bt_finished := bt_finished bt; bt_returned := bt_returned bt |}.
Definition bt_finish bt : BridgeTask := {|
  bt_tx := bt_tx bt; bt_loop_tx := bt_loop_tx bt; bt_sse_tx := bt_sse_tx bt; bt_result := bt_result bt;
  bt_queue := bt_queue bt; bt_sent := bt_sent bt; bt_finished := true; bt_returned := bt_returned bt |}.
Definition bt_write (written : WriteEnd) (bs : bytes) (queue : list Frame) bt : BridgeTask := {|
  bt_tx := bt_tx bt; bt_loop_tx := bt_loop_tx bt; bt_sse_tx := bt_sse_tx bt; bt_result := bt_result bt;
  bt_queue := queue; bt_sent := bt_sent bt ++ wire written bs; bt_finished := bt_finished bt; bt_returned := bt_returned bt |}.

(** [while let Some(output) = rx.recv().await]: [None] only when the queue is
    empty and every sender is dropped *)
Definition writer_step (written : WriteEnd) bt : BridgeTask :=
  if bt_finished bt then bt
  else match bt_queue bt with
       | f :: queue =>
           match write_frame (tag f) (payload f) with
           | Err _ => bt_finish (bt_write All [] queue bt)
           | Ok bs =>
               let bt := bt_write written bs queue bt in
               match written with All => bt | Partial _ => bt_finish bt end
           end
       | [] => if (bt_tx bt || bt_loop_tx bt || bt_sse_tx bt)%bool then bt else bt_finish bt
       end.

(** [let _ = writer.await; res]: returning drops [tx]. *)
Definition bridge_step (event : BridgeEvent) bt : BridgeTask :=
  match event with
  | LoopSends f => if bt_loop_tx bt then bt_enqueue [f] bt else bt
  | SseStarts => if bt_loop_tx bt then bt_set_sse true bt else bt
  | SseSends f => if bt_sse_tx bt then bt_enqueue [f] bt else bt
  | SseEnds => bt_set_sse false bt
  | LoopReturns r => if bt_loop_tx bt then bt_loop_returns r bt else bt
  | WriterRuns written => writer_step written bt
  | BridgeRuns =>
      match bt_result bt with
      | Some _ =>
          if bt_finished bt then {|
            bt_tx := false; bt_loop_tx := bt_loop_tx bt; bt_sse_tx := bt_sse_tx bt; bt_result := bt_result bt;
            bt_queue := bt_queue bt; bt_sent := bt_sent bt; bt_finished := true; bt_returned := true |}
          else bt
      | None => bt
      end
  end.

Definition bridge_start : BridgeTask := {|
  bt_tx := true; bt_loop_tx := true; bt_sse_tx := false; bt_result := None; bt_queue := []; bt_sent := [];
  bt_finished := false; bt_returned := false |}.

Definition bridge (events : list BridgeEvent) : BridgeTask :=
  fold_left (fun bt event => bridge_step event bt) events bridge_start.

(** ** The reference: what the lines of a byte string are *)

Fixpoint split_lines (s : bytes) : list bytes * bytes :=
  match s with
  | [] => ([], [])
  | b :: s =>
      let '(lines, rest) := split_lines s in
      if b == NEWLINE then ([] :: lines, rest)
      else match lines with
           | [] => ([], b :: rest)
           | line :: lines => ((b :: line) :: lines, rest)
           end
  end.

(** The non-empty lines without their line ends, and what follows the last one *)
Definition messages_of (s : bytes) : list bytes :=
  let '(lines, rest) := split_lines s in
  (filter (fun line => line <> []) (strip_return <$> lines) ++ (if rest == [] then [] else [rest]))%list.

Lemma take_line_Some s line rest :
  take_line s = Some (line, rest) ->
  split_lines s = (line :: (split_lines rest).1, (split_lines rest).2) /\ length s = S (length line + length rest).
Proof.
  revert line rest. induction s as [|b s IH]; intros line rest; [done|]. cbn.
  case_bool_decide.
  - intros [= <- <-]. by destruct (split_lines s).
  - destruct (take_line s) as [[l r]|]; [|done]. intros [= <- <-].
    destruct (IH l r eq_refl) as [-> Hl]. cbn. split; [done|lia].
Qed.

Lemma take_line_None s : take_line s = None -> split_lines s = ([], s).
Proof.
  induction s as [|b s IH]; [done|]. cbn. case_bool_decide; [done|].
  destruct (take_line s) as [[l r]|]; [done|]. intros _. by rewrite IH.
Qed.

Lemma take_line_app s t line rest :
  take_line s = Some (line, rest) -> take_line (s ++ t) = Some (line, rest ++ t)%list.
Proof.
  revert line rest. induction s as [|b s IH]; intros line rest; [done|]. cbn. case_bool_decide.
  - by intros [= <- <-].
  - destruct (take_line s) as [[l r]|]; [|done]. intros [= <- <-]. by rewrite (IH l r).
Qed.

(** One message is the first of the reference's messages. *)
Lemma messages_of_line s line rest :
  take_line s = Some (line, rest) ->
  messages_of s = ((if strip_return line == [] then [] else [strip_return line]) ++ messages_of rest)%list.
Proof.
  intros Ht. unfold messages_of. destruct (take_line_Some _ _ _ Ht) as [-> _]. destruct (split_lines rest) as [ls r].
  cbn -[filter]. destruct (decide (strip_return line = [])) as [E|E].
  - rewrite filter_cons_False by (rewrite E; auto). by rewrite (bool_decide_eq_true_2 (strip_return line = [])).
  - rewrite filter_cons_True by done. by rewrite (bool_decide_eq_false_2 (strip_return line = [])).
Qed.

Lemma messages_of_rest s : take_line s = None -> messages_of s = if s == [] then [] else [s].
Proof. intros Ht. unfold messages_of. by rewrite (take_line_None s Ht). Qed.

(** ** Reading terminates *)

Definition no_fuel_error (r : result string Frame) : Prop := r <> Err "out of fuel".

Lemma read_message_fuel fuel recv buf :
  (length buf + weight recv < fuel)%nat -> Forall no_fuel_error recv ->
  match read_message fuel recv buf with
  | Err e => e <> "out of fuel"
  | Ok (None, _, _) => True
  | Ok (Some _, buf', recv') =>
      (length buf' + weight recv' < length buf + weight recv)%nat /\ Forall no_fuel_error recv'
  end.
Proof.
  revert recv buf. induction fuel as [|fuel IH]; intros recv buf Hf Hne; [lia|]. cbn [read_message].
  destruct (take_line buf) as [[line rest]|] eqn:Et.
  - apply take_line_Some in Et as [_ Hl]. case_bool_decide; [|split; [lia|done]].
    specialize (IH recv rest). destruct (read_message fuel recv rest) as [[[[m|] b] r]|e]; [|done|apply IH; [lia|done]].
    destruct IH; [lia|done|]. split; [lia|done].
  - assert (Hb : buf <> [] -> (0 < length buf)%nat) by (destruct buf; cbn; [done|lia]).
    destruct recv as [|[f|e] recv].
    + case_bool_decide; [done|]. split; [cbn; specialize (Hb H); lia|done].
    + apply Forall_cons in Hne as [_ Hne]. cbn [weight sum_list_with] in Hf |- *. fold (weight recv) in Hf |- *.
      destruct (tag f).
      6: { unfold ensure. destruct (_ <=? MAX_MESSAGE_BYTES); cbn; [|done].
           specialize (IH recv (buf ++ payload f)%list). rewrite length_app in IH.
           destruct (read_message fuel recv (buf ++ payload f)) as [[[[m|] b] r]|e]; [|done|apply IH; [lia|done]].
           destruct IH; [lia|done|]. split; [lia|done]. }
      all: case_bool_decide; [done|]; split; [cbn; lia|done].
    + apply Forall_cons in Hne as [Hne _]. intros ->. by apply Hne.
Qed.

(** The Edge's reader of an MCP session always ends with the stream: whatever
    frames arrive, each call of [read_message] returns, the loop over it ends
    after at most one step per frame and byte, and its result does not depend on
    the bound. *)
Theorem read_messages_terminates fuel recv buf :
  (length buf + weight recv < fuel)%nat -> Forall no_fuel_error recv ->
  (read_messages fuel recv buf).2 <> Err "out of fuel" /\
  forall fuel', (length buf + weight recv < fuel')%nat -> read_messages fuel' recv buf = read_messages fuel recv buf.
Proof.
  revert recv buf. induction fuel as [|fuel IH]; intros recv buf Hf Hne; [lia|]. cbn [read_messages].
  pose proof (read_message_fuel (S (length buf + weight recv)) recv buf (Nat.lt_succ_diag_r _) Hne) as Hm.
  destruct (read_message (S (length buf + weight recv)) recv buf) as [[[[m|] buf'] recv']|e] eqn:Er.
  - destruct Hm as [Hlt Hne']. destruct (IH recv' buf') as [H1 H2]; [lia|done|].
    destruct (read_messages fuel recv' buf') as [ms r] eqn:Em. split; [done|]. intros [|fuel'] Hf'; [lia|].
    cbn [read_messages]. rewrite Er, (H2 fuel'); [done|lia].
  - split; [done|]. intros [|fuel'] Hf'; [lia|]. cbn [read_messages]. by rewrite Er.
  - split; [by intros [= ->]|]. intros [|fuel'] Hf'; [lia|]. cbn [read_messages]. by rewrite Er.
Qed.

(** ** Reading is splitting into lines *)

Definition segments (s : bytes) : list bytes := ((split_lines s).1 ++ [(split_lines s).2])%list.

Lemma segments_line s line rest : take_line s = Some (line, rest) -> segments s = line :: segments rest.
Proof. intros Ht. unfold segments. by destruct (take_line_Some _ _ _ Ht) as [-> _]. Qed.

Lemma segments_buffer s t : take_line s = None -> exists hd tl, segments (s ++ t) = (s ++ hd)%list :: tl.
Proof.
  induction s as [|b s IH]; cbn.
  - intros _. unfold segments. destruct (split_lines t) as [[|l ls] r]; cbn; by eexists _, _.
  - case_bool_decide as E; [done|]. destruct (take_line s) as [[l r]|]; [done|].
    intros _. destruct (IH eq_refl) as (hd & tl & Es). unfold segments in *. cbn.
    destruct (split_lines (s ++ t)) as [[|l ls] r]; rewrite bool_decide_eq_false_2 by done; cbn in *;
      injection Es as -> <-; by eexists _, _.
Qed.

Definition data_frames (chunks : list bytes) : list (result string Frame) :=
  (fun chunk => Ok {| tag := Data; payload := chunk |}) <$> chunks.

(** Chunks of at most [k] bytes and lines of at most [n] bytes stay within the limit. *)
Definition within (n k : nat) (buf : bytes) (chunks : list bytes) : Prop :=
  Z.of_nat (n + k) <= MAX_MESSAGE_BYTES /\ Forall (fun chunk => (length chunk <= k)%nat) chunks /\
  Forall (fun line => (length line <= n)%nat) (segments (buf ++ concat chunks)).

Lemma read_message_data n k fuel chunks buf :
  (length buf + weight (data_frames chunks) < fuel)%nat -> within n k buf chunks ->
  match messages_of (buf ++ concat chunks) with
  | [] => exists b r, read_message fuel (data_frames chunks) buf = Ok (None, b, r)
  | message :: messages => exists buf' chunks',
      read_message fuel (data_frames chunks) buf = Ok (Some message, buf', data_frames chunks') /\
      messages_of (buf' ++ concat chunks') = messages /\ within n k buf' chunks'
  end.
Proof.
  revert chunks buf. induction fuel as [|fuel IH]; intros chunks buf Hf (Hnk & Hch & Hseg); [lia|]. cbn [read_message].
  destruct (take_line buf) as [[line rest]|] eqn:Et.
  - pose proof (take_line_app buf (concat chunks) line rest Et) as Et'.
    rewrite (messages_of_line _ _ _ Et'). rewrite (segments_line _ _ _ Et') in Hseg.
    apply Forall_cons in Hseg as [_ Hseg]. apply take_line_Some in Et as [_ Hl].
    case_bool_decide; cbn [app].
    + apply IH; [lia|done].
    + by exists rest, chunks.
  - destruct chunks as [|chunk chunks].
    + cbn [data_frames fmap list_fmap concat]. rewrite app_nil_r. rewrite (messages_of_rest buf Et).
      case_bool_decide; [by eexists _, _|]. exists [], []. split_and!; [done|done|]. split_and!; [done|done|].
      apply Forall_singleton. cbn. lia.
    + cbn [data_frames fmap list_fmap tag payload]. fold (data_frames chunks). cbn [concat] in Hseg |- *.
      destruct (segments_buffer buf (chunk ++ concat chunks) Et) as (hd & tl & Es).
      rewrite Es in Hseg. pose proof Hseg as Hseg'. apply Forall_cons in Hseg' as [Hb _]. rewrite length_app in Hb.
      rewrite <- Es in Hseg. apply Forall_cons in Hch as [Hc Hch].
      rewrite (proj2 (Z.leb_le _ _)) by lia. cbn [ensure mbind result_bind].
      rewrite app_assoc in Hseg |- *. apply IH; [|done].
      change (weight (data_frames (chunk :: chunks))) with (S (length chunk) + weight (data_frames chunks))%nat in Hf.
      rewrite length_app. lia.
Qed.

Lemma read_messages_data n k fuel chunks buf :
  (length buf + weight (data_frames chunks) < fuel)%nat -> within n k buf chunks ->
  read_messages fuel (data_frames chunks) buf = (messages_of (buf ++ concat chunks), Ok tt).
Proof.
  revert chunks buf. induction fuel as [|fuel IH]; intros chunks buf Hf Hw; [lia|]. cbn [read_messages].
  pose proof (read_message_data n k (S (length buf + weight (data_frames chunks))) chunks buf (Nat.lt_succ_diag_r _) Hw) as Hm.
  pose proof (read_message_fuel (S (length buf + weight (data_frames chunks))) (data_frames chunks) buf (Nat.lt_succ_diag_r _)) as Hlt.
  destruct (messages_of (buf ++ concat chunks)) as [|m ms].
  - destruct Hm as (b & r & ->). done.
  - destruct Hm as (buf' & chunks' & Hr & Hms & Hw'). rewrite Hr in Hlt |- *. destruct Hlt as [Hlt _].
    { unfold data_frames. apply Forall_fmap, Forall_true. by intros ?. }
    rewrite IH; [by rewrite Hms|lia|done].
Qed.

(** ** What is posted *)

(** The session id after [k] answers: the last one that an answer carried *)
Fixpoint session_at (answer : nat -> result string Response) (k : nat) : option string :=
  match k with
  | O => None
  | S k =>
      match answer k with
      | Ok r => match rs_session r with Some sid => Some sid | None => session_at answer k end
      | Err _ => session_at answer k
      end
  end.

(** The lines of the first [k] answers *)
Fixpoint lines_at (answer : nat -> result string Response) (k : nat) : list Frame :=
  match k with
  | O => []
  | S k => (lines_at answer k ++ match answer k with
                                 | Ok r => match forward_response r with Ok fs => fs | Err _ => [] end
                                 | Err _ => [] end)%list
  end.

Definition answered (answer : nat -> result string Response) (k : nat) : Prop :=
  exists r fs, answer k = Ok r /\ forward_response r = Ok fs.

(** What the loop has done so far, while all answers were usable *)
Definition posted (answer : nat -> result string Response) (messages : list bytes) sm : Prop :=
  po_body <$> sm_posts sm = messages /\ sm_session sm = session_at answer (length messages) /\
  sm_output sm = lines_at answer (length messages) /\
  forall k post, sm_posts sm !! k = Some post -> po_session post = session_at answer k.

Lemma post_step_sessions answer posts session body k post :
  (forall k post, posts !! k = Some post -> po_session post = session_at answer k) ->
  session = session_at answer (length posts) ->
  (posts ++ [{| po_session := session; po_body := body |}])%list !! k = Some post -> po_session post = session_at answer k.
Proof.
  intros Hs -> Hk. apply lookup_app_Some in Hk as [Hk|[Hl Hk]]; [by apply Hs|].
  apply list_lookup_singleton_Some in Hk as [Hk <-]. cbn. f_equal. lia.
Qed.

Lemma post_loop_spec answer done messages sm :
  posted answer done sm ->
  let '(sm', r) := post_loop messages (Ok tt) answer sm in
  (po_body <$> sm_posts sm') `prefix_of` (done ++ messages)%list /\
  (forall k post, sm_posts sm' !! k = Some post -> po_session post = session_at answer k) /\
  ((forall k, (k < length (done ++ messages))%nat -> answered answer k) ->
     r = Ok tt /\ posted answer (done ++ messages) sm').
Proof.
  revert done sm. induction messages as [|m messages IH]; intros done sm Hp.
  { cbn. rewrite app_nil_r. destruct Hp as (E & Hp). split_and!; [by rewrite E|apply Hp|done]. }
  pose proof Hp as (Eb & Es & Eo & Hs). assert (El : length (sm_posts sm) = length done) by (by rewrite <- Eb, length_fmap).
  assert (Hpre : (po_body <$> (sm_posts sm ++ [{| po_session := sm_session sm; po_body := m |}])%list)
            `prefix_of` (done ++ m :: messages)%list).
  { rewrite fmap_app, Eb. cbn. apply prefix_app. by eexists. }
  assert (Hsess : forall k post, (sm_posts sm ++ [{| po_session := sm_session sm; po_body := m |}])%list !! k = Some post ->
            po_session post = session_at answer k).
  { intros k post. apply post_step_sessions; [done|]. by rewrite El. }
  cbn [post_loop]. unfold post_step. rewrite El. destruct (answer (length done)) as [r|e] eqn:Ea.
  2: { split_and!; [done..|]. intros Hall. destruct (Hall (length done)) as (r & fs & Hr & _).
       - rewrite length_app. cbn. lia.
       - congruence. }
  destruct (forward_response r) as [fs|e] eqn:Ef.
  2: { split_and!; [done..|]. intros Hall. destruct (Hall (length done)) as (r' & fs & Hr & Hf).
       - rewrite length_app. cbn. lia.
       - congruence. }
  specialize (IH (done ++ [m])%list). rewrite <- app_assoc in IH. apply IH. split_and!; cbn.
  - by rewrite fmap_app, Eb.
  - rewrite length_app. cbn. rewrite Nat.add_1_r. cbn. by rewrite Ea, Es.
  - rewrite length_app. cbn. rewrite Nat.add_1_r. cbn. by rewrite Ea, Ef, Eo.
  - done.
Qed.

(** The Edge's bridge to a Streamable HTTP server posts the Client's messages:
    however the Client's bytes are cut into frames (of at most [k] bytes, with
    lines of at most [n], within the limit of 16 MiB), the bodies of its POSTs
    are the lines of the byte stream in order, none skipped, merged or repeated,
    until the server fails; every POST carries the last session id that an
    earlier answer gave; and when all answers can be forwarded, all messages are
    posted and what is sent back is the answers' lines in order. *)
Theorem streamable_posts_messages n k chunks answer :
  within n k [] chunks ->
  let '(sm, r) := streamable (data_frames chunks) answer in
  (po_body <$> sm_posts sm) `prefix_of` messages_of (concat chunks) /\
  (forall j post, sm_posts sm !! j = Some post -> po_session post = session_at answer j) /\
  ((forall j, (j < length (messages_of (concat chunks)))%nat -> answered answer j) ->
     r = Ok tt /\ po_body <$> sm_posts sm = messages_of (concat chunks) /\
     sm_output sm = lines_at answer (length (messages_of (concat chunks)))).
Proof.
  intros Hw. unfold streamable. rewrite (read_messages_data n k) by (cbn; lia || done). cbn [app].
  pose proof (post_loop_spec answer [] (messages_of (concat chunks)) streamable_start) as Hl.
  destruct (post_loop _ _ _ _) as [sm r]. destruct Hl as (H1 & H2 & H3); [by split_and!|]. cbn [app] in *.
  split_and!; [done..|]. intros Hall. destruct (H3 Hall) as (H4 & H5 & _ & H6 & _). done.
Qed.

(** ** What the Client reads of a forwarded line *)

Lemma split_lines_no_newline s :
  (forall line, line ∈ (split_lines s).1 -> NEWLINE ∉ line) /\ NEWLINE ∉ (split_lines s).2.
Proof.
  induction s as [|b s [IH1 IH2]]; cbn; [set_solver|]. destruct (split_lines s) as [ls r]. cbn in *.
  case_bool_decide as E; cbn.
  - split; [|done]. intros line [->|Hin]%elem_of_cons; [set_solver|by apply IH1].
  - destruct ls as [|l ls]; cbn; [split; set_solver|]. split; [|done].
    intros line [->|Hin]%elem_of_cons; [|apply IH1; by right]. specialize (IH1 l). set_solver.
Qed.

Lemma strip_return_elem b line : b ∈ strip_return line -> b ∈ line.
Proof.
  unfold strip_return. destruct (rev line) as [|c l] eqn:E; [done|]. case_bool_decide; [|done].
  rewrite !list_elem_of_In. intros Hb. apply in_rev. rewrite E. right. by apply in_rev.
Qed.

Lemma messages_no_newline s m : m ∈ messages_of s -> NEWLINE ∉ m.
Proof.
  unfold messages_of. destruct (split_lines_no_newline s) as [H1 H2]. destruct (split_lines s) as [ls r]. cbn in *.
  rewrite elem_of_app, list_elem_of_filter, list_elem_of_fmap.
  intros [[_ (l & -> & Hl)]|Hm].
  - intros Hn%strip_return_elem. by apply (H1 l).
  - case_bool_decide; [set_solver|]. apply list_elem_of_singleton in Hm as ->. done.
Qed.

Lemma take_line_end s : NEWLINE ∉ s -> take_line (s ++ [NEWLINE]) = Some (s, []).
Proof.
  induction s as [|b s IH]; intros Hn; cbn; [done|]. rewrite not_elem_of_cons in Hn. destruct Hn as [Hb Hn].
  rewrite bool_decide_eq_false_2 by done. by rewrite (IH Hn).
Qed.

(** A line that the bridge forwards is one message for the MCP client exactly
    when it has no line break in it and does not end in a carriage return: the
    bridge adds the newline but does not escape or reject others, so an answer
    whose JSON spans several lines reaches the client in pieces. *)
Theorem forwarded_line_is_one_message data :
  data <> [] -> Z.of_nat (length data) < MAX_MESSAGE_BYTES ->
  exists f, push_line data = Ok [f] /\ tag f = Data /\
    (messages_of (payload f) = [data] <-> NEWLINE ∉ data /\ last data <> Some RETURN).
Proof.
  intros Hne Hl. exists {| tag := Data; payload := data ++ [NEWLINE] |}. split_and!.
  - unfold push_line, queue_frame. rewrite bool_decide_eq_false_2 by done.
    rewrite length_app. cbn [length]. rewrite !(proj2 (Z.leb_le _ _)); [done|..];
      unfold MAX_MESSAGE_BYTES, u32_max in *; lia.
  - done.
  - cbn [payload]. split.
    + intros E. assert (Hn : NEWLINE ∉ data) by (apply (messages_no_newline (data ++ [NEWLINE])); rewrite E; by left).
      split; [done|]. intros Hr. rewrite (messages_of_line _ _ _ (take_line_end data Hn)) in E.
      apply last_Some in Hr as [d ->]. unfold strip_return in E. rewrite rev_app_distr in E. cbn in E.
      rewrite rev_involutive in E. case_bool_decide; cbn in E; [done|]. injection E as E.
      apply (f_equal length) in E. rewrite length_app in E. cbn in E. lia.
    + intros [Hn Hr]. rewrite (messages_of_line _ _ _ (take_line_end data Hn)).
      assert (Es : strip_return data = data).
      { unfold strip_return. destruct (rev data) as [|c d] eqn:E; [done|]. case_bool_decide as Ec; [|done].
        exfalso. apply Hr. subst c. apply (f_equal (@rev _)) in E. rewrite rev_involutive in E. rewrite E. cbn.
        by rewrite last_snoc. }
      rewrite Es, bool_decide_eq_false_2 by done. done.
Qed.

(** ** The writer waits for ever *)

Definition sendable (event : BridgeEvent) : Prop :=
  match event with
  | WriterRuns written => written = All
  | LoopSends f | SseSends f => exists bs, write_frame (tag f) (payload f) = Ok bs
  | _ => True
  end.

Lemma try_push_error_writes e : Forall (fun f => exists bs, write_frame (tag f) (payload f) = Ok bs) (try_push_error e).
Proof.
  unfold try_push_error, push_error, queue_frame. destruct (_ <=? MAX_MESSAGE_BYTES) eqn:E; cbn; [|done].
  destruct (_ <=? u32_max) eqn:E'; cbn; [|done]. apply Forall_singleton. unfold write_frame, header. cbn [tag payload].
  change MAX_FRAME with MAX_MESSAGE_BYTES. rewrite E, E'. cbn. by eexists.
Qed.

(** The bridge never ends a session by itself. [bridge] waits for the writer
    task while it still owns a sender, and the writer ends only when all senders
    are gone: after any events in which no write to the Client fails, also when
    the Client has closed, the loop has returned and the queue is empty, the
    stream to the Client has not been finished and [bridge] has not returned. So
    a Client that waits for the server's end waits for ever. *)
Theorem bridge_never_returns events :
  Forall sendable events ->
  let bt := bridge events in bt_finished bt = false /\ bt_returned bt = false.
Proof.
  intros Hall. cut (bt_tx (bridge events) = true /\ bt_finished (bridge events) = false /\
    bt_returned (bridge events) = false /\
    Forall (fun f => exists bs, write_frame (tag f) (payload f) = Ok bs) (bt_queue (bridge events))); [naive_solver|].
  induction events as [|event events IH] using rev_ind; [done|].
  apply Forall_app in Hall as [Hall Hev]. rewrite Forall_singleton in Hev. specialize (IH Hall).
  unfold bridge. rewrite fold_left_app. fold (bridge events). cbn [fold_left]. set (bt := bridge events) in *.
  destruct IH as (H1 & H2 & H3 & H4).
  destruct event as [f| |f| |r|written|]; cbn in Hev |- *.
  - destruct (bt_loop_tx bt); [|done]. split_and!; [done..|]. cbn. apply Forall_app. by rewrite Forall_singleton.
  - by destruct (bt_loop_tx bt).
  - destruct (bt_sse_tx bt); [|done]. split_and!; [done..|]. cbn. apply Forall_app. by rewrite Forall_singleton.
  - done.
  - destruct (bt_loop_tx bt); [|done]. split_and!; [done..|]. cbn. apply Forall_app. split; [done|].
    destruct r; [done|]. apply try_push_error_writes.
  - subst written. unfold writer_step. rewrite H2. destruct (bt_queue bt) as [|f queue] eqn:Eq; [rewrite H1; cbn; by rewrite Eq|].
    apply Forall_cons in H4 as [(bs & ->) H4]. done.
  - rewrite H2. by destruct (bt_result bt).
Qed.
