(* ===== verification/Proxy.v ===== *)
(** * Proxies: from a local port to a network that an Edge reaches

    The daemon keeps a table of proxies and, for SOCKS5, forwards UDP packets
    (crates/agent-scale/src/daemon/proxy.rs); the Edge connects and resolves
    (crates/as-edge/src/proxy.rs). The wire format of SOCKS packets belongs to the
    fast-socks5 library and is a parameter, as is the text form of IP addresses.
    The UDP loops read frames inside [select!] as in McpSession.v. *)
From S2P Require Import Prelude Deps Transport FrameStream Protocol.
Open Scope string_scope.
Open Scope Z_scope.

(** ** Addresses *)

Inductive IpAddr := V4 (bits : Z) | V6 (bits : Z).
#[global] Instance IpAddr_eq : EqDecision IpAddr.
Proof. solve_decision. Defined.

Record SocketAddr := { sa_ip : IpAddr; sa_port : Z }.
#[global] Instance SocketAddr_eq : EqDecision SocketAddr.
Proof. solve_decision. Defined.

(** [IpAddr]'s [Display] and [FromStr] *)
Class IpText := {
  ip_to_string : IpAddr -> string;
  ip_parse : string -> option IpAddr;
}.
Class IpTextLaws `{IpText} : Prop := {
  ip_parse_to_string : forall ip, ip_parse (ip_to_string ip) = Some ip;
  ip_to_string_ascii : forall ip, utf8_valid (as_bytes (ip_to_string ip)) = true;
}.

(** [fast_socks5::util::target_addr::TargetAddr] *)
Inductive TargetAddr := TargetIp (address : SocketAddr) | TargetDomain (host : string) (port : Z).

(** [fast_socks5::parse_udp_request] (fragment, target, payload) and [new_udp_header] *)
Class SocksPackets := {
  parse_udp_request : bytes -> option (Z * TargetAddr * bytes);
  new_udp_header : SocketAddr -> result string bytes;
}.

(** ** The table of proxies *)

Inductive ProxyKind := ProxyTcp (target : ProxyTarget) | ProxySocks5.
Record SocksAuth := { sx_username : string; sx_password : string }.
Record ProxySpec := {
  ps_name : string;
  ps_edge : string;
  ps_listen : SocketAddr;
  ps_connect_timeout_secs : Z;
  ps_kind : ProxyKind;
  ps_socks_auth : option SocksAuth;
}.
Record ProxyInfo := {
  pi_name : string;
  pi_edge : string;
  pi_listen : SocketAddr;
  pi_kind : ProxyKind;
  pi_authenticated : bool;
}.

(** A running proxy: what is listed, and whether its task still accepts *)
Record RunningProxy := { rp_info : ProxyInfo; rp_accepting : bool }.
Notation ProxyManager := (gmap string RunningProxy).
Implicit Types (running : ProxyManager).

(** [ProxyManager::start]; [bound] is what [TcpListener::bind] gives. *)
Definition proxy_start (edges : gset string) (bound : result string SocketAddr) (spec : ProxySpec)
  : handler ProxyManager string ProxyInfo :=
  require (Str.trim (ps_name spec) != "") "proxy name cannot be empty";;
  require (ps_connect_timeout_secs spec != 0) "proxy connect timeout must be non-zero";;
  require (bool_decide (ps_edge spec ∈ edges)) "unknown edge";;
  listen ← lift bound;
  let info := {| pi_name := ps_name spec; pi_edge := ps_edge spec; pi_listen := listen; pi_kind := ps_kind spec;
                 pi_authenticated := match ps_socks_auth spec with Some _ => true | None => false end |} in
  running ← get id;
  require (bool_decide (running !! ps_name spec = None)) "proxy already exists";;
  require (forallb (fun entry : string * RunningProxy => pi_listen (rp_info entry.2) != listen) (map_to_list running))
    "another proxy already listens on this address";;
  modify (fun running => <[ps_name spec := {| rp_info := info; rp_accepting := true |}]> running);;
  mret info.

(** [ProxyManager::stop] *)
Definition proxy_stop (name : string) : handler ProxyManager string unit :=
  running ← get id;
  lift (of_option (running !! name) "unknown proxy");;
  modify (delete name).

(** [ProxyManager::list]: sorted by name *)
Definition proxy_list running : list ProxyInfo :=
  merge_sort (fun a b => str_le (pi_name a) (pi_name b))
    ((fun entry : string * RunningProxy => rp_info entry.2) <$> map_to_list running).

(** [ProxyManager::shutdown] *)
Definition proxy_shutdown : handler ProxyManager string unit := modify (fun _ => ∅).

(** [serve_listener] after an error of [accept]: the task ends, the table keeps it. *)
Definition accept_fails (name : string) running : ProxyManager :=
  alter (fun p => {| rp_info := rp_info p; rp_accepting := false |}) name running.

Inductive ProxyEvent :=
| ProxyStart (edges : gset string) (bound : result string SocketAddr) (spec : ProxySpec)
| ProxyStop (name : string)
| AcceptFails (name : string).

Definition proxy_step (event : ProxyEvent) running : ProxyManager :=
  match event with
  | ProxyStart edges bound spec => (proxy_start edges bound spec running).1
  | ProxyStop name => (proxy_stop name running).1
  | AcceptFails name => accept_fails name running
  end.
Definition proxy_run (events : list ProxyEvent) : ProxyManager :=
  fold_left (fun running event => proxy_step event running) events ∅.

(** ** TCP *)

(** [io::ErrorKind], as far as [network_error] distinguishes it *)
Inductive ErrorKind := ConnectionRefused | TimedOut | NotFound | NetworkUnreachable | HostUnreachable | OtherKind.

Definition network_error (kind : ErrorKind) (message : string) : RemoteError := {|
  re_code := match kind with
             | ConnectionRefused => "connection_refused"
             | TimedOut => "timeout"
             | NotFound => "host_unreachable"
             | NetworkUnreachable => "network_unreachable"
             | HostUnreachable => "host_unreachable"
             | OtherKind => "network_error"
             end;
  re_message := message |}.

(** What [tokio::time::timeout(.., TcpStream::connect(..))] gives *)
Inductive ConnectOutcome := Connected (local : SocketAddr) | ConnectFailed (kind : ErrorKind) (message : string) | ConnectTimeout.

Definition connect_tcp (target : ProxyTarget) (timeout_secs : Z) (outcome : ConnectOutcome) : result RemoteError SocketAddr :=
  ensure (negb ((host target == "") || (port target =? 0)))
    {| re_code := "invalid_target"; re_message := "proxy target requires a host and non-zero port" |};;
  ensure (negb (timeout_secs =? 0))
    {| re_code := "invalid_timeout"; re_message := "proxy connect timeout must be non-zero" |};;
  match outcome with
  | Connected local => Ok local
  | ConnectFailed kind message => Err (network_error kind message)
  | ConnectTimeout => Err {| re_code := "timeout"; re_message := "connection timed out" |}
  end.

Inductive ReplyError := ReplyConnectionRefused | ReplyNetworkUnreachable | ReplyHostUnreachable | ReplyConnectionTimeout
| ReplyAddressTypeNotSupported | ReplyGeneralFailure | ReplyCommandNotSupported.

Definition socks_reply (code : string) : ReplyError :=
  if code == "connection_refused" then ReplyConnectionRefused
  else if code == "network_unreachable" then ReplyNetworkUnreachable
  else if code == "host_unreachable" then ReplyHostUnreachable
  else if code == "timeout" then ReplyConnectionTimeout
  else if code == "invalid_target" then ReplyAddressTypeNotSupported
  else ReplyGeneralFailure.

(** The closure of [accept_socks5] *)
Definition socks_password (auth : SocksAuth) (username password : string) : bool :=
  (username == sx_username auth) && (password == sx_password auth).

(** ** UDP *)

Section Udp.
Context `{IpText, SocksPackets}.

Definition proxy_target (target : TargetAddr) : ProxyTarget :=
  match target with
  | TargetIp address => {| host := ip_to_string (sa_ip address); port := sa_port address |}
  | TargetDomain host port => {| host := host; port := port |}
  end.

Inductive UdpPhase := UdpLoop | UdpDone | UdpFailed (error : string).

(** A failed write to the peer ends the loop. *)
Definition write_ends {S} (written : WriteEnd) (set_phase : UdpPhase -> S -> S) (st : S) : S :=
  match written with All => st | Partial _ => set_phase (UdpFailed "write frame") st end.

(** *** The daemon: the loop of [serve_socks_udp] *)

Record SocksUdp := {
  su_edge : Source;
  su_client_addr : option SocketAddr;
  su_sent : bytes;                             (* to the Edge *)
  su_forwarded : list ProxyDatagram;           (* in frames to the Edge *)
  su_delivered : list (SocketAddr * bytes);    (* [udp.send_to], with its destination *)
  su_answers : list ProxyDatagram;             (* the packets they carry *)
  su_phase : UdpPhase;
  su_lost : bool;
}.
Implicit Types (su : SocksUdp).

Inductive SocksUdpEvent :=
| ControlByte | ControlClosed
| ClientPacket (source : SocketAddr) (packet : bytes) (written : WriteEnd)   (* and how the write to the Edge ends *)
| ClientSocketFails (error : string)
| SuEdgeSent (chunk : bytes) | SuEdgeEnded
| SuEdgeFrame (sent : result string unit).                                    (* and how [udp.send_to] ends *)

Definition su_set_edge edge su : SocksUdp := {|
  su_edge := edge; su_client_addr := su_client_addr su; su_sent := su_sent su; su_forwarded := su_forwarded su;
  su_delivered := su_delivered su; su_answers := su_answers su; su_phase := su_phase su; su_lost := su_lost su |}.
Definition su_set_phase phase su : SocksUdp := {|
  su_edge := su_edge su; su_client_addr := su_client_addr su; su_sent := su_sent su; su_forwarded := su_forwarded su;
  su_delivered := su_delivered su; su_answers := su_answers su; su_phase := phase; su_lost := su_lost su |}.
Definition su_drop su : SocksUdp := {|
  su_edge := abandon (su_edge su); su_client_addr := su_client_addr su; su_sent := su_sent su;
  su_forwarded := su_forwarded su; su_delivered := su_delivered su; su_answers := su_answers su;
  su_phase := su_phase su; su_lost := (su_lost su || mid_frame (su_edge su))%bool |}.
Definition su_know source su : SocksUdp := {|
  su_edge := su_edge su; su_client_addr := Some (default source (su_client_addr su)); su_sent := su_sent su;
  su_forwarded := su_forwarded su; su_delivered := su_delivered su; su_answers := su_answers su;
  su_phase := su_phase su; su_lost := su_lost su |}.
Definition su_forward datagram bs su : SocksUdp := {|
  su_edge := su_edge su; su_client_addr := su_client_addr su; su_sent := su_sent su ++ bs;
  su_forwarded := su_forwarded su ++ [datagram]; su_delivered := su_delivered su; su_answers := su_answers su;
  su_phase := su_phase su; su_lost := su_lost su |}.
Definition su_deliver addr packet datagram su : SocksUdp := {|
  su_edge := su_edge su; su_client_addr := su_client_addr su; su_sent := su_sent su; su_forwarded := su_forwarded su;
  su_delivered := su_delivered su ++ [(addr, packet)]; su_answers := su_answers su ++ [datagram];
  su_phase := su_phase su; su_lost := su_lost su |}.

(** Is [source] not the client of this association? *)
Definition foreign (client_ip : IpAddr) (known : option SocketAddr) (source : SocketAddr) : bool :=
  ((sa_ip source != client_ip) || match known with Some known => known != source | None => false end)%bool.

Definition su_packet_step (client_ip : IpAddr) source packet written su : SocksUdp :=
  if foreign client_ip (su_client_addr su) source then su
  else
    let su := su_know source su in
    match parse_udp_request packet with
    | None => su
    | Some (fragment, target, payload) =>
        if fragment =? 0 then
          let datagram := {| dg_target := proxy_target target; dg_payload := payload |} in
          match (encoded ← encode_proxy_datagram datagram; write_frame Data encoded) with
          | Ok bs => write_ends written su_set_phase (su_forward datagram (wire written bs) su)
          | Err e => su_set_phase (UdpFailed e) su
          end
        else su
    end.

(** The packet for the client that a frame of the Edge carries *)
Definition su_response (payload : bytes) : result string (ProxyDatagram * bytes) :=
  datagram ← decode_proxy_datagram payload;
  source_ip ← of_option (ip_parse (host (dg_target datagram))) "invalid IP address";
  response ← new_udp_header {| sa_ip := source_ip; sa_port := port (dg_target datagram) |};
  Ok (datagram, (response ++ dg_payload datagram)%list).

Definition su_frame_step (sent : result string unit) su : SocksUdp :=
  let '(polled, edge) := poll MAX_FRAME (su_edge su) in
  let su := su_set_edge edge su in
  match polled with
  | Pending _ => su
  | Ready {| tag := Data; payload := p |} =>
      match su_client_addr su with
      | None => su
      | Some addr =>
          match ('(datagram, packet) ← su_response p; sent ← sent; Ok (datagram, packet)) with
          | Ok (datagram, packet) => su_deliver addr packet datagram su
          | Err e => su_set_phase (UdpFailed e) su
          end
      end
  | Ready _ => su_set_phase (UdpFailed "unexpected Edge UDP proxy frame tag") su
  | Closed => su_set_phase UdpDone su
  | Broken e => su_set_phase (UdpFailed e) su
  end.

Definition socks_udp_step (client_ip : IpAddr) (event : SocksUdpEvent) su : SocksUdp :=
  match su_phase su, event with
  | UdpLoop, ControlByte => su_drop su
  | UdpLoop, ControlClosed => su_set_phase UdpDone su
  | UdpLoop, ClientPacket source packet written => su_packet_step client_ip source packet written (su_drop su)
  | UdpLoop, ClientSocketFails e => su_set_phase (UdpFailed e) su
  | UdpLoop, SuEdgeSent chunk => su_set_edge (arrive chunk (su_edge su)) su
  | UdpLoop, SuEdgeEnded => su_set_edge (close (su_edge su)) su
  | UdpLoop, SuEdgeFrame sent => su_frame_step sent su
  | _, _ => su
  end.

Definition socks_udp_start : SocksUdp := {|
  su_edge := new_source; su_client_addr := None; su_sent := []; su_forwarded := []; su_delivered := [];
  su_answers := []; su_phase := UdpLoop; su_lost := false |}.
Definition serve_socks_udp (client_ip : IpAddr) (events : list SocksUdpEvent) : SocksUdp :=
  fold_left (fun su event => socks_udp_step client_ip event su) events socks_udp_start.

(** *** The Edge: the loop of [serve_udp] *)

Record EdgeUdp := {
  eu_client : Source;
  eu_sent : bytes;                             (* to the daemon *)
  eu_handled : list (SocketAddr * ProxyDatagram);  (* sent to the network, with the address *)
  eu_received : list ProxyDatagram;            (* from the network, in frames to the daemon *)
  eu_phase : UdpPhase;
  eu_lost : bool;
}.
Implicit Types (eu : EdgeUdp).

Inductive EdgeUdpEvent :=
| EuClientSent (chunk : bytes) | EuClientEnded
| EuClientFrame (lookup : string -> Z -> result string (list SocketAddr)) (send : SocketAddr -> result string unit)
| NetPacket (source : SocketAddr) (payload : bytes) (written : WriteEnd)
| NetSocketFails (error : string).

Definition eu_set_client client eu : EdgeUdp := {|
  eu_client := client; eu_sent := eu_sent eu; eu_handled := eu_handled eu; eu_received := eu_received eu;
  eu_phase := eu_phase eu; eu_lost := eu_lost eu |}.
Definition eu_set_phase phase eu : EdgeUdp := {|
  eu_client := eu_client eu; eu_sent := eu_sent eu; eu_handled := eu_handled eu; eu_received := eu_received eu;
  eu_phase := phase; eu_lost := eu_lost eu |}.
Definition eu_drop eu : EdgeUdp := {|
  eu_client := abandon (eu_client eu); eu_sent := eu_sent eu; eu_handled := eu_handled eu;
  eu_received := eu_received eu; eu_phase := eu_phase eu; eu_lost := (eu_lost eu || mid_frame (eu_client eu))%bool |}.
Definition eu_handle addr datagram eu : EdgeUdp := {|
  eu_client := eu_client eu; eu_sent := eu_sent eu; eu_handled := eu_handled eu ++ [(addr, datagram)];
  eu_received := eu_received eu; eu_phase := eu_phase eu; eu_lost := eu_lost eu |}.
Definition eu_answer datagram bs eu : EdgeUdp := {|
  eu_client := eu_client eu; eu_sent := eu_sent eu ++ bs; eu_handled := eu_handled eu;
  eu_received := eu_received eu ++ [datagram]; eu_phase := eu_phase eu; eu_lost := eu_lost eu |}.

(** The loop of [send_udp] over the resolved addresses: the one that was used *)
Fixpoint send_udp (ipv6 : bool) (addrs : list SocketAddr) (send : SocketAddr -> result string unit)
  (last_error : option string) : result string SocketAddr :=
  match addrs with
  | [] => Err (default "proxy target did not resolve to a supported address" last_error)
  | addr :: addrs =>
      match sa_ip addr, ipv6 with
      | V6 _, false => send_udp ipv6 addrs send last_error
      | _, _ =>
          match send addr with
          | Ok _ => Ok addr
          | Err e => send_udp ipv6 addrs send (Some e)
          end
      end
  end.

Definition eu_frame_step (ipv6 : bool) lookup send eu : EdgeUdp :=
  let '(polled, client) := poll MAX_FRAME (eu_client eu) in
  let eu := eu_set_client client eu in
  match polled with
  | Pending _ => eu
  | Ready {| tag := Data; payload := p |} =>
      match (datagram ← decode_proxy_datagram p;
             addrs ← lookup (host (dg_target datagram)) (port (dg_target datagram));
             addr ← send_udp ipv6 addrs send None;
             Ok (addr, datagram)) with
      | Ok (addr, datagram) => eu_handle addr datagram eu
      | Err e => eu_set_phase (UdpFailed e) eu
      end
  | Ready _ => eu_set_phase (UdpFailed "unexpected UDP proxy frame tag") eu
  | Closed => eu_set_phase UdpDone eu
  | Broken e => eu_set_phase (UdpFailed e) eu
  end.

(** [write_udp_response] *)
Definition eu_packet_step (source : SocketAddr) (payload : bytes) written eu : EdgeUdp :=
  let datagram := {| dg_target := {| host := ip_to_string (sa_ip source); port := sa_port source |};
                     dg_payload := payload |} in
  match (encoded ← encode_proxy_datagram datagram; write_frame Data encoded) with
  | Ok bs => write_ends written eu_set_phase (eu_answer datagram (wire written bs) eu)
  | Err e => eu_set_phase (UdpFailed e) eu
  end.

Definition edge_udp_step (ipv6 : bool) (event : EdgeUdpEvent) eu : EdgeUdp :=
  match eu_phase eu, event with
  | UdpLoop, EuClientSent chunk => eu_set_client (arrive chunk (eu_client eu)) eu
  | UdpLoop, EuClientEnded => eu_set_client (close (eu_client eu)) eu
  | UdpLoop, EuClientFrame lookup send => eu_frame_step ipv6 lookup send eu
  | UdpLoop, NetPacket source payload written => eu_packet_step source payload written (eu_drop eu)
  | UdpLoop, NetSocketFails e => eu_set_phase (UdpFailed e) eu
  | _, _ => eu
  end.

Definition edge_udp_start : EdgeUdp := {|
  eu_client := new_source; eu_sent := []; eu_handled := []; eu_received := []; eu_phase := UdpLoop; eu_lost := false |}.
Definition serve_udp (ipv6 : bool) (events : list EdgeUdpEvent) : EdgeUdp :=
  fold_left (fun eu event => edge_udp_step ipv6 event eu) events edge_udp_start.
End Udp.

(** ** The table is consistent *)

Record proxies_ok running : Prop := {
  po_names : forall name p, running !! name = Some p -> pi_name (rp_info p) = name /\ Str.trim name <> "";
  po_listen : forall a b p q, running !! a = Some p -> running !! b = Some q ->
    pi_listen (rp_info p) = pi_listen (rp_info q) -> a = b;
}.

(** What a successful start adds, and what a failing one leaves *)
Lemma proxy_start_inv edges bound spec running :
  let '(running', r) := proxy_start edges bound spec running in
  match r with
  | Ok info => bound = Ok (pi_listen info) /\ pi_name info = ps_name spec /\ Str.trim (ps_name spec) <> "" /\
      ps_edge spec ∈ edges /\ running !! ps_name spec = None /\
      (forall name p, running !! name = Some p -> pi_listen (rp_info p) <> pi_listen info) /\
      running' = <[ps_name spec := {| rp_info := info; rp_accepting := true |}]> running
  | Err _ => running' = running
  end.
Proof.
  destruct (proxy_start edges bound spec running) as [running' r] eqn:W. unfold proxy_start in W.
  hstep W; [|done]. hstep W; [|done]. hstep W; [|done]. hstep W; [|done]. cbv zeta in W. hstep W. hstep W; [|done].
  hstep W; [|done]. hstep W. hstep W. cbn. breflect. split_and!; try done.
  match goal with F : forallb _ _ = true |- _ => rewrite forallb_forall in F; rename F into Hall end.
  intros name p Hp. assert (Hin : In (name, p) (map_to_list running)) by by apply list_elem_of_In, elem_of_map_to_list.
  specialize (Hall _ Hin). cbn in Hall. by breflect.
Qed.

Lemma accept_fails_lookup name running n q :
  accept_fails name running !! n = Some q -> exists p, running !! n = Some p /\ rp_info q = rp_info p.
Proof.
  unfold accept_fails. intros Hq. apply lookup_alter_Some in Hq as [(<- & p & Hp & ->)|[_ Hq]]; eauto.
Qed.

Lemma lookup_accept_fails name running n p :
  running !! n = Some p -> exists q, accept_fails name running !! n = Some q /\ rp_info q = rp_info p.
Proof.
  unfold accept_fails. intros Hp. destruct (decide (name = n)) as [->|Hne].
  - rewrite lookup_alter_eq, Hp. by eexists.
  - rewrite lookup_alter_ne, Hp by done. by eexists.
Qed.

Lemma proxy_step_ok event running : proxies_ok running -> proxies_ok (proxy_step event running).
Proof.
  intros [Hn Hl]. destruct event as [edges bound spec|name|name]; cbn.
  - pose proof (proxy_start_inv edges bound spec running) as Hs.
    destruct (proxy_start edges bound spec running) as [running' [info|e]]; cbn; [|by subst running'; split].
    destruct Hs as (_ & Ename & Htrim & _ & Hfree & Hdist & ->). split.
    + intros name p [[<- <-]|[_ Hp]]%lookup_insert_Some; [done|by apply Hn].
    + intros a b p q [[<- <-]|[Ha Hp]]%lookup_insert_Some [[<- <-]|[Hb Hq]]%lookup_insert_Some; cbn; try done.
      * intros E. by destruct (Hdist b q Hq).
      * intros E. by destruct (Hdist a p Hp).
      * by apply Hl.
  - unfold proxy_stop, mbind, handler_bind, get, lift. cbn. destruct (running !! name) as [p|] eqn:Ep; cbn; [|by split].
    split.
    + intros n q [_ Hq]%lookup_delete_Some. by apply Hn.
    + intros a b q r [_ Hq]%lookup_delete_Some [_ Hr]%lookup_delete_Some. by apply Hl.
  - split.
    + intros n q Hq. apply accept_fails_lookup in Hq as (p & Hp & ->). by apply Hn.
    + intros a b q r Hq Hr. apply accept_fails_lookup in Hq as (y & Hy & ->).
      apply accept_fails_lookup in Hr as (z & Hz & ->). by apply Hl.
Qed.

Lemma proxy_run_ok events : proxies_ok (proxy_run events).
Proof.
  unfold proxy_run. assert (H0 : proxies_ok ∅) by (split; intros *; by rewrite lookup_empty). revert H0.
  generalize (∅ : ProxyManager). induction events as [|event events IH]; intros running Hok; [done|]. cbn.
  by apply IH, proxy_step_ok.
Qed.

Lemma elem_of_proxy_list info running :
  info ∈ proxy_list running <-> exists name p, running !! name = Some p /\ rp_info p = info.
Proof.
  unfold proxy_list. rewrite merge_sort_Permutation, list_elem_of_fmap. split.
  - intros ([name p] & -> & Hp%elem_of_map_to_list). eauto.
  - intros (name & p & Hp & <-). exists (name, p). split; [done|]. by apply elem_of_map_to_list.
Qed.

(** A listener that has failed *)
Lemma failed_proxy_blocks running name p :
  running !! name = Some p ->
  let failed := accept_fails name running in
  (exists q, failed !! name = Some q /\ rp_accepting q = false) /\
  (forall other, other ∈ proxy_list failed <-> other ∈ proxy_list running) /\
  (forall edges bound spec, ps_name spec = name \/ bound = Ok (pi_listen (rp_info p)) ->
     exists e, proxy_start edges bound spec failed = (failed, Err e)).
Proof.
  intros Hp failed. split_and!.
  - unfold failed, accept_fails. rewrite lookup_alter_eq, Hp. by eexists.
  - intros other. rewrite !elem_of_proxy_list. split.
    + intros (n & q & Hq & <-). apply accept_fails_lookup in Hq as (p' & Hp' & ->). eauto.
    + intros (n & q & Hq & <-). destruct (lookup_accept_fails name running n q Hq) as (q' & Hq' & E). eauto.
  - intros edges bound spec Hclash. destruct (lookup_accept_fails name running name p Hp) as (q & Hq & E).
    pose proof (proxy_start_inv edges bound spec failed) as Hs.
    destruct (proxy_start edges bound spec failed) as [running' [info|e]]; [|subst running'; eauto].
    exfalso. destruct Hs as (Hb & _ & _ & _ & Hfree & Hdist & _). destruct Hclash as [Es|Eb].
    + rewrite Es in Hfree. unfold failed in Hfree. congruence.
    + apply (Hdist name q Hq). rewrite E. congruence.
Qed.

(** The table of proxies: after any history of starts, stops and failures, the
    listing has one entry per running name, no two proxies have a name or an
    address in common, a start succeeds only with a name, a configured Edge and
    an address that is free in the table, and is then listed, and a stop removes
    exactly the named proxy. But a proxy whose listener has failed is still
    listed, and its name and address stay taken until it is stopped. *)
Theorem proxy_table_is_consistent events :
  let running := proxy_run events in
  NoDup (pi_name <$> proxy_list running) /\ NoDup (pi_listen <$> proxy_list running) /\
  (forall edges bound spec info, (proxy_start edges bound spec running).2 = Ok info ->
     let running' := (proxy_start edges bound spec running).1 in
     Str.trim (pi_name info) <> "" /\ ps_edge spec ∈ edges /\ bound = Ok (pi_listen info) /\
     (forall other, other ∈ proxy_list running' <-> other = info \/ other ∈ proxy_list running) /\
     pi_name info ∉ pi_name <$> proxy_list running /\ pi_listen info ∉ pi_listen <$> proxy_list running) /\
  (forall name, (proxy_stop name running).2 = Ok tt ->
     forall other, other ∈ proxy_list (proxy_stop name running).1 <-> other ∈ proxy_list running /\ pi_name other <> name) /\
  (forall name p, running !! name = Some p ->
     let failed := accept_fails name running in
     (exists q, failed !! name = Some q /\ rp_accepting q = false) /\
     (forall other, other ∈ proxy_list failed <-> other ∈ proxy_list running) /\
     (forall edges bound spec, ps_name spec = name \/ bound = Ok (pi_listen (rp_info p)) ->
        exists e, proxy_start edges bound spec failed = (failed, Err e))).
Proof.
  intros running. destruct (proxy_run_ok events) as [Hn Hl]. fold running in Hn, Hl.
  assert (Hnames : forall {B} (f : ProxyInfo -> B), (forall a b p q, running !! a = Some p -> running !! b = Some q ->
      f (rp_info p) = f (rp_info q) -> a = b) -> NoDup (f <$> proxy_list running)).
  { intros B f Hinj. unfold proxy_list. rewrite merge_sort_Permutation, <- list_fmap_compose.
    apply NoDup_fmap_2_strong; [|apply NoDup_map_to_list].
    intros [a p] [b q] Hp%elem_of_map_to_list Hq%elem_of_map_to_list E. cbn in E.
    pose proof (Hinj a b p q Hp Hq E) as <-. congruence. }
  split_and!.
  - apply Hnames. intros a b p q Hp Hq E. destruct (Hn a p Hp) as [<- _]. by destruct (Hn b q Hq) as [<- _].
  - apply Hnames. intros a b p q. apply Hl.
  - intros edges bound spec info Hok. pose proof (proxy_start_inv edges bound spec running) as Hs.
    destruct (proxy_start edges bound spec running) as [running' r]. cbn in Hok |- *. subst r.
    destruct Hs as (Hb & Ename & Htrim & Hin & Hfree & Hdist & ->). rewrite Ename. split_and!; [done..| | |].
    + intros other. rewrite !elem_of_proxy_list. setoid_rewrite lookup_insert_Some. split.
      * intros (n & p & [[<- <-]|[_ Hp]] & <-); [by left|right; eauto].
      * intros [->|(n & p & Hp & <-)]; [by exists (ps_name spec); eauto|]. exists n, p. split; [|done].
        right. split; [congruence|done].
    + intros (other & E & (n & p & Hp & <-)%elem_of_proxy_list)%list_elem_of_fmap.
      destruct (Hn n p Hp) as [Enp _]. rewrite <- E in Enp. congruence.
    + intros (other & E & (n & p & Hp & <-)%elem_of_proxy_list)%list_elem_of_fmap. by apply (Hdist n p Hp).
  - intros name Hok other. unfold proxy_stop, mbind, handler_bind, get, lift in *. cbn in *.
    destruct (running !! name) as [p|] eqn:Ep; cbn in *; [|done]. rewrite !elem_of_proxy_list.
    setoid_rewrite lookup_delete_Some. split.
    + intros (n & q & [Hne Hq] & <-). split; [by eauto|]. by destruct (Hn n q Hq) as [-> _].
    + intros [(n & q & Hq & <-) Hne]. destruct (Hn n q Hq) as [E _]. exists n, q. split_and!; [congruence|done..].
  - intros name p. apply failed_proxy_blocks.
Qed.

(** ** UDP end to end *)

Section UdpFacts.
Context `{IpText, SocksPackets}.

(** The packets that frames carry *)
Definition carried (frames : list Frame) : list ProxyDatagram :=
  omap (fun f => match decode_proxy_datagram (payload f) with Ok d => Some d | Err _ => None end) frames.

Definition su_bytes (events : list SocksUdpEvent) : bytes :=
  concat (omap (fun event => match event with SuEdgeSent chunk => Some chunk | _ => None end) events).
Definition eu_bytes (events : list EdgeUdpEvent) : bytes :=
  concat (omap (fun event => match event with EuClientSent chunk => Some chunk | _ => None end) events).

Lemma carried_app fs gs : carried (fs ++ gs) = (carried fs ++ carried gs)%list.
Proof. apply omap_app. Qed.

(** What the Rust types say of a packet: ports are 16-bit and names are UTF-8. *)
Definition target_wf (t : TargetAddr) : Prop :=
  match t with
  | TargetIp address => 0 <= sa_port address <= u16_max
  | TargetDomain host port => utf8_valid (as_bytes host) = true /\ 0 <= port <= u16_max
  end.
Class SocksPacketsLaws : Prop := {
  parsed_target_wf : forall packet fragment target payload,
    parse_udp_request packet = Some (fragment, target, payload) -> target_wf target;
}.
Context `{!IpTextLaws, !SocksPacketsLaws}.

(** A packet that is framed is the packet that the frame carries. *)
Lemma carried_own datagram encoded :
  encode_proxy_datagram datagram = Ok encoded -> datagram_wf datagram ->
  carried [{| tag := Data; payload := encoded |}] = [datagram].
Proof. intros He Hw. unfold carried. cbn. by rewrite (proj2 (decode_exact datagram encoded) (conj He Hw)). Qed.

Lemma proxy_target_wf target payload :
  target_wf target -> datagram_wf {| dg_target := proxy_target target; dg_payload := payload |}.
Proof.
  destruct target as [address|h p]; cbn; [|done]. intros Hp. split; [|done]. apply ip_to_string_ascii.
Qed.

(** The daemon's side: what it has sent are the accepted packets of one client
    address, and what it has delivered went to this address. *)
Definition from_client (client_ip : IpAddr) (events : list SocksUdpEvent) (addr : option SocketAddr) (d : ProxyDatagram) : Prop :=
  exists source packet written target, ClientPacket source packet written ∈ events /\ addr = Some source /\ sa_ip source = client_ip /\
    parse_udp_request packet = Some (0, target, dg_payload d) /\ dg_target d = proxy_target target.

Record socks_udp_ok (client_ip : IpAddr) (events : list SocksUdpEvent) (arrived : bytes) (su : SocksUdp) : Prop := {
  so_sent : exists ws, carried ws = su_forwarded su /\ sending (su_sent su) (su_phase su = UdpLoop) ws;
  so_forwarded : Forall (from_client client_ip events (su_client_addr su)) (su_forwarded su);
  so_addr : forall addr, su_client_addr su = Some addr -> sa_ip addr = client_ip;
  so_delivered : Forall2 (fun answer d => su_client_addr su = Some answer.1 /\ exists frame, su_response frame = Ok (d, answer.2))
                   (su_delivered su) (su_answers su);
  so_answers : su_lost su = false -> exists fs, su_answers su `sublist_of` carried fs /\
    receiving arrived (su_edge su) (su_phase su = UdpLoop) fs;
}.

Lemma from_client_mono client_ip events event (known known' : option SocketAddr) d :
  (forall addr, known = Some addr -> known' = Some addr) ->
  from_client client_ip events known d -> from_client client_ip (events ++ [event]) known' d.
Proof.
  intros Hk (source & packet & written & target & Hin & Hs & Hrest). exists source, packet, written, target.
  split; [set_solver|]. split; [by apply Hk|done].
Qed.

(** A step that neither forwards nor delivers *)
Lemma socks_udp_frame client_ip events event arrived more su su' :
  socks_udp_ok client_ip events arrived su ->
  (su_sent su', su_forwarded su', su_delivered su', su_answers su') =
    (su_sent su, su_forwarded su, su_delivered su, su_answers su) ->
  (forall addr, su_client_addr su = Some addr -> su_client_addr su' = Some addr) ->
  (forall addr, su_client_addr su' = Some addr -> sa_ip addr = client_ip) ->
  (su_phase su' = UdpLoop -> su_phase su = UdpLoop) ->
  (su_lost su' = false -> su_lost su = false /\ (su_phase su' = UdpLoop ->
     forall fs, reads arrived (su_edge su) fs -> reads (arrived ++ more) (su_edge su') fs)) ->
  socks_udp_ok client_ip (events ++ [event]) (arrived ++ more) su'.
Proof.
  intros [(ws & Hc & Hs) Hf Ha Hd Hans] [= E1 E2 E3 E4] Hk Hk' Hph Hl. split; rewrite ?E1, ?E2, ?E3, ?E4.
  - exists ws. split; [done|]. by eapply sending_mono.
  - eapply Forall_impl; [done|]. intros d. by apply from_client_mono.
  - done.
  - eapply Forall2_impl; [done|]. intros answer d [Hx Hy]. split; [by apply Hk|done].
  - intros Hlost. destruct (Hl Hlost) as [Hl' Hr]. destruct (Hans Hl') as (fs & Hsub & Hrec).
    exists fs. split; [done|]. eapply receiving_mono; [done|]. intros Hp. split; [by apply Hph|by apply Hr].
Qed.

Lemma socks_udp_same client_ip events event arrived su su' :
  socks_udp_ok client_ip events arrived su ->
  (su_sent su', su_forwarded su', su_delivered su', su_answers su') =
    (su_sent su, su_forwarded su, su_delivered su, su_answers su) ->
  su_client_addr su' = su_client_addr su ->
  (su_phase su' = UdpLoop -> su_phase su = UdpLoop) ->
  (su_lost su' = false -> su_lost su = false /\ (su_phase su' = UdpLoop ->
     forall fs, reads arrived (su_edge su) fs -> reads arrived (su_edge su') fs)) ->
  socks_udp_ok client_ip (events ++ [event]) (arrived ++ []) su'.
Proof.
  intros Hok E Ec Hp Hl. eapply socks_udp_frame; [done|done| | |done|].
  - intros addr. by rewrite Ec.
  - intros addr. rewrite Ec. by apply (so_addr _ _ _ _ Hok).
  - intros Hlost. destruct (Hl Hlost) as [? Hr]. split; [done|]. intros Hph fs Hfs. rewrite app_nil_r. by apply Hr.
Qed.

Lemma lost_drop (lost mid : bool) : (lost || mid)%bool = false -> lost = false /\ mid = false.
Proof. apply orb_false_elim. Qed.

Lemma socks_udp_drop client_ip events event arrived su :
  socks_udp_ok client_ip events arrived su -> socks_udp_ok client_ip (events ++ [event]) (arrived ++ []) (su_drop su).
Proof.
  intros Hok. eapply socks_udp_same; [done..|]. cbn. intros [Hl Hm]%lost_drop. split; [done|].
  intros _ fs. by apply reads_abandon.
Qed.

Lemma socks_udp_know client_ip events event arrived source su :
  socks_udp_ok client_ip events arrived su -> foreign client_ip (su_client_addr su) source = false ->
  socks_udp_ok client_ip (events ++ [event]) (arrived ++ []) (su_know source (su_drop su)) /\
  su_client_addr (su_know source su) = Some source /\ sa_ip source = client_ip.
Proof.
  unfold foreign. intros Hok [Hip Hk]%orb_false_elim. apply negb_false_iff, bool_decide_eq_true in Hip.
  assert (su_client_addr (su_know source su) = Some source) as Hs.
  { cbn. destruct (su_client_addr su) as [addr|]; cbn; [|done]. by apply negb_false_iff, bool_decide_eq_true in Hk as ->. }
  split; [|done]. eapply socks_udp_frame; [done|done| | |done|].
  - intros addr. cbn in *. rewrite Hs. destruct (su_client_addr su); cbn in *; congruence.
  - intros addr. change (su_client_addr (su_know source su) = Some addr -> sa_ip addr = client_ip). rewrite Hs.
    by intros [= <-].
  - cbn. intros [Hl Hm]%lost_drop. split; [done|]. intros _ fs. rewrite app_nil_r. by apply reads_abandon.
Qed.

Lemma socks_udp_forward client_ip events arrived source packet written target payload encoded bs su :
  socks_udp_ok client_ip events arrived su -> su_phase su = UdpLoop ->
  ClientPacket source packet written ∈ events -> su_client_addr su = Some source -> sa_ip source = client_ip ->
  parse_udp_request packet = Some (0, target, payload) ->
  let datagram := {| dg_target := proxy_target target; dg_payload := payload |} in
  encode_proxy_datagram datagram = Ok encoded -> write_frame Data encoded = Ok bs ->
  socks_udp_ok client_ip events arrived (write_ends written su_set_phase (su_forward datagram (wire written bs) su)).
Proof.
  intros [(ws & Hc & Hs) Hf Ha Hd Hans] Hl Hin Hk Hip Hp datagram He Hw.
  pose proof (proxy_target_wf _ payload (parsed_target_wf _ _ _ _ Hp)) as Hwf.
  assert (forall phase, (phase = UdpLoop -> written = All) ->
    socks_udp_ok client_ip events arrived (su_set_phase phase (su_forward datagram (wire written bs) su))) as Hgen.
  { intros phase Hph. split; cbn; [| |done|done|].
    - exists (ws ++ [{| tag := Data; payload := encoded |}])%list. rewrite carried_app, (carried_own datagram) by done.
      split; [by rewrite Hc|]. by eapply sending_snoc.
    - apply Forall_app. split; [done|]. apply Forall_singleton. by exists source, packet, written, target.
    - intros Hlost. destruct (Hans Hlost) as (fs & Hsub & Hrec). exists fs. split; [done|].
      eapply receiving_same; [done|]. done. }
  destruct written; [|by apply Hgen].
  replace (write_ends All su_set_phase (su_forward datagram (wire All bs) su))
    with (su_set_phase UdpLoop (su_forward datagram (wire All bs) su)); [by apply Hgen|].
  cbn. unfold su_set_phase, su_forward. cbn. by rewrite Hl.
Qed.

Lemma socks_udp_packet client_ip events arrived source packet written su :
  socks_udp_ok client_ip events arrived su -> su_phase su = UdpLoop ->
  socks_udp_ok client_ip (events ++ [ClientPacket source packet written]) (arrived ++ [])
    (su_packet_step client_ip source packet written (su_drop su)).
Proof.
  intros Hok Hl. unfold su_packet_step. cbn [su_drop su_client_addr].
  destruct (foreign _ _ _) eqn:Ef; [by apply socks_udp_drop|].
  destruct (socks_udp_know _ _ (ClientPacket source packet written) arrived source su Hok Ef) as (Hok' & Hk & Hip).
  cbv zeta. set (su' := su_know source (su_drop su)) in *.
  assert (forall e, socks_udp_ok client_ip (events ++ [ClientPacket source packet written]) (arrived ++ [])
    (su_set_phase (UdpFailed e) su')) as Hfail.
  { intros e. destruct Hok' as [(ws & Hc & Hs) Hf Ha Hd Hans]. split; [|done..|]; cbn in *.
    - exists ws. split; [done|]. by eapply sending_mono.
    - intros Hlost. destruct (Hans Hlost) as (fs & ? & ?). exists fs. split; [done|]. by eapply receiving_same. }
  destruct (parse_udp_request packet) as [[[fragment target] payload]|] eqn:Ep; [|done].
  destruct (Z.eqb_spec fragment 0) as [->|]; [|done].
  destruct (encode_proxy_datagram _) as [encoded|e] eqn:He; cbn [mbind result_bind]; [|apply Hfail].
  destruct (write_frame Data encoded) as [bs|e] eqn:Hw; [|apply Hfail].
  eapply socks_udp_forward; try done. set_solver.
Qed.

Lemma su_response_inv frame d packet :
  su_response frame = Ok (d, packet) ->
  decode_proxy_datagram frame = Ok d /\ exists ip header, ip_parse (host (dg_target d)) = Some ip /\
    new_udp_header {| sa_ip := ip; sa_port := port (dg_target d) |} = Ok header /\
    packet = (header ++ dg_payload d)%list.
Proof.
  unfold su_response. intros Hr. run_ok. split; [done|]. eexists _, _. split_and!; done.
Qed.

(** A frame of the Edge that is passed over, and one that is delivered *)
Lemma socks_udp_ready client_ip events event arrived f edge su :
  socks_udp_ok client_ip events arrived su -> su_phase su = UdpLoop -> poll MAX_FRAME (su_edge su) = (Ready f, edge) ->
  socks_udp_ok client_ip (events ++ [event]) (arrived ++ []) (su_set_edge edge su) /\
  forall addr d packet, su_client_addr su = Some addr -> su_response (payload f) = Ok (d, packet) ->
    socks_udp_ok client_ip (events ++ [event]) (arrived ++ []) (su_deliver addr packet d (su_set_edge edge su)).
Proof.
  intros [(ws & Hc & Hs) Hf Ha Hd Hans] Hl Hp.
  assert (Forall (from_client client_ip (events ++ [event]) (su_client_addr su)) (su_forwarded su)) as Hf'.
  { eapply Forall_impl; [done|]. intros d. by apply from_client_mono. }
  assert (forall fs, receiving arrived (su_edge su) (su_phase su = UdpLoop) fs ->
    receiving (arrived ++ []) edge (su_phase su = UdpLoop) (fs ++ [f])) as Hrec.
  { intros fs [_ Hr]. apply reads_receiving. rewrite app_nil_r. eapply reads_Ready; [by apply Hr|done]. }
  split; [|intros addr d packet Hk Hresp]; split; cbn; try done; [by exists ws| |by exists ws| |].
  - intros Hlost. destruct (Hans Hlost) as (fs & Hsub & Hr). exists (fs ++ [f])%list.
    split; [|by apply Hrec]. rewrite carried_app. by apply sublist_inserts_r.
  - apply Forall2_app; [done|]. constructor; [|done]. split; [done|]. by exists (payload f).
  - intros Hlost. destruct (Hans Hlost) as (fs & Hsub & Hr). exists (fs ++ [f])%list.
    split; [|by apply Hrec]. rewrite carried_app. apply sublist_app; [done|].
    unfold carried. cbn. by rewrite (proj1 (su_response_inv _ _ _ Hresp)).
Qed.

Lemma socks_udp_frame_step client_ip events arrived sent su :
  socks_udp_ok client_ip events arrived su -> su_phase su = UdpLoop ->
  socks_udp_ok client_ip (events ++ [SuEdgeFrame sent]) (arrived ++ []) (su_frame_step sent su).
Proof.
  intros Hok Hl. unfold su_frame_step. destruct (poll MAX_FRAME (su_edge su)) as [polled edge] eqn:Hp. cbv zeta.
  assert (forall phase, phase <> UdpLoop ->
    socks_udp_ok client_ip (events ++ [SuEdgeFrame sent]) (arrived ++ []) (su_set_phase phase (su_set_edge edge su))) as Hend.
  { intros phase Hph. eapply socks_udp_same; [done..|]. cbn. intros Hlost. split; [done|]. by intros. }
  destruct polled as [r|f| |e]; [|..|by apply Hend|by apply Hend].
  - eapply socks_udp_same; [done..|]. cbn. intros Hlost. split; [done|]. intros _ fs Hr. by eapply reads_Pending.
  - destruct (socks_udp_ready _ _ (SuEdgeFrame sent) _ _ _ _ Hok Hl Hp) as [Hskip Hdel].
    destruct f as [[] p]; try by apply Hend. cbn [su_set_edge su_client_addr].
    destruct (su_client_addr su) as [addr|] eqn:Hk; [|done].
    destruct (su_response p) as [[d packet]|e] eqn:Hr; cbn [mbind result_bind]; [|by apply Hend].
    destruct sent as [[]|e]; cbn [mbind result_bind]; [|by apply Hend]. by apply Hdel.
Qed.

Lemma socks_udp_run client_ip events : socks_udp_ok client_ip events (su_bytes events) (serve_socks_udp client_ip events).
Proof.
  induction events as [|event events IH] using rev_ind.
  { split; cbn.
    - exists []. split; [done|]. apply sending_start.
    - apply Forall_nil_2.
    - done.
    - apply Forall2_nil_2.
    - intros _. exists []. split; [done|]. apply receiving_start. }
  unfold serve_socks_udp in *. rewrite fold_left_app. cbn [fold_left].
  set (su := fold_left _ events _) in *. unfold su_bytes in *. rewrite omap_app, concat_app. cbn [omap list_omap concat].
  unfold socks_udp_step. destruct (su_phase su) eqn:Hl; cycle 1.
  1,2: eapply socks_udp_frame; [done..|by apply (so_addr _ _ _ _ IH)| |]; by rewrite ?Hl.
  destruct event; cbn [concat]; rewrite ?app_nil_r.
  all: try rewrite <- (app_nil_r (concat _)).
  - by apply socks_udp_drop.
  - by eapply socks_udp_same.
  - by apply socks_udp_packet.
  - by eapply socks_udp_same.
  - rewrite app_nil_r. eapply socks_udp_frame; [done..|by apply (so_addr _ _ _ _ IH)|done|]. cbn.
    intros Hlost. split; [done|]. intros _ fs. apply reads_arrive.
  - eapply socks_udp_same; [done..|]. cbn. intros Hlost. split; [done|]. intros _ fs. apply reads_close.
  - by apply socks_udp_frame_step.
Qed.

(** The Edge's side: what it has sent are packets from the network, and what it
    handled is what the frames of the daemon carry. *)
Definition from_network (events : list EdgeUdpEvent) (source : SocketAddr) (d : ProxyDatagram) : Prop :=
  (exists written, NetPacket source (dg_payload d) written ∈ events) /\
  dg_target d = {| host := ip_to_string (sa_ip source); port := sa_port source |}.

(** [SocketAddr] has 16-bit ports. *)
Definition net_ports (events : list EdgeUdpEvent) : Prop :=
  forall source payload written, NetPacket source payload written ∈ events -> 0 <= sa_port source <= u16_max.

Record edge_udp_ok (events : list EdgeUdpEvent) (arrived : bytes) (eu : EdgeUdp) : Prop := {
  eo_sent : exists ws, carried ws = eu_received eu /\ sending (eu_sent eu) (eu_phase eu = UdpLoop) ws;
  eo_received : Forall (fun d => exists source, from_network events source d) (eu_received eu);
  eo_handled : eu_lost eu = false -> exists fs, carried fs = (eu_handled eu).*2 /\
    receiving arrived (eu_client eu) (eu_phase eu = UdpLoop) fs;
}.

Lemma from_network_mono events event source d :
  from_network events source d -> from_network (events ++ [event]) source d.
Proof. intros [[written Hin] Ht]. split; [|done]. exists written. set_solver. Qed.

Lemma eo_received_mono events event eu :
  Forall (fun d => exists source, from_network events source d) (eu_received eu) ->
  Forall (fun d => exists source, from_network (events ++ [event]) source d) (eu_received eu).
Proof. intros Hr. eapply Forall_impl; [done|]. intros d (source & Hd). exists source. by apply from_network_mono. Qed.

(** A step that neither handles nor answers *)
Lemma edge_udp_frame events event arrived more eu eu' :
  edge_udp_ok events arrived eu ->
  (eu_sent eu', eu_handled eu', eu_received eu') = (eu_sent eu, eu_handled eu, eu_received eu) ->
  (eu_phase eu' = UdpLoop -> eu_phase eu = UdpLoop) ->
  (eu_lost eu' = false -> eu_lost eu = false /\ (eu_phase eu' = UdpLoop ->
     forall fs, reads arrived (eu_client eu) fs -> reads (arrived ++ more) (eu_client eu') fs)) ->
  edge_udp_ok (events ++ [event]) (arrived ++ more) eu'.
Proof.
  intros [(ws & Hc & Hs) Hr Hh] [= E1 E2 E3] Hph Hl. split; rewrite ?E1, ?E2, ?E3.
  - exists ws. split; [done|]. by eapply sending_mono.
  - by apply eo_received_mono.
  - intros Hlost. destruct (Hl Hlost) as [Hl' Hrd]. destruct (Hh Hl') as (fs & Hfs & Hrec).
    exists fs. split; [done|]. eapply receiving_mono; [done|]. intros Hp. split; [by apply Hph|by apply Hrd].
Qed.

Lemma edge_udp_same events event arrived eu eu' :
  edge_udp_ok events arrived eu ->
  (eu_sent eu', eu_handled eu', eu_received eu') = (eu_sent eu, eu_handled eu, eu_received eu) ->
  (eu_phase eu' = UdpLoop -> eu_phase eu = UdpLoop) ->
  (eu_lost eu' = false -> eu_lost eu = false /\ (eu_phase eu' = UdpLoop ->
     forall fs, reads arrived (eu_client eu) fs -> reads arrived (eu_client eu') fs)) ->
  edge_udp_ok (events ++ [event]) arrived eu'.
Proof.
  intros Hok E Hp Hl. rewrite <- (app_nil_r arrived). eapply edge_udp_frame; [done..|].
  intros Hlost. destruct (Hl Hlost) as [? Hr]. split; [done|]. intros Hph fs Hfs. rewrite app_nil_r. by apply Hr.
Qed.

Lemma edge_udp_packet events arrived source payload written eu :
  edge_udp_ok events arrived eu -> eu_phase eu = UdpLoop -> 0 <= sa_port source <= u16_max ->
  edge_udp_ok (events ++ [NetPacket source payload written]) arrived (eu_packet_step source payload written (eu_drop eu)).
Proof.
  intros Hok Hl Hport. unfold eu_packet_step. cbv zeta. set (event := NetPacket source payload written).
  set (datagram := {| dg_target := _; dg_payload := payload |}).
  assert (edge_udp_ok (events ++ [event]) arrived (eu_drop eu)) as [(ws & Hc & Hs) Hr Hh].
  { eapply edge_udp_same; [done..|]. cbn. intros [Hlost Hm]%lost_drop. split; [done|]. intros _ fs. by apply reads_abandon. }
  assert (forall phase, phase <> UdpLoop -> edge_udp_ok (events ++ [event]) arrived (eu_set_phase phase (eu_drop eu))) as Hend.
  { intros phase Hph. split; cbn; [|done|].
    - exists ws. split; [done|]. by eapply sending_mono.
    - intros Hlost. destruct (Hh Hlost) as (fs & ? & ?). exists fs. split; [done|]. by eapply receiving_same. }
  destruct (encode_proxy_datagram datagram) as [encoded|e] eqn:He; cbn [mbind result_bind]; [|by apply Hend].
  destruct (write_frame Data encoded) as [bs|e] eqn:Hw; [|by apply Hend].
  assert (datagram_wf datagram) as Hwf by (split; [apply ip_to_string_ascii|done]).
  assert (forall phase, (phase = UdpLoop -> written = All) ->
    edge_udp_ok (events ++ [event]) arrived (eu_set_phase phase (eu_answer datagram (wire written bs) (eu_drop eu)))) as Hgen.
  { intros phase Hph. split; cbn.
    - exists (ws ++ [{| tag := Data; Transport.payload := encoded |}])%list. rewrite carried_app, (carried_own datagram) by done.
      cbn in Hc. split; [by rewrite Hc|]. by eapply sending_snoc.
    - apply Forall_app. split; [done|]. apply Forall_singleton. exists source. split; [|done]. exists written. set_solver.
    - intros Hlost. destruct (Hh Hlost) as (fs & ? & ?). exists fs. split; [done|]. by eapply receiving_same. }
  destruct written; [|by apply Hgen].
  replace (write_ends All eu_set_phase (eu_answer datagram (wire All bs) (eu_drop eu)))
    with (eu_set_phase UdpLoop (eu_answer datagram (wire All bs) (eu_drop eu))); [by apply Hgen|].
  cbn. unfold eu_set_phase, eu_answer, eu_drop. cbn. by rewrite Hl.
Qed.

Lemma edge_udp_frame_step ipv6 events arrived lookup send eu :
  edge_udp_ok events arrived eu -> eu_phase eu = UdpLoop ->
  edge_udp_ok (events ++ [EuClientFrame lookup send]) arrived (eu_frame_step ipv6 lookup send eu).
Proof.
  intros Hok Hl. unfold eu_frame_step. destruct (poll MAX_FRAME (eu_client eu)) as [polled client] eqn:Hp. cbv zeta.
  assert (forall phase, phase <> UdpLoop ->
    edge_udp_ok (events ++ [EuClientFrame lookup send]) arrived (eu_set_phase phase (eu_set_client client eu))) as Hend.
  { intros phase Hph. eapply edge_udp_same; [done..|]. cbn. intros Hlost. split; [done|]. by intros. }
  destruct polled as [r|f| |e]; [|..|by apply Hend|by apply Hend].
  { eapply edge_udp_same; [done..|]. cbn. intros Hlost. split; [done|]. intros _ fs Hr. by eapply reads_Pending. }
  destruct f as [[] p]; try by apply Hend.
  destruct (mbind _ _) as [[addr d]|e] eqn:Hd; [|by apply Hend].
  run_ok. destruct Hok as [(ws & Hc & Hs) Hr Hh]. split; cbn.
  - by exists ws.
  - by apply eo_received_mono.
  - intros Hlost. destruct (Hh Hlost) as (fs & Hfs & [_ Hrec]). eexists (fs ++ [_])%list.
    split; [|by eapply reads_receiving, reads_Ready; [apply Hrec|]].
    rewrite carried_app, Hfs, fmap_app. f_equal. unfold carried. cbn.
    by match goal with E : decode_proxy_datagram _ = _ |- _ => rewrite E end.
Qed.

Lemma edge_udp_run ipv6 events : net_ports events -> edge_udp_ok events (eu_bytes events) (serve_udp ipv6 events).
Proof.
  induction events as [|event events IH] using rev_ind; intros Hports.
  { split; cbn.
    - exists []. split; [done|]. apply sending_start.
    - apply Forall_nil_2.
    - intros _. exists []. split; [done|]. apply receiving_start. }
  assert (net_ports events) as Hp. { intros source payload written Hin. apply (Hports source payload written). set_solver. }
  specialize (IH Hp). unfold serve_udp in *. rewrite fold_left_app. cbn [fold_left].
  set (eu := fold_left _ events _) in *. unfold eu_bytes in *. rewrite omap_app, concat_app. cbn [omap list_omap concat].
  unfold edge_udp_step. destruct (eu_phase eu) eqn:Hl; cycle 1.
  1,2: eapply edge_udp_frame; [done..| |]; by rewrite ?Hl.
  destruct event; cbn [concat]; rewrite ?app_nil_r.
  - eapply edge_udp_frame; [done..|]. cbn. intros Hlost. split; [done|]. intros _ fs. apply reads_arrive.
  - eapply edge_udp_same; [done..|]. cbn. intros Hlost. split; [done|]. intros _ fs. apply reads_close.
  - by apply edge_udp_frame_step.
  - apply edge_udp_packet; [done..|]. apply (Hports source payload written). set_solver.
  - by eapply edge_udp_same.
Qed.

Lemma carried_prefix fs gs : fs `prefix_of` gs -> carried fs `prefix_of` carried gs.
Proof. intros [k ->]. rewrite carried_app. by eexists. Qed.

End UdpFacts.
