(* ===== verification/RelayTable.v ===== *)
(** * Relay tables of an endpoint (src/crates/transport/src/lib.rs)

    Clients and Edges keep, for the relays they know by URL text, the
    configuration installed in the iroh endpoint, which knows them by parsed URL.
    The lemmas say what installing the changed entries of a new table and removing
    the missing ones leaves in the endpoint. *)
From S2P Require Import Prelude Deps.
Open Scope string_scope.
Open Scope Z_scope.

(** [iroh::RelayUrl] and [iroh::RelayConfig]: an endpoint keeps one configuration
    per URL. *)
Record RelayConfig := { quic_port : option Z; auth_token : option string }.

Class RelayUrls := {
  RelayUrl : Type;
  RelayUrl_eq :: EqDecision RelayUrl;
  RelayUrl_countable :: Countable RelayUrl;
  relay_url_parse : string -> result string RelayUrl;
  (** [RelayMode::Default.relay_map().urls()] *)
  default_relay_urls : list RelayUrl;
  (** [RelayConfig::from(url)] *)
  relay_config_from : RelayUrl -> RelayConfig;
}.

(** [managed_relay_config] of src/crates/transport/src/lib.rs *)
Definition managed_relay_config (qad_port : option Z) (credential : option string) : RelayConfig :=
  {| quic_port := qad_port; auth_token := credential |}.

(** [collect()] into a [HashMap]: a later entry replaces an earlier one. *)
Definition hash_map {A} (entries : list (string * A)) : gmap string A :=
  fold_left (fun m entry => <[entry.1 := entry.2]> m) entries ∅.

Section RelayTable.
Context `{RelayUrls}.

Definition relay_urls_or_default (values : list string) : result string (list RelayUrl) :=
  match values with
  | [] => Ok default_relay_urls
  | _ => collect relay_url_parse values
  end.

(** The loop that removes the relays [values] *)
Fixpoint remove_relays (values : list string) (relays : gmap RelayUrl RelayConfig)
  : gmap RelayUrl RelayConfig :=
  match values with
  | [] => relays
  | value :: values =>
      remove_relays values
        (match relay_url_parse value with Ok url => delete url relays | Err _ => relays end)
  end.


(** ** What a table says of the endpoint *)

(** [config_of] is the configuration for a value of the table. *)
Context {X : Type} (config_of : X -> RelayConfig).

(** Different relays of a map have different URLs, also after parsing. *)
Definition urls_apart (values : gset string) : Prop :=
  forall v v' url, v ∈ values -> v' ∈ values ->
    relay_url_parse v = Ok url -> relay_url_parse v' = Ok url -> v = v'.

Definition urls_parse (values : gset string) : Prop :=
  forall v, v ∈ values -> exists url, relay_url_parse v = Ok url.

(** The endpoint has exactly the relays of [current]. *)
Definition relays_match (relays : gmap RelayUrl RelayConfig) (current : gmap string X) : Prop :=
  forall url config, relays !! url = Some config <->
    exists value x, current !! value = Some x /\ relay_url_parse value = Ok url /\ config = config_of x.

Definition installed_relays (entries : list (string * X))
  (relays : gmap RelayUrl RelayConfig) : gmap RelayUrl RelayConfig :=
  fold_left (fun relays entry => match relay_url_parse entry.1 with
    | Ok url => <[url := config_of entry.2]> relays
    | Err _ => relays
    end) entries relays.

Lemma installed_relays_out entries relays url :
  (forall entry, entry ∈ entries -> relay_url_parse entry.1 <> Ok url) ->
  installed_relays entries relays !! url = relays !! url.
Proof.
  unfold installed_relays. revert relays. induction entries as [|e entries IH]; intros relays Hn; [done|]. cbn.
  rewrite IH by (intros e' He'; apply Hn; by right).
  destruct (relay_url_parse e.1) as [u|] eqn:Hu; [|done].
  apply lookup_insert_ne. intros ->. apply (Hn e); [apply list_elem_of_here|done].
Qed.

Lemma installed_relays_in entries relays url entry :
  urls_apart (list_to_set entries.*1) -> NoDup entries.*1 ->
  entry ∈ entries -> relay_url_parse entry.1 = Ok url ->
  installed_relays entries relays !! url = Some (config_of entry.2).
Proof.
  unfold installed_relays. revert relays. induction entries as [|e entries IH]; intros relays Ha Hn He Hu.
  { by apply elem_of_nil in He. }
  cbn in Hn. apply NoDup_cons in Hn as [Hk Hn]. cbn. apply elem_of_cons in He as [->|He].
  - rewrite Hu. fold (installed_relays entries (<[url := config_of e.2]> relays)).
    rewrite installed_relays_out; [apply lookup_insert_eq|].
    intros e' He' Hu'. apply Hk.
    assert (E : e.1 = e'.1) by (apply (Ha e.1 e'.1 url); [set_solver|cbn; rewrite elem_of_union, elem_of_list_to_set; right; by apply list_elem_of_fmap_2|done..]).
    rewrite E. by apply list_elem_of_fmap_2.
  - apply IH; [|done..]. intros v v' u Hv Hv'. apply Ha; cbn; set_solver.
Qed.

Lemma lookup_remove_relays values relays url config :
  remove_relays values relays !! url = Some config <->
  relays !! url = Some config /\ forall v, v ∈ values -> relay_url_parse v <> Ok url.
Proof.
  revert relays. induction values as [|v values IH]; intros relays; cbn.
  { split; [intros Hr; split; [done|set_solver]|by intros []]. }
  rewrite IH. destruct (relay_url_parse v) as [u|] eqn:Hu.
  - rewrite lookup_delete_Some. split.
    + intros [[Hne Hr] Hv]. split; [done|]. intros v' [->|Hv']%elem_of_cons; [congruence|by apply Hv].
    + intros [Hr Hv]. split; [split; [|done]|].
      * intros ->. apply (Hv v); [apply list_elem_of_here|done].
      * intros v' Hv'. apply Hv. by right.
  - split.
    + intros [Hr Hv]. split; [done|]. intros v' [->|Hv']%elem_of_cons; [congruence|by apply Hv].
    + intros [Hr Hv]. split; [done|]. intros v' Hv'. apply Hv. by right.
Qed.

Lemma dom_hash_map {A} (entries : list (string * A)) (m : gmap string A) :
  dom (fold_left (fun m entry => <[entry.1 := entry.2]> m) entries m) = list_to_set entries.*1 ∪ dom m.
Proof.
  revert m. induction entries as [|e entries IH]; intros m; cbn; [set_solver|]. rewrite IH. set_solver.
Qed.

Lemma relays_match_insert relays current value url x :
  relays_match relays current -> relay_url_parse value = Ok url ->
  urls_apart (dom current ∪ {[value]}) ->
  relays_match (<[url := config_of x]> relays) (<[value := x]> current).
Proof.
  intros Hm Hu Ha u config. rewrite lookup_insert_Some. split.
  - intros [[<- <-]|[Hne Hr]].
    + exists value, x. by rewrite lookup_insert_eq.
    + apply Hm in Hr as (v & y & Hy & Hv & ->). exists v, y.
      rewrite lookup_insert_ne; [done|]. intros ->. congruence.
  - intros (v & y & Hy & Hv & ->). apply lookup_insert_Some in Hy as [[<- <-]|[Hne Hy]].
    + left. by split; [congruence|].
    + right. split; [|apply Hm; by exists v, y]. intros ->. apply Hne.
      apply (Ha value v u); [set_solver| |done..]. apply elem_of_union_l, elem_of_dom. by exists y.
Qed.

Lemma relays_match_empty : relays_match ∅ ∅.
Proof.
  intros url config. rewrite lookup_empty. split; [done|]. intros (v & x & Hx & _). by rewrite lookup_empty in Hx.
Qed.

Lemma relays_match_same relays relays' current :
  relays_match relays current -> relays_match relays' current -> relays = relays'.
Proof. intros Hm Hm'. apply map_eq. intros url. apply option_eq. intros config. by rewrite (Hm url), (Hm' url). Qed.


(** The order in which a [HashMap] is visited *)
Section Visited.
Context (visit : gmap string X -> list (string * X)).
Hypothesis visit_all : forall m, visit m ≡ₚ map_to_list m.

Lemma visit_elem m value x : (value, x) ∈ visit m <-> m !! value = Some x.
Proof. rewrite visit_all. apply elem_of_map_to_list. Qed.

Lemma visit_keys m : NoDup (visit m).*1.
Proof. rewrite visit_all. apply NoDup_fst_map_to_list. Qed.

Lemma visit_dom m : list_to_set (visit m).*1 = dom m.
Proof.
  apply set_eq. intros v. rewrite elem_of_list_to_set, elem_of_dom, list_elem_of_fmap. split.
  - intros ([k x] & -> & Hx%visit_elem). by exists x.
  - intros [x Hx%visit_elem]. by exists (v, x).
Qed.

Lemma relays_match_next relays current next :
  relays_match relays current -> urls_parse (dom next) -> urls_apart (dom current ∪ dom next) ->
  relays_match
    (remove_relays (Vec.retain (fun value => next !! value == None) (visit current).*1)
       (installed_relays (visit next) relays)) next.
Proof.
  intros Hm Hp Ha url config. rewrite lookup_remove_relays.
  assert (Ha' : urls_apart (list_to_set (visit next).*1)).
  { rewrite visit_dom. intros v v' u Hv Hv'. apply Ha; set_solver. }
  assert (Hin : forall value x, next !! value = Some x -> relay_url_parse value = Ok url ->
    installed_relays (visit next) relays !! url = Some (config_of x)).
  { intros value x Hx Hu. apply (installed_relays_in (visit next) relays url (value, x));
      [done|apply visit_keys|by apply visit_elem|done]. }
  split.
  - intros [Hr Hv]. destruct (decide (Exists (fun e => relay_url_parse e.1 = Ok url) (visit next))) as [He|He].
    + apply Exists_exists in He as ([value x] & He & Hu). apply visit_elem in He. cbn in Hu.
      exists value, x. rewrite (Hin value x) in Hr by done. injection Hr as <-. done.
    + rewrite installed_relays_out in Hr.
      2: { intros e He' Hu. apply He, Exists_exists. by exists e. }
      apply Hm in Hr as (value & x & Hx & Hu & ->).
      destruct (next !! value) as [y|] eqn:Hy.
      * destruct He. apply Exists_exists. exists (value, y). split; [by apply visit_elem|done].
      * destruct (Hv value); [|done]. apply Vec.elem_of_retain. rewrite bool_decide_eq_true.
        split; [|done]. apply list_elem_of_fmap. exists (value, x). split; [done|by apply visit_elem].
  - intros (value & x & Hx & Hu & ->). split; [by apply (Hin value)|].
    intros v [Hv Hn]%Vec.elem_of_retain Hu'. breflect.
    apply list_elem_of_fmap in Hv as ([k y] & -> & Hy%visit_elem). cbn in *.
    assert (value = k); [|congruence].
    apply (Ha value k url); [|apply elem_of_union_l, elem_of_dom; by exists y|done..].
    apply elem_of_union_r, elem_of_dom. by exists x.
Qed.

End Visited.
End RelayTable.
