(* ===== verification/EdgePin.v ===== *)
(** * as-edge: which Clients an Edge serves (src/crates/as-edge/src/iroh_edge.rs)

    [ClientPin] decides on every connection: a fixed Client, the first Client to
    connect (remembered in a file), or the set Control manages. It also keeps the
    connections of every Client, so that replacing the managed set closes those
    of the Clients that are gone. Each operation holds the pin's mutex and is one
    step; connections are accepted, end and are closed in any order. *)
From S2P Require Import Prelude Deps Files Transport.
Open Scope string_scope.
Open Scope Z_scope.

Section EdgePin.
Context `{Keys}.

Inductive ClientAuth :=
| Single (pinned : option EndpointId) (store : option string)
| Managed (ids : gset EndpointId).

(** A connection is named by its remote identity and its stable id. *)
Notation Connection := (EndpointId * Z)%type.

(** [ClientPinState], and around it the files and the connections this Edge has
    closed *)
Record ClientPin := {
  auth : ClientAuth;
  connections : gmap EndpointId (gset Z);
  pin_files : Fs string;
  closed : gset Connection;
}.

Implicit Types (pin : ClientPin) (remote : EndpointId) (stable_id : Z).
Notation on_pin A := (handler ClientPin string A).

Definition pin_new (auth : ClientAuth) (files : Fs string) : ClientPin := {|
  auth := auth; connections := ∅; pin_files := files; closed := ∅ |}.

Definition strict (id : EndpointId) : ClientAuth := Single (Some id) None.
Definition tofu (existing : option EndpointId) (store : string) : ClientAuth := Single existing (Some store).
Definition managed (ids : gset EndpointId) : ClientAuth := Managed ids.

Definition is_authorized (auth : ClientAuth) remote : bool :=
  match auth with
  | Single pinned _ => pinned == Some remote
  | Managed ids => bool_decide (remote ∈ ids)
  end.

Definition with_auth (auth : ClientAuth) pin : ClientPin := {|
  auth := auth; connections := connections pin; pin_files := pin_files pin; closed := closed pin |}.
Definition with_files (files : Fs string) pin : ClientPin := {|
  auth := auth pin; connections := connections pin; pin_files := files; closed := closed pin |}.
Definition with_connections connections pin : ClientPin := {|
  auth := auth pin; connections := connections; pin_files := pin_files pin; closed := closed pin |}.
Definition close (gone : gset Connection) pin : ClientPin := {|
  auth := auth pin; connections := connections pin; pin_files := pin_files pin;
  closed := closed pin ∪ gone |}.

(** The bytes of [format!("{remote}\n")] *)
Definition pin_line remote : bytes :=
  String.list_byte_of_string (id_to_string remote +:+ String "010" EmptyString).

(** The decision of [authorize_and_register], with the pin it leaves *)
Definition authorize (outcome : WriteOutcome) remote : on_pin bool := fun pin =>
  match auth pin with
  | Single (Some id) _ => (pin, Ok (id == remote))
  | Single None None => (with_auth (Single (Some remote) None) pin, Ok true)
  | Single None (Some path) =>
      match atomic_write outcome path (pin_line remote) (pin_files pin) with
      | (files, Ok _) => (with_auth (Single (Some remote) (Some path)) (with_files files pin), Ok true)
      | (files, Err e) => (with_files files pin, Err e)
      end
  | Managed ids => (pin, Ok (bool_decide (remote ∈ ids)))
  end.

Definition register remote stable_id pin : ClientPin :=
  with_connections (<[remote := default ∅ (connections pin !! remote) ∪ {[stable_id]}]> (connections pin)) pin.

Definition authorize_and_register (outcome : WriteOutcome) remote stable_id : on_pin bool :=
  authorized ← authorize outcome remote;
  modify (if authorized : bool then register remote stable_id else id);;
  mret authorized.

Definition unregister remote stable_id pin : ClientPin :=
  match connections pin !! remote with
  | None => pin
  | Some ids =>
      let ids := ids ∖ {[stable_id]} in
      with_connections (if ids == ∅ then delete remote (connections pin)
                        else <[remote := ids]> (connections pin)) pin
  end.

(** The connections registered for any of [removed] *)
Definition registered_of (removed : gset EndpointId) pin : gset Connection :=
  set_bind (fun id => set_map (pair id) (default ∅ (connections pin !! id))) removed.

Definition replace_managed (next : gset EndpointId) : on_pin unit := fun pin =>
  match auth pin with
  | Single _ _ => (pin, Err "cannot update a standalone client pin")
  | Managed current =>
      let removed := current ∖ next in
      let pin := close (registered_of removed pin) (with_auth (Managed next) pin) in
      (with_connections (filter (fun entry => entry.1 ∉ removed) (connections pin)) pin, Ok tt)
  end.

(** The start of [handle_conn], up to the first request: an unauthorized
    connection is closed; an error drops it. *)
Definition open_conn (outcome : WriteOutcome) remote stable_id : on_pin bool :=
  authorized ← authorize_and_register outcome remote stable_id;
  modify (if authorized : bool then id else close {[(remote, stable_id)]});;
  mret authorized.

(** [trusted_client] as [run_iroh_edge] reads it *)
Definition load_pin (files : Fs string) (store : string) : result string (option EndpointId) :=
  match files !! store with
  | None => Ok None
  | Some data =>
      ensure (utf8_valid data) "read trusted client";;
      id ← of_option (id_parse (Str.trim (String.string_of_list_byte data))) "invalid trusted client";
      Ok (Some id)
  end.

(** ** Any history of an Edge *)

Inductive PinEvent :=
| Connect (remote : EndpointId) (stable_id : Z) (outcome : WriteOutcome)
| Finish (remote : EndpointId) (stable_id : Z)
| Replace (next : gset EndpointId).

(** The pin and the connections with a running [handle_conn]. *)
Record Serving := { sv_pin : ClientPin; sv_conns : gset Connection }.

(** A new connection is none of those in use, and not closed. *)
Definition fresh_conn remote stable_id pin : ClientPin := {|
  auth := auth pin; connections := connections pin; pin_files := pin_files pin;
  closed := closed pin ∖ {[(remote, stable_id)]} |}.

Definition pin_step (event : PinEvent) (sv : Serving) : Serving :=
  match event with
  | Connect remote stable_id outcome =>
      if bool_decide ((remote, stable_id) ∈ sv_conns sv) then sv
      else
        match open_conn outcome remote stable_id (fresh_conn remote stable_id (sv_pin sv)) with
        | (pin, Ok true) => {| sv_pin := pin; sv_conns := sv_conns sv ∪ {[(remote, stable_id)]} |}
        | (pin, _) => {| sv_pin := pin; sv_conns := sv_conns sv |}
        end
  | Finish remote stable_id =>
      if bool_decide ((remote, stable_id) ∈ sv_conns sv)
      then {| sv_pin := unregister remote stable_id (sv_pin sv);
              sv_conns := sv_conns sv ∖ {[(remote, stable_id)]} |}
      else sv
  | Replace next => {| sv_pin := (replace_managed next (sv_pin sv)).1; sv_conns := sv_conns sv |}
  end.

Definition pin_run (events : list PinEvent) (sv : Serving) : Serving :=
  fold_left (fun sv event => pin_step event sv) events sv.

(** *** Registered connections *)

Definition registered pin remote stable_id : Prop :=
  stable_id ∈ default ∅ (connections pin !! remote).

Lemma registered_register pin r i remote stable_id :
  registered (register remote stable_id pin) r i <->
  registered pin r i \/ (r = remote /\ i = stable_id).
Proof.
  unfold registered, register; cbn. destruct (decide (r = remote)) as [->|Hne].
  - rewrite lookup_insert_eq. cbn. set_solver.
  - rewrite lookup_insert_ne by done. naive_solver.
Qed.

Lemma registered_unregister pin r i remote stable_id :
  registered (unregister remote stable_id pin) r i <->
  registered pin r i /\ ~ (r = remote /\ i = stable_id).
Proof.
  unfold registered, unregister. destruct (connections pin !! remote) as [ids|] eqn:Hc.
  2: { split; [|by intros []]. intros Hr. split; [done|]. intros [-> ->]. rewrite Hc in Hr. set_solver. }
  cbn. case_bool_decide as He; destruct (decide (r = remote)) as [->|Hne].
  - rewrite lookup_delete_eq, Hc. cbn. set_solver.
  - rewrite lookup_delete_ne by done. naive_solver.
  - rewrite lookup_insert_eq, Hc. cbn. set_solver.
  - rewrite lookup_insert_ne by done. naive_solver.
Qed.

Lemma elem_of_registered_of removed pin r i :
  (r, i) ∈ registered_of removed pin <-> r ∈ removed /\ registered pin r i.
Proof.
  unfold registered_of, registered. rewrite elem_of_set_bind. split.
  - intros (id & Hid & Hc). apply elem_of_map in Hc as (j & [= -> ->] & Hj). done.
  - intros [Hr Hi]. exists r. split; [done|]. apply elem_of_map. by exists i.
Qed.

Lemma registered_filter pin (removed : gset EndpointId) r i :
  registered (with_connections (filter (fun entry => entry.1 ∉ removed) (connections pin)) pin) r i <->
  registered pin r i /\ r ∉ removed.
Proof.
  unfold registered; cbn. destruct (decide (r ∈ removed)) as [Hr|Hr].
  - rewrite map_lookup_filter_None_2; [set_solver|]. right. intros x _. cbn. naive_solver.
  - destruct (connections pin !! r) as [ids|] eqn:Hc.
    + rewrite (map_lookup_filter_Some_2 _ _ _ ids) by done. naive_solver.
    + rewrite map_lookup_filter_None_2 by (by left). set_solver.
Qed.

(** The registered connections are those being served and not closed, and
    their Clients are authorized. *)
Record pin_ok (sv : Serving) : Prop := {
  po_registered : forall r i, registered (sv_pin sv) r i <->
    (r, i) ∈ sv_conns sv /\ (r, i) ∉ closed (sv_pin sv);
  po_authorized : forall r i, registered (sv_pin sv) r i -> is_authorized (auth (sv_pin sv)) r = true;
}.

Lemma authorize_run outcome remote pin pin' r :
  authorize outcome remote pin = (pin', r) ->
  connections pin' = connections pin /\ closed pin' = closed pin /\
  (forall id, is_authorized (auth pin) id = true -> is_authorized (auth pin') id = true) /\
  (r = Ok true -> is_authorized (auth pin') remote = true).
Proof.
  unfold authorize. destruct (auth pin) as [[id|] [path|]|ids] eqn:Ha; intros R;
    [| |destruct outcome| |]; injection R as <- <-; cbn; rewrite ?Ha; split_and!; try done; cbn;
    intros; simplify_eq; breflect; try done; rewrite ?bool_decide_eq_true; by try congruence.
Qed.

Lemma pin_step_ok event sv : pin_ok sv -> pin_ok (pin_step event sv).
Proof.
  intros [Hr Ha]. destruct event as [remote i outcome|remote i|next]; cbn.
  - case_bool_decide as Hin; [done|].
    unfold open_conn, authorize_and_register.
    destruct (authorize outcome remote (fresh_conn remote i (sv_pin sv))) as [pin' r] eqn:E.
    destruct (authorize_run _ _ _ _ _ E) as (Hc & Hcl & Hmono & Hok). cbn in Hc, Hcl.
    assert (Hreg : forall r j, registered pin' r j <-> registered (sv_pin sv) r j).
    { intros r0 j. unfold registered. by rewrite Hc. }
    unfold mbind, handler_bind. rewrite E. destruct r as [[]|e]; cbn.
    + split; cbn [sv_pin sv_conns].
      * intros r j. rewrite registered_register, Hreg, Hr. cbn. rewrite Hcl. set_solver.
      * intros r j. rewrite registered_register, Hreg. cbn. intros [Hj|[-> ->]]; [|by apply Hok].
        eapply Hmono, Ha, Hj.
    + split; cbn [sv_pin sv_conns].
      * intros r j. change (registered pin' r j <-> (r, j) ∈ sv_conns sv /\ (r, j) ∉ closed pin' ∪ {[(remote, i)]}).
        rewrite Hreg, Hr, Hcl. set_solver.
      * intros r j Hj. eapply Hmono, Ha, Hreg, Hj.
    + split; cbn [sv_pin sv_conns].
      * intros r j. rewrite Hreg, Hr, Hcl. set_solver.
      * intros r j Hj. eapply Hmono, Ha, Hreg, Hj.
  - case_bool_decide as Hin; [|done].
    assert (Heq : closed (unregister remote i (sv_pin sv)) = closed (sv_pin sv) /\
                  auth (unregister remote i (sv_pin sv)) = auth (sv_pin sv)).
    { unfold unregister. by destruct (connections (sv_pin sv) !! remote). }
    destruct Heq as [Hcl Hau]. split; cbn [sv_pin sv_conns].
    + intros r j. rewrite registered_unregister, Hr, Hcl. set_solver.
    + intros r j [Hj _]%registered_unregister. rewrite Hau. by eapply Ha.
  - unfold replace_managed. destruct (auth (sv_pin sv)) as [|current] eqn:Hau; [split; [exact Hr|by cbn; rewrite Hau]|].
    set (removed := current ∖ next). set (pin1 := close _ _).
    assert (Hreg : forall r j, registered pin1 r j <-> registered (sv_pin sv) r j) by done.
    split; cbn [sv_pin sv_conns fst].
    + intros r j. rewrite registered_filter, Hreg.
      change (closed (with_connections _ pin1)) with (closed (sv_pin sv) ∪ registered_of removed (with_auth (Managed next) (sv_pin sv))).
      rewrite elem_of_union, elem_of_registered_of.
      change (registered (with_auth (Managed next) (sv_pin sv)) r j) with (registered (sv_pin sv) r j).
      rewrite Hr. tauto.
    + intros r j [Hj Hn]%registered_filter. rewrite Hreg in Hj. cbn. apply bool_decide_eq_true.
      apply Ha in Hj. cbn in Hj. breflect. set_solver.
Qed.

Lemma pin_run_ok events sv : pin_ok sv -> pin_ok (pin_run events sv).
Proof.
  unfold pin_run. revert sv. induction events as [|event events IH]; intros sv Hsv; [done|].
  cbn. by apply IH, pin_step_ok.
Qed.

Definition pin_start (auth : ClientAuth) (files : Fs string) : Serving :=
  {| sv_pin := pin_new auth files; sv_conns := ∅ |}.

Lemma pin_start_ok auth files : pin_ok (pin_start auth files).
Proof. split; cbn; unfold registered; cbn; [set_solver|intros r i; by rewrite lookup_empty]. Qed.

(** C13. An Edge serves authorized Clients only, at every moment: in any history
    of connections, ends of connections and changes of the managed set, a
    connection that is being served and was not closed belongs to a Client that
    is authorized right now; and a change of the set closes exactly the open
    connections of the Clients it leaves out. *)
Theorem edge_serves_only_authorized auth0 files events r i :
  let sv := pin_run events (pin_start auth0 files) in
  (r, i) ∈ sv_conns sv -> (r, i) ∉ closed (sv_pin sv) ->
  is_authorized (auth (sv_pin sv)) r = true /\
  forall ids next, auth (sv_pin sv) = Managed ids ->
    ((r, i) ∈ closed (sv_pin (pin_step (Replace next) sv)) <-> r ∉ next).
Proof.
  intros sv Hin Hopen. destruct (pin_run_ok events _ (pin_start_ok auth0 files)) as [Hr Ha].
  fold sv in Hr, Ha. assert (Hreg : registered (sv_pin sv) r i) by (by apply Hr).
  split; [by eapply Ha|]. intros ids next Hau.
  cbn. unfold replace_managed. rewrite Hau. cbn. rewrite elem_of_union, elem_of_registered_of.
  change (registered (with_auth (Managed next) (sv_pin sv)) r i) with (registered (sv_pin sv) r i).
  apply Ha in Hreg as Hid. rewrite Hau in Hid. cbn in Hid. breflect. set_solver.
Qed.

(** *** Trust on first use *)

(** The state of a pin that learns its Client: none yet, or one that the file
    holds. *)
Definition tofu_ok (store : string) pin : Prop :=
  auth pin = Single None (Some store) \/
  exists id, auth pin = Single (Some id) (Some store) /\ pin_files pin !! store = Some (pin_line id).

Lemma pinned_run id store events sv :
  auth (sv_pin sv) = Single (Some id) (Some store) ->
  auth (sv_pin (pin_run events sv)) = auth (sv_pin sv) /\
  pin_files (sv_pin (pin_run events sv)) = pin_files (sv_pin sv).
Proof.
  unfold pin_run. revert sv. induction events as [|event events IH]; intros sv Hau; [done|]. cbn.
  assert (Hs : auth (sv_pin (pin_step event sv)) = auth (sv_pin sv) /\
               pin_files (sv_pin (pin_step event sv)) = pin_files (sv_pin sv)).
  { destruct event as [remote i outcome|remote i|next]; cbn.
    - case_bool_decide; [done|]. unfold open_conn, authorize_and_register, mbind, handler_bind, authorize.
      cbn. rewrite Hau. by case_bool_decide.
    - case_bool_decide; [|done]. cbn. unfold unregister. by destruct (connections (sv_pin sv) !! remote).
    - unfold replace_managed. by rewrite Hau. }
  destruct Hs as [Ha Hf]. destruct (IH (pin_step event sv)) as [-> ->]; [by rewrite Ha|done].
Qed.

Lemma utf8_valid_alphanumeric (s : string) :
  (forall c, c ∈ Str.chars s -> Str.is_ascii_alphanumeric c = true) ->
  utf8_valid (String.list_byte_of_string (s +:+ String "010" EmptyString)) = true.
Proof.
  intros Hs. induction s as [|a s IH]; [done|].
  rewrite Str.append_cons. change (String.list_byte_of_string (String a ?t))
    with (byte_of_ascii a :: String.list_byte_of_string t).
  specialize (Hs a (list_elem_of_here _ _)) as Ha. cbn [utf8_valid].
  replace (byte_val (byte_of_ascii a) <=? 127) with true; [apply IH; intros c Hc; apply Hs; by right|].
  destruct a as [[] [] [] [] [] [] [] []]; done.
Qed.

Lemma load_pin_line `{!KeysLaws} files store id :
  files !! store = Some (pin_line id) -> load_pin files store = Ok (Some id).
Proof.
  intros Hf. unfold load_pin, pin_line in *.
  rewrite Hf, utf8_valid_alphanumeric by apply id_to_string_alphanumeric. cbn.
  rewrite String.string_of_list_byte_of_string.
  rewrite Str.trim_line by apply id_to_string_alphanumeric. by rewrite id_parse_to_string.
Qed.

Lemma tofu_step store event sv :
  tofu_ok store (sv_pin sv) -> tofu_ok store (sv_pin (pin_step event sv)).
Proof.
  intros [Hn|(id & Hs & Hf)].
  2: { right. exists id. destruct (pinned_run id store [event] sv Hs) as [Ha Hfs]. cbn in Ha, Hfs.
       by rewrite Ha, Hfs. }
  destruct event as [remote i outcome|remote i|next]; cbn.
  - case_bool_decide; [by left|]. unfold open_conn, authorize_and_register, mbind, handler_bind, authorize.
    cbn. rewrite Hn. destruct outcome; cbn; [by left..|]. right. exists remote.
    split; [done|]. apply lookup_insert_eq.
  - case_bool_decide; [|by left]. left. cbn. unfold unregister.
    by destruct (connections (sv_pin sv) !! remote).
  - left. unfold replace_managed. by rewrite Hn.
Qed.

Lemma tofu_run store events sv : tofu_ok store (sv_pin sv) -> tofu_ok store (sv_pin (pin_run events sv)).
Proof.
  unfold pin_run. revert sv. induction events as [|event events IH]; intros sv Hsv; [done|].
  cbn. by apply IH, tofu_step.
Qed.

(** C34. Trust on first use pins one Client for good: after any history that
    pinned a Client, no later event changes the pin or its file, only that Client
    is authorized, and an Edge restarted from the file pins the same Client. *)
Theorem first_use_pins_for_good `{!KeysLaws} store files before id :
  let sv := pin_run before (pin_start (tofu None store) files) in
  auth (sv_pin sv) = Single (Some id) (Some store) ->
  load_pin (pin_files (sv_pin sv)) store = Ok (Some id) /\
  forall after, let sv' := pin_run after sv in
    pin_files (sv_pin sv') = pin_files (sv_pin sv) /\
    forall r i, (r, i) ∈ sv_conns sv' -> (r, i) ∉ closed (sv_pin sv') -> r = id.
Proof.
  intros sv Hau.
  assert (Ht : tofu_ok store (sv_pin sv)).
  { apply tofu_run. by left. }
  destruct Ht as [Hn|(id' & Hs & Hf)]; [congruence|]. replace id' with id in * by congruence.
  split; [by apply load_pin_line|]. intros after sv'.
  destruct (pinned_run id store after sv Hau) as [Ha Hfs]. fold sv' in Ha. split; [done|].
  intros r i Hin Hopen.
  assert (Hok : pin_ok sv') by (apply pin_run_ok, pin_run_ok, pin_start_ok).
  assert (Hr : is_authorized (auth (sv_pin sv')) r = true) by (eapply po_authorized, po_registered; done).
  rewrite Ha, Hau in Hr. cbn in Hr. breflect. congruence.
Qed.
End EdgePin.
