(* ===== verification/EdgeNode.v ===== *)
(** * as-edge: enrollment, start and the Control watch (src/crates/as-edge/src/main.rs)

    [join_control] claims an invitation and writes the profile; [run_iroh_edge]
    starts from the files; the loop of [spawn_control_watch] takes one answer of
    Control at a time and applies a valid map to the endpoint's relays, to the
    pin and to the profile on disk. *)
From S2P Require Import Prelude Deps RelayApi ControlApi Files Transport RelayTable EdgePin.
Open Scope string_scope.
Open Scope Z_scope.

(** The configuration of a managed relay, from its QAD port and the credential *)
Notation edge_config := (fun x : option Z * string => managed_relay_config x.1 (Some x.2)).
Notation config_of x := (managed_relay_config x.1 (Some x.2)).
Notation relays_match := (relays_match edge_config).
Notation installed_relays := (installed_relays edge_config).

Section EdgeNode.
Context `{Keys, Encodings, !ControlSerde, !Urls, !RelayUrls}.

(** ** Files *)

Record ControlProfile := {
  pr_schema_version : Z;
  pr_name : string;
  pr_control_url : string;
  pr_control_id : string;
  pr_audience : string;
  pr_endpoint_id : string;
  pr_map : SignedNodeMap;
}.

Definition with_map (map : SignedNodeMap) (profile : ControlProfile) : ControlProfile := {|
  pr_schema_version := pr_schema_version profile; pr_name := pr_name profile;
  pr_control_url := pr_control_url profile; pr_control_id := pr_control_id profile;
  pr_audience := pr_audience profile; pr_endpoint_id := pr_endpoint_id profile; pr_map := map |}.

Context `{!SerdePretty ControlProfile, !KeyBytes}.
Implicit Types (fs : Fs string) (profile : ControlProfile).

(** [who_dir(who)?.join(file)], below the home directory *)
Definition who_dir (who : string) : result string (string -> string) :=
  ensure ((who != "") && (who != ".") && (who != "..") && negb (Str.contains "/" who) &&
          negb (Str.contains "\" who)) "invalid WHO";;
  Ok (fun file => who ++ "/" ++ file).

Definition load_control_profile fs (path : string) : result string (option ControlProfile) :=
  match fs !! path with
  | None => Ok None
  | Some data =>
      profile ← of_option (from_slice data) "parse profile";
      ensure (pr_schema_version profile == 1) "unsupported edge profile schema";;
      Ok (Some profile)
  end.

Definition verify_profile profile (endpoint_id : EndpointId) : result string unit :=
  control_id ← of_option (id_parse (pr_control_id profile)) "invalid control id in profile";
  ensure (pr_endpoint_id profile == id_to_string endpoint_id) "control profile belongs to another edge key";;
  node_map_verify (pr_map profile) control_id endpoint_id;;
  ensure ((nm_audience (snm_map (pr_map profile)) == pr_audience profile) &&
          (nm_control_url (snm_map (pr_map profile)) == pr_control_url profile))
    "control map binding mismatch".

(** [persist_profile] *)
Definition persist_profile (outcome : WriteOutcome) (path : string) profile : handler (Fs string) string unit :=
  write_json outcome path profile.

(** The [HashSet] of the parsed clients, as [run_iroh_edge] and
    [apply_control_map] build it *)
Definition parse_clients (clients : list string) : result string (gset EndpointId) :=
  ids ← collect (fun value => of_option (id_parse value) "invalid client in control map") clients;
  Ok (list_to_set ids).

(** ** A running Edge *)

Record EdgeNode := {
  en_key : SecretKey;
  en_control_path : string;
  en_relays : gmap RelayUrl RelayConfig;              (* the endpoint's *)
  en_current : gmap string (option Z * string);       (* [current_relays] *)
  en_profile : option ControlProfile;
  en_serving : Serving;
  en_watching : bool;
}.

(** The relay table of a map: [relay.url] to its QAD port and the credential *)
Definition next_relays (map : NodeMap) (credential : string) : gmap string (option Z * string) :=
  hash_map ((fun relay => (ri_url relay, (ri_qad_port relay, credential))) <$> nm_relays map).

(** The relays an Edge starts with, and [current_relays] of its watch *)
Definition relay_config_of (credential : string) (relay : RelayInfo) : result string (RelayUrl * RelayConfig) :=
  url ← relay_url_parse (ri_url relay);
  Ok (url, managed_relay_config (ri_qad_port relay) (Some credential)).

Definition start_relays (profile : option ControlProfile) (relays : list string)
  : result string (list (RelayUrl * RelayConfig) * gmap string (option Z * string)) :=
  match profile with
  | Some profile =>
      let map := snm_map (pr_map profile) in
      credential ← of_option (nm_relay_credential map) "control map is missing its Relay credential";
      configs ← collect (relay_config_of credential) (nm_relays map);
      Ok (configs, next_relays map credential)
  | None =>
      urls ← relay_urls_or_default relays;
      Ok (List.map (fun url => (url, relay_config_from url)) urls, ∅)
  end.

(** The pin an Edge starts with *)
Definition start_pin (key : SecretKey) (dir : string -> string) (profile : option ControlProfile)
  (client : option string) fs : result string ClientAuth :=
  match profile with
  | Some profile =>
      verify_profile profile (public key);;
      allowed ← parse_clients (nm_allowed_clients (snm_map (pr_map profile)));
      Ok (managed allowed)
  | None =>
      match client with
      | Some value => id ← of_option (id_parse value) "bad --client"; Ok (strict id)
      | None => existing ← load_pin fs (dir "trusted_client"); Ok (tofu existing (dir "trusted_client"))
      end
  end.

(** [run_iroh_edge] up to [serve], with the key loaded *)
Definition run_iroh_edge (key : SecretKey) (dir : string -> string) (relays : list string)
  (client : option string) fs : result string EdgeNode :=
  profile ← load_control_profile fs (dir "control.json");
  ensure (match profile with Some _ => (relays == []) && (client == None) | None => true end)
    "a control-managed edge cannot override --relay or --client";;
  '(configs, current) ← start_relays profile relays;
  auth ← start_pin key dir profile client fs;
  ensure (match profile with
          | Some profile => nm_relay_ca_der (snm_map (pr_map profile)) != []
          | None => true
          end) "managed Relay CA certificate is empty";;
  Ok {| en_key := key; en_control_path := dir "control.json";
        en_relays := fold_left (fun m entry => <[entry.1 := entry.2]> m) configs ∅;
        en_current := current; en_profile := profile;
        en_serving := pin_start auth fs; en_watching := match profile with Some _ => true | None => false end |}.

(** ** [apply_control_map] *)

Definition with_relays (relays : gmap RelayUrl RelayConfig) (node : EdgeNode) : EdgeNode := {|
  en_key := en_key node; en_control_path := en_control_path node; en_relays := relays;
  en_current := en_current node; en_profile := en_profile node; en_serving := en_serving node;
  en_watching := en_watching node |}.
Definition with_current (current : gmap string (option Z * string)) (node : EdgeNode) : EdgeNode := {|
  en_key := en_key node; en_control_path := en_control_path node; en_relays := en_relays node;
  en_current := current; en_profile := en_profile node; en_serving := en_serving node;
  en_watching := en_watching node |}.
Definition with_profile (profile : ControlProfile) (node : EdgeNode) : EdgeNode := {|
  en_key := en_key node; en_control_path := en_control_path node; en_relays := en_relays node;
  en_current := en_current node; en_profile := Some profile; en_serving := en_serving node;
  en_watching := en_watching node |}.
Definition with_serving (serving : Serving) (node : EdgeNode) : EdgeNode := {|
  en_key := en_key node; en_control_path := en_control_path node; en_relays := en_relays node;
  en_current := en_current node; en_profile := en_profile node; en_serving := serving;
  en_watching := en_watching node |}.
Definition stop_watching (node : EdgeNode) : EdgeNode := {|
  en_key := en_key node; en_control_path := en_control_path node; en_relays := en_relays node;
  en_current := en_current node; en_profile := en_profile node; en_serving := en_serving node;
  en_watching := false |}.

Notation on_node A := (handler EdgeNode string A).

(** A pin operation on the node's pin *)
Definition on_serving {A} (op : handler ClientPin string A) : on_node A := fun node =>
  let '(pin, r) := op (sv_pin (en_serving node)) in
  (with_serving {| sv_pin := pin; sv_conns := sv_conns (en_serving node) |} node, r).

(** The files, which live in the pin's state *)
Definition on_files {A} (op : handler (Fs string) string A) : on_node A :=
  on_serving (fun pin => let '(fs, r) := op (pin_files pin) in (with_files fs pin, r)).

(** The order in which a [HashMap] is visited *)
Context (visit : gmap string (option Z * string) -> list (string * (option Z * string))).

Fixpoint insert_relays (entries : list (string * (option Z * string))) : on_node unit :=
  match entries with
  | [] => mret tt
  | (value, (qad_port, credential)) :: entries =>
      current ← get en_current;
      (if current !! value == Some (qad_port, credential) then mret tt
       else
         url ← lift (relay_url_parse value);
         modify (fun node => with_relays
           (<[url := managed_relay_config qad_port (Some credential)]> (en_relays node)) node));;
      insert_relays entries
  end.

Definition apply_control_map (map : SignedNodeMap) : on_node unit :=
  credential ← lift (of_option (nm_relay_credential (snm_map map))
    "control map is missing its Relay credential");
  let next := next_relays (snm_map map) credential in
  insert_relays (visit next);;
  current ← get en_current;
  modify (fun node => with_relays (remove_relays
    (Vec.retain (fun value => next !! value == None) (visit current).*1) (en_relays node)) node);;
  allowed ← lift (parse_clients (nm_allowed_clients (snm_map map)));
  on_serving (replace_managed allowed);;
  modify (with_current next).

(** ** The loop of [spawn_control_watch] *)

Inductive WatchAnswer :=
| WatchNoContent
| WatchMap (map : SignedNodeMap)   (* a success whose body decodes *)
| WatchUndecodable
| WatchRevoked                     (* 403 or 410 *)
| WatchFailed.                     (* another status, or no answer *)

(** The checks of a received map *)
Definition check_map (control_id : EndpointId) (key : SecretKey) profile (next : SignedNodeMap)
  : result string unit :=
  node_map_verify next control_id (public key);;
  ensure (nm_revision (snm_map (pr_map profile)) <=? nm_revision (snm_map next)) "control map rollback";;
  ensure ((nm_audience (snm_map next) == pr_audience profile) &&
          (nm_control_url (snm_map next) == pr_control_url profile)) "control map binding mismatch".

(** One turn of the loop: what an answer does. *)
Definition watch_step (outcome : WriteOutcome) (answer : WatchAnswer) (node : EdgeNode) : EdgeNode :=
  match en_watching node, en_profile node with
  | true, Some profile =>
      match id_parse (pr_control_id profile), answer with
      | Some control_id, WatchMap next =>
          match check_map control_id (en_key node) profile next with
          | Err _ => node
          | Ok _ =>
              match apply_control_map next node with
              | (node, Err _) => node
              | (node, Ok _) =>
                  let profile := with_map next profile in
                  (on_files (persist_profile outcome (en_control_path node) profile)
                     (with_profile profile node)).1
              end
          end
      | Some _, WatchRevoked => stop_watching (on_serving (replace_managed ∅) node).1
      | _, _ => node
      end
  | _, _ => node
  end.

(** ** [join_control] *)

(** The answer of Control to a claim is [respond]; then the profile is
    written. *)
Definition join_control (join_url : string) (generated : SecretKey) (key_outcome : WriteOutcome)
  (issued_at : Z) (nonce : string) (respond : ClaimRequest -> result string JoinResult)
  (outcome : WriteOutcome) : handler (Fs string) string (string * ControlProfile) :=
  parsed ← lift (url_parse join_url);
  fragment ← lift (of_option (url_fragment parsed) "join URL is missing its token fragment");
  token ← lift (token_decode fragment);
  control_id ← lift (token_verify token);
  let invite := jt_invite token in
  require (match inv_kind invite with KEdge _ => true | _ => false end) "this invitation is not for an edge";;
  dir ← lift (who_dir (inv_name invite));
  enrolled ← get (fun fs => fs !! dir "control.json");
  require (enrolled == None) "edge is already enrolled in control";;
  key ← load_or_create_secret generated key_outcome (dir "agent.key");
  request ← lift (claim_sign token key issued_at nonce);
  joined ← lift (respond request);
  lift (node_map_verify (jr_map joined) control_id (public key));;
  let profile := {| pr_schema_version := 1; pr_name := inv_name invite;
    pr_control_url := inv_control_url invite; pr_control_id := id_to_string control_id;
    pr_audience := inv_audience invite; pr_endpoint_id := id_to_string (public key);
    pr_map := jr_map joined |} in
  persist_profile outcome (dir "control.json") profile;;
  mret (inv_name invite, profile).

Lemma insert_relays_run entries node :
  urls_parse (list_to_set entries.*1) -> urls_apart (list_to_set entries.*1) -> NoDup entries.*1 ->
  (forall entry url, entry ∈ entries -> en_current node !! entry.1 = Some entry.2 ->
     relay_url_parse entry.1 = Ok url -> en_relays node !! url = Some (config_of entry.2)) ->
  insert_relays entries node = (with_relays (installed_relays entries (en_relays node)) node, Ok tt).
Proof.
  revert node. induction entries as [|[value [qad cred]] entries IH]; intros node Hp Ha Hn Hc.
  { cbn. by destruct node. }
  cbn in Hn. apply NoDup_cons in Hn as [Hk Hn].
  destruct (Hp value) as [url Hu]; [set_solver|].
  assert (Hp' : urls_parse (list_to_set entries.*1)) by (intros v Hv; apply Hp; cbn; set_solver).
  assert (Ha' : urls_apart (list_to_set entries.*1))
    by (intros v v' u Hv Hv'; apply Ha; cbn; set_solver).
  cbn [insert_relays]. rewrite bind_get. unfold installed_relays. cbn. rewrite Hu.
  fold (installed_relays entries (<[url := managed_relay_config qad (Some cred)]> (en_relays node))).
  case_bool_decide as Hsame.
  - rewrite (bind_eq_Ok _ (mret tt) node node tt) by done. rewrite IH; [|done..|].
    + rewrite (insert_id (en_relays node)); [done|].
      apply (Hc (value, (qad, cred)) url); [apply list_elem_of_here|done..].
    + intros e u He. apply Hc. by right.
  - rewrite (bind_eq_Ok _ _ node (with_relays (<[url := managed_relay_config qad (Some cred)]> (en_relays node)) node) tt).
    2: { done. }
    rewrite IH; [by destruct node|done..|].
    intros e u He He' Hue. cbn. rewrite lookup_insert_ne; [apply Hc; [by right|done..]|].
    intros ->. apply Hk. assert (E : value = e.1); [|rewrite E; by apply list_elem_of_fmap_2].
    apply (Ha value e.1 u); [set_solver| |done..]. cbn. rewrite elem_of_union, elem_of_list_to_set.
    right. by apply list_elem_of_fmap_2.
Qed.

Definition map_urls (map : NodeMap) : gset string := list_to_set (ri_url <$> nm_relays map).

Lemma dom_next_relays map credential : dom (next_relays map credential) = map_urls map.
Proof.
  unfold next_relays, hash_map, map_urls. rewrite dom_hash_map, dom_empty_L, union_empty_r_L.
  f_equal. induction (nm_relays map) as [|r l IH]; [done|]. cbn. by rewrite IH.
Qed.

(** A map an Edge can put into effect, as those of Control are: [ids] are its
    Clients and [credential] is the Relay credential. *)
Record usable (map : NodeMap) (ids : gset EndpointId) (credential : string) : Prop := {
  us_credential : nm_relay_credential map = Some credential;
  us_clients : parse_clients (nm_allowed_clients map) = Ok ids;
  us_urls : urls_parse (map_urls map);
}.

(** ** Starting from a profile *)

Lemma start_relays_match relays credential :
  forall configs, collect (relay_config_of credential) relays = Ok configs ->
  forall m current, relays_match m current -> urls_apart (dom current ∪ list_to_set (ri_url <$> relays)) ->
  relays_match (fold_left (fun m entry => <[entry.1 := entry.2]> m) configs m)
    (fold_left (fun m entry => <[entry.1 := entry.2]> m)
       ((fun relay => (ri_url relay, (ri_qad_port relay, credential))) <$> relays) current).
Proof.
  induction relays as [|relay relays IH]; cbn; intros configs Hc m current Hm Ha.
  { by injection Hc as <-. }
  apply bind_Ok in Hc as ([url config] & Hr & Hc). apply bind_Ok in Hc as (rest & Hc & E). injection E as <-.
  unfold relay_config_of in Hr. apply bind_Ok in Hr as (u & Hu & E). injection E as -> <-. cbn.
  apply IH; [done| |].
  - apply (relays_match_insert edge_config m current (ri_url relay) url (ri_qad_port relay, credential)); [done..|].
    intros v v' u Hv Hv'. apply Ha; set_solver.
  - intros v v' u' Hv Hv'. rewrite dom_insert in Hv, Hv'. apply Ha; set_solver.
Qed.

Lemma collect_relays map credential :
  urls_parse (map_urls map) -> exists configs, collect (relay_config_of credential) (nm_relays map) = Ok configs.
Proof.
  intros Hu. apply collect_is_Ok, Forall_forall. intros relay Hr.
  destruct (Hu (ri_url relay)) as [url Hurl].
  { apply elem_of_list_to_set, list_elem_of_fmap. by exists relay. }
  exists (url, managed_relay_config (ri_qad_port relay) (Some credential)). unfold relay_config_of. by rewrite Hurl.
Qed.

Section Visited.
Hypothesis visit_all : forall m, visit m ≡ₚ map_to_list m.

Lemma apply_control_map_run map ids0 ids credential node :
  relays_match (en_relays node) (en_current node) ->
  auth (sv_pin (en_serving node)) = Managed ids0 -> usable (snm_map map) ids credential ->
  urls_apart (dom (en_current node) ∪ map_urls (snm_map map)) ->
  exists relays,
    relays_match relays (next_relays (snm_map map) credential) /\
    apply_control_map map node =
      (with_current (next_relays (snm_map map) credential)
         (with_serving (pin_step (Replace ids) (en_serving node)) (with_relays relays node)), Ok tt).
Proof.
  intros Hm Hau [Hc Hids Hu] Ha. set (next := next_relays (snm_map map) credential).
  assert (Hd : dom next = map_urls (snm_map map)) by apply dom_next_relays.
  rewrite <- Hd in Hu, Ha.
  exists (remove_relays (Vec.retain (fun value => next !! value == None) (visit (en_current node)).*1)
            (installed_relays (visit next) (en_relays node))).
  split; [by apply relays_match_next|].
  assert (Hins : insert_relays (visit next) node =
    (with_relays (installed_relays (visit next) (en_relays node)) node, Ok tt)).
  { apply insert_relays_run; rewrite ?(visit_dom visit visit_all); [done| |by apply visit_keys|].
    - intros v v' u Hv Hv'. apply Ha; set_solver.
    - intros [value x] url He Hcur Hurl. cbn in *. apply Hm. by exists value, x. }
  unfold apply_control_map. rewrite Hc. cbn [of_option].
  rewrite (bind_eq_Ok _ (lift (Ok _)) node node _ eq_refl). cbv zeta. fold next.
  rewrite (bind_eq_Ok _ _ _ _ _ Hins).
  rewrite bind_get, bind_modify, Hids. cbn [en_current with_relays].
  rewrite (bind_eq_Ok _ (lift (Ok _)) _ _ _ eq_refl).
  unfold mbind, handler_bind, on_serving. cbn. unfold replace_managed. rewrite Hau. done.
Qed.

(** ** A managed Edge over time *)

Inductive EdgeEvent :=
| EAnswer (outcome : WriteOutcome) (answer : WatchAnswer)
| EConnect (remote : EndpointId) (stable_id : Z)
| EFinish (remote : EndpointId) (stable_id : Z).

Definition edge_step (event : EdgeEvent) (node : EdgeNode) : EdgeNode :=
  match event with
  | EAnswer outcome answer => watch_step outcome answer node
  | EConnect r i => with_serving (pin_step (Connect r i Written) (en_serving node)) node
  | EFinish r i => with_serving (pin_step (Finish r i) (en_serving node)) node
  end.

Definition edge_run (events : list EdgeEvent) (node : EdgeNode) : EdgeNode :=
  fold_left (fun node event => edge_step event node) events node.

(** The map of [profile] is in force: it is verified, its Clients are the
    authorized ones and its relays are the endpoint's. *)
Record in_force (node : EdgeNode) profile : Prop := {
  if_profile : en_profile node = Some profile;
  if_verified : verify_profile profile (public (en_key node)) = Ok tt;
  if_clients : exists ids, parse_clients (nm_allowed_clients (snm_map (pr_map profile))) = Ok ids /\
    auth (sv_pin (en_serving node)) = Managed ids;
  if_current : exists credential, nm_relay_credential (snm_map (pr_map profile)) = Some credential /\
    en_current node = next_relays (snm_map (pr_map profile)) credential;
  if_relays : relays_match (en_relays node) (en_current node);
  if_watching : en_watching node = true;
  if_pin : pin_ok (en_serving node);
}.

(** Control removed the Edge: nobody is authorized and the loop has ended. *)
Record dismissed (node : EdgeNode) : Prop := {
  di_auth : auth (sv_pin (en_serving node)) = Managed ∅;
  di_watching : en_watching node = false;
  di_pin : pin_ok (en_serving node);
}.

(** A map Control signed for this Edge and this enrollment. *)
Definition genuine (key : SecretKey) profile (map : SignedNodeMap) : Prop :=
  exists control_id, id_parse (pr_control_id profile) = Some control_id /\
    node_map_verify map control_id (public key) = Ok tt /\
    nm_audience (snm_map map) = pr_audience profile /\ nm_control_url (snm_map map) = pr_control_url profile.

Definition revision_of profile : Z := nm_revision (snm_map (pr_map profile)).

Lemma pin_ok_files sv fs :
  pin_ok sv -> pin_ok {| sv_pin := with_files fs (sv_pin sv); sv_conns := sv_conns sv |}.
Proof. intros [Hr Ha]. split; [exact Hr|exact Ha]. Qed.

Lemma verify_profile_genuine profile id map :
  verify_profile profile id = Ok tt ->
  verify_profile (with_map map profile) id = Ok tt <->
  exists control_id, id_parse (pr_control_id profile) = Some control_id /\
    node_map_verify map control_id id = Ok tt /\
    nm_audience (snm_map map) = pr_audience profile /\ nm_control_url (snm_map map) = pr_control_url profile.
Proof.
  intros Hv. unfold verify_profile in *. run_ok. rename x into control_id. split.
  - intros Hv'. run_ok. cbn in *. exists x. destruct x3. done.
  - intros (c & Hc & Hm & Ha & Hu). cbn. apply bind_Ok. exists c. split; [by apply of_option_Ok|].
    apply bind_Ok. exists tt. split; [by apply ensure_Ok, bool_decide_eq_true|].
    apply bind_Ok. exists tt. split; [done|]. by rewrite Ha, Hu, !bool_decide_eq_true_2.
Qed.

Lemma check_map_Ok control_id node profile next :
  en_profile node = Some profile -> id_parse (pr_control_id profile) = Some control_id ->
  check_map control_id (en_key node) profile next = Ok tt <->
  genuine (en_key node) profile next /\ revision_of profile <= nm_revision (snm_map next).
Proof.
  intros _ Hc. unfold check_map, genuine, revision_of. split.
  - intros Hk. run_ok. destruct x. split; [|lia]. by exists control_id.
  - intros [(c & Hc' & Hm & Ha & Hu) Hr]. replace c with control_id in * by congruence.
    apply bind_Ok. exists tt. split; [done|]. apply bind_Ok. exists tt.
    split; [by apply ensure_Ok, Z.leb_le|]. by rewrite Ha, Hu, !bool_decide_eq_true_2.
Qed.

Lemma in_force_apply outcome next ids credential node profile :
  in_force node profile -> genuine (en_key node) profile next ->
  revision_of profile <= nm_revision (snm_map next) -> usable (snm_map next) ids credential ->
  urls_apart (map_urls (snm_map (pr_map profile)) ∪ map_urls (snm_map next)) ->
  in_force (watch_step outcome (WatchMap next) node) (with_map next profile) /\
  en_key (watch_step outcome (WatchMap next) node) = en_key node.
Proof.
  intros [Hp Hv (ids0 & _ & Hau) (cred0 & _ & Hcur) Hm Hw Hpin] Hg Hrev Hus Hap.
  destruct Hg as (control_id & Hc & Hg). unfold watch_step. rewrite Hw, Hp, Hc.
  assert (Hk : check_map control_id (en_key node) profile next = Ok tt).
  { apply (check_map_Ok _ node); [done..|]. split; [by exists control_id|done]. }
  rewrite Hk. rewrite <- (dom_next_relays _ cred0), <- Hcur in Hap.
  destruct (apply_control_map_run next ids0 ids credential node Hm Hau Hus Hap) as (relays & Hm' & ->).
  assert (Hv' : verify_profile (with_map next profile) (public (en_key node)) = Ok tt).
  { apply verify_profile_genuine; [done|]. by exists control_id. }
  pose proof (pin_step_ok (Replace ids) _ Hpin) as Hpin'. destruct Hus as [Huc Hui _].
  unfold on_files, on_serving, persist_profile, write_json, atomic_write.
  assert (Hauth : auth (sv_pin (pin_step (Replace ids) (en_serving node))) = Managed ids).
  { cbn. unfold replace_managed. by rewrite Hau. }
  destruct outcome; cbn -[pin_step]; (split; [split; cbn -[pin_step]; eauto; by apply pin_ok_files|done]).
Qed.

Lemma in_force_pin node profile event :
  match event with Replace _ => False | _ => True end ->
  in_force node profile -> in_force (with_serving (pin_step event (en_serving node)) node) profile.
Proof.
  intros He [Hp Hv (ids & Hi & Hau) Hcur Hm Hw Hpin]. split; cbn -[pin_step]; try done.
  - exists ids. split; [done|]. destruct event as [r i o|r i|]; [| |done]; cbn.
    + case_bool_decide; [done|]. unfold open_conn, authorize_and_register, mbind, handler_bind, authorize.
      cbn. rewrite Hau. by case_bool_decide.
    + case_bool_decide; [|done]. cbn. unfold unregister. by destruct (connections _ !! r).
  - by apply pin_step_ok.
Qed.

Lemma dismissed_step event node : dismissed node -> dismissed (edge_step event node).
Proof.
  intros [Hau Hw Hpin]. destruct event as [o a|r i|r i]; cbn -[pin_step].
  - unfold watch_step. by rewrite Hw.
  - split; [|done|by apply pin_step_ok]. cbn. case_bool_decide; [done|].
    unfold open_conn, authorize_and_register, mbind, handler_bind, authorize. cbn. rewrite Hau. by case_bool_decide.
  - split; [|done|by apply pin_step_ok]. cbn. case_bool_decide; [|done]. cbn. unfold unregister.
    by destruct (connections _ !! r).
Qed.

Lemma dismissed_run events node : dismissed node -> dismissed (edge_run events node).
Proof.
  unfold edge_run. revert node. induction events as [|event events IH]; intros node Hd; [done|].
  cbn. by apply IH, dismissed_step.
Qed.

Definition edge_files (node : EdgeNode) : Fs string := pin_files (sv_pin (en_serving node)).

Lemma start_in_force key dir fs profile ids credential :
  load_control_profile fs (dir "control.json") = Ok (Some profile) ->
  verify_profile profile (public key) = Ok tt -> usable (snm_map (pr_map profile)) ids credential ->
  urls_apart (map_urls (snm_map (pr_map profile))) -> nm_relay_ca_der (snm_map (pr_map profile)) <> [] ->
  exists node, run_iroh_edge key dir [] None fs = Ok node /\ in_force node profile /\
    auth (sv_pin (en_serving node)) = Managed ids /\ edge_files node = fs /\ en_key node = key.
Proof.
  intros Hl Hv [Hc Hi Hu] Ha Hca.
  destruct (collect_relays _ credential Hu) as [configs Hcol].
  unfold run_iroh_edge. rewrite Hl. cbn. rewrite Hc. cbn. rewrite Hcol. cbn. rewrite Hv. cbn. rewrite Hi. cbn.
  rewrite bool_decide_eq_false_2 by done. cbn. eexists. split; [reflexivity|].
  split; [|done]. split; cbn; try done.
  - by exists ids.
  - by exists credential.
  - apply (start_relays_match _ credential); [done|apply relays_match_empty|].
    intros v v' u Hv1 Hv2. apply Ha; unfold map_urls; set_solver.
  - apply pin_start_ok.
Qed.

(** The answers of a history are those of a Control whose maps can be put into
    effect, and the relay URLs of all of them are different relays. *)
Definition answers_usable (known : gset string) (events : list EdgeEvent) : Prop :=
  (forall outcome map, EAnswer outcome (WatchMap map) ∈ events ->
     map_urls (snm_map map) ⊆ known /\ exists ids credential, usable (snm_map map) ids credential) /\
  urls_apart known.

Lemma in_force_revoked outcome node profile :
  in_force node profile -> dismissed (watch_step outcome WatchRevoked node).
Proof.
  intros [Hp Hv (ids0 & Hi & Hau) Hcur Hm Hw Hpin].
  destruct (id_parse (pr_control_id profile)) as [control_id|] eqn:Hc.
  2: { unfold verify_profile in Hv. by rewrite Hc in Hv. }
  unfold watch_step. rewrite Hw, Hp, Hc.
  pose proof (pin_step_ok (Replace ∅) _ Hpin) as Hpin'. cbn in Hpin'.
  unfold on_serving. unfold replace_managed in *. rewrite Hau in *. by split.
Qed.

Lemma dismissed_closes node r i :
  dismissed node -> (r, i) ∈ sv_conns (en_serving node) -> (r, i) ∈ closed (sv_pin (en_serving node)).
Proof.
  intros [Hau _ [Hr Ha]] Hin. apply dec_stable. intros Hopen.
  assert (Hid : is_authorized (auth (sv_pin (en_serving node))) r = true) by (eapply Ha, Hr; done).
  rewrite Hau in Hid. by apply bool_decide_eq_true in Hid.
Qed.

Lemma answer_in_force outcome answer node profile known :
  in_force node profile -> map_urls (snm_map (pr_map profile)) ⊆ known ->
  answers_usable known [EAnswer outcome answer] ->
  dismissed (watch_step outcome answer node) \/
  exists profile', in_force (watch_step outcome answer node) profile' /\
    en_key (watch_step outcome answer node) = en_key node /\
    (profile' = profile \/ exists map, answer = WatchMap map /\ profile' = with_map map profile) /\
    revision_of profile <= revision_of profile' /\
    forall map, answer = WatchMap map -> genuine (en_key node) profile map ->
      nm_revision (snm_map map) <= revision_of profile'.
Proof.
  intros Hf Hk [Hu Ha]. pose proof Hf as [Hp Hv (ids0 & Hi & Hau) Hcur Hm Hw Hpin].
  destruct (id_parse (pr_control_id profile)) as [control_id|] eqn:Hc.
  2: { unfold verify_profile in Hv. by rewrite Hc in Hv. }
  assert (Hsame : watch_step outcome answer node = node ->
    (forall map, answer = WatchMap map -> genuine (en_key node) profile map ->
       nm_revision (snm_map map) <= revision_of profile) ->
    dismissed (watch_step outcome answer node) \/
    exists profile', in_force (watch_step outcome answer node) profile' /\
      en_key (watch_step outcome answer node) = en_key node /\
      (profile' = profile \/ exists map, answer = WatchMap map /\ profile' = with_map map profile) /\
      revision_of profile <= revision_of profile' /\
      forall map, answer = WatchMap map -> genuine (en_key node) profile map ->
        nm_revision (snm_map map) <= revision_of profile').
  { intros -> Hr. right. exists profile. split_and!; [done|done|by left|lia|done]. }
  destruct answer as [|map| | |]; try (apply Hsame; [unfold watch_step; by rewrite Hw, Hp, Hc|done]).
  - destruct (Hu outcome map) as [Hsub (ids & cred & Hus)]; [set_solver|].
    destruct (check_map control_id (en_key node) profile map) as [[]|e] eqn:Hck.
    + apply (check_map_Ok _ node) in Hck as [Hg Hrev]; [|done..]. right.
      destruct (in_force_apply outcome map ids cred node profile) as [Hf' Hkey]; [done..| |].
      { intros v v' u Hv1 Hv2. apply Ha; set_solver. }
      exists (with_map map profile). split_and!; [done|done|by right; exists map|done|].
      by intros m [= <-] _.
    + apply Hsame.
      * unfold watch_step. by rewrite Hw, Hp, Hc, Hck.
      * intros m [= <-] Hg. apply Z.nlt_ge. intros Hlt. assert (check_map control_id (en_key node) profile map = Ok tt);
          [|congruence]. apply (check_map_Ok _ node); [done..|]. split; [done|lia].
  - left. by eapply in_force_revoked.
Qed.

Lemma edge_run_ok known events node profile :
  in_force node profile -> map_urls (snm_map (pr_map profile)) ⊆ known -> answers_usable known events ->
  dismissed (edge_run events node) \/
  exists profile', in_force (edge_run events node) profile' /\ en_key (edge_run events node) = en_key node /\
    (pr_map profile' = pr_map profile \/ exists outcome, EAnswer outcome (WatchMap (pr_map profile')) ∈ events) /\
    revision_of profile <= revision_of profile' /\
    forall outcome map, EAnswer outcome (WatchMap map) ∈ events -> genuine (en_key node) profile map ->
      nm_revision (snm_map map) <= revision_of profile'.
Proof.
  revert node profile. induction events as [|event events IH]; intros node profile Hf Hk Hu.
  { right. exists profile. split_and!; [done|done|by left|lia|]. intros o m Hm. by apply elem_of_nil in Hm. }
  assert (Hu' : answers_usable known events).
  { destruct Hu as [Hu Ha]. split; [|done]. intros o m Hm. apply (Hu o). by right. }
  cbn. destruct event as [o a|r i|r i].
  - destruct (answer_in_force o a node profile known Hf Hk) as [Hd|(profile1 & Hf1 & Hkey & Hpm & Hrev & Hnew)].
    { destruct Hu as [Hu Ha]. split; [|done]. intros o' m Hm. apply (Hu o'). set_solver. }
    { left. by apply dismissed_run. }
    assert (Hk1 : map_urls (snm_map (pr_map profile1)) ⊆ known).
    { destruct Hpm as [-> |(m & -> & ->)]; [done|]. destruct Hu as [Hu _]. by apply (Hu o m), list_elem_of_here. }
    assert (Hg1 : forall m, genuine (en_key node) profile m <-> genuine (en_key (watch_step o a node)) profile1 m).
    { intros m. rewrite Hkey. by destruct Hpm as [-> |(m' & _ & ->)]. }
    destruct (IH _ _ Hf1 Hk1 Hu') as [Hd|(profile' & Hf' & Hkey' & Hpm' & Hrev' & Hnew')]; [by left|].
    right. exists profile'. split_and!; [done|by etransitivity| |lia|].
    + destruct Hpm' as [->|[o' Ho']]; [|right; exists o'; by right].
      destruct Hpm as [->|(m & -> & ->)]; [by left|]. right. exists o. apply list_elem_of_here.
    + intros o' m [[= <- <-]|Hm]%elem_of_cons Hg; [|by eapply Hnew', Hg1].
      etransitivity; [by apply Hnew|done].
  - destruct (IH _ _ (in_force_pin node profile (Connect r i Written) I Hf) Hk Hu')
      as [Hd|(profile' & Hf' & Hkey' & Hpm' & Hrev' & Hnew')]; [by left|].
    right. exists profile'. split_and!; [done|done| |done|].
    + destruct Hpm' as [?|[o' Ho']]; [by left|]. right. exists o'. by right.
    + intros o' m [[=]|Hm]%elem_of_cons Hg. by eapply Hnew'.
  - destruct (IH _ _ (in_force_pin node profile (Finish r i) I Hf) Hk Hu')
      as [Hd|(profile' & Hf' & Hkey' & Hpm' & Hrev' & Hnew')]; [by left|].
    right. exists profile'. split_and!; [done|done| |done|].
    + destruct Hpm' as [?|[o' Ho']]; [by left|]. right. exists o'. by right.
    + intros o' m [[=]|Hm]%elem_of_cons Hg. by eapply Hnew'.
Qed.

Lemma served_is_allowed node profile r i :
  in_force node profile -> (r, i) ∈ sv_conns (en_serving node) -> (r, i) ∉ closed (sv_pin (en_serving node)) ->
  exists value, value ∈ nm_allowed_clients (snm_map (pr_map profile)) /\ id_parse value = Some r.
Proof.
  intros [_ _ (ids & Hi & Hau) _ _ _ [Hr Ha]] Hin Hopen.
  assert (Hid : is_authorized (auth (sv_pin (en_serving node))) r = true) by (eapply Ha, Hr; done).
  rewrite Hau in Hid. cbn in Hid. breflect. unfold parse_clients in Hi. run_ok.
  apply elem_of_list_to_set in Hid. apply collect_Ok in H5.
  apply list_elem_of_lookup in Hid as [k Hk]. eapply Forall2_lookup_r in H5 as (value & Hv & E); [|done].
  exists value. split; [by apply list_elem_of_lookup_2 in Hv|]. by apply of_option_Ok in E.
Qed.

(** A managed Edge obeys Control's newest map. Over any history of answers,
    valid or not, and of connections: either Control has dismissed the Edge and
    every connection it still serves is closed, or one map is in force that
    Control signed for this Edge, at least as new as every such map it received;
    its relays are exactly the endpoint's, and every open connection belongs to
    a Client that this map names. *)
Theorem edge_obeys_newest_map known events node profile r i :
  in_force node profile -> map_urls (snm_map (pr_map profile)) ⊆ known -> answers_usable known events ->
  let node' := edge_run events node in
  let open := (r, i) ∈ sv_conns (en_serving node') /\ (r, i) ∉ closed (sv_pin (en_serving node')) in
  (dismissed node' /\ ~ open) \/
  exists profile', in_force node' profile' /\ revision_of profile <= revision_of profile' /\
    (pr_map profile' = pr_map profile \/ exists outcome, EAnswer outcome (WatchMap (pr_map profile')) ∈ events) /\
    (forall outcome map, EAnswer outcome (WatchMap map) ∈ events -> genuine (en_key node) profile map ->
       nm_revision (snm_map map) <= revision_of profile') /\
    (open -> exists value, value ∈ nm_allowed_clients (snm_map (pr_map profile')) /\ id_parse value = Some r).
Proof.
  intros Hf Hk Hu node' open.
  destruct (edge_run_ok known events node profile Hf Hk Hu) as [Hd|(profile' & Hf' & _ & Hpm & Hrev & Hnew)].
  - left. split; [done|]. intros [Hin Hopen]. by apply Hopen, dismissed_closes.
  - right. exists profile'. split_and!; [done..|]. intros [Hin Hopen]. by eapply served_is_allowed.
Qed.
End Visited.
End EdgeNode.
