(* ===== verification/EdgeSystem.v ===== *)
(** * Control and an Edge composed

    The Edge of [EdgeNode.v] against the handlers of Control: an enrollment ends
    with an Edge that serves its owner, a watch puts the current owner into
    force or dismisses an Edge that was removed, and a restart resumes from the
    profile on disk. *)
From S2P Require Import Prelude Deps RelayApi ControlApi State Database ControlCore ControlHandlers.
From S2P Require Import ControlSpec ControlInvariant NodeMaps Enrollment Files Transport RelayTable EdgePin EdgeNode.
Open Scope string_scope.
Open Scope Z_scope.

(** The answer of Control as the Edge's HTTP client sees it *)
Definition edge_answer `{Keys} (r : result ApiError (option SignedNodeMap)) : WatchAnswer :=
  match r with
  | Ok None => WatchNoContent
  | Ok (Some map) => WatchMap map
  | Err e => if (ae_status e =? 403) || (ae_status e =? 410) then WatchRevoked else WatchFailed
  end.

Section EdgeSystem.
Context `{KeysLaws, EncodingsLaws, !ControlSerde, !Certificates, !Urls, !RelayUrls}.
Context `{!Serde RelayCredential, !Serde SignedRelayCredential, !Serde RevocationUpdate}.
Context `{!SerdePretty ControlProfile, !SerdePrettyLaws ControlProfile, !KeyBytes, !KeyBytesLaws}.
Context (visit : gmap string (option Z * string) -> list (string * (option Z * string))).
Hypothesis visit_all : forall m, visit m ≡ₚ map_to_list m.
Implicit Types (s : Store) (st : ControlState) (env : Env) (profile : ControlProfile) (fs : Fs string).

(** ** What Control answers *)

Lemma watch_map_is_current env others wakeups resumed request id s s' m :
  watch_verify request = Ok id ->
  watch env others wakeups resumed request s = (s', Ok (Some m)) ->
  signed_map (env_now env) (s_state s') (s_key s') id = Ok m.
Proof.
  intros Hv W. unfold watch in W. hstep W; try done. hstep W; try done.
  apply map_err_Ok in E0. replace a with id in * by congruence. hstep W; try done.
  unfold with_watch in W. destruct (watch_acquire _ _) as [counts [[]|]]; [|done].
  match type of W with context [let '(_, _) := ?body in _] => destruct body as [s1 r] eqn:B end.
  injection W as <- ->. cbn.
  apply bind_inv in B as [(renewed & s2 & _ & B)|(e & _ & ?)]; [|done].
  apply bind_inv in B as [(changed & s3 & _ & B)|(e & _ & ?)]; [|done].
  destruct changed; [|done]. cbn [negb] in B.
  apply bind_inv in B as [(u & s4 & _ & B)|(e & _ & ?)]; [|done]. do 2 hstep B. hstep B; try done.
  apply map_err_Ok in E2. by injection B as <- <-.
Qed.

Lemma watch_refuses_removed env others wakeups resumed request id s :
  verification_permit env = Ok tt -> watch_verify request = Ok id ->
  check_time (wr_issued_at request) (env_received env) = Ok tt ->
  (default 0 (s_watches s !! id_to_string id) < WATCHES_PER_ENDPOINT)%nat ->
  (forall c, c ∈ st_clients (s_state s) -> c_endpoint_id c <> id_to_string id) ->
  (forall e, e ∈ st_edges (s_state s) -> e_endpoint_id e <> id_to_string id) ->
  exists s' e, watch env others wakeups resumed request s = (s', Err e) /\ ae_status e = 403.
Proof.
  intros Hp Hv Ht Hw Hc He. unfold watch, mbind, handler_bind, lift. rewrite Hp, Hv, Ht. cbn [map_err].
  unfold with_watch, watch_acquire. rewrite (proj2 (Nat.leb_gt _ _) Hw).
  unfold renew_relay_credential_if_needed, mbind, handler_bind, get, lift. cbn [s_state].
  assert (Hfc : Vec.find (fun c => c_endpoint_id c == id_to_string id) (st_clients (s_state s)) = None).
  { apply Vec.find_None. intros c Hin. by apply bool_decide_eq_false, Hc. }
  assert (Hfe : Vec.find (fun e => e_endpoint_id e == id_to_string id) (st_edges (s_state s)) = None).
  { apply Vec.find_None. intros e Hin. by apply bool_decide_eq_false, He. }
  unfold renewal_due. rewrite Hfc, Hfe. cbn [fmap option_fmap option_map].
  assert (Hn : anyhow_node_exists (s_state s) id = Err (forbidden "node is not registered")).
  { unfold anyhow_node_exists. replace (_ || _)%bool with false; [done|]. symmetry.
    apply orb_false_iff. split; apply Vec.any_false; intros x Hx; apply bool_decide_eq_false; eauto. }
  rewrite Hn. cbn. by eexists _, _.
Qed.

(** ** The owner of an Edge *)

Definition state_urls st : gset string := list_to_set (r_url <$> st_relays st).

Lemma edge_map now st key id e owner m :
  Vec.find (fun edge => e_endpoint_id edge == id_to_string id) (st_edges st) = Some e ->
  id_parse (e_owner_id e) = Some owner -> urls_parse (state_urls st) ->
  signed_map now st key id = Ok m ->
  (exists credential, usable (snm_map m) {[owner]} credential) /\
  map_urls (snm_map m) = state_urls st /\ nm_revision (snm_map m) = st_revision st /\
  nm_audience (snm_map m) = st_audience st /\ nm_control_url (snm_map m) = st_public_url st /\
  nm_relay_ca_der (snm_map m) = st_relay_ca_der st.
Proof.
  intros He Ho Hu Hm. unfold signed_map, map_grants in Hm. rewrite He in Hm.
  apply bind_Ok in Hm as ([[c a] es] & Hg & Hm). apply bind_Ok in Hg as (credential & _ & Hg).
  injection Hg as <- <- <-. injection Hm as <-. cbn [snm_map].
  match goal with |- context [usable ?map] =>
    assert (Hurls : map_urls map = state_urls st)
      by (unfold map_urls, state_urls; cbn [nm_relays]; by rewrite <- list_fmap_compose) end.
  split; [|done]. exists credential. split; [done| |by rewrite Hurls].
  unfold parse_clients. cbn. rewrite Ho. cbn. f_equal. set_solver.
Qed.

Lemma genuine_map now st key id m profile nk :
  public nk = id -> signed_map now st key id = Ok m ->
  pr_control_id profile = id_to_string (public key) -> pr_audience profile = st_audience st ->
  pr_control_url profile = st_public_url st -> genuine nk profile m.
Proof.
  intros <- Hm Hc Ha Hu. exists (public key). rewrite Hc, id_parse_to_string. split; [done|].
  split; [by eapply signed_map_verifies|]. rewrite Ha, Hu. unfold signed_map in Hm. run_ok.
  destruct x as [[? ?] ?]. unfold node_map_sign in Hm. by run_ok.
Qed.

(** C6. An Edge follows the registry of its Control. It watches with the request
    the program signs, and whatever else Control does meanwhile: a map in the
    answer puts exactly the owner of the Edge's record at that moment into force
    and reconfigures the relays; and once the record is gone, the watch dismisses
    the Edge: nobody is authorized and every connection is closed. *)
Theorem edge_follows_registry env others wakeups resumed issued_at nonce request outcome node profile s s' r :
  in_force node profile ->
  pr_control_id profile = id_to_string (public (s_key s')) -> pr_audience profile = st_audience (s_state s') ->
  pr_control_url profile = st_public_url (s_state s') ->
  watch_sign (en_key node) (revision_of profile) issued_at nonce = Ok request ->
  watch env others wakeups resumed request s = (s', r) ->
  let id := public (en_key node) in
  let node' := watch_step visit outcome (edge_answer r) node in
  (forall m e owner, r = Ok (Some m) ->
     Vec.find (fun edge => e_endpoint_id edge == id_to_string id) (st_edges (s_state s')) = Some e ->
     id_parse (e_owner_id e) = Some owner -> urls_parse (state_urls (s_state s')) ->
     urls_apart (map_urls (snm_map (pr_map profile)) ∪ state_urls (s_state s')) ->
     revision_of profile <= st_revision (s_state s') ->
     in_force node' (with_map m profile) /\ auth (sv_pin (en_serving node')) = Managed {[owner]}) /\
  (verification_permit env = Ok tt -> check_time issued_at (env_received env) = Ok tt ->
   (default 0 (s_watches s !! id_to_string id) < WATCHES_PER_ENDPOINT)%nat ->
   (forall c, c ∈ st_clients (s_state s) -> c_endpoint_id c <> id_to_string id) ->
   (forall e, e ∈ st_edges (s_state s) -> e_endpoint_id e <> id_to_string id) ->
   dismissed node' /\
   forall c i, (c, i) ∈ sv_conns (en_serving node') -> (c, i) ∈ closed (sv_pin (en_serving node'))).
Proof.
  intros Hf Hc Ha Hu Hs W id node'.
  assert (Hv : watch_verify request = Ok id).
  { injection Hs as <-. unfold watch_verify, ensure_protocol_version. cbn. rewrite id_parse_to_string. cbn.
    by rewrite id_verify_sign. }
  split.
  - intros m e owner -> He Ho Hp Hap Hrev. pose proof (watch_map_is_current _ _ _ _ _ _ _ _ _ Hv W) as Hm.
    destruct (edge_map _ _ _ _ _ _ _ He Ho Hp Hm) as ((credential & Hus) & Hurls & Hr & _).
    destruct (in_force_apply visit visit_all outcome m {[owner]} credential node profile) as [Hf' _];
      [done|by eapply genuine_map|by rewrite Hr|done|by rewrite Hurls|].
    split; [exact Hf'|]. destruct Hf' as [_ _ (ids & Hids & Hau) _ _ _ _]. cbn in Hids.
    destruct Hus as [_ Hus _]. rewrite Hus in Hids. injection Hids as <-. exact Hau.
  - intros Hp Ht Hw Hnc Hne.
    assert (Hti : wr_issued_at request = issued_at) by (by injection Hs as <-).
    destruct (watch_refuses_removed env others wakeups resumed request id s) as (s1 & e & W' & He);
      [done|done|by rewrite Hti|done..|].
    rewrite W in W'. injection W' as <- ->.
    assert (Hd : dismissed node').
    { subst node'. unfold edge_answer. rewrite He. by eapply in_force_revoked. }
    split; [done|]. intros c i. by apply dismissed_closes.
Qed.

(** ** Restarts *)

(** The profile is on disk. *)
Definition saved (node : EdgeNode) profile : Prop :=
  load_control_profile (edge_files node) (en_control_path node) = Ok (Some profile).

(** A restart resumes from the profile on disk: when the last map was saved,
    the Edge comes back with the same Clients authorized and the same relays; but
    so does an Edge that Control dismissed, because the dismissal is not written
    anywhere, until its first watch is answered. *)
Theorem restart_resumes_profile outcome node profile dir ids credential fs :
  in_force node profile -> saved node profile -> en_control_path node = dir "control.json" ->
  usable (snm_map (pr_map profile)) ids credential -> urls_apart (map_urls (snm_map (pr_map profile))) ->
  nm_relay_ca_der (snm_map (pr_map profile)) <> [] ->
  (fs = edge_files node \/
   fs = edge_files (watch_step visit outcome WatchRevoked node)) ->
  exists node', run_iroh_edge (en_key node) dir [] None fs = Ok node' /\ in_force node' profile /\
    auth (sv_pin (en_serving node')) = auth (sv_pin (en_serving node)) /\ en_relays node' = en_relays node.
Proof.
  intros Hf Hs Hdir Hus Ha Hca Hfs.
  pose proof Hf as [Hp Hv (ids' & Hi & Hau) (c & Hc & Hcur) Hm Hw _].
  assert (Hl : load_control_profile fs (dir "control.json") = Ok (Some profile)).
  { rewrite <- Hdir. destruct Hfs as [-> | ->]; [done|]. rewrite <- Hs. f_equal.
    unfold watch_step. rewrite Hw, Hp. destruct (id_parse (pr_control_id profile)); [|done].
    unfold edge_files, on_serving. cbn. unfold replace_managed. by rewrite Hau. }
  destruct (start_in_force visit visit_all (en_key node) dir fs profile ids credential Hl Hv Hus Ha Hca)
    as (node' & R & Hf' & Hau' & _). exists node'. split; [done|]. split; [done|].
  destruct Hus as [Huc Hui _]. split; [rewrite Hau', Hau; congruence|].
  destruct Hf' as [_ _ _ (c' & Hc' & Hcur') Hm' _ _]. eapply relays_match_same; [exact Hm'|].
  rewrite Hcur'. replace c' with c by congruence. by rewrite <- Hcur.
Qed.

Lemma saved_after_map outcome next ids credential node profile :
  in_force node profile -> genuine (en_key node) profile next ->
  revision_of profile <= nm_revision (snm_map next) -> usable (snm_map next) ids credential ->
  urls_apart (map_urls (snm_map (pr_map profile)) ∪ map_urls (snm_map next)) ->
  outcome = Written -> pr_schema_version profile = 1 ->
  saved (watch_step visit outcome (WatchMap next) node) (with_map next profile).
Proof.
  intros [Hp Hv (ids0 & _ & Hau) (cred0 & _ & Hcur) Hm Hw Hpin] Hg Hrev Hus Hap -> Hsv.
  destruct Hg as (control_id & Hc & Hg). unfold watch_step. rewrite Hw, Hp, Hc.
  assert (Hk : check_map control_id (en_key node) profile next = Ok tt).
  { apply (check_map_Ok _ node); [done..|]. split; [by exists control_id|done]. }
  rewrite Hk. rewrite <- (dom_next_relays _ cred0), <- Hcur in Hap.
  destruct (apply_control_map_run visit visit_all next ids0 ids credential node Hm Hau Hus Hap)
    as (relays & Hm' & ->).
  unfold saved, load_control_profile, edge_files. cbn. rewrite lookup_insert_eq. cbn.
  rewrite from_slice_pretty_newline. cbn. by rewrite Hsv.
Qed.

(** ** Enrollment *)

(** What a successful [join_control] leaves. *)
Lemma join_control_inv join_url generated key_outcome issued_at nonce respond outcome fs fs' name profile :
  join_control join_url generated key_outcome issued_at nonce respond outcome fs = (fs', Ok (name, profile)) ->
  exists dir key token request joined control_id,
    who_dir name = Ok dir /\ token_verify token = Ok control_id /\
    claim_sign token key issued_at nonce = Ok request /\ respond request = Ok joined /\
    node_map_verify (jr_map joined) control_id (public key) = Ok tt /\
    read_secret fs' (dir "agent.key") = Some (Ok key) /\
    load_control_profile fs' (dir "control.json") = Ok (Some profile) /\
    profile = {| pr_schema_version := 1; pr_name := name; pr_control_url := inv_control_url (jt_invite token);
                 pr_control_id := id_to_string control_id; pr_audience := inv_audience (jt_invite token);
                 pr_endpoint_id := id_to_string (public key); pr_map := jr_map joined |}.
Proof.
  unfold join_control. intros J.
  do 4 (hstep J; try done). cbv zeta in J. do 4 (hstep J; try done).
  apply bind_inv in J as [(key & fs1 & L & J)|(e & _ & ?)]; [|done].
  do 3 (hstep J; try done).
  apply bind_inv in J as [([] & fs2 & P & J)|(e & _ & ?)]; [|done]. injection J as <- <- <-.
  unfold persist_profile, write_json, atomic_write in P. destruct outcome; try done. injection P as <-.
  unfold who_dir in E4. apply bind_Ok in E4 as E4'. destruct E4' as (_ & _ & [= <-]).
  eexists _, key, a1, a4, a5, a2. split_and!; [done..| | |done].
  - rewrite read_secret_elsewhere; [by eapply load_key_readable|].
    intros Heq. apply (f_equal (Str.strip_prefix (inv_name (jt_invite a1)))) in Heq.
    by rewrite !Str.strip_prefix_app in Heq.
  - unfold load_control_profile. rewrite lookup_insert_eq. by rewrite from_slice_pretty_newline.
Qed.

(** The profile that an Edge wrote for the answer to its claim starts it. *)
Lemma enrolled_profile_starts env s s' token key issued_at nonce request joined control_id dir name fs' :
  store_ok s -> claim_sign token key issued_at nonce = Ok request -> claim env request s = (s', Ok joined) ->
  node_map_verify (jr_map joined) control_id (public key) = Ok tt ->
  let profile := {| pr_schema_version := 1; pr_name := name; pr_control_url := inv_control_url (jt_invite token);
    pr_control_id := id_to_string control_id; pr_audience := inv_audience (jt_invite token);
    pr_endpoint_id := id_to_string (public key); pr_map := jr_map joined |} in
  load_control_profile fs' (dir "control.json") = Ok (Some profile) ->
  forall e owner,
    Vec.find (fun edge => e_endpoint_id edge == id_to_string (public key)) (st_edges (s_state s')) = Some e ->
    id_parse (e_owner_id e) = Some owner ->
    urls_parse (state_urls (s_state s')) -> urls_apart (state_urls (s_state s')) ->
    exists node, run_iroh_edge key dir [] None fs' = Ok node /\ in_force node profile /\
      auth (sv_pin (en_serving node)) = Managed {[owner]}.
Proof.
  intros Hok Hreq C Hver profile Hload e owner He Ho Hu Ha.
  destruct (claim_leaves_record _ _ _ _ _ Hok C) as (id & record & Hid & Hok' & Hk & Haud & Hurl & _ & Hinv & _ &
    _ & _ & _ & _ & _ & Haud' & Hurl' & Hmap).
  assert (Eid : id = public key).
  { injection Hreq as <-. cbn in Hid. rewrite id_parse_to_string in Hid. congruence. }
  subst id. destruct (edge_map _ _ _ _ _ _ _ He Ho Hu Hmap) as ((credential & Hus) & Hurls & _ & Hma & Hmu & Hca).
  assert (Htr : cr_token request = token) by (by injection Hreq as <-). rewrite Htr in Hinv.
  destruct (start_in_force visit visit_all key dir fs' _ {[owner]} credential Hload) as (node & R & Hf & Hau & _).
  - unfold verify_profile. cbn. rewrite id_parse_to_string. cbn. rewrite (bool_decide_eq_true_2 (id_to_string _ = id_to_string _) eq_refl). cbn.
    rewrite Hver. cbn. rewrite Hma, Hmu, <- Hinv, Haud', Hurl', Haud, Hurl.
    rewrite (bool_decide_eq_true_2 (st_audience _ = _)), (bool_decide_eq_true_2 (st_public_url _ = _)); done.
  - exact Hus.
  - cbn. by rewrite Hurls.
  - cbn. rewrite Hca. pose proof (so_metadata _ (store_ok_state s' Hok')) as Hm.
    unfold check_metadata in Hm. cbn in Hm. by breflect.
  - by exists node.
Qed.

(** Enrollment ends with an Edge that serves its owner: when [join_control]
    succeeds against Control, the Edge can be started from the files it left,
    with the key it enrolled, and its map is in force: exactly the owner of the
    record that the claim registered is authorized. *)
Theorem enrolled_edge_serves_owner env s join_url generated key_outcome issued_at nonce outcome fs fs' name profile :
  store_ok s ->
  join_control join_url generated key_outcome issued_at nonce (claim_answer env s) outcome fs
    = (fs', Ok (name, profile)) ->
  exists dir key request s' r,
    who_dir name = Ok dir /\ read_secret fs' (dir "agent.key") = Some (Ok key) /\
    claim env request s = (s', Ok r) /\ cl_endpoint_id (cr_claim request) = id_to_string (public key) /\
    forall e owner,
      Vec.find (fun edge => e_endpoint_id edge == id_to_string (public key)) (st_edges (s_state s')) = Some e ->
      id_parse (e_owner_id e) = Some owner ->
      urls_parse (state_urls (s_state s')) -> urls_apart (state_urls (s_state s')) ->
      exists node, run_iroh_edge key dir [] None fs' = Ok node /\ in_force node profile /\
    auth (sv_pin (en_serving node)) = Managed {[owner]}.
Proof.
  intros Hok J. apply join_control_inv in J as (dir & key & token & request & joined & control_id &
    Hdir & Htok & Hreq & Hresp & Hver & Hkey & Hload & ->).
  unfold claim_answer in Hresp. destruct (claim env request s) as [s' r] eqn:C. cbn in Hresp.
  apply map_err_Ok in Hresp as ->. exists dir, key, request, s', joined. split_and!; [done..|by injection Hreq as <-|].
  by eapply enrolled_profile_starts.
Qed.
End EdgeSystem.
