(* ===== verification/ClientConfig.v ===== *)
(** * agent-scale: the Client's configuration (src/crates/agent-scale/src/{common,control,edge}.rs)

    config.json holds the Edges a Client may use: those the user added, and, once
    it is enrolled, those of the map Control signed for it. Commands change it in
    a transaction under a lock file, across a request to Control; the daemon's
    watcher loads it, waits for Control and saves it without that lock, so its
    steps may fall between those of a command. *)
From S2P Require Import Prelude Deps RelayApi ControlApi Files Transport RelayTable EdgeNode.
Open Scope string_scope.
Open Scope Z_scope.

Definition CONFIG_SCHEMA : Z := 1.

Record EdgeCfg := {
  ec_name : string;
  ec_endpoint_id : string;
  ec_relays : list string;
  ec_managed : bool;
}.

Section ClientConfig.
Context `{Keys, Encodings, !ControlSerde, !Urls}.

Record ControlCfg := {
  cc_name : string;
  cc_url : string;
  cc_control_id : string;
  cc_audience : string;
  cc_map : SignedNodeMap;
}.

Record Config := {
  cfg_schema_version : Z;
  cfg_edges : list EdgeCfg;
  cfg_control : option ControlCfg;
}.

Context `{!SerdePretty Config}.
Implicit Types (config : Config) (fs : Fs string) (map : SignedNodeMap).
Notation command A := (handler (Fs string) string A).

(** [Config::default()] *)
Definition config_default : Config :=
  {| cfg_schema_version := CONFIG_SCHEMA; cfg_edges := []; cfg_control := None |}.

Definition config_path : string := "config.json".

Definition parse_config (data : bytes) : result string Config :=
  config ← of_option (from_slice data) "parse config.json";
  ensure (cfg_schema_version config == CONFIG_SCHEMA) "unsupported config schema";;
  Ok config.

Definition load_config_or_default fs : result string Config :=
  match fs !! config_path with
  | Some data => parse_config data
  | None => Ok config_default
  end.

Definition save_config (outcome : WriteOutcome) config : command unit :=
  write_json outcome config_path config.

Definition with_edges (edges : list EdgeCfg) config : Config := {|
  cfg_schema_version := cfg_schema_version config; cfg_edges := edges; cfg_control := cfg_control config |}.
Definition with_control (control : option ControlCfg) config : Config := {|
  cfg_schema_version := cfg_schema_version config; cfg_edges := cfg_edges config; cfg_control := control |}.
Definition control_with_map map (control : ControlCfg) : ControlCfg := {|
  cc_name := cc_name control; cc_url := cc_url control; cc_control_id := cc_control_id control;
  cc_audience := cc_audience control; cc_map := map |}.

(** ** Applying a map *)

(** The Edges of a map as configuration entries *)
Definition map_edges map : list EdgeCfg :=
  (fun edge => {| ec_name := ei_name edge; ec_endpoint_id := ei_endpoint_id edge;
                  ec_relays := ri_url <$> nm_relays (snm_map map); ec_managed := true |})
  <$> nm_edges (snm_map map).

Definition manual_edges config : list EdgeCfg := Vec.retain (fun edge => negb (ec_managed edge)) (cfg_edges config).

Definition apply_map map config : result string Config :=
  let manual_names := ec_name <$> manual_edges config in
  ensure (Vec.all (fun edge => negb (bool_decide (ei_name edge ∈ manual_names))) (nm_edges (snm_map map)))
    "control edge conflicts with a manual edge";;
  control ← of_option (cfg_control config) "missing control profile";
  Ok {| cfg_schema_version := cfg_schema_version config;
        cfg_edges := (manual_edges config ++ map_edges map)%list;
        cfg_control := Some (control_with_map map control) |}.

(** The checks of a map from Control, before its revision is compared *)
Definition check_binding (key : SecretKey) (control : ControlCfg) map : result string unit :=
  control_id ← of_option (id_parse (cc_control_id control)) "invalid cached control id";
  node_map_verify map control_id (public key);;
  ensure ((nm_audience (snm_map map) == cc_audience control) &&
          (nm_control_url (snm_map map) == cc_url control)) "control map binding mismatch".

Definition revision map : Z := nm_revision (snm_map map).

(** ** Control requests; an answer is what the HTTP client got *)

Inductive WatchOutcome := Updated | Unchanged | Revoked.

Definition watch_config (key : SecretKey) (answer : WatchAnswer) config : result string (Config * WatchOutcome) :=
  control ← of_option (cfg_control config) "client is not enrolled in control";
  match answer with
  | WatchNoContent => Ok (config, Unchanged)
  | WatchRevoked => Ok (config, Revoked)
  | WatchMap map =>
      check_binding key control map;;
      ensure (revision (cc_map control) <=? revision map) "control map rolled back";;
      config ← apply_map map config;
      Ok (config, Updated)
  | WatchUndecodable | WatchFailed => Err "control request failed"
  end.

Definition sync_config (key : SecretKey) (answer : WatchAnswer) config : result string Config :=
  control ← of_option (cfg_control config) "client is not enrolled in control";
  match answer with
  | WatchMap map =>
      check_binding key control map;;
      ensure (revision (cc_map control) <=? revision map) "control map rolled back";;
      apply_map map config
  | _ => Err "control request failed"
  end.

(** ** Commands *)

(** [config_transaction] ... [commit]: [others] is what the daemon's watcher does
    to the files while the command waits for Control. *)
Definition transaction {A} (others : Fs string -> Fs string) (outcome : WriteOutcome)
  (body : Config -> result string (Config * A)) : command A :=
  fs ← get id;
  config ← lift (load_config_or_default fs);
  interleave others;;
  '(config, value) ← lift (body config);
  save_config outcome config;;
  mret value.

(** [control::join]; [respond] is Control's answer to the claim. *)
Definition join_body (join_url : string) (key : SecretKey) (issued_at : Z) (nonce : string)
  (respond : ClaimRequest -> result string JoinResult) config : result string (Config * unit) :=
  ensure (match cfg_control config with None => true | Some _ => false end)
    "this client is already enrolled in control";;
  ensure (match cfg_edges config with [] => true | _ => false end)
    "remove standalone edges before joining control";;
  parsed ← url_parse join_url;
  fragment ← of_option (url_fragment parsed) "join URL is missing its token fragment";
  token ← token_decode fragment;
  control_id ← token_verify token;
  let invite := jt_invite token in
  ensure (match inv_kind invite with KClient => true | _ => false end) "this invitation is not for a client";;
  request ← claim_sign token key issued_at nonce;
  joined ← respond request;
  node_map_verify (jr_map joined) control_id (public key);;
  config ← apply_map (jr_map joined) (with_control (Some {|
    cc_name := inv_name invite; cc_url := inv_control_url invite;
    cc_control_id := id_to_string control_id; cc_audience := inv_audience invite;
    cc_map := jr_map joined |}) config);
  Ok (config, tt).

Definition join others outcome join_url key issued_at nonce respond : command unit :=
  transaction others outcome (join_body join_url key issued_at nonce respond).

(** [control::sync] and [control::refresh_cache], which does nothing for a Client
    that is not enrolled *)
Definition sync_command others outcome (key : SecretKey) (answer : WatchAnswer) : command unit :=
  transaction others outcome (fun config => config ← sync_config key answer config; Ok (config, tt)).

Definition refresh_cache others outcome (key : SecretKey) (answer : WatchAnswer) : command unit :=
  fs ← get id;
  config ← lift (load_config_or_default fs);
  match cfg_control config with
  | None => mret tt
  | Some _ => sync_command others outcome key answer
  end.

(** [control::edge_remove]; [respond] gets the signed request. *)
Definition edge_remove_body (name : string) (key : SecretKey) (issued_at : Z) (nonce : string)
  (respond : EdgeRemoveRequest -> result string SignedNodeMap) config : result string (Config * unit) :=
  control ← of_option (cfg_control config) "client is not enrolled in control";
  edge ← of_option (Vec.find (fun edge => ec_managed edge && (ec_name edge == name)) (cfg_edges config))
    "no managed edge with this name";
  request ← edge_remove_sign key (cc_audience control) nonce issued_at name (ec_endpoint_id edge);
  map ← respond request;
  check_binding key control map;;
  ensure (revision (cc_map control) <? revision map) "control revision did not advance";;
  config ← apply_map map config;
  Ok (config, tt).

Definition edge_remove others outcome name key issued_at nonce respond : command unit :=
  transaction others outcome (edge_remove_body name key issued_at nonce respond).

(** [edge::add]; [relays] are the parsed and printed URLs. *)
Definition add_body (name endpoint_id : string) (relays : list string) config : result string (Config * bool) :=
  ensure (match cfg_control config with None => true | Some _ => false end)
    "manual edges cannot be changed in a control-managed profile";;
  match Vec.find (fun e => ec_name e == name) (cfg_edges config) with
  | Some _ =>
      let update := fix update edges := match edges with
        | [] => []
        | e :: edges =>
            if ec_name e == name
            then {| ec_name := ec_name e; ec_endpoint_id := endpoint_id; ec_relays := relays;
                    ec_managed := ec_managed e |} :: edges
            else e :: update edges
        end in
      Ok (with_edges (update (cfg_edges config)) config, true)
  | None =>
      Ok (with_edges (cfg_edges config ++ [{| ec_name := name; ec_endpoint_id := endpoint_id;
                                              ec_relays := relays; ec_managed := false |}]) config, false)
  end.

Definition edge_add others outcome (name endpoint_id : string) (relays : list string) : command bool :=
  lift (of_option (id_parse endpoint_id) "invalid endpoint_id");;
  transaction others outcome (add_body name endpoint_id relays).

(** [edge::rm] of a standalone Client *)
Definition rm_body (name : string) config : result string (Config * unit) :=
  ensure (Vec.any (fun e => ec_name e == name) (cfg_edges config)) "no edge with this name";;
  Ok (with_edges (Vec.retain (fun e => ec_name e != name) (cfg_edges config)) config, tt).

Definition edge_rm others outcome name key issued_at nonce respond : command unit :=
  fs ← get id;
  config ← lift (load_config_or_default fs);
  match cfg_control config with
  | Some _ => edge_remove others outcome name key issued_at nonce respond
  | None => transaction others outcome (rm_body name)
  end.

(** ** The daemon's watcher *)

(** Loading the configuration for a watch; the loop ends without enrollment. *)
Definition watcher_load fs : result string Config :=
  config ← load_config_or_default fs;
  ensure (match cfg_control config with Some _ => true | None => false end) "not enrolled";;
  Ok config.

(** What a turn of the loop saves when Control has answered the watch it began
    with [config] *)
Definition watcher_save (outcome : WriteOutcome) (key : SecretKey) (answer : WatchAnswer) config : command unit :=
  '(config, result) ← lift (watch_config key answer config);
  match result with
  | Updated => save_config outcome config
  | Unchanged => mret tt
  | Revoked => save_config outcome (with_edges (manual_edges config) config)
  end.

(** ** Any history of commands and watches *)

Inductive ClientCommand :=
| CmdJoin (join_url : string) (issued_at : Z) (nonce : string)
    (respond : ClaimRequest -> result string JoinResult)
| CmdSync (answer : WatchAnswer)
| CmdRemove (name : string) (issued_at : Z) (nonce : string)
    (respond : EdgeRemoveRequest -> result string SignedNodeMap)
| CmdAdd (name endpoint_id : string) (relays : list string)
| CmdRm (name : string).

Definition command_body (key : SecretKey) (cmd : ClientCommand) config : result string Config :=
  match cmd with
  | CmdJoin join_url issued_at nonce respond =>
      '(config, _) ← join_body join_url key issued_at nonce respond config; Ok config
  | CmdSync answer => sync_config key answer config
  | CmdRemove name issued_at nonce respond =>
      '(config, _) ← edge_remove_body name key issued_at nonce respond config; Ok config
  | CmdAdd name endpoint_id relays => '(config, _) ← add_body name endpoint_id relays config; Ok config
  | CmdRm name => '(config, _) ← rm_body name config; Ok config
  end.

(** The file, and the configurations the running command and the watcher have
    loaded. The transaction lock allows one command at a time. *)
Record ClientState := {
  cs_files : Fs string;
  cs_command : option Config;
  cs_watch : option Config;
}.

Inductive ClientStep :=
| CommandLoads
| CommandEnds (cmd : ClientCommand) (outcome : WriteOutcome)
| WatcherLoads
| WatcherEnds (answer : WatchAnswer) (outcome : WriteOutcome).

Definition loaded {A} (r : result string A) : option A := match r with Ok x => Some x | Err _ => None end.

Definition client_step (key : SecretKey) (step : ClientStep) (cs : ClientState) : ClientState :=
  match step with
  | CommandLoads =>
      match cs_command cs with
      | Some _ => cs
      | None => {| cs_files := cs_files cs; cs_command := loaded (load_config_or_default (cs_files cs));
                   cs_watch := cs_watch cs |}
      end
  | CommandEnds cmd outcome =>
      match cs_command cs with
      | None => cs
      | Some config =>
          {| cs_files := match command_body key cmd config with
                         | Ok config => (save_config outcome config (cs_files cs)).1
                         | Err _ => cs_files cs
                         end;
             cs_command := None; cs_watch := cs_watch cs |}
      end
  | WatcherLoads =>
      {| cs_files := cs_files cs; cs_command := cs_command cs; cs_watch := loaded (watcher_load (cs_files cs)) |}
  | WatcherEnds answer outcome =>
      match cs_watch cs with
      | None => cs
      | Some config =>
          {| cs_files := (watcher_save outcome key answer config (cs_files cs)).1;
             cs_command := cs_command cs; cs_watch := None |}
      end
  end.

Definition client_run (key : SecretKey) (steps : list ClientStep) (cs : ClientState) : ClientState :=
  fold_left (fun cs step => client_step key step cs) steps cs.

(** Every managed Edge is in a map that the Client's Control signed for it. *)
Definition config_ok (key : SecretKey) config : Prop :=
  (forall control, cfg_control config = Some control ->
     exists control_id, id_parse (cc_control_id control) = Some control_id /\
       node_map_verify (cc_map control) control_id (public key) = Ok tt) /\
  (forall edge, edge ∈ cfg_edges config -> ec_managed edge = true ->
     exists control, cfg_control config = Some control /\ edge ∈ map_edges (cc_map control)).

Lemma apply_map_Ok map config config' :
  apply_map map config = Ok config' ->
  exists control, cfg_control config = Some control /\
    cfg_control config' = Some (control_with_map map control) /\
    cfg_edges config' = (manual_edges config ++ map_edges map)%list /\
    cfg_schema_version config' = cfg_schema_version config.
Proof. unfold apply_map. intros A. run_ok. by eexists. Qed.

Lemma manual_not_managed config edge :
  edge ∈ manual_edges config -> edge ∈ cfg_edges config /\ ec_managed edge = false.
Proof. intros [He Hm]%Vec.elem_of_retain. by destruct (ec_managed edge). Qed.

Lemma apply_map_config_ok key map config config' control control_id :
  apply_map map config = Ok config' -> cfg_control config = Some control ->
  id_parse (cc_control_id control) = Some control_id -> node_map_verify map control_id (public key) = Ok tt ->
  config_ok key config'.
Proof.
  intros (c & Hc & Hc' & He & _)%apply_map_Ok Hcc Hid Hv. replace c with control in * by congruence.
  split.
  - intros c' Ec'. rewrite Hc' in Ec'. injection Ec' as <-. by exists control_id.
  - intros edge Hin Hm. rewrite He, elem_of_app in Hin. exists (control_with_map map control).
    split; [done|]. destruct Hin as [[_ Hm']%manual_not_managed|Hin]; [congruence|done].
Qed.

Lemma check_binding_verified key control map :
  check_binding key control map = Ok tt ->
  exists control_id, id_parse (cc_control_id control) = Some control_id /\
    node_map_verify map control_id (public key) = Ok tt.
Proof. unfold check_binding. intros B. run_ok. destruct x0. by eexists. Qed.

Lemma sync_config_ok key answer config config' :
  sync_config key answer config = Ok config' -> config_ok key config'.
Proof.
  unfold sync_config. intros S. apply bind_Ok in S as (control & Hc%of_option_Ok & S).
  destruct answer as [|map| | |]; try done.
  apply bind_Ok in S as ([] & Hb & S). apply bind_Ok in S as ([] & _ & S).
  apply check_binding_verified in Hb as (control_id & ? & ?). by eapply apply_map_config_ok.
Qed.

Lemma without_managed key config edges :
  config_ok key config -> (forall edge, edge ∈ edges -> edge ∈ cfg_edges config \/ ec_managed edge = false) ->
  config_ok key (with_edges edges config).
Proof.
  intros [Hc He] Hin. split; [exact Hc|]. intros edge Hedge Hm. cbn in *.
  destruct (Hin edge Hedge) as [?|?]; [by apply He|congruence].
Qed.

Lemma command_body_ok `{!KeysLaws} key cmd config config' :
  config_ok key config -> command_body key cmd config = Ok config' -> config_ok key config'.
Proof.
  intros Hok. destruct cmd as [url at_ nonce respond|answer|name at_ nonce respond|name id relays|name]; cbn; intros R.
  - apply bind_Ok in R as ([c []] & J & [= <-]). unfold join_body in J. run_ok.
    eapply apply_map_config_ok; [done|done|apply id_parse_to_string|]. cbn.
    match goal with E : node_map_verify _ _ _ = Ok ?u |- _ => by destruct u end.
  - by eapply sync_config_ok.
  - apply bind_Ok in R as ([c []] & J & [= <-]). unfold edge_remove_body in J. run_ok.
    match goal with E : check_binding _ _ _ = Ok ?u |- _ =>
      destruct u; apply check_binding_verified in E as (? & ? & ?) end.
    by eapply apply_map_config_ok.
  - apply bind_Ok in R as ([c u] & A & [= <-]). unfold add_body in A. apply bind_Ok in A as ([] & Hn%ensure_Ok & A).
    assert (Hm : forall e, e ∈ cfg_edges config -> ec_managed e = false).
    { intros e He. destruct (ec_managed e) eqn:Em; [|done]. destruct Hok as [_ Hok].
      destruct (Hok e He Em) as (? & Hc & _). by rewrite Hc in Hn. }
    destruct (Vec.find _ _) as [e0|]; injection A as <- <-; apply without_managed; try done.
    + intros e. induction (cfg_edges config) as [|e' es IH]; cbn; [by left|].
      case_bool_decide; rewrite !elem_of_cons.
      * intros [->|?]; [right; cbn; apply Hm; left|left; by right].
      * intros [->|?]; [left; by left|]. destruct IH as [?|?]; [intros; apply Hm; by right|done|left; by right|by right].
    + intros e [He|He%list_elem_of_singleton]%elem_of_app; [by left|]. right. by subst.
  - apply bind_Ok in R as ([c []] & A & [= <-]). unfold rm_body in A. run_ok.
    apply without_managed; [done|]. intros e [He _]%Vec.elem_of_retain. by left.
Qed.

(** *** Enrollment and revisions *)

Definition same_enrollment (c c0 : ControlCfg) : Prop :=
  cc_name c = cc_name c0 /\ cc_url c = cc_url c0 /\ cc_control_id c = cc_control_id c0 /\
  cc_audience c = cc_audience c0.

(** [config] belongs to the enrollment [enrolled], if there is one, with a map at
    least as new as [since]. *)
Definition continues (enrolled : option ControlCfg) (since : Z) config : Prop :=
  cfg_schema_version config = CONFIG_SCHEMA /\
  forall c0, enrolled = Some c0 ->
    exists c, cfg_control config = Some c /\ same_enrollment c c0 /\ since <= revision (cc_map c).

Lemma continues_apply enrolled since map config config' :
  (forall c, cfg_control config = Some c -> revision (cc_map c) <= revision map) ->
  continues enrolled since config -> apply_map map config = Ok config' -> continues enrolled since config'.
Proof.
  intros Hrev [Hv Hc] (c & Ec & Ec' & _ & Hv')%apply_map_Ok. split; [congruence|].
  intros c0 E0. destruct (Hc c0 E0) as (c1 & E1 & Hs & Hr). replace c1 with c in * by congruence.
  exists (control_with_map map c). split; [done|]. split; [done|]. cbn. specialize (Hrev c Ec). lia.
Qed.

Lemma sync_config_inv key answer config config' :
  sync_config key answer config = Ok config' ->
  exists map, answer = WatchMap map /\ apply_map map config = Ok config' /\
    forall c, cfg_control config = Some c -> revision (cc_map c) <= revision map.
Proof.
  unfold sync_config. intros S. apply bind_Ok in S as (control & Hc%of_option_Ok & S).
  destruct answer as [|map| | |]; try done.
  apply bind_Ok in S as ([] & Hb & S). apply bind_Ok in S as ([] & Hr%ensure_Ok & S).
  exists map. split; [done|]. split; [done|]. intros c Ec. replace c with control by congruence. lia.
Qed.

Lemma command_body_continues key cmd enrolled since config config' :
  continues enrolled since config -> command_body key cmd config = Ok config' -> continues enrolled since config'.
Proof.
  intros Hc. destruct cmd as [url at_ nonce respond|answer|name at_ nonce respond|name id relays|name]; cbn; intros R.
  - apply bind_Ok in R as ([c []] & J & [= <-]). unfold join_body in J.
    apply bind_Ok in J as ([] & Hn%ensure_Ok & J). destruct Hc as [Hv Hc].
    run_ok. match goal with E : apply_map _ _ = Ok _ |- _ => apply apply_map_Ok in E as (c' & Ec & Ec' & _ & Hv') end.
    cbn in Ec, Hv'. split; [congruence|].
    intros c0 E0. destruct (Hc c0 E0) as (c1 & E1 & _). by rewrite E1 in Hn.
  - apply sync_config_inv in R as (map & _ & R & Hrev). by eapply continues_apply.
  - apply bind_Ok in R as ([c []] & J & [= <-]). unfold edge_remove_body in J. run_ok.
    eapply continues_apply; [|done|done]. intros c1 E1. replace c1 with x by congruence. lia.
  - apply bind_Ok in R as ([c u] & A & [= <-]). unfold add_body in A. apply bind_Ok in A as ([] & _ & A).
    by destruct (Vec.find _ _); injection A as <- <-.
  - apply bind_Ok in R as ([c []] & A & [= <-]). unfold rm_body in A. by run_ok.
Qed.

Lemma load_saved `{!SerdePrettyLaws Config} config fs :
  cfg_schema_version config = CONFIG_SCHEMA ->
  load_config_or_default (<[config_path := (to_vec_pretty config ++ [newline_byte])%list]> fs) = Ok config.
Proof.
  intros Hv. unfold load_config_or_default, parse_config. rewrite lookup_insert_eq, from_slice_pretty_newline.
  cbn. by rewrite Hv.
Qed.

(** The file, the command and the watcher all hold configurations of [P]. *)
Record all_hold (P : Config -> Prop) (cs : ClientState) : Prop := {
  ah_disk : exists config, load_config_or_default (cs_files cs) = Ok config /\ P config;
  ah_command : forall config, cs_command cs = Some config -> P config;
  ah_watch : forall config, cs_watch cs = Some config -> P config;
}.

Lemma save_holds `{!SerdePrettyLaws Config} (P : Config -> Prop) outcome config fs :
  (forall config, P config -> cfg_schema_version config = CONFIG_SCHEMA) ->
  (exists config, load_config_or_default fs = Ok config /\ P config) -> P config ->
  exists config', load_config_or_default ((save_config outcome config fs).1) = Ok config' /\ P config'.
Proof.
  intros Hs Hfs Hp. unfold save_config, write_json, atomic_write.
  destruct outcome; cbn; [done|exists config; split; [|done]; by apply load_saved, Hs..].
Qed.

(** A property that commands and watches preserve holds throughout. *)
Lemma client_step_holds `{!SerdePrettyLaws Config} (P : Config -> Prop) key step cs :
  (forall config, P config -> cfg_schema_version config = CONFIG_SCHEMA) ->
  (forall cmd config config', P config -> command_body key cmd config = Ok config' -> P config') ->
  (forall answer outcome config, step = WatcherEnds answer outcome -> P config -> P (with_edges (manual_edges config) config)) ->
  all_hold P cs -> all_hold P (client_step key step cs).
Proof.
  intros Hs Hcmd Hw [Hd Hc Hwt]. destruct step as [|cmd outcome| |answer outcome]; cbn.
  - destruct (cs_command cs) as [c|] eqn:Ec; [split; [done|by rewrite Ec|done]|]. split; cbn; [done| |done].
    intros config E. destruct Hd as (c & Hl & Hp). rewrite Hl in E. by injection E as <-.
  - destruct (cs_command cs) as [c|] eqn:Ec; [|split; [done|by rewrite Ec|done]]. split; cbn; [|done|done].
    destruct (command_body key cmd c) as [c'|] eqn:B; [|done].
    apply save_holds; [done|done|]. eapply Hcmd; [|done]. by apply Hc.
  - split; cbn; [done|done|]. intros config E. destruct Hd as (c & Hl & Hp).
    unfold watcher_load in E. rewrite Hl in E. cbn in E. destruct (cfg_control c); [|done]. by injection E as <-.
  - destruct (cs_watch cs) as [c|] eqn:Ec; [|split; [done|done|by rewrite Ec]]. split; cbn; [|done|done].
    unfold watcher_save, mbind, handler_bind, lift.
    destruct (watch_config key answer c) as [[c' result]|] eqn:W; [|done].
    assert (Hc' : P c /\ (result <> Updated -> c' = c)).
    { split; [by apply Hwt|]. intros Hr. unfold watch_config in W. apply bind_Ok in W as (control & _ & W).
      destruct answer as [|map| | |]; try done; [congruence| |congruence].
      apply bind_Ok in W as ([] & _ & W). apply bind_Ok in W as ([] & _ & W).
      apply bind_Ok in W as (c1 & _ & W). congruence. }
    destruct Hc' as [Hp Hsame]. destruct result.
    + apply save_holds; [done|done|]. apply (Hcmd (CmdSync answer) c); [done|]. cbn.
      unfold watch_config in W. unfold sync_config. destruct (cfg_control c); [|done]. cbn in *.
      destruct answer as [|map| | |]; try done.
      apply bind_Ok in W as ([] & -> & W). apply bind_Ok in W as ([] & -> & W). cbn.
      by apply bind_Ok in W as (c1 & -> & [= ->]).
    + done.
    + rewrite Hsame by done. apply save_holds; [done|done|]. by eapply Hw.
Qed.

Lemma client_run_holds `{!SerdePrettyLaws Config} (P : Config -> Prop) key steps cs :
  (forall config, P config -> cfg_schema_version config = CONFIG_SCHEMA) ->
  (forall cmd config config', P config -> command_body key cmd config = Ok config' -> P config') ->
  (forall config, P config -> P (with_edges (manual_edges config) config)) ->
  all_hold P cs -> all_hold P (client_run key steps cs).
Proof.
  intros Hs Hcmd Hw. unfold client_run. revert cs. induction steps as [|step steps IH]; intros cs Hcs; [done|].
  cbn. apply IH, client_step_holds; auto.
Qed.

Lemma load_schema fs config : load_config_or_default fs = Ok config -> cfg_schema_version config = CONFIG_SCHEMA.
Proof.
  unfold load_config_or_default, parse_config. destruct (fs !! config_path); [|by intros [= <-]].
  intros L. by run_ok.
Qed.

(** A file with no command and no watch under way. *)
Definition client_idle fs : ClientState := {| cs_files := fs; cs_command := None; cs_watch := None |}.

(** C14. A Client trusts only its Control: after any interleaving of commands,
    watches and write failures, config.json can be read; every managed Edge in it
    is one of a map that this Control signed for this Client; and an enrolled
    Client keeps its enrollment and never falls behind the map it started with. *)
Theorem client_trusts_only_its_control `{!KeysLaws, !SerdePrettyLaws Config} key fs config0 steps :
  load_config_or_default fs = Ok config0 -> config_ok key config0 ->
  exists config,
    load_config_or_default (cs_files (client_run key steps (client_idle fs))) = Ok config /\
    config_ok key config /\
    forall c0, cfg_control config0 = Some c0 ->
      exists c, cfg_control config = Some c /\ same_enrollment c c0 /\
        revision (cc_map c0) <= revision (cc_map c).
Proof.
  intros Hl Hok.
  set (since := match cfg_control config0 with Some c0 => revision (cc_map c0) | None => 0 end).
  set (P := fun config => config_ok key config /\ continues (cfg_control config0) since config).
  destruct (client_run_holds P key steps (client_idle fs)) as [(config & Hl' & Hok' & Hc) _ _].
  - by intros config [_ [Hv _]].
  - intros cmd config config' [Ho Hc] B. split; [by eapply command_body_ok|by eapply command_body_continues].
  - intros config [Ho Hc]. split; [|exact Hc]. apply without_managed; [done|].
    intros e [He _]%manual_not_managed. by left.
  - split; [|done..]. exists config0. split; [done|]. split; [done|]. split; [by eapply load_schema|].
    intros c0 E0. exists c0. split; [done|]. split; [done|]. subst since. by rewrite E0.
  - exists config. split; [done|]. split; [done|]. intros c0 E0. destruct Hc as [_ Hc].
    subst since. rewrite E0 in Hc. by apply Hc.
Qed.

(** *** The watcher saves without the lock *)

Lemma sync_applies key map config control :
  cfg_control config = Some control -> check_binding key control map = Ok tt ->
  revision (cc_map control) <= revision map -> manual_edges config = [] ->
  exists config', sync_config key (WatchMap map) config = Ok config' /\
    watch_config key (WatchMap map) config = Ok (config', Updated) /\
    cfg_control config' = Some (control_with_map map control) /\ cfg_edges config' = map_edges map /\
    cfg_schema_version config' = cfg_schema_version config.
Proof.
  intros Hc Hb Hr Hm. unfold sync_config, watch_config. rewrite Hc. cbn. rewrite Hb. cbn.
  rewrite (proj2 (Z.leb_le _ _) Hr). cbn. unfold apply_map. rewrite Hm, Hc.
  replace (Vec.all _ _) with true; [cbn; by eexists|]. symmetry. by apply Vec.all_true.
Qed.

(** C40. The watcher can undo a newer map: it loads config.json, a command then
    stores the map [newer], and the watcher saves what it received for its own,
    older request: config.json goes back to the map [older] and its Edges, though
    both the command and the watcher refuse a map older than the one they
    loaded. *)
Theorem watcher_can_roll_back `{!SerdePrettyLaws Config} key fs config control older newer :
  load_config_or_default fs = Ok config -> cfg_control config = Some control -> manual_edges config = [] ->
  check_binding key control older = Ok tt -> check_binding key control newer = Ok tt ->
  revision (cc_map control) <= revision older -> revision older < revision newer ->
  let stored := client_run key [WatcherLoads; CommandLoads; CommandEnds (CmdSync (WatchMap newer)) Written]
    (client_idle fs) in
  let final := client_step key (WatcherEnds (WatchMap older) Written) stored in
  exists before after,
    load_config_or_default (cs_files stored) = Ok before /\ load_config_or_default (cs_files final) = Ok after /\
    cfg_control before = Some (control_with_map newer control) /\ cfg_edges before = map_edges newer /\
    cfg_control after = Some (control_with_map older control) /\ cfg_edges after = map_edges older.
Proof.
  intros Hl Hc Hm Ho Hn Hro Hlt. pose proof (load_schema _ _ Hl) as Hv.
  destruct (sync_applies key newer config control Hc Hn) as (before & Sn & _ & Cn & En & Vn); [lia|done|].
  destruct (sync_applies key older config control Hc Ho Hro Hm) as (after & _ & Wo & Co & Eo & Vo).
  assert (Hw : watcher_load fs = Ok config) by (unfold watcher_load; rewrite Hl; cbn; by rewrite Hc).
  exists before, after. unfold client_run, client_idle. cbn [fold_left client_step cs_files cs_command cs_watch].
  rewrite Hl, Hw. cbn [loaded command_body cs_files cs_command cs_watch]. rewrite Sn.
  unfold watcher_save, mbind, handler_bind, lift. rewrite Wo.
  unfold save_config, write_json, atomic_write. cbn [fst cs_files]. rewrite !load_saved by congruence. done.
Qed.
End ClientConfig.
