(* ===== verification/ClientSystem.v ===== *)
(** * Control, a Client and its Edges composed

    What a Client's configuration holds after a sync with Control, and that the
    two ends of the data plane agree: a Client has an Edge in its configuration
    exactly when that Edge, on a map of the same registry, admits the Client. *)
From S2P Require Import Prelude Deps RelayApi ControlApi State Database ControlCore ControlHandlers.
From S2P Require Import ControlSpec ControlInvariant NodeMaps Enrollment Files Transport RelayTable EdgePin EdgeNode EdgeSystem ClientConfig.
Open Scope string_scope.
Open Scope Z_scope.

Section ClientSystem.
Context `{KeysLaws, EncodingsLaws, !ControlSerde, !Certificates, !Urls, !RelayUrls}.
Context `{!Serde RelayCredential, !Serde SignedRelayCredential, !Serde RevocationUpdate}.
Context `{!SerdePretty Config}.
Implicit Types (s : Store) (st : ControlState) (env : Env) (config : Config).

(** The Edges of the registry that belong to a Client, as configuration entries *)
Definition registry_edges st (id : EndpointId) : list EdgeCfg :=
  (fun e => {| ec_name := e_name e; ec_endpoint_id := e_endpoint_id e;
               ec_relays := r_url <$> st_relays st; ec_managed := true |})
  <$> Vec.retain (fun e => e_owner_id e == id_to_string id) (st_edges st).

Lemma client_map now st key id c m :
  Vec.find (fun edge => e_endpoint_id edge == id_to_string id) (st_edges st) = None ->
  Vec.find (fun client => c_endpoint_id client == id_to_string id) (st_clients st) = Some c ->
  signed_map now st key id = Ok m ->
  map_edges m = registry_edges st id /\ nm_revision (snm_map m) = st_revision st /\
  nm_audience (snm_map m) = st_audience st /\ nm_control_url (snm_map m) = st_public_url st.
Proof.
  intros He Hc Hm. unfold signed_map, map_grants in Hm. rewrite He, Hc in Hm.
  apply bind_Ok in Hm as ([[cr a] es] & Hg & Hm). apply bind_Ok in Hg as (credential & _ & Hg).
  injection Hg as <- <- <-. injection Hm as <-. split; [|done].
  unfold map_edges, registry_edges. cbn [snm_map nm_relays nm_edges].
  rewrite <- !list_fmap_compose. done.
Qed.

Lemma signed_map_binding now st key id m control nk :
  public nk = id -> signed_map now st key id = Ok m ->
  cc_control_id control = id_to_string (public key) -> cc_audience control = st_audience st ->
  cc_url control = st_public_url st -> check_binding nk control m = Ok tt.
Proof.
  intros <- Hm Hc Ha Hu. unfold check_binding. rewrite Hc, id_parse_to_string. cbn.
  rewrite (signed_map_verifies _ _ _ _ _ Hm). cbn. unfold signed_map in Hm.
  apply bind_Ok in Hm as ([[? ?] ?] & _ & Hm). injection Hm as <-. cbn.
  by rewrite Ha, Hu, !bool_decide_eq_true_2.
Qed.

(** A sync brings the registry into the configuration: for an enrolled Client
    that is registered, a map that Control returns to its watch is accepted, and
    the configuration then lists exactly the Edges that the registry gives this
    Client at that moment, in the registry's order, with all its Relays. *)
Theorem sync_follows_registry env others wakeups resumed request key config control s s' c m :
  cfg_control config = Some control -> manual_edges config = [] ->
  cc_control_id control = id_to_string (public (s_key s')) -> cc_audience control = st_audience (s_state s') ->
  cc_url control = st_public_url (s_state s') -> revision (cc_map control) <= st_revision (s_state s') ->
  watch_verify request = Ok (public key) ->
  watch env others wakeups resumed request s = (s', Ok (Some m)) ->
  Vec.find (fun edge => e_endpoint_id edge == id_to_string (public key)) (st_edges (s_state s')) = None ->
  Vec.find (fun client => c_endpoint_id client == id_to_string (public key)) (st_clients (s_state s')) = Some c ->
  exists config', sync_config key (WatchMap m) config = Ok config' /\
    cfg_edges config' = registry_edges (s_state s') (public key) /\
    cfg_control config' = Some (control_with_map m control).
Proof.
  intros Hc Hman Hid Ha Hu Hrev Hv W He Hcl.
  pose proof (watch_map_is_current _ _ _ _ _ _ _ _ _ Hv W) as Hm.
  destruct (client_map _ _ _ _ _ _ He Hcl Hm) as (Hedges & Hr & _).
  destruct (sync_applies key m config control Hc) as (config' & S & _ & C & E & _); [|by unfold revision at 2; rewrite Hr|done|].
  - by eapply signed_map_binding.
  - exists config'. by rewrite <- Hedges.
Qed.

(** C28. Both ends agree: let a Client and an Edge each apply the map that Control
    signs for it from one and the same registry. Then the Client's configuration
    lists the Edge exactly when the Edge admits the Client. *)
Theorem both_ends_agree now now' st key client_key edge_key config config' c e owner mc me ids :
  state_ok st -> manual_edges config = [] ->
  e ∈ st_edges st -> e_endpoint_id e = id_to_string (public edge_key) -> e_owner_id e = id_to_string owner ->
  Vec.find (fun edge => e_endpoint_id edge == id_to_string (public client_key)) (st_edges st) = None ->
  Vec.find (fun client => c_endpoint_id client == id_to_string (public client_key)) (st_clients st) = Some c ->
  signed_map now st key (public client_key) = Ok mc -> apply_map mc config = Ok config' ->
  signed_map now' st key (public edge_key) = Ok me ->
  parse_clients (nm_allowed_clients (snm_map me)) = Ok ids ->
  (exists entry, entry ∈ cfg_edges config' /\ ec_endpoint_id entry = id_to_string (public edge_key)) <->
  is_authorized (Managed ids) (public client_key) = true.
Proof.
  intros Hok Hman Hin Heid Hown Hne Hcl Hmc Hap Hme Hids.
  destruct (client_map _ _ _ _ _ _ Hne Hcl Hmc) as (Hedges & _).
  apply apply_map_Ok in Hap as (_ & _ & _ & Hcfg & _). rewrite Hman, Hedges in Hcfg. cbn in Hcfg.
  assert (Huniq : forall e', e' ∈ st_edges st -> e_endpoint_id e' = e_endpoint_id e -> e' = e).
  { intros e' He' E. apply (Keyed.unique_inj e_endpoint_id (st_edges st)); [apply (so_edges st Hok)|done..]. }
  assert (Hf : Vec.find (fun edge => e_endpoint_id edge == id_to_string (public edge_key)) (st_edges st) = Some e).
  { destruct (Vec.find (fun edge => e_endpoint_id edge == id_to_string (public edge_key)) (st_edges st))
      as [e'|] eqn:Ef.
    - apply Vec.find_Some in Ef as [He' E]. breflect. f_equal. apply Huniq; congruence.
    - rewrite Vec.find_None in Ef. specialize (Ef e Hin). by breflect. }
  assert (Eids : ids = {[owner]}).
  { unfold signed_map, map_grants in Hme. rewrite Hf in Hme.
    apply bind_Ok in Hme as ([[cr a] es] & Hg & Hm). apply bind_Ok in Hg as (credential & _ & Hg).
    injection Hg as <- <- <-. injection Hm as <-. cbn in Hids. unfold parse_clients in Hids. cbn in Hids.
    rewrite Hown, id_parse_to_string in Hids. cbn in Hids. injection Hids as <-. set_solver. }
  cbn. rewrite bool_decide_eq_true, Eids, elem_of_singleton, Hcfg. unfold registry_edges.
  setoid_rewrite list_elem_of_fmap. setoid_rewrite Vec.elem_of_retain. setoid_rewrite bool_decide_eq_true.
  split.
  - intros (entry & (e' & -> & He' & Ho') & Hid). cbn in Hid.
    assert (e' = e) by (apply Huniq; congruence). subst e'. apply id_to_string_inj. congruence.
  - intros <-. eexists. split; [exists e; done|done].
Qed.
End ClientSystem.
