(* ===== verification/ClientControl.v ===== *)
(** * agent-scale: commands that ask Control (src/crates/agent-scale/src/control.rs)

    [status] and [edge_invite] with [decode_response], and [ls] of
    src/crates/agent-scale/src/edge.rs. The last part follows an Edge from the
    Client's invitation to the moment it serves the Client. *)
From S2P Require Import Prelude Text Deps RelayApi ControlApi State Database ControlCore ControlHandlers.
From S2P Require Import ControlSpec ControlInvariant NodeMaps Enrollment Files Transport RelayTable EdgePin EdgeNode EdgeSystem ClientConfig.
Open Scope string_scope.
Open Scope Z_scope.

(** A response of Control *)
Record HttpResponse := { hr_status : Z; hr_body : bytes }.

Definition is_success (status : Z) : bool := (200 <=? status) && (status <? 300).

Definition decode_response {T} `{Serde T} (response : HttpResponse) : result string T :=
  ensure (is_success (hr_status response)) "control request failed";;
  of_option (from_slice (hr_body response)) "decode control response".

(** What the handlers of Control send: JSON, or the error with its status *)
Definition respond_json {T} `{Serde T} (r : result ApiError T) : HttpResponse :=
  match r with
  | Ok value => {| hr_status := 200; hr_body := to_vec value |}
  | Err e => {| hr_status := ae_status e; hr_body := String.list_byte_of_string (ae_message e) |}
  end.

Section ClientControl.
Context `{Keys, Encodings, !ControlSerde}.
Context `{!Serde ControlStatus, !Serde InviteResult}.
Implicit Types (config : Config).

(** [status]: the lines it prints; [respond] is what [send] returns. *)
Definition control_status config (key : SecretKey) (issued_at : Z) (nonce : string)
  (respond : StatusRequest -> result string HttpResponse) : result string (list string) :=
  control ← of_option (cfg_control config) "client is not enrolled in control";
  request ← status_sign key (cc_audience control) issued_at nonce;
  response ← respond request;
  status ← decode_response (T := ControlStatus) response;
  ensure (cs_control_id status == cc_control_id control) "control identity mismatch";;
  ensure (cs_audience status == cc_audience control) "control audience mismatch";;
  Ok [cc_name control; "  control:  " ++ cc_url control;
      "  revision: " ++ uint_to_string (cs_revision status);
      "  clients:  " ++ uint_to_string (Z.of_nat (cs_clients status));
      "  edges:    " ++ uint_to_string (Z.of_nat (cs_edges status));
      "  relays:   " ++ uint_to_string (Z.of_nat (cs_relays status))].

(** [edge_invite]: the link it prints *)
Definition edge_invite config (key : SecretKey) (request_id : string) (issued_at : Z) (name : string) (ttl_secs : Z)
  (respond : EdgeInviteRequest -> result string HttpResponse) : result string string :=
  control ← of_option (cfg_control config) "client is not enrolled in control";
  request ← edge_invite_sign key (cc_audience control) request_id issued_at name ttl_secs;
  response ← respond request;
  result ← decode_response (T := InviteResult) response;
  Ok (ir_join_url result).

(** [edge::ls] *)
Definition edge_ls config : list string :=
  if cfg_edges config == [] then ["no edges configured"]
  else concat ((fun e => [ec_name e; "  endpoint_id: " +:+ ec_endpoint_id e;
                          "  relays:      " +:+ String.concat ", " (ec_relays e)]) <$> cfg_edges config).
End ClientControl.

(** ** From the Client's invitation to the Edge that serves it *)

Section InvitedEdge.
Context `{KeysLaws, EncodingsLaws, !ControlSerde, !ControlSerdeLaws, !Certificates, !Urls, !RelayUrls}.
Context `{!Serde RelayCredential, !Serde SignedRelayCredential, !Serde RevocationUpdate}.
Context `{!SerdePretty ControlProfile, !SerdePrettyLaws ControlProfile, !KeyBytes, !KeyBytesLaws}.
Context `{!Serde ControlStatus, !SerdeLaws ControlStatus, !Serde InviteResult, !SerdeLaws InviteResult}.
Context (visit : gmap string (option Z * string) -> list (string * (option Z * string))).
Hypothesis visit_all : forall m, visit m ≡ₚ map_to_list m.
Implicit Types (s : Store) (st : ControlState) (env : Env) (config : Config) (profile : ControlProfile) (fs : Fs string).

(** Control answers over HTTP. *)
Definition status_response env s (request : StatusRequest) : result string HttpResponse :=
  Ok (respond_json (snd (status env request s))).
Definition invite_response env s (request : EdgeInviteRequest) : result string HttpResponse :=
  Ok (respond_json (snd (client_edge_invite env request s))).

Lemma decode_respond {T} `{Serde T, !SerdeLaws T} (r : result ApiError T) value :
  (forall e, r = Err e -> is_success (ae_status e) = false) ->
  decode_response (respond_json r) = Ok value <-> r = Ok value.
Proof.
  intros He. unfold decode_response, respond_json. destruct r as [v|e]; cbn -[is_success].
  - rewrite from_slice_to_vec. cbn. split; congruence.
  - rewrite He by done. by split.
Qed.

(** A name that Control accepts is a directory name for an Edge, but for "." and
    "..", which Control accepts too. *)
Lemma control_name_is_who name : validate_name name = Ok tt -> name <> "." -> name <> ".." -> exists dir, who_dir name = Ok dir.
Proof.
  intros Hv Hdot Hdots. unfold validate_name in Hv. apply bind_Ok in Hv as ([] & Hne & Hchars). apply ensure_Ok in Hne, Hchars.
  assert (Hno : forall c, Str.is_ascii_alphanumeric c = false -> c ∉ ["-"; "_"; "."]%char -> Str.contains c name = false).
  { intros c Ha Hc. apply Str.contains_false. intros a Hin ->. rewrite forallb_forall in Hchars.
    specialize (Hchars c). rewrite <- list_elem_of_In in Hchars. specialize (Hchars Hin). rewrite Ha in Hchars.
    cbn in Hchars. breflect. done. }
  eexists. unfold who_dir. apply bind_Ok. exists tt. split; [|done]. breflect. prove_ok; try done; apply Hno; try done; set_solver.
Qed.

Lemma edge_change_ok st st' invite id managed port gen now now' name owner :
  st_edges st' = st_edges st -> st_clients st' = st_clients st -> inv_kind invite = KEdge owner -> inv_name invite = name ->
  validate_invite_name now st name (KEdge owner) = Ok tt ->
  Vec.any (fun c => c_endpoint_id c == owner) (st_clients st) = true ->
  (forall e, e ∈ st_edges st -> e_endpoint_id e <> id_to_string id) ->
  claimed_node_change st' invite id managed port gen now' = Ok (PutEdge {|
    e_name := name; e_endpoint_id := id_to_string id; e_owner_id := owner;
    e_generation := gen; e_issued_at := now';
    e_expires_at := i64_saturating_add now' RELAY_CREDENTIAL_LIFETIME_SECS |}).
Proof.
  intros Ee Ec Ek <- Hv Ho Hnew. unfold claimed_node_change. rewrite Ek, Ee, Ec.
  apply bind_Ok. exists tt. split; [by apply ensure_Ok|]. apply bind_Ok. exists tt. split; [|done]. prove_ok. apply Vec.any_false. intros e He.
  unfold validate_invite_name in Hv. apply ensure_Ok, negb_true_iff, orb_false_iff in Hv as [Hv _].
  eapply Vec.any_false in Hv; [|exact He]. cbn beta in Hv. apply orb_false_iff. split; [done|]. by apply bool_decide_eq_false, Hnew.
Qed.

(** [join_control] runs to its end when nothing is in its way. *)
Lemma join_control_succeeds join_url parsed fragment token control_id dir ek issued_at nonce request respond joined owner fs :
  url_parse join_url = Ok parsed -> url_fragment parsed = Some fragment -> token_decode fragment = Ok token ->
  token_verify token = Ok control_id -> inv_kind (jt_invite token) = KEdge owner ->
  who_dir (inv_name (jt_invite token)) = Ok dir ->
  fs !! dir "control.json" = None -> fs !! dir "agent.key" = None ->
  claim_sign token ek issued_at nonce = Ok request -> respond request = Ok joined ->
  node_map_verify (jr_map joined) control_id (public ek) = Ok tt ->
  let profile := {| pr_schema_version := 1; pr_name := inv_name (jt_invite token);
    pr_control_url := inv_control_url (jt_invite token); pr_control_id := id_to_string control_id;
    pr_audience := inv_audience (jt_invite token); pr_endpoint_id := id_to_string (public ek); pr_map := jr_map joined |} in
  exists fs', join_control join_url ek Written issued_at nonce respond Written fs = (fs', Ok (inv_name (jt_invite token), profile)) /\
    load_control_profile fs' (dir "control.json") = Ok (Some profile).
Proof.
  intros Hp Hf Ht Hv Hk Hd Hc Ha Hs Hr Hm. unfold join_control, lift, get, require, mbind, handler_bind.
  rewrite Hp, Hf. cbn [of_option]. rewrite Ht, Hv, Hk. cbn [ensure]. rewrite Hd, Hc, bool_decide_eq_true_2 by done. cbn [ensure].
  unfold load_or_create_secret, read_secret. rewrite Ha. cbn [mbind option_bind atomic_write].
  rewrite Hs, Hr, Hm. eexists. split; [done|]. unfold load_control_profile. rewrite lookup_insert_eq.
  by rewrite from_slice_pretty_newline.
Qed.

(** *** Errors of the handlers are not success statuses *)

Definition refuses {A} (r : result ApiError A) : Prop := forall e, r = Err e -> is_success (ae_status e) = false.
Definition refusing {A} (action : handler Store ApiError A) : Prop := forall s, refuses (action s).2.

Lemma refuses_bind {A B} (r : result ApiError A) (f : A -> result ApiError B) :
  refuses r -> (forall a, refuses (f a)) -> refuses (r ≫= f).
Proof. intros Hr Hf e. destruct r as [a|e']; cbn; [apply Hf|intros [= <-]; by apply Hr]. Qed.
Lemma refuses_map {A} (f : string -> ApiError) (r : result string A) :
  (forall m, is_success (ae_status (f m)) = false) -> refuses (map_err f r).
Proof. intros Hf e. destruct r; cbn; [done|]. by intros [= <-]. Qed.
Lemma refuses_ensure b e : is_success (ae_status e) = false -> refuses (ensure b e).
Proof. intros He e'. destruct b; cbn; [done|]. by intros [= <-]. Qed.
Lemma refuses_option {A} (o : option A) e : is_success (ae_status e) = false -> refuses (of_option o e).
Proof. intros He e'. destruct o; cbn; [done|]. by intros [= <-]. Qed.
Lemma refuses_admitted a label : refuses (admitted a label).
Proof. by intros e; destruct a; cbn; try done; intros [= <-]. Qed.

Lemma refusing_bind {A B} (action : handler Store ApiError A) (f : A -> handler Store ApiError B) :
  refusing action -> (forall a, refusing (f a)) -> refusing (action ≫= f).
Proof.
  intros Ha Hf s e. specialize (Ha s). unfold mbind, handler_bind. destruct (action s) as [s1 [a|e1]]; cbn; [apply Hf|].
  intros [= <-]. by apply Ha.
Qed.
Lemma refusing_lift {A} (r : result ApiError A) : refuses r -> refusing (lift r).
Proof. intros Hr s. exact Hr. Qed.
Lemma refusing_require b e : is_success (ae_status e) = false -> refusing (require b e).
Proof. intros He s. by apply refuses_ensure. Qed.
Lemma refusing_get {A} (f : Store -> A) : refusing (get f).
Proof. by intros s e. Qed.
Lemma refusing_ret {A} (a : A) : refusing (mret a).
Proof. by intros s e. Qed.
Lemma refusing_commit io delta : refusing (commit_delta io delta).
Proof.
  intros s. unfold commit_delta.
  assert (Hr : refuses (revision ← next_revision (d_publish delta) (s_state s);
    relay_revision ← next_relay_revision (d_publish delta) (s_state s);
    database ← map_err internal (apply_delta_sync io (st_revision (s_state s)) (st_relay_revision (s_state s))
      revision relay_revision delta (s_database s)); Ok (database, revision, relay_revision))).
  { apply refuses_bind; [|intros; apply refuses_bind; [|intros; apply refuses_bind; [by apply refuses_map|done]]];
      unfold next_revision, next_relay_revision; destruct (d_publish delta); by try apply refuses_option. }
  destruct (mbind _ _) as [[[database revision] relay_revision]|e]; [done|]. intros e' [= <-]. by apply Hr.
Qed.

Create HintDb refusing.
#[local] Hint Resolve refusing_lift refusing_require refusing_get refusing_ret refusing_commit refuses_map refuses_ensure
  refuses_option refuses_admitted : refusing.
Ltac refuse := repeat (first [apply refusing_bind; [|intros] | case_match]); eauto 4 with refusing.

Lemma client_edge_invite_refuses env request : refusing (client_edge_invite env request).
Proof.
  unfold client_edge_invite, client_edge_invite_mutation, verification_permit, mutation_permit, check_length_128, validate_invite_name.
  refuse.
Qed.

Lemma status_refuses env request : refusing (status env request).
Proof. unfold status, verification_permit, check_length_128. refuse. Qed.

(** What [status] prints is Control's registry: it succeeds only for a Client
    that the registry lists, against the Control the Client enrolled with. *)
Theorem status_shows_the_registry env s config key issued_at nonce lines :
  control_status config key issued_at nonce (status_response env s) = Ok lines ->
  exists control, cfg_control config = Some control /\
    cc_control_id control = id_to_string (public (s_key s)) /\ cc_audience control = st_audience (s_state s) /\
    Vec.any (fun client => c_endpoint_id client == id_to_string (public key)) (st_clients (s_state s)) = true /\
    lines = [cc_name control; "  control:  " ++ cc_url control;
      "  revision: " ++ uint_to_string (st_revision (s_state s));
      "  clients:  " ++ uint_to_string (Z.of_nat (length (st_clients (s_state s))));
      "  edges:    " ++ uint_to_string (Z.of_nat (length (st_edges (s_state s))));
      "  relays:   " ++ uint_to_string (Z.of_nat (length (st_relays (s_state s))))].
Proof.
  unfold control_status, status_response. intros Hc.
  apply bind_Ok in Hc as (control & Hcfg%of_option_Ok & (request & Hs & Hc)%bind_Ok). cbn [mbind result_bind] in Hc.
  apply bind_Ok in Hc as (answer & Hd & Hc). apply decode_respond in Hd; [|apply status_refuses].
  destruct (status env request s) as [s' r] eqn:St. cbn in Hd. subst r.
  assert (Hid : forall id, status_verify request = Ok id -> id = public key).
  { injection Hs as <-. intros id Hv. unfold status_verify in Hv. cbn in Hv. run_ok. rewrite id_parse_to_string in *. congruence. }
  unfold status in St. repeat (hstep St; try done).
  match goal with E : map_err unauthorized (status_verify request) = Ok ?id |- _ => apply map_err_Ok, Hid in E; subst id end.
  apply bind_Ok in Hc as ([] & Hci%ensure_Ok & ([] & Hau%ensure_Ok & [= <-])%bind_Ok). cbn in Hci, Hau. breflect.
  by exists control.
Qed.

(** Control's side: the link of the invitation carries a token with which the
    claim of a new identity succeeds, and the Edge is registered for the Client. *)
Lemma client_invitation_claims env1 env2 request ck s s1 res ek issued nonce :
  store_ok s -> edge_invite_verify request = Ok (public ck) -> client_edge_invite env1 request s = (s1, Ok res) ->
  (forall e, e ∈ st_edges (s_state s) -> e_endpoint_id e <> id_to_string (public ek)) ->
  env_verification env2 = Granted -> env_mutation env2 = Granted -> env_io env2 = true ->
  i64_abs_diff issued (env_received env2) <= CLOCK_SKEW_SECS ->
  env_received env2 <= env_now env1 + eir_ttl_secs request -> i64_min <= env_received env2 < i64_max ->
  st_revision (s_state s) + 1 < i64_max -> st_relay_revision (s_state s) <= i64_max ->
  exists fragment token creq s2 r e,
    ir_join_url res = Str.trim_end_matches "/" (st_public_url (s_state s)) +:+ "/join#" +:+ fragment /\
    token_decode fragment = Ok token /\ token_verify token = Ok (public (s_key s)) /\
    inv_kind (jt_invite token) = KEdge (id_to_string (public ck)) /\ inv_name (jt_invite token) = eir_name request /\
    validate_name (eir_name request) = Ok tt /\
    claim_sign token ek issued nonce = Ok creq /\ store_ok s1 /\ claim env2 creq s1 = (s2, Ok r) /\
    node_map_verify (jr_map r) (public (s_key s)) (public ek) = Ok tt /\
    st_relays (s_state s2) = st_relays (s_state s) /\
    Vec.find (fun edge => e_endpoint_id edge == id_to_string (public ek)) (st_edges (s_state s2)) = Some e /\
    e_owner_id e = id_to_string (public ck).
Proof.
  intros Hok Hver Hr Hnew Hv Hm Hio Hskew Hx Hnow Hrev Hrel. pose proof (store_ok_state s Hok) as Hst.
  unfold client_edge_invite, client_edge_invite_mutation in Hr. hrun Hr. rewrite Hver in *.
  match goal with E : map_err unauthorized (Ok _) = Ok ?a |- _ => injection E as <- end.
  match goal with E : map_err bad (validate_name _) = Ok _ |- _ => apply map_err_Ok in E; rename E into Hname end.
  match goal with E : map_err bad (build_invite _ _ _ _ _ _ _ _) = Ok (?res, ?rec) |- _ =>
    apply map_err_Ok in E; pose proof E as Hb; pose proof E as Hb'; rename rec into record end.
  apply build_invite_token in Hb as (fragment & token & Hurl & Hdec & Htok & Etok & Eexp & Ecid).
  assert (Hexp : inv_expires_at (i_invite record) = env_now env1 + eir_ttl_secs request).
  { unfold build_invite in Hb'. run_ok. by cbn. }
  apply build_invite_Ok in Hb' as (_ & Epend & _ & _ & Eaud & Eurl & Ename & Ekind & _).
  match goal with E : commit_delta _ _ _ = (?x, _) |- _ => rename x into s1;
    apply (commit_delta_Ok _ _ _ _ Hok) in E as (r & rr & Er & Err & _ & Es1 & Ek1 & Hok1) end.
  destruct (next_revisions _ _ _ _ Er Err) as (-> & -> & _). cbn [d_publish delta_topology] in *.
  set (record' := invite_attributed _ _ _ record) in *.
  destruct (claim_sign_fields token ek issued nonce) as (creq & Hs & Ereq & Eid & Ep & Ec).
  assert (Hown : Vec.any (fun c => c_endpoint_id c == id_to_string (public ck)) (st_clients (s_state s)) = true).
  { match goal with E : of_option (c_managed_by <$> Vec.find ?p ?l) _ = Ok _ |- _ =>
      destruct (Vec.find p l) as [c|] eqn:Ef; [|done] end. apply Vec.find_Some in Ef. apply Vec.any_true. eauto. }
  edestruct (claim_of_pending env2 creq (public ek) s1 record') as (s2 & m & Hclaim & Es2 & _ & _ & Hok2 & Hmap);
    rewrite ?Ereq, ?Ek1; try done; try (by rewrite Es1); cbn.
  - by eapply claim_checks_pass.
  - rewrite Es1. cbn. apply elem_of_upsert_record; [apply Hst|by left].
  - by rewrite Eid, Etok.
  - by rewrite Ekind.
  - lia.
  - eapply (edge_change_ok (s_state s)); try done; by rewrite Es1.
  - eexists fragment, token, creq, s2, _, _. split_and!; try done; try (by rewrite Etok).
    + rewrite <- Ek1. by eapply signed_map_verifies.
    + by rewrite Es2, Es1.
    + apply (Keyed.lookup_Some e_endpoint_id); [apply (so_edges _ (store_ok_state s2 Hok2))|].
      rewrite Es2. cbn. rewrite Es1. cbn. rewrite elem_of_upsert_record by apply Hst. split; [by left|done].
    + done.
Qed.


(** "." and ".." are names that Control invites an Edge under and that no Edge can
    join with. *)
Theorem dot_names_cannot_join :
  validate_name "." = Ok tt /\ validate_name ".." = Ok tt /\
  forall name, name = "." \/ name = ".." -> who_dir name = Err "invalid WHO".
Proof. split_and!; [reflexivity..|]. by intros name [-> | ->]. Qed.
End InvitedEdge.
