(* ===== verification/ConnectionPool.v ===== *)
(** * agent-scale daemon: connections to Edges (src/crates/agent-scale/src/daemon.rs and daemon/connection_pool.rs)

    Requests look for an open connection to their Edge, and one of them dials
    under a lock per Edge name; a completed dial is published under the locks
    that a reload of the configuration holds. The await points of [get_conn] are
    the phases of a task; tasks, reloads and the ends of connections interleave
    in any order. *)
From S2P Require Import Prelude Deps RelayApi ControlApi Files Transport RelayTable EdgeNode ClientConfig.
Open Scope string_scope.
Open Scope Z_scope.

Section Pool.
Context `{Keys, !RelayUrls}.

Notation Connection := (EndpointId * Z)%type.

(** [edge_addr]: the id, when the address can be built *)
Definition edge_addr (edge : EdgeCfg) : result string (EndpointId * list RelayUrl) :=
  id ← of_option (id_parse (ec_endpoint_id edge)) "bad endpoint_id";
  ensure (match ec_relays edge with [] => false | _ => true end) "edge has no relay configured";;
  urls ← collect relay_url_parse (ec_relays edge);
  Ok (id, urls).

(** Where a call of [get_conn] is: before the first look at the cache; waiting
    for the dial lock; holding it; dialing; with a dialed connection; returned. *)
Inductive Phase :=
| Looking
| Waiting
| Locked
| Dialing (id : EndpointId)
| Dialed (connection : Connection)
| Got (connection : Connection)
| Failed.

Record Task := { tk_edge : EdgeCfg; tk_phase : Phase }.

(** The shared state of the daemon: [edges], [conns] and [dials] (the task that
    holds the lock of a name), which connections have a close reason, and every
    connection that was ever put into the cache. *)
Record Pool := {
  p_edges : gmap string EdgeCfg;
  p_conns : gmap string Connection;
  p_dials : gmap string nat;
  p_closed : gset Connection;
  p_published : gset (string * Connection);
  p_tasks : gmap nat Task;
}.
Implicit Types (pool : Pool) (task : nat).

Definition set_task task (t : Task) pool : Pool := {|
  p_edges := p_edges pool; p_conns := p_conns pool; p_dials := p_dials pool; p_closed := p_closed pool;
  p_published := p_published pool; p_tasks := <[task := t]> (p_tasks pool) |}.
Definition set_dials dials pool : Pool := {|
  p_edges := p_edges pool; p_conns := p_conns pool; p_dials := dials; p_closed := p_closed pool;
  p_published := p_published pool; p_tasks := p_tasks pool |}.
Definition set_conns conns pool : Pool := {|
  p_edges := p_edges pool; p_conns := conns; p_dials := p_dials pool; p_closed := p_closed pool;
  p_published := p_published pool; p_tasks := p_tasks pool |}.
Definition set_published published pool : Pool := {|
  p_edges := p_edges pool; p_conns := p_conns pool; p_dials := p_dials pool; p_closed := p_closed pool;
  p_published := published; p_tasks := p_tasks pool |}.
Definition close_conns (gone : gset Connection) pool : Pool := {|
  p_edges := p_edges pool; p_conns := p_conns pool; p_dials := p_dials pool; p_closed := p_closed pool ∪ gone;
  p_published := p_published pool; p_tasks := p_tasks pool |}.
Definition set_edges edges pool : Pool := {|
  p_edges := edges; p_conns := p_conns pool; p_dials := p_dials pool; p_closed := p_closed pool;
  p_published := p_published pool; p_tasks := p_tasks pool |}.

(** An open cached connection *)
Definition cached (name : string) pool : option Connection :=
  connection ← p_conns pool !! name;
  if bool_decide (connection ∈ p_closed pool) then None else Some connection.

(** Is [id] the identity that [edges] configures for [name]? *)
Definition configured (edges : gmap string EdgeCfg) (name : string) (id : EndpointId) : bool :=
  match edges !! name with
  | Some edge => id_parse (ec_endpoint_id edge) == Some id
  | None => false
  end.

(** Moves a task that holds the lock of [edge] to a final phase, releasing it. *)
Definition finish_task task (edge : EdgeCfg) (phase : Phase) pool : Pool :=
  set_dials (delete (ec_name edge) (p_dials pool)) (set_task task {| tk_edge := edge; tk_phase := phase |} pool).

Inductive PoolEvent :=
| Request (task : nat) (edge : string)        (* [handle_client] starts [get_conn] *)
| Proceed (task : nat)                        (* a task takes the step that needs nothing from outside *)
| DialFails (task : nat)
| DialSucceeds (task : nat) (connection : Connection)
| Dies (connection : Connection)              (* the peer or the network closes it *)
| Evict (name : string)                       (* the task that waits for [closed()] *)
| ReloadEdges (edges : gmap string EdgeCfg).

Definition proceed task pool : Pool :=
  match p_tasks pool !! task with
  | None => pool
  | Some t =>
      let edge := tk_edge t in
      let name := ec_name edge in
      let go phase := set_task task {| tk_edge := edge; tk_phase := phase |} pool in
      match tk_phase t with
      | Looking =>
          match cached name pool with
          | Some connection => go (Got connection)
          | None => go Waiting
          end
      | Waiting =>
          match p_dials pool !! name with
          | Some _ => pool
          | None => set_dials (<[name := task]> (p_dials pool)) (go Locked)
          end
      | Locked =>
          match cached name pool with
          | Some connection => finish_task task edge (Got connection) pool
          | None =>
              match edge_addr edge with
              | Ok (id, _) => go (Dialing id)
              | Err _ => finish_task task edge Failed pool
              end
          end
      | Dialed connection =>
          if configured (p_edges pool) name connection.1
          then finish_task task edge (Got connection)
                 (set_published (p_published pool ∪ {[(name, connection)]})
                    (set_conns (<[name := connection]> (p_conns pool)) pool))
          else finish_task task edge Failed (close_conns {[connection]} pool)
      | Dialing _ | Got _ | Failed => pool
      end
  end.

(** The swap of [reload_edges], in one critical section *)
Definition reload_pool (edges : gmap string EdgeCfg) pool : Pool :=
  let stays entry := configured edges entry.1 entry.2.1 in
  let evicted := filter (fun entry => stays entry = false) (p_conns pool) in
  set_edges edges (set_conns (filter (fun entry => stays entry = true) (p_conns pool))
    (close_conns (list_to_set (map_to_list evicted).*2) pool)).

Definition pool_step (event : PoolEvent) pool : Pool :=
  match event with
  | Request task name =>
      match p_tasks pool !! task, p_edges pool !! name with
      | None, Some edge => set_task task {| tk_edge := edge; tk_phase := Looking |} pool
      | _, _ => pool
      end
  | Proceed task => proceed task pool
  | DialFails task =>
      match p_tasks pool !! task with
      | Some {| tk_edge := edge; tk_phase := Dialing _ |} => finish_task task edge Failed pool
      | _ => pool
      end
  | DialSucceeds task connection =>
      match p_tasks pool !! task with
      | Some {| tk_edge := edge; tk_phase := Dialing id |} =>
          if connection.1 == id then set_task task {| tk_edge := edge; tk_phase := Dialed connection |} pool
          else finish_task task edge Failed pool
      | _ => pool
      end
  | Dies connection => close_conns {[connection]} pool
  | Evict name =>
      match p_conns pool !! name with
      | Some connection =>
          if bool_decide (connection ∈ p_closed pool) then set_conns (delete name (p_conns pool)) pool else pool
      | None => pool
      end
  | ReloadEdges edges => reload_pool edges pool
  end.

Definition pool_run (events : list PoolEvent) pool : Pool :=
  fold_left (fun pool event => pool_step event pool) events pool.

(** A daemon that has just started with [edges] *)
Definition pool_start (edges : gmap string EdgeCfg) : Pool := {|
  p_edges := edges; p_conns := ∅; p_dials := ∅; p_closed := ∅; p_published := ∅; p_tasks := ∅ |}.

(** ** The invariant *)

Definition is_dialing (phase : Phase) : bool :=
  match phase with Dialing _ | Dialed _ => true | _ => false end.
Definition holds_lock (phase : Phase) : bool :=
  match phase with Locked => true | _ => is_dialing phase end.

Record pool_ok pool : Prop := {
  (** The cache holds connections to configured identities. *)
  ok_conns : forall name c, p_conns pool !! name = Some c ->
    configured (p_edges pool) name c.1 = true /\ (name, c) ∈ p_published pool;
  (** A connection that was in the cache is still there, or closed. *)
  ok_published : forall name c, (name, c) ∈ p_published pool -> c ∈ p_closed pool \/ p_conns pool !! name = Some c;
  (** The lock of a name is held by the task that is dialing it, and only then. *)
  ok_lock : forall name task, p_dials pool !! name = Some task <->
    exists t, p_tasks pool !! task = Some t /\ ec_name (tk_edge t) = name /\ holds_lock (tk_phase t) = true;
  (** While a name is being dialed no open connection to it is cached. *)
  ok_dialing : forall task t c, p_tasks pool !! task = Some t -> is_dialing (tk_phase t) = true ->
    p_conns pool !! ec_name (tk_edge t) = Some c -> c ∈ p_closed pool;
  (** A returned connection was in the cache. *)
  ok_got : forall task t c, p_tasks pool !! task = Some t -> tk_phase t = Got c ->
    (ec_name (tk_edge t), c) ∈ p_published pool;
}.

Lemma cached_Some name pool c :
  cached name pool = Some c -> p_conns pool !! name = Some c /\ c ∉ p_closed pool.
Proof.
  unfold cached. destruct (p_conns pool !! name) as [c'|]; [|done]. cbn. case_bool_decide; [done|]. by intros [= ->].
Qed.

Lemma cached_None name pool c : cached name pool = None -> p_conns pool !! name = Some c -> c ∈ p_closed pool.
Proof. unfold cached. intros Hc Hn. rewrite Hn in Hc. cbn in Hc. by case_bool_decide. Qed.

(** A task's step that touches neither the cache nor a lock. *)
Lemma set_task_ok task t t' pool :
  pool_ok pool -> p_tasks pool !! task = Some t -> tk_edge t' = tk_edge t ->
  holds_lock (tk_phase t') = holds_lock (tk_phase t) ->
  (is_dialing (tk_phase t') = true -> forall c, p_conns pool !! ec_name (tk_edge t) = Some c -> c ∈ p_closed pool) ->
  (forall c, tk_phase t' = Got c -> (ec_name (tk_edge t), c) ∈ p_published pool) ->
  pool_ok (set_task task t' pool).
Proof.
  intros [Hc Hp Hl Hd Hg] Ht He Hh Hdial Hgot. split; cbn; [done|done| | |].
  - intros name k. rewrite Hl. split; intros (u & Hu & Hn & Hlk).
    + destruct (decide (k = task)) as [->|Hne].
      * exists t'. rewrite lookup_insert_eq. replace u with t in * by congruence. split; [done|]. by rewrite He, Hh.
      * exists u. by rewrite lookup_insert_ne.
    + destruct (decide (k = task)) as [->|Hne].
      * rewrite lookup_insert_eq in Hu. injection Hu as <-. exists t. by rewrite <- He, <- Hh.
      * rewrite lookup_insert_ne in Hu by done. by exists u.
  - intros k u c Hu Hdi Hcn. apply lookup_insert_Some in Hu as [[<- <-]|[Hne Hu]]; [|by eapply Hd].
    rewrite He in Hcn. by apply Hdial.
  - intros k u c Hu Hgo. apply lookup_insert_Some in Hu as [[<- <-]|[Hne Hu]]; [|by eapply Hg].
    rewrite He. by apply Hgot.
Qed.

(** The end of a task that holds a lock. *)
Lemma finish_task_ok task t phase pool :
  pool_ok pool -> p_tasks pool !! task = Some t -> holds_lock (tk_phase t) = true ->
  (phase = Failed \/ exists c, phase = Got c /\ (ec_name (tk_edge t), c) ∈ p_published pool) ->
  pool_ok (finish_task task (tk_edge t) phase pool).
Proof.
  intros [Hc Hp Hl Hd Hg] Ht Hh Hph.
  assert (Hnot : holds_lock phase = false /\ is_dialing phase = false).
  { by destruct Hph as [-> |(c & -> & _)]. }
  destruct Hnot as [Hnl Hnd].
  assert (Hlk : p_dials pool !! ec_name (tk_edge t) = Some task) by (apply Hl; by exists t).
  split; cbn; [done|done| | |].
  - intros name k. rewrite lookup_delete_Some, Hl. split.
    + intros [Hne (u & Hu & Hn & Hhu)]. exists u. rewrite lookup_insert_ne; [done|].
      intros <-. apply Hne. congruence.
    + intros (u & Hu & Hn & Hhu). apply lookup_insert_Some in Hu as [[<- <-]|[Hne Hu]]; [cbn in Hhu; congruence|].
      split; [|by exists u]. intros E. apply Hne.
      assert (Hk : p_dials pool !! name = Some k) by (apply Hl; by exists u). congruence.
  - intros k u c Hu Hdi. apply lookup_insert_Some in Hu as [[<- <-]|[Hne Hu]]; [cbn in Hdi; congruence|by eapply Hd].
  - intros k u c Hu Hgo. apply lookup_insert_Some in Hu as [[<- <-]|[Hne Hu]]; [|by eapply Hg].
    cbn in *. destruct Hph as [-> |(c' & -> & Hin)]; [done|]. by injection Hgo as <-.
Qed.

Lemma close_conns_ok gone pool : pool_ok pool -> pool_ok (close_conns gone pool).
Proof.
  intros [Hc Hp Hl Hd Hg]. split; cbn; [done| |done| |done].
  - intros name c Hin. destruct (Hp name c Hin); [left; set_solver|by right].
  - intros k u c Hu Hdi Hcn. specialize (Hd k u c Hu Hdi Hcn). set_solver.
Qed.

(** Publishing a dialed connection. *)
Lemma publish_ok task t c pool :
  pool_ok pool -> p_tasks pool !! task = Some t -> tk_phase t = Dialed c ->
  configured (p_edges pool) (ec_name (tk_edge t)) c.1 = true ->
  pool_ok (finish_task task (tk_edge t) (Got c)
    (set_published (p_published pool ∪ {[(ec_name (tk_edge t), c)]})
       (set_conns (<[ec_name (tk_edge t) := c]> (p_conns pool)) pool))).
Proof.
  intros Hok Ht Hph Hconf. set (name := ec_name (tk_edge t)) in *.
  destruct (finish_task_ok task t Failed pool Hok Ht) as [Hc Hp Hl Hd Hg]; [by rewrite Hph|by left|].
  pose proof (ok_dialing _ Hok task t) as Hold.
  assert (Hlk : p_dials pool !! name = Some task) by (apply (ok_lock _ Hok); exists t; by rewrite Hph).
  cbn in *. split; cbn.
  - intros n c' Hn. apply lookup_insert_Some in Hn as [[<- <-]|[Hne Hn]]; [split; [done|set_solver]|].
    destruct (Hc n c' Hn). split; [done|set_solver].
  - intros n c' [Hin|E%elem_of_singleton]%elem_of_union.
    + destruct (Hp n c' Hin) as [?|Hn]; [by left|]. destruct (decide (n = name)) as [->|Hne].
      * left. apply (Hold c'); [done|by rewrite Hph|done].
      * right. by rewrite lookup_insert_ne.
    + injection E as -> ->. right. apply lookup_insert_eq.
  - intros n k. rewrite Hl. split; intros (u & Hu & Hn & Hhu);
      (apply lookup_insert_Some in Hu as [[<- <-]|[Hne Hu]]; [done|]; exists u; by rewrite lookup_insert_ne).
  - intros k u c' Hu Hdi Hcn. apply lookup_insert_Some in Hu as [[<- <-]|[Hne Hu]]; [done|].
    destruct (decide (ec_name (tk_edge u) = name)) as [E|En].
    + exfalso. apply Hne. assert (Hk : p_dials pool !! name = Some k).
      { apply (ok_lock _ Hok). exists u. split; [done|]. split; [done|]. by destruct (tk_phase u). }
      congruence.
    + rewrite lookup_insert_ne in Hcn by done. eapply (ok_dialing _ Hok); done.
  - intros k u c' Hu Hgo. apply lookup_insert_Some in Hu as [[<- <-]|[Hne Hu]].
    + cbn in *. injection Hgo as <-. set_solver.
    + apply elem_of_union_l. by eapply (ok_got _ Hok).
Qed.

Lemma reload_ok edges pool : pool_ok pool -> pool_ok (reload_pool edges pool).
Proof.
  intros [Hc Hp Hl Hd Hg]. split; cbn.
  - intros name c [Hn Hs]%map_lookup_filter_Some. cbn in Hs. split; [done|]. by apply Hc.
  - intros name c Hin. destruct (Hp name c Hin) as [?|Hn]; [left; set_solver|].
    destruct (configured edges name c.1) eqn:Es.
    + right. by apply map_lookup_filter_Some.
    + left. apply elem_of_union_r, elem_of_list_to_set, list_elem_of_fmap. exists (name, c).
      split; [done|]. by apply elem_of_map_to_list, map_lookup_filter_Some.
  - done.
  - intros k u c Hu Hdi [Hn _]%map_lookup_filter_Some. apply elem_of_union_l. by eapply Hd.
  - done.
Qed.

Lemma proceed_ok task pool : pool_ok pool -> pool_ok (proceed task pool).
Proof.
  intros Hok. unfold proceed. destruct (p_tasks pool !! task) as [t|] eqn:Ht; [|done].
  destruct (tk_phase t) as [| | |id|c|c|] eqn:Hph; try done.
  - destruct (cached (ec_name (tk_edge t)) pool) as [c|] eqn:Hca.
    + apply (set_task_ok task t); cbn; try done; [by rewrite Hph|]. intros c' [= <-].
      apply cached_Some in Hca as [Hn _]. by apply (ok_conns _ Hok).
    + apply (set_task_ok task t); cbn; try done. by rewrite Hph.
  - destruct (p_dials pool !! ec_name (tk_edge t)) as [k|] eqn:Hdl; [done|].
    destruct Hok as [Hc Hp Hl Hd Hg]. split; cbn; [done|done| | |].
    + intros name k. rewrite lookup_insert_Some. split.
      * intros [[<- <-]|[Hne Hk]].
        -- eexists. rewrite lookup_insert_eq. done.
        -- apply Hl in Hk as (u & Hu & Hn & Hh). exists u. rewrite lookup_insert_ne; [done|].
           intros <-. replace u with t in * by congruence. by rewrite Hph in Hh.
      * intros (u & Hu & Hn & Hh). apply lookup_insert_Some in Hu as [[<- <-]|[Hne Hu]]; [by left|].
        right. assert (Hk : p_dials pool !! name = Some k) by (apply Hl; by exists u). split; [congruence|done].
    + intros k u c Hu Hdi. apply lookup_insert_Some in Hu as [[<- <-]|[Hne Hu]]; [done|by eapply Hd].
    + intros k u c Hu Hgo. apply lookup_insert_Some in Hu as [[<- <-]|[Hne Hu]]; [done|by eapply Hg].
  - destruct (cached (ec_name (tk_edge t)) pool) as [c|] eqn:Hca.
    + apply finish_task_ok; [done|done|by rewrite Hph|]. right. exists c. split; [done|].
      apply cached_Some in Hca as [Hn _]. by apply (ok_conns _ Hok).
    + destruct (edge_addr (tk_edge t)) as [[id urls]|].
      * apply (set_task_ok task t); cbn; try done; [by rewrite Hph|]. intros _ c. by apply cached_None.
      * apply finish_task_ok; [done|done|by rewrite Hph|by left].
  - destruct (configured (p_edges pool) (ec_name (tk_edge t)) c.1) eqn:Hconf; [by apply publish_ok|].
    apply (finish_task_ok task t); [by apply close_conns_ok|done|by rewrite Hph|by left].
Qed.

Lemma pool_step_ok event pool : pool_ok pool -> pool_ok (pool_step event pool).
Proof.
  intros Hok. destruct event as [task name|task|task|task c|c|name|edges]; cbn.
  - destruct (p_tasks pool !! task) as [t|] eqn:Ht; [done|]. destruct (p_edges pool !! name) as [edge|]; [|done].
    destruct Hok as [Hc Hp Hl Hd Hg]. split; cbn; [done|done| | |].
    + intros n k. rewrite Hl. split; intros (u & Hu & Hn & Hh).
      * exists u. rewrite lookup_insert_ne; [done|congruence].
      * apply lookup_insert_Some in Hu as [[<- <-]|[Hne Hu]]; [done|by exists u].
    + intros k u c Hu Hdi. apply lookup_insert_Some in Hu as [[<- <-]|[Hne Hu]]; [done|by eapply Hd].
    + intros k u c Hu Hgo. apply lookup_insert_Some in Hu as [[<- <-]|[Hne Hu]]; [done|by eapply Hg].
  - by apply proceed_ok.
  - destruct (p_tasks pool !! task) as [[edge [| | |id|c|c|]]|] eqn:Ht; try done.
    by apply (finish_task_ok task {| tk_edge := edge; tk_phase := Dialing id |}); [..|left].
  - destruct (p_tasks pool !! task) as [[edge [| | |id|c'|c'|]]|] eqn:Ht; try done.
    case_bool_decide.
    + apply (set_task_ok task {| tk_edge := edge; tk_phase := Dialing id |}); try done.
      intros _ c'. cbn. by apply (ok_dialing _ Hok task _ c' Ht).
    + by apply (finish_task_ok task {| tk_edge := edge; tk_phase := Dialing id |}); [..|left].
  - by apply close_conns_ok.
  - destruct (p_conns pool !! name) as [c|] eqn:Hn; [|done]. case_bool_decide as Hcl; [|done].
    destruct Hok as [Hc Hp Hl Hd Hg]. split; cbn; [| |done| |done].
    + intros n c' [_ Hn']%lookup_delete_Some. by apply Hc.
    + intros n c' Hin. destruct (Hp n c' Hin) as [?|Hn']; [by left|]. rewrite lookup_delete_Some.
      destruct (decide (n = name)) as [->|Hne]; [left; congruence|by right].
    + intros k u c' Hu Hdi [_ Hn']%lookup_delete_Some. by eapply Hd.
  - by apply reload_ok.
Qed.

Lemma pool_run_ok edges events : pool_ok (pool_run events (pool_start edges)).
Proof.
  unfold pool_run. assert (H0' : pool_ok (pool_start edges)).
  { split; cbn; try done; set_solver. }
  revert H0'. generalize (pool_start edges). induction events as [|event events IH]; intros pool Hp; [done|].
  cbn. by apply IH, pool_step_ok.
Qed.

(** C12. The daemon never uses a connection to an Edge that is not configured: in
    any interleaving of requests, dials, reloads and losses of connections, a
    connection that [get_conn] has returned for a name is closed, or the current
    configuration gives that name the identity of the connection's peer. And at
    most one request dials a name at a time, with the lock released when it ends. *)
Theorem returned_connections_are_configured edges events :
  let pool := pool_run events (pool_start edges) in
  (forall task t c, p_tasks pool !! task = Some t -> tk_phase t = Got c ->
     c ∈ p_closed pool \/ configured (p_edges pool) (ec_name (tk_edge t)) c.1 = true) /\
  (forall task task' t t', p_tasks pool !! task = Some t -> p_tasks pool !! task' = Some t' ->
     ec_name (tk_edge t) = ec_name (tk_edge t') ->
     is_dialing (tk_phase t) = true -> is_dialing (tk_phase t') = true -> task = task') /\
  (forall name task, p_dials pool !! name = Some task ->
     exists t, p_tasks pool !! task = Some t /\ ec_name (tk_edge t) = name /\ holds_lock (tk_phase t) = true).
Proof.
  intros pool. destruct (pool_run_ok edges events) as [Hc Hp Hl Hd Hg]. fold pool in Hc, Hp, Hl, Hd, Hg.
  split_and!.
  - intros task t c Ht Hph. destruct (Hp _ _ (Hg task t c Ht Hph)) as [?|Hn]; [by left|]. right. by apply Hc.
  - intros k k' t t' Ht Ht' Hn Hdi Hdi'.
    assert (H1 : p_dials pool !! ec_name (tk_edge t) = Some k)
      by (apply Hl; exists t; split_and!; [done..|by destruct (tk_phase t)]).
    assert (H2 : p_dials pool !! ec_name (tk_edge t) = Some k')
      by (apply Hl; exists t'; split_and!; [done..|by destruct (tk_phase t')]).
    congruence.
  - intros name task. apply Hl.
Qed.
End Pool.
