(* ===== verification/DaemonRelays.v ===== *)
(** * The daemon's relays (src/crates/agent-scale/src/daemon.rs)

    [run] configures the iroh endpoint with the relays of config.json, and
    [reload_edges] brings them up to date without a restart, from a table of what
    it installed. Both know a relay by the text of its URL: [run] by the URL it
    parsed and printed for the relays of an Edge, [reload_edges] by the text in
    the file. *)
From S2P Require Import Prelude Deps RelayApi ControlApi Files RelayTable ClientConfig.
Open Scope string_scope.
Open Scope Z_scope.

(** [RelayUrl]'s [Display] *)
Class RelayUrlText `{RelayUrls} := { relay_url_to_string : RelayUrl -> string }.
(** A printed URL parses, and [RelayConfig::from] takes iroh's default QUIC port. *)
Class RelayUrlTextLaws `{RelayUrlText} : Prop := {
  relay_url_parse_to_string : forall url, relay_url_parse (relay_url_to_string url) = Ok url;
  relay_config_from_url : forall url, relay_config_from url = {| quic_port := Some 7842; auth_token := None |};
}.

(** [RelayRuntimeConfig]: port and credential *)
Notation Runtime := (option Z * option string)%type.
Notation runtime_config := (fun x : Runtime => managed_relay_config x.1 x.2).

Section DaemonRelays.
Context `{Keys, Encodings, !ControlSerde, !Urls, !RelayUrls, !RelayUrlText}.
Implicit Types (config : Config).

Record DaemonRelays := {
  dr_relays : gmap RelayUrl RelayConfig;     (* the endpoint's *)
  dr_known : gmap string Runtime;            (* [known_relays] *)
}.

(** ** [run] *)

(** The relays of the Edges: a URL that is there already stays. *)
Fixpoint edge_relays (values : list string) (relays : gmap string (RelayUrl * RelayConfig))
  : result string (gmap string (RelayUrl * RelayConfig)) :=
  match values with
  | [] => Ok relays
  | value :: values =>
      url ← map_err (fun _ => "bad relay") (relay_url_parse value);
      let key := relay_url_to_string url in
      edge_relays values (match relays !! key with
                          | Some _ => relays
                          | None => <[key := (url, relay_config_from url)]> relays
                          end)
  end.

Fixpoint managed_relays (credential : string) (infos : list RelayInfo) (relays : gmap string (RelayUrl * RelayConfig))
  : result string (gmap string (RelayUrl * RelayConfig)) :=
  match infos with
  | [] => Ok relays
  | relay :: infos =>
      url ← map_err (fun _ => "bad managed relay") (relay_url_parse (ri_url relay));
      managed_relays credential infos
        (<[ri_url relay := (url, managed_relay_config (ri_qad_port relay) (Some credential))]> relays)
  end.

Definition config_relay_values config : list string := cfg_edges config ≫= ec_relays.

Definition start_table config : result string (gmap string (RelayUrl * RelayConfig)) :=
  relays ← edge_relays (config_relay_values config) ∅;
  match cfg_control config with
  | None => Ok relays
  | Some control =>
      let map := snm_map (cc_map control) in
      credential ← of_option (nm_relay_credential map) "control map is missing its Relay credential";
      managed_relays credential (nm_relays map) relays
  end.

(** The order in which [HashMap]s are visited *)
Context (visit_table : gmap string (RelayUrl * RelayConfig) -> list (string * (RelayUrl * RelayConfig))).
Context (visit : gmap string Runtime -> list (string * Runtime)).

(** The endpoint keeps the last configuration of a URL. *)
Definition daemon_relays_start config : result string DaemonRelays :=
  table ← start_table config;
  Ok {| dr_relays := fold_left (fun relays entry => <[entry.1 := entry.2]> relays) (visit_table table).*2 ∅;
        dr_known := (fun entry => (quic_port entry.2, auth_token entry.2)) <$> table |}.

(** ** [reload_edges] *)

Definition desired_relays config : gmap string Runtime :=
  let desired := hash_map ((fun url => (url, (Some 7842, None))) <$> config_relay_values config) in
  match cfg_control config with
  | None => desired
  | Some control =>
      let map := snm_map (cc_map control) in
      fold_left (fun desired relay => <[ri_url relay := (ri_qad_port relay, nm_relay_credential map)]> desired)
        (nm_relays map) desired
  end.

Definition install_relay (entry : string * Runtime) (d : DaemonRelays) : DaemonRelays :=
  match relay_url_parse entry.1 with
  | Ok url => {| dr_relays := <[url := managed_relay_config entry.2.1 entry.2.2]> (dr_relays d);
                 dr_known := <[entry.1 := entry.2]> (dr_known d) |}
  | Err _ => d
  end.

Definition remove_relay (value : string) (d : DaemonRelays) : DaemonRelays :=
  match relay_url_parse value with
  | Ok url => {| dr_relays := delete url (dr_relays d); dr_known := delete value (dr_known d) |}
  | Err _ => d
  end.

Definition reload_relays config (d : DaemonRelays) : DaemonRelays :=
  let desired := desired_relays config in
  let added := Vec.retain (fun entry => dr_known d !! entry.1 != Some entry.2) (visit desired) in
  let removed := Vec.retain (fun value => desired !! value == None) (visit (dr_known d)).*1 in
  fold_left (fun d value => remove_relay value d) removed (fold_left (fun d entry => install_relay entry d) added d).

(** ** Lemmas on the loops *)

Lemma install_all entries d :
  urls_parse (list_to_set entries.*1) ->
  let d' := fold_left (fun d entry => install_relay entry d) entries d in
  dr_relays d' = installed_relays runtime_config entries (dr_relays d) /\
  dr_known d' = fold_left (fun m entry => <[entry.1 := entry.2]> m) entries (dr_known d).
Proof.
  revert d. induction entries as [|[value x] entries IH]; intros d Hp; [done|].
  destruct (Hp value) as [url Hu]; [cbn; set_solver|].
  destruct (IH (install_relay (value, x) d)) as [Hr Hk]; [intros v Hv; apply Hp; cbn; set_solver|].
  cbn [fold_left]. rewrite Hr, Hk. unfold installed_relays, install_relay. cbn. by rewrite Hu.
Qed.

Lemma remove_all values d :
  urls_parse (list_to_set values) ->
  let d' := fold_left (fun d value => remove_relay value d) values d in
  dr_relays d' = remove_relays values (dr_relays d) /\
  dr_known d' = fold_left (fun m value => delete value m) values (dr_known d).
Proof.
  revert d. induction values as [|value values IH]; intros d Hp; [done|].
  destruct (Hp value) as [url Hu]; [cbn; set_solver|].
  destruct (IH (remove_relay value d)) as [Hr Hk]; [intros v Hv; apply Hp; cbn; set_solver|].
  cbn [fold_left remove_relays]. rewrite Hr, Hk. unfold remove_relay. by rewrite Hu.
Qed.

(** Installing only what changed is installing everything. *)
Lemma installed_changed entries (relays : gmap RelayUrl RelayConfig) (known : gmap string Runtime) :
  (forall value x url, (value, x) ∈ entries -> known !! value = Some x -> relay_url_parse value = Ok url ->
     relays !! url = Some (runtime_config x)) ->
  NoDup entries.*1 -> urls_parse (list_to_set entries.*1) -> urls_apart (list_to_set entries.*1) ->
  installed_relays runtime_config (Vec.retain (fun entry => known !! entry.1 != Some entry.2) entries) relays =
  installed_relays runtime_config entries relays.
Proof.
  revert relays. induction entries as [|[value x] entries IH]; intros relays Hm Hn Hp Ha; [done|].
  cbn in Hn. apply NoDup_cons in Hn as [Hv Hn]. destruct (Hp value) as [url Hu]; [cbn; set_solver|].
  assert (Hp' : urls_parse (list_to_set entries.*1)) by (intros v Hin; apply Hp; cbn; set_solver).
  assert (Ha' : urls_apart (list_to_set entries.*1)) by (intros v v' u Hv1 Hv2; apply Ha; cbn; set_solver).
  unfold installed_relays. cbn. rewrite Hu. case_bool_decide as Hk; cbn; rewrite ?Hu;
    fold (installed_relays runtime_config entries (<[url := managed_relay_config x.1 x.2]> relays)).
  - rewrite (insert_id relays url) by (apply (Hm value x url); [apply list_elem_of_here|done..]).
    apply IH; [|done..]. intros v y u Hin. apply Hm. by right.
  - apply IH; [|done..]. intros v y u Hin Hy Hvu. rewrite lookup_insert_ne; [apply (Hm v y u); [by right|done..]|].
    intros ->. apply Hv. assert (E : value = v).
    { apply (Ha value v u); [cbn; set_solver| |done..]. cbn. rewrite elem_of_union, elem_of_list_to_set. right.
      by apply (list_elem_of_fmap_2 fst entries (v, y)). }
    rewrite E. by apply (list_elem_of_fmap_2 fst entries (v, y)).
Qed.

(** ** Tables whose texts are canonical *)

(** A text is canonical when it is how its URL is printed. *)
Definition canonical (value : string) : Prop :=
  exists url, relay_url_parse value = Ok url /\ relay_url_to_string url = value.

Lemma canonical_apart (values : gset string) : (forall v, v ∈ values -> canonical v) -> urls_apart values /\ urls_parse values.
Proof.
  intros Hc. split.
  - intros v v' url Hv Hv' Hu Hu'. destruct (Hc v Hv) as (u & E & <-), (Hc v' Hv') as (u' & E' & <-). congruence.
  - intros v Hv. destruct (Hc v Hv) as (u & E & _). by exists u.
Qed.

Definition canonical_config config : Prop :=
  (forall value, value ∈ config_relay_values config -> canonical value) /\
  forall control relay, cfg_control config = Some control -> relay ∈ nm_relays (snm_map (cc_map control)) ->
    canonical (ri_url relay).

Lemma lookup_hash_map_const {A} (values : list string) (x : A) (m : gmap string A) key :
  fold_left (fun m entry => <[entry.1 := entry.2]> m) ((fun v => (v, x)) <$> values) m !! key =
  if bool_decide (key ∈ values) then Some x else m !! key.
Proof.
  revert m. induction values as [|v values IH]; intros m; cbn; [by rewrite bool_decide_eq_false_2 by set_solver|].
  rewrite IH. destruct (decide (key ∈ values)) as [Hin|Hin].
  - rewrite !bool_decide_eq_true_2; [done|by right|done].
  - rewrite (bool_decide_eq_false_2 (key ∈ values)) by done. destruct (decide (key = v)) as [->|Hne].
    + rewrite bool_decide_eq_true_2, lookup_insert_eq; [done|by left].
    + rewrite bool_decide_eq_false_2, lookup_insert_ne; [done..|]. set_solver.
Qed.

Lemma desired_canonical config value : canonical_config config -> value ∈ dom (desired_relays config) -> canonical value.
Proof.
  intros [He Hc]. unfold desired_relays. assert (Hd : forall v,
    v ∈ dom (hash_map ((fun url => (url, (Some 7842, None) : Runtime)) <$> config_relay_values config)) -> canonical v).
  { intros v [x Hx]%elem_of_dom. unfold hash_map in Hx. rewrite lookup_hash_map_const in Hx.
    case_bool_decide; [by apply He|done]. }
  destruct (cfg_control config) as [control|] eqn:Ec; [|apply Hd]. specialize (Hc control).
  revert Hd. generalize (hash_map ((fun url => (url, (Some 7842, None) : Runtime)) <$> config_relay_values config)).
  assert (Hr : forall relay, relay ∈ nm_relays (snm_map (cc_map control)) -> canonical (ri_url relay)) by auto.
  clear Hc Ec. induction (nm_relays (snm_map (cc_map control))) as [|relay relays IH]; intros m Hm; cbn; [apply Hm|].
  apply IH; [intros r Hin; apply Hr; by right|]. intros v. rewrite dom_insert, elem_of_union, elem_of_singleton.
  intros [->|?]; [apply Hr, list_elem_of_here|by apply Hm].
Qed.

Lemma lookup_insert_entries {A} (entries : list (string * A)) (m desired : gmap string A) key :
  (forall entry, entry ∈ entries -> desired !! entry.1 = Some entry.2) ->
  fold_left (fun m entry => <[entry.1 := entry.2]> m) entries m !! key =
  if bool_decide (key ∈ entries.*1) then desired !! key else m !! key.
Proof.
  revert m. induction entries as [|[v x] entries IH]; intros m Hd; cbn; [by rewrite bool_decide_eq_false_2 by set_solver|].
  rewrite IH by (intros e He; apply Hd; by right). destruct (decide (key ∈ entries.*1)) as [Hin|Hin].
  - rewrite !bool_decide_eq_true_2; [done|by right|done].
  - rewrite (bool_decide_eq_false_2 (key ∈ entries.*1)) by done. destruct (decide (key = v)) as [->|Hne].
    + rewrite bool_decide_eq_true_2, lookup_insert_eq by (by left). symmetry. apply (Hd (v, x)), list_elem_of_here.
    + rewrite bool_decide_eq_false_2, lookup_insert_ne; [done..|]. set_solver.
Qed.

(** The endpoint has the relays of the configuration, and the table says so. *)
Record relays_follow config (d : DaemonRelays) : Prop := {
  rf_known : dr_known d = desired_relays config;
  rf_relays : relays_match runtime_config (dr_relays d) (dr_known d);
}.

Section Visited.
Hypothesis visit_all : forall m, visit m ≡ₚ map_to_list m.

Lemma reload_known (known desired : gmap string Runtime) :
  fold_left (fun m value => delete value m) (Vec.retain (fun value => desired !! value == None) (visit known).*1)
    (fold_left (fun m entry => <[entry.1 := entry.2]> m)
       (Vec.retain (fun entry => known !! entry.1 != Some entry.2) (visit desired)) known) = desired.
Proof.
  apply map_eq. intros key. rewrite lookup_deletes, (lookup_insert_entries _ _ desired).
  2: { intros [v x] [He _]%Vec.elem_of_retain. by apply (visit_elem visit visit_all). }
  case_bool_decide as Hd.
  { apply Vec.elem_of_retain in Hd as [_ Hd]. breflect. done. }
  case_bool_decide as Ha; [done|]. destruct (desired !! key) as [x|] eqn:Ex.
  - destruct (decide (known !! key = Some x)) as [->|Hne]; [done|]. destruct Ha.
    apply list_elem_of_fmap. exists (key, x). split; [done|]. apply Vec.elem_of_retain. cbn.
    rewrite bool_decide_eq_false_2 by done. split; [by apply (visit_elem visit visit_all)|done].
  - destruct (known !! key) as [y|] eqn:Ey; [|done]. destruct Hd. apply Vec.elem_of_retain.
    rewrite bool_decide_eq_true_2 by done. split; [|done]. apply list_elem_of_fmap. exists (key, y).
    split; [done|]. by apply (visit_elem visit visit_all).
Qed.

Lemma reload_follows config (d : DaemonRelays) :
  canonical_config config -> (forall v, v ∈ dom (dr_known d) -> canonical v) ->
  relays_match runtime_config (dr_relays d) (dr_known d) -> relays_follow config (reload_relays config d).
Proof.
  intros Hc Hk Hm. unfold reload_relays. cbv zeta. set (desired := desired_relays config).
  set (added := Vec.retain _ (visit desired)). set (removed := Vec.retain _ (visit (dr_known d)).*1).
  assert (Hdom : forall v, v ∈ dom (dr_known d) ∪ dom desired -> canonical v).
  { intros v [?|?]%elem_of_union; [by apply Hk|by eapply desired_canonical]. }
  destruct (canonical_apart _ Hdom) as [Hap Hp].
  assert (Hpa : urls_parse (list_to_set added.*1)).
  { intros v Hv. apply Hp, elem_of_union_r. apply elem_of_list_to_set, list_elem_of_fmap in Hv as (e & -> & He).
    apply Vec.elem_of_retain in He as [He _]. destruct e. apply (visit_elem visit visit_all) in He.
    apply elem_of_dom. by eexists. }
  assert (Hpr : urls_parse (list_to_set removed)).
  { intros v Hv. apply Hp, elem_of_union_l. apply elem_of_list_to_set, Vec.elem_of_retain in Hv as [Hv _].
    rewrite <- (visit_dom visit visit_all). by apply elem_of_list_to_set. }
  destruct (install_all added d Hpa) as [Hi1 Hi2].
  destruct (remove_all removed (fold_left (fun d entry => install_relay entry d) added d) Hpr) as [Hr1 Hr2].
  assert (Hkn : dr_known (fold_left (fun d value => remove_relay value d) removed
    (fold_left (fun d entry => install_relay entry d) added d)) = desired) by (rewrite Hr2, Hi2; apply reload_known).
  split; [exact Hkn|]. rewrite Hkn, Hr1, Hi1. subst added. rewrite installed_changed.
  - apply relays_match_next; [done|done| |done]. intros v Hv. apply Hp. set_solver.
  - intros v x url Hin Hx Hu. apply Hm. by exists v, x.
  - by apply visit_keys.
  - rewrite (visit_dom visit visit_all). intros v Hv. apply Hp. set_solver.
  - rewrite (visit_dom visit visit_all). intros v v' u Hv Hv'. apply Hap; set_solver.
Qed.

(** *** Start *)

Notation runtime := (fun entry : RelayUrl * RelayConfig => (quic_port entry.2, auth_token entry.2)).

(** Every key of the table is the text of its URL. *)
Definition keys_parse (table : gmap string (RelayUrl * RelayConfig)) : Prop :=
  forall key entry, table !! key = Some entry -> relay_url_parse key = Ok entry.1.

Context `{!RelayUrlTextLaws}.

Lemma edge_relays_spec values table table' :
  edge_relays values table = Ok table' -> keys_parse table -> (forall v, v ∈ values -> canonical v) ->
  (forall key entry, table !! key = Some entry -> runtime entry = (Some 7842, None)) ->
  keys_parse table' /\
  runtime <$> table' = fold_left (fun m entry => <[entry.1 := entry.2]> m)
    ((fun v => (v, (Some 7842, None) : Runtime)) <$> values) (runtime <$> table).
Proof.
  revert table. induction values as [|value values IH]; intros table; cbn.
  { by intros [= <-]. }
  intros (url & Hu & Hr)%bind_Ok Hk Hc He. apply map_err_Ok in Hu.
  destruct (Hc value) as (u & Hu' & Hs); [apply list_elem_of_here|]. rewrite Hu in Hu'. injection Hu' as <-. rewrite Hs in Hr.
  assert (Hc' : forall v, v ∈ values -> canonical v) by (intros v Hv; apply Hc; by right).
  destruct (table !! value) as [entry|] eqn:Ee.
  - apply IH in Hr as [? ->]; [|done..]. split; [done|]. f_equal. symmetry. apply insert_id.
    rewrite lookup_fmap, Ee. cbn. by rewrite (He value entry Ee).
  - apply IH in Hr as [? ->]; [|intros key entry [[<- <-]|[_ Ht]]%lookup_insert_Some; [done|by apply Hk]|done|].
    + split; [done|]. f_equal. rewrite fmap_insert. cbn. by rewrite relay_config_from_url.
    + intros key entry [[<- <-]|[_ Ht]]%lookup_insert_Some; [cbn; by rewrite relay_config_from_url|by eapply He].
Qed.

Lemma managed_relays_spec credential infos table table' :
  managed_relays credential infos table = Ok table' -> keys_parse table ->
  keys_parse table' /\
  runtime <$> table' = fold_left (fun m relay => <[ri_url relay := (ri_qad_port relay, Some credential)]> m) infos
    (runtime <$> table).
Proof.
  revert table. induction infos as [|relay infos IH]; intros table; cbn.
  { by intros [= <-]. }
  intros (url & Hu & Hr)%bind_Ok Hk. apply map_err_Ok in Hu.
  apply IH in Hr as [? ->]; [split; [done|]; by rewrite fmap_insert|].
  intros key entry [[<- <-]|[_ Ht]]%lookup_insert_Some; [done|by apply Hk].
Qed.

Lemma start_table_spec config table :
  canonical_config config -> start_table config = Ok table ->
  keys_parse table /\ runtime <$> table = desired_relays config.
Proof.
  intros [He Hc] (edge_table & Hs & Ht)%bind_Ok.
  apply edge_relays_spec in Hs as [Hk E]; [|done|done|done]. unfold desired_relays, hash_map. rewrite fmap_empty in E.
  destruct (cfg_control config) as [control|]; [|injection Ht as <-; done].
  apply bind_Ok in Ht as (credential & Hcr & Ht). apply of_option_Ok in Hcr.
  apply managed_relays_spec in Ht as [? E']; [|done]. split; [done|]. by rewrite E', E, Hcr.
Qed.

Hypothesis visit_table_all : forall m, visit_table m ≡ₚ map_to_list m.

Lemma start_relays_installed (table : gmap string (RelayUrl * RelayConfig)) :
  keys_parse table -> urls_apart (dom table) ->
  relays_match runtime_config
    (fold_left (fun relays entry => <[entry.1 := entry.2]> relays) (visit_table table).*2 ∅) (runtime <$> table).
Proof.
  intros Hk Ha. set (entries := (fun e => (e.1, runtime e.2)) <$> visit_table table).
  assert (Hvis : forall e, e ∈ visit_table table -> table !! e.1 = Some e.2).
  { intros [k e] He. rewrite visit_table_all in He. by apply elem_of_map_to_list. }
  assert (Hf : forall l m, (forall e, e ∈ l -> table !! e.1 = Some e.2) ->
    fold_left (fun relays entry => <[entry.1 := entry.2]> relays) l.*2 m =
    installed_relays runtime_config ((fun e => (e.1, runtime e.2)) <$> l) m).
  { induction l as [|[k [u [q a]]] l IH]; intros m Hl; [done|]. unfold installed_relays. cbn.
    rewrite (Hk k (u, {| quic_port := q; auth_token := a |})) by (apply (Hl (k, _)), list_elem_of_here). cbn.
    apply IH. intros e He. apply Hl. by right. }
  rewrite Hf by done. fold entries.
  assert (Hkeys : entries.*1 = (visit_table table).*1) by (unfold entries; by rewrite <- list_fmap_compose).
  assert (Hdom : forall v, v ∈ entries.*1 -> v ∈ dom table).
  { intros v Hv. rewrite Hkeys in Hv. apply list_elem_of_fmap in Hv as (e & -> & He).
    apply elem_of_dom. eexists. by apply Hvis. }
  intros url config. split.
  - intros Hi. destruct (decide (Exists (fun e => relay_url_parse e.1 = Ok url) entries)) as [He|He].
    + apply Exists_exists in He as ([value x] & He & Hu). cbn in Hu.
      rewrite (installed_relays_in runtime_config entries ∅ url (value, x)) in Hi; try done.
      * injection Hi as <-. exists value, x. split; [|done]. apply list_elem_of_fmap in He as ([k e] & [= -> ->] & He).
        pose proof (Hvis _ He) as Hte. cbn in Hte |- *. by rewrite lookup_fmap, Hte.
      * intros v v' u Hv%elem_of_list_to_set Hv'%elem_of_list_to_set. by apply Ha; apply Hdom.
      * rewrite Hkeys, visit_table_all. apply NoDup_fst_map_to_list.
    + rewrite installed_relays_out in Hi; [by rewrite lookup_empty in Hi|].
      intros e He' Hu. apply He, Exists_exists. by exists e.
  - intros (value & x & Hx & Hu & ->). rewrite lookup_fmap in Hx. apply fmap_Some in Hx as (e & He & ->).
    apply (installed_relays_in runtime_config entries ∅ url (value, runtime e)); [| | |done].
    + intros v v' u Hv%elem_of_list_to_set Hv'%elem_of_list_to_set. by apply Ha; apply Hdom.
    + rewrite Hkeys, visit_table_all. apply NoDup_fst_map_to_list.
    + apply list_elem_of_fmap. exists (value, e). split; [done|]. rewrite visit_table_all. by apply elem_of_map_to_list.
Qed.

Lemma last_cons_default {A} (l : list A) a d : List.last (a :: l) d = List.last l a.
Proof.
  revert a d. induction l as [|b l IH]; intros a d; [done|].
  change (List.last (a :: b :: l) d) with (List.last (b :: l) d). by rewrite !IH.
Qed.

(** C24. The daemon's relays are those of config.json, after the start and after every
    reload, whatever the file said in between: the endpoint has exactly one
    configuration for each relay of the Edges and of the map of Control, with its
    port and the map's credential, as long as relays are written the way iroh
    prints their URLs. *)
Theorem relays_follow_config config0 configs d0 :
  Forall canonical_config (config0 :: configs) -> daemon_relays_start config0 = Ok d0 ->
  let d := fold_left (fun d config => reload_relays config d) configs d0 in
  relays_follow (List.last configs config0) d.
Proof.
  intros [Hc0 Hcs]%Forall_cons Hs. apply bind_Ok in Hs as (table & Ht & Hd). injection Hd as Hd.
  destruct (start_table_spec config0 table Hc0 Ht) as [Hk E].
  assert (Hf0 : relays_follow config0 d0).
  { rewrite <- Hd. split; cbn; [done|]. apply start_relays_installed; [done|].
    apply canonical_apart. intros v Hv. eapply desired_canonical; [exact Hc0|]. by rewrite <- E, dom_fmap. }
  cbv zeta. clear Hd Hk E Ht table. revert config0 d0 Hc0 Hf0.
  induction Hcs as [|config configs Hc _ IH]; intros config0 d0 Hc0 Hf0; [done|]. cbn [fold_left].
  rewrite last_cons_default.
  apply IH; [done|]. apply reload_follows; [done| |apply Hf0].
  intros v Hv. eapply desired_canonical; [exact Hc0|]. by rewrite <- (rf_known _ _ Hf0).
Qed.

Lemma visit_singleton (key : string) (x : Runtime) : visit {[key := x]} = [(key, x)].
Proof. apply Permutation_singleton_r. rewrite visit_all. by rewrite map_to_list_singleton. Qed.

(** A relay that is written otherwise is lost: [run] installs it and notes it by
    its printed URL, so that a reload of the very same file installs it again
    under the text of the file and then removes the printed one, which is the same
    relay. The table says it is installed, so later reloads leave it out too. *)
Theorem noncanonical_relay_is_lost config edge value url :
  cfg_edges config = [edge] -> ec_relays edge = [value] -> cfg_control config = None ->
  relay_url_parse value = Ok url -> relay_url_to_string url <> value ->
  exists d, daemon_relays_start config = Ok d /\ is_Some (dr_relays d !! url) /\
    dr_relays (reload_relays config d) !! url = None /\
    dr_relays (reload_relays config (reload_relays config d)) !! url = None.
Proof.
  intros He Hr Hc Hu Hne. set (x := (Some 7842, None) : Runtime). set (printed := relay_url_to_string url).
  assert (Hvals : config_relay_values config = [value]) by (unfold config_relay_values; rewrite He; cbn; by rewrite Hr).
  assert (Hdes : desired_relays config = {[value := x]}) by (unfold desired_relays; by rewrite Hvals, Hc).
  assert (Hst : daemon_relays_start config =
    Ok {| dr_relays := {[url := relay_config_from url]}; dr_known := {[printed := x]} |}).
  { unfold daemon_relays_start, start_table. rewrite Hvals, Hc. cbn. rewrite Hu. cbn. rewrite lookup_empty. cbn.
    fold printed. do 2 f_equal.
    - assert (E : visit_table {[printed := (url, relay_config_from url)]} = [(printed, (url, relay_config_from url))]).
      { apply Permutation_singleton_r. rewrite visit_table_all. by rewrite map_to_list_singleton. }
      rewrite insert_empty, E. done.
    - rewrite insert_empty, map_fmap_singleton. cbn. by rewrite relay_config_from_url. }
  set (d := {| dr_relays := {[url := relay_config_from url]}; dr_known := {[printed := x]} |}) in Hst.
  assert (Hre : reload_relays config d = {| dr_relays := ∅; dr_known := {[value := x]} |}).
  { unfold reload_relays. rewrite Hdes. change (dr_known d) with ({[printed := x]} : gmap string Runtime).
    rewrite !visit_singleton. cbn [Vec.retain fmap list_fmap List.filter fst snd].
    rewrite (lookup_singleton_ne printed value), (lookup_singleton_ne value printed) by done.
    rewrite (bool_decide_eq_false_2 (None = Some x)), (bool_decide_eq_true_2 (None = None)) by done. cbn [negb fold_left].
    unfold install_relay, remove_relay. cbn [fst snd]. rewrite Hu. unfold printed. rewrite relay_url_parse_to_string.
    cbn. f_equal.
    - by rewrite delete_insert_eq, delete_singleton_eq.
    - rewrite delete_insert_ne, delete_singleton_eq by done. by rewrite insert_empty. }
  exists d. split; [done|]. split; [cbn; rewrite lookup_singleton_eq; by eexists|]. rewrite Hre.
  split; [done|]. unfold reload_relays. rewrite Hdes. cbn [dr_known]. rewrite !visit_singleton.
  cbn [Vec.retain fmap list_fmap List.filter fst snd]. rewrite !lookup_singleton_eq.
  rewrite (bool_decide_eq_true_2 (Some x = Some x)), (bool_decide_eq_false_2 (Some x = None)) by done. done.
Qed.
End Visited.
End DaemonRelays.
