(* ===== verification/McpRegistry.v ===== *)
(** * as-edge: the MCP registry (src/crates/as-edge/src/mcp_registry.rs)

    One JSON file per Edge identity holds the MCP servers it offers. The lock
    file makes every operation one step; a change reads the file, edits the map,
    advances the revision and replaces the file. The registry is shown to refine
    a revisioned map under any history of operations and write failures. *)
From S2P Require Import Prelude Deps Files Transport Protocol.
Open Scope string_scope.
Open Scope Z_scope.

Definition SCHEMA_VERSION : Z := 1.

Record RegistryFile := {
  rf_version : Z;
  rf_revision : Z;
  rf_servers : gmap string McpTransport;
}.

(** [RegistryFile::default()] *)
Definition registry_default : RegistryFile :=
  {| rf_version := SCHEMA_VERSION; rf_revision := 0; rf_servers := ∅ |}.

Section Registry.
Context `{SerdePretty RegistryFile, Urls}.
Implicit Types (fs : Fs string) (path : string).
Notation command A := (handler (Fs string) string A).

Definition validate_mcp_name (name : string) : result string unit :=
  ensure ((name != "") && forallb (fun c => c != Ascii.zero) (Str.chars name)) "invalid MCP name".

Definition validate_transport (transport : McpTransport) : result string unit :=
  match transport with
  | Stdio command _ _ => ensure (command != "") "stdio MCP command cannot be empty"
  | Http url | Sse url =>
      parsed ← map_err (fun _ => "invalid MCP URL") (url_parse url);
      ensure ((url_scheme parsed == "http") || (url_scheme parsed == "https"))
        "MCP URL must use http or https"
  end.

Definition load_unlocked fs path : result string RegistryFile :=
  match fs !! path with
  | None => Ok registry_default
  | Some data =>
      registry ← of_option (from_slice data) "parse MCP registry";
      ensure (rf_version registry == SCHEMA_VERSION) "unsupported MCP registry version";;
      Ok registry
  end.

(** [save_unlocked] writes the pretty form and a newline, like [write_json]. *)
Definition save_unlocked (outcome : WriteOutcome) path (registry : RegistryFile) : command unit :=
  write_json outcome path registry.

Definition mutate {T} (outcome : WriteOutcome) path
  (change : RegistryFile -> result string (RegistryFile * T)) : command T :=
  fs ← get id;
  registry ← lift (load_unlocked fs path);
  '(registry, value) ← lift (change registry);
  revision ← lift (of_option (u64_checked_add (rf_revision registry) 1)
    "MCP registry revision overflow");
  save_unlocked outcome path {| rf_version := rf_version registry; rf_revision := revision;
                                rf_servers := rf_servers registry |};;
  mret value.

Definition with_servers (registry : RegistryFile) servers : RegistryFile :=
  {| rf_version := rf_version registry; rf_revision := rf_revision registry; rf_servers := servers |}.

(** [RegistryStore::list] *)
Definition registry_list path : command McpCatalog :=
  fs ← get id;
  registry ← lift (load_unlocked fs path);
  mret {| mcp_revision := rf_revision registry; mcp_servers := rf_servers registry |}.

(** [RegistryStore::upsert]: whether a definition was replaced *)
Definition registry_upsert (outcome : WriteOutcome) path (name : string) (transport : McpTransport)
  : command bool :=
  lift (validate_mcp_name name);;
  lift (validate_transport transport);;
  mutate outcome path (fun registry =>
    Ok (with_servers registry (<[name := transport]> (rf_servers registry)),
        bool_decide (is_Some (rf_servers registry !! name)))).

(** [RegistryStore::remove] *)
Definition registry_remove (outcome : WriteOutcome) path (name : string) : command unit :=
  lift (validate_mcp_name name);;
  mutate outcome path (fun registry =>
    ensure (bool_decide (is_Some (rf_servers registry !! name))) "no MCP with this name";;
    Ok (with_servers registry (delete name (rf_servers registry)), tt)).

(** [RegistryStore::get] *)
Definition registry_get path (name : string) : command McpTransport :=
  lift (validate_mcp_name name);;
  catalog ← registry_list path;
  lift (of_option (mcp_servers catalog !! name) "no MCP with this name").

(** ** Command lines that define a server *)

(** [parse_mcp_transport] of as-edge *)
Definition parse_mcp_transport (http sse cwd : option string) (argv : list string)
  : result string McpTransport :=
  match http, sse, argv with
  | Some url, _, _ => Ok (Http url)
  | None, Some url, _ => Ok (Sse url)
  | None, None, command :: args => Ok (Stdio command args cwd)
  | None, None, [] => Err "specify `-- <command>`, `--http <url>`, or `--sse <url>`"
  end.

(** [cmd_mcp], Add *)
Definition cmd_mcp_add (outcome : WriteOutcome) path (name : string) (http sse cwd : option string)
  (argv : list string) : command bool :=
  require (bool_decide (cwd = None) || (bool_decide (http = None) && bool_decide (sse = None)))
    "--cwd is only valid for stdio MCP servers";;
  transport ← lift (parse_mcp_transport http sse cwd argv);
  registry_upsert outcome path name transport.

(** ** The specification: a map with a revision *)

Inductive RegistryOp :=
| OpList
| OpGet (name : string)
| OpUpsert (name : string) (transport : McpTransport)
| OpRemove (name : string).

Inductive RegistryAnswer :=
| AList (catalog : McpCatalog)
| AGet (transport : McpTransport)
| AUpsert (replaced : bool)
| ARemove.

Definition registry_perform path (outcome : WriteOutcome) (op : RegistryOp) : command RegistryAnswer :=
  match op with
  | OpList => catalog ← registry_list path; mret (AList catalog)
  | OpGet name => transport ← registry_get path name; mret (AGet transport)
  | OpUpsert name transport =>
      replaced ← registry_upsert outcome path name transport; mret (AUpsert replaced)
  | OpRemove name => registry_remove outcome path name;; mret ARemove
  end.

(** Committing a change of the map: the revision advances by one, or the write
    fails before or after the file was replaced. *)
Definition spec_commit (outcome : WriteOutcome) (servers : gmap string McpTransport)
  (answer : RegistryAnswer) (st : McpCatalog) : McpCatalog * result string RegistryAnswer :=
  let next := {| mcp_revision := mcp_revision st + 1; mcp_servers := servers |} in
  if mcp_revision st <? u64_max then
    match outcome with
    | WriteFailed => (st, Err "replace file")
    | WriteUnsynced => (next, Err "sync directory")
    | Written => (next, Ok answer)
    end
  else (st, Err "MCP registry revision overflow").

Definition spec_registry (outcome : WriteOutcome) (op : RegistryOp) (st : McpCatalog)
  : McpCatalog * result string RegistryAnswer :=
  match op with
  | OpList => (st, Ok (AList st))
  | OpGet name =>
      (st, validate_mcp_name name;;
           transport ← of_option (mcp_servers st !! name) "no MCP with this name";
           Ok (AGet transport))
  | OpUpsert name transport =>
      match validate_mcp_name name;; validate_transport transport with
      | Ok _ => spec_commit outcome (<[name := transport]> (mcp_servers st))
                  (AUpsert (bool_decide (is_Some (mcp_servers st !! name)))) st
      | Err e => (st, Err e)
      end
  | OpRemove name =>
      match validate_mcp_name name;;
            ensure (bool_decide (is_Some (mcp_servers st !! name))) "no MCP with this name" with
      | Ok _ => spec_commit outcome (delete name (mcp_servers st)) ARemove st
      | Err e => (st, Err e)
      end
  end.

(** Any history: the state it ends in and the answers it gave. *)
Fixpoint history {S A} (step : WriteOutcome -> RegistryOp -> S -> S * A)
  (events : list (WriteOutcome * RegistryOp)) (s : S) : S * list A :=
  match events with
  | [] => (s, [])
  | (outcome, op) :: events =>
      let '(s, answer) := step outcome op s in
      let '(s, answers) := history step events s in
      (s, answer :: answers)
  end.

(** ** Refinement *)

Definition holds path fs (st : McpCatalog) : Prop :=
  load_unlocked fs path = Ok {| rf_version := SCHEMA_VERSION; rf_revision := mcp_revision st;
                                rf_servers := mcp_servers st |}.

Context `{!SerdePrettyLaws RegistryFile}.

Lemma holds_written path fs st :
  holds path (<[path := (to_vec_pretty {| rf_version := SCHEMA_VERSION; rf_revision := mcp_revision st;
    rf_servers := mcp_servers st |} ++ [newline_byte])%list]> fs) st.
Proof.
  unfold holds, load_unlocked. rewrite lookup_insert_eq, from_slice_pretty_newline. cbn.
  by rewrite bool_decide_eq_true_2.
Qed.

(** A mutation that the change function accepts. *)
Lemma mutate_refines {T} path outcome change fs st servers (value : T) (f : T -> RegistryAnswer) :
  holds path fs st ->
  change {| rf_version := SCHEMA_VERSION; rf_revision := mcp_revision st; rf_servers := mcp_servers st |}
    = Ok ({| rf_version := SCHEMA_VERSION; rf_revision := mcp_revision st; rf_servers := servers |}, value) ->
  exists fs', (x ← mutate outcome path change; mret (M := handler _ _) (f x)) fs
                = (fs', snd (spec_commit outcome servers (f value) st)) /\
    holds path fs' (fst (spec_commit outcome servers (f value) st)) /\
    (forall p, p <> path -> fs' !! p = fs !! p).
Proof.
  intros Hh Hc. unfold mutate, spec_commit, u64_checked_add, mbind, handler_bind, get, lift.
  cbn. rewrite (Hh : load_unlocked _ _ = _). cbn. rewrite Hc. cbn.
  destruct (Z.ltb_spec (mcp_revision st) u64_max), (Z.leb_spec (mcp_revision st + 1) u64_max); try lia;
    cbn; [|by eauto]. destruct outcome; cbn; [by eauto|eexists..];
    (split; [done|]); split; try apply (holds_written path fs
      {| mcp_revision := mcp_revision st + 1; mcp_servers := servers |}); intros p Hp;
    by rewrite lookup_insert_ne.
Qed.

Lemma registry_step path outcome op fs st :
  holds path fs st ->
  exists fs', registry_perform path outcome op fs = (fs', snd (spec_registry outcome op st)) /\
    holds path fs' (fst (spec_registry outcome op st)) /\
    (forall p, p <> path -> fs' !! p = fs !! p).
Proof.
  intros Hh. destruct op as [|name|name transport|name]; cbn [registry_perform spec_registry].
  - exists fs. unfold registry_list, mbind, handler_bind, get, lift. cbn.
    rewrite (Hh : load_unlocked _ _ = _). cbn. by destruct st.
  - exists fs. unfold registry_get, registry_list, mbind, handler_bind, get, lift.
    destruct (validate_mcp_name name); [|done]. cbn. rewrite (Hh : load_unlocked _ _ = _). cbn.
    by destruct (mcp_servers st !! name).
  - unfold registry_upsert. destruct (validate_mcp_name name) as [[]|]; [|by exists fs].
    destruct (validate_transport transport) as [[]|]; [|by exists fs].
    by apply (mutate_refines path outcome _ fs st).
  - unfold registry_remove. destruct (validate_mcp_name name) as [[]|]; [|by exists fs].
    cbn [mbind result_bind]. case_bool_decide as Hn; cbn.
    + apply (mutate_refines path outcome _ fs st _ tt (fun _ => ARemove)); [done|]. cbn.
      by rewrite bool_decide_eq_true_2.
    + exists fs. unfold mutate, mbind, handler_bind, get, lift. cbn.
      rewrite (Hh : load_unlocked _ _ = _). cbn. by rewrite bool_decide_eq_false_2.
Qed.

(** C26. The registry is a revisioned map: from no file, through any history of
    listings, look-ups, definitions and removals with any write failures, every
    operation gives the answer the map gives, the file always loads to the map's
    current contents and revision, and no other file is touched. *)
Theorem registry_refines_map path events fs :
  fs !! path = None ->
  exists fs', history (registry_perform path) events fs =
      (fs', snd (history spec_registry events {| mcp_revision := 0; mcp_servers := ∅ |})) /\
    holds path fs' (fst (history spec_registry events {| mcp_revision := 0; mcp_servers := ∅ |})) /\
    (forall p, p <> path -> fs' !! p = fs !! p).
Proof.
  intros Hf. assert (Hh : holds path fs {| mcp_revision := 0; mcp_servers := ∅ |}).
  { unfold holds, load_unlocked. by rewrite Hf. }
  clear Hf. revert fs Hh. generalize {| mcp_revision := 0; mcp_servers := ∅ |}.
  induction events as [|[outcome op] events IH]; intros st fs Hh; cbn; [by eauto|].
  destruct (registry_step path outcome op fs st Hh) as (fs1 & -> & Hh1 & Ho1).
  destruct (spec_registry outcome op st) as [st1 answer]; cbn in *.
  destruct (IH st1 fs1 Hh1) as (fs2 & -> & Hh2 & Ho2).
  destruct (history spec_registry events st1) as [st2 answers]; cbn in *.
  exists fs2. split_and!; [done..|]. intros p Hp. by rewrite Ho2, Ho1.
Qed.
End Registry.
