(* ===== verification/Requests.v ===== *)
(** * Requests from the command line to an Edge and back

    One request passes three programs: the command line writes a [LocalRequest]
    (crates/agent-scale/src/client.rs and common.rs), the daemon checks it, finds
    the Edge and sends an [EdgeReq] (crates/agent-scale/src/daemon.rs,
    [handle_client], [handle_admin], [relay_mcp_control], [do_upload],
    [do_download]), and the Edge answers (crates/as-edge/src/iroh_edge.rs,
    [serve_request]). Commands and MCP sessions continue as in Exec.v and
    McpSession.v. A file's content travels through iroh-blobs, which is a
    parameter: the hash of a content and the verified stream of its parts. *)
From stdpp Require Import pretty.
From S2P Require Import Prelude Deps Files Transport Protocol McpRegistry RelayTable ClientConfig.
Open Scope string_scope.
Open Scope Z_scope.

(** ** The local protocol *)

Definition VERSION : string := "0.10.5".
Definition LOCAL_PROTOCOL_VERSION : Z := 3.
Definition MAX_START_PAYLOAD : Z := 64 * 1024.

Inductive ClientOp :=
| OpExec (params : ExecParams)
| OpUpload (local remote : string)
| OpDownload (remote local : string)
| OpMcpList
| OpMcpUpsert (name : string) (transport : McpTransport)
| OpMcpRemove (name : string)
| OpMcpConnect (name : string).

Record ClientReq := { cr_edge : string; cr_op : ClientOp }.

Inductive DaemonAdmin := AdminStatus | AdminReload | AdminShutdown.
#[global] Instance DaemonAdmin_eq : EqDecision DaemonAdmin.
Proof. solve_decision. Defined.

Record DaemonStatus := {
  ds_pid : Z;
  ds_version : string;
  ds_protocol_version : Z;
  ds_active_requests : Z;
  ds_configured_edges : Z;
  ds_configured_proxies : Z;
}.

(** [P] is the type of proxy commands. *)
Inductive LocalCommand (P : Type) :=
| LocalWork (req : ClientReq)
| LocalAdmin (command : DaemonAdmin)
| LocalProxy (command : P).
Arguments LocalWork {P} req.
Arguments LocalAdmin {P} command.
Arguments LocalProxy {P} command.

Record LocalRequest (P : Type) := {
  lr_version : string;
  lr_protocol_version : Z;
  lr_command : LocalCommand P;
}.
Arguments lr_version {P} _.
Arguments lr_protocol_version {P} _.
Arguments lr_command {P} _.

Section Requests.
Context {P : Type} `{Serde (LocalRequest P), Serde EdgeReq}.
Context `{Serde (RpcResult unit), Serde (RpcResult McpCatalog), Serde (RpcResult TransferResult)}.

Definition work_request (edge : string) (op : ClientOp) : bytes :=
  to_vec {| lr_version := VERSION; lr_protocol_version := LOCAL_PROTOCOL_VERSION;
            lr_command := LocalWork {| cr_edge := edge; cr_op := op |} : LocalCommand P |}.

(** ** The daemon *)

Inductive Dispatch :=
| DispatchAdmin (command : DaemonAdmin) (version : string) (protocol_version : Z)
| DispatchProxy (command : P)
| DispatchWork (edge : EdgeCfg) (op : ClientOp).

(** [handle_client] up to the operation; [None] when the client sends nothing *)
Definition handle_client (edges : gmap string EdgeCfg) (stream : bytes) : result string (option Dispatch) :=
  next ← read_frame stream;
  match next with
  | None => Ok None
  | Some (f, _) =>
      ensure (tag f == Start) "expected START from client";;
      request ← of_option (from_slice (T := LocalRequest P) (payload f)) "parse LocalRequest";
      match lr_command request with
      | LocalAdmin command => Ok (Some (DispatchAdmin command (lr_version request) (lr_protocol_version request)))
      | LocalProxy command =>
          ensure ((lr_version request == VERSION) && (lr_protocol_version request == LOCAL_PROTOCOL_VERSION))
            "client/daemon protocol mismatch";;
          Ok (Some (DispatchProxy command))
      | LocalWork req =>
          ensure ((lr_version request == VERSION) && (lr_protocol_version request == LOCAL_PROTOCOL_VERSION))
            "client/daemon protocol mismatch";;
          edge ← of_option (edges !! cr_edge req) "unknown edge";
          Ok (Some (DispatchWork edge (cr_op req)))
      end
  end.

(** [handle_admin]: the answer, and the command for the main loop *)
Definition handle_admin (command : DaemonAdmin) (client_version : string) (client_protocol_version : Z)
  (pid active edges proxies : Z) : RpcResult DaemonStatus * option DaemonAdmin :=
  let status := {| ds_pid := pid; ds_version := VERSION; ds_protocol_version := LOCAL_PROTOCOL_VERSION;
                   ds_active_requests := Z.max 0 (active - 1); ds_configured_edges := edges;
                   ds_configured_proxies := proxies |} in
  let compatible := (client_version == VERSION) && (client_protocol_version == LOCAL_PROTOCOL_VERSION) in
  let any_version := match command with AdminStatus | AdminShutdown => true | AdminReload => false end in
  if any_version || compatible then
    (RpcOk status, match command with AdminStatus => None | _ => Some command end)
  else
    (RpcError {| re_code := "version_mismatch"; re_message :=
      "daemon is " ++ VERSION ++ "/ipc-" ++ pretty LOCAL_PROTOCOL_VERSION ++
      ", client is " ++ client_version ++ "/ipc-" ++ pretty client_protocol_version |}, None).

(** The request for the Edge that a registry operation becomes *)
Definition control_request (op : ClientOp) : option EdgeReq :=
  match op with
  | OpMcpList => Some McpList
  | OpMcpUpsert name transport => Some (McpUpsert name transport)
  | OpMcpRemove name => Some (McpRemove name)
  | _ => None
  end.

(** What is written in answer to [relay_mcp_control]'s request, read back *)
Definition control_answer (link : result string unit) (answer : bytes) : result string bytes :=
  link;;
  next ← read_frame answer;
  match next with
  | Some (f, _) => ensure (tag f == Result_) "unexpected edge frame tag";; Ok (payload f)
  | None => Err "edge closed without an MCP result"
  end.

(** [relay_mcp_control]: the stream to the client *)
Definition relay_mcp_control (link : result string unit) (answer : bytes) : result string bytes :=
  write_frame Result_
    match control_answer link answer with
    | Ok payload => payload
    | Err e => to_vec (RpcError (remote_internal e) : RpcResult unit)
    end.

(** ** The Edge *)

(** The start of [serve_request] *)
Definition read_request (stream : bytes) : result string (option EdgeReq) :=
  next ← read_frame_with_limit MAX_START_PAYLOAD stream;
  match next with
  | None => Ok None
  | Some (f, _) =>
      ensure (tag f == Start) "expected START";;
      req ← of_option (from_slice (payload f)) "parse EdgeReq";
      Ok (Some req)
  end.

Definition write_json_result {T} `{Serde (RpcResult T)} (value : T) : result string bytes :=
  write_frame Result_ (to_vec (RpcOk value)).
Definition write_error_result (error : string) : result string bytes :=
  write_frame Result_ (to_vec (RpcError (remote_internal error) : RpcResult unit)).

Context `{SerdePretty RegistryFile, Urls}.
Notation command A := (handler (Fs string) string A).

(** The answer to an operation on the registry *)
Definition answer_with {T} (respond : T -> result string bytes) (op : command T) : command bytes := fun fs =>
  let '(fs, r) := op fs in
  (fs, match r with Ok value => respond value | Err e => write_error_result e end).

(** [serve_request], McpList, McpUpsert and McpRemove *)
Definition serve_registry (outcome : WriteOutcome) (path : string) (req : EdgeReq) : command bytes :=
  match req with
  | McpList => answer_with write_json_result (registry_list path)
  | McpUpsert name transport => answer_with (fun _ => write_json_result tt) (registry_upsert outcome path name transport)
  | McpRemove name => answer_with write_json_result (registry_remove outcome path name)
  | _ => throw "not a registry request"
  end.

(** [serve_request], McpConnect: the server to connect to, or the refusal *)
Definition serve_connect (path name : string) (fs : Fs string) : McpTransport + result string bytes :=
  match (registry_get path name fs).2 with
  | Err e => inr (write_error_result e)
  | Ok (Stdio command args cwd) => inl (Stdio command args cwd)
  | Ok ((Http url | Sse url) as transport) =>
      match url_parse url with
      | Err e => inr (write_error_result "invalid MCP URL")
      | Ok _ => inl transport
      end
  end.

(** ** The command line *)

(** [mcp_control]: the payload of the RESULT frame *)
Definition mcp_control (stream : bytes) : result string bytes :=
  next ← read_frame stream;
  match next with
  | Some (f, _) => ensure (tag f == Result_) "unexpected daemon frame tag";; Ok (payload f)
  | None => Err "daemon closed without an MCP result"
  end.

Definition rpc_value {T} (r : RpcResult T) : result string T :=
  match r with
  | RpcOk value => Ok value
  | RpcError error => Err (re_code error ++ ": " ++ re_message error)
  end.

Definition ensure_ok (payload : bytes) : result string unit :=
  r ← of_option (from_slice (T := RpcResult unit) payload) "parse result"; rpc_value r.
Definition mcp_list (payload : bytes) : result string McpCatalog :=
  r ← of_option (from_slice (T := RpcResult McpCatalog) payload) "parse result"; rpc_value r.

(** ** A registry operation, end to end *)

(** What the daemon makes of the command line's stream *)
Definition daemon_request (edges : gmap string EdgeCfg) (name : string) (op : ClientOp) : result string EdgeReq :=
  start ← write_frame Start (work_request name op);
  d ← handle_client edges start;
  match d with
  | Some (DispatchWork _ op) => of_option (control_request op) "not a registry request"
  | _ => Err "daemon closed without an MCP result"
  end.

(** What the Edge does with the daemon's stream; it closes the stream without an
    answer when it cannot read the request. *)
Definition edge_serves (outcome : WriteOutcome) (path : string) (req : EdgeReq) (fs : Fs string) : Fs string * bytes :=
  match (stream ← write_frame Start (to_vec req); read_request stream) with
  | Ok (Some req) =>
      let '(fs, answer) := serve_registry outcome path req fs in
      (fs, match answer with Ok bs => bs | Err _ => [] end)
  | _ => (fs, [])
  end.

(** [mcp_list], [mcp_upsert] and [mcp_remove] of client.rs over both streams *)
Definition registry_call {T} (decode : bytes -> result string T) (edges : gmap string EdgeCfg) (name : string)
  (op : ClientOp) (outcome : WriteOutcome) (path : string) : command T := fun fs =>
  match daemon_request edges name op with
  | Err _ => (fs, Err "daemon closed without an MCP result")
  | Ok req =>
      let '(fs, answer) := edge_serves outcome path req fs in
      (fs, stream ← relay_mcp_control (Ok tt) answer; payload ← mcp_control stream; decode payload)
  end.

(** serde's envelope is the same whatever value it could hold. *)
Class RpcLaws : Prop := {
  local_request_serde :: SerdeLaws (LocalRequest P);
  edge_request_serde :: SerdeLaws EdgeReq;
  unit_serde :: SerdeLaws (RpcResult unit);
  catalog_serde :: SerdeLaws (RpcResult McpCatalog);
  transfer_serde :: SerdeLaws (RpcResult TransferResult);
  catalog_error : forall e, from_slice (T := RpcResult McpCatalog) (to_vec (RpcError e : RpcResult unit)) = Some (RpcError e);
}.
Context `{!RpcLaws}.

(** Frames that can be sent *)
Definition sized (limit : Z) (payload : bytes) : Prop := Z.of_nat (length payload) <= limit.

Lemma write_sized t payload limit : sized limit payload -> limit <= MAX_FRAME -> exists bs, write_frame t payload = Ok bs.
Proof.
  unfold sized, write_frame, header. intros Hs Hl. rewrite (proj2 (Z.leb_le _ MAX_FRAME)) by lia. cbn.
  rewrite (proj2 (Z.leb_le _ u32_max)); [by eexists|]. unfold MAX_FRAME, u32_max in *. lia.
Qed.

Lemma read_frame_own t payload bs : write_frame t payload = Ok bs -> read_frame bs = Ok (Some ({| tag := t; payload := payload |}, [])).
Proof.
  intros Hw. rewrite <- (app_nil_r bs). apply (read_write MAX_FRAME {| tag := t; payload := payload |}); [done|].
  by eapply write_frame_length.
Qed.

Lemma daemon_request_ok edges name cfg op req :
  edges !! name = Some cfg -> sized MAX_FRAME (work_request name op) -> control_request op = Some req ->
  daemon_request edges name op = Ok req.
Proof.
  intros He Hs Hc. unfold daemon_request.
  destruct (write_sized Start (work_request name op) MAX_FRAME Hs) as [bs Hw]; [done|]. rewrite Hw. cbn [mbind result_bind].
  unfold handle_client. rewrite (read_frame_own _ _ _ Hw). cbn. unfold work_request. rewrite from_slice_to_vec. cbn.
  rewrite !bool_decide_eq_true_2 by done. cbn. rewrite He. cbn. by rewrite Hc.
Qed.

(** The answer of the Edge reaches the command line. *)
Lemma answer_reaches_client payload bs :
  write_frame Result_ payload = Ok bs ->
  (stream ← relay_mcp_control (Ok tt) bs; mcp_control stream) = Ok payload.
Proof.
  intros Hw. unfold relay_mcp_control, control_answer. cbn [mbind result_bind]. rewrite (read_frame_own _ _ _ Hw). cbn -[write_frame].
  rewrite bool_decide_eq_true_2 by done. cbn -[write_frame]. rewrite Hw. cbn. unfold mcp_control.
  by rewrite (read_frame_own _ _ _ Hw).
Qed.

(** The Edge reads a request of at most 64 KiB, and no longer one. *)
Lemma edge_serves_ok outcome path req fs bs :
  sized MAX_START_PAYLOAD (to_vec req) -> (serve_registry outcome path req fs).2 = Ok bs ->
  edge_serves outcome path req fs = ((serve_registry outcome path req fs).1, bs).
Proof.
  intros Hs Ha. unfold edge_serves.
  destruct (write_sized Start (to_vec req) MAX_START_PAYLOAD Hs) as [frame Hw]; [done|]. rewrite Hw. cbn [mbind result_bind].
  unfold read_request. rewrite <- (app_nil_r frame).
  rewrite (read_write MAX_START_PAYLOAD {| tag := Start; payload := to_vec req |} frame [] Hw Hs).
  cbn -[serve_registry]. rewrite bool_decide_eq_true_2 by done. cbn -[serve_registry]. rewrite from_slice_to_vec.
  cbn -[serve_registry]. destruct (serve_registry outcome path req fs) as [fs' r]. cbn in *. by subst r.
Qed.

Lemma edge_refuses_long outcome path req fs :
  ~ sized MAX_START_PAYLOAD (to_vec req) -> edge_serves outcome path req fs = (fs, []).
Proof.
  intros Hs. unfold edge_serves. destruct (write_frame Start (to_vec req)) as [frame|e] eqn:Hw; [|done]. cbn [mbind result_bind].
  destruct (read_request frame) as [[r|]|e] eqn:Hr; [|done..]. exfalso. apply Hs. unfold read_request in Hr.
  apply bind_Ok in Hr as ([[f rest]|] & Hf & Hk); [|done].
  apply read_inverse in Hf as (b & Hwf & Ef & Hl).
  pose proof (read_frame_own _ _ _ Hw) as Hown. rewrite Ef in Hown.
  unfold read_frame in Hown. rewrite (read_write MAX_FRAME f b rest Hwf) in Hown; [|by eapply write_frame_length].
  injection Hown as -> _. done.
Qed.

(** Every answer of this operation can be sent. *)
Definition answers_fit {T} `{Serde (RpcResult T)} (r : result string T) : Prop :=
  match r with
  | Ok value => sized MAX_FRAME (to_vec (RpcOk value))
  | Err e => sized MAX_FRAME (to_vec (RpcError (remote_internal e) : RpcResult unit))
  end.

(** One operation over the network is the operation on the Edge. *)
Lemma registry_call_ok {T U} `{Serde (RpcResult U)} (decode : bytes -> result string U) (respond : T -> U)
  edges name cfg op req outcome path (act : command T) fs :
  edges !! name = Some cfg -> sized MAX_FRAME (work_request name op) -> control_request op = Some req ->
  sized MAX_START_PAYLOAD (to_vec req) ->
  serve_registry outcome path req = answer_with (fun value => write_frame Result_ (to_vec (RpcOk (respond value)))) act ->
  (forall value, decode (to_vec (RpcOk value)) = Ok value) ->
  (forall e, decode (to_vec (RpcError e : RpcResult unit)) = Err (re_code e ++ ": " ++ re_message e)) ->
  answers_fit (respond <$> (act fs).2) ->
  registry_call decode edges name op outcome path fs =
    ((act fs).1, map_err (fun e => "internal: " ++ e) (respond <$> (act fs).2)).
Proof.
  intros He Hs Hc Hr Hserve Hd Hde Hfit. unfold registry_call. rewrite (daemon_request_ok edges name cfg op req He Hs Hc).
  destruct (act fs) as [fs' r] eqn:Ha. cbn [fst snd] in *.
  assert (Hbs : exists payload bs, write_frame Result_ payload = Ok bs /\
    serve_registry outcome path req fs = (fs', Ok bs) /\
    decode payload = map_err (fun e => "internal: " ++ e) (respond <$> r)).
  { rewrite Hserve. unfold answer_with. rewrite Ha. destruct r as [value|e]; cbn in Hfit |- *;
      destruct (write_sized Result_ _ MAX_FRAME Hfit) as [bs Hbs]; try done; (eexists _, bs; split; [exact Hbs|]).
    - by rewrite Hbs, Hd.
    - unfold write_error_result. by rewrite Hbs, Hde. }
  destruct Hbs as (payload & bs & Hw & Hsv & Hdec).
  rewrite (edge_serves_ok outcome path req fs bs Hr); [|by rewrite Hsv]. rewrite Hsv. cbn [fst]. f_equal.
  pose proof (answer_reaches_client payload bs Hw) as Hans. apply bind_Ok in Hans as (stream & -> & Hm). cbn [mbind result_bind].
  by rewrite Hm.
Qed.

Definition prefixed {T} (r : result string T) : result string T := map_err (fun e => "internal: " ++ e) r.

(** C20. Managing an Edge's MCP registry from a Client is managing it on the Edge:
    for a configured Edge and requests and answers that fit into their frames,
    listing, defining and removing over the daemon and the network return what
    the registry returns on the Edge (errors as [internal: ...]) and change its
    file in the same way. A request of more than 64 KiB changes nothing and
    fails. *)
Theorem remote_registry_is_local edges name cfg outcome path fs :
  edges !! name = Some cfg ->
  (sized MAX_FRAME (work_request name OpMcpList) -> sized MAX_START_PAYLOAD (to_vec McpList) ->
     answers_fit (registry_list path fs).2 ->
     registry_call mcp_list edges name OpMcpList outcome path fs =
       ((registry_list path fs).1, prefixed (registry_list path fs).2)) /\
  (forall server transport, let op := OpMcpUpsert server transport in let act := registry_upsert outcome path server transport in
     sized MAX_FRAME (work_request name op) -> answers_fit ((fun _ => tt) <$> (act fs).2) ->
     (sized MAX_START_PAYLOAD (to_vec (McpUpsert server transport)) ->
        registry_call ensure_ok edges name op outcome path fs = ((act fs).1, prefixed ((fun _ => tt) <$> (act fs).2))) /\
     (~ sized MAX_START_PAYLOAD (to_vec (McpUpsert server transport)) ->
        exists e, registry_call ensure_ok edges name op outcome path fs = (fs, Err e))) /\
  (forall server, let op := OpMcpRemove server in let act := registry_remove outcome path server in
     sized MAX_FRAME (work_request name op) -> sized MAX_START_PAYLOAD (to_vec (McpRemove server)) ->
     answers_fit (act fs).2 ->
     registry_call ensure_ok edges name op outcome path fs = ((act fs).1, prefixed (act fs).2)).
Proof.
  intros He. assert (Hid : forall T (r : result string T), id <$> r = r) by (by intros ? []).
  assert (Hunit : (forall value, ensure_ok (to_vec (RpcOk value)) = Ok value) /\
    forall e, ensure_ok (to_vec (RpcError e : RpcResult unit)) = Err (re_code e ++ ": " ++ re_message e)).
  { unfold ensure_ok. split; intros ?; by rewrite from_slice_to_vec. }
  destruct Hunit as [Hu1 Hu2]. split_and!.
  - intros Hs Hr Hfit. rewrite <- (Hid _ (registry_list path fs).2) in Hfit |- *.
    apply (registry_call_ok mcp_list id edges name cfg OpMcpList McpList); try done; unfold mcp_list.
    + intros value. by rewrite from_slice_to_vec.
    + intros e. by rewrite catalog_error.
  - intros server transport op act Hs Hfit. split.
    + intros Hr. by apply (registry_call_ok ensure_ok (fun _ => tt) edges name cfg op (McpUpsert server transport)).
    + intros Hr. unfold registry_call. rewrite (daemon_request_ok edges name cfg op (McpUpsert server transport)) by done.
      rewrite edge_refuses_long by done. unfold relay_mcp_control. cbn -[write_frame mcp_control].
      destruct (write_frame _ _) as [bs|e] eqn:Hw; [|by eexists]. cbn -[write_frame mcp_control]. unfold mcp_control.
      rewrite (read_frame_own _ _ _ Hw). cbn. rewrite bool_decide_eq_true_2 by done. cbn. rewrite Hu2. by eexists.
  - intros server op act Hs Hr Hfit. rewrite <- (Hid _ (act fs).2) in Hfit |- *.
    by apply (registry_call_ok ensure_ok id edges name cfg op (McpRemove server)).
Qed.
End Requests.
