(* ===== verification/TcpTunnel.v ===== *)
(** * TCP through an Edge

    A connection to a proxy of the daemon becomes a stream to the Edge, which
    connects to the target: [open_tcp_tunnel], [open_udp_tunnel], [bridge_tcp],
    [serve_socks5] and [accept_socks5] of src/crates/agent-scale/src/daemon/proxy.rs
    and [serve_tcp] of src/crates/as-edge/src/proxy.rs. After one frame in each
    direction a tunnel carries plain bytes. Each program copies them with two
    loops of tokio's [copy], one per direction, that end together. *)
From S2P Require Import Prelude Deps Transport FrameStream Protocol RelayTable ClientConfig Requests Proxy.
Open Scope string_scope.
Open Scope Z_scope.

(** [SocketAddr]'s [Display] and [FromStr] *)
Class AddrText := {
  addr_to_string : SocketAddr -> string;
  addr_parse : string -> option SocketAddr;
}.
Class AddrTextLaws `{AddrText} : Prop := {
  addr_parse_to_string : forall addr, addr_parse (addr_to_string addr) = Some addr;
}.

(** ** Copying *)

(** One [copy] and what follows it: what was read and written so far, whether
    the source has ended, and whether the destination was shut down or finished *)
Record Copy := { cp_read : bytes; cp_written : bytes; cp_eof : bool; cp_shut : bool }.
Definition new_copy : Copy := {| cp_read := []; cp_written := []; cp_eof := false; cp_shut := false |}.

Inductive CopyEvent := ReadSome (n : nat) | SeeEof | WriteSome (n : nat) | Shutdown.

(** [source] is all that was put into the source so far, [ended] whether that is
    all. *)
Definition copy_step (source : bytes) (ended : bool) (event : CopyEvent) (c : Copy) : Copy :=
  match event with
  | ReadSome n =>
      if cp_eof c then c
      else {| cp_read := cp_read c ++ take n (drop (length (cp_read c)) source); cp_written := cp_written c;
              cp_eof := false; cp_shut := cp_shut c |}
  | SeeEof =>
      if (ended && (length (cp_read c) =? length source)%nat)%bool
      then {| cp_read := cp_read c; cp_written := cp_written c; cp_eof := true; cp_shut := cp_shut c |} else c
  | WriteSome n =>
      {| cp_read := cp_read c; cp_written := cp_written c ++ take n (drop (length (cp_written c)) (cp_read c));
         cp_eof := cp_eof c; cp_shut := cp_shut c |}
  | Shutdown =>
      if (cp_eof c && (length (cp_written c) =? length (cp_read c))%nat)%bool
      then {| cp_read := cp_read c; cp_written := cp_written c; cp_eof := true; cp_shut := true |} else c
  end.

(** [tokio::try_join!] of the two directions: it ends when both have ended, or
    with the first error. *)
Inductive BridgePhase := Bridging | BridgeDone | BridgeFailed (error : string).
Record Bridge := { br_out : Copy; br_back : Copy; br_phase : BridgePhase }.
Definition new_bridge : Bridge := {| br_out := new_copy; br_back := new_copy; br_phase := Bridging |}.

Inductive BridgeEvent := Out (event : CopyEvent) | Back (event : CopyEvent) | BridgeError (error : string).

Definition joined (out back : Copy) : Bridge :=
  {| br_out := out; br_back := back; br_phase := if (cp_shut out && cp_shut back)%bool then BridgeDone else Bridging |}.

(** [bridge_tcp], and the last part of the Edge's [serve_tcp] *)
Definition bridge_tcp (out_source : bytes) (out_ended : bool) (back_source : bytes) (back_ended : bool)
  (event : BridgeEvent) (b : Bridge) : Bridge :=
  match br_phase b, event with
  | Bridging, Out event => joined (copy_step out_source out_ended event (br_out b)) (br_back b)
  | Bridging, Back event => joined (br_out b) (copy_step back_source back_ended event (br_back b))
  | Bridging, BridgeError e => {| br_out := br_out b; br_back := br_back b; br_phase := BridgeFailed e |}
  | _, _ => b
  end.

(** ** A tunnel *)

(** The application at the daemon's port and the target at the Edge: what each
    has sent, and whether it has closed its side *)
Record Tunnel := {
  tu_app : bytes;
  tu_app_closed : bool;
  tu_daemon : Bridge;   (* out: to the Edge; back: to the application *)
  tu_edge : Bridge;     (* out: to the target; back: to the daemon *)
  tu_target : bytes;
  tu_target_closed : bool;
}.
Definition new_tunnel : Tunnel := {|
  tu_app := []; tu_app_closed := false; tu_daemon := new_bridge; tu_edge := new_bridge;
  tu_target := []; tu_target_closed := false |}.

Inductive TunnelEvent :=
| AppSends (chunk : bytes) | AppCloses | TargetSends (chunk : bytes) | TargetCloses
| AtDaemon (event : BridgeEvent) | AtEdge (event : BridgeEvent).

Definition failed (b : Bridge) : bool := match br_phase b with BridgeFailed _ => true | _ => false end.

(** Dropping a stream ends it for the reader, so a bridge that fails may look
    like one that finished. *)
Definition tunnel_step (event : TunnelEvent) (t : Tunnel) : Tunnel :=
  match event with
  | AppSends chunk =>
      if tu_app_closed t then t
      else {| tu_app := tu_app t ++ chunk; tu_app_closed := false; tu_daemon := tu_daemon t; tu_edge := tu_edge t;
              tu_target := tu_target t; tu_target_closed := tu_target_closed t |}
  | AppCloses =>
      {| tu_app := tu_app t; tu_app_closed := true; tu_daemon := tu_daemon t; tu_edge := tu_edge t;
         tu_target := tu_target t; tu_target_closed := tu_target_closed t |}
  | TargetSends chunk =>
      if tu_target_closed t then t
      else {| tu_app := tu_app t; tu_app_closed := tu_app_closed t; tu_daemon := tu_daemon t; tu_edge := tu_edge t;
              tu_target := tu_target t ++ chunk; tu_target_closed := false |}
  | TargetCloses =>
      {| tu_app := tu_app t; tu_app_closed := tu_app_closed t; tu_daemon := tu_daemon t; tu_edge := tu_edge t;
         tu_target := tu_target t; tu_target_closed := true |}
  | AtDaemon event =>
      let edge := br_back (tu_edge t) in
      {| tu_app := tu_app t; tu_app_closed := tu_app_closed t;
         tu_daemon := bridge_tcp (tu_app t) (tu_app_closed t) (cp_written edge)
                        (cp_shut edge || failed (tu_edge t)) event (tu_daemon t);
         tu_edge := tu_edge t; tu_target := tu_target t; tu_target_closed := tu_target_closed t |}
  | AtEdge event =>
      let daemon := br_out (tu_daemon t) in
      {| tu_app := tu_app t; tu_app_closed := tu_app_closed t; tu_daemon := tu_daemon t;
         tu_edge := bridge_tcp (cp_written daemon) (cp_shut daemon || failed (tu_daemon t))
                      (tu_target t) (tu_target_closed t) event (tu_edge t);
         tu_target := tu_target t; tu_target_closed := tu_target_closed t |}
  end.

Definition tunnel_run (events : list TunnelEvent) : Tunnel :=
  fold_left (fun t event => tunnel_step event t) events new_tunnel.

(** ** What a copy keeps *)

Record copy_ok (source : bytes) (ended : bool) (c : Copy) : Prop := {
  co_read : cp_read c `prefix_of` source;
  co_written : cp_written c `prefix_of` cp_read c;
  co_eof : cp_eof c = true -> ended = true /\ cp_read c = source;
  co_shut : cp_shut c = true -> cp_eof c = true /\ cp_written c = cp_read c;
}.

Lemma prefix_more (a s : bytes) n : a `prefix_of` s -> (a ++ take n (drop (length a) s))%list `prefix_of` s.
Proof. intros [k ->]. rewrite drop_app_length. apply prefix_app, prefix_take. Qed.

Lemma prefix_full (a s : bytes) : a `prefix_of` s -> length a = length s -> a = s.
Proof. intros [k ->] Hl. rewrite length_app in Hl. destruct k; [by rewrite app_nil_r|cbn in Hl; lia]. Qed.

Lemma copy_ok_step source ended event c : copy_ok source ended c -> copy_ok source ended (copy_step source ended event c).
Proof.
  intros [Hr Hw He Hs]. destruct event as [n| |n|]; cbn.
  - destruct (cp_eof c) eqn:Ee; [by split; try rewrite Ee|]. split; cbn; [by apply prefix_more| |done|].
    + etrans; [exact Hw|]. by eexists.
    + intros Hc. by destruct (Hs Hc).
  - destruct ended; cbn; [|by split]. destruct (Nat.eqb_spec (length (cp_read c)) (length source)); [|by split].
    split; cbn; [done..|intros _; split; [done|by apply prefix_full]|]. intros Hc. split; [done|]. by apply Hs.
  - split; cbn; [done|by apply prefix_more|done|]. intros Hc. destruct (Hs Hc) as [? E]. split; [done|].
    rewrite E, drop_ge, take_nil by lia. by rewrite app_nil_r.
  - destruct (cp_eof c) eqn:Ee; cbn; [|by split; try rewrite Ee].
    destruct (Nat.eqb_spec (length (cp_written c)) (length (cp_read c))); [|by split; try rewrite Ee].
    split; cbn; [done..|by intros _; apply He|]. intros _. split; [done|by apply prefix_full].
Qed.

(** The source may grow until it has ended. *)
Lemma copy_ok_source source ended source' ended' c :
  copy_ok source ended c -> source `prefix_of` source' -> (ended = true -> ended' = true /\ source' = source) ->
  copy_ok source' ended' c.
Proof.
  intros [Hr Hw He Hs] Hp Hend. split; [by etrans|done| |done].
  intros Hc. destruct (He Hc) as [H1 ->]. by destruct (Hend H1) as [-> ->].
Qed.

Lemma copy_step_grows source ended event c :
  copy_ok source ended c ->
  cp_written c `prefix_of` cp_written (copy_step source ended event c) /\
  (cp_shut c = true -> cp_shut (copy_step source ended event c) = true /\
                       cp_written (copy_step source ended event c) = cp_written c).
Proof.
  intros [Hr Hw He Hs]. destruct event as [n| |n|]; cbn; try case_match; cbn; try done.
  split; [by eexists|]. intros Hc. split; [done|]. destruct (Hs Hc) as [_ E].
  rewrite E, drop_ge, take_nil by lia. by rewrite app_nil_r.
Qed.

(** ** What a bridge keeps *)

Definition bridge_ok out_source out_ended back_source back_ended (b : Bridge) : Prop :=
  copy_ok out_source out_ended (br_out b) /\ copy_ok back_source back_ended (br_back b).

(** What the other side sees of a bridge: bytes are only added, and none after
    it ended. *)
Definition continues (c c' : Copy) (over over' : bool) : Prop :=
  cp_written c `prefix_of` cp_written c' /\
  ((cp_shut c || over)%bool = true -> (cp_shut c' || over')%bool = true /\ cp_written c' = cp_written c).

Lemma continues_refl c over : continues c c over over.
Proof. done. Qed.

Lemma bridge_step_ok os oe bs be event b :
  bridge_ok os oe bs be b ->
  let b' := bridge_tcp os oe bs be event b in
  bridge_ok os oe bs be b' /\ continues (br_out b) (br_out b') (failed b) (failed b') /\
  continues (br_back b) (br_back b') (failed b) (failed b').
Proof.
  intros [Ho Hb]. unfold bridge_tcp, failed, continues. destruct (br_phase b) eqn:Ep; [|by rewrite Ep..].
  assert (Hj : forall out back, match br_phase (joined out back) with BridgeFailed _ => true | _ => false end = false)
    by (intros out back; unfold joined; cbn; by destruct (cp_shut out), (cp_shut back)).
  destruct event as [event|event|e]; cbn [br_out br_back joined]; rewrite ?Hj, ?orb_false_r.
  - destruct (copy_step_grows os oe event _ Ho). split; [split; [by apply copy_ok_step|done]|]. done.
  - destruct (copy_step_grows bs be event _ Hb). split; [split; [done|by apply copy_ok_step]|]. done.
  - cbn. rewrite !orb_true_r. done.
Qed.

(** ** The tunnel is a pipe *)

Definition tunnel_ok (t : Tunnel) : Prop :=
  bridge_ok (tu_app t) (tu_app_closed t) (cp_written (br_back (tu_edge t)))
    (cp_shut (br_back (tu_edge t)) || failed (tu_edge t)) (tu_daemon t) /\
  bridge_ok (cp_written (br_out (tu_daemon t))) (cp_shut (br_out (tu_daemon t)) || failed (tu_daemon t))
    (tu_target t) (tu_target_closed t) (tu_edge t).

Lemma tunnel_step_ok event t : tunnel_ok t -> tunnel_ok (tunnel_step event t).
Proof.
  intros [[Hd1 Hd2] [He1 He2]]. destruct event as [chunk| |chunk| |event|event]; cbn.
  - destruct (tu_app_closed t) eqn:Ec; [by split; split; try rewrite Ec|]. split; split; cbn; try done.
    eapply copy_ok_source; [exact Hd1|by eexists|done].
  - split; split; cbn; try done. eapply copy_ok_source; [exact Hd1|done|done].
  - destruct (tu_target_closed t) eqn:Ec; [by split; split; try rewrite Ec|]. split; split; cbn; try done.
    eapply copy_ok_source; [exact He2|by eexists|done].
  - split; split; cbn; try done. eapply copy_ok_source; [exact He2|done|done].
  - destruct (bridge_step_ok _ _ _ _ event (tu_daemon t) (conj Hd1 Hd2)) as (Hok & [Hp Hc] & _).
    split; [exact Hok|]. split; [|exact He2]. cbn. eapply copy_ok_source; [exact He1|exact Hp|exact Hc].
  - destruct (bridge_step_ok _ _ _ _ event (tu_edge t) (conj He1 He2)) as (Hok & _ & [Hp Hc]).
    split; [|exact Hok]. split; [exact Hd1|]. cbn. eapply copy_ok_source; [exact Hd2|exact Hp|exact Hc].
Qed.

Lemma tunnel_run_ok events : tunnel_ok (tunnel_run events).
Proof.
  unfold tunnel_run. assert (H0 : tunnel_ok new_tunnel) by (split; split; split; done).
  revert H0. generalize new_tunnel. induction events as [|event events IH]; intros t Ht; [done|].
  by apply IH, tunnel_step_ok.
Qed.

(** A chain of two copies *)
Lemma chain_spec source ended c over d :
  copy_ok source ended c -> copy_ok (cp_written c) (cp_shut c || over) d ->
  cp_written d `prefix_of` source /\
  (cp_shut d = true -> over = false -> ended = true /\ cp_written d = source).
Proof.
  intros [Hr Hw He Hs] [Hr' Hw' He' Hs']. split; [etrans; [exact Hw'|]; etrans; [exact Hr'|]; by etrans|].
  intros Hd ->. destruct (Hs' Hd) as [Heof E]. destruct (He' Heof) as [Hsh E']. rewrite orb_false_r in Hsh.
  destruct (Hs Hsh) as [Hceof E'']. destruct (He Hceof) as [-> E3]. split; [done|]. congruence.
Qed.

(** The events that finish a direction whose source has ended *)
Definition finish (n : nat) : list CopyEvent := [ReadSome n; WriteSome n; SeeEof; Shutdown].

Lemma prefix_rest (a s : bytes) : a `prefix_of` s -> (a ++ take (length s) (drop (length a) s))%list = s.
Proof. intros [k ->]. rewrite drop_app_length, take_ge; [done|]. rewrite length_app. lia. Qed.

Lemma copy_finish source c :
  copy_ok source true c ->
  let c' := fold_left (fun c event => copy_step source true event c) (finish (length source)) c in
  cp_written c' = source /\ cp_shut c' = true.
Proof.
  intros Hc. cbn [finish fold_left].
  assert (H1 : cp_read (copy_step source true (ReadSome (length source)) c) = source).
  { destruct Hc as [Hr _ He _]. cbn. destruct (cp_eof c); [by apply He|]. cbn. by apply prefix_rest. }
  apply (copy_ok_step _ _ (ReadSome (length source))) in Hc. revert H1 Hc.
  generalize (copy_step source true (ReadSome (length source)) c). intros c1 H1 [_ Hw _ _].
  rewrite H1 in Hw. cbn. by rewrite !H1, !prefix_rest, !Nat.eqb_refl by done.
Qed.

(** A bridge is done when both directions are. *)
Definition done_shut (b : Bridge) : Prop := br_phase b = BridgeDone -> cp_shut (br_out b) = true /\ cp_shut (br_back b) = true.

Lemma done_shut_step os oe bs be event b : done_shut b -> done_shut (bridge_tcp os oe bs be event b).
Proof.
  intros Hd. unfold bridge_tcp. destruct (br_phase b) eqn:Ep; [|exact Hd..].
  destruct event as [e|e|e]; unfold done_shut; cbn; [case_match eqn:E; [by apply andb_true_iff in E|done]..|done].
Qed.

Lemma tunnel_done_shut events : done_shut (tu_daemon (tunnel_run events)) /\ done_shut (tu_edge (tunnel_run events)).
Proof.
  unfold tunnel_run. assert (H0 : done_shut (tu_daemon new_tunnel) /\ done_shut (tu_edge new_tunnel)) by done.
  revert H0. generalize new_tunnel. induction events as [|event events IH]; intros t [Hd He]; [done|]. cbn.
  apply IH. destruct event; cbn; try case_match; try done; split; try done; by apply done_shut_step.
Qed.

(** Events of one direction reach the copy, or it is already shut down. *)
Lemma bridge_out_run os oe bs be events b :
  done_shut b -> failed b = false ->
  let b' := fold_left (fun b event => bridge_tcp os oe bs be (Out event) b) events b in
  failed b' = false /\
  (br_out b' = fold_left (fun c event => copy_step os oe event c) events (br_out b) \/ cp_shut (br_out b') = true).
Proof.
  revert b. induction events as [|event events IH]; intros b Hd Hf; [by split; [|left]|]. cbn.
  destruct (br_phase b) eqn:Ep; [| |unfold failed in Hf; by rewrite Ep in Hf].
  - assert (Ej : bridge_tcp os oe bs be (Out event) b = joined (copy_step os oe event (br_out b)) (br_back b))
      by (unfold bridge_tcp; by rewrite Ep).
    pose proof (done_shut_step os oe bs be (Out event) b Hd) as Hd'. rewrite Ej in *. apply IH; [done|].
    unfold failed, joined. cbn. by destruct (cp_shut _ && cp_shut _)%bool.
  - assert (Hsame : forall event, bridge_tcp os oe bs be (Out event) b = b) by (intros e; unfold bridge_tcp; by rewrite Ep).
    assert (Hfold : forall es, fold_left (fun b event => bridge_tcp os oe bs be (Out event) b) es b = b).
    { induction es as [|e es IHe]; [done|]. cbn. by rewrite Hsame. }
    rewrite Hsame, Hfold. split; [done|]. right. by apply Hd.
Qed.

Lemma bridge_finish_out os bs be b :
  bridge_ok os true bs be b -> done_shut b -> failed b = false ->
  let b' := fold_left (fun b event => bridge_tcp os true bs be (Out event) b) (finish (length os)) b in
  cp_written (br_out b') = os /\ cp_shut (br_out b') = true /\ failed b' = false.
Proof.
  intros Hok Hd Hf b'. destruct (bridge_out_run os true bs be (finish (length os)) b Hd Hf) as [Hf' Hout].
  fold b' in Hf', Hout. destruct Hout as [E|Hs].
  - rewrite E. by destruct (copy_finish os (br_out b) (proj1 Hok)).
  - assert (Hok' : bridge_ok os true bs be b').
    { subst b'. clear Hd Hf Hf' Hs. revert b Hok. generalize (finish (length os)).
      induction l as [|e l IH]; intros b Hok; [done|]. cbn. apply IH. by apply bridge_step_ok. }
    destruct Hok' as [[_ _ He Hsh] _]. destruct (Hsh Hs) as [Heof E]. destruct (He Heof) as [_ E'].
    split_and!; [congruence|done..].
Qed.


Lemma run_daemon_out events t :
  fold_left (fun t event => tunnel_step (AtDaemon (Out event)) t) events t =
  {| tu_app := tu_app t; tu_app_closed := tu_app_closed t;
     tu_daemon := fold_left (fun b event => bridge_tcp (tu_app t) (tu_app_closed t) (cp_written (br_back (tu_edge t)))
                    (cp_shut (br_back (tu_edge t)) || failed (tu_edge t)) (Out event) b) events (tu_daemon t);
     tu_edge := tu_edge t; tu_target := tu_target t; tu_target_closed := tu_target_closed t |}.
Proof. revert t. induction events as [|e events IH]; intros t; cbn; [by destruct t|]. by rewrite IH. Qed.

Lemma run_edge_out events t :
  fold_left (fun t event => tunnel_step (AtEdge (Out event)) t) events t =
  {| tu_app := tu_app t; tu_app_closed := tu_app_closed t; tu_daemon := tu_daemon t;
     tu_edge := fold_left (fun b event => bridge_tcp (cp_written (br_out (tu_daemon t)))
                  (cp_shut (br_out (tu_daemon t)) || failed (tu_daemon t)) (tu_target t) (tu_target_closed t)
                  (Out event) b) events (tu_edge t);
     tu_target := tu_target t; tu_target_closed := tu_target_closed t |}.
Proof. revert t. induction events as [|e events IH]; intros t; cbn; [by destruct t|]. by rewrite IH. Qed.

(** Nothing gets stuck: whatever happened, while neither program failed, once the
    application closes, steps of the two programs alone bring everything it sent
    to the target and shut its side down. *)
Theorem tcp_tunnel_delivers events :
  let t := tunnel_run events in
  failed (tu_daemon t) = false -> failed (tu_edge t) = false ->
  exists n, let t' := tunnel_run (events ++ [AppCloses] ++ ((fun e => AtDaemon (Out e)) <$> finish n) ++
                                  ((fun e => AtEdge (Out e)) <$> finish n)) in
  tu_app t' = tu_app t /\ cp_written (br_out (tu_edge t')) = tu_app t /\ cp_shut (br_out (tu_edge t')) = true.
Proof.
  intros t Hfd Hfe. exists (length (tu_app t)). cbv zeta. unfold tunnel_run. rewrite !fold_left_app.
  fold (tunnel_run events). fold t. cbn [fold_left].
  assert (Hmap : forall (f : CopyEvent -> TunnelEvent) es t0, fold_left (fun t e => tunnel_step e t) (f <$> es) t0 =
    fold_left (fun t e => tunnel_step (f e) t) es t0)
    by (intros f es; induction es as [|e es IH]; intros t0; cbn; [done|apply IH]).
  rewrite !Hmap, run_daemon_out, run_edge_out. cbn [tu_app tu_app_closed tu_daemon tu_edge tu_target tu_target_closed tunnel_step].
  destruct (tunnel_done_shut events) as [Hdd Hde]. fold t in Hdd, Hde.
  pose proof (tunnel_step_ok AppCloses _ (tunnel_run_ok events)) as Hok. fold t in Hok.
  destruct (bridge_finish_out _ _ _ _ (proj1 Hok) Hdd Hfd) as (Hw & Hs & Hf).
  assert (Hok' : forall es t0, tunnel_ok t0 -> tunnel_ok (fold_left (fun t e => tunnel_step (AtDaemon (Out e)) t) es t0))
    by (induction es as [|e es IH]; intros t0 H0; cbn [fold_left];
      [done|exact (IH _ (tunnel_step_ok (AtDaemon (Out e)) _ H0))]).
  apply (Hok' (finish (length (tu_app t)))) in Hok. rewrite run_daemon_out in Hok. unfold tunnel_ok in Hok.
  cbn [tu_app tu_app_closed tu_daemon tu_edge tu_target tu_target_closed tunnel_step] in *.
  set (daemon := fold_left _ (finish (length (tu_app t))) (tu_daemon t)) in *. destruct Hok as [_ He].
  rewrite Hs, Hw in *. cbn [orb] in *.
  destruct (bridge_finish_out _ _ _ _ He Hde Hfe) as (Hw' & Hs' & _). done.
Qed.

(** ** Opening a tunnel *)

Section Opening.
Context `{Serde EdgeReq, Serde (RpcResult ProxyConnectResult), Serde (RpcResult unit), AddrText, IpText}.

(** The frame [open_tcp_tunnel] writes *)
Definition tunnel_request (target : ProxyTarget) (connect_timeout_secs : Z) : result string bytes :=
  write_frame Start (to_vec (ProxyTcpConnect target connect_timeout_secs)).

(** [open_tcp_tunnel]: [link] is how connecting, opening the stream and writing
    the request went, [answer] what the Edge sends. The tunnel's bytes are the
    rest of the answer. *)
Definition open_tcp_tunnel (edges : gmap string EdgeCfg) (edge_name : string) (link : result string unit)
  (answer : bytes) : result RemoteError (SocketAddr * bytes) :=
  _ ← of_option (edges !! edge_name) (remote_internal "edge is no longer configured");
  map_err remote_internal link;;
  next ← map_err remote_internal (read_frame answer);
  match next with
  | Some (f, rest) =>
      if tag f == Result_ then
        reply ← of_option (from_slice (T := RpcResult ProxyConnectResult) (payload f)) (remote_internal "invalid answer");
        match reply with
        | RpcOk result =>
            bound ← of_option (addr_parse (bound_addr result)) (remote_internal "invalid Edge bound address");
            Ok (bound, rest)
        | RpcError error => Err error
        end
      else Err (remote_internal "unexpected edge proxy frame tag")
  | None => Err (remote_internal "edge closed during proxy startup")
  end.

Definition open_udp_tunnel (edges : gmap string EdgeCfg) (edge_name : string) (link : result string unit)
  (answer : bytes) : result RemoteError bytes :=
  _ ← of_option (edges !! edge_name) (remote_internal "edge is no longer configured");
  map_err remote_internal link;;
  next ← map_err remote_internal (read_frame answer);
  match next with
  | Some (f, rest) =>
      if tag f == Result_ then
        reply ← of_option (from_slice (T := RpcResult unit) (payload f)) (remote_internal "invalid answer");
        match reply with RpcOk _ => Ok rest | RpcError error => Err error end
      else Err (remote_internal "unexpected Edge UDP proxy frame tag")
  | None => Err (remote_internal "Edge closed during UDP proxy startup")
  end.

(** *** The Edge *)

(** [serve_tcp] up to the copies: the frame it writes, and whether it goes on *)
Definition serve_tcp_start (target : ProxyTarget) (connect_timeout_secs : Z) (outcome : ConnectOutcome)
  (options : result string unit) : result string (bytes * option SocketAddr) :=
  match connect_tcp target connect_timeout_secs outcome with
  | Err error =>
      answer ← write_frame Result_ (to_vec (RpcError error : RpcResult ProxyConnectResult));
      Ok (answer, None)
  | Ok local =>
      options;;
      answer ← write_frame Result_ (to_vec (RpcOk {| bound_addr := addr_to_string local |} : RpcResult ProxyConnectResult));
      Ok (answer, Some local)
  end.

(** [serve_udp] up to its loop *)
Definition serve_udp_start (resolve_timeout_secs : Z) (ipv4 : result string unit) : result string bytes :=
  ensure (resolve_timeout_secs != 0) "proxy resolve timeout must be non-zero";;
  ipv4;;
  write_frame Result_ (to_vec (RpcOk tt : RpcResult unit)).

(** *** SOCKS5 *)

Inductive Socks5Command := TCPConnect | TCPBind | UDPAssociate.

(** What the client gets: a tunnel or an association, with the address in the
    reply, or a refusal *)
Inductive SocksSession :=
| SocksTunnel (bound : SocketAddr) (stream : bytes)
| SocksAssociation (bound : SocketAddr) (stream : bytes)
| SocksRefused (reply : ReplyError).

(** [accept_socks5]: fast-socks5 accepts a client that offers what the closure
    accepts, or any client when there is no password. *)
Definition accept_socks5 (auth : option SocksAuth) (offered : option (string * string)) : result string unit :=
  match auth, offered with
  | None, _ => Ok tt
  | Some auth, Some (username, password) => ensure (socks_password auth username password) "authentication rejected"
  | Some _, None => Err "authentication rejected"
  end.

(** [command] is what the client asks for, [replied] how writing the reply goes. *)
Definition serve_socks5 (auth : option SocksAuth) (offered : option (string * string))
  (command : result string (Socks5Command * TargetAddr)) (replied : result string unit)
  (open_tcp : ProxyTarget -> result RemoteError (SocketAddr * bytes)) (open_udp : result RemoteError bytes)
  (udp : result string SocketAddr) : result string SocksSession :=
  accept_socks5 auth offered;;
  '(command, target) ← command;
  match command with
  | TCPConnect =>
      match open_tcp (proxy_target target) with
      | Ok (bound, stream) => replied;; Ok (SocksTunnel bound stream)
      | Err error => replied;; Ok (SocksRefused (socks_reply (re_code error)))
      end
  | UDPAssociate =>
      match open_udp with
      | Err error => replied;; Ok (SocksRefused (socks_reply (re_code error)))
      | Ok stream => bound ← udp; replied;; Ok (SocksAssociation bound stream)
      end
  | TCPBind => replied;; Ok (SocksRefused ReplyCommandNotSupported)
  end.

(** [tunnel_tcp] of a proxy with a fixed target *)
Definition tunnel_tcp (opened : result RemoteError (SocketAddr * bytes)) : result string bytes :=
  match opened with
  | Ok (_, stream) => Ok stream
  | Err error => Err (re_code error ++ ": " ++ re_message error)
  end.
End Opening.

(** ** From a SOCKS client to a target *)

(** What a client should be told of an attempt to connect *)
Definition connect_reply (target : ProxyTarget) (timeout_secs : Z) (outcome : ConnectOutcome) : SocketAddr + ReplyError :=
  if (host target == "") || (port target =? 0) then inr ReplyAddressTypeNotSupported
  else if timeout_secs =? 0 then inr ReplyGeneralFailure
  else match outcome with
       | Connected local => inl local
       | ConnectTimeout | ConnectFailed TimedOut _ => inr ReplyConnectionTimeout
       | ConnectFailed ConnectionRefused _ => inr ReplyConnectionRefused
       | ConnectFailed NetworkUnreachable _ => inr ReplyNetworkUnreachable
       | ConnectFailed (NotFound | HostUnreachable) _ => inr ReplyHostUnreachable
       | ConnectFailed OtherKind _ => inr ReplyGeneralFailure
       end.

Section EndToEnd.
Context `{SerdeLaws EdgeReq, SerdeLaws (RpcResult ProxyConnectResult), Serde (RpcResult unit), AddrTextLaws, IpText}.

Lemma open_serve_tcp edges edge_name cfg target secs outcome answer connected rest :
  edges !! edge_name = Some cfg -> serve_tcp_start target secs outcome (Ok tt) = Ok (answer, connected) ->
  open_tcp_tunnel edges edge_name (Ok tt) (answer ++ rest) =
    match connect_tcp target secs outcome with Ok local => Ok (local, rest) | Err e => Err e end /\
  connected = match connect_tcp target secs outcome with Ok local => Some local | Err _ => None end.
Proof.
  intros He Hs. unfold open_tcp_tunnel, read_frame. rewrite He. cbn [of_option mbind result_bind map_err].
  unfold serve_tcp_start in Hs. destruct (connect_tcp target secs outcome) as [local|e].
  - cbn [mbind result_bind] in Hs. apply bind_Ok in Hs as (frame & Hf & [= <- <-]).
    rewrite (read_write _ {| tag := Result_; payload := _ |} _ _ Hf) by (by eapply write_frame_length).
    cbn. rewrite from_slice_to_vec. cbn. by rewrite addr_parse_to_string.
  - apply bind_Ok in Hs as (frame & Hf & [= <- <-]).
    rewrite (read_write _ {| tag := Result_; payload := _ |} _ _ Hf) by (by eapply write_frame_length).
    cbn. by rewrite from_slice_to_vec.
Qed.

Lemma connect_replies target secs outcome :
  match connect_tcp target secs outcome with
  | Ok local => connect_reply target secs outcome = inl local
  | Err e => connect_reply target secs outcome = inr (socks_reply (re_code e))
  end.
Proof.
  unfold connect_tcp, connect_reply. destruct ((host target == "") || (port target =? 0))%bool; [done|].
  destruct (secs =? 0); [done|]. cbn. by destruct outcome as [local|[] message|].
Qed.

(** A SOCKS client is connected to the target it asked for, or told why not. The
    request the daemon writes is the one the Edge reads, and the bytes that follow
    it, in each direction, are the tunnel's and only those. A client that does not
    pass the password check gets nothing; another is told the address of the
    Edge's connection, or exactly the reason for which the Edge could not
    connect. *)
Theorem socks_connect_end_to_end edges edge_name cfg auth offered target secs outcome start answer connected upstream
    downstream open_udp udp :
  edges !! edge_name = Some cfg -> tunnel_request (proxy_target target) secs = Ok start ->
  Z.of_nat (length (to_vec (ProxyTcpConnect (proxy_target target) secs))) <= MAX_START_PAYLOAD ->
  serve_tcp_start (proxy_target target) secs outcome (Ok tt) = Ok (answer, connected) ->
  let session := serve_socks5 auth offered (Ok (TCPConnect, target)) (Ok tt)
    (fun _ => open_tcp_tunnel edges edge_name (Ok tt) (answer ++ downstream)) open_udp udp in
  read_frame_with_limit MAX_START_PAYLOAD (start ++ upstream) =
    Ok (Some ({| tag := Start; payload := to_vec (ProxyTcpConnect (proxy_target target) secs) |}, upstream)) /\
  read_request (start ++ upstream) = Ok (Some (ProxyTcpConnect (proxy_target target) secs)) /\
  (forall a, auth = Some a -> offered <> Some (sx_username a, sx_password a) -> exists e, session = Err e) /\
  (auth = None \/ (exists a, auth = Some a /\ offered = Some (sx_username a, sx_password a)) ->
   session = Ok (match connect_reply (proxy_target target) secs outcome with
                 | inl local => SocksTunnel local downstream
                 | inr reply => SocksRefused reply
                 end) /\
   connected = match connect_reply (proxy_target target) secs outcome with inl local => Some local | inr _ => None end).
Proof.
  intros He Hst Hlen Hs session.
  assert (Hr : read_frame_with_limit MAX_START_PAYLOAD (start ++ upstream) =
    Ok (Some ({| tag := Start; payload := to_vec (ProxyTcpConnect (proxy_target target) secs) |}, upstream)))
    by (by apply read_write).
  split; [done|]. split; [unfold read_request; rewrite Hr; cbn; by rewrite from_slice_to_vec|]. split.
  - intros a -> Ho. unfold session, serve_socks5, accept_socks5. destruct offered as [[u p]|]; [|by eexists].
    destruct (socks_password a u p) eqn:E; [|by eexists]. unfold socks_password in E. breflect. by subst.
  - intros Hauth. assert (Ha : accept_socks5 auth offered = Ok tt).
    { destruct Hauth as [-> |(a & -> & ->)]; [done|]. cbn. unfold socks_password. by rewrite !bool_decide_eq_true_2. }
    destruct (open_serve_tcp edges edge_name cfg _ _ _ _ _ downstream He Hs) as [Hopen ->].
    unfold session, serve_socks5. rewrite Ha. cbn [mbind result_bind]. rewrite Hopen.
    pose proof (connect_replies (proxy_target target) secs outcome) as Hc.
    destruct (connect_tcp (proxy_target target) secs outcome); by rewrite Hc.
Qed.
End EndToEnd.
