(* ===== verification/DaemonLife.v ===== *)
(** * The life of the daemon

    The main loop of [run] in src/crates/agent-scale/src/daemon.rs, which ends on
    command or when nothing uses the daemon, and [ensure_daemon] of
    src/crates/agent-scale/src/client.rs, with which a command finds a daemon of
    its own version or starts one. *)
From S2P Require Import Prelude Deps Files Transport Protocol McpRegistry RelayTable ClientConfig Requests Proxy.
Open Scope string_scope.
Open Scope Z_scope.

(** ** The main loop *)

Record DaemonLoop := {
  dl_started : nat;              (* handlers that made their [ActiveGuard] *)
  dl_ended : nat;                (* and dropped it *)
  dl_active : Z;                 (* the counter *)
  dl_proxies : ProxyManager;
  dl_commands : list DaemonAdmin;    (* sent to [admin_rx], not yet received *)
  dl_reloads : nat;
  dl_running : bool;
}.
Definition daemon_loop_start : DaemonLoop := {|
  dl_started := 0; dl_ended := 0; dl_active := 0; dl_proxies := ∅; dl_commands := []; dl_reloads := 0; dl_running := true |}.

Inductive LoopEvent :=
| HandlerStarts | HandlerEnds                 (* [ActiveGuard::new] and its [drop] *)
| ProxyChanges (event : ProxyEvent)
| CommandSent (command : DaemonAdmin)         (* by [handle_admin] *)
| CommandReceived
| Accepted                                    (* a connection, or an error of [accept] *)
| IdleElapsed.

Definition with_running (running : bool) (l : DaemonLoop) : DaemonLoop := {|
  dl_started := dl_started l; dl_ended := dl_ended l; dl_active := dl_active l; dl_proxies := dl_proxies l;
  dl_commands := dl_commands l; dl_reloads := dl_reloads l; dl_running := running |}.

(** The branch of [admin_rx.recv()] *)
Definition receive (command : DaemonAdmin) (rest : list DaemonAdmin) (l : DaemonLoop) : DaemonLoop := {|
  dl_started := dl_started l; dl_ended := dl_ended l; dl_active := dl_active l; dl_proxies := dl_proxies l;
  dl_commands := rest;
  dl_reloads := match command with AdminReload => S (dl_reloads l) | _ => dl_reloads l end;
  dl_running := match command with AdminShutdown => false | _ => true end |}.

(** The branch of the timeout *)
Definition in_use (l : DaemonLoop) : bool := (0 <? dl_active l) || negb (bool_decide (dl_proxies l = ∅)).
Definition idle_elapsed (l : DaemonLoop) : DaemonLoop := if in_use l then l else with_running false l.

Definition loop_step (event : LoopEvent) (l : DaemonLoop) : DaemonLoop :=
  if dl_running l then
    match event with
    | HandlerStarts => {|
        dl_started := S (dl_started l); dl_ended := dl_ended l; dl_active := dl_active l + 1; dl_proxies := dl_proxies l;
        dl_commands := dl_commands l; dl_reloads := dl_reloads l; dl_running := true |}
    | HandlerEnds =>
        if (dl_ended l <? dl_started l)%nat then {|
          dl_started := dl_started l; dl_ended := S (dl_ended l); dl_active := dl_active l - 1; dl_proxies := dl_proxies l;
          dl_commands := dl_commands l; dl_reloads := dl_reloads l; dl_running := true |}
        else l
    | ProxyChanges event => {|
        dl_started := dl_started l; dl_ended := dl_ended l; dl_active := dl_active l;
        dl_proxies := proxy_step event (dl_proxies l); dl_commands := dl_commands l; dl_reloads := dl_reloads l;
        dl_running := true |}
    | CommandSent command => {|
        dl_started := dl_started l; dl_ended := dl_ended l; dl_active := dl_active l; dl_proxies := dl_proxies l;
        dl_commands := dl_commands l ++ [command]; dl_reloads := dl_reloads l; dl_running := true |}
    | CommandReceived =>
        match dl_commands l with
        | [] => l
        | command :: rest => receive command rest l
        end
    | Accepted => l
    | IdleElapsed => idle_elapsed l
    end
  else l.

Definition loop_run (events : list LoopEvent) : DaemonLoop :=
  fold_left (fun l event => loop_step event l) events daemon_loop_start.

(** The counter counts the handlers that run. *)
Lemma loop_active events :
  let l := loop_run events in
  (dl_ended l <= dl_started l)%nat /\ dl_active l = Z.of_nat (dl_started l) - Z.of_nat (dl_ended l).
Proof.
  unfold loop_run.
  assert (H0 : (dl_ended daemon_loop_start <= dl_started daemon_loop_start)%nat /\
    dl_active daemon_loop_start = Z.of_nat (dl_started daemon_loop_start) - Z.of_nat (dl_ended daemon_loop_start)) by done.
  revert H0. generalize daemon_loop_start. induction events as [|event events IH]; intros l [Hle Ha]; [done|]. cbn. apply IH.
  unfold loop_step. destruct (dl_running l); [|done].
  destruct event; cbn; unfold idle_elapsed; repeat case_match; cbn; try done; try lia.
  all: try (apply Nat.ltb_lt in H; lia).
Qed.

Definition commands_sent (events : list LoopEvent) : list DaemonAdmin :=
  omap (fun event => match event with CommandSent command => Some command | _ => None end) events.

Lemma loop_commands events command :
  command ∈ dl_commands (loop_run events) -> command ∈ commands_sent events.
Proof.
  unfold loop_run. revert command.
  induction events as [|event events IH] using rev_ind; intros command; [by intros Hc%not_elem_of_nil|].
  rewrite fold_left_app. unfold commands_sent. rewrite omap_app. cbn. rewrite elem_of_app.
  set (l := fold_left _ events daemon_loop_start) in *. unfold loop_step. destruct (dl_running l); [|left; by apply IH].
  destruct event; cbn; try (left; by apply IH).
  - case_match; left; by apply IH.
  - rewrite elem_of_app, list_elem_of_singleton. intros [?| ->]; [left; by apply IH|right; set_solver].
  - destruct (dl_commands l) as [|c rest] eqn:Ec; [rewrite Ec; by intros Hc%not_elem_of_nil|]. cbn. intros Hc.
    left. apply IH. by right.
  - unfold idle_elapsed. case_match; left; by apply IH.
Qed.

(** The daemon does not stop under anyone's feet: it ends because someone sent
    the command to, or when no handler runs and no proxy exists; while one does,
    no amount of idling ends it. *)
Theorem daemon_stops_only_when_unused events event :
  let l := loop_run events in
  dl_running l = true -> dl_running (loop_step event l) = false ->
  (event = CommandReceived /\ AdminShutdown ∈ commands_sent events) \/
  (event = IdleElapsed /\ dl_started l = dl_ended l /\ dl_proxies l = ∅).
Proof.
  intros l Hr. unfold loop_step. rewrite Hr. destruct event; cbn; rewrite ?Hr; try done.
  - case_match; cbn; by rewrite ?Hr.
  - destruct (dl_commands l) as [|c rest] eqn:Ec; [by rewrite Hr|]. cbn. destruct c; try done. intros _. left.
    split; [done|]. apply loop_commands. fold l. rewrite Ec. by left.
  - unfold idle_elapsed. destruct (in_use l) eqn:Eu; [by rewrite Hr|]. intros _. right.
    unfold in_use in Eu. apply orb_false_iff in Eu as [Ea Ep]. breflect.
    destruct (loop_active events) as [Hle Hact]. fold l in Hle, Hact. split; [done|]. split; [lia|done].
Qed.

(** ** Finding the daemon *)

(** What one attempt to connect finds: nothing listening ([NotFound] or
    [ConnectionRefused]), another error, or a stream and what is read from it
    after the request. *)
Inductive Connect :=
| NotListening
| ConnectFails (error : string)
| Connected (answer : bytes).

(** How often it connected, whether it started a daemon, and the connection it
    returns *)
Record Ensured := { en_connections : nat; en_spawned : bool; en_stream : result string nat }.

Section EnsureDaemon.
Context `{Serde (RpcResult DaemonStatus)}.

(** [daemon_admin]: [None] when no daemon listens *)
Definition daemon_admin (found : Connect) : result string (option DaemonStatus) :=
  match found with
  | NotListening => Ok None
  | ConnectFails e => Err ("connect to daemon control socket: " ++ e)
  | Connected answer =>
      next ← read_frame answer;
      match next with
      | Some (f, _) =>
          ensure (tag f == Result_) "unexpected daemon admin frame";;
          r ← of_option (from_slice (T := RpcResult DaemonStatus) (payload f)) "parse admin response";
          Some <$> rpc_value r
      | None => Err "daemon closed without an admin response"
      end
  end.

Definition version_matched (status : DaemonStatus) : bool :=
  (ds_version status == VERSION) && (ds_protocol_version status == LOCAL_PROTOCOL_VERSION).

(** [world n] is what the [n]-th attempt to connect finds, [spawned] the outcome
    of [spawn_daemon]. *)
Variable world : nat -> Connect.
Variable spawned : result string unit.

Definition connect (n : nat) : result string nat :=
  match world n with
  | Connected _ => Ok n
  | NotListening => Err "connection refused"
  | ConnectFails e => Err e
  end.

(** The loop that waits for the old daemon to go *)
Fixpoint wait_gone (turns n : nat) : nat :=
  match turns with
  | O => n
  | S turns => match connect n with Err _ => S n | Ok _ => wait_gone turns (S n) end
  end.

(** The loop that waits for the new daemon *)
Fixpoint wait_up (turns n : nat) : nat * result string nat :=
  match turns with
  | O => (n, Err "daemon did not come up within timeout")
  | S turns =>
      match daemon_admin (world n) with
      | Err e => (S n, Err e)
      | Ok (Some status) =>
          if version_matched status then (S (S n), connect (S n)) else wait_up turns (S n)
      | Ok None => wait_up turns (S n)
      end
  end.

(** The part from [spawn_daemon] on *)
Definition start_daemon (n : nat) : Ensured :=
  match spawned with
  | Err e => {| en_connections := n; en_spawned := true; en_stream := Err e |}
  | Ok _ => let '(n, r) := wait_up 200 n in {| en_connections := n; en_spawned := true; en_stream := r |}
  end.

Definition ensure_daemon : Ensured :=
  match daemon_admin (world 0) with
  | Err e => {| en_connections := 1; en_spawned := false; en_stream := Err e |}
  | Ok (Some status) =>
      if version_matched status then {| en_connections := 2; en_spawned := false; en_stream := connect 1 |}
      else
        match daemon_admin (world 1) with
        | Err e => {| en_connections := 2; en_spawned := false; en_stream := Err e |}
        | Ok _ => start_daemon (wait_gone 100 2)
        end
  | Ok None => start_daemon 1
  end.

(** The attempt found a daemon of this version. *)
Definition matching (n : nat) : Prop :=
  exists status, daemon_admin (world n) = Ok (Some status) /\ version_matched status = true.

Lemma connect_spec n k : connect n = Ok k -> k = n.
Proof. unfold connect. case_match; congruence. Qed.

Lemma wait_gone_bound turns n : (wait_gone turns n <= n + turns)%nat.
Proof. revert n. induction turns as [|turns IH]; intros n; cbn; [lia|]. case_match; [specialize (IH (S n))|]; lia. Qed.

Lemma wait_up_spec turns n :
  ((wait_up turns n).1 <= S (n + turns))%nat /\
  (forall k, (wait_up turns n).2 = Ok k -> exists m, k = S m /\ matching m).
Proof.
  revert n. induction turns as [|turns IH]; intros n; cbn; [by split; [lia|]|].
  destruct (daemon_admin (world n)) as [[status|]|e] eqn:Ea.
  - destruct (version_matched status) eqn:Em; cbn.
    + split; [lia|]. intros k Hk%connect_spec. exists n. split; [done|]. by exists status.
    + destruct (IH (S n)) as [Hb Hok]. split; [lia|done].
  - destruct (IH (S n)) as [Hb Hok]. split; [lia|done].
  - split; [cbn; lia|done].
Qed.

Lemma start_daemon_spec n :
  (en_connections (start_daemon n) <= n + 201)%nat /\
  (forall k, en_stream (start_daemon n) = Ok k -> exists m, k = S m /\ matching m).
Proof.
  unfold start_daemon. destruct spawned as [u|e]; [|by split; [cbn; lia|]].
  pose proof (wait_up_spec 200 n) as [Hb Hok]. destruct (wait_up 200 n) as [n' r]. cbn [fst snd en_connections en_stream] in *.
  split; [lia|done].
Qed.

(** The new daemon is waited for as long as it is not there. *)
Lemma wait_up_finds turns n m :
  (m < turns)%nat -> (forall i, (i < m)%nat -> world (n + i) = NotListening) -> matching (n + m) ->
  (wait_up turns n).2 = connect (S (n + m)).
Proof.
  revert n m. induction turns as [|turns IH]; intros n m Hm Hq (status & Ha & Hv); [lia|]. cbn.
  destruct m as [|m].
  - rewrite Nat.add_0_r in *. by rewrite Ha, Hv.
  - rewrite <- (Nat.add_0_r n) at 1. rewrite (Hq O) by lia. cbn.
    rewrite (IH (S n) m); [f_equal; lia|lia| |].
    + intros i Hi. replace (S n + i)%nat with (n + S i)%nat by lia. apply Hq. lia.
    + exists status. by replace (S n + m)%nat with (n + S m)%nat by lia.
Qed.

(** A daemon of this build answers the request of its status. *)
Definition listening (n : nat) : Prop :=
  exists pid active edges proxies answer,
    write_frame Result_ (to_vec (handle_admin AdminStatus VERSION LOCAL_PROTOCOL_VERSION pid active edges proxies).1) = Ok answer /\
    world n = Connected answer.

Context `{!SerdeLaws (RpcResult DaemonStatus)}.

Lemma listening_matches n : listening n -> matching n.
Proof.
  intros (pid & active & edges & proxies & answer & Hw & Hn).
  eexists. unfold daemon_admin. rewrite Hn, (read_frame_own _ _ _ Hw). cbn -[VERSION LOCAL_PROTOCOL_VERSION].
  rewrite from_slice_to_vec. cbn -[VERSION LOCAL_PROTOCOL_VERSION]. split; [reflexivity|].
  unfold version_matched. cbn -[VERSION LOCAL_PROTOCOL_VERSION]. by rewrite !bool_decide_eq_true_2.
Qed.

(** C25. A command that needs the daemon gives up after at most 303 connections.
    It goes on only with the connection made right after a daemon said it is of
    the command's own version, starts a daemon only if the first answer did not
    say so, and finds a daemon that listens at once or within 199 turns of being
    started. *)
Theorem command_finds_its_daemon :
  (en_connections ensure_daemon <= 303)%nat /\
  (forall k, en_stream ensure_daemon = Ok k -> exists m, k = S m /\ matching m) /\
  (en_spawned ensure_daemon = true -> ~ matching 0) /\
  (listening 0 -> listening 1 -> ensure_daemon = {| en_connections := 2; en_spawned := false; en_stream := Ok 1%nat |}) /\
  (forall m, (m < 200)%nat -> (forall i, (i <= m)%nat -> world i = NotListening) -> spawned = Ok tt ->
    listening (S m) -> listening (S (S m)) -> en_stream ensure_daemon = Ok (S (S m))).
Proof.
  assert (Hgo : forall n, listening n -> connect n = Ok n).
  { intros n (? & ? & ? & ? & ? & _ & Hn). unfold connect. by rewrite Hn. }
  split_and!.
  - unfold ensure_daemon. repeat case_match; cbn [en_connections]; try lia.
    + pose proof (wait_gone_bound 100 2). pose proof (start_daemon_spec (wait_gone 100 2)) as [? _]. lia.
    + pose proof (start_daemon_spec 1) as [? _]. lia.
  - unfold ensure_daemon. intros k. destruct (daemon_admin (world 0)) as [[status|]|e] eqn:E0; cbn [en_stream]; [|apply start_daemon_spec|done].
    destruct (version_matched status) eqn:Ev; cbn [en_stream].
    + intros Hk%connect_spec. exists O. split; [done|]. by exists status.
    + destruct (daemon_admin (world 1)); [apply start_daemon_spec|done].
  - unfold ensure_daemon. intros Hs (status & E0 & Ev). by rewrite E0, Ev in Hs.
  - intros H0 H1. unfold ensure_daemon. destruct (listening_matches 0 H0) as (status & -> & ->). by rewrite (Hgo 1%nat H1).
  - intros m Hm Hq Hsp H0 H1. unfold ensure_daemon. rewrite (Hq O) by lia. cbn. unfold start_daemon. rewrite Hsp.
    assert (Hu : (wait_up 200 1).2 = connect (S (1 + m))).
    { apply wait_up_finds; [done|intros i Hi; apply Hq; lia|by apply listening_matches]. }
    destruct (wait_up 200 1) as [n r]. cbn [snd en_stream] in *. rewrite Hu. exact (Hgo _ H1).
Qed.
End EnsureDaemon.
