(* ===== verification/Listeners.v ===== *)
(** * Listeners: what accepts connections, and for how long

    The accept loop of an Edge with its limit on pending handshakes
    (src/crates/as-edge/src/iroh_edge.rs), the daemon's blob acceptor and the
    start of an MCP session (src/crates/agent-scale/src/daemon.rs, client.rs), the
    sessions of a proxy listener (src/crates/agent-scale/src/daemon/proxy.rs), and
    the local endpoint of the daemon with its instance lock
    (src/crates/agent-scale/src/local_ipc.rs, src/crates/core/src/lib.rs). *)
From S2P Require Import Prelude Deps RelayApi ControlApi Transport Files Protocol EdgePin Proxy ClientConfig Requests.
Open Scope string_scope.
Open Scope Z_scope.

(** ** The accept loop of an Edge *)

Definition MAX_PENDING_HANDSHAKES : nat := 64.

Section Accept.
Context `{Keys}.

(** How the handshake of an incoming connection ends; a finished one goes through
    the pin. *)
Inductive HandshakeEnd :=
| HandshakeTimedOut
| HandshakeFailed
| HandshakeDone (remote : EndpointId) (stable_id : Z) (outcome : WriteOutcome).

Inductive AcceptEvent :=
| Incoming (conn : nat)
| Handshake (conn : nat) (r : HandshakeEnd)
| Serve (event : PinEvent).     (* a served connection ends, or the pin changes *)

(** The connections that hold a handshake permit, those that were refused, and
    the pin with the connections it serves *)
Record Acceptor := { ac_pending : gset nat; ac_refused : gset nat; ac_serving : Serving }.

Definition accept_step (event : AcceptEvent) (a : Acceptor) : Acceptor :=
  match event with
  | Incoming conn =>
      if bool_decide (conn ∈ ac_pending a) then a
      else if (size (ac_pending a) <? MAX_PENDING_HANDSHAKES)%nat
      then {| ac_pending := {[conn]} ∪ ac_pending a; ac_refused := ac_refused a; ac_serving := ac_serving a |}
      else {| ac_pending := ac_pending a; ac_refused := {[conn]} ∪ ac_refused a; ac_serving := ac_serving a |}
  | Handshake conn r =>
      if bool_decide (conn ∈ ac_pending a) then
        {| ac_pending := ac_pending a ∖ {[conn]}; ac_refused := ac_refused a;
           ac_serving := match r with
                         | HandshakeDone remote stable_id outcome => pin_step (Connect remote stable_id outcome) (ac_serving a)
                         | _ => ac_serving a
                         end |}
      else a
  | Serve event =>
      {| ac_pending := ac_pending a; ac_refused := ac_refused a;
         ac_serving := match event with Connect _ _ _ => ac_serving a | _ => pin_step event (ac_serving a) end |}
  end.

Definition accept_start (auth0 : ClientAuth) (files : Fs string) : Acceptor :=
  {| ac_pending := ∅; ac_refused := ∅; ac_serving := pin_start auth0 files |}.
Definition accept_run (events : list AcceptEvent) (a : Acceptor) : Acceptor :=
  fold_left (fun a event => accept_step event a) events a.

Lemma accept_step_pin event a : exists events, ac_serving (accept_step event a) = pin_run events (ac_serving a).
Proof.
  destruct event as [conn|conn r|event]; cbn [accept_step].
  - exists []. case_bool_decide; [done|]. by destruct (_ <? _)%nat.
  - case_bool_decide; [|by exists []]. destruct r as [| |remote stable_id outcome]; [by exists []..|].
    by exists [Connect remote stable_id outcome].
  - destruct event as [? ? ?|remote stable_id|next]; [by exists []|by exists [Finish remote stable_id]|by exists [Replace next]].
Qed.

Lemma accept_step_bound event a :
  (size (ac_pending a) <= MAX_PENDING_HANDSHAKES)%nat -> (size (ac_pending (accept_step event a)) <= MAX_PENDING_HANDSHAKES)%nat.
Proof.
  intros Hs. destruct event as [conn|conn r|event]; cbn [accept_step]; [| |exact Hs].
  - case_bool_decide as Hc; [exact Hs|]. destruct (Nat.ltb_spec (size (ac_pending a)) MAX_PENDING_HANDSHAKES); [|exact Hs].
    cbn. rewrite size_union, size_singleton by set_solver. lia.
  - case_bool_decide; [|done]. cbn [ac_pending]. transitivity (size (ac_pending a)); [apply subseteq_size; set_solver|exact Hs].
Qed.

(** At no moment do more than 64 unfinished handshakes hold an Edge's attention;
    a connection is refused only when there are that many, and is then the only
    thing that changes. Whatever peers do before they are authenticated, the
    Clients that are served are those of a history of the pin, so that they are
    authorized at every moment. *)
Theorem accept_loop_is_bounded auth0 files events :
  let a := accept_run events (accept_start auth0 files) in
  (size (ac_pending a) <= MAX_PENDING_HANDSHAKES)%nat /\
  (exists history, ac_serving a = pin_run history (pin_start auth0 files)) /\
  (forall r i, (r, i) ∈ sv_conns (ac_serving a) -> (r, i) ∉ closed (sv_pin (ac_serving a)) ->
     is_authorized (auth (sv_pin (ac_serving a))) r = true) /\
  (forall conn, conn ∉ ac_pending a ->
     if decide (size (ac_pending a) = MAX_PENDING_HANDSHAKES)
     then accept_step (Incoming conn) a = {| ac_pending := ac_pending a; ac_refused := {[conn]} ∪ ac_refused a; ac_serving := ac_serving a |}
     else conn ∈ ac_pending (accept_step (Incoming conn) a)).
Proof.
  intros a.
  assert (Ha : (size (ac_pending a) <= MAX_PENDING_HANDSHAKES)%nat /\
    exists history, ac_serving a = pin_run history (pin_start auth0 files)).
  { subst a. unfold accept_run. induction events as [|event events IH] using rev_ind.
    - split; [unfold accept_start; cbn; rewrite size_empty; lia|by exists []].
    - rewrite fold_left_app. cbn [fold_left]. destruct IH as [Hs [history Hh]]. split; [by apply accept_step_bound|].
      destruct (accept_step_pin event (fold_left (fun a event => accept_step event a) events (accept_start auth0 files))) as [more ->].
      exists (history ++ more)%list. rewrite Hh. unfold pin_run. by rewrite fold_left_app. }
  destruct Ha as [Hs [history Hh]]. split_and!; [done|by exists history| |].
  - intros r i Hin Hopen. rewrite Hh in *. destruct (pin_run_ok history _ (pin_start_ok auth0 files)) as [Hr Hau].
    eapply Hau. by apply Hr.
  - intros conn Hc. cbn [accept_step]. rewrite bool_decide_eq_false_2 by done.
    destruct (Nat.ltb_spec (size (ac_pending a)) MAX_PENDING_HANDSHAKES) as [Hlt|Hge]; destruct (decide _); try lia; [|done].
    cbn. set_solver.
Qed.
End Accept.

(** ** The daemon's blobs *)

Section Blobs.
Context `{Keys}.

(** [spawn_blobs_acceptor]: whether a connection is served; others are closed. *)
Definition serves_blobs (edges : gmap string EdgeCfg) (remote : EndpointId) (blobs_alpn : bool) : bool :=
  Vec.any (fun entry : string * EdgeCfg => id_parse (ec_endpoint_id entry.2) == Some remote) (map_to_list edges) && blobs_alpn.

(** The daemon hands out blobs only to Edges of its configuration, by the
    identity that the connection proved. *)
Theorem blobs_are_for_edges edges remote blobs_alpn :
  serves_blobs edges remote blobs_alpn = true <->
  blobs_alpn = true /\ exists name cfg, edges !! name = Some cfg /\ id_parse (ec_endpoint_id cfg) = Some remote.
Proof.
  unfold serves_blobs. rewrite andb_true_iff, Vec.any_true. split.
  - intros (([name cfg] & Hin%elem_of_map_to_list & Hid) & ->). breflect. eauto.
  - intros (-> & name & cfg & He & Hid). split; [|done]. exists (name, cfg). split; [by apply elem_of_map_to_list|].
    by apply bool_decide_eq_true.
Qed.
End Blobs.

(** ** The sessions of a proxy *)

(** What a session does with its socket *)
Inductive SessionKind := TunnelTcp (edge : string) (target : ProxyTarget) (timeout : Z) | ServeSocks5 (edge : string) (timeout : Z) (auth : option SocksAuth).
Definition session_kind (spec : ProxySpec) : SessionKind :=
  match ps_kind spec with
  | ProxyTcp target => TunnelTcp (ps_edge spec) target (ps_connect_timeout_secs spec)
  | ProxySocks5 => ServeSocks5 (ps_edge spec) (ps_connect_timeout_secs spec) (ps_socks_auth spec)
  end.

(** The [JoinSet] of [serve_listener], and its result once it returned *)
Record ProxyTask := { pt_sessions : gmap nat SessionKind; pt_ended : option (result string unit) }.
Definition proxy_task_start : ProxyTask := {| pt_sessions := ∅; pt_ended := None |}.

Inductive ListenerEvent :=
| Accepted (session : nat)
| AcceptFailed (error : string)
| SessionEnded (session : nat)
| Cancelled.

(** [serve_listener]. Both ways out leave no session: [abort_all] and the wait
    for it, or the drop of the [JoinSet] with the error of [accept]. *)
Definition listener_step (spec : ProxySpec) (event : ListenerEvent) (t : ProxyTask) : ProxyTask :=
  match pt_ended t, event with
  | Some _, _ => t
  | None, Accepted session => {| pt_sessions := <[session := session_kind spec]> (pt_sessions t); pt_ended := None |}
  | None, AcceptFailed e => {| pt_sessions := ∅; pt_ended := Some (Err e) |}
  | None, SessionEnded session => {| pt_sessions := delete session (pt_sessions t); pt_ended := None |}
  | None, Cancelled => {| pt_sessions := ∅; pt_ended := Some (Ok tt) |}
  end.
Definition listener_run (spec : ProxySpec) (events : list ListenerEvent) : ProxyTask :=
  fold_left (fun t event => listener_step spec event t) events proxy_task_start.

Lemma listener_run_snoc spec events event :
  listener_run spec (events ++ [event]) = listener_step spec event (listener_run spec events).
Proof. unfold listener_run. by rewrite fold_left_app. Qed.

(** A proxy's sessions are exactly the connections it accepted and that have not
    ended, each tunnelled to the Edge and target of the proxy's definition; and
    when the listener has ended, stopped or failed, none is left, whatever comes
    after. *)
Theorem proxy_sessions_end_with_it spec events :
  let t := listener_run spec events in
  (forall session kind, pt_sessions t !! session = Some kind -> Accepted session ∈ events /\ kind = session_kind spec) /\
  (pt_ended t = None <-> Forall (fun event => match event with Cancelled | AcceptFailed _ => False | _ => True end) events) /\
  (pt_ended t <> None -> pt_sessions t = ∅).
Proof.
  cbv zeta. induction events as [|event events (IH1 & IH2 & IH3)] using rev_ind.
  { cbn. split_and!; [intros session kind Hs; by rewrite lookup_empty in Hs|by split|done]. }
  rewrite listener_run_snoc, Forall_app, Forall_singleton, <- IH2. unfold listener_step.
  destruct (pt_ended (listener_run spec events)) as [r|] eqn:He.
  - rewrite He. split_and!; [|by split; [|intros [? _]]|by intros _; apply IH3].
    intros session kind Hs. rewrite IH3 in Hs by done. by rewrite lookup_empty in Hs.
  - destruct event as [session'|e|session'|]; cbn; (split_and!; [|by split; [|intros [_ ?]]|done]); intros session kind Hs.
    + rewrite elem_of_app. apply lookup_insert_Some in Hs as [[-> <-]|[_ Hs]]; [split; [right; left|done]|].
      apply IH1 in Hs as [Hs ->]. split; [by left|done].
    + by rewrite lookup_empty in Hs.
    + rewrite elem_of_app. apply lookup_delete_Some in Hs as [_ Hs]. apply IH1 in Hs as [Hs ->]. split; [by left|done].
    + by rewrite lookup_empty in Hs.
Qed.

(** ** The local endpoint *)

(** One daemon of a home directory, from [run]'s lock to its end; [DaemonGone] is
    a process that ended in any way. *)
Inductive DaemonPhase := Starting | Locked | Listening | DaemonGone.

(** The lock, which the system releases with its holder; the process that the
    path of the socket leads to; and each process that was started *)
Record LocalHost := {
  lh_lock : option nat;
  lh_socket : option nat;
  lh_daemons : gmap nat DaemonPhase;
}.

Definition set_phase (p : nat) (phase : DaemonPhase) (lock socket : option nat) (h : LocalHost) : LocalHost :=
  {| lh_lock := lock; lh_socket := socket; lh_daemons := <[p := phase]> (lh_daemons h) |}.

(** [FileLock::try_acquire], [Listener::bind], the drop of the [Listener] at the
    end of [run], and a crash, which leaves the path *)
Inductive local_step : LocalHost -> LocalHost -> Prop :=
| local_spawn h p : lh_daemons h !! p = None -> local_step h (set_phase p Starting (lh_lock h) (lh_socket h) h)
| local_lock h p : lh_daemons h !! p = Some Starting -> lh_lock h = None ->
    local_step h (set_phase p Locked (Some p) (lh_socket h) h)
| local_lock_held h p : lh_daemons h !! p = Some Starting -> lh_lock h <> None ->
    local_step h (set_phase p DaemonGone (lh_lock h) (lh_socket h) h)
| local_bind h p : lh_daemons h !! p = Some Locked -> local_step h (set_phase p Listening (lh_lock h) (Some p) h)
| local_bind_fails h p socket : lh_daemons h !! p = Some Locked -> socket = lh_socket h \/ socket = None ->
    local_step h (set_phase p DaemonGone None socket h)
| local_exit h p : lh_daemons h !! p = Some Listening -> local_step h (set_phase p DaemonGone None None h)
| local_crash h p phase : lh_daemons h !! p = Some phase -> phase = Locked \/ phase = Listening ->
    local_step h (set_phase p DaemonGone None (lh_socket h) h)
| local_crash_early h p : lh_daemons h !! p = Some Starting ->
    local_step h (set_phase p DaemonGone (lh_lock h) (lh_socket h) h).

Definition local_start : LocalHost := {| lh_lock := None; lh_socket := None; lh_daemons := ∅ |}.

Definition local_ok (h : LocalHost) : Prop :=
  forall p, (lh_daemons h !! p = Some Locked \/ lh_daemons h !! p = Some Listening) ->
    lh_lock h = Some p /\ (lh_daemons h !! p = Some Listening -> lh_socket h = Some p).

Lemma local_step_ok h h' : local_step h h' -> local_ok h -> local_ok h'.
Proof.
  intros Hst Hok.
  assert (Huniq : forall p q, (lh_daemons h !! p = Some Locked \/ lh_daemons h !! p = Some Listening) ->
    (lh_daemons h !! q = Some Locked \/ lh_daemons h !! q = Some Listening) -> p = q).
  { intros p q Hp Hq. apply Hok in Hp as [Hp _], Hq as [Hq _]. congruence. }
  destruct Hst as [h p Hp|h p Hp Hl|h p Hp Hl|h p Hp|h p socket Hp Hs|h p Hp|h p phase Hp Hs|h p Hp];
    intros q; unfold set_phase; cbn; destruct (decide (p = q)) as [->|Hne];
    rewrite ?lookup_insert_eq, ?(lookup_insert_ne _ _ _ _ Hne); intros Hq;
    try (by destruct Hq); try (by apply Hok).
  - by apply Hok in Hq as [Hq _]; congruence.
  - destruct (Hok q) as [Hlock _]; [by left|]. by split.
  - destruct Hne. apply Huniq; [by left|done].
  - destruct Hne. apply Huniq; [by left|done].
  - destruct Hne. apply Huniq; [by right|done].
  - destruct Hne. apply Huniq; [destruct Hs as [-> | ->]; auto|done].
Qed.

(** One daemon serves a home directory at a time, and the socket leads to it:
    whatever starts, ends and crashes there were, a daemon that listens holds the
    lock and owns the path, so that no exit or start of another one takes the
    path away from it; and every other process that got as far is gone. *)
Theorem one_daemon_owns_the_socket h :
  rtc local_step local_start h ->
  forall p, lh_daemons h !! p = Some Listening ->
    lh_lock h = Some p /\ lh_socket h = Some p /\
    forall q phase, lh_daemons h !! q = Some phase -> q = p \/ phase = Starting \/ phase = DaemonGone.
Proof.
  intros Hr. assert (Hok : local_ok h).
  { revert Hr. apply (rtc_ind_r (fun h => local_ok h)); [intros p; cbn; rewrite lookup_empty; by intros [|]|].
    intros h1 h2 _ Hst Hok. by eapply local_step_ok. }
  intros p Hp. destruct (Hok p) as [Hl Hs]; [by right|]. split_and!; [done|by apply Hs|].
  intros q phase Hq. destruct phase; [tauto| | |tauto]; left; destruct (Hok q) as [Hlq _]; auto; congruence.
Qed.

(** The named pipe of Windows: [connect] tries fifty times while all instances
    are busy. *)
Inductive PipeOpen := PipeOpened | PipeBusy | PipeFails (error : string).

(** The attempts after [attempt], with the pauses that were made *)
Fixpoint pipe_connect (fuel attempt : nat) (world : nat -> PipeOpen) : nat * result string nat :=
  match fuel with
  | O => (attempt, Err "named-pipe retry loop always returns")
  | S fuel =>
      match world attempt with
      | PipeOpened => (attempt, Ok attempt)
      | PipeBusy => if (attempt <? 49)%nat then pipe_connect fuel (S attempt) world else (attempt, Err "pipe busy")
      | PipeFails e => (attempt, Err e)
      end
  end.
Definition local_connect (world : nat -> PipeOpen) : nat * result string nat := pipe_connect 50 0 world.

Lemma pipe_connect_spec fuel attempt world pauses r :
  (fuel + attempt = 50)%nat -> (0 < fuel)%nat -> pipe_connect fuel attempt world = (pauses, r) ->
  (attempt <= pauses <= 49)%nat /\ (forall n, (attempt <= n < pauses)%nat -> world n = PipeBusy) /\
  match world pauses with
  | PipeOpened => r = Ok pauses
  | PipeBusy => pauses = 49%nat /\ r = Err "pipe busy"
  | PipeFails e => r = Err e
  end.
Proof.
  revert attempt. induction fuel as [|fuel IH]; intros attempt Hf H0; [lia|]. cbn [pipe_connect].
  destruct (world attempt) as [| |e] eqn:Hw.
  - intros [= <- <-]. rewrite Hw. split_and!; [lia..|done].
  - destruct (Nat.ltb_spec attempt 49).
    + intros Hc. apply IH in Hc as (Hb & Hn & Hr); [|lia..]. split_and!; [lia..| |done].
      intros n Hn'. destruct (decide (n = attempt)) as [->|]; [done|]. apply Hn. lia.
    + intros [= <- <-]. rewrite Hw. split_and!; [lia..|done].
  - intros [= <- <-]. rewrite Hw. split_and!; [lia..|done].
Qed.

(** The loop returns what the first attempt meets that is not a busy pipe, within
    fifty attempts and forty-nine pauses; the unreachable end is not reached. *)
Theorem local_connect_returns world :
  let '(pauses, r) := local_connect world in
  (pauses <= 49)%nat /\ (forall n, (n < pauses)%nat -> world n = PipeBusy) /\
  match world pauses with
  | PipeOpened => r = Ok pauses
  | PipeBusy => pauses = 49%nat /\ r = Err "pipe busy"
  | PipeFails e => r = Err e
  end.
Proof.
  unfold local_connect. destruct (pipe_connect 50 0 world) as [pauses r] eqn:E.
  apply pipe_connect_spec in E as (Hb & Hn & Hr); [|lia..]. split_and!; [lia| |done]. intros n Hl. apply Hn. lia.
Qed.

(** ** The start of an MCP session *)

Section McpStart.
Context `{!Serde (RpcResult unit)}.

(** [relay_mcp] up to its loop: what it writes to the client, and whether it goes
    on. [link] is the connection and the request, [answer] what the Edge sends. *)
Definition relay_mcp_open (link : result string unit) (answer : bytes) : result string (bytes * bool) :=
  let opened :=
    link;;
    next ← read_frame answer;
    match next with
    | Some (f, _) => ensure (tag f == Result_) "unexpected edge frame tag during MCP startup";; Ok (payload f)
    | None => Err "edge closed during MCP startup"
    end in
  match opened with
  | Err e =>
      written ← write_frame Result_ (to_vec (RpcError (remote_internal e) : RpcResult unit));
      Ok (written, false)
  | Ok startup =>
      written ← write_frame Result_ startup;
      response ← of_option (from_slice (T := RpcResult unit) startup) "parse MCP startup";
      Ok (written, match response with RpcOk _ => true | RpcError _ => false end)
  end.

(** [mcp_run] up to its loop *)
Definition mcp_run_open (stream : bytes) : result string unit :=
  next ← read_frame stream;
  match next with
  | Some (f, _) => ensure (tag f == Result_) "unexpected daemon frame tag during MCP startup";; ensure_ok (payload f)
  | None => Err "daemon closed during MCP startup"
  end.

Context `{!SerdeLaws (RpcResult unit)}.

(** The command, the daemon and the Edge start a session together: the command
    goes on exactly when the daemon does, which is when the Edge said that the
    server is connected; otherwise the command ends with the Edge's error, or
    with the daemon's where the Edge was not reached. *)
Theorem mcp_session_starts_together link (startup : RpcResult unit) answer rest :
  write_frame Result_ (to_vec startup) = Ok answer ->
  (link = Ok tt -> exists written, relay_mcp_open link (answer ++ rest)%list = Ok (written, match startup with RpcOk _ => true | RpcError _ => false end) /\
     mcp_run_open written = rpc_value startup) /\
  (forall e written go, link = Err e -> relay_mcp_open link (answer ++ rest)%list = Ok (written, go) ->
     go = false /\ mcp_run_open written = Err ("internal: " ++ e)).
Proof.
  intros Hw. assert (Hlen : Z.of_nat (length (to_vec startup)) <= MAX_FRAME) by (by eapply write_frame_length).
  split.
  - intros ->. exists answer. unfold relay_mcp_open. cbn [mbind result_bind].
    unfold read_frame. rewrite (read_write MAX_FRAME {| tag := Result_; payload := to_vec startup |} answer rest Hw Hlen).
    cbn -[write_frame]. rewrite bool_decide_eq_true_2 by done. cbn -[write_frame]. rewrite Hw. cbn. rewrite from_slice_to_vec. split; [done|].
    unfold mcp_run_open. rewrite (read_frame_own _ _ _ Hw). cbn. rewrite bool_decide_eq_true_2 by done. cbn. unfold ensure_ok. by rewrite from_slice_to_vec.
  - intros e written go ->. unfold relay_mcp_open. cbn -[write_frame]. intros Ho.
    apply bind_Ok in Ho as (bs & Hb & [= <- <-]). split; [done|].
    unfold mcp_run_open. rewrite (read_frame_own _ _ _ Hb). cbn. rewrite bool_decide_eq_true_2 by done. cbn. unfold ensure_ok. by rewrite from_slice_to_vec.
Qed.
End McpStart.
