(* ===== verification/CommandLine.v ===== *)
(** * Command lines and service files

    What the programs parse from arguments and write for service managers:
    [parse_proxy_target], [socks_auth] and [one_edge] of
    src/crates/agent-scale/src/main.rs; the systemd unit and the launchd plist of
    src/crates/as-edge/src/service.rs, with their quoting. *)
From stdpp Require Import pretty.
From S2P Require Import Prelude Text Transport Proxy.
Open Scope string_scope.
Open Scope Z_scope.

(** ** agent-scale *)

Definition one_edge (edges : list string) : result string string :=
  match edges with
  | [edge] => Ok edge
  | _ => Err "this command requires exactly one -e/--edge"
  end.

(** [host] without the brackets of an IPv6 address *)
Definition unbracket (host : string) : string :=
  match host with
  | String "[" rest => default host (strip_last "]" rest)
  | _ => host
  end.

Definition parse_proxy_target (value : string) : result string ProxyTarget :=
  '(host, port) ← of_option (rsplit_once ":" value) "target must be HOST:PORT";
  let host := unbracket host in
  ensure (host != "") "target host cannot be empty";;
  port ← of_option (parse_uint u16_max port) "target port must be between 1 and 65535";
  ensure (port != 0) "target port must be between 1 and 65535";;
  Ok {| host := host; port := port |}.

(** [password.ends_with(c)] and [pop()] *)
Definition pop_if (c : ascii) (s : string) : string * bool :=
  match strip_last c s with Some s' => (s', true) | None => (s, false) end.

(** The content of a password file without its line end *)
Definition password_line (content : string) : string :=
  let '(password, newline) := pop_if "010" content in
  if newline then (pop_if "013" password).1 else password.

(** [file] is the path's content, where one is given. *)
Definition socks_auth (username password : option string) (file : option (result string string))
  : result string (option SocksAuth) :=
  password ← match password, file with
             | Some password, None => Ok (Some password)
             | None, Some file => content ← file; Ok (Some (password_line content))
             | None, None => Ok None
             | Some _, Some _ => Err "clap rejects conflicting password sources"
             end;
  match username, password with
  | None, None => Ok None
  | Some username, Some password =>
      ensure (username != "") "SOCKS5 username cannot be empty";;
      ensure (password != "") "SOCKS5 password cannot be empty";;
      ensure (Str.len username <=? u8_max) "SOCKS5 username exceeds 255 bytes";;
      ensure (Str.len password <=? u8_max) "SOCKS5 password exceeds 255 bytes";;
      Ok (Some {| sx_username := username; sx_password := password |})
  | Some _, None => Err "--username requires --password or --password-file"
  | None, Some _ => Err "clap requires a username for either password source"
  end.

(** ** as-edge: service files *)

Definition newline : string := String "010" EmptyString.
Definition dquote : string := String "034" EmptyString.

Definition unit_name (who : string) : string := "agent-scale-edge-" ++ who ++ ".service".

Definition systemd_quote (value : string) : string :=
  dquote ++ replace "034" (String "092" dquote) (replace "092" (String "092" (String "092" "")) value) ++ dquote.

(** The value of [ExecStart] *)
Definition exec_start (installed who : string) : string :=
  systemd_quote installed ++ " run " ++ systemd_quote who.

Definition xml_text (value : string) : string :=
  replace "'" "&apos;" (replace "034" "&quot;" (replace ">" "&gt;" (replace "<" "&lt;" (replace "&" "&amp;" value)))).

Definition hex_char (n : N) : ascii := ascii_of_N (if (n <? 10)%N then 48 + n else 87 + n).

Fixpoint hex_bytes (s : string) : string :=
  match s with
  | EmptyString => EmptyString
  | String c s =>
      String (hex_char (N_of_ascii c / 16)) (String (hex_char (N_of_ascii c mod 16)) (hex_bytes s))
  end.

Definition launch_agent_label (who : string) : string := "io.github.ceclin.agent-scale.edge." ++ hex_bytes who.

(** ** Parsing targets *)

Lemma unbracket_brackets host : unbracket ("[" ++ host ++ "]") = host.
Proof. change ("[" ++ host ++ "]") with (String "[" (host +:+ "]")). unfold unbracket. by rewrite strip_last_app. Qed.

Lemma split_target host n : rsplit_once ":" (host ++ ":" ++ uint_to_string n) = Some (host, uint_to_string n).
Proof.
  change (host ++ ":" ++ uint_to_string n) with (host +:+ String ":" (uint_to_string n)). apply rsplit_once_app.
  intros a [d Ha]%uint_to_string_digits ->. done.
Qed.

(** A target is read back from how it is written, with or without the brackets of
    an IPv6 address, and what is accepted names a host and a port that a
    connection can use. *)
Theorem proxy_target_roundtrip target :
  host target <> "" -> 1 <= port target <= u16_max ->
  parse_proxy_target ("[" ++ host target ++ "]" ++ ":" ++ uint_to_string (port target)) = Ok target /\
  (unbracket (host target) = host target ->
   parse_proxy_target (host target ++ ":" ++ uint_to_string (port target)) = Ok target) /\
  forall value parsed, parse_proxy_target value = Ok parsed -> host parsed <> "" /\ 1 <= port parsed <= u16_max.
Proof.
  intros Hh Hp.
  assert (Hparse : forall h, unbracket h = host target ->
    parse_proxy_target (h ++ ":" ++ uint_to_string (port target)) = Ok target).
  { intros h Hu. unfold parse_proxy_target. rewrite split_target. cbn [of_option mbind result_bind]. rewrite Hu.
    rewrite bool_decide_eq_false_2 by done. cbn [negb ensure mbind result_bind].
    rewrite parse_uint_to_string by lia. cbn. rewrite bool_decide_eq_false_2 by lia. by destruct target. }
  split_and!.
  - rewrite <- (Hparse ("[" ++ host target ++ "]")); [|apply unbracket_brackets]. f_equal.
    by rewrite !append_assoc.
  - apply Hparse.
  - intros value parsed Hv. unfold parse_proxy_target in Hv. apply bind_Ok in Hv as ([h p] & _ & Hv). run_ok. cbn.
    match goal with E : parse_uint _ _ = Some _ |- _ => apply parse_uint_bounds in E; [|done] end. split; [done|lia].
Qed.

(** ** Passwords *)

Lemma pop_if_app c s : pop_if c (s +:+ String c "") = (s, true).
Proof. unfold pop_if. by rewrite strip_last_app. Qed.

Lemma pop_if_not c s : (forall t, s <> t +:+ String c "") -> pop_if c s = (s, false).
Proof.
  intros Hs. unfold pop_if. destruct (strip_last c s) as [t|] eqn:E; [|done].
  apply strip_last_Some in E. by destruct (Hs t).
Qed.

(** The password in a file is its content up to a line end of either kind, and
    the credentials that are accepted fit the one-byte lengths of SOCKS5. *)
Theorem socks_auth_usable password :
  (forall t, password <> t +:+ String "010" "") -> (forall t, password <> t +:+ String "013" "") ->
  password_line password = password /\ password_line (password +:+ String "010" "") = password /\
  password_line ((password +:+ String "013" "") +:+ String "010" "") = password /\
  forall username given file auth, socks_auth username given file = Ok (Some auth) ->
    1 <= Str.len (sx_username auth) <= u8_max /\ 1 <= Str.len (sx_password auth) <= u8_max /\
    username = Some (sx_username auth) /\
    (given = Some (sx_password auth) \/ exists content, file = Some (Ok content) /\ sx_password auth = password_line content).
Proof.
  intros Hn Hr. unfold password_line. rewrite !pop_if_app, (pop_if_not _ _ Hn), (pop_if_not _ _ Hr). split_and!; try done.
  intros username given file auth Ha. unfold socks_auth in Ha. apply bind_Ok in Ha as (p & Hp & Ha).
  destruct username as [u|], p as [p|]; try done. run_ok. cbn.
  assert (Hpos : forall s, s <> "" -> 1 <= Str.len s) by (intros [|c s] Hs; [done|]; unfold Str.len; cbn; lia).
  split_and!; try done; try by apply Hpos.
  destruct given as [g|], file as [f|]; try done; [injection Hp as ->; by left|right].
  apply bind_Ok in Hp as (content & -> & [= <-]). by exists content.
Qed.

(** ** Quoting *)

(** systemd's reading of a quoted word: the value and the rest of the line *)
Fixpoint unquote (s : string) : option (string * string) :=
  match s with
  | EmptyString => None
  | String "034" rest => Some ("", rest)
  | String "092" (String c rest) => (fun '(value, rest) => (String c value, rest)) <$> unquote rest
  | String c rest => (fun '(value, rest) => (String c value, rest)) <$> unquote rest
  end.

Lemma replace_app c by_ a b : replace c by_ (a +:+ b) = replace c by_ a +:+ replace c by_ b.
Proof.
  induction a as [|x a IH]; [done|]. rewrite Str.append_cons. cbn [replace]. rewrite IH. by rewrite append_assoc.
Qed.

Definition systemd_escape (c : ascii) : string :=
  if c == "092"%char then String "092" (String "092" "") else if c == "034"%char then String "092" dquote else String c "".

(** A quoted word is read back. *)
Lemma unquote_quote s rest : unquote (
    (replace "034" (String "092" dquote) (replace "092" (String "092" (String "092" "")) s) +:+ dquote) +:+ rest) = Some (s, rest).
Proof.
  induction s as [|c s IH]; [done|]. cbn [replace]. rewrite replace_app.
  rewrite <- !append_assoc in *.
  assert (Hc : replace "034" (String "092" dquote)
      (if bool_decide (c = "092"%char) then String "092" (String "092" "") else String c "") = systemd_escape c).
  { unfold systemd_escape. case_bool_decide; [done|]. cbn [replace]. by case_bool_decide. }
  rewrite Hc. unfold systemd_escape. case_bool_decide as E1; [subst c|case_bool_decide as E2; [subst c|]].
  - rewrite !Str.append_cons. change ("" +:+ ?x) with x. cbn [unquote]. by rewrite IH.
  - unfold dquote at 1. rewrite !Str.append_cons. change ("" +:+ ?x) with x. cbn [unquote]. by rewrite IH.
  - rewrite Str.append_cons. change ("" +:+ ?x) with x.
    destruct c as [[] [] [] [] [] [] [] []]; try done; cbn [unquote]; by rewrite IH.
Qed.

(** The entity for a character, as XML has it *)
Definition xml_escape (c : ascii) : string :=
  match c with
  | "&"%char => "&amp;" | "<"%char => "&lt;" | ">"%char => "&gt;" | "034"%char => "&quot;" | "'"%char => "&apos;"
  | _ => String c ""
  end.

Lemma xml_text_cons c s : xml_text (String c s) = xml_escape c +:+ xml_text s.
Proof.
  unfold xml_text. cbn [replace]. rewrite !replace_app. f_equal.
  destruct c as [[] [] [] [] [] [] [] []]; vm_compute; reflexivity.
Qed.

(** Reading XML text back *)
Fixpoint xml_read (s : string) : string :=
  match s with
  | String "&" (String "a" (String "m" (String "p" (String ";" rest)))) => String "&" (xml_read rest)
  | String "&" (String "l" (String "t" (String ";" rest))) => String "<" (xml_read rest)
  | String "&" (String "g" (String "t" (String ";" rest))) => String ">" (xml_read rest)
  | String "&" (String "q" (String "u" (String "o" (String "t" (String ";" rest))))) => String "034" (xml_read rest)
  | String "&" (String "a" (String "p" (String "o" (String "s" (String ";" rest))))) => String "'" (xml_read rest)
  | String c rest => String c (xml_read rest)
  | EmptyString => EmptyString
  end.

Lemma xml_read_escape c s : xml_read (xml_escape c +:+ s) = String c (xml_read s).
Proof. destruct c as [[] [] [] [] [] [] [] []]; reflexivity. Qed.

Lemma hex_char_inj a b : (a < 16)%N -> (b < 16)%N -> hex_char a = hex_char b -> a = b.
Proof.
  intros Ha Hb E. unfold hex_char in E. apply (f_equal N_of_ascii) in E.
  destruct (N.ltb_spec a 10), (N.ltb_spec b 10); rewrite !N_ascii_embedding in E by lia; lia.
Qed.

Lemma hex_bytes_inj a b : hex_bytes a = hex_bytes b -> a = b.
Proof.
  revert b. induction a as [|x a IH]; intros [|y b]; cbn; try done. intros [= E1 E2 E3]. f_equal; [|by apply IH].
  pose proof (N_ascii_bounded x). pose proof (N_ascii_bounded y).
  assert (Hd : forall n, (n < 256 -> n / 16 < 16 /\ n mod 16 < 16)%N)
    by (intros n Hn; split; [apply N.Div0.div_lt_upper_bound; lia|by apply N.mod_lt]).
  destruct (Hd (N_of_ascii x)), (Hd (N_of_ascii y)); [done..|].
  apply hex_char_inj in E1; [|done..]. apply hex_char_inj in E2; [|done..].
  rewrite <- (ascii_N_embedding x), <- (ascii_N_embedding y). f_equal.
  rewrite (N.div_mod (N_of_ascii x) 16), (N.div_mod (N_of_ascii y) 16) by done. congruence.
Qed.

(** Service files say what they are meant to, whatever characters a path or a
    name has: systemd splits [ExecStart] into the program, "run" and the name, to
    which it then applies its own % specifiers;
    launchd reads every text of the plist back as it was and finds no markup in
    it; and different Edges have different labels. *)
Theorem service_files_are_exact installed who :
  (exists line, exec_start installed who = dquote +:+ line /\
    exists line', unquote line = Some (installed, " run " +:+ (dquote +:+ line')) /\ unquote line' = Some (who, "")) /\
  (forall text, xml_read (xml_text text) = text /\
     forall c, c ∈ Str.chars (xml_text text) -> c <> "<"%char /\ c <> ">"%char /\ c <> "034"%char /\ c <> "'"%char) /\
  (forall other, launch_agent_label who = launch_agent_label other -> who = other).
Proof.
  split_and!.
  - unfold exec_start, systemd_quote. eexists. rewrite <- append_assoc. split; [reflexivity|].
    eexists. rewrite unquote_quote. split; [reflexivity|].
    rewrite <- (unquote_quote who ""). f_equal. induction (_ +:+ dquote) as [|c s IH]; [done|].
    rewrite Str.append_cons. by rewrite <- IH.
  - intros text. induction text as [|c text [IH1 IH2]]; [split; [done|]; intros c Hc; by apply not_elem_of_nil in Hc|].
    rewrite xml_text_cons, xml_read_escape, IH1. split; [done|]. intros x Hx.
    assert (Hx' : x ∈ Str.chars (xml_escape c) \/ x ∈ Str.chars (xml_text text)).
    { revert Hx. clear. induction (xml_escape c) as [|y s IH]; [by right|]. rewrite Str.append_cons. cbn.
      intros [->|Hx]%elem_of_cons; [left; left|]. destruct (IH Hx); [left; by right|by right]. }
    destruct Hx' as [Hx'|Hx']; [|by apply IH2].
    destruct c as [[] [] [] [] [] [] [] []]; vm_compute in Hx';
      repeat (apply elem_of_cons in Hx' as [->|Hx']; [done|]); by apply not_elem_of_nil in Hx'.
  - intros other E. unfold launch_agent_label in E. apply hex_bytes_inj.
    apply (f_equal (Str.strip_prefix "io.github.ceclin.agent-scale.edge.")) in E. rewrite !Str.strip_prefix_app in E.
    by injection E.
Qed.
