(* ===== verification/Transfer.v ===== *)
(** * Uploads and downloads

    The daemon and the Edge exchange the hash of a staged file on a request
    stream (crates/agent-scale/src/daemon.rs, [do_download], [do_upload];
    crates/as-edge/src/iroh_edge.rs, [serve_request] and [recv_upload]) and the
    receiving side fetches the content with iroh-blobs into a temporary file that
    replaces the destination (crates/transport/src/lib.rs, [fetch_to_file]). *)
From S2P Require Import Prelude Deps Files Transport Protocol RelayTable ClientConfig ConnectionPool McpRegistry Requests.
Open Scope string_scope.
Open Scope Z_scope.

(** What [get_blob] yields: parts of the content, inner nodes of the hash tree,
    the end, or an error. *)
Inductive BlobItem :=
| Leaf (data : bytes)
| Parent
| BlobDone
| BlobError (error : string).

(** iroh-blobs: the hash of a content and its printed form *)
Class Blobs := {
  Hash : Type;
  #[global] hash_eq :: EqDecision Hash;
  blob_hash : bytes -> Hash;
  hash_to_string : Hash -> string;
  hash_parse : string -> option Hash;
}.
Class BlobsLaws `{Blobs} : Prop := {
  hash_parse_to_string : forall h, hash_parse (hash_to_string h) = Some h;
}.

Section Transfer.
Context `{Keys, !RelayUrls, Blobs, Serde (RpcResult TransferResult)}.
Notation command A := (handler (Fs string) string A).
Implicit Types (fs : Fs string).

(** ** Fetching *)

(** The loop of [fetch_to_file]: what is written to the temporary file *)
Fixpoint collect_leaves (items : list BlobItem) (data : bytes) : result string bytes :=
  match items with
  | [] => Err "blob stream ended before verification completed"
  | Leaf leaf :: items => collect_leaves items (data ++ leaf)
  | Parent :: items => collect_leaves items data
  | BlobDone :: _ => Ok data
  | BlobError e :: _ => Err "get_blob"
  end.

(** [fetch_to_file] and [install_download]: the destination is replaced by the
    complete temporary file. [stream] is what the connection gives. *)
Definition fetch_to_file (stream : result string (list BlobItem)) (outcome : WriteOutcome) (dest : string) : command Z :=
  items ← lift stream;
  data ← lift (collect_leaves items []);
  atomic_write outcome dest data;;
  mret (Z.of_nat (length data)).

(** ** The Edge *)

(** [serve_request], PrepareDownload *)
Definition prepare_download (path : string) fs : RpcResult TransferResult :=
  match fs !! path with
  | Some content => RpcOk (DownloadReady (hash_to_string (blob_hash content)))
  | None => RpcError (remote_internal ("stage " ++ path ++ ": not found"))
  end.

(** [recv_upload]; [serve id hash] is the stream of a blob from a peer *)
Definition recv_upload (serve : EndpointId -> Hash -> result string (list BlobItem)) (outcome : WriteOutcome)
  (hash client_id client_relay path : string) : command Z :=
  id ← lift (of_option (id_parse client_id) "bad client_id");
  lift (relay_url_parse client_relay);;
  hash ← lift (of_option (hash_parse hash) "bad hash");
  fetch_to_file (serve id hash) outcome path.

(** [serve_request], ReceiveUpload, on a connection of [authenticated_client] *)
Definition receive_upload (authenticated_client : EndpointId) serve outcome
  (hash client_id client_relay path : string) : command (RpcResult TransferResult) := fun fs =>
  match ensure (client_id == id_to_string authenticated_client)
          "upload client_id does not match authenticated connection" with
  | Err e => (fs, Err e)
  | Ok _ =>
      let '(fs, r) := recv_upload serve outcome hash client_id client_relay path fs in
      (fs, Ok match r with
              | Ok bytes => RpcOk (Stored bytes)
              | Err e => RpcError (remote_internal e)
              end)
  end.

(** The Edge's answer stream; it is closed when the request fails. *)
Definition answer_stream (r : result string (RpcResult TransferResult)) : bytes :=
  match (response ← r; write_frame Result_ (to_vec response)) with Ok bs => bs | Err _ => [] end.

(** ** The daemon *)

Definition read_ctrl (stream : bytes) : result string (RpcResult TransferResult) :=
  next ← read_frame stream;
  match next with
  | None => Err "no result frame from edge"
  | Some (f, _) =>
      ensure (tag f == Result_) "expected RESULT";;
      of_option (from_slice (payload f)) "parse result"
  end.

Definition rpc_failure {A} (error : RemoteError) : result string A :=
  Err ("edge " ++ re_code error ++ ": " ++ re_message error).

(** [do_download]: [answer] is the Edge's stream, [serve] the Edge's blobs *)
Definition do_download (edge : EdgeCfg) (link : result string unit) (answer : bytes)
  (serve : EndpointId -> Hash -> result string (list BlobItem)) (outcome : WriteOutcome) (local : string) : command Z :=
  lift link;;
  response ← lift (read_ctrl answer);
  hash ← lift (match response with
               | RpcOk (DownloadReady hash) => Ok hash
               | RpcOk (Stored _) => Err "edge returned an upload result for download"
               | RpcError error => rpc_failure error
               end : result string string);
  hash ← lift (of_option (hash_parse hash) "bad hash");
  '(id, _) ← lift (edge_addr edge);
  fetch_to_file (serve id hash) outcome local.

(** [do_upload]: the request, and the result that the Edge's stream gives *)
Definition upload_request (client_id : EndpointId) (edge : EdgeCfg) (local remote : string) fs : result string EdgeReq :=
  content ← of_option (fs !! local) "no such file";
  Ok (ReceiveUpload (hash_to_string (blob_hash content)) (id_to_string client_id)
        (default "" (head (ec_relays edge))) remote).
Definition upload_result (answer : bytes) : result string Z :=
  response ← read_ctrl answer;
  match response with
  | RpcOk (Stored bytes) => Ok bytes
  | RpcOk (DownloadReady _) => Err "edge returned a download result for upload"
  | RpcError error => rpc_failure error
  end.

Definition into_resp (r : result string Z) : RpcResult TransferResult :=
  match r with
  | Ok bytes => RpcOk (Stored bytes)
  | Err e => RpcError (remote_internal e)
  end.

(** ** The command line *)

(** [transfer]: the number of bytes it reports *)
Definition transfer (stream : bytes) : result string Z :=
  next ← read_frame stream;
  match next with
  | None => Err "daemon closed without a result"
  | Some (f, _) =>
      ensure (tag f == Result_) "unexpected daemon frame tag";;
      response ← of_option (from_slice (T := RpcResult TransferResult) (payload f)) "parse result";
      match response with
      | RpcOk (Stored bytes) => Ok bytes
      | RpcOk (DownloadReady _) => Err "daemon returned an intermediate download result"
      | RpcError error => Err (re_code error ++ ": " ++ re_message error)
      end
  end.

(** ** Whole transfers *)

(** A download: the Edge's files stay, the Client's may change. *)
Definition download (edge : EdgeCfg) (edge_files : Fs string) serve outcome (remote local : string) : command Z := fun fs =>
  let answer := answer_stream (Ok (prepare_download remote edge_files)) in
  let '(fs, r) := do_download edge (Ok tt) answer serve outcome local fs in
  (fs, transfer (answer_stream (Ok (into_resp r)))).

(** An upload of [client]'s file: its files stay, the Edge's may change. *)
Definition upload (client_id : EndpointId) (edge : EdgeCfg) (client_files : Fs string) serve outcome
  (local remote : string) : command Z := fun fs =>
  match upload_request client_id edge local remote client_files with
  | Ok (ReceiveUpload hash id relay path) =>
      let '(fs, r) := receive_upload client_id serve outcome hash id relay path fs in
      (fs, transfer (answer_stream (Ok (into_resp (upload_result (answer_stream r))))))
  | Ok _ => (fs, Err "unreachable")
  | Err e => (fs, transfer (answer_stream (Ok (into_resp (Err e)))))
  end.

(** ** What iroh-blobs promises *)

(** A stream that ends with [BlobDone] carried content with the requested hash. *)
Definition verified (serve : EndpointId -> Hash -> result string (list BlobItem)) : Prop :=
  forall id h items data, serve id h = Ok items -> collect_leaves items [] = Ok data -> blob_hash data = h.

(** ** Facts *)

(** The destination gets verified content as a whole, or stays. *)
Definition replaced (fs fs' : Fs string) (dest : string) (h : Hash) (r : result string Z) : Prop :=
  (exists data, fs' = <[dest := data]> fs /\ blob_hash data = h /\ forall n, r = Ok n -> n = Z.of_nat (length data)) \/
  (fs' = fs /\ exists e, r = Err e).

Lemma fetch_replaces stream outcome dest h fs fs' r :
  (forall items data, stream = Ok items -> collect_leaves items [] = Ok data -> blob_hash data = h) ->
  fetch_to_file stream outcome dest fs = (fs', r) -> replaced fs fs' dest h r.
Proof.
  intros Hv. unfold fetch_to_file, mbind, handler_bind, lift. destruct stream as [items|e]; [|intros [= <- <-]; right; eauto].
  destruct (collect_leaves items []) as [data|e] eqn:Hc; [|intros [= <- <-]; right; eauto].
  specialize (Hv items data eq_refl Hc). unfold atomic_write. destruct outcome; cbn.
  - intros [= <- <-]. right. eauto.
  - intros [= <- <-]. left. by exists data.
  - intros [= <- <-]. left. exists data. split_and!; [done..|]. by intros n [= <-].
Qed.

Lemma collect_leaves_fetch items data outcome dest stream fs :
  stream = Ok items -> collect_leaves items [] = Ok data -> outcome = Written ->
  fetch_to_file stream outcome dest fs = (<[dest := data]> fs, Ok (Z.of_nat (length data))).
Proof. intros -> Hc ->. unfold fetch_to_file, mbind, handler_bind, lift. by rewrite Hc. Qed.

Context `{!SerdeLaws (RpcResult TransferResult)}.

(** A result frame is read back, or nothing is. *)
Lemma read_ctrl_answer r response :
  read_ctrl (answer_stream r) = Ok response -> r = Ok response.
Proof.
  unfold answer_stream. destruct r as [x|e]; [|done]. cbn [mbind result_bind].
  destruct (write_frame Result_ (to_vec x)) as [bs|e] eqn:Hw; [|done]. unfold read_ctrl.
  rewrite (read_frame_own _ _ _ Hw). cbn. rewrite bool_decide_eq_true_2 by done. cbn. rewrite from_slice_to_vec. cbn. congruence.
Qed.

Lemma read_ctrl_sized response :
  sized MAX_FRAME (to_vec response) -> read_ctrl (answer_stream (Ok response)) = Ok response.
Proof.
  intros Hs. unfold answer_stream. cbn [mbind result_bind].
  destruct (write_sized Result_ (to_vec response) MAX_FRAME Hs) as [bs Hw]; [done|]. rewrite Hw. unfold read_ctrl.
  rewrite (read_frame_own _ _ _ Hw). cbn. rewrite bool_decide_eq_true_2 by done. cbn. by rewrite from_slice_to_vec.
Qed.

Lemma transfer_answer r n : transfer (answer_stream (Ok (into_resp r))) = Ok n -> r = Ok n.
Proof.
  unfold answer_stream. cbn [mbind result_bind].
  destruct (write_frame Result_ (to_vec (into_resp r))) as [bs|e] eqn:Hw; [|done]. unfold transfer.
  rewrite (read_frame_own _ _ _ Hw). cbn. rewrite bool_decide_eq_true_2 by done. cbn. rewrite from_slice_to_vec. cbn.
  destruct r; cbn; congruence.
Qed.

Lemma transfer_sized r n :
  r = Ok n -> sized MAX_FRAME (to_vec (RpcOk (Stored n))) -> transfer (answer_stream (Ok (into_resp r))) = Ok n.
Proof.
  intros -> Hs. unfold answer_stream. cbn [mbind result_bind into_resp].
  destruct (write_sized Result_ _ MAX_FRAME Hs) as [bs Hw]; [done|]. rewrite Hw. unfold transfer.
  rewrite (read_frame_own _ _ _ Hw). cbn. rewrite bool_decide_eq_true_2 by done. cbn. by rewrite from_slice_to_vec.
Qed.

(** Passing a result on to the command line loses at most the result. *)
Lemma replaced_transfer fs fs' dest h r :
  replaced fs fs' dest h r -> replaced fs fs' dest h (transfer (answer_stream (Ok (into_resp r)))).
Proof.
  intros Hr. destruct (transfer _) as [n|e] eqn:Ht.
  - apply transfer_answer in Ht as ->. done.
  - destruct Hr as [(data & -> & Hh & _)|(-> & _)]; [left; by exists data|right; eauto].
Qed.

Context `{!BlobsLaws}.

Lemma do_download_replaces edge edge_files serve outcome remote local fs fs' r :
  verified serve ->
  do_download edge (Ok tt) (answer_stream (Ok (prepare_download remote edge_files))) serve outcome local fs = (fs', r) ->
  (exists content, edge_files !! remote = Some content /\ replaced fs fs' local (blob_hash content) r) \/
  (fs' = fs /\ exists e, r = Err e).
Proof.
  intros Hv. unfold do_download, mbind, handler_bind, lift.
  destruct (read_ctrl (answer_stream _)) as [response|e] eqn:Hc; [|intros [= <- <-]; right; eauto].
  apply read_ctrl_answer in Hc as [= <-]. unfold prepare_download.
  destruct (edge_files !! remote) as [content|] eqn:Hf; [|intros [= <- <-]; right; eauto].
  cbn. rewrite hash_parse_to_string. cbn. destruct (edge_addr edge) as [[id urls]|e]; cbn; [|intros [= <- <-]; right; eauto].
  intros Hd. left. exists content. split; [done|]. eapply fetch_replaces; [|exact Hd]. intros items data Hs. by eapply Hv.
Qed.

Lemma upload_request_inv client_id edge local remote files req :
  upload_request client_id edge local remote files = Ok req ->
  exists content, files !! local = Some content /\
    req = ReceiveUpload (hash_to_string (blob_hash content)) (id_to_string client_id) (default "" (head (ec_relays edge))) remote.
Proof.
  unfold upload_request. destruct (files !! local) as [content|]; cbn; [|done]. intros [= <-]. eauto.
Qed.

Lemma receive_upload_replaces client serve outcome content id relay path fs fs' r :
  verified serve -> receive_upload client serve outcome (hash_to_string (blob_hash content)) id relay path fs = (fs', r) ->
  exists r0, replaced fs fs' path (blob_hash content) r0 /\ (forall n, r = Ok (RpcOk (Stored n)) -> r0 = Ok n).
Proof.
  intros Hv. unfold receive_upload. destruct (ensure _ _) as [[]|e] eqn:He.
  2: { intros [= <- <-]. exists (Err e). split; [right; eauto|done]. }
  destruct (recv_upload _ _ _ _ _ _ fs) as [fs1 r1] eqn:Hr. intros [= <- <-]. exists r1. split; [|destruct r1; naive_solver].
  unfold recv_upload, mbind, handler_bind, lift in Hr.
  destruct (id_parse id) as [cid|]; cbn in Hr; [|injection Hr as <- <-; right; eauto].
  destruct (relay_url_parse relay) as [url|e]; cbn in Hr; [|injection Hr as <- <-; right; eauto].
  rewrite hash_parse_to_string in Hr. cbn in Hr. eapply fetch_replaces; [|exact Hr]. intros items data Hs. by eapply Hv.
Qed.

Lemma upload_result_Ok r n : upload_result (answer_stream r) = Ok n -> r = Ok (RpcOk (Stored n)).
Proof.
  unfold upload_result. intros Hu. apply bind_Ok in Hu as (response & ->%read_ctrl_answer & Hu).
  destruct response as [[h|b]|e]; [done| |done]. by injection Hu as ->.
Qed.


Lemma edge_addr_relay edge id urls :
  edge_addr edge = Ok (id, urls) -> exists url, relay_url_parse (default "" (head (ec_relays edge))) = Ok url.
Proof.
  unfold edge_addr. intros Ha. apply bind_Ok in Ha as (i & _ & Ha). apply bind_Ok in Ha as (? & Hne & Ha).
  apply bind_Ok in Ha as (us & Hc & _). destruct (ec_relays edge) as [|r rs]; [by apply ensure_Ok in Hne|].
  cbn in Hc |- *. apply bind_Ok in Hc as (u & Hu & _). eauto.
Qed.

(** A transfer whose content arrives succeeds: when the file exists, the
    peer's blob stream completes and the result frames fit, the download or the
    upload reports the size and the destination holds what was streamed. *)
Theorem complete_transfers_succeed `{!KeysLaws} client_id edge id urls client_files edge_files serve source dest items data :
  edge_addr edge = Ok (id, urls) -> collect_leaves items [] = Ok data ->
  sized MAX_FRAME (to_vec (RpcOk (Stored (Z.of_nat (length data))))) ->
  (forall content, edge_files !! source = Some content -> serve id (blob_hash content) = Ok items ->
     sized MAX_FRAME (to_vec (RpcOk (DownloadReady (hash_to_string (blob_hash content))))) ->
     download edge edge_files serve Written source dest client_files =
       (<[dest := data]> client_files, Ok (Z.of_nat (length data)))) /\
  (forall content, client_files !! source = Some content -> serve client_id (blob_hash content) = Ok items ->
     upload client_id edge client_files serve Written source dest edge_files =
       (<[dest := data]> edge_files, Ok (Z.of_nat (length data)))).
Proof.
  intros Ha Hc Hs. split.
  - intros content Hf Hserve Hready. unfold download, do_download, mbind, handler_bind, lift. unfold prepare_download.
    rewrite Hf, read_ctrl_sized by done. cbn. rewrite hash_parse_to_string. cbn. rewrite Ha. cbn.
    rewrite (collect_leaves_fetch items data Written dest (serve id (blob_hash content)) client_files Hserve Hc eq_refl).
    by rewrite (transfer_sized _ (Z.of_nat (length data))).
  - intros content Hf Hserve. unfold upload, upload_request. rewrite Hf. cbn.
    unfold receive_upload, ensure. rewrite bool_decide_eq_true_2 by done.
    unfold recv_upload, mbind, handler_bind, lift. rewrite id_parse_to_string. cbn.
    destruct (edge_addr_relay edge id urls Ha) as [url ->]. cbn. rewrite hash_parse_to_string. cbn.
    rewrite (collect_leaves_fetch items data Written dest (serve client_id (blob_hash content)) edge_files Hserve Hc eq_refl).
    rewrite (transfer_sized _ (Z.of_nat (length data))); [done| |done].
    unfold upload_result. by rewrite read_ctrl_sized.
Qed.
End Transfer.
