(* ===== verification/McpSync.v ===== *)
(** * agent-scale: projecting MCP servers into client configuration (src/crates/agent-scale/src/mcp_sync.rs)

    [reconcile] decides which entries of a client's configuration to write and
    to remove, given the desired servers, the entries it wrote before (with their
    fingerprints) and the entries there now; [prepare_claude] and [prepare_codex]
    apply its decisions to a JSON and to a TOML document. Entries it does not own
    are never touched and modified ones are never overwritten. *)
From S2P Require Import Prelude Deps Transport Protocol.
Open Scope string_scope.
Open Scope Z_scope.

Inductive ClientKind := Claude | Codex.
#[global] Instance ClientKind_eq : EqDecision ClientKind.
Proof. solve_decision. Defined.

(** [ClientKind::key] *)
Definition client_key (kind : ClientKind) : string :=
  match kind with Claude => "claude" | Codex => "codex" end.

Record Manifest := {
  mf_version : Z;
  mf_clients : gmap string (gmap string string);
}.

Inductive ReconcileAction :=
| Put (alias edge server : string)
| Remove (alias : string).

(** ** [reconcile] *)

(** The first loop: entries that are owned but no longer desired. *)
Fixpoint reconcile_removals (desired : gmap string (string * string)) (current : gmap string string)
  (client : string) (items : list (string * string)) (owned : gmap string string)
  : result string (list ReconcileAction * gmap string string) :=
  match items with
  | [] => Ok ([], owned)
  | (alias, previous_hash) :: items =>
      if bool_decide (is_Some (desired !! alias))
      then reconcile_removals desired current client items owned
      else
        match current !! alias with
        | Some current_hash =>
            ensure (current_hash == previous_hash)
              (client ++ " MCP entry was modified; refusing to remove it");;
            '(actions, owned) ← reconcile_removals desired current client items (delete alias owned);
            Ok (Remove alias :: actions, owned)
        | None => reconcile_removals desired current client items (delete alias owned)
        end
  end.

(** The second loop: the desired entries. *)
Fixpoint reconcile_puts (current : gmap string string) (desired_hash : string -> string -> string)
  (client : string) (items : list (string * (string * string))) (owned : gmap string string)
  : result string (list ReconcileAction * gmap string string) :=
  match items with
  | [] => Ok ([], owned)
  | (alias, (edge, server)) :: items =>
      let next_hash := desired_hash edge server in
      match owned !! alias, current !! alias with
      | None, Some _ =>
          Err (client ++ " MCP entry already exists and is not managed by agent-scale")
      | Some previous_hash, Some current_hash =>
          if current_hash == previous_hash then
            if previous_hash == next_hash
            then reconcile_puts current desired_hash client items owned
            else
              '(actions, owned) ← reconcile_puts current desired_hash client items
                                    (<[alias := next_hash]> owned);
              Ok (Put alias edge server :: actions, owned)
          else Err (client ++ " MCP entry was modified; refusing to overwrite it")
      | _, None =>
          '(actions, owned) ← reconcile_puts current desired_hash client items
                                (<[alias := next_hash]> owned);
          Ok (Put alias edge server :: actions, owned)
      end
  end.

Definition reconcile (desired : gmap string (string * string)) (owned current : gmap string string)
  (desired_hash : string -> string -> string) (client : string)
  : result string (list ReconcileAction * gmap string string) :=
  '(removals, owned) ← reconcile_removals desired current client (btree_iter owned) owned;
  '(puts, owned) ← reconcile_puts current desired_hash client (btree_iter desired) owned;
  Ok (removals ++ puts, owned)%list.

(** The loop over the actions in both adapters. *)
Definition apply_action {V} (proxy : string -> string -> V) (servers : gmap string V)
  (action : ReconcileAction) : gmap string V :=
  match action with
  | Put alias edge server => <[alias := proxy edge server]> servers
  | Remove alias => delete alias servers
  end.

Definition apply_actions {V} (proxy : string -> string -> V) (actions : list ReconcileAction)
  (servers : gmap string V) : gmap string V :=
  fold_left (apply_action proxy) actions servers.

(** ** What [reconcile] does *)

Section Reconcile.
Context {V : Type} (proxy : string -> string -> V) (fingerprint : V -> string) (client : string).
Implicit Types (desired : gmap string (string * string)) (owned current : gmap string string)
  (servers : gmap string V).
Notation hash := (fun edge server => fingerprint (proxy edge server)).

(** Something in the way: an owned entry was edited by hand, or a desired name
    is taken by an entry that is not owned. *)
Definition conflict desired owned current : Prop :=
  (exists alias previous now, owned !! alias = Some previous /\ current !! alias = Some now /\
     now <> previous) \/
  (exists alias target now, desired !! alias = Some target /\ owned !! alias = None /\
     current !! alias = Some now).

(** What the entry of one alias must become. *)
Definition projected desired owned servers alias (entry : option V) : Prop :=
  match desired !! alias with
  | Some (edge, server) => exists v, entry = Some v /\ fingerprint v = fingerprint (proxy edge server)
  | None => entry = match owned !! alias with Some _ => None | None => servers !! alias end
  end.

(** *** Both loops in closed form *)

Definition stale desired (items : list (string * string)) : list string :=
  Vec.retain (fun a => desired !! a == None) items.*1.

Definition unmodified desired current (item : string * string) : bool :=
  bool_decide (is_Some (desired !! item.1)) ||
  match current !! item.1 with Some now => now == item.2 | None => true end.

Lemma removals_eq desired current items owned :
  Vec.all (unmodified desired current) items = true ->
  reconcile_removals desired current client items owned =
  Ok (Remove <$> Vec.retain (fun a => bool_decide (is_Some (current !! a))) (stale desired items),
      fold_left (fun m a => delete a m) (stale desired items) owned).
Proof.
  revert owned. induction items as [|[a h] items IH]; intros owned; [done|].
  cbn. intros [Ha Hi]%andb_true_iff. unfold unmodified in Ha. cbn in Ha. unfold stale. cbn.
  destruct (desired !! a) as [t|] eqn:Hd.
  - rewrite bool_decide_eq_true_2, bool_decide_eq_false_2 by eauto. by apply IH.
  - rewrite bool_decide_eq_false_2 by (by intros [??]). rewrite bool_decide_eq_true_2 by done. cbn.
    rewrite (bool_decide_eq_false_2 (is_Some None)) in Ha by (by intros [??]). cbn in Ha.
    destruct (current !! a) as [now|] eqn:Hc.
    + rewrite Ha, IH, bool_decide_eq_true_2 by eauto. done.
    + rewrite IH, (bool_decide_eq_false_2 (is_Some None)) by (done || by intros [??]). done.
Qed.

Lemma removals_Err desired current items owned :
  Vec.all (unmodified desired current) items = false ->
  exists e, reconcile_removals desired current client items owned = Err e.
Proof.
  revert owned. induction items as [|[a h] items IH]; intros owned; [done|].
  cbn. unfold unmodified at 1. cbn. case_bool_decide as Hd; cbn; [by apply IH|].
  destruct (current !! a) as [now|]; [|by apply IH].
  unfold ensure. case_bool_decide; cbn; [|by eauto].
  intros Hi. destruct (IH (delete a owned) Hi) as [e ->]. by eauto.
Qed.

Definition unclaimed owned current (item : string * (string * string)) : bool :=
  match current !! item.1 with Some now => owned !! item.1 == Some now | None => true end.

Definition outdated current (item : string * (string * string)) : bool :=
  current !! item.1 != Some (fingerprint (proxy item.2.1 item.2.2)).

Definition put_action (item : string * (string * string)) : ReconcileAction :=
  Put item.1 item.2.1 item.2.2.

Definition record_hash owned (item : string * (string * string)) : gmap string string :=
  <[item.1 := fingerprint (proxy item.2.1 item.2.2)]> owned.

Lemma unclaimed_insert owned current items a h :
  a ∉ items.*1 ->
  Vec.all (unclaimed (<[a := h]> owned) current) items = Vec.all (unclaimed owned current) items.
Proof.
  unfold Vec.all. induction items as [|[b t] items IH]; cbn; [done|].
  rewrite not_elem_of_cons. intros [? ?]. rewrite IH by done. unfold unclaimed at 1 3. cbn.
  by rewrite lookup_insert_ne.
Qed.

Lemma puts_eq current items owned :
  NoDup items.*1 -> Vec.all (unclaimed owned current) items = true ->
  reconcile_puts current hash client items owned =
  Ok (put_action <$> Vec.retain (outdated current) items, fold_left record_hash items owned).
Proof.
  revert owned. induction items as [|[a [e s]] items IH]; intros owned; [done|].
  cbn. rewrite NoDup_cons. intros [Ha Hn] [Hu Hi]%andb_true_iff. unfold unclaimed in Hu. cbn in Hu.
  change (Vec.all (unclaimed owned current) items = true) in Hi.
  rewrite <- (unclaimed_insert owned current items a (fingerprint (proxy e s))) in Hi by done.
  unfold outdated at 1. cbn.
  destruct (current !! a) as [now|] eqn:Hc.
  - apply bool_decide_eq_true in Hu. rewrite Hu, bool_decide_eq_true_2 by done.
    case_bool_decide as Hh.
    + rewrite (bool_decide_eq_true_2 (Some now = _)) by congruence. cbn. subst now.
      rewrite <- IH by done. by rewrite insert_id.
    + rewrite (bool_decide_eq_false_2 (Some now = _)) by congruence. cbn. by rewrite IH.
  - rewrite IH by done. rewrite (bool_decide_eq_false_2 (None = _)) by done. by destruct (owned !! a).
Qed.

Lemma puts_Err current items owned :
  NoDup items.*1 -> Vec.all (unclaimed owned current) items = false ->
  exists e, reconcile_puts current hash client items owned = Err e.
Proof.
  revert owned. induction items as [|[a [e s]] items IH]; intros owned; [done|].
  cbn. rewrite NoDup_cons. intros [Ha Hn]. unfold unclaimed at 1. cbn.
  pose proof (unclaimed_insert owned current items a (fingerprint (proxy e s)) Ha) as Hi.
  unfold Vec.all in Hi.
  destruct (current !! a) as [now|].
  - destruct (owned !! a) as [previous|]; [|by eauto].
    case_bool_decide as E1; cbn.
    + injection E1 as ->. rewrite bool_decide_eq_true_2 by done. intros Hf.
      case_bool_decide; [by apply IH|]. rewrite <- Hi in Hf. destruct (IH _ Hn Hf) as [e' ->]. by eauto.
    + rewrite bool_decide_eq_false_2 by congruence. by eauto.
  - cbn. intros Hf. rewrite <- Hi in Hf. destruct (IH _ Hn Hf) as [e' ->].
    destruct (owned !! a); by eauto.
Qed.

(** *** Look-ups in what the loops compute *)

Lemma apply_removals (ks : list string) servers :
  apply_actions proxy (Remove <$> ks) servers = fold_left (fun m k => delete k m) ks servers.
Proof. revert servers. induction ks; intros servers; cbn; [done|]. by rewrite <- IHks. Qed.

Lemma lookup_puts {A} (f : string * string -> A) items (m : gmap string A) a :
  NoDup items.*1 ->
  fold_left (fun m (item : string * (string * string)) => <[item.1 := f item.2]> m) items m !! a =
  match (list_to_map items : gmap string _) !! a with Some t => Some (f t) | None => m !! a end.
Proof.
  revert m. induction items as [|[k t] items IH]; intros m; cbn; [by rewrite lookup_empty|].
  rewrite NoDup_cons. intros [Hk Hn]. rewrite IH by done.
  destruct (decide (a = k)) as [->|Hne].
  - rewrite lookup_insert_eq, (not_elem_of_list_to_map_1 items k) by done. by rewrite lookup_insert_eq.
  - by rewrite !lookup_insert_ne by done.
Qed.

Lemma apply_puts items servers :
  apply_actions proxy (put_action <$> items) servers =
  fold_left (fun m (item : string * (string * string)) =>
    <[item.1 := (fun t => proxy t.1 t.2) item.2]> m) items servers.
Proof. revert servers. induction items; intros servers; cbn; [done|]. by rewrite <- IHitems. Qed.

Lemma apply_actions_app a b servers :
  apply_actions proxy (a ++ b)%list servers = apply_actions proxy b (apply_actions proxy a servers).
Proof. apply fold_left_app. Qed.

Lemma list_to_map_retain p items a :
  NoDup items.*1 ->
  (list_to_map (Vec.retain p items) : gmap string (string * string)) !! a =
  match (list_to_map items : gmap string (string * string)) !! a with
  | Some t => if p (a, t) then Some t else None
  | None => None
  end.
Proof.
  unfold Vec.retain. induction items as [|[k t] items IH]; cbn; [by rewrite lookup_empty|].
  rewrite NoDup_cons. intros [Hk Hn]. destruct (decide (a = k)) as [->|Hne].
  - rewrite lookup_insert_eq. destruct (p (k, t)); cbn; [by rewrite lookup_insert_eq|].
    rewrite IH by done. by rewrite (not_elem_of_list_to_map_1 items k).
  - rewrite lookup_insert_ne by done. destruct (p (k, t)); cbn; [|by apply IH].
    rewrite lookup_insert_ne by done. by apply IH.
Qed.

Lemma list_to_map_btree {A} (m : gmap string A) : list_to_map (btree_iter m) = m.
Proof.
  apply map_eq. intros a. apply option_eq. intros x.
  rewrite <- elem_of_list_to_map by apply NoDup_btree_iter. by rewrite elem_of_btree_iter.
Qed.

Lemma elem_of_btree_keys {A} (m : gmap string A) a : a ∈ (btree_iter m).*1 <-> is_Some (m !! a).
Proof.
  rewrite list_elem_of_fmap. split.
  - intros ([k x] & -> & Hx%elem_of_btree_iter). by exists x.
  - intros [x Hx%elem_of_btree_iter]. by exists (a, x).
Qed.

(** *** The outcome *)

Lemma stale_elem desired owned a :
  a ∈ stale desired (btree_iter owned) <-> is_Some (owned !! a) /\ desired !! a = None.
Proof.
  unfold stale. by rewrite Vec.elem_of_retain, elem_of_btree_keys, bool_decide_eq_true.
Qed.

Definition kept desired owned : gmap string string :=
  fold_left (fun m a => delete a m) (stale desired (btree_iter owned)) owned.

Lemma lookup_kept desired owned a :
  kept desired owned !! a = match desired !! a with Some _ => owned !! a | None => None end.
Proof.
  unfold kept. rewrite lookup_deletes. destruct (desired !! a) as [t|] eqn:Hd.
  - rewrite bool_decide_eq_false_2; [done|]. rewrite stale_elem. by intros [_ ?]; congruence.
  - case_bool_decide as Hs; [done|]. apply eq_None_not_Some. intros Ho. apply Hs, stale_elem. done.
Qed.

Lemma no_conflict desired owned current :
  ~ conflict desired owned current <->
  Vec.all (unmodified desired current) (btree_iter owned) = true /\
  Vec.all (unclaimed (kept desired owned) current) (btree_iter desired) = true.
Proof.
  split.
  - intros Hc. split; apply Vec.all_true; intros [a t] Ht%elem_of_btree_iter.
    + unfold unmodified. cbn. case_bool_decide; [done|]. destruct (current !! a) as [now|] eqn:Hn; [|done].
      apply bool_decide_eq_true, dec_stable. intros Hne. apply Hc. left. by exists a, t, now.
    + unfold unclaimed. cbn. destruct (current !! a) as [now|] eqn:Hn; [|done].
      apply bool_decide_eq_true. rewrite lookup_kept, Ht. destruct (owned !! a) as [h|] eqn:Ho.
      * f_equal. apply dec_stable. intros Hne. apply Hc. left. exists a, h, now. by split_and!; [..|congruence].
      * destruct Hc. right. by exists a, t, now.
  - rewrite !Vec.all_true.
    intros [H1 H2] [(a & h & now & Ho & Hn & Hne)|(a & t & now & Hd & Ho & Hn)].
    + specialize (H1 (a, h) (proj2 (elem_of_btree_iter _ _ _) Ho)).
      unfold unmodified in H1. cbn in H1. rewrite Hn in H1. case_bool_decide as Hd; cbn in H1; breflect; [|done].
      destruct Hd as [t Hd]. specialize (H2 (a, t) (proj2 (elem_of_btree_iter _ _ _) Hd)).
      unfold unclaimed in H2. cbn in H2. rewrite Hn, lookup_kept, Hd in H2. breflect. congruence.
    + specialize (H2 (a, t) (proj2 (elem_of_btree_iter _ _ _) Hd)).
      unfold unclaimed in H2. cbn in H2. rewrite Hn, lookup_kept, Hd in H2. breflect. congruence.
Qed.

Lemma conflict_dec desired owned current :
  conflict desired owned current \/ ~ conflict desired owned current.
Proof.
  rewrite no_conflict.
  destruct (Vec.all (unmodified desired current) (btree_iter owned)) eqn:H1.
  - destruct (Vec.all (unclaimed (kept desired owned) current) (btree_iter desired)) eqn:H2; [by right|].
    left. apply Vec.all_false in H2 as ([a t] & Hd%elem_of_btree_iter & Hu). unfold unclaimed in Hu. cbn in Hu.
    destruct (current !! a) as [now|] eqn:Hn; [|done]. rewrite lookup_kept, Hd in Hu. breflect.
    destruct (owned !! a) as [h|] eqn:Ho.
    + left. exists a, h, now. split_and!; [done..|congruence].
    + right. by exists a, t, now.
  - left. left. apply Vec.all_false in H1 as ([a h] & Ho%elem_of_btree_iter & Hu).
    unfold unmodified in Hu. cbn in Hu. apply orb_false_iff in Hu as [_ Hu].
    destruct (current !! a) as [now|] eqn:Hn; [|done]. breflect. by exists a, h, now.
Qed.

Lemma reconcile_eq desired owned current :
  ~ conflict desired owned current ->
  reconcile desired owned current hash client =
  Ok ((Remove <$> Vec.retain (fun a => bool_decide (is_Some (current !! a))) (stale desired (btree_iter owned))) ++
      (put_action <$> Vec.retain (outdated current) (btree_iter desired)),
      (fun t => fingerprint (proxy t.1 t.2)) <$> desired)%list.
Proof.
  intros [H1 H2]%no_conflict. unfold reconcile. rewrite removals_eq by done. cbn.
  fold (kept desired owned). rewrite puts_eq by (done || apply NoDup_btree_iter). cbn. do 2 f_equal.
  apply map_eq. intros a.
  rewrite (lookup_puts (fun t => fingerprint (proxy t.1 t.2)) _ _ _ (NoDup_btree_iter desired)).
  rewrite list_to_map_btree, lookup_fmap, lookup_kept. by destruct (desired !! a).
Qed.

Lemma reconcile_conflict desired owned current :
  conflict desired owned current -> exists e, reconcile desired owned current hash client = Err e.
Proof.
  intros Hc. unfold reconcile.
  destruct (Vec.all (unmodified desired current) (btree_iter owned)) eqn:H1.
  - rewrite removals_eq by done. cbn. fold (kept desired owned).
    destruct (Vec.all (unclaimed (kept desired owned) current) (btree_iter desired)) eqn:H2.
    + by apply no_conflict in Hc.
    + destruct (puts_Err current (btree_iter desired) (kept desired owned)) as [e ->];
        [apply NoDup_btree_iter|done|]. by exists e.
  - destruct (removals_Err desired current (btree_iter owned) owned H1) as [e ->]. by exists e.
Qed.

Lemma reconciled_lookup desired owned servers a :
  let current := fingerprint <$> servers in
  apply_actions proxy
    ((Remove <$> Vec.retain (fun a => bool_decide (is_Some (current !! a))) (stale desired (btree_iter owned))) ++
     (put_action <$> Vec.retain (outdated current) (btree_iter desired)))%list servers !! a =
  match desired !! a with
  | Some t => if outdated current (a, t) then Some (proxy t.1 t.2) else servers !! a
  | None => match owned !! a with Some _ => None | None => servers !! a end
  end.
Proof.
  cbv zeta. rewrite apply_actions_app, apply_puts, (lookup_puts (fun t => proxy t.1 t.2))
    by (apply (Keyed.unique_retain fst), NoDup_btree_iter).
  rewrite list_to_map_retain, list_to_map_btree by apply NoDup_btree_iter.
  rewrite apply_removals, lookup_deletes.
  rewrite (bool_decide_ext _ ((is_Some (owned !! a) /\ desired !! a = None) /\ is_Some (servers !! a))).
  2: { rewrite Vec.elem_of_retain, stale_elem, bool_decide_eq_true, lookup_fmap, fmap_is_Some. done. }
  destruct (desired !! a) as [t|].
  - rewrite bool_decide_eq_false_2 by (by intros [[_ ?] _]). by destruct (outdated _ _).
  - destruct (owned !! a) as [h|]; [|rewrite bool_decide_eq_false_2 by (by intros [[[??] _] _]); done].
    case_bool_decide as Hn; [done|]. apply eq_None_not_Some. intros Hs. apply Hn. by split; [split; [eauto|]|].
Qed.

Lemma reconciled_projected desired owned servers a :
  let current := fingerprint <$> servers in
  projected desired owned servers a (apply_actions proxy
    ((Remove <$> Vec.retain (fun a => bool_decide (is_Some (current !! a))) (stale desired (btree_iter owned))) ++
     (put_action <$> Vec.retain (outdated current) (btree_iter desired)))%list servers !! a).
Proof.
  cbv zeta. unfold projected. rewrite reconciled_lookup. destruct (desired !! a) as [[e s]|]; [|done].
  unfold outdated. cbn. case_bool_decide as Ho; cbn; [|by eauto].
  rewrite lookup_fmap in Ho. destruct (servers !! a) as [v|]; [|done]. injection Ho as Ho. by eauto.
Qed.

Lemma reconcile_Ok desired owned servers actions owned' :
  reconcile desired owned (fingerprint <$> servers) hash client = Ok (actions, owned') ->
  (forall alias, projected desired owned servers alias (apply_actions proxy actions servers !! alias)) /\
  owned' = (fun t => fingerprint (proxy t.1 t.2)) <$> desired.
Proof.
  intros R. destruct (conflict_dec desired owned (fingerprint <$> servers)) as [Hc|Hc].
  { destruct (reconcile_conflict _ _ _ Hc) as [e E]. congruence. }
  rewrite reconcile_eq in R by done. injection R as <- <-.
  split; [|done]. apply reconciled_projected.
Qed.

(** Reconciling is exact and careful. When an owned entry was edited by hand
    or a desired name is taken by an entry that is not owned, nothing is decided
    and the sync fails; otherwise every desired server ends up with the generated
    entry, every owned entry that is no longer desired is gone, every other entry
    is left as it was, the recorded fingerprints are exactly those of the desired
    entries, and reconciling again would do nothing. *)
Theorem reconcile_exact desired owned servers :
  match reconcile desired owned (fingerprint <$> servers) hash client with
  | Ok (actions, owned') =>
      ~ conflict desired owned (fingerprint <$> servers) /\
      (forall alias, projected desired owned servers alias (apply_actions proxy actions servers !! alias)) /\
      owned' = (fun t => fingerprint (proxy t.1 t.2)) <$> desired /\
      reconcile desired owned' (fingerprint <$> apply_actions proxy actions servers) hash client
        = Ok ([], owned')
  | Err _ => conflict desired owned (fingerprint <$> servers)
  end.
Proof.
  destruct (conflict_dec desired owned (fingerprint <$> servers)) as [Hc|Hc].
  { destruct (reconcile_conflict _ _ _ Hc) as [e ->]. done. }
  destruct (reconcile desired owned _ hash client) as [[actions owned']|e] eqn:R;
    [|by rewrite reconcile_eq in R].
  destruct (reconcile_Ok _ _ _ _ _ R) as [Hp ->]. split_and!; [done|exact Hp|done|].
  set (servers' := apply_actions proxy actions servers) in *.
  assert (Hl : forall a, (fingerprint <$> servers') !! a =
    match desired !! a with
    | Some t => Some (fingerprint (proxy t.1 t.2))
    | None => match owned !! a with Some _ => None | None => fingerprint <$> servers !! a end
    end).
  { intros a. specialize (Hp a). unfold projected in Hp. rewrite lookup_fmap.
    destruct (desired !! a) as [[e s]|]; [|rewrite Hp; by destruct (owned !! a)].
    destruct Hp as (v & -> & Hv). cbn. by rewrite Hv. }
  rewrite reconcile_eq.
  - f_equal. f_equal. apply app_nil. split.
    + rewrite (elem_of_nil_inv (Vec.retain _ _)); [done|].
      intros a [[[t Ha] Hd]%stale_elem _]%Vec.elem_of_retain.
      rewrite lookup_fmap, Hd in Ha. done.
    + rewrite (elem_of_nil_inv (Vec.retain _ _)); [done|].
      intros [a t] [Ht%elem_of_btree_iter Ho]%Vec.elem_of_retain.
      unfold outdated in Ho. cbn in Ho. rewrite Hl, Ht in Ho. by rewrite bool_decide_eq_true_2 in Ho.
  - intros [(a & h & now & Ho & Hn & Hne)|(a & t & now & Hd & Ho & Hn)].
    + rewrite Hl in Hn. rewrite lookup_fmap in Ho. destruct (desired !! a); [|done]. cbn in Ho. congruence.
    + rewrite lookup_fmap, Hd in Ho. done.
Qed.
End Reconcile.
