(* ===== verification/ClientCommands.v ===== *)
(** * agent-scale: the commands of the user

    [main] of src/crates/agent-scale/src/main.rs decides from the arguments which
    operation a command is, and from its outcome what is printed and with which
    status the process ends; the operations on an Edge go through [check_edge] and
    the daemon (src/crates/agent-scale/src/client.rs), as do those on proxies.
    clap's parsing is not modelled: the arguments are a [Cli]. *)
From stdpp Require Import pretty.
From S2P Require Import Prelude Deps RelayApi ControlApi Files Transport Protocol McpRegistry RelayTable ClientConfig.
From S2P Require Import Requests Exec Proxy TcpTunnel McpSync CommandLine.
Open Scope string_scope.
Open Scope Z_scope.

(** ** Arguments *)

Inductive McpCmd :=
| McpCmdRun (name : string)
| McpCmdAdd (name : string) (http sse cwd : option string) (argv : list string)
| McpCmdLs
| McpCmdRm (name : string)
| McpCmdCheck (name : string)
| McpCmdSync (client : list ClientKind) (project : option string) (check : bool).

(** The password file is its content, or the error of reading it. *)
Inductive ProxyStartCmd :=
| StartTcp (name : string) (listen : SocketAddr) (target : string) (connect_timeout_secs : Z)
| StartSocks5 (name : string) (listen : SocketAddr) (username password : option string)
    (password_file : option (result string string)) (connect_timeout_secs : Z).
Inductive ProxyCmd := ProxyCmdStart (kind : ProxyStartCmd) | ProxyCmdLs | ProxyCmdStop (name : string).

Inductive EdgeCmd :=
| EdgeCmdInvite (name : string) (ttl_secs : Z)
| EdgeCmdAdd (name endpoint_id : string) (relays : list string)
| EdgeCmdLs
| EdgeCmdRm (name : string).
Inductive ControlCmd := ControlCmdJoin (join_url : string) | ControlCmdStatus | ControlCmdSync.

Inductive Cmd :=
| CmdControl (cmd : ControlCmd)
| CmdExec (argv : list string)
| CmdUpload (local remote : string)
| CmdDownload (remote local : string)
| CmdMcp (cmd : McpCmd)
| CmdProxy (cmd : ProxyCmd)
| CmdEdge (cmd : EdgeCmd)
| CmdKeygen
| CmdDaemon (status stop : bool)
| CmdDaemonize.

Record Cli := { cli_edges : list string; cli_cmd : Cmd }.

(** ** What [main] calls *)

Inductive Action :=
| DoControl (cmd : ControlCmd)
| DoEdge (cmd : EdgeCmd)
| DoKeygen
| DoExec (edge : string) (argv : list string)
| DoTransfer (edge : string) (op : ClientOp)
| DoMcpRun (edge name : string)
| DoMcpUpsert (edge name : string) (transport : McpTransport)
| DoMcpList (edge : string)
| DoMcpRemove (edge name : string)
| DoMcpCheck (edge name : string)
| DoMcpSync (edges : list string) (client : list ClientKind) (project : option string) (check : bool)
| DoProxyStart (spec : ProxySpec)
| DoProxyList
| DoProxyStop (name : string)
| DoDaemonControl (stop : bool)
| DoDaemonRun.

(** Commands that take [-e/--edge] *)
Definition takes_edges (cmd : Cmd) : bool :=
  match cmd with
  | CmdExec _ | CmdUpload _ _ | CmdDownload _ _ | CmdMcp _ | CmdProxy _ => true
  | _ => false
  end.

(** [http.map(..).or_else(..).or_else(..)] *)
Definition add_transport (http sse cwd : option string) (argv : list string) : option McpTransport :=
  match http with
  | Some url => Some (Http url)
  | None =>
      match sse with
      | Some url => Some (Sse url)
      | None => match argv with [] => None | command :: args => Some (Stdio command args cwd) end
      end
  end.

Definition mcp_action (edges : list string) (cmd : McpCmd) : result string Action :=
  match cmd with
  | McpCmdRun name => edge ← one_edge edges; Ok (DoMcpRun edge name)
  | McpCmdAdd name http sse cwd argv =>
      ensure (negb ((cwd != None) && ((http != None) || (sse != None)))) "--cwd is only valid for stdio MCP servers";;
      match one_edge edges, add_transport http sse cwd argv with
      | Ok edge, Some transport => Ok (DoMcpUpsert edge name transport)
      | Err error, _ => Err error
      | _, None => Err "specify `-- <command>`, `--http <url>`, or `--sse <url>`"
      end
  | McpCmdLs => edge ← one_edge edges; Ok (DoMcpList edge)
  | McpCmdRm name => edge ← one_edge edges; Ok (DoMcpRemove edge name)
  | McpCmdCheck name => edge ← one_edge edges; Ok (DoMcpCheck edge name)
  | McpCmdSync client project check => Ok (DoMcpSync edges client project check)
  end.

Definition proxy_spec (edge : string) (kind : ProxyStartCmd) : result string ProxySpec :=
  match kind with
  | StartTcp name listen target connect_timeout_secs =>
      target ← parse_proxy_target target;
      Ok {| ps_name := name; ps_edge := edge; ps_listen := listen; ps_connect_timeout_secs := connect_timeout_secs;
            ps_kind := ProxyTcp target; ps_socks_auth := None |}
  | StartSocks5 name listen username password password_file connect_timeout_secs =>
      auth ← socks_auth username password password_file;
      Ok {| ps_name := name; ps_edge := edge; ps_listen := listen; ps_connect_timeout_secs := connect_timeout_secs;
            ps_kind := ProxySocks5; ps_socks_auth := auth |}
  end.

Definition proxy_action (edges : list string) (cmd : ProxyCmd) : result string Action :=
  match cmd with
  | ProxyCmdStart kind => edge ← one_edge edges; spec ← proxy_spec edge kind; Ok (DoProxyStart spec)
  | ProxyCmdLs => ensure (edges == []) "proxy ls does not accept -e/--edge";; Ok DoProxyList
  | ProxyCmdStop name => ensure (edges == []) "proxy stop does not accept -e/--edge";; Ok (DoProxyStop name)
  end.

Definition action (cli : Cli) : result string Action :=
  let edges := cli_edges cli in
  ensure ((edges == []) || takes_edges (cli_cmd cli))
    "-e/--edge is only valid for exec, upload, download, mcp, and proxy start";;
  match cli_cmd cli with
  | CmdControl cmd => Ok (DoControl cmd)
  | CmdEdge cmd => Ok (DoEdge cmd)
  | CmdKeygen => Ok DoKeygen
  | CmdExec argv => edge ← one_edge edges; Ok (DoExec edge argv)
  | CmdUpload local remote => edge ← one_edge edges; Ok (DoTransfer edge (OpUpload local remote))
  | CmdDownload remote local => edge ← one_edge edges; Ok (DoTransfer edge (OpDownload remote local))
  | CmdMcp cmd => mcp_action edges cmd
  | CmdProxy cmd => proxy_action edges cmd
  | CmdDaemon _ stop => Ok (DoDaemonControl stop)
  | CmdDaemonize => Ok DoDaemonRun
  end.

(** ** Exit status and output *)

(** [ExitCode::SUCCESS] and [ExitCode::FAILURE] *)
Definition SUCCESS : Z := 0.
Definition FAILURE : Z := 1.

Definition report {T} (ok : T -> Z) (r : result string T) : Z :=
  match r with Ok value => ok value | Err _ => FAILURE end.
(** [(code & 0xff) as u8] *)
Definition code_exit (code : Z) : Z := Z.land code 255 mod 256.

Section Printing.
Context `{AddrText}.

Definition proxy_line (proxy : ProxyInfo) : string :=
  let kind := match pi_kind proxy with
              | ProxyTcp target => "tcp -> " ++ host target ++ ":" ++ pretty (port target)
              | ProxySocks5 => if pi_authenticated proxy then "socks5 (authenticated)" else "socks5"
              end in
  pi_name proxy ++ ": " ++ kind ++ " on " ++ addr_to_string (pi_listen proxy) ++ " via " ++ pi_edge proxy.
Definition print_proxies (proxies : list ProxyInfo) : list string :=
  match proxies with [] => ["no proxies running"] | _ => proxy_line <$> proxies end.
End Printing.

(** The description of a server, here and in [describe_mcp] of as-edge *)
Definition describe_mcp (transport : McpTransport) : string :=
  match transport with
  | Stdio command args cwd =>
      "stdio: " ++ command ++ (if args == [] then "" else " " ++ String.concat " " args) ++
      match cwd with Some cwd => " (cwd: " ++ cwd ++ ")" | None => "" end
  | Http url => "http: " ++ url
  | Sse url => "sse: " ++ url
  end.
(** [servers] is a [BTreeMap]. *)
Definition print_mcp_catalog (catalog : McpCatalog) : list string :=
  if bool_decide (mcp_servers catalog = ∅) then ["no MCP servers configured"]
  else (fun entry : string * McpTransport => entry.1 ++ ": " ++ describe_mcp entry.2) <$> btree_iter (mcp_servers catalog).

(** ** Through the daemon *)

Inductive ProxyAdmin := AdminProxyStart (spec : ProxySpec) | AdminProxyStop (name : string) | AdminProxyList.
Inductive ProxyAdminResult := ProxyStarted (info : ProxyInfo) | ProxyStopped | ProxyListed (proxies : list ProxyInfo).

Section Commands.
Context `{Keys, Encodings, !ControlSerde, !Urls, !SerdePretty Config}.
Context `{Serde (LocalRequest ProxyAdmin), Serde (RpcResult ProxyAdminResult)}.
Implicit Types (config : Config).

Definition load_config (fs : Fs string) : result string Config :=
  data ← of_option (fs !! config_path) "read config (run `keygen` + `edge add` first)"; parse_config data.

(** [check_edge] once the cache is refreshed *)
Definition check_edge (refreshed : result string unit) (fs : Fs string) (edge : string) : result string unit :=
  refreshed;;
  config ← load_config fs;
  ensure (Vec.any (fun e => ec_name e == edge) (cfg_edges config))
    ("unknown edge '" ++ edge ++ "'; configured: [" ++ String.concat ", " (ec_name <$> cfg_edges config) ++ "]").

(** The operation that the daemon is asked for *)
Definition work_of (a : Action) : result string (option (string * ClientOp)) :=
  match a with
  | DoExec edge argv =>
      match argv with
      | [] => Err "empty command"
      | command :: args => Ok (Some (edge, OpExec {| ex_command := command; ex_args := args; ex_cwd := None |}))
      end
  | DoTransfer edge op => Ok (Some (edge, op))
  | DoMcpRun edge name => Ok (Some (edge, OpMcpConnect name))
  | DoMcpUpsert edge name transport => Ok (Some (edge, OpMcpUpsert name transport))
  | DoMcpList edge => Ok (Some (edge, OpMcpList))
  | DoMcpRemove edge name => Ok (Some (edge, OpMcpRemove name))
  | _ => Ok None
  end.

(** The START frame of a command, after the check *)
Definition start_frame (refreshed : result string unit) (fs : Fs string) (edge : string) (op : ClientOp) : result string bytes :=
  check_edge refreshed fs edge;;
  write_frame Start (work_request (P := ProxyAdmin) edge op).

(** The daemon's table of Edges, as it makes it from a configuration *)
Definition edge_table config : gmap string EdgeCfg := hash_map ((fun e => (ec_name e, e)) <$> cfg_edges config).

(** [ProxyManager::handle] *)
Definition handle_proxy (edges : gset string) (bound : result string SocketAddr) (command : ProxyAdmin)
  : handler ProxyManager string ProxyAdminResult :=
  match command with
  | AdminProxyStart spec => info ← proxy_start edges bound spec; mret (ProxyStarted info)
  | AdminProxyStop name => proxy_stop name;; mret ProxyStopped
  | AdminProxyList => running ← get id; mret (ProxyListed (proxy_list running))
  end.

(** The daemon's answer to a stream with a proxy command; an error of
    [handle_client] closes the connection. *)
Definition serve_proxy_stream (edges : gmap string EdgeCfg) (bound : result string SocketAddr) (stream : bytes)
  (running : ProxyManager) : ProxyManager * bytes :=
  match handle_client (P := ProxyAdmin) edges stream with
  | Ok (Some (DispatchProxy command)) =>
      let '(running, r) := handle_proxy (dom edges) bound command running in
      let response := match r with Ok result => RpcOk result | Err e => RpcError (remote_internal e) end in
      (running, match write_frame Result_ (to_vec response) with Ok bs => bs | Err _ => [] end)
  | _ => (running, [])
  end.

(** [proxy_request]: [None] when no daemon listens and none is to be started *)
Definition proxy_request (daemon : result string (option (gmap string EdgeCfg * result string SocketAddr)))
  (command : ProxyAdmin) : handler ProxyManager string (option ProxyAdminResult) := fun running =>
  match daemon with
  | Err e => (running, Err e)
  | Ok None => (running, Ok None)
  | Ok (Some (edges, bound)) =>
      let request := {| lr_version := VERSION; lr_protocol_version := LOCAL_PROTOCOL_VERSION;
                        lr_command := LocalProxy command |} in
      match write_frame Start (to_vec request) with
      | Err e => (running, Err e)
      | Ok stream =>
          let '(running, answer) := serve_proxy_stream edges bound stream running in
          (running,
           next ← read_frame answer;
           match next with
           | Some (f, _) =>
               ensure (tag f == Result_) "unexpected daemon proxy frame";;
               response ← of_option (from_slice (T := RpcResult ProxyAdminResult) (payload f)) "parse proxy result";
               Some <$> rpc_value response
           | None => Err "daemon closed without a proxy response"
           end)
      end
  end.

Definition client_proxy_start (checked : result string unit) daemon (spec : ProxySpec) : handler ProxyManager string ProxyInfo :=
  lift checked;;
  r ← proxy_request daemon (AdminProxyStart spec);
  lift match r with
       | Some (ProxyStarted info) => Ok info
       | Some _ => Err "daemon returned an unexpected proxy result"
       | None => Err "daemon did not start"
       end.
Definition client_proxy_stop daemon (name : string) : handler ProxyManager string unit :=
  r ← proxy_request daemon (AdminProxyStop name);
  lift match r with
       | Some ProxyStopped => Ok tt
       | Some _ => Err "daemon returned an unexpected proxy result"
       | None => Err "daemon is not running"
       end.
Definition client_proxy_list daemon : handler ProxyManager string (list ProxyInfo) :=
  r ← proxy_request daemon AdminProxyList;
  lift match r with
       | Some (ProxyListed proxies) => Ok proxies
       | Some _ => Err "daemon returned an unexpected proxy result"
       | None => Ok []
       end.
End Commands.

(** ** The exit status *)

Lemma code_exit_mod code : code_exit code = code mod 256.
Proof. unfold code_exit. change 255 with (Z.ones 8). rewrite Z.land_ones by lia. by rewrite Z.mod_mod. Qed.

(** What a script sees of a remote command: status 0 exactly when the Edge
    reported a status whose low byte is 0, which on an Edge with wider statuses
    includes failures such as 256; status 1 for every local or remote error, which
    a command that exits with 1 cannot be told from. *)
Theorem exec_exit_status stream :
  let status := report code_exit (sh_code (exec stream)) in
  0 <= status < 256 /\
  (status = SUCCESS <-> exists code, sh_code (exec stream) = Ok code /\ code mod 256 = 0) /\
  (forall e, sh_code (exec stream) = Err e -> status = FAILURE) /\
  (forall code, sh_code (exec stream) = Ok code -> 0 <= code < 256 -> status = code).
Proof.
  cbv zeta. destruct (sh_code (exec stream)) as [code|e]; cbn [report].
  - rewrite code_exit_mod. split; [apply Z.mod_pos_bound; lia|]. split; [|split].
    + unfold SUCCESS. split; [intros E; by exists code|]. by intros (c & [= <-] & E).
    + done.
    + intros c [= <-] Hc. by apply Z.mod_small.
  - unfold FAILURE, SUCCESS. split; [lia|]. split; [|split; [done|done]]. split; [done|]. by intros (c & ? & _).
Qed.

(** ** The two ways to add a server agree *)

(** [agent-scale mcp add] and [as-edge mcp add] make the same server of the same
    arguments, and refuse the same ones. *)
Theorem mcp_add_agrees edge name http sse cwd argv :
  mcp_action [edge] (McpCmdAdd name http sse cwd argv) =
  (ensure (bool_decide (cwd = None) || (bool_decide (http = None) && bool_decide (sse = None)))
     "--cwd is only valid for stdio MCP servers";;
   transport ← parse_mcp_transport http sse cwd argv;
   Ok (DoMcpUpsert edge name transport)).
Proof. destruct cwd, http, sse, argv; done. Qed.

(** ** Commands reach the Edge that was named *)

Lemma lookup_edge_table edges name (m : gmap string EdgeCfg) :
  (exists e, e ∈ edges /\ ec_name e = name) \/ (exists e, m !! name = Some e /\ ec_name e = name) ->
  exists e, fold_left (fun m entry => <[entry.1 := entry.2]> m) ((fun e => (ec_name e, e)) <$> edges) m !! name = Some e /\
    ec_name e = name /\ (e ∈ edges \/ m !! name = Some e).
Proof.
  revert m. induction edges as [|e edges IH]; intros m; cbn.
  - intros [(x & Hx%not_elem_of_nil & _)|(x & Hm & Hn)]; [done|]. exists x. auto.
  - intros Hex. destruct (IH (<[ec_name e := e]> m)) as (x & Hf & Hn & Hx).
    + destruct Hex as [(y & [->|Hy]%elem_of_cons & Hn)|(y & Hm & Hn)].
      * right. exists e. split; [by rewrite Hn, lookup_insert_eq|done].
      * left. by exists y.
      * right. destruct (decide (ec_name e = name)) as [<-|Hne]; [exists e; by rewrite lookup_insert_eq|].
        exists y. by rewrite lookup_insert_ne.
    + exists x. split; [done|]. split; [done|]. destruct Hx as [Hx|Hx]; [left; by right|].
      apply lookup_insert_Some in Hx as [[_ <-]|[_ Hx]]; [left; by left|by right].
Qed.

Section Reach.
Context `{Keys, Encodings, !ControlSerde, !Urls, !SerdePretty Config}.
Context `{!Serde (LocalRequest ProxyAdmin), !Serde (RpcResult ProxyAdminResult)}.
Context `{!SerdeLaws (LocalRequest ProxyAdmin), !SerdeLaws (RpcResult ProxyAdminResult)}.

Lemma action_work cli a edge op :
  action cli = Ok a -> work_of a = Ok (Some (edge, op)) -> cli_edges cli = [edge].
Proof.
  assert (Hsingle : forall edges e, one_edge edges = Ok e -> edges = [e]) by (intros [|? []] e; cbn; congruence).
  destruct cli as [edges cmd]. unfold action. cbn. intros Ha Hw. apply bind_Ok in Ha as ([] & _ & Ha).
  assert (Hone : forall (f : string -> Action), (e ← one_edge edges; Ok (f e)) = Ok a ->
    (forall e op', work_of (f e) = Ok (Some (edge, op')) -> e = edge) -> edges = [edge]).
  { intros f Hf He. apply bind_Ok in Hf as (e & Ho & [= <-]). rewrite (He e op Hw) in Ho. by apply Hsingle. }
  destruct cmd as [| | | |cmd|cmd| | | |]; try (injection Ha as <-; discriminate Hw).
  - apply (Hone _ Ha). intros e op'. cbn. destruct argv; congruence.
  - apply (Hone _ Ha). cbn. congruence.
  - apply (Hone _ Ha). cbn. congruence.
  - destruct cmd; cbn in Ha; try (apply (Hone _ Ha); cbn; congruence); [|injection Ha as <-; discriminate Hw].
    apply bind_Ok in Ha as ([] & _ & Ha). destruct (one_edge edges) as [e|] eqn:Ho; [|done].
    destruct (add_transport http sse cwd argv); [|done]. injection Ha as <-. cbn in Hw. injection Hw as <- _. by apply Hsingle.
  - destruct cmd; cbn in Ha; run_ok; discriminate Hw.
Qed.

(** A command that works on an Edge works on the one that [-e] names and on no
    other: the daemon gets the operation for that name, and a daemon with the same
    configuration carries it out on an entry of that name. Without such an entry
    nothing is sent. [-e] on a command that does not take it is an error. *)
Theorem commands_reach_named_edge cli a edge op :
  action cli = Ok a -> work_of a = Ok (Some (edge, op)) ->
  cli_edges cli = [edge] /\
  forall refreshed fs config, load_config fs = Ok config ->
    (forall frame, start_frame refreshed fs edge op = Ok frame ->
       exists cfg, cfg ∈ cfg_edges config /\ ec_name cfg = edge /\
         handle_client (P := ProxyAdmin) (edge_table config) frame = Ok (Some (DispatchWork cfg op))) /\
    ((forall cfg, cfg ∈ cfg_edges config -> ec_name cfg <> edge) -> exists e, start_frame refreshed fs edge op = Err e).
Proof.
  intros Ha Hw. split; [by eapply action_work|]. intros refreshed fs config Hl. split.
  - intros frame Hs. unfold start_frame, check_edge in Hs. rewrite Hl in Hs. cbn in Hs.
    apply bind_Ok in Hs as ([] & (u & _ & Hany)%bind_Ok & Hs). apply ensure_Ok, Vec.any_true in Hany as (e & He & Hn).
    breflect. destruct (lookup_edge_table (cfg_edges config) edge ∅) as (cfg & Hf & Hname & [Hin|Hin]); [left; by exists e| |done].
    exists cfg. split; [done|]. split; [done|]. unfold handle_client. rewrite (read_frame_own _ _ _ Hs).
    cbn -[VERSION LOCAL_PROTOCOL_VERSION]. unfold work_request. rewrite from_slice_to_vec.
    cbn -[VERSION LOCAL_PROTOCOL_VERSION]. rewrite !bool_decide_eq_true_2 by done. cbn.
    unfold edge_table, hash_map. by rewrite Hf.
  - intros Hno. unfold start_frame, check_edge. rewrite Hl. destruct refreshed as [u|e]; cbn; [|by eexists].
    destruct (Vec.any _ _) eqn:Hany; [|by eexists]. apply Vec.any_true in Hany as (e & He & Hn). breflect. by destruct (Hno e).
Qed.

Theorem misplaced_edges_are_refused cli :
  cli_edges cli <> [] -> takes_edges (cli_cmd cli) = false -> exists e, action cli = Err e.
Proof.
  intros He Ht. unfold action. rewrite Ht, orb_false_r, bool_decide_eq_false_2 by done. by eexists.
Qed.

(** A proxy command has the effect and the answer of the daemon's table of
    proxies. *)
Theorem proxy_commands_are_local edges bound command running :
  let request := {| lr_version := VERSION; lr_protocol_version := LOCAL_PROTOCOL_VERSION;
                    lr_command := LocalProxy command |} in
  let '(running', r) := handle_proxy (dom edges) bound command running in
  let response := match r with Ok result => RpcOk result | Err e => RpcError (remote_internal e) end in
  sized MAX_FRAME (to_vec request) -> sized MAX_FRAME (to_vec response) ->
  proxy_request (Ok (Some (edges, bound))) command running =
  (running', map_err (fun e => "internal: " ++ e) (Some <$> r)).
Proof.
  cbv zeta. destruct (handle_proxy (dom edges) bound command running) as [running' r] eqn:Eh. intros Hreq Hresp.
  unfold proxy_request, serve_proxy_stream.
  destruct (write_sized Start _ MAX_FRAME Hreq) as [stream Hw]; [done|]. rewrite Hw.
  unfold handle_client. rewrite (read_frame_own _ _ _ Hw). cbn -[VERSION LOCAL_PROTOCOL_VERSION write_frame].
  rewrite from_slice_to_vec. cbn -[VERSION LOCAL_PROTOCOL_VERSION write_frame].
  rewrite !bool_decide_eq_true_2 by done. cbn -[write_frame]. rewrite Eh.
  destruct (write_sized Result_ _ MAX_FRAME Hresp) as [answer Hw']; [done|]. rewrite Hw'.
  rewrite (read_frame_own _ _ _ Hw'). cbn. rewrite from_slice_to_vec. by destruct r.
Qed.
End Reach.
