(* ===== verification/EdgeService.v ===== *)
(** * as-edge: the current-user service (src/crates/as-edge/src/service.rs)

    [install], [status] and [uninstall] for systemd, launchd and the Windows task
    scheduler. They change files and run the service manager, so the state is the
    file system, with absolute paths, and the commands that were run. What a
    program does is a parameter, and so is how each file operation ends. *)
From S2P Require Import Prelude Text Deps Transport Files Protocol McpBridge EdgeNode CommandLine.
Open Scope string_scope.
Open Scope Z_scope.

(** [std::process::Output] *)
Record Output := { out_success : bool; out_stdout : bytes }.

(** What a program leaves of the file system and answers; it is an error where it
    cannot be started. *)
Class Processes := {
  spawn : list string -> Fs string -> Fs string * result string Output;
}.

(** How a file operation ends: a failed one may leave a part of what it writes. *)
Inductive IoCall :=
| CreateDirAll (path : string)
| CopyFile (from to : string)
| WriteFile (path : string)
| RemoveFile (path : string).
Inductive IoOutcome := IoDone | IoFailed | IoPartial (part : bytes).

(** The process environment *)
Record Env := {
  env_agent_scale_home : option string;
  env_home_dir : option string;
  env_localappdata : option string;
  env_user : option string;
  env_current_exe : result string string;
}.

Record Machine := { mc_files : Fs string; mc_ran : list (list string) }.

Inductive Os := Linux | Macos | Windows | OtherOs.

Definition join (dir file : string) : string := dir ++ String "/" file.
Definition join_windows (dir file : string) : string := dir ++ String "092" file.
Definition unlines (lines : list string) : string := fold_right (fun l rest => l ++ newline ++ rest) "" lines.
Definition quoted (s : string) : string := dquote ++ s ++ dquote.

(** [home_base]; it panics without a home directory. *)
Definition home_base (env : Env) : result string string :=
  match env_agent_scale_home env with
  | Some home => Ok home
  | None => home ← of_option (env_home_dir env) "no home directory found"; Ok (join home ".agent-scale")
  end.

(** [who_dir(who)?], as a function of the file below it *)
Definition who_path (env : Env) (who : string) : result string (string -> string) :=
  dir ← who_dir who;
  base ← home_base env;
  Ok (fun file => join base (dir file)).

Definition unit_dir (env : Env) : result string string :=
  home ← of_option (env_home_dir env) "no home directory";
  Ok (join home ".config/systemd/user").

Definition unit_contents (installed who : string) : string := unlines [
  "[Unit]"; "Description=agent-scale edge " ++ who; "After=network-online.target"; "Wants=network-online.target"; "";
  "[Service]"; "ExecStart=" ++ exec_start installed who; "Restart=always"; "RestartSec=2"; "";
  "[Install]"; "WantedBy=default.target"].

Definition launch_agent_path (env : Env) (who : string) : result string string :=
  home ← of_option (env_home_dir env) "no home directory";
  Ok (join (join home "Library/LaunchAgents") (launch_agent_label who ++ ".plist")).

Definition launch_agent_plist (label installed who stdout stderr : string) : string := unlines [
  "<?xml version=" ++ quoted "1.0" ++ " encoding=" ++ quoted "UTF-8" ++ "?>";
  "<!DOCTYPE plist PUBLIC " ++ quoted "-//Apple//DTD PLIST 1.0//EN" ++ " " ++
    quoted "http://www.apple.com/DTDs/PropertyList-1.0.dtd" ++ ">";
  "<plist version=" ++ quoted "1.0" ++ ">";
  "<dict>";
  "  <key>Label</key>";
  "  <string>" ++ xml_text label ++ "</string>";
  "  <key>ProgramArguments</key>";
  "  <array>";
  "    <string>" ++ xml_text installed ++ "</string>";
  "    <string>run</string>";
  "    <string>" ++ xml_text who ++ "</string>";
  "  </array>";
  "  <key>RunAtLoad</key>";
  "  <true/>";
  "  <key>KeepAlive</key>";
  "  <true/>";
  "  <key>ProcessType</key>";
  "  <string>Background</string>";
  "  <key>StandardOutPath</key>";
  "  <string>" ++ xml_text stdout ++ "</string>";
  "  <key>StandardErrorPath</key>";
  "  <string>" ++ xml_text stderr ++ "</string>";
  "</dict>";
  "</plist>"].

Definition task_name (who : string) : string := "AgentScale" ++ String "092" who.

(** The command line of the scheduled task *)
Definition task_command (installed who : string) : string := quoted installed ++ " run " ++ who.

Section Service.
Context `{Processes} (io : IoCall -> IoOutcome) (env : Env).
Notation on_machine A := (handler Machine string A).

(** ** Files and programs *)

Definition with_mc_files (files : Fs string) (m : Machine) : Machine := {| mc_files := files; mc_ran := mc_ran m |}.

Definition write_out (call : IoCall) (path : string) (data : bytes) : on_machine unit := fun m =>
  match io call with
  | IoDone => (with_mc_files (<[path := data]> (mc_files m)) m, Ok tt)
  | IoFailed => (m, Err "write file")
  | IoPartial part => (with_mc_files (<[path := part]> (mc_files m)) m, Err "write file")
  end.

Definition write_file (path contents : string) : on_machine unit :=
  write_out (WriteFile path) path (String.list_byte_of_string contents).

Definition copy_file (from to : string) : on_machine unit :=
  source ← get (fun m => mc_files m !! from);
  data ← lift (of_option source "copy binary");
  write_out (CopyFile from to) to data.

Definition create_dir_all (path : string) : on_machine unit :=
  require (match io (CreateDirAll path) with IoDone => true | _ => false end) "create directory".

Definition remove_file (path : string) : on_machine unit := fun m =>
  match io (RemoveFile path) with
  | IoDone => (with_mc_files (delete path (mc_files m)) m, Ok tt)
  | _ => (m, Err "remove file")
  end.

(** [if path.exists() { remove_file(path)? }] *)
Definition remove_if_exists (path : string) : on_machine unit :=
  present ← get (fun m => mc_files m !! path);
  match present with Some _ => remove_file path | None => mret tt end.

Definition output (argv : list string) : on_machine Output := fun m =>
  let '(files, r) := spawn argv (mc_files m) in ({| mc_files := files; mc_ran := (mc_ran m ++ [argv])%list |}, r).

Definition exit_status (argv : list string) : on_machine bool := o ← output argv; mret (out_success o).

(** [let _ = command.status()] and [.ok()] *)
Definition attempt {A} (action : on_machine A) : on_machine (option A) := fun m =>
  let '(m', r) := action m in (m', Ok (match r with Ok a => Some a | Err _ => None end)).

(** The copy of the running binary into the user's directory *)
Definition install_binary (bin_dir installed : string) : on_machine unit :=
  create_dir_all bin_dir;;
  current ← lift (env_current_exe env);
  if current != installed then copy_file current installed else mret tt.

(** ** Linux *)

(** It answers whether it warned that user lingering is off. *)
Definition linux_install (who : string) : on_machine bool :=
  home ← lift (of_option (env_home_dir env) "no home directory");
  let bin_dir := join home ".local/bin" in
  let installed := join bin_dir "as-edge" in
  install_binary bin_dir installed;;
  dir ← lift (unit_dir env);
  create_dir_all dir;;
  let unit := unit_name who in
  write_file (join dir unit) (unit_contents installed who);;
  reload ← exit_status ["systemctl"; "--user"; "daemon-reload"];
  require reload "systemctl --user daemon-reload failed";;
  start ← exit_status ["systemctl"; "--user"; "enable"; "--now"; unit];
  require start "systemctl --user enable --now failed";;
  lingering ← attempt (output ["loginctl"; "show-user"; default "" (env_user env); "-p"; "Linger"; "--value"]);
  mret (match lingering with
        | Some o => Str.trim (String.string_of_list_byte (from_utf8_lossy (out_stdout o))) != "yes"
        | None => true
        end).

Definition linux_status (who : string) : on_machine unit :=
  lift (who_path env who);;
  running ← exit_status ["systemctl"; "--user"; "status"; unit_name who; "--no-pager"];
  require running "systemd user service is not running".

Definition linux_uninstall (who : string) : on_machine unit :=
  lift (who_path env who);;
  let unit := unit_name who in
  attempt (exit_status ["systemctl"; "--user"; "disable"; "--now"; unit]);;
  dir ← lift (unit_dir env);
  remove_if_exists (join dir unit);;
  attempt (exit_status ["systemctl"; "--user"; "daemon-reload"]);;
  mret tt.

(** ** macOS *)

Definition launch_agent_domain : on_machine string :=
  o ← output ["id"; "-u"];
  require (out_success o) "id -u failed";;
  require (utf8_valid (out_stdout o)) "id -u returned non-UTF-8 output";;
  let uid := Str.trim (String.string_of_list_byte (out_stdout o)) in
  require ((uid != "") && Vec.all (fun c => match digit_value c with Some _ => true | None => false end) (Str.chars uid))
    "id -u returned an invalid uid";;
  mret ("gui/" ++ uid).

Definition launch_agent_target (who : string) : on_machine string :=
  domain ← launch_agent_domain;
  mret (domain ++ "/" ++ launch_agent_label who).

Definition macos_install (who : string) : on_machine unit :=
  home ← lift (of_option (env_home_dir env) "no home directory");
  let bin_dir := join home "Library/Application Support/AgentScale/bin" in
  let installed := join bin_dir "as-edge" in
  install_binary bin_dir installed;;
  state ← lift (who_path env who);
  create_dir_all (state "");;
  path ← lift (launch_agent_path env who);
  create_dir_all (join home "Library/LaunchAgents");;
  let contents := launch_agent_plist (launch_agent_label who) installed who
                    (state "service.stdout.log") (state "service.stderr.log") in
  target ← launch_agent_target who;
  attempt (exit_status ["launchctl"; "bootout"; target]);;
  write_file path contents;;
  domain ← launch_agent_domain;
  start ← exit_status ["launchctl"; "bootstrap"; domain; path];
  require start "launchctl bootstrap failed";;
  kickstart ← exit_status ["launchctl"; "kickstart"; "-k"; target];
  require kickstart "launchctl kickstart failed".

Definition macos_status (who : string) : on_machine unit :=
  lift (who_path env who);;
  target ← launch_agent_target who;
  running ← exit_status ["launchctl"; "print"; target];
  require running "LaunchAgent is not running".

Definition macos_uninstall (who : string) : on_machine unit :=
  lift (who_path env who);;
  path ← lift (launch_agent_path env who);
  target ← launch_agent_target who;
  attempt (exit_status ["launchctl"; "bootout"; target]);;
  remove_if_exists path.

(** ** Windows *)

Definition windows_install (who : string) : on_machine unit :=
  local ← lift (of_option (env_localappdata env) "LOCALAPPDATA is not set");
  let bin_dir := join_windows local "AgentScale/bin" in
  let installed := join_windows bin_dir "as-edge.exe" in
  install_binary bin_dir installed;;
  let task := task_name who in
  create ← exit_status ["schtasks.exe"; "/Create"; "/SC"; "ONLOGON"; "/RL"; "LIMITED"; "/TN"; task; "/TR";
                        task_command installed who; "/F"];
  require create "failed to create scheduled task";;
  start ← exit_status ["schtasks.exe"; "/Run"; "/TN"; task];
  require start "failed to start scheduled task".

Definition windows_status (who : string) : on_machine unit :=
  lift (who_path env who);;
  installed ← exit_status ["schtasks.exe"; "/Query"; "/TN"; task_name who];
  require installed "scheduled task is not installed".

Definition windows_uninstall (who : string) : on_machine unit :=
  lift (who_path env who);;
  deleted ← exit_status ["schtasks.exe"; "/Delete"; "/TN"; task_name who; "/F"];
  require deleted "failed to delete scheduled task".

(** ** The module's functions *)

Definition install (os : Os) (who : string) : on_machine unit :=
  match os with
  | Linux => linux_install who;; mret tt
  | Macos => macos_install who
  | Windows => windows_install who
  | OtherOs => throw "service installation is supported on Linux, macOS, and Windows"
  end.

Definition service_status (os : Os) (who : string) : on_machine unit :=
  match os with
  | Linux => linux_status who
  | Macos => macos_status who
  | Windows => windows_status who
  | OtherOs => throw "service status is supported on Linux, macOS, and Windows"
  end.

Definition uninstall (os : Os) (who : string) : on_machine unit :=
  match os with
  | Linux => linux_uninstall who
  | Macos => macos_uninstall who
  | Windows => windows_uninstall who
  | OtherOs => throw "service uninstall is supported on Linux, macOS, and Windows"
  end.
End Service.

(** ** What the operations change *)

(** The file that defines the service, where the system keeps one *)
Definition service_file (env : Env) (os : Os) (who : string) : option string :=
  match os with
  | Linux => match unit_dir env with Ok dir => Some (join dir (unit_name who)) | Err _ => None end
  | Macos => match launch_agent_path env who with Ok path => Some path | Err _ => None end
  | _ => None
  end.

(** The programs that [uninstall] runs *)
Definition stops (argv : list string) : bool :=
  Vec.any (fun word => bool_decide (word ∈ ["disable"; "daemon-reload"; "bootout"; "/Delete"; "-u"])) argv.

(** The files of an Edge below its directory *)
Definition identity_files : list string := ["agent.key"; "control.json"; "trusted_client"; "mcp.json"].

Section Frame.
Context `{Processes} (io : IoCall -> IoOutcome) (env : Env) (path : string).
Notation on_machine A := (handler Machine string A).

Definition keeps {A} (action : on_machine A) : Prop :=
  forall m, mc_files (action m).1 !! path = mc_files m !! path.
Definition quiet (argv : list string) : Prop := forall fs, (spawn argv fs).1 !! path = fs !! path.

Lemma keeps_ret {A} (a : A) : keeps (mret a). Proof. done. Qed.
Lemma keeps_lift {A} (r : result string A) : keeps (lift r). Proof. done. Qed.
Lemma keeps_require b e : keeps (require b e). Proof. done. Qed.
Lemma keeps_throw {A} e : keeps (throw (A := A) e). Proof. done. Qed.
Lemma keeps_get {A} (f : Machine -> A) : keeps (get f). Proof. done. Qed.
Lemma keeps_bind {A B} (action : on_machine A) (next : A -> on_machine B) :
  keeps action -> (forall a, keeps (next a)) -> keeps (action ≫= next).
Proof.
  intros Ha Hn m. unfold mbind, handler_bind. specialize (Ha m). destruct (action m) as [m1 [a|e]]; cbn in *; [|done].
  by rewrite (Hn a).
Qed.
Lemma keeps_bind_lift {A B} (r : result string A) (next : A -> on_machine B) :
  (forall a, r = Ok a -> keeps (next a)) -> keeps (lift r ≫= next).
Proof. intros Hn m. unfold mbind, handler_bind, lift. destruct r as [a|e]; [by apply Hn|done]. Qed.
Lemma keeps_attempt {A} (action : on_machine A) : keeps action -> keeps (attempt action).
Proof. intros Ha m. unfold attempt. specialize (Ha m). by destruct (action m). Qed.
Lemma keeps_output argv : quiet argv -> keeps (output argv).
Proof. intros Hq m. unfold output. specialize (Hq (mc_files m)). by destruct (spawn argv (mc_files m)). Qed.
Lemma keeps_remove other : path <> other -> keeps (remove_if_exists io other).
Proof.
  intros Hne. apply keeps_bind; [done|]. intros [data|]; [|done]. intros m. unfold remove_file.
  destruct (io _); [|done..]. cbn. by rewrite lookup_delete_ne.
Qed.
Lemma keeps_write call other data : path <> other -> keeps (write_out io call other data).
Proof. intros Hne m. unfold write_out. destruct (io call); cbn; [by rewrite lookup_insert_ne|done|by rewrite lookup_insert_ne]. Qed.
End Frame.

Create HintDb machine.
#[export] Hint Resolve keeps_ret keeps_lift keeps_require keeps_throw keeps_get keeps_attempt keeps_output keeps_remove
  keeps_write : machine.

(** Everything an action does step by step keeps the path. *)
Ltac keeping :=
  repeat first
    [ progress intros
    | apply keeps_attempt
    | apply keeps_remove
    | apply keeps_bind_lift
    | apply keeps_bind
    | progress cbv zeta
    | progress unfold exit_status, launch_agent_target, launch_agent_domain
    | solve [eauto 3 with machine] ].

Lemma join_inj_file dir dir' a b :
  Str.contains "/" a = false -> Str.contains "/" b = false -> join dir a = join dir' b -> dir = dir' /\ a = b.
Proof.
  intros Ha Hb E. apply (f_equal (rsplit_once "/")) in E. unfold join in E.
  rewrite !rsplit_once_app in E by by apply Str.contains_false. by injection E as -> ->.
Qed.

Lemma contains_app c a b : Str.contains c (a +:+ b) = Str.contains c a || Str.contains c b.
Proof.
  induction a as [|x a IH]; [done|]. rewrite Str.append_cons.
  change (Str.contains c (String x ?s)) with ((x == c) || Str.contains c s). by rewrite IH, orb_assoc.
Qed.

Lemma who_dir_Ok who dir : who_dir who = Ok dir ->
  (forall file, dir file = join who file) /\ who <> "" /\ Str.contains "/" who = false /\ Str.contains "092" who = false.
Proof.
  unfold who_dir. intros (u & Hv & [= <-])%bind_Ok. apply ensure_Ok in Hv. breflect. by split_and!.
Qed.

(** Success of a sequence, step by step *)
Lemma hbind_Ok {S E A B} (f : A -> handler S E B) (action : handler S E A) s s' b :
  (action ≫= f) s = (s', Ok b) -> exists a s1, action s = (s1, Ok a) /\ f a s1 = (s', Ok b).
Proof. unfold mbind, handler_bind. destruct (action s) as [s1 [a|e]]; [eauto|done]. Qed.

Lemma lift_Ok {S E A} (r : result E A) (s s' : S) a : lift r s = (s', Ok a) -> s' = s /\ r = Ok a.
Proof. by intros [= -> ->]. Qed.

Ltac bind_ok H :=
  let a := fresh "a" in let s := fresh "s" in let E := fresh "E" in
  apply hbind_Ok in H as (a & s & E & H); cbv beta iota zeta in H.

Section Properties.
Context `{Processes} (io : IoCall -> IoOutcome) (env : Env).

Lemma remove_gone path m m' u : remove_if_exists io path m = (m', Ok u) -> mc_files m' !! path = None.
Proof.
  unfold remove_if_exists. intros Hr. bind_ok Hr. injection E as <- <-. destruct (mc_files m !! path) eqn:Hl.
  - unfold remove_file in Hr. destruct (io _); [|done..]. injection Hr as <- _. cbn. apply lookup_delete_eq.
  - by injection Hr as <- _.
Qed.

Lemma hex_no_slash who : Str.contains "/" (hex_bytes who) = false.
Proof.
  induction who as [|c who IH]; [done|]. cbn [hex_bytes].
  change (Str.contains "/" (String ?a (String ?b ?s))) with ((a == "/"%char) || ((b == "/"%char) || Str.contains "/" s)).
  rewrite IH. destruct c as [[] [] [] [] [] [] [] []]; reflexivity.
Qed.

(** No Edge's own file is the file of a service. *)
Lemma identity_is_no_service os who dir other state file :
  who_dir who = Ok dir -> who_path env other = Ok state -> file ∈ identity_files ->
  Some (state file) <> service_file env os who.
Proof.
  intros Hwho Hw Hf. apply bind_Ok in Hw as (d & Hd & (base & _ & [= <-])%bind_Ok).
  apply who_dir_Ok in Hd as (Hd & _), Hwho as (_ & _ & Hs & _).
  assert (Hc : Str.contains "/" file = false /\ Str.strip_prefix "agent-scale-edge-" file = None /\
    Str.strip_prefix "io.github.ceclin.agent-scale.edge." file = None)
    by (unfold identity_files in Hf; repeat (apply elem_of_cons in Hf as [->|Hf]; [done|]); by apply not_elem_of_nil in Hf).
  destruct Hc as (Hc & Hl & Hm). rewrite Hd.
  assert (Hsplit : forall dir' name, Str.contains "/" name = false -> Some (join base (join other file)) = Some (join dir' name) ->
    file = name).
  { intros dir' name Hn [= E]. replace (join base (join other file)) with (join (join base other) file) in E
      by (unfold join; by rewrite <- append_assoc). by apply join_inj_file in E as [_ E]. }
  unfold service_file, unit_dir, launch_agent_path.
  destruct os; [| |done..]; destruct (env_home_dir env) as [home|]; cbn; [|done| |done]; intros E;
    apply Hsplit in E; unfold unit_name, launch_agent_label in *.
  - subst file. by rewrite Str.strip_prefix_app in Hl.
  - by rewrite !contains_app, Hs.
  - subst file. by rewrite <- append_assoc, Str.strip_prefix_app in Hm.
  - by rewrite !contains_app, hex_no_slash.
Qed.

(** [uninstall] takes the service away and preserves the identity and the
    enrollment, which is what it prints: on success the service's file is gone
    (unless the program after its removal puts one there), and whatever the
    result, no other file changes but by the programs that stop the service. No
    file of an Edge is a service's file. *)
Theorem uninstall_preserves_the_edge os who m m' r :
  uninstall io env os who m = (m', r) ->
  (forall path, Some path <> service_file env os who -> (forall argv, stops argv = true -> quiet path argv) ->
     mc_files m' !! path = mc_files m !! path) /\
  (forall other state file, who_path env other = Ok state -> file ∈ identity_files ->
     (forall argv, stops argv = true -> quiet (state file) argv) ->
     mc_files m' !! state file = mc_files m !! state file) /\
  (r = Ok tt -> forall path, service_file env os who = Some path -> (forall argv, stops argv = true -> quiet path argv) ->
     mc_files m' !! path = None).
Proof.
  intros Hu.
  assert (Hkeep : forall path, Some path <> service_file env os who -> (forall argv, stops argv = true -> quiet path argv) ->
    mc_files m' !! path = mc_files m !! path).
  { intros path Hne Hq. replace m' with (uninstall io env os who m).1 by by rewrite Hu. clear Hu. revert m.
    change (keeps path (uninstall io env os who)). unfold uninstall, service_file in *.
    destruct os; unfold linux_uninstall, macos_uninstall, windows_uninstall; keeping;
      try (apply keeps_output, Hq; reflexivity); intros ->; apply Hne; repeat case_match; congruence. }
  split_and!; [done| |].
  - intros other state file Hs Hf Hq. destruct (who_dir who) as [dir|e] eqn:Hd.
    + apply Hkeep; [by eapply identity_is_no_service|done].
    + replace m' with m; [done|].
      assert (Hw : who_path env who = Err e) by (unfold who_path; by rewrite Hd).
      revert Hu. unfold uninstall, linux_uninstall, macos_uninstall, windows_uninstall, throw.
      destruct os; unfold mbind, handler_bind, lift; rewrite ?Hw; by intros [= <- <-].
  - intros -> path Hp Hq. unfold uninstall, service_file in *. destruct os; [| |done..].
    + unfold linux_uninstall in Hu. repeat bind_ok Hu. apply lift_Ok in E1 as [-> E1]. rewrite E1 in Hp.
      injection Hp as <-. injection Hu as <-. apply remove_gone in E2.
      replace s3 with (attempt (exit_status ["systemctl"; "--user"; "daemon-reload"]) s2).1 by by rewrite E3.
      assert (Hk : keeps (join a1 (unit_name who)) (attempt (exit_status ["systemctl"; "--user"; "daemon-reload"])))
        by (keeping; by apply keeps_output, Hq).
      by rewrite Hk.
    + unfold macos_uninstall in Hu. do 4 bind_ok Hu. apply lift_Ok in E0 as [-> E0]. rewrite E0 in Hp.
      injection Hp as <-. by apply remove_gone in Hu.
Qed.
(** ** A successful installation *)

(** Programs were run, and nothing else happened. *)
Definition only_ran (m m' : Machine) (commands : list (list string)) : Prop :=
  mc_ran m' = (mc_ran m ++ commands)%list /\
  forall path, (forall argv, quiet path argv) -> mc_files m' !! path = mc_files m !! path.

Lemma only_ran_trans m m1 m' c c' : only_ran m m1 c -> only_ran m1 m' c' -> only_ran m m' (c ++ c')%list.
Proof. intros [H1 H2] [H3 H4]. split; [by rewrite H3, H1, app_assoc|]. intros path Hq. by rewrite H4, H2. Qed.

Lemma output_ran argv m m' r : output argv m = (m', r) -> only_ran m m' [argv].
Proof.
  unfold output. destruct (spawn argv (mc_files m)) as [files o] eqn:Es. intros [= <- <-]. split; [done|]. intros path Hq.
  cbn. specialize (Hq argv (mc_files m)). by rewrite Es in Hq.
Qed.

Lemma exit_status_ran argv m m' r : exit_status argv m = (m', r) -> only_ran m m' [argv].
Proof. unfold exit_status. intros [(o & s & E & [= <- <-])|(e & E & ->)]%bind_inv; by eapply output_ran. Qed.

Lemma attempt_ran {A} (action : handler Machine string A) commands m m' r :
  (forall m' r, action m = (m', r) -> only_ran m m' commands) -> attempt action m = (m', r) -> only_ran m m' commands.
Proof. unfold attempt. intros Ha. destruct (action m) as [m1 r1]. intros [= <- _]. by eapply Ha. Qed.

Lemma domain_ran m m' domain : launch_agent_domain m = (m', Ok domain) ->
  only_ran m m' [["id"; "-u"]] /\ exists uid, domain = "gui/" ++ uid.
Proof.
  unfold launch_agent_domain. intros Hd. do 4 bind_ok Hd. injection E0 as <-. injection E1 as <-. injection E2 as <-.
  injection Hd as <- <-. split; [by eapply output_ran|by eexists].
Qed.

Lemma target_ran who m m' target : launch_agent_target who m = (m', Ok target) ->
  only_ran m m' [["id"; "-u"]] /\ exists uid, target = "gui/" ++ uid ++ "/" ++ launch_agent_label who.
Proof.
  unfold launch_agent_target. intros Ht. bind_ok Ht. injection Ht as <- <-. apply domain_ran in E as (E & uid & ->).
  split; [done|]. exists uid. by rewrite <- append_assoc.
Qed.

Lemma write_out_Ok call path data m m' u : write_out io call path data m = (m', Ok u) ->
  m' = with_mc_files (<[path := data]> (mc_files m)) m.
Proof. unfold write_out. destruct (io call); [|done..]. by intros [= <- _]. Qed.

Lemma install_binary_Ok dir installed m m' u : install_binary io env dir installed m = (m', Ok u) ->
  exists current, env_current_exe env = Ok current /\ mc_ran m' = mc_ran m /\
    mc_files m' !! installed = mc_files m !! current.
Proof.
  unfold install_binary. intros Hi. do 2 bind_ok Hi. injection E as <-. apply lift_Ok in E0 as [-> E0]. exists a0. split; [done|].
  case_bool_decide as Hc; cbn in Hi; [by injection Hi as <-; subst|].
  unfold copy_file in Hi. do 2 bind_ok Hi. injection E as <- <-. apply lift_Ok in E1 as [-> E1]. apply write_out_Ok in Hi as ->.
  split; [done|]. cbn. rewrite lookup_insert_eq. by apply of_option_Ok in E1 as ->.
Qed.

Lemma append_cancel (a b c : string) : a +:+ b = a +:+ c -> b = c.
Proof. intros E. apply (f_equal (Str.strip_prefix a)) in E. rewrite !Str.strip_prefix_app in E. by injection E. Qed.

(** Where the binary goes, and what the service's file says *)
Definition binary_path (os : Os) : option string :=
  match os with
  | Linux => (fun home => join (join home ".local/bin") "as-edge") <$> env_home_dir env
  | Macos => (fun home => join (join home "Library/Application Support/AgentScale/bin") "as-edge") <$> env_home_dir env
  | Windows => (fun dir => join_windows (join_windows dir "AgentScale/bin") "as-edge.exe") <$> env_localappdata env
  | OtherOs => None
  end.

Definition service_definition (os : Os) (installed who : string) : option string :=
  match os, who_path env who with
  | Linux, _ => Some (unit_contents installed who)
  | Macos, Ok state => Some (launch_agent_plist (launch_agent_label who) installed who
                        (state "service.stdout.log") (state "service.stderr.log"))
  | _, _ => None
  end.

(** The commands that define and start the service *)
Definition start_commands (os : Os) (uid uid' installed who : string) : list (list string) :=
  match os with
  | Linux => [["systemctl"; "--user"; "daemon-reload"]; ["systemctl"; "--user"; "enable"; "--now"; unit_name who]]
  | Macos => [["launchctl"; "bootstrap"; "gui/" ++ uid; default "" (service_file env Macos who)];
              ["launchctl"; "kickstart"; "-k"; "gui/" ++ uid' ++ "/" ++ launch_agent_label who]]
  | Windows => [["schtasks.exe"; "/Create"; "/SC"; "ONLOGON"; "/RL"; "LIMITED"; "/TN"; task_name who; "/TR";
                 task_command installed who; "/F"]; ["schtasks.exe"; "/Run"; "/TN"; task_name who]]
  | OtherOs => []
  end.

Definition installed_as (os : Os) (who : string) (m m' : Machine) : Prop :=
  exists current installed uid uid' before after,
    env_current_exe env = Ok current /\ binary_path os = Some installed /\
    mc_ran m' = (mc_ran m ++ before ++ start_commands os uid uid' installed who ++ after)%list /\
    ((forall argv, quiet installed argv) -> mc_files m' !! installed = mc_files m !! current) /\
    (forall path, service_file env os who = Some path -> (forall argv, quiet path argv) ->
       exists text, service_definition os installed who = Some text /\
         mc_files m' !! path = Some (String.list_byte_of_string text)).

Lemma linux_installed who m m' w : linux_install io env who m = (m', Ok w) -> installed_as Linux who m m'.
Proof.
  unfold linux_install. intros Hi. bind_ok Hi. apply lift_Ok in E as [-> E]. apply of_option_Ok in E.
  do 4 bind_ok Hi. apply install_binary_Ok in E0 as (current & Hc & Hr & Hb). apply lift_Ok in E1 as [-> E1].
  injection E2 as <-. apply write_out_Ok in E3 as ->.
  do 5 bind_ok Hi. injection E2 as <-. injection E4 as <-. injection Hi as <- _.
  apply exit_status_ran in E0, E3. apply (attempt_ran (output _) _ _ _ _ (output_ran _ _)) in E5.
  pose proof (only_ran_trans _ _ _ _ _ E0 (only_ran_trans _ _ _ _ _ E3 E5)) as [Hran Hk].
  pose proof E1 as Hud. unfold unit_dir in E1. rewrite E in E1. injection E1 as <-.
  eexists current, _, "", "", [], _. split_and!; [done|cbn; by rewrite E|rewrite Hran; cbn; by rewrite Hr| |].
  - intros Hq. rewrite Hk by done. cbn. rewrite lookup_insert_ne; [done|].
    unfold join. rewrite <- !append_assoc. intros Ej%append_cancel. discriminate Ej.
  - intros path Hp Hq. cbn in Hp. rewrite Hud in Hp. injection Hp as <-. eexists. split; [done|].
    rewrite Hk by done. apply lookup_insert_eq.
Qed.

Lemma macos_installed who m m' : macos_install io env who m = (m', Ok tt) -> installed_as Macos who m m'.
Proof.
  unfold macos_install. intros Hi. bind_ok Hi. apply lift_Ok in E as [-> E]. apply of_option_Ok in E.
  do 8 bind_ok Hi. apply install_binary_Ok in E0 as (current & Hc & Hr & Hb). apply lift_Ok in E1 as [-> Hs], E3 as [-> Hp].
  injection E2 as <-. injection E4 as <-. apply target_ran in E5 as (E5 & uid' & ->).
  apply (attempt_ran (exit_status _) _ _ _ _ (exit_status_ran _ _)) in E6. apply write_out_Ok in E7 as ->.
  destruct (only_ran_trans _ _ _ _ _ E5 E6) as [Hran Hk].
  do 4 bind_ok Hi. injection Hi as <-. injection E2 as <-. apply domain_ran in E0 as (E0 & uid & ->).
  apply exit_status_ran in E1, E3. pose proof (only_ran_trans _ _ _ _ _ E0 (only_ran_trans _ _ _ _ _ E1 E3)) as [Hran' Hk'].
  assert (Hf : service_file env Macos who = Some a3) by (cbn; by rewrite Hp).
  eexists current, _, uid, uid', [["id"; "-u"]; ["launchctl"; "bootout"; _]; ["id"; "-u"]], [].
  split_and!; [done|cbn; by rewrite E| | |].
  - rewrite Hran'. cbn [mc_ran with_mc_files]. rewrite Hran, Hr, <- !app_assoc. cbn [start_commands]. by rewrite Hf.
  - intros Hq. rewrite Hk' by done. cbn. rewrite lookup_insert_ne; [by rewrite Hk|].
    unfold launch_agent_path in Hp. rewrite E in Hp. injection Hp as <-.
    unfold join. rewrite <- !append_assoc. intros Ej%append_cancel. discriminate Ej.
  - intros path Hp' Hq. rewrite Hf in Hp'. injection Hp' as <-. eexists. split; [cbn; by rewrite Hs|].
    rewrite Hk' by done. apply lookup_insert_eq.
Qed.

Lemma windows_installed who m m' : windows_install io env who m = (m', Ok tt) -> installed_as Windows who m m'.
Proof.
  unfold windows_install. intros Hi. bind_ok Hi. apply lift_Ok in E as [-> E]. apply of_option_Ok in E.
  do 4 bind_ok Hi. injection Hi as <-. apply install_binary_Ok in E0 as (current & Hc & Hr & Hb).
  injection E2 as <-. apply exit_status_ran in E1, E3.
  destruct (only_ran_trans _ _ _ _ _ E1 E3) as [Hran Hk].
  eexists current, _, "", "", [], []. split_and!; [done|cbn; by rewrite E|by rewrite Hran, Hr| |done].
  intros Hq. by rewrite Hk.
Qed.

End Properties.

Lemma split_unlines lines : Forall (fun line => Str.contains "010" line = false) lines -> text_lines (unlines lines) = lines.
Proof.
  induction 1 as [|line lines Hl _ IH]; [done|].
  change (unlines (line :: lines)) with (line +:+ String "010" (unlines lines)). by rewrite text_lines_app, IH.
Qed.

Lemma contains_replace c d by_ s :
  Str.contains c by_ = false -> Str.contains c s = false -> Str.contains c (replace d by_ s) = false.
Proof.
  intros Hb. induction s as [|a s IH]; [done|]. cbn [replace].
  change (Str.contains c (String a s)) with ((a == c) || Str.contains c s). rewrite contains_app.
  intros [Ha Hs]%orb_false_iff. rewrite IH by done. destruct (a == d); [by rewrite Hb|].
  change (Str.contains c (String a "")) with ((a == c) || false). by rewrite Ha.
Qed.

(** The unit has the lines that are meant, and no more, for every path and name
    without a newline. *)
Theorem unit_has_its_lines installed who :
  Str.contains "010" installed = false -> Str.contains "010" who = false ->
  text_lines (unit_contents installed who) =
    ["[Unit]"; "Description=agent-scale edge " ++ who; "After=network-online.target"; "Wants=network-online.target"; "";
     "[Service]"; "ExecStart=" ++ exec_start installed who; "Restart=always"; "RestartSec=2"; "";
     "[Install]"; "WantedBy=default.target"].
Proof.
  intros Hi Hw.
  assert (Hq : forall value, Str.contains "010" value = false -> Str.contains "010" (systemd_quote value) = false).
  { intros value Hv. unfold systemd_quote. rewrite !contains_app, contains_replace; [done|done|]. by apply contains_replace. }
  apply split_unlines. repeat (apply Forall_cons; split); try reflexivity; [by rewrite contains_app, Hw| |done].
  unfold exec_start. by rewrite !contains_app, !Hq.
Qed.

(** [who_dir] lets a name with a newline pass, and the rest of it is a line of
    the unit. *)
Theorem name_can_add_a_line :
  let who := "a" ++ newline ++ "Environment=X=1" in
  is_ok (who_dir who) = true /\ "Environment=X=1" ∈ text_lines (unit_contents "/bin/as-edge" who).
Proof. split; [reflexivity|]. vm_compute. do 2 right. left. Qed.

(** [status] and [uninstall] refuse a name that is no directory name; on Linux and
    Windows [install] does not look at it, so that the service it starts can
    never run and [uninstall] does not take it away. *)
Theorem install_takes_names_uninstall_refuses `{Processes} env who e m home current binary :
  who_dir who = Err e -> env_home_dir env = Some home -> env_localappdata env = Some home -> env_current_exe env = Ok current ->
  mc_files m !! current = Some binary ->
  (forall argv fs, exists fs' out, spawn argv fs = (fs', Ok {| out_success := true; out_stdout := out |})) ->
  (forall os io, os <> OtherOs -> uninstall io env os who m = (m, Err e) /\ service_status env os who m = (m, Err e)) /\
  (forall os io, os = Linux \/ os = Windows -> (forall call, io call = IoDone) ->
     exists m', install io env os who m = (m', Ok tt)).
Proof.
  intros Hw Hh Hl Hc Hb Hs. assert (Hp : who_path env who = Err e) by (unfold who_path; by rewrite Hw). split.
  - intros os io Hos. unfold uninstall, service_status, linux_uninstall, macos_uninstall, windows_uninstall, linux_status,
      macos_status, windows_status. destruct os; [..|done]; unfold mbind, handler_bind, lift; by rewrite Hp.
  - intros os io Hos Hio.
    assert (Hbin : forall dir installed, exists m1, install_binary io env dir installed m = (m1, Ok tt)).
    { intros dir installed. unfold install_binary, create_dir_all, require, mbind, handler_bind, lift. rewrite Hio, Hc. cbn.
      case_bool_decide; cbn; [by eexists|]. unfold copy_file, mbind, handler_bind, get, lift. rewrite Hb. cbn. unfold write_out.
      rewrite Hio. by eexists. }
    assert (Hexit : forall argv m, exists m1, exit_status argv m = (m1, Ok true)).
    { intros argv m0. unfold exit_status, output, mbind, handler_bind.
      destruct (Hs argv (mc_files m0)) as (fs' & out & ->). by eexists. }
    assert (Htry : forall argv m, exists m1 o, attempt (output argv) m = (m1, Ok o)).
    { intros argv m0. unfold attempt. destruct (output argv m0). by eexists _, _. }
    unfold install. destruct Hos as [-> | ->].
    + unfold linux_install, unit_dir. rewrite Hh. destruct (Hbin (join home ".local/bin") (join (join home ".local/bin") "as-edge")) as [m1 H1].
      destruct (Hexit ["systemctl"; "--user"; "daemon-reload"] (with_mc_files (<[join (join home ".config/systemd/user") (unit_name who) :=
        String.list_byte_of_string (unit_contents (join (join home ".local/bin") "as-edge") who)]> (mc_files m1)) m1)) as [m2 H2].
      destruct (Hexit ["systemctl"; "--user"; "enable"; "--now"; unit_name who] m2) as [m3 H3].
      destruct (Htry ["loginctl"; "show-user"; default "" (env_user env); "-p"; "Linger"; "--value"] m3) as (m4 & o & H4).
      exists m4. unfold create_dir_all, write_file, write_out, require, lift, mbind, handler_bind. cbn [of_option result_bind].
      rewrite H1, !Hio. cbn [ensure result_bind]. rewrite H2. cbn [ensure]. rewrite H3. cbn [ensure]. by rewrite H4.
    + unfold windows_install. rewrite Hl.
      destruct (Hbin (join_windows home "AgentScale/bin") (join_windows (join_windows home "AgentScale/bin") "as-edge.exe")) as [m1 H1].
      eassert (H2 := Hexit _ m1). destruct H2 as [m2 H2]. destruct (Hexit ["schtasks.exe"; "/Run"; "/TN"; task_name who] m2) as [m3 H3].
      exists m3. unfold require, lift, mbind, handler_bind. cbn [of_option]. rewrite H1, H2. cbn [ensure]. by rewrite H3.
Qed.
