(* ===== verification/EdgeCommands.v ===== *)
(** * as-edge: its commands (src/crates/as-edge/src/main.rs)

    The entry point, which is also the entry point of the built-in [fd] and [rg],
    and the commands on the identities below the home directory: [id], [ls],
    [rm], [mcp], what [join] does after enrolling, and the exit status of each.
    Files are those below the home directory, as in EdgeNode.v; the printed lines
    are values. *)
From S2P Require Import Prelude Text Deps RelayApi ControlApi Transport Files Protocol Exec RelayTable EdgePin EdgeNode McpRegistry ClientCommands EdgeService.
Open Scope string_scope.
Open Scope Z_scope.

(** ** Arguments *)

Inductive EdgeMcpCommand :=
| EdgeMcpAdd (name : string) (http sse cwd : option string) (argv : list string)
| EdgeMcpLs
| EdgeMcpRm (name : string).

Record JoinArgs := { ja_join_url : string; ja_foreground : bool; ja_install : bool }.

Inductive ServiceCommand := ServiceInstall (who : string) | ServiceStatus (who : string) | ServiceUninstall (who : string).

Record RunArgs := {
  ra_who : option string;
  ra_relays : list string;
  ra_client : option string;
  ra_secret_key_file : option string;
}.

Inductive EdgeCmd :=
| CmdJoin (args : JoinArgs)
| CmdRun (args : RunArgs)
| CmdId (who : string)
| CmdLs
| CmdRm (who : string)
| CmdMcp (who : string) (command : EdgeMcpCommand)
| CmdService (command : ServiceCommand).

(** ** The entry point *)

Inductive Tool := ToolFd | ToolRg | ToolAgent.

(** [Path::file_stem] of a path that does not end in a separator *)
Definition file_stem (path : string) : string :=
  let name := match rsplit_once "/" path with Some (_, name) => name | None => path end in
  match rsplit_once "." name with
  | Some (EmptyString, _) => name
  | Some (stem, _) => if name == ".." then "" else stem
  | None => name
  end.

(** What [main] runs, by the marker in the environment or by its name *)
Definition edge_main (arg0 : string) (builtin : option string) : Tool :=
  let which := default (file_stem arg0) builtin in
  if which == "fd" then ToolFd else if which == "rg" then ToolRg else ToolAgent.

(** The environment's value of a variable, for a child of this process *)
Definition child_env (inherited : option string) (cmd : Command) (name : string) : option string :=
  match Vec.find (fun entry => entry.1 == name) (cmd_env cmd) with
  | Some (_, value) => Some value
  | None => inherited
  end.

(** ** Identities *)

Section EdgeCommands.
Context `{Keys, Encodings, !ControlSerde, !Urls, !RelayUrls, !SerdePretty ControlProfile, !KeyBytes}.
Context `{!SerdePretty RegistryFile}.
Implicit Types (fs : Fs string).
Notation command A := (handler (Fs string) string A).

(** [resolve_key_path], as the directory of the key's siblings; [with_file_name]
    of an explicit path is a parameter. *)
Definition resolve_key_path (siblings : string -> string -> string) (who key_file : option string)
  : result string (string -> string) :=
  match key_file, who with
  | Some path, _ => Ok (siblings path)
  | None, Some who => who_dir who
  | None, None => Err "specify WHO (e.g. `run me --relay ...`) or --secret-key-file <PATH>"
  end.

(** [id]: the line, or the exit status and the message *)
Definition cmd_id (generated : SecretKey) (outcome : WriteOutcome) (who : string) : handler (Fs string) (Z * string) string :=
  fun fs =>
  match who_dir who with
  | Err e => (fs, Err (2, e))
  | Ok dir =>
      let '(fs, r) := load_or_create_secret generated outcome (dir "agent.key") fs in
      (fs, key ← map_err (fun e => (1, e)) r; Ok (id_to_string (public key)))
  end.

(** The entries of the home directory, sorted *)
Definition first_component (path : string) : string :=
  match Str.split_once "/" path with Some (dir, _) => dir | None => path end.
Definition home_entries fs : list string := (btree_iter (gset_to_gmap tt (set_map first_component (dom fs)))).*1.

(** [read_to_string(path).ok()] *)
Definition read_text fs (path : string) : option string :=
  data ← fs !! path;
  if utf8_valid data then Some (String.string_of_list_byte data) else None.

(** The lines of one identity *)
Definition ls_entry fs (who : string) (keyfile : bytes) : list string :=
  let id := if Nat.eqb (length keyfile) 32 then id_to_string (public (key_from_bytes keyfile)) else "<unreadable>" in
  let pinned := match Str.trim <$> read_text fs (join who "trusted_client") with
                | Some "" | None => None
                | Some client => Some client
                end in
  ([who; "  endpoint_id:   " +:+ id] ++
  match fs !! join who "control.json" with
  | Some data =>
      match from_slice (T := ControlProfile) data with
      | Some profile =>
          ["  control:       " +:+ pr_control_url profile;
           "  owner:         " +:+ String.concat ", " (nm_allowed_clients (snm_map (pr_map profile)))]
      | None => ["  control:       <unreadable>"]
      end
  | None =>
      match pinned with
      | Some client => ["  trusts client: " +:+ client]
      | None => ["  trusts client: (none pinned yet)"]
      end
  end)%list.

(** The identities that [ls] finds, in order *)
Definition identities fs : list (string * bytes) :=
  omap (fun who => (fun key => (who, key)) <$> fs !! join who "agent.key") (home_entries fs).

Definition cmd_ls fs : list string :=
  match identities fs with
  | [] => ["no agents (create one with `as-edge run <who>`)"]
  | found => concat ((fun entry => ls_entry fs entry.1 entry.2) <$> found)
  end.

(** [remove_dir_all]: a failure leaves a part of the files. *)
Inductive RemoveOutcome := Removed | RemoveFailed (kept : string -> bool).

Definition below (dir path : string) : bool :=
  match Str.strip_prefix (join dir "") path with Some _ => true | None => false end.

Definition remove_dir_all (outcome : RemoveOutcome) (dir : string) : command unit := fun fs =>
  match outcome with
  | Removed => (filter (fun entry => below dir entry.1 = false) fs, Ok tt)
  | RemoveFailed kept => (filter (fun entry => below dir entry.1 = false \/ kept entry.1 = true) fs, Err "remove directory")
  end.

Definition cmd_rm (outcome : RemoveOutcome) (who : string) : command unit :=
  dir ← lift (who_dir who);
  key ← get (fun fs => fs !! dir "agent.key");
  require (key != None) "no agent with this name";;
  remove_dir_all outcome who.

(** ** MCP definitions *)

Definition cmd_mcp (outcome : WriteOutcome) (who : string) (cmd : EdgeMcpCommand) : command (list string) :=
  dir ← lift (who_dir who);
  let path := dir "mcp.json" in
  match cmd with
  | EdgeMcpAdd name http sse cwd argv =>
      updated ← cmd_mcp_add outcome path name http sse cwd argv;
      mret [(if updated : bool then "updated" else "added") ++ " MCP '" ++ name ++ "'"]
  | EdgeMcpLs =>
      catalog ← registry_list path;
      mret (print_mcp_catalog catalog)
  | EdgeMcpRm name =>
      registry_remove outcome path name;;
      mret ["removed MCP '" ++ name ++ "'"]
  end.

(** ** What [join] does once the Edge is enrolled *)

Definition ascii_lower (c : ascii) : ascii :=
  let n := N_of_ascii c in if ((65 <=? n) && (n <=? 90))%N then ascii_of_N (n + 32) else c.
Fixpoint to_ascii_lowercase (s : string) : string :=
  match s with EmptyString => EmptyString | String c s => String (ascii_lower c) (to_ascii_lowercase s) end.

(** [terminal] is the answer typed there, where standard input is one. *)
Definition wants_service (args : JoinArgs) (terminal : option (result string string)) : result string bool :=
  if ja_foreground args then Ok false
  else if ja_install args then Ok true
  else match terminal with
       | Some answer =>
           answer ← answer;
           let answer := to_ascii_lowercase (Str.trim answer) in
           Ok (negb ((answer == "n") || (answer == "no")))
       | None => Err "non-interactive join requires --foreground or --install"
       end.

(** The whole of [join_control]: the enrollment, then the service or the Edge in
    the foreground, which are the rest of the process. *)
Inductive AfterJoin := InstallService (who : string) | RunForeground (args : RunArgs).

Definition join_command (args : JoinArgs) (terminal : option (result string string)) (generated : SecretKey)
  (key_outcome : WriteOutcome) (issued_at : Z) (nonce : string) (respond : ClaimRequest -> result string JoinResult)
  (outcome : WriteOutcome) : command AfterJoin :=
  enrolled ← join_control (ja_join_url args) generated key_outcome issued_at nonce respond outcome;
  let who := enrolled.1 in
  service ← lift (wants_service args terminal);
  mret (if service : bool then InstallService who
        else RunForeground {| ra_who := Some who; ra_relays := []; ra_client := None; ra_secret_key_file := None |}).

(** ** Exit statuses *)

(** [agent_main]: the exit status by what the command's function returned; for
    [id] the error carries it. [run] logs its error. *)
Definition exit_code (cmd : EdgeCmd) (outcome : result (Z * string) unit) : Z :=
  match cmd, outcome with
  | _, Ok _ => 0
  | CmdRun _, Err _ => 0
  | CmdId _, Err (code, _) => code
  | _, Err _ => 1
  end.
End EdgeCommands.

(** ** The built-in tools *)

(** An Edge that runs a built-in command runs its own binary as that tool, under
    whatever name the binary has; any other command is run as it is. *)
Theorem builtin_commands_reach_their_tool params arg0 :
  edge_main arg0 (child_env None (build_command params) BUILTIN_ENV) =
    (if ex_command params == "fd" then ToolFd else if ex_command params == "rg" then ToolRg else edge_main arg0 None) /\
  (cmd_program (build_command params) = CurrentExe <-> ex_command params = "fd" \/ ex_command params = "rg").
Proof.
  assert (Hb : ex_command params ∈ BUILTIN_COMMANDS <-> ex_command params = "fd" \/ ex_command params = "rg")
    by (unfold BUILTIN_COMMANDS; set_solver).
  unfold build_command. case_bool_decide as Hc; cbn; split; [| | |by split; [|tauto]].
  - unfold child_env, edge_main. cbn. by destruct (proj1 Hb Hc) as [-> | ->].
  - by split; [tauto|].
  - rewrite !bool_decide_eq_false_2 by tauto. done.
Qed.

Lemma first_component_join who file : Str.contains "/" who = false -> first_component (join who file) = who.
Proof. intros Hw. unfold first_component, join. by rewrite Str.split_once_app by by apply Str.contains_false. Qed.

Lemma elem_of_home_entries (fs : Fs string) who :
  who ∈ home_entries fs <-> exists path data, fs !! path = Some data /\ first_component path = who.
Proof.
  unfold home_entries. rewrite list_elem_of_fmap. split.
  - intros ([k []] & -> & Hk%elem_of_btree_iter). apply lookup_gset_to_gmap_Some in Hk as [Hk _].
    apply elem_of_map in Hk as (path & -> & [data Hd]%elem_of_dom). by exists path, data.
  - intros (path & data & Hd & <-). exists (first_component path, tt). split; [done|]. apply elem_of_btree_iter.
    apply lookup_gset_to_gmap_Some. split; [|done]. apply elem_of_map. exists path. split; [done|]. by apply elem_of_dom.
Qed.

Lemma elem_of_identities (fs : Fs string) who key :
  Str.contains "/" who = false -> (who, key) ∈ identities fs <-> fs !! join who "agent.key" = Some key.
Proof.
  intros Hw. unfold identities. rewrite list_elem_of_omap. split.
  - intros (x & _ & Hx). destruct (fs !! join x "agent.key") eqn:E; [|done]. cbn in Hx. congruence.
  - intros Hk. exists who. rewrite Hk. split; [|done]. apply elem_of_home_entries. eexists _, key. split; [done|].
    by apply first_component_join.
Qed.

Section Theorems.
Context `{Keys, Encodings, !ControlSerde, !Urls, !RelayUrls, !SerdePretty ControlProfile, !KeyBytes, !KeyBytesLaws}.
Context `{!SerdePrettyLaws ControlProfile}.

Lemma read_secret_line (fs : Fs string) path data key :
  read_secret fs path = Some (Ok key) -> fs !! path = Some data ->
  length data = 32%nat /\ key_from_bytes data = key.
Proof.
  unfold read_secret. intros Hr Hd. rewrite Hd in Hr. cbn in Hr. injection Hr as Hr. run_ok. breflect.
  split; [by apply Nat.eqb_eq|done].
Qed.

(** [id] prints an identity that stays: asking again prints the same, creates
    nothing, and [ls] shows it under its name. *)
Theorem printed_identity_stays generated outcome who (fs fs' : Fs string) line :
  cmd_id generated outcome who fs = (fs', Ok line) ->
  (forall generated' outcome', cmd_id generated' outcome' who fs' = (fs', Ok line)) /\
  exists key, (who, key) ∈ identities fs' /\ take 2 (ls_entry fs' who key) = [who; "  endpoint_id:   " ++ line].
Proof.
  unfold cmd_id. destruct (who_dir who) as [dir|e] eqn:Hd; [|done].
  destruct (load_or_create_secret generated outcome (dir "agent.key") fs) as [fs1 r] eqn:Hl. intros [= <- Hr].
  destruct r as [key|e]; [|done]. injection Hr as <-. apply load_key_readable in Hl; [|done]. split.
  - intros generated' outcome'. unfold load_or_create_secret. by rewrite Hl.
  - apply who_dir_Ok in Hd as (Hd & _ & Hs & _). rewrite Hd in Hl. unfold read_secret in Hl.
    destruct (fs1 !! join who "agent.key") as [data|] eqn:Hk; [|done]. exists data.
    split; [by apply elem_of_identities|]. destruct (read_secret_line fs1 (join who "agent.key") data key) as [Hlen <-];
      [unfold read_secret; by rewrite Hk|done|].
    unfold ls_entry. by rewrite Hlen.
Qed.

(** [rm] takes away everything of the one Edge and nothing of another. What is
    started under the name afterwards, by hand or by a service that was left
    installed, is a new identity in simple mode that pins the first client, also
    where the Edge was enrolled in Control. *)
Theorem removed_edge_starts_anew outcome who (fs fs' : Fs string) r :
  cmd_rm outcome who fs = (fs', r) ->
  (forall path, below who path = false -> fs' !! path = fs !! path) /\
  (r = Ok tt -> forall dir, who_dir who = Ok dir ->
     (forall file, fs' !! dir file = None) /\ (forall key, (who, key) ∉ identities fs') /\
     forall generated, exists fs'' node,
         load_or_create_secret generated Written (dir "agent.key") fs' = (fs'', Ok generated) /\
         run_iroh_edge generated dir [] None fs'' = Ok node /\ en_profile node = None /\
         auth (sv_pin (en_serving node)) = tofu None (dir "trusted_client")).
Proof.
  unfold cmd_rm. intros Hr. destruct (who_dir who) as [dir|e] eqn:Hd; [|injection Hr as <- <-; by split].
  destruct (who_dir_Ok who dir Hd) as (Hdir & _ & Hs & _). hstep Hr; [injection E as <-|done]. hstep Hr. hstep Hr; [|done].
  split.
  - intros path Hp. unfold remove_dir_all in Hr. destruct outcome; injection Hr as <- _; rewrite map_lookup_filter;
      (destruct (fs !! path) eqn:Ef; cbn; [rewrite option_guard_True; [done|by auto]|done]).
  - intros -> dir' [= <-]. unfold remove_dir_all in Hr. destruct outcome; [|done]. injection Hr as <-.
    assert (Hgone : forall file, filter (fun entry => below who entry.1 = false) fs !! dir file = None).
    { intros file. apply map_lookup_filter_None. right. intros data _. cbn. unfold below. rewrite Hdir.
      replace (join who file) with (join who "" +:+ file) by (unfold join; by rewrite <- append_assoc).
      by rewrite Str.strip_prefix_app. }
    split_and!; [done|intros key; rewrite elem_of_identities, <- Hdir, Hgone by done; done|].
    intros generated. unfold load_or_create_secret, read_secret. rewrite Hgone. cbn [mbind option_bind atomic_write].
    assert (Hrest : forall file, file <> "agent.key" ->
      <[dir "agent.key" := key_to_bytes generated]> (filter (fun entry => below who entry.1 = false) fs) !! dir file = None).
    { intros file Hf. rewrite lookup_insert_ne; [apply Hgone|]. rewrite !Hdir. intros Ej. apply append_cancel in Ej. congruence. }
    eexists _, _. split; [done|]. unfold run_iroh_edge, load_control_profile. rewrite Hrest by done. cbn.
    unfold load_pin. rewrite Hrest by done. cbn. done.
Qed.

(** A [join] without a terminal and without [--foreground] or [--install] fails,
    but only after the Edge is enrolled and the invitation used: the same command
    then refuses, whatever its flags. *)
Theorem noninteractive_join_is_not_repeatable args generated key_outcome issued_at nonce respond outcome (fs fs' : Fs string) e :
  ja_foreground args = false -> ja_install args = false ->
  join_command args None generated key_outcome issued_at nonce respond outcome fs = (fs', Err e) ->
  (exists who profile, join_control (ja_join_url args) generated key_outcome issued_at nonce respond outcome fs = (fs', Ok (who, profile))) ->
  e = "non-interactive join requires --foreground or --install" /\
  forall args' terminal generated' key_outcome' issued_at' nonce' respond' outcome',
    ja_join_url args' = ja_join_url args ->
    join_command args' terminal generated' key_outcome' issued_at' nonce' respond' outcome' fs' =
      (fs', Err "edge is already enrolled in control").
Proof.
  intros Hf Hi J (who & profile & Hj). unfold join_command in *.
  rewrite (bind_eq_Ok _ _ _ _ _ Hj) in J. cbv zeta in J. unfold wants_service in J. rewrite Hf, Hi in J. injection J as <-.
  split; [done|]. intros args' terminal generated' key_outcome' issued_at' nonce' respond' outcome' Hu. rewrite Hu.
  assert (He : join_control (ja_join_url args) generated' key_outcome' issued_at' nonce' respond' outcome' fs' =
    (fs', Err "edge is already enrolled in control")); [|unfold mbind, handler_bind; by rewrite He].
  unfold join_control in *. do 4 (hstep Hj; try done). cbv zeta in Hj. do 4 (hstep Hj; try done).
  apply bind_inv in Hj as [(key & fs1 & L & Hj)|(? & _ & ?)]; [|done]. do 3 (hstep Hj; try done).
  apply bind_inv in Hj as [([] & fs2 & P & Hj)|(? & _ & ?)]; [|done]. injection Hj as <- _ _.
  unfold persist_profile, write_json, atomic_write in P. destruct outcome; try done. injection P as <-.
  unfold lift, require, get, mbind, handler_bind. rewrite E, E0, E1, E2, E3. cbn [ensure]. rewrite E4, lookup_insert_eq. done.
Qed.
End Theorems.
