(* ===== verification/Xtask.v ===== *)
(** * xtask: repository tasks (src/xtask/src/main.rs)

    [init] brings the upstream checkouts to the revisions of
    scripts/upstreams.lock, and every other task starts with it. What git, cargo
    and the other programs do is a parameter; the trace records each command with
    its outcome. *)
From S2P Require Import Prelude Text Transport McpBridge EdgeService.
Open Scope string_scope.
Open Scope Z_scope.

(** ** Commands *)

(** A program with its arguments and the variables set for it *)
Record Cmdline := { c_program : string; c_args : list string; c_env : list (string * string) }.

#[global] Instance cmdline_eq : EqDecision Cmdline. Proof. solve_decision. Defined.

Inductive PathKind := Missing | NotDirectory | Directory (entries : result string nat).

(** The machine: running a program, and what is at a path *)
Class Workspace (World : Type) := {
  execute : Cmdline -> World -> World * result string Output;
  path_kind : World -> string -> PathKind;
  make_dirs : string -> World -> World * result string unit;
  which : World -> string -> bool;
}.

Notation Trace := (list (Cmdline * result string Output)).
Record TaskState World := { m_world : World; m_trace : Trace }.
Arguments m_world {_}.
Arguments m_trace {_}.

Definition CARGO_DENY_PACKAGE : string := "cargo-deny@0.20.2".
Definition TAPLO_PACKAGE : string := "taplo-cli@0.10.0".
Definition TYPOS_PACKAGE : string := "typos-cli@1.49.0".

Inductive Task :=
| Build | TaskCheck | E2e | TaskInit | Lint | Quality | Dist | TaskTest
| Zigbuild (targets : list string).

Definition cargo (args : list string) : Cmdline := {| c_program := "cargo"; c_args := args; c_env := [] |}.
Definition script (name : string) (args : list string) : Cmdline := {| c_program := name; c_args := args; c_env := [] |}.
Definition with_env (name value : string) (c : Cmdline) : Cmdline :=
  {| c_program := c_program c; c_args := c_args c; c_env := (c_env c ++ [(name, value)])%list |}.

(** [git(directory)] with its arguments *)
Definition git (directory : string) (args : list string) : Cmdline :=
  {| c_program := "git"; c_args := ("-C" :: directory :: args)%list; c_env := [] |}.

Definition out_text (o : Output) : string := String.string_of_list_byte (out_stdout o).

Section Tasks.
Context {World : Type} `{Workspace World}.
Notation on_machine A := (handler (TaskState World) string A).

Definition capture (c : Cmdline) : on_machine Output := fun m =>
  let '(w, r) := execute c (m_world m) in
  ({| m_world := w; m_trace := (m_trace m ++ [(c, r)])%list |}, r).

Definition run (c : Cmdline) : on_machine unit :=
  o ← capture c;
  require (out_success o) "repository command failed".

Definition stdout (c : Cmdline) : on_machine string :=
  o ← capture c;
  require (out_success o) "repository command failed";;
  require (utf8_valid (out_stdout o)) "repository command returned non-UTF-8 output";;
  mret (out_text o).

Definition create_dir_all (path : string) : on_machine unit := fun m =>
  let '(w, r) := make_dirs path (m_world m) in ({| m_world := w; m_trace := m_trace m |}, r).

(** ** [init_upstream] *)

(** Whether something is at the path that must not be replaced *)
Definition occupied (kind : PathKind) : result string bool :=
  match kind with
  | Missing => Ok false
  | NotDirectory => Ok true
  | Directory entries => n ← entries; Ok (negb (Nat.eqb n 0))
  end.

(** The part for a destination that is no repository *)
Definition create_repository (destination repository : string) : on_machine unit :=
  kind ← get (fun m => path_kind (m_world m) destination);
  taken ← lift (occupied kind);
  require (negb taken) "refusing to replace non-git directory";;
  create_dir_all destination;;
  run (git destination ["init"; "--quiet"]);;
  run (git destination ["remote"; "add"; "origin"; repository]).

Definition fetch_revision (destination revision : string) : on_machine unit :=
  run (git destination ["fetch"; "--depth"; "1"; "origin"; revision]);;
  run (git destination ["-c"; "advice.detachedHead=false"; "checkout"; "--detach"; revision]).

Definition init_upstream (root name repository revision : string) : on_machine unit :=
  require ((name == "fd") || (name == "ripgrep")) "unsupported upstream name";;
  let destination := join root name in
  probe ← capture (git destination ["rev-parse"; "--git-dir"]);
  (if out_success probe then mret tt else create_repository destination repository);;
  actual_repository ← stdout (git destination ["remote"; "get-url"; "origin"]);
  require (Str.trim actual_repository == repository) "unexpected origin";;
  status ← stdout (git destination ["status"; "--porcelain"]);
  require (status == "") "refusing to overwrite local changes";;
  current ← capture (git destination ["rev-parse"; "HEAD"]);
  (if negb (out_success current) ||
      (Str.trim (String.string_of_list_byte (from_utf8_lossy (out_stdout current))) != revision)
   then fetch_revision destination revision else mret tt);;
  actual_revision ← stdout (git destination ["rev-parse"; "HEAD"]);
  require (Str.trim actual_revision == revision) "unexpected revision".

(** ** [init_upstreams] *)

(** A line of the lock file, trimmed: nothing, or an entry *)
Definition lock_entry (line : string) : result string (option (string * string * string)) :=
  let line := Str.trim line in
  if (line == "") || (match Str.strip_prefix "#" line with Some _ => true | None => false end) then Ok None
  else match split_whitespace line with
       | [name; repository; revision] => Ok (Some (name, repository, revision))
       | _ => Err "invalid upstream lock entry"
       end.

(** The loop over the lines: entries before a bad line are initialized. *)
Fixpoint init_lines (root : string) (lines : list string) : on_machine unit :=
  match lines with
  | [] => mret tt
  | line :: lines =>
      entry ← lift (lock_entry line);
      match entry with
      | Some (name, repository, revision) => init_upstream root name repository revision
      | None => mret tt
      end;;
      init_lines root lines
  end.

(** [configured] is the environment variable, [lock] the content of the file. *)
Definition upstream_root (workspace : string) (configured : option string) : string :=
  let root := default ".upstreams" configured in
  match Str.strip_prefix "/" root with Some _ => root | None => join workspace root end.

Definition init_upstreams (workspace : string) (configured : option string) (lock : result string string) : on_machine unit :=
  let root := upstream_root workspace configured in
  lock ← lift lock;
  init_lines root (text_lines lock).

(** ** The tasks *)

Definition ensure_tool (binary package : string) : on_machine unit :=
  found ← get (fun m => which (m_world m) binary);
  if found : bool then mret tt else run (cargo ["install"; "--locked"; package]).

Definition rust_checks : on_machine unit :=
  run (cargo ["clippy"; "--workspace"; "--exclude"; "fd-lib"; "--exclude"; "rg-lib"; "--all-features"; "--all-targets";
              "--no-deps"; "--"; "-D"; "warnings"]);;
  run (cargo ["check"; "--locked"; "-p"; "fd-lib"; "-p"; "rg-lib"]);;
  run (with_env "RUSTDOCFLAGS" "-D warnings"
    (cargo ["doc"; "--workspace"; "--exclude"; "fd-lib"; "--exclude"; "rg-lib"; "--all-features"; "--no-deps"])).

Definition repository_quality : on_machine unit :=
  run (cargo ["fmt"; "--all"; "--"; "--check"]);;
  run (script "./scripts/sync-deps.py" ["--check"]);;
  run (script "./scripts/generate-licenses.sh" ["--check"]);;
  ensure_tool "taplo" TAPLO_PACKAGE;;
  run (script "taplo" ["format"; "--check"]);;
  ensure_tool "typos" TYPOS_PACKAGE;;
  run (script "typos" []);;
  ensure_tool "cargo-deny" CARGO_DENY_PACKAGE;;
  run (cargo ["deny"; "check"]).

Definition lint : on_machine unit := repository_quality;; rust_checks.

Fixpoint run_scripts (scripts : list string) : on_machine unit :=
  match scripts with
  | [] => mret tt
  | name :: scripts => run (script name []);; run_scripts scripts
  end.

Definition e2e_scripts : list string :=
  ["./scripts/e2e-2b.sh"; "./scripts/e2e-proxy.sh"; "./scripts/e2e-private-relay.sh"; "./scripts/e2e-control.sh"].

Definition perform (task : Task) : on_machine unit :=
  match task with
  | Build => run (cargo ["build"; "--workspace"; "--all-targets"; "--locked"])
  | TaskCheck => rust_checks
  | E2e => run_scripts e2e_scripts
  | TaskInit => mret tt
  | Lint => lint
  | Quality => repository_quality
  | Dist => run (with_env "PROFILE" "dist" (script "./scripts/zigbuild.sh" []))
  | TaskTest => run (cargo ["test"; "--workspace"; "--exclude"; "fd-lib"; "--exclude"; "rg-lib"; "--all-targets"; "--locked"])
  | Zigbuild targets => run (with_env "PROFILE" "release" (script "./scripts/zigbuild.sh" targets))
  end.

(** [main]: [init] is the first part of every task, and the whole of its own. *)
Definition xtask_main (workspace : string) (configured : option string) (lock : result string string) (task : Task)
  : on_machine unit :=
  init_upstreams workspace configured lock;;
  perform task.
End Tasks.

(** ** What the tasks do to a checkout *)

(** The checkout that a command may overwrite: [fetch], or [checkout] after its
    [-c] option *)
Definition overwrites (c : Cmdline) : option string :=
  match c_args c with
  | _ :: dest :: verb :: _ =>
      if (c_program c == "git") && ((verb == "fetch") || (verb == "-c")) then Some dest else None
  | _ => None
  end.

Definition status_command (dest : string) : Cmdline := git dest ["status"; "--porcelain"].
Definition head_command (dest : string) : Cmdline := git dest ["rev-parse"; "HEAD"].
Definition origin_command (dest : string) : Cmdline := git dest ["remote"; "get-url"; "origin"].

(** A command was run, succeeded, and printed something with the property. *)
Definition answered (c : Cmdline) (P : string -> Prop) (ran : Trace) : Prop :=
  exists o, (c, Ok o) ∈ ran /\ out_success o = true /\ P (out_text o).

(** Every overwriting command comes after git said that there are no local
    changes in its checkout. *)
Definition safe (ran : Trace) : Prop :=
  forall before c x after dest, ran = (before ++ (c, x) :: after)%list -> overwrites c = Some dest ->
    answered (status_command dest) (fun text => text = "") before.

Lemma safe_snoc ran c x :
  safe ran -> (forall dest, overwrites c = Some dest -> answered (status_command dest) (fun text => text = "") ran) ->
  safe (ran ++ [(c, x)]).
Proof.
  intros Hs Hc before c' x' after dest E Ho. destruct after as [|y after _] using rev_ind.
  - apply app_inj_tail in E as [-> [= -> ->]]. by apply Hc.
  - rewrite app_comm_cons, app_assoc in E. apply app_inj_tail in E as [-> _]. by eapply Hs.
Qed.

Lemma answered_app c P ran more : answered c P ran -> answered c P (ran ++ more).
Proof. intros (o & Ho & Hr). exists o. split; [|done]. apply elem_of_app. by left. Qed.
Lemma answered_snoc c P ran o : out_success o = true -> P (out_text o) -> answered c P (ran ++ [(c, Ok o)]).
Proof. intros Hs Hp. exists o. split; [|done]. apply elem_of_app. right. apply list_elem_of_here. Qed.

Section Logic.
Context {World : Type} `{Workspace World}.
Notation on_machine A := (handler (TaskState World) string A).
Context (start : Trace).

(** From a safe trace after [start], the action extends it to a safe one, with
    [Q] where it succeeds. *)
Definition safely {A} (ran : Trace) (action : on_machine A) (Q : A -> Trace -> Prop) : Prop :=
  forall m, m_trace m = (start ++ ran)%list -> safe ran ->
    exists more, m_trace (action m).1 = (start ++ ran ++ more)%list /\ safe (ran ++ more) /\
      forall a, (action m).2 = Ok a -> Q a (ran ++ more)%list.

Lemma safely_bind {A B} ran (action : on_machine A) (next : A -> on_machine B) Q R :
  safely ran action Q -> (forall a ran', Q a ran' -> safely ran' (next a) R) -> safely ran (action ≫= next) R.
Proof.
  intros Ha Hn m Hm Hs. destruct (Ha m Hm Hs) as (more & Ht & Hsafe & Hq). unfold mbind, handler_bind.
  destruct (action m) as [m1 [a|e]]; cbn in *; [|by exists more].
  destruct (Hn a _ (Hq a eq_refl) m1) as (more' & Ht' & Hs' & Hr); [by rewrite Ht|done|].
  exists (more ++ more')%list. rewrite <- !app_assoc in *. by split_and!.
Qed.

Lemma safely_pure {A} ran (action : on_machine A) (Q : A -> Trace -> Prop) :
  (forall m, m_trace (action m).1 = m_trace m /\ forall a, (action m).2 = Ok a -> Q a ran) -> safely ran action Q.
Proof. intros Hp m Hm Hs. destruct (Hp m) as [Ht Hq]. exists []. rewrite !app_nil_r. split_and!; [by rewrite Ht|done..]. Qed.

Lemma safely_capture ran c :
  (forall dest, overwrites c = Some dest -> answered (status_command dest) (fun text => text = "") ran) ->
  safely ran (capture c) (fun o ran' => ran' = (ran ++ [(c, Ok o)])%list).
Proof.
  intros Hc m Hm Hs. unfold capture. destruct (execute c (m_world m)) as [w r]. exists [(c, r)]. cbn.
  split_and!; [by rewrite Hm, app_assoc|by apply safe_snoc|]. by intros a ->.
Qed.

Lemma safely_weaken {A} ran (action : on_machine A) (Q R : A -> Trace -> Prop) :
  safely ran action Q -> (forall a ran', Q a ran' -> R a ran') -> safely ran action R.
Proof. intros Ha Hw m Hm Hs. destruct (Ha m Hm Hs) as (more & ? & ? & Hq). exists more. split_and!; eauto. Qed.

Lemma safely_require ran b e (Q : unit -> Trace -> Prop) : (b = true -> Q tt ran) -> safely ran (require b e) Q.
Proof. intros Hq. apply safely_pure. intros m. split; [done|]. intros [] Hr. apply ensure_Ok in Hr. by apply Hq. Qed.
Lemma safely_guard {A} ran b e (next : on_machine A) Q :
  (b = true -> safely ran next Q) -> safely ran (require b e;; next) Q.
Proof.
  intros Hn. apply (safely_bind _ _ _ (fun _ r => b = true /\ r = ran)); [by apply safely_require|].
  intros [] ? [Hb ->]. by apply Hn.
Qed.
Lemma safely_ret {A} ran (a : A) (Q : A -> Trace -> Prop) : Q a ran -> safely ran (mret a) Q.
Proof. intros Hq. apply safely_pure. intros m. split; [done|]. by intros ? [= <-]. Qed.

Lemma safely_run ran c :
  (forall dest, overwrites c = Some dest -> answered (status_command dest) (fun text => text = "") ran) ->
  safely ran (run c) (fun _ ran' => exists o, out_success o = true /\ ran' = (ran ++ [(c, Ok o)])%list).
Proof.
  intros Hc. eapply safely_bind; [by apply safely_capture|]. intros o ran' ->. apply safely_require. intros Ho. by exists o.
Qed.

Lemma safely_stdout ran c : overwrites c = None ->
  safely ran (stdout c) (fun text ran' => exists o, out_success o = true /\ out_text o = text /\ ran' = (ran ++ [(c, Ok o)])%list).
Proof.
  intros Hc. eapply safely_bind; [apply safely_capture; by rewrite Hc|]. intros o ran' ->.
  do 2 (apply safely_guard; intros ?). apply safely_ret. by exists o.
Qed.

Lemma safely_create ran dest repository :
  safely ran (create_repository dest repository) (fun _ ran' => exists more, ran' = (ran ++ more)%list).
Proof.
  unfold create_repository.
  apply (safely_bind _ _ _ (fun _ r => r = ran)); [by apply safely_pure|]. intros kind ? ->.
  apply (safely_bind _ _ _ (fun _ r => r = ran)); [by apply safely_pure|]. intros taken ? ->.
  apply safely_guard. intros _.
  apply (safely_bind _ _ _ (fun _ r => r = ran)).
  { apply safely_pure. intros m. unfold create_dir_all. by destruct (make_dirs dest (m_world m)). }
  intros [] ? ->. eapply safely_bind; [by apply safely_run|]. intros [] ? (o & _ & ->).
  eapply safely_weaken; [by apply safely_run|]. intros [] ? (o' & _ & ->). eexists. by rewrite <- app_assoc.
Qed.

(** The state after a successful [init_upstream]: git named the expected origin,
    and its last answer is the pinned revision. *)
Definition pinned (dest repository revision : string) (ran : Trace) : Prop :=
  answered (origin_command dest) (fun text => Str.trim text = repository) ran /\
  answered (head_command dest) (fun text => Str.trim text = revision) ran.

Lemma pinned_app dest repository revision ran more : pinned dest repository revision ran -> pinned dest repository revision (ran ++ more).
Proof. intros [H1 H2]. split; by apply answered_app. Qed.

Lemma safely_upstream ran root name repository revision :
  safely ran (init_upstream root name repository revision) (fun _ ran' =>
    (name = "fd" \/ name = "ripgrep") /\ pinned (join root name) repository revision ran' /\ exists more, ran' = (ran ++ more)%list).
Proof.
  unfold init_upstream. apply safely_guard. intros Hname. cbv zeta. set (dest := join root name).
  eapply safely_bind; [by apply safely_capture|]. intros probe ? ->.
  apply (safely_bind _ _ _ (fun _ r => exists more, r = (ran ++ more)%list)).
  { destruct (out_success probe); [apply safely_ret; by eexists|]. eapply safely_weaken; [apply safely_create|].
    intros [] ? (more & ->). rewrite <- app_assoc. by eexists. }
  intros [] ? (more & ->). eapply safely_bind; [by apply safely_stdout|]. intros actual ? (o & Ho & Eo & ->).
  apply safely_guard. intros Horigin. eapply safely_bind; [by apply safely_stdout|]. intros status ? (o1 & Ho1 & Eo1 & ->).
  apply safely_guard. intros Hstatus. breflect.
  set (ran1 := ((ran ++ more) ++ [(origin_command dest, Ok o)])%list).
  assert (Hst : answered (status_command dest) (fun text => text = "") (ran1 ++ [(status_command dest, Ok o1)])%list)
    by (apply answered_snoc; cbn; congruence).
  assert (Hor : answered (origin_command dest) (fun text => Str.trim text = repository) ran1) by (apply answered_snoc; cbn; congruence).
  eapply safely_bind; [by apply safely_capture|]. intros current ? ->.
  apply (safely_bind _ _ _ (fun _ r => exists more', r = ((ran1 ++ [(status_command dest, Ok o1)]) ++ more')%list)).
  { destruct (negb _ || _)%bool; [|apply safely_ret; unfold ran1; eexists; by rewrite <- !app_assoc].
    eapply safely_bind; [apply safely_run|].
    { intros ? [= <-]. by apply answered_app. }
    intros [] ? (o2 & _ & ->). eapply safely_weaken; [apply safely_run|].
    { intros ? [= <-]. by do 2 apply answered_app. }
    intros [] ? (o3 & _ & ->). unfold ran1. eexists. by rewrite <- !app_assoc. }
  intros [] ? (more' & ->). eapply safely_bind; [by apply safely_stdout|]. intros head ? (o4 & Ho4 & Eo4 & ->).
  apply safely_require. intros Hrev. breflect. split_and!; [by apply orb_true_iff in Hname as [?%bool_decide_eq_true|?%bool_decide_eq_true]; auto| |].
  - split; [by do 3 apply answered_app|]. apply answered_snoc; cbn; congruence.
  - unfold ran1. rewrite <- !app_assoc. by eexists.
Qed.

(** A trace in which every entry of the lines is pinned *)
Definition all_pinned (root : string) (lines : list string) (ran : Trace) : Prop :=
  Forall (fun line => is_ok (lock_entry line) = true) lines /\
  forall line name repository revision, line ∈ lines -> lock_entry line = Ok (Some (name, repository, revision)) ->
    pinned (join root name) repository revision ran.

Lemma safely_lines ran root lines :
  safely ran (init_lines root lines) (fun _ ran' => all_pinned root lines ran' /\ exists more, ran' = (ran ++ more)%list).
Proof.
  revert ran. induction lines as [|line lines IH]; intros ran; cbn [init_lines].
  { apply safely_ret. split; [|exists []; by rewrite app_nil_r]. split; [done|]. by intros ???? ?%not_elem_of_nil. }
  apply (safely_bind _ _ _ (fun entry r => lock_entry line = Ok entry /\ r = ran)); [by apply safely_pure|].
  intros entry ? [He ->].
  apply (safely_bind _ _ _ (fun _ r => (forall name repository revision, entry = Some (name, repository, revision) ->
    pinned (join root name) repository revision r) /\ exists more, r = (ran ++ more)%list)).
  { destruct entry as [[[name repository] revision]|]; [|apply safely_ret; split; [done|exists []; by rewrite app_nil_r]].
    eapply safely_weaken; [apply safely_upstream|]. intros [] ran' (_ & Hp & Hm). split; [|done]. by intros ??? [= <- <- <-]. }
  intros [] ? (Hp & more & ->). eapply safely_weaken; [apply IH|]. intros [] ? ([Hok Hall] & more' & ->). split; [split|].
  - apply Forall_cons. split; [by rewrite He|done].
  - intros line' name repository revision [->|Hl]%elem_of_cons Hentry; [|by eapply Hall].
    rewrite He in Hentry. injection Hentry as ->. apply pinned_app. by apply Hp.
  - rewrite <- app_assoc. by eexists.
Qed.

(** ** The tasks after [init] *)

Definition succeeded (ran : Trace) : Prop := Forall (fun entry => exists o, entry.2 = Ok o /\ out_success o = true) ran.
Definition all_succeed {A} (action : on_machine A) : Prop :=
  forall ran, safely ran action (fun _ ran' => exists more, ran' = (ran ++ more)%list /\ succeeded more).

Lemma succeed_run c : c_program c <> "git" -> all_succeed (run c).
Proof.
  intros Hc ran. eapply safely_weaken; [apply safely_run|].
  - intros dest. unfold overwrites. destruct (c_args c) as [|? [|? [|? ?]]]; try done. by rewrite (bool_decide_eq_false_2 _ Hc).
  - intros [] ? (o & Ho & ->). eexists. split; [done|]. apply Forall_singleton. by exists o.
Qed.

Lemma succeed_bind {A B} (action : on_machine A) (next : A -> on_machine B) :
  all_succeed action -> (forall a, all_succeed (next a)) -> all_succeed (action ≫= next).
Proof.
  intros Ha Hn ran. eapply safely_bind; [apply Ha|]. intros a ? (more & -> & Hm). eapply safely_weaken; [apply Hn|].
  intros b ? (more' & -> & Hm'). exists (more ++ more')%list. rewrite <- app_assoc. split; [done|]. by apply Forall_app.
Qed.

Lemma succeed_pure {A} (action : on_machine A) : (forall m, m_trace (action m).1 = m_trace m) -> all_succeed action.
Proof. intros Hp ran. apply safely_pure. intros m. split; [by apply Hp|]. intros a _. exists []. rewrite app_nil_r. split; [done|]. by apply Forall_nil. Qed.

Lemma succeed_ensure binary package : all_succeed (ensure_tool binary package).
Proof. apply succeed_bind; [by apply succeed_pure|]. intros []; [by apply succeed_pure|by apply succeed_run]. Qed.

Ltac succeeding :=
  first [apply succeed_ensure | by apply succeed_run | apply succeed_bind; [succeeding|intros _; succeeding] | by apply succeed_pure].

Lemma succeed_perform task : all_succeed (perform task).
Proof.
  assert (Hr : all_succeed rust_checks) by (unfold rust_checks; succeeding).
  assert (Hq : all_succeed repository_quality) by (unfold repository_quality; succeeding).
  destruct task; cbn [perform]; try (by apply succeed_run); [done| |by apply succeed_pure|by apply succeed_bind|done].
  unfold e2e_scripts. cbn [run_scripts]. succeeding.
Qed.
End Logic.

Section TaskProperties.
Context {World : Type} `{Workspace World}.

(** Every task works on the pinned sources and on nothing else: a task that
    succeeds first had git confirm, for each entry of the lock file, the origin
    and the pinned revision, and then every command of the task succeeded.
    Whatever the result, no checkout is overwritten before git said that it has
    no local changes. *)
Theorem tasks_use_pinned_sources workspace configured text task (m m' : TaskState World) r :
  xtask_main workspace configured (Ok text) task m = (m', r) ->
  exists ran, m_trace m' = (m_trace m ++ ran)%list /\ safe ran /\
    (r = Ok tt -> exists init rest, ran = (init ++ rest)%list /\
       all_pinned (upstream_root workspace configured) (text_lines text) init /\ succeeded rest).
Proof.
  intros Hm. assert (Hs : safely (m_trace m) [] (xtask_main workspace configured (Ok text) task) (fun _ ran =>
    exists init rest, ran = (init ++ rest)%list /\
      all_pinned (upstream_root workspace configured) (text_lines text) init /\ succeeded rest)).
  { unfold xtask_main. eapply safely_bind.
    - eapply (safely_bind _ _ _ _ (fun lock r => lock = text /\ r = [])); [apply safely_pure; by split; [|intros ? [= <-]]|].
      intros lock ? [-> ->]. apply safely_lines.
    - intros [] ? (Hall & _). eapply safely_weaken; [apply succeed_perform|]. intros [] ? (more & -> & Hsucc). by eexists _, _. }
  destruct (Hs m) as (more & Ht & Hsafe & Hq); [by rewrite app_nil_r|intros before ???? E; by destruct before|].
  rewrite Hm in *. exists more. split_and!; [done|done|]. intros ->. by apply (Hq tt).
Qed.

(** A destination that holds something else is left as it is. *)
Theorem occupied_destination_is_kept root name repository revision (m : TaskState World) :
  let dest := join root name in
  let '(w, probe) := execute (git dest ["rev-parse"; "--git-dir"]) (m_world m) in
  (exists o, probe = Ok o /\ out_success o = false) -> occupied (path_kind w dest) = Ok true ->
  exists e, (init_upstream root name repository revision m).2 = Err e /\
    (m_world (init_upstream root name repository revision m).1 = m_world m \/
     m_world (init_upstream root name repository revision m).1 = w).
Proof.
  cbv zeta. destruct (execute _ _) as [w probe] eqn:Ex. intros (o & -> & Ho) Hocc.
  unfold init_upstream, require, mbind, handler_bind. destruct (_ || _)%bool; cbn [ensure]; [|eexists; by split; [|left]].
  unfold capture. rewrite Ex. cbn [fst snd]. rewrite Ho. unfold create_repository, get, lift, require, mbind, handler_bind. cbn [m_world].
  rewrite Hocc. cbn. eexists. split; [done|by right].
Qed.

(** An empty directory inside another checkout is not initialized, although it
    may be: git finds the repository around it, and its origin is another one. *)
Theorem empty_directory_in_checkout root name repository revision (m : TaskState World) url :
  name = "fd" \/ name = "ripgrep" ->
  let dest := join root name in
  (forall w, path_kind w dest = Directory (Ok 0%nat)) ->
  (forall w, exists w' o, execute (git dest ["rev-parse"; "--git-dir"]) w = (w', Ok o) /\ out_success o = true) ->
  (forall w, exists w' o, execute (origin_command dest) w = (w', Ok o) /\ out_success o = true /\
     utf8_valid (out_stdout o) = true /\ Str.trim (out_text o) = url) ->
  url <> repository ->
  (forall w, occupied (path_kind w dest) = Ok false) /\
  (init_upstream root name repository revision m).2 = Err "unexpected origin".
Proof.
  intros Hn dest Hk Hp Ho Hu. split; [intros w; by rewrite Hk|].
  unfold init_upstream, require, mbind, handler_bind.
  replace ((name == "fd") || (name == "ripgrep")) with true by (by destruct Hn as [-> | ->]). cbn [ensure].
  unfold capture at 1. fold dest. destruct (Hp (m_world m)) as (w & o & -> & Hs). rewrite Hs. cbn [mret handler_ret].
  unfold stdout, capture, mbind, handler_bind. cbn [m_world]. fold (origin_command dest).
  destruct (Ho w) as (w' & o' & -> & Hs' & Hv & Ht). unfold require. rewrite Hs', Hv. cbn.
  rewrite Ht, bool_decide_eq_false_2 by done. done.
Qed.
End TaskProperties.

(** The lock file of the repository *)
Definition upstreams_lock : string := unlines [
  "# Copyright 2026 agent-scale contributors"; "# SPDX-License-Identifier: Apache-2.0"; "";
  "# name      repository                               commit";
  "fd          https://github.com/sharkdp/fd.git         7027d45303b412be6fa9c09d689cc6276748fb38";
  "ripgrep     https://github.com/BurntSushi/ripgrep.git e89fff89ac9af12e8d4ce9d5fd07beb408ca730f"].

Example upstreams_lock_entries :
  collect lock_entry (text_lines upstreams_lock) = Ok [None; None; None; None;
    Some ("fd", "https://github.com/sharkdp/fd.git", "7027d45303b412be6fa9c09d689cc6276748fb38");
    Some ("ripgrep", "https://github.com/BurntSushi/ripgrep.git", "e89fff89ac9af12e8d4ce9d5fd07beb408ca730f")].
Proof. vm_compute. reflexivity. Qed.
