(* ===== verification/BuildScripts.v ===== *)
(** * The build scripts of fd-lib and rg-lib
      (src/crates/fd-lib/build.rs, src/crates/rg-lib/build.rs)

    The upstream sources become libraries by textual patches: fd's main function
    is made public and its account lookups are guarded on Android; ripgrep's main
    file also loses its inner documentation, which is not allowed in an included
    module. A patch that does not find its place stops the build. *)
From S2P Require Import Prelude Text CommandLine EdgeService.
Open Scope string_scope.
Open Scope Z_scope.

(** [source.replacen(from, to, 1)], for a non-empty [from] *)
Fixpoint replace_first (from to source : string) : string :=
  match Str.strip_prefix from source with
  | Some rest => to ++ rest
  | None => match source with
            | EmptyString => EmptyString
            | String c rest => String c (replace_first from to rest)
            end
  end.

(** [source.replace("\r\n", "\n")] *)
Fixpoint normalize_newlines (source : string) : string :=
  match source with
  | EmptyString => EmptyString
  | String a rest =>
      match rest with
      | String b rest' =>
          if (a == "013"%char) && (b == "010"%char) then String "010" (normalize_newlines rest')
          else String a (normalize_newlines rest)
      | EmptyString => source
      end
  end.

(** [replace_once]: the assertion is an error. *)
Definition replace_once (source from to description : string) : result string string :=
  let patched := replace_first from to source in
  ensure (source != patched) (description ++ " was not found");;
  Ok patched.

Definition public_main (source description : string) : result string string :=
  replace_once source (newline ++ "fn main()") (newline ++ "pub fn main()") description.

(** *** fd *)

Definition patch_fd_main (source : string) : result string string := public_main (normalize_newlines source) "fd main function".

Definition lookup_code (guarded : bool) (item kind id : string) : string :=
  let q := dquote in
  "            } else {" ++ newline ++
  (if guarded then
     "                #[cfg(target_os = " ++ q ++ "android" ++ q ++ ")]" ++ newline ++
     "                return Err(anyhow!(" ++ q ++ "Android owner filters require a numeric " ++ kind ++ " ID" ++ q ++ "));" ++ newline ++
     "                #[cfg(not(target_os = " ++ q ++ "android" ++ q ++ "))]" ++ newline ++
     "                return "
   else "                ") ++
  item ++ "::from_name(s)?" ++ newline ++
  "                    .map(|" ++ kind ++ "| " ++ kind ++ "." ++ id ++ ".as_raw())" ++ newline ++
  "                    .ok_or_else(|| anyhow!(" ++ q ++ "'{}' is not a recognized " ++ kind ++ " name" ++ q ++ ", s))" ++
  (if guarded then ";" else "") ++ newline ++ "            }".

Definition patch_owner (source : string) : result string string :=
  let q := dquote in
  owner ← replace_once (normalize_newlines source) "use nix::unistd::{Group, User};"
    ("#[cfg(not(target_os = " ++ q ++ "android" ++ q ++ "))]" ++ newline ++ "use nix::unistd::{Group, User};")
    "fd account lookup import";
  owner ← replace_once owner (lookup_code false "User" "user" "uid") (lookup_code true "User" "user" "uid") "fd user-name lookup";
  replace_once owner (lookup_code false "Group" "group" "gid") (lookup_code true "Group" "group" "gid") "fd group-name lookup".

(** *** ripgrep *)

Definition starts_with (prefix line : string) : bool :=
  match Str.strip_prefix prefix line with Some _ => true | None => false end.
Fixpoint contains_text (needle line : string) : bool :=
  starts_with needle line || match line with EmptyString => false | String _ rest => contains_text needle rest end.

(** [str::lines] also drops a carriage return at the end of a line. *)
Definition source_lines (source : string) : list string := (fun line => default line (strip_last "013" line)) <$> text_lines source.

(** The loop over the lines, with [in_block_doc] *)
Fixpoint strip_docs (in_block_doc : bool) (lines : list string) : list string :=
  match lines with
  | [] => []
  | line :: lines =>
      if negb in_block_doc && starts_with "/*!" line then strip_docs true lines
      else if in_block_doc then strip_docs (negb (contains_text "*/" line)) lines
      else if starts_with "//!" line then strip_docs false lines
      else line :: strip_docs false lines
  end.

Definition patch_rg_main (source : string) : result string string :=
  public_main (unlines (strip_docs false (source_lines source))) "rg main function".

(** ** The patches *)

Lemma replace_first_spec from to source :
  from <> "" ->
  (exists pre post, source = pre +:+ from +:+ post /\ replace_first from to source = pre +:+ to +:+ post /\
     forall pre' post', source = pre' +:+ from +:+ post' -> (String.length pre <= String.length pre')%nat) \/
  (replace_first from to source = source /\ forall pre post, source <> pre +:+ from +:+ post).
Proof.
  intros Hne. induction source as [|c source IH].
  - right. destruct from as [|a from]; [done|]. split; [done|]. intros [|? pre] post; [done|]. by rewrite Str.append_cons.
  - cbn [replace_first]. destruct (Str.strip_prefix from (String c source)) as [rest|] eqn:Hp.
    + apply Str.strip_prefix_inv in Hp. left. exists "", rest. split_and!; [done..|]. intros. cbn. lia.
    + assert (Hno : forall post, String c source <> from +:+ post).
      { intros post E. rewrite E, Str.strip_prefix_app in Hp. done. }
      destruct IH as [(pre & post & E & Hr & Hmin)|[Hr Hnone]].
      * left. exists (String c pre), post. rewrite Hr, !Str.append_cons, <- E. split_and!; [done..|].
        intros [|c' pre'] post' E'; [by destruct (Hno post')|]. rewrite Str.append_cons in E'. injection E' as _ E'.
        apply Hmin in E'. cbn. lia.
      * right. rewrite Hr. split; [done|]. intros [|c' pre] post E'; [by apply (Hno post)|].
        rewrite Str.append_cons in E'. injection E' as _ E'. by eapply Hnone.
Qed.

(** A patch replaces the first occurrence of its text and nothing else, and it
    stops the build exactly when there is none. *)
Theorem patches_apply_exactly_once from to source description :
  from <> "" -> (forall pre post, pre +:+ from +:+ post <> pre +:+ to +:+ post) ->
  match replace_once source from to description with
  | Ok patched => exists pre post, source = pre +:+ from +:+ post /\ patched = pre +:+ to +:+ post /\
      forall pre' post', source = pre' +:+ from +:+ post' -> (String.length pre <= String.length pre')%nat
  | Err _ => forall pre post, source <> pre +:+ from +:+ post
  end.
Proof.
  intros Hne Hdiff. unfold replace_once.
  destruct (replace_first_spec from to source Hne) as [(pre & post & E & Hr & Hmin)|[Hr Hnone]]; rewrite Hr.
  - rewrite bool_decide_eq_false_2; [cbn; eauto|]. rewrite E. apply Hdiff.
  - by rewrite bool_decide_eq_true_2.
Qed.

(** Stripping documentation keeps every other line, in order, drops every line of
    inner documentation, and changes nothing where there is none. *)
Theorem strip_docs_keeps_code lines :
  strip_docs false lines `sublist_of` lines /\
  Forall (fun line => starts_with "/*!" line = false /\ starts_with "//!" line = false) (strip_docs false lines) /\
  (Forall (fun line => starts_with "/*!" line = false /\ starts_with "//!" line = false) lines -> strip_docs false lines = lines).
Proof.
  assert (Hgen : forall in_doc, strip_docs in_doc lines `sublist_of` lines /\
    Forall (fun line => starts_with "/*!" line = false /\ starts_with "//!" line = false) (strip_docs in_doc lines)).
  { induction lines as [|line lines IH]; intros in_doc; cbn [strip_docs]; [by split|].
    destruct (negb in_doc && starts_with "/*!" line)%bool eqn:E1; [split; [apply sublist_cons|]; apply IH|].
    destruct in_doc; [split; [apply sublist_cons|]; apply IH|]. cbn in E1.
    destruct (starts_with "//!" line) eqn:E2; [split; [apply sublist_cons|]; apply IH|].
    split; [apply sublist_skip, IH|]. apply Forall_cons. split; [done|]. apply IH. }
  destruct (Hgen false) as [Hs Hf]. split_and!; [exact Hs|exact Hf|]. clear. induction 1 as [|line lines [H1 H2] _ IH]; [done|]. cbn [strip_docs]. rewrite H1, H2. cbn.
  f_equal. apply IH.
Qed.
