(* ===== verification/SyncJournal.v ===== *)
(** * agent-scale: the journal of a multi-file sync (src/crates/agent-scale/src/mcp_sync.rs)

    A sync replaces several files of a project. [commit_prepared] writes them to
    a journal first, applies the journal and removes it; [recover_journal] rolls an
    interrupted commit forward. Each replacement of a file consumes one outcome
    of the disk, and an error ends the run, so a run that fails at some outcome
    leaves the files exactly as a crash at that point does. The files a reader
    should see ([view]: those on disk with a pending journal applied) change
    atomically, and no journal, whatever it holds, writes outside the project. *)
From S2P Require Import Prelude Deps Files.
Open Scope string_scope.
Open Scope Z_scope.

(** ** Paths ([std::path]) as their components *)

Inductive Component :=
| Prefix (name : string)
| RootDir
| CurDir
| ParentDir
| Normal (name : string).
#[global] Instance Component_eq : EqDecision Component.
Proof. solve_decision. Defined.

Definition component_encode (c : Component) : string + (string + nat) :=
  match c with
  | Normal s => inl s
  | Prefix s => inr (inl s)
  | RootDir => inr (inr 0%nat)
  | CurDir => inr (inr 1%nat)
  | ParentDir => inr (inr 2%nat)
  end.
Definition component_decode (x : string + (string + nat)) : Component :=
  match x with
  | inl s => Normal s
  | inr (inl s) => Prefix s
  | inr (inr 0%nat) => RootDir
  | inr (inr 1%nat) => CurDir
  | inr (inr _) => ParentDir
  end.
#[global] Instance Component_countable : Countable Component.
Proof. apply (inj_countable' component_encode component_decode). by intros []. Defined.

Notation Path := (list Component).

Definition is_normal (c : Component) : bool :=
  match c with Normal _ => true | _ => false end.

(** [Path::join]: an absolute path replaces the base. *)
Definition path_join (base path : Path) : Path :=
  match path with
  | RootDir :: _ | Prefix _ :: _ => path
  | _ => (base ++ path)%list
  end.

(** [Path::strip_prefix] *)
Fixpoint strip_prefix (base path : Path) : option Path :=
  match base, path with
  | [], _ => Some path
  | b :: base, p :: path => if b == p then strip_prefix base path else None
  | _ :: _, [] => None
  end.

(** [Path::parent]: none for the root and for the empty path. *)
Definition path_parent (path : Path) : option Path :=
  match List.rev path with
  | [] | RootDir :: _ | Prefix _ :: _ => None
  | _ :: rest => Some (List.rev rest)
  end.

(** ** The journal *)

Record PreparedFile := { pf_path : Path; pf_bytes : bytes }.

Record JournalFile := { relative_path : Path; jf_bytes : bytes }.
Record SyncJournal := { sj_version : Z; sj_files : list JournalFile }.

(** The files of the machine, and how its next replacements will end. Once the
    list is used up they succeed. *)
Record Disk := { files : Fs Path; outcomes : list WriteOutcome }.

Notation on_disk A := (handler Disk string A).

(** [NamedTempFile::persist] and [sync_dir] for [Some] content,
    [std::fs::remove_file] and [sync_dir] for [None] *)
Definition replace_file (path : Path) (content : option bytes) : on_disk unit := fun d =>
  let rest := List.tl (outcomes d) in
  let replaced := partial_alter (fun _ => content) path (files d) in
  match List.hd Written (outcomes d) with
  | WriteFailed => ({| files := files d; outcomes := rest |}, Err "replace file")
  | WriteUnsynced => ({| files := replaced; outcomes := rest |}, Err "sync directory")
  | Written => ({| files := replaced; outcomes := rest |}, Ok tt)
  end.

Definition write_if_changed (path : Path) (data : bytes) : on_disk unit :=
  content ← get (fun d => files d !! path);
  if content == Some data then mret tt
  else
    lift (of_option (path_parent path) "output path has no parent");;
    replace_file path (Some data).

Definition validate_relative_path (path : Path) : result string unit :=
  ensure (match path with [] => false | _ => Vec.all is_normal path end)
    "unsafe path in MCP sync journal".

Definition journal_path (root : Path) : Path :=
  path_join root [Normal ".agent-scale"; Normal "mcp-sync-journal.json"].

(** [apply_journal] *)
Fixpoint apply_files (root : Path) (journal : list JournalFile) : on_disk unit :=
  match journal with
  | [] => mret tt
  | file :: journal =>
      lift (validate_relative_path (relative_path file));;
      write_if_changed (path_join root (relative_path file)) (jf_bytes file);;
      apply_files root journal
  end.

Definition apply_journal (root : Path) (journal : SyncJournal) : on_disk unit :=
  apply_files root (sj_files journal).

Fixpoint journal_files (root : Path) (prepared : list PreparedFile) : result string (list JournalFile) :=
  match prepared with
  | [] => Ok []
  | file :: prepared =>
      relative ← of_option (strip_prefix root (pf_path file)) "sync output escaped project root";
      validate_relative_path relative;;
      rest ← journal_files root prepared;
      Ok ({| relative_path := relative; jf_bytes := pf_bytes file |} :: rest)
  end.

Definition with_newline (data : bytes) : bytes :=
  if last data == Some newline_byte then data else (data ++ [newline_byte])%list.

Section Journal.
Context `{SerdePretty SyncJournal}.

Definition commit_prepared (root : Path) (prepared : list PreparedFile) : on_disk unit :=
  journal ← lift (journal_files root prepared);
  let journal := {| sj_version := 1; sj_files := journal |} in
  write_if_changed (journal_path root) (with_newline (to_vec_pretty journal));;
  apply_journal root journal;;
  replace_file (journal_path root) None.

Definition recover_journal (root : Path) : on_disk unit :=
  content ← get (fun d => files d !! journal_path root);
  match content with
  | None => mret tt
  | Some data =>
      journal ← lift (of_option (from_slice data) "parse journal");
      lift (ensure (sj_version journal == 1) "unsupported MCP sync journal version");;
      apply_journal root journal;;
      replace_file (journal_path root) None
  end.

(** ** What the files amount to *)

Section Journals.
Variable root : Path.
Implicit Types (m : Fs Path) (d : Disk) (journal : list JournalFile).
Notation target f := (path_join root (relative_path f)).

(** All files of a journal written, in its order. *)
Definition written journal m : Fs Path :=
  fold_left (fun m f => <[target f := jf_bytes f]> m) journal m.

(** A journal [commit_prepared] may have left behind. *)
Definition safe journal : Prop :=
  forall f, f ∈ journal -> validate_relative_path (relative_path f) = Ok tt /\ target f <> journal_path root.

Definition pending m : option (list JournalFile) :=
  data ← m !! journal_path root; log ← from_slice data; Some (sj_files log).

(** The files a reader should see: a pending journal counts as applied. *)
Definition view m : Fs Path :=
  match pending m with
  | None => m
  | Some journal => delete (journal_path root) (written journal m)
  end.

(** There is no journal, or one that can be applied. *)
Definition recoverable m : Prop :=
  m !! journal_path root = None \/
  exists data log, m !! journal_path root = Some data /\ from_slice data = Some log /\
    sj_version log = 1 /\ safe (sj_files log).

(** *** Writing files *)

Lemma lookup_written_out journal m p :
  (forall f, f ∈ journal -> target f <> p) -> written journal m !! p = m !! p.
Proof.
  unfold written. revert m. induction journal as [|f journal IH]; cbn; intros m Hp; [done|].
  rewrite IH by (intros g Hg; apply Hp; by right).
  apply lookup_insert_ne, Hp, list_elem_of_here.
Qed.

Lemma written_agree journal m m' :
  (forall p, (forall f, f ∈ journal -> target f <> p) -> m !! p = m' !! p) ->
  written journal m = written journal m'.
Proof.
  unfold written. revert m m'. induction journal as [|f journal IH]; cbn; intros m m' Hp.
  { apply map_eq. intros p. apply Hp. intros f Hf. by apply elem_of_nil in Hf. }
  apply IH. intros p Hj. destruct (decide (target f = p)) as [<-|Hne].
  { by rewrite !lookup_insert_eq. }
  rewrite !lookup_insert_ne by done. apply Hp. intros g [->|Hg]%elem_of_cons; [done|by apply Hj].
Qed.

(** Applying a journal again after any part of it changes nothing. *)
Lemma written_again k journal m : written journal (written (take k journal) m) = written journal m.
Proof.
  apply written_agree. intros p Hp. apply lookup_written_out.
  intros f Hf. apply Hp. by apply elem_of_take in Hf as (i & Hi%list_elem_of_lookup_2 & _).
Qed.

Lemma written_insert journal m p data :
  (forall f, f ∈ journal -> target f <> p) ->
  written journal (<[p := data]> m) = <[p := data]> (written journal m).
Proof.
  unfold written. revert m. induction journal as [|f journal IH]; cbn; intros m Hp; [done|].
  rewrite insert_insert_ne by (apply Hp, list_elem_of_here).
  apply IH. intros g Hg. apply Hp. by right.
Qed.

(** *** One run, whatever the disk does *)

Lemma replace_file_run p content d d' r :
  replace_file p content d = (d', r) ->
  (files d' = files d \/ files d' = partial_alter (fun _ => content) p (files d)) /\
  (r = Ok tt -> files d' = partial_alter (fun _ => content) p (files d)).
Proof.
  unfold replace_file. destruct (List.hd Written (outcomes d)); intros [= <- <-]; cbn; eauto.
  split; [by left|done].
Qed.

Lemma write_if_changed_run p data d d' r :
  write_if_changed p data d = (d', r) ->
  (files d' = files d \/ files d' = <[p := data]> (files d)) /\
  (r = Ok tt -> files d' = <[p := data]> (files d)).
Proof.
  unfold write_if_changed. intros R. hstep R. case_bool_decide as Hc.
  { injection R as <- <-. split; [by left|]. intros _. symmetry. by apply insert_id. }
  hstep R; [|subst; split; [by left|done]]. by apply replace_file_run in R.
Qed.

Lemma apply_files_run journal d d' r :
  apply_files root journal d = (d', r) ->
  (exists k, files d' = written (take k journal) (files d)) /\
  (r = Ok tt -> files d' = written journal (files d)).
Proof.
  revert d. induction journal as [|f journal IH]; cbn [apply_files]; intros d R.
  { injection R as <- <-. split; [by exists 0%nat|done]. }
  hstep R; [|subst; split; [by exists 0%nat|done]].
  apply bind_inv in R as [([] & d1 & W & R)|(e & W & ->)]; apply write_if_changed_run in W as [Hw Hok].
  - specialize (Hok eq_refl). apply IH in R as [[k Hk] Hr]. rewrite Hok in Hk, Hr.
    split; [by exists (S k)|done].
  - split; [|done]. destruct Hw as [-> | ->]; [by exists 0%nat|by exists 1%nat].
Qed.

(** *** The view is what recovery keeps *)

Lemma view_pending m data log :
  m !! journal_path root = Some data -> from_slice data = Some log ->
  view m = delete (journal_path root) (written (sj_files log) m).
Proof. intros Hm Hd. unfold view, pending. rewrite Hm. cbn. by rewrite Hd. Qed.

Lemma view_clean m : m !! journal_path root = None -> view m = m.
Proof. intros Hm. unfold view, pending. by rewrite Hm. Qed.

(** The state of an application of [log]: a part of it is written. *)
Lemma view_partly k m data log :
  m !! journal_path root = Some data -> from_slice data = Some log -> sj_version log = 1 ->
  safe (sj_files log) ->
  recoverable (written (take k (sj_files log)) m) /\
  view (written (take k (sj_files log)) m) = view m.
Proof.
  intros Hm Hd Hv Hs.
  assert (Hm' : written (take k (sj_files log)) m !! journal_path root = Some data).
  { rewrite lookup_written_out; [done|]. intros f Hf. apply Hs.
    by apply elem_of_take in Hf as (i & Hi%list_elem_of_lookup_2 & _). }
  split; [right; by exists data, log|].
  by rewrite (view_pending _ data log), (view_pending m data log), written_again.
Qed.

(** Applying [log] and removing it, from any state where it is pending. *)
Lemma finish_run log data d d' r :
  files d !! journal_path root = Some data -> from_slice data = Some log -> sj_version log = 1 ->
  safe (sj_files log) ->
  (apply_journal root log;; replace_file (journal_path root) None) d = (d', r) ->
  recoverable (files d') /\ view (files d') = view (files d) /\
  (r = Ok tt -> files d' = view (files d) /\ files d' !! journal_path root = None).
Proof.
  intros Hm Hd Hv Hs R.
  apply bind_inv in R as [([] & d1 & A & R)|(e & A & ->)]; apply apply_files_run in A as [[k Hk] Hok].
  - specialize (Hok eq_refl). apply replace_file_run in R as [Hr Hr'].
    change (partial_alter (fun _ => None) ?p ?m) with (delete p m) in *.
    assert (Hv' : delete (journal_path root) (files d1) = view (files d)).
    { by rewrite Hok, (view_pending _ data log). }
    rewrite Hv' in Hr, Hr'.
    assert (Hj : view (files d) !! journal_path root = None) by (rewrite <- Hv'; apply lookup_delete_eq).
    split; [|split].
    + destruct Hr as [-> | ->]; [rewrite Hk; by eapply view_partly|by left].
    + destruct Hr as [-> | ->]; [rewrite Hk; by eapply view_partly|by apply view_clean].
    + intros Hx. by rewrite (Hr' Hx).
  - rewrite Hk. destruct (view_partly k _ _ _ Hm Hd Hv Hs) as [? ?]. split_and!; done.
Qed.

Lemma recover_run d d' r :
  recoverable (files d) -> recover_journal root d = (d', r) ->
  recoverable (files d') /\ view (files d') = view (files d) /\
  (r = Ok tt -> files d' = view (files d) /\ files d' !! journal_path root = None).
Proof.
  intros Hr R. unfold recover_journal in R. hstep R.
  destruct Hr as [Hn|(data & log & Hm & Hd & Hv & Hs)].
  - rewrite Hn in R. injection R as <- <-. split; [by left|]. split; [done|].
    intros _. by rewrite view_clean.
  - rewrite Hm in R. cbv beta iota in R. rewrite Hd in R. cbn [of_option] in R.
    hstep R; [|done]. injection E as <-. hstep R; [|by rewrite Hv in E].
    by eapply finish_run.
Qed.

(** *** Commits *)

(** The prepared files in place. *)
Definition installed (prepared : list PreparedFile) m : Fs Path :=
  fold_left (fun m f => <[pf_path f := pf_bytes f]> m) prepared m.

Lemma strip_prefix_Some base p rest : strip_prefix base p = Some rest -> p = (base ++ rest)%list.
Proof.
  revert p. induction base as [|b base IH]; cbn; intros p E; [by injection E as ->|].
  destruct p as [|c p]; [done|]. case_bool_decide as Hb; [|done]. subst. by rewrite (IH _ E).
Qed.

Lemma validate_join rel :
  validate_relative_path rel = Ok tt -> path_join root rel = (root ++ rel)%list.
Proof. unfold validate_relative_path. by destruct rel as [|[] rel]. Qed.

Lemma journal_files_ok prepared journal :
  journal_files root prepared = Ok journal ->
  (forall f, f ∈ prepared -> pf_path f <> journal_path root) ->
  safe journal /\ forall m, written journal m = installed prepared m.
Proof.
  revert journal. induction prepared as [|f prepared IH]; cbn; intros journal J Hp.
  { injection J as <-. split; [|done]. intros f Hf. by apply elem_of_nil in Hf. }
  destruct (strip_prefix root (pf_path f)) as [rel|] eqn:Hrel; [|done]. cbn in J.
  destruct (validate_relative_path rel) as [[]|] eqn:Hval; [|done]. cbn in J.
  destruct (journal_files root prepared) as [rest|] eqn:Hrest; [|done]. injection J as <-.
  destruct (IH rest eq_refl) as [Hs Hw]; [intros g Hg; apply Hp; by right|].
  assert (Hf : path_join root rel = pf_path f).
  { rewrite validate_join by done. symmetry. by apply strip_prefix_Some. }
  split.
  - intros g [->|Hg]%elem_of_cons; [|by apply Hs]. cbn. rewrite Hf.
    split; [done|apply Hp, list_elem_of_here].
  - intros m. cbn. rewrite Hf. apply Hw.
Qed.

Context `{!SerdePrettyLaws SyncJournal}.

Lemma from_slice_with_newline `{SerdePrettyLaws T} (x : T) :
  from_slice (with_newline (to_vec_pretty x)) = Some x.
Proof.
  unfold with_newline. case_bool_decide; [apply from_slice_pretty|apply from_slice_pretty_newline].
Qed.

Lemma commit_run prepared d d' r :
  files d !! journal_path root = None ->
  (forall f, f ∈ prepared -> pf_path f <> journal_path root) ->
  commit_prepared root prepared d = (d', r) ->
  recoverable (files d') /\
  (view (files d') = files d \/ view (files d') = installed prepared (files d)) /\
  (r = Ok tt -> files d' = installed prepared (files d) /\ files d' !! journal_path root = None).
Proof.
  intros Hn Hp R. unfold commit_prepared in R.
  hstep R; [|subst; split; [by left|]; split; [left; by apply view_clean|done]].
  destruct (journal_files_ok _ _ E Hp) as [Hs Hw]. set (log := Build_SyncJournal _ _) in R.
  set (data := with_newline _) in R.
  assert (Hd : from_slice data = Some log) by apply from_slice_with_newline.
  assert (Hl : <[journal_path root := data]> (files d) !! journal_path root = Some data)
    by apply lookup_insert_eq.
  assert (Hv : view (<[journal_path root := data]> (files d)) = installed prepared (files d)).
  { rewrite (view_pending _ data log) by done. cbn [log sj_files].
    rewrite written_insert by (intros f Hf; by apply Hs). rewrite Hw, delete_insert_id; [done|].
    rewrite <- Hw, lookup_written_out; [done|]. intros f Hf. by apply Hs. }
  apply bind_inv in R as [([] & d1 & W & R)|(e & W & ->)]; apply write_if_changed_run in W as [Hfs Hok].
  - specialize (Hok eq_refl). rewrite <- Hok in Hl, Hv.
    destruct (finish_run log data d1 d' r Hl Hd eq_refl Hs R) as (? & Hv' & Hx).
    rewrite Hv in Hv', Hx. split_and!; [done|by right|done].
  - split; [|split; [|done]].
    + destruct Hfs as [-> | ->]; [by left|]. right. by exists data, log.
    + destruct Hfs as [-> | ->]; [left; by apply view_clean|by right].
Qed.

(** *** A disk that works *)

Lemma join_parent rel : validate_relative_path rel = Ok tt -> is_Some (path_parent (path_join root rel)).
Proof.
  intros Hv. rewrite validate_join by done. unfold path_parent. rewrite rev_app_distr.
  unfold validate_relative_path in Hv. destruct rel as [|c rel]; [done|].
  destruct (Vec.all is_normal (c :: rel)) eqn:Ha; [|done]. rewrite Vec.all_true in Ha.
  destruct (List.rev (c :: rel)) as [|l rest] eqn:Hr.
  { apply (f_equal (@length _)) in Hr. by rewrite length_rev in Hr. }
  assert (Hl : l ∈ c :: rel).
  { apply list_elem_of_In, in_rev. rewrite Hr. by left. }
  apply Ha in Hl. destruct l; cbn; by eauto.
Qed.

Lemma write_if_changed_works rel data d :
  validate_relative_path rel = Ok tt -> outcomes d = [] ->
  exists d', write_if_changed (path_join root rel) data d = (d', Ok tt) /\ outcomes d' = [].
Proof.
  intros Hv Ho. unfold write_if_changed, mbind, handler_bind, get, lift. case_bool_decide.
  { by exists d. }
  destruct (join_parent rel Hv) as [p ->]. cbn. unfold replace_file. rewrite Ho. cbn. by eexists.
Qed.

Lemma apply_files_works journal d :
  safe journal -> outcomes d = [] ->
  exists d', apply_files root journal d = (d', Ok tt) /\ outcomes d' = [].
Proof.
  revert d. induction journal as [|f journal IH]; intros d Hs Ho; [by exists d|]. cbn [apply_files].
  destruct (Hs f (list_elem_of_here _ _)) as [Hv _]. rewrite Hv.
  rewrite (bind_eq_Ok _ _ d d tt) by done.
  destruct (write_if_changed_works (relative_path f) (jf_bytes f) d Hv Ho) as (d1 & W & Ho1).
  rewrite (bind_eq_Ok _ _ _ _ _ W). apply IH; [|done]. intros g Hg. apply Hs. by right.
Qed.

Lemma recover_works d :
  recoverable (files d) -> outcomes d = [] -> exists d', recover_journal root d = (d', Ok tt).
Proof.
  intros Hr Ho. unfold recover_journal. rewrite bind_get.
  destruct Hr as [->|(data & log & -> & Hd & Hv & Hs)]; [by eexists|].
  rewrite Hd. rewrite (bind_eq_Ok _ _ d d log) by done. rewrite Hv.
  rewrite (bind_eq_Ok _ _ d d tt) by done.
  destruct (apply_files_works (sj_files log) d Hs Ho) as (d1 & A & Ho1).
  rewrite (bind_eq_Ok _ _ _ _ _ A). unfold replace_file. rewrite Ho1. by eexists.
Qed.

(** Recoveries that may fail, each with what its disk does. *)
Fixpoint recoveries (attempts : list (list WriteOutcome)) m : Fs Path :=
  match attempts with
  | [] => m
  | attempt :: attempts =>
      recoveries attempts (files (recover_journal root {| files := m; outcomes := attempt |}).1)
  end.

Lemma recoveries_keep attempts m :
  recoverable m -> recoverable (recoveries attempts m) /\ view (recoveries attempts m) = view m.
Proof.
  revert m. induction attempts as [|attempt attempts IH]; intros m Hm; [done|]. cbn.
  destruct (recover_journal root _) as [d' r] eqn:R.
  destruct (recover_run {| files := m; outcomes := attempt |} d' r Hm R) as (Hr & Hv & _). cbn in *.
  destruct (IH _ Hr) as [? E]. split; [done|]. by rewrite E.
Qed.

(** A sync of several files is atomic. However far a commit gets, and however
    many recoveries are cut short after it, the next recovery whose writes go
    through succeeds, removes the journal, and leaves either every file as it was
    before the commit or every prepared file in place, with nothing else changed;
    after a commit that reported success it is the latter, already before any
    recovery. *)
Theorem commit_is_atomic prepared d d' r attempts :
  files d !! journal_path root = None ->
  (forall f, f ∈ prepared -> pf_path f <> journal_path root) ->
  commit_prepared root prepared d = (d', r) ->
  exists d'',
    recover_journal root {| files := recoveries attempts (files d'); outcomes := [] |} = (d'', Ok tt) /\
    (files d'' = files d \/ files d'' = installed prepared (files d)) /\
    files d'' !! journal_path root = None /\
    (r = Ok tt -> files d' = installed prepared (files d) /\ files d'' = files d').
Proof.
  intros Hn Hp R. destruct (commit_run prepared d d' r Hn Hp R) as (Hr & Hv & Hok).
  destruct (recoveries_keep attempts (files d') Hr) as [Hr' Hv'].
  destruct (recover_works {| files := recoveries attempts (files d'); outcomes := [] |} Hr' eq_refl)
    as [d'' R'']. exists d''. split; [done|].
  destruct (recover_run {| files := recoveries attempts (files d'); outcomes := [] |} d'' (Ok tt) Hr' R'') as (_ & _ & Hf). cbn in Hf.
  destruct (Hf eq_refl) as [Hf' Hj]. rewrite Hv' in Hf'. split; [by rewrite Hf'|]. split; [done|].
  intros Hx. destruct (Hok Hx) as [Hi Hc]. split; [done|]. by rewrite Hf', view_clean.
Qed.

(** *** Nothing is written outside the project *)

Lemma path_strip_app rel : strip_prefix root (root ++ rel)%list = Some rel.
Proof. induction root as [|c r IH]; cbn; [done|]. by rewrite bool_decide_eq_true_2. Qed.

Lemma replace_file_elsewhere p content d d' r q :
  replace_file p content d = (d', r) -> q <> p -> files d' !! q = files d !! q.
Proof.
  intros [[-> | ->] _]%replace_file_run Hq; [done|]. by apply lookup_partial_alter_ne.
Qed.

Lemma apply_files_inside journal d d' r p :
  apply_files root journal d = (d', r) -> strip_prefix root p = None -> files d' !! p = files d !! p.
Proof.
  intros R Hp. revert d R. induction journal as [|f journal IH]; cbn [apply_files]; intros d R.
  { by injection R as <- <-. }
  hstep R; [|by subst].
  assert (Hne : p <> path_join root (relative_path f)).
  { rewrite validate_join by done. intros ->. by rewrite path_strip_app in Hp. }
  apply bind_inv in R as [([] & d1 & W & R)|(e & W & ->)]; apply write_if_changed_run in W as [[Hf|Hf] _].
  1,2: by rewrite (IH _ R), Hf, ?lookup_insert_ne. 
  all: by rewrite Hf, ?lookup_insert_ne.
Qed.

(** A journal cannot be used to write elsewhere: whatever file stands in its
    place, recovering changes no file outside the project root. *)
Theorem recovery_stays_inside d d' r p :
  recover_journal root d = (d', r) -> strip_prefix root p = None -> files d' !! p = files d !! p.
Proof.
  intros R Hp. unfold recover_journal in R. hstep R.
  destruct (files d !! journal_path root) as [data|]; [|by injection R as <- <-].
  hstep R; [|by subst]. hstep R; [|by subst].
  assert (Hne : p <> journal_path root).
  { intros ->. unfold journal_path in Hp. cbn in Hp. by rewrite path_strip_app in Hp. }
  apply bind_inv in R as [([] & d1 & A & R)|(e & A & ->)]; apply (apply_files_inside _ _ _ _ _ A) in Hp as Hf.
  - by rewrite (replace_file_elsewhere _ _ _ _ _ _ R Hne).
  - done.
Qed.
End Journals.
End Journal.
