(* ===== verification/McpAdapters.v ===== *)
(** * agent-scale: MCP client configuration files and [sync] (src/crates/agent-scale/src/mcp_sync.rs)

    [prepare_claude] edits a JSON document and [prepare_codex] a TOML document
    with the decisions of [reconcile]; [sync] recovers the journal, reads the
    catalogs, prepares every file and commits them together. The documents are
    those of serde_json, a map per object, and of toml_edit, whose tables keep
    formatting and are only accessed through its operations. *)
From S2P Require Import Prelude Deps Files Transport Protocol McpSync SyncJournal.
Open Scope string_scope.
Open Scope Z_scope.

(** ** serde_json and toml_edit values *)

(** [serde_json::Number], [f64] and the conversions between them *)
Class Numbers := {
  Number : Type;
  F64 : Type;
  number_of_i64 : Z -> Number;
  (** none for a NaN or an infinity, which [json!] turns into [null] *)
  number_of_f64 : F64 -> option Number;
}.

Inductive Json `{Numbers} :=
| JNull
| JBool (b : bool)
| JNumber (n : Number)
| JString (s : string)
| JArray (items : list Json)
| JObject (members : gmap string Json).

Inductive TomlValue `{Numbers} :=
| TString (s : string)
| TInteger (n : Z)
| TFloat (f : F64)
| TBoolean (b : bool)
| TDatetime (text : string)
| TArray (values : list TomlValue)
| TInlineTable (table : list (string * TomlValue)).

(** toml_edit's documents, items and tables *)
Class Toml `{Numbers} := {
  DocumentMut : Type;
  Item : Type;
  Table : Type;
  (** [std::fs::read_to_string] followed by [str::parse] *)
  document_parse : bytes -> option DocumentMut;
  document_to_bytes : DocumentMut -> bytes;
  document_get : DocumentMut -> string -> option Item;
  document_set : DocumentMut -> string -> Item -> DocumentMut;
  item_table : Table -> Item;
  item_value : TomlValue -> Item;
  as_table : Item -> option Table;
  as_value : Item -> option TomlValue;
  item_to_string : Item -> string;
  table_new : Table;
  table_iter : Table -> list (string * Item);
  table_insert : Table -> string -> Item -> Table;
  table_remove : Table -> string -> Table;
}.

Notation table_map t := (list_to_map (table_iter t) : gmap string Item).

Class TomlLaws `{Toml} : Prop := {
  document_get_set : forall d k i, document_get (document_set d k i) k = Some i;
  document_get_set_ne : forall d k k' i, k' <> k -> document_get (document_set d k i) k' = document_get d k';
  as_table_table : forall t, as_table (item_table t) = Some t;
  table_map_new : table_map table_new = ∅;
  table_map_insert : forall t k i, table_map (table_insert t k i) = <[k := i]> (table_map t);
  table_map_remove : forall t k, table_map (table_remove t k) = delete k (table_map t);
}.

Section Adapters.
Context `{Encodings, Toml, !SerdePretty Json, !Serde (gmap string Json)}.
Implicit Types (fs : Fs Path) (root : Path) (desired : gmap string (string * string))
  (owned : gmap string string).

Definition digest (data : bytes) : string := hex_encode (sha256 data).

(** ** Claude *)

Definition proxy_arguments (edge server : string) : list string := ["-e"; edge; "mcp"; "run"; server].

Definition proxy_json (edge server : string) : Json :=
  JObject (<["command" := JString "agent-scale"]>
           (<["args" := JArray (JString <$> proxy_arguments edge server)]> ∅)).

Definition json_fingerprint (value : Json) : string := digest (to_vec value).

Definition mcp_json_path root : Path := path_join root [Normal ".mcp.json"].

Definition prepare_claude fs root desired owned
  : result string (PreparedFile * gmap string string) :=
  let path := mcp_json_path root in
  document ← match fs !! path with
             | Some data => of_option (from_slice data) "parse .mcp.json"
             | None => Ok (JObject ∅)
             end;
  root_object ← match document with
                | JObject members => Ok members
                | _ => Err ".mcp.json root must be an object"
                end;
  servers ← match default (JObject ∅) (root_object !! "mcpServers") with
            | JObject members => Ok members
            | _ => Err ".mcp.json mcpServers must be an object"
            end;
  '(actions, owned) ← reconcile desired owned (json_fingerprint <$> servers)
      (fun edge server => json_fingerprint (proxy_json edge server)) "Claude";
  let servers := apply_actions proxy_json actions servers in
  let document := JObject (<["mcpServers" := JObject servers]> root_object) in
  Ok ({| pf_path := path; pf_bytes := with_newline (to_vec_pretty document) |}, owned).

(** ** Codex *)

Fixpoint toml_value_to_json (value : TomlValue) : Json :=
  match value with
  | TString s => JString s
  | TInteger n => JNumber (number_of_i64 n)
  | TFloat f => match number_of_f64 f with Some n => JNumber n | None => JNull end
  | TBoolean b => JBool b
  | TDatetime text => JString text
  | TArray values => JArray (List.map toml_value_to_json values)
  | TInlineTable table =>
      JObject (fold_left (fun m item => <[item.1 := item.2]> m)
        (List.map (fun item => (item.1, toml_value_to_json item.2)) table) ∅)
  end.

Definition toml_fingerprint (item : Item) : string :=
  match as_table item with
  | None => digest (String.list_byte_of_string (item_to_string item))
  | Some table =>
      let semantic := fold_left (fun m entry =>
        <[entry.1 := match as_value entry.2 with
                     | Some value => toml_value_to_json value
                     | None => JString (item_to_string entry.2)
                     end]> m) (table_iter table) (∅ : gmap string Json) in
      digest (to_vec semantic)
  end.

Definition proxy_toml (edge server : string) : Item :=
  let table := table_insert table_new "command" (item_value (TString "agent-scale")) in
  item_table (table_insert table "args"
    (item_value (TArray (TString <$> proxy_arguments edge server)))).

Definition apply_table_action (servers : Table) (action : ReconcileAction) : Table :=
  match action with
  | Put alias edge server => table_insert servers alias (proxy_toml edge server)
  | Remove alias => table_remove servers alias
  end.

Definition config_toml_path root : Path := path_join root [Normal ".codex"; Normal "config.toml"].

Definition prepare_codex fs root desired owned
  : result string (PreparedFile * gmap string string) :=
  let path := config_toml_path root in
  document ← of_option (document_parse (default [] (fs !! path))) "parse config.toml";
  let document := match document_get document "mcp_servers" with
                  | Some _ => document
                  | None => document_set document "mcp_servers" (item_table table_new)
                  end in
  servers ← of_option (document_get document "mcp_servers" ≫= as_table)
    "Codex mcp_servers must be a table";
  '(actions, owned) ← reconcile desired owned (toml_fingerprint <$> table_map servers)
      (fun edge server => toml_fingerprint (proxy_toml edge server)) "Codex";
  let servers := fold_left apply_table_action actions servers in
  let document := document_set document "mcp_servers" (item_table servers) in
  Ok ({| pf_path := path; pf_bytes := document_to_bytes document |}, owned).

(** ** [sync] *)

Definition client_path root (kind : ClientKind) : Path :=
  match kind with Claude => mcp_json_path root | Codex => config_toml_path root end.

Definition prepare (kind : ClientKind) fs root desired owned :=
  match kind with
  | Claude => prepare_claude fs root desired owned
  | Codex => prepare_codex fs root desired owned
  end.

Definition server_alias (edge server : string) : string := edge ++ "__" ++ server.

(** The inner loop over the servers of one catalog *)
Fixpoint add_servers (edge : string) (servers : list string) desired
  : result string (gmap string (string * string)) :=
  match servers with
  | [] => Ok desired
  | server :: servers =>
      ensure (desired !! server_alias edge server == None) "generated MCP alias collision";;
      add_servers edge servers (<[server_alias edge server := (edge, server)]> desired)
  end.

(** The loop over the edges; [catalog] is [client::mcp_list]. *)
Fixpoint collect_desired (catalog : string -> result string McpCatalog) (edges : list string) desired
  : result string (gmap string (string * string)) :=
  match edges with
  | [] => Ok desired
  | edge :: edges =>
      listed ← catalog edge;
      desired ← add_servers edge (btree_iter (mcp_servers listed)).*1 desired;
      collect_desired catalog edges desired
  end.

(** The health checks; [health] is [client::mcp_check]. *)
Fixpoint check_servers (health : string -> string -> result string unit)
  (targets : list (string * string)) : result string unit :=
  match targets with
  | [] => Ok tt
  | (edge, server) :: targets => health edge server;; check_servers health targets
  end.

Context `{!SerdePretty Manifest, !SerdePretty SyncJournal}.

Definition manifest_path root : Path :=
  path_join root [Normal ".agent-scale"; Normal "mcp-sync.json"].

Definition load_manifest fs root : result string Manifest :=
  match fs !! manifest_path root with
  | Some data => of_option (from_slice data) "parse manifest"
  | None => Ok {| mf_version := 0; mf_clients := ∅ |}
  end.

(** The loop over the kinds of client, in their order *)
Fixpoint prepare_clients fs root desired (kinds : list ClientKind)
  (clients : gmap string (gmap string string))
  : result string (list PreparedFile * gmap string (gmap string string)) :=
  match kinds with
  | [] => Ok ([], clients)
  | kind :: kinds =>
      '(file, owned) ← prepare kind fs root desired (default ∅ (clients !! client_key kind));
      '(files, clients) ← prepare_clients fs root desired kinds (<[client_key kind := owned]> clients);
      Ok (file :: files, clients)
  end.

(** Everything between the recovery of the journal and the commit. *)
Definition prepare_sync (catalog : string -> result string McpCatalog)
  (health : string -> string -> result string unit) root (edges : list string)
  (clients : list ClientKind) (check : bool) fs
  : result string (list PreparedFile * gmap string (string * string)) :=
  desired ← collect_desired catalog edges ∅;
  (if check then check_servers health (btree_iter desired).*2 else Ok tt);;
  manifest ← load_manifest fs root;
  ensure ((mf_version manifest =? 0) || (mf_version manifest =? 1))
    "unsupported MCP sync manifest version";;
  '(files, owned) ← prepare_clients fs root desired clients (mf_clients manifest);
  Ok ((files ++ [{| pf_path := manifest_path root;
                    pf_bytes := with_newline (to_vec_pretty
                      {| mf_version := 1; mf_clients := owned |}) |}])%list, desired).

(** The members of a [BTreeSet], in order *)
Definition edge_set (edges : list string) : list string :=
  (btree_iter (list_to_map ((fun e => (e, tt)) <$> edges) : gmap string unit)).*1.
Definition client_set (clients : list ClientKind) : list ClientKind :=
  Vec.retain (fun kind => bool_decide (kind ∈ clients)) [Claude; Codex].

(** [sync], once it holds the project's lock; the result is the number of
    servers it reports. *)
Definition sync (catalog : string -> result string McpCatalog)
  (health : string -> string -> result string unit) root (edges : list string)
  (clients : list ClientKind) (check : bool) : on_disk nat :=
  require (match edges with [] => false | _ => true end) "mcp sync requires at least one -e/--edge";;
  require (match clients with [] => false | _ => true end) "mcp sync requires --client";;
  recover_journal root;;
  fs ← get files;
  '(prepared, desired) ← lift (prepare_sync catalog health root (edge_set edges) (client_set clients) check fs);
  commit_prepared root prepared;;
  mret (size desired).

(** ** What a configuration holds *)

(** The members of [.mcp.json] and its servers; a missing file or member counts
    as empty. *)
Definition claude_members fs root : option (gmap string Json) :=
  match fs !! mcp_json_path root with
  | Some data => match from_slice data with Some (JObject members) => Some members | _ => None end
  | None => Some ∅
  end.

Definition claude_servers (members : gmap string Json) : option (gmap string Json) :=
  match members !! "mcpServers" with
  | Some (JObject servers) => Some servers
  | Some _ => None
  | None => Some ∅
  end.

Definition codex_servers (document : DocumentMut) : option (gmap string Item) :=
  match document_get document "mcp_servers" with
  | Some item => (fun t => table_map t) <$> as_table item
  | None => Some ∅
  end.

(** [fs'] holds the configuration of [fs] with its servers reconciled and
    everything else kept. *)
Definition client_synced (kind : ClientKind) root desired owned fs fs' : Prop :=
  match kind with
  | Claude => exists members members' servers servers',
      claude_members fs root = Some members /\ claude_servers members = Some servers /\
      claude_members fs' root = Some members' /\ claude_servers members' = Some servers' /\
      (forall key, key <> "mcpServers" -> members' !! key = members !! key) /\
      forall alias, projected proxy_json json_fingerprint desired owned servers alias (servers' !! alias)
  | Codex => exists document document' servers servers',
      document_parse (default [] (fs !! config_toml_path root)) = Some document /\
      codex_servers document = Some servers /\
      fs' !! config_toml_path root = Some (document_to_bytes document') /\
      codex_servers document' = Some servers' /\
      (forall key, key <> "mcp_servers" -> document_get document' key = document_get document key) /\
      forall alias, projected proxy_toml toml_fingerprint desired owned servers alias (servers' !! alias)
  end.

(** The fingerprints the manifest records. *)
Definition client_fingerprints (kind : ClientKind) desired : gmap string string :=
  (fun t => match kind with
            | Claude => json_fingerprint (proxy_json t.1 t.2)
            | Codex => toml_fingerprint (proxy_toml t.1 t.2)
            end) <$> desired.

Section Laws.
Context `{!TomlLaws, !SerdePrettyLaws Json, !SerdePrettyLaws Manifest, !SerdePrettyLaws SyncJournal}.

Lemma prepare_claude_inv fs root desired owned file owned' :
  prepare_claude fs root desired owned = Ok (file, owned') ->
  exists members servers actions,
    claude_members fs root = Some members /\ claude_servers members = Some servers /\
    reconcile desired owned (json_fingerprint <$> servers)
      (fun edge server => json_fingerprint (proxy_json edge server)) "Claude" = Ok (actions, owned') /\
    file = {| pf_path := mcp_json_path root;
              pf_bytes := with_newline (to_vec_pretty (JObject
                (<["mcpServers" := JObject (apply_actions proxy_json actions servers)]> members))) |}.
Proof.
  unfold prepare_claude, claude_members, claude_servers. intros R.
  apply bind_Ok in R as (document & Hd & R). apply bind_Ok in R as (members & Hm & R).
  destruct document; try done. injection Hm as ->.
  apply bind_Ok in R as (servers & Hs & R). apply bind_Ok in R as ([actions o] & Hr & R).
  injection R as <- <-. exists members, servers, actions. split_and!; [| |done|done].
  - destruct (fs !! mcp_json_path root); [|by injection Hd as ->].
    apply of_option_Ok in Hd. by rewrite Hd.
  - destruct (members !! "mcpServers") as [[]|]; cbn in Hs; try done; by injection Hs as ->.
Qed.

Lemma prepare_codex_inv fs root desired owned file owned' :
  prepare_codex fs root desired owned = Ok (file, owned') ->
  exists document servers actions,
    document_parse (default [] (fs !! config_toml_path root)) = Some document /\
    codex_servers document = Some (table_map servers) /\
    reconcile desired owned (toml_fingerprint <$> table_map servers)
      (fun edge server => toml_fingerprint (proxy_toml edge server)) "Codex" = Ok (actions, owned') /\
    exists document1,
      (forall key, key <> "mcp_servers" -> document_get document1 key = document_get document key) /\
      file = {| pf_path := config_toml_path root;
                pf_bytes := document_to_bytes (document_set document1 "mcp_servers"
                  (item_table (fold_left apply_table_action actions servers))) |}.
Proof.
  unfold prepare_codex, codex_servers. intros R.
  apply bind_Ok in R as (document & Hd%of_option_Ok & R). cbv zeta in R.
  set (document1 := match document_get _ _ with Some _ => _ | None => _ end) in R.
  apply bind_Ok in R as (servers & Hs%of_option_Ok & R). apply bind_Ok in R as ([actions o] & Hr & R).
  injection R as <- <-. exists document, servers, actions. split_and!; [done| |done|].
  - destruct (document_get document "mcp_servers") as [item|] eqn:Hi; cbn in Hs.
    + subst document1. rewrite Hi in Hs. cbn in Hs. by rewrite Hs.
    + subst document1. rewrite document_get_set in Hs. cbn in Hs. rewrite as_table_table in Hs.
      injection Hs as <-. by rewrite table_map_new.
  - exists document1. split; [|done]. intros key Hk. subst document1.
    destruct (document_get document "mcp_servers"); [done|]. by apply document_get_set_ne.
Qed.

Lemma table_map_actions actions servers :
  table_map (fold_left apply_table_action actions servers) =
  apply_actions proxy_toml actions (table_map servers).
Proof.
  unfold apply_actions. revert servers. induction actions as [|action actions IH]; intros servers; [done|].
  cbn. rewrite IH. f_equal.
  destruct action; cbn; [apply table_map_insert|apply table_map_remove].
Qed.

Lemma prepare_synced kind fs root desired owned file owned' :
  prepare kind fs root desired owned = Ok (file, owned') ->
  pf_path file = client_path root kind /\ owned' = client_fingerprints kind desired /\
  forall fs', fs' !! client_path root kind = Some (pf_bytes file) ->
    client_synced kind root desired owned fs fs'.
Proof.
  destruct kind; cbv beta iota delta [prepare client_path].
  - intros (members & servers & actions & Hm & Hs & Hr & ->)%prepare_claude_inv.
    destruct (reconcile_Ok _ _ _ _ _ _ _ _ Hr) as [Hp ->]. split_and!; [done..|].
    intros fs' Hf. cbn [pf_bytes] in Hf. eexists members, _, servers, _. split_and!; [done..| | | |exact Hp].
    + unfold claude_members. by rewrite Hf, from_slice_with_newline.
    + unfold claude_servers. by rewrite lookup_insert_eq.
    + intros key Hk. by apply lookup_insert_ne.
  - intros (document & servers & actions & Hd & Hs & Hr & document1 & Hk1 & ->)%prepare_codex_inv.
    destruct (reconcile_Ok _ _ _ _ _ _ _ _ Hr) as [Hp ->]. split_and!; [done..|].
    intros fs' Hf. cbn [pf_bytes] in Hf. eexists document, _, _, _. split_and!; [done..|exact Hf| | |exact Hp].
    + unfold codex_servers. rewrite document_get_set, as_table_table. cbn. by rewrite table_map_actions.
    + intros key Hk. rewrite document_get_set_ne by done. by apply Hk1.
Qed.

(** *** All clients *)

Lemma client_key_inj k k' : client_key k = client_key k' -> k = k'.
Proof. by destruct k, k'. Qed.

Lemma client_path_inj root k k' : client_path root k = client_path root k' -> k = k'.
Proof. destruct k, k'; try done; intros E; by apply app_inv_head in E. Qed.

Lemma prepare_clients_synced fs root desired kinds clients prepared clients' :
  NoDup kinds -> prepare_clients fs root desired kinds clients = Ok (prepared, clients') ->
  pf_path <$> prepared = client_path root <$> kinds /\
  (forall kind, kind ∈ kinds ->
     clients' !! client_key kind = Some (client_fingerprints kind desired) /\
     exists file, file ∈ prepared /\ pf_path file = client_path root kind /\
       forall fs', fs' !! client_path root kind = Some (pf_bytes file) ->
         client_synced kind root desired (default ∅ (clients !! client_key kind)) fs fs') /\
  (forall key, key ∉ client_key <$> kinds -> clients' !! key = clients !! key).
Proof.
  revert clients prepared clients'. induction kinds as [|kind kinds IH]; intros clients prepared clients' Hn R.
  { injection R as <- <-. split_and!; [done| |done]. intros k Hk. by apply elem_of_nil in Hk. }
  apply NoDup_cons in Hn as [Hk Hn]. cbn in R.
  apply bind_Ok in R as ([file owned'] & Hf & R). apply bind_Ok in R as ([files' c] & Hr & R).
  injection R as <- <-. apply prepare_synced in Hf as (Hp & -> & Hf).
  destruct (IH _ _ _ Hn Hr) as (Hps & Hks & Hos). split_and!.
  - cbn. by rewrite Hp, Hps.
  - intros k [->|Hin]%elem_of_cons.
    + split.
      * rewrite Hos, lookup_insert_eq; [done|].
        intros (k' & E%client_key_inj & Hk')%list_elem_of_fmap. by subst.
      * exists file. split_and!; [apply list_elem_of_here|done..].
    + destruct (Hks k Hin) as [? (g & Hg & Hgp & Hgs)]. split; [done|].
      exists g. split; [by right|]. split; [done|]. intros fs' Hl. specialize (Hgs fs' Hl).
      rewrite lookup_insert_ne in Hgs; [done|]. intros E%client_key_inj. by subst.
  - intros key Hkey. rewrite fmap_cons, not_elem_of_cons in Hkey. destruct Hkey as [Hne Hkey].
    rewrite Hos by done. by apply lookup_insert_ne.
Qed.

Lemma lookup_installed_out prepared fs p :
  p ∉ pf_path <$> prepared -> installed prepared fs !! p = fs !! p.
Proof.
  unfold installed. revert fs. induction prepared as [|f prepared IH]; intros fs Hp; [done|]. cbn.
  rewrite fmap_cons, not_elem_of_cons in Hp. destruct Hp as [Hne Hp].
  rewrite IH by done. by apply lookup_insert_ne.
Qed.

Lemma lookup_installed prepared fs file :
  NoDup (pf_path <$> prepared) -> file ∈ prepared ->
  installed prepared fs !! pf_path file = Some (pf_bytes file).
Proof.
  unfold installed. revert fs. induction prepared as [|f prepared IH]; intros fs Hn Hf.
  { by apply elem_of_nil in Hf. }
  rewrite fmap_cons, NoDup_cons in Hn. destruct Hn as [Hp Hn]. cbn.
  apply elem_of_cons in Hf as [->|Hf]; [|by apply IH].
  rewrite (lookup_installed_out prepared) by done. apply lookup_insert_eq.
Qed.

(** *** The desired servers *)

Lemma add_servers_lookup edge servers desired desired' :
  add_servers edge servers desired = Ok desired' ->
  forall alias t, desired' !! alias = Some t <->
    desired !! alias = Some t \/
    (exists server, server ∈ servers /\ alias = server_alias edge server /\ t = (edge, server)).
Proof.
  revert desired. induction servers as [|server servers IH]; intros desired R alias t; cbn in R.
  { injection R as <-. split; [by left|]. intros [?|(s & Hs & _)]; [done|by apply elem_of_nil in Hs]. }
  apply bind_Ok in R as ([] & Hfree%ensure_Ok & R). breflect. rewrite (IH _ R alias t).
  rewrite lookup_insert_Some. split.
  - intros [[[<- <-]|[_ Ht]]|(s & Hs & E & Et)]; [|by left|].
    + right. exists server. split_and!; [apply list_elem_of_here|done..].
    + right. exists s. split_and!; [by right|done..].
  - intros [Ht|(s & [->|Hs]%elem_of_cons & -> & ->)].
    + left. right. split; [|done]. intros <-. congruence.
    + by left; left.
    + right. by exists s.
Qed.

(** Exactly the servers of the chosen edges, under their aliases. *)
Definition desired_exact (catalog : string -> result string McpCatalog) (edges : list string) desired : Prop :=
  forall alias edge server, desired !! alias = Some (edge, server) <->
    edge ∈ edges /\ alias = server_alias edge server /\
    exists listed, catalog edge = Ok listed /\ is_Some (mcp_servers listed !! server).

Lemma collect_desired_lookup catalog edges desired desired' :
  collect_desired catalog edges desired = Ok desired' ->
  forall alias edge server, desired' !! alias = Some (edge, server) <->
    desired !! alias = Some (edge, server) \/
    (edge ∈ edges /\ alias = server_alias edge server /\
     exists listed, catalog edge = Ok listed /\ is_Some (mcp_servers listed !! server)).
Proof.
  revert desired. induction edges as [|e edges IH]; intros desired R alias edge server; cbn in R.
  { injection R as <-. split; [by left|]. intros [?|[Hs _]]; [done|by apply elem_of_nil in Hs]. }
  apply bind_Ok in R as (listed & Hl & R). apply bind_Ok in R as (desired1 & Ha & R).
  rewrite (IH _ R), (add_servers_lookup _ _ _ _ Ha), elem_of_cons. split.
  - intros [[Ht|(s & Hs%elem_of_btree_keys & -> & [= -> ->])]|(He & ? & ?)]; [by left| |by eauto].
    right. split_and!; [by left|done|]. by exists listed.
  - intros [Ht|([->|He] & -> & l & Hl' & Hs)]; [by left; left| |right; eauto].
    left. right. exists server. split; [|done]. apply elem_of_btree_keys. congruence.
Qed.

Lemma elem_of_edge_set edges e : e ∈ edge_set edges <-> e ∈ edges.
Proof.
  unfold edge_set. rewrite elem_of_btree_keys. split.
  - intros [[] E%elem_of_list_to_map_2]. apply list_elem_of_fmap in E as (x & [= ->] & Hx). done.
  - intros He. apply not_eq_None_Some. intros Hn%not_elem_of_list_to_map. apply Hn.
    rewrite <- list_fmap_compose. apply list_elem_of_fmap. by exists e.
Qed.

(** *** The result of a sync *)

(** The chosen clients hold the desired servers, the manifest records what was
    written for them, and nothing else differs. *)
Definition synced root (clients : list ClientKind) desired fs fs' : Prop :=
  exists manifest manifest', load_manifest fs root = Ok manifest /\ load_manifest fs' root = Ok manifest' /\
    (forall kind, kind ∈ clients ->
       client_synced kind root desired (default ∅ (mf_clients manifest !! client_key kind)) fs fs' /\
       mf_clients manifest' !! client_key kind = Some (client_fingerprints kind desired)) /\
    (forall kind, kind ∉ clients ->
       mf_clients manifest' !! client_key kind = mf_clients manifest !! client_key kind) /\
    (forall p, p <> manifest_path root -> p ∉ client_path root <$> clients -> fs' !! p = fs !! p).

Lemma elem_of_client_set clients kind : kind ∈ client_set clients <-> kind ∈ clients.
Proof.
  unfold client_set. rewrite Vec.elem_of_retain, bool_decide_eq_true.
  split; [by intros []|]. intros Hk. split; [destruct kind; set_solver|done].
Qed.

Lemma NoDup_client_set clients : NoDup (client_set clients).
Proof.
  unfold client_set. cbn. do 2 case_bool_decide; cbn; apply (bool_decide_unpack _); by vm_compute.
Qed.

Lemma sync_paths_distinct root kind : client_path root kind <> manifest_path root.
Proof. destruct kind; intros E; by apply app_inv_head in E. Qed.

Lemma NoDup_sync_paths root clients :
  NoDup ((client_path root <$> client_set clients) ++ [manifest_path root])%list.
Proof.
  apply NoDup_app. split_and!; [| |apply NoDup_singleton].
  - apply NoDup_fmap_2_strong; [|apply NoDup_client_set]. intros k k' _ _. apply client_path_inj.
  - intros p (k & -> & _)%list_elem_of_fmap. rewrite list_elem_of_singleton. apply sync_paths_distinct.
Qed.

Lemma sync_paths_not_journal root clients p :
  p ∈ ((client_path root <$> client_set clients) ++ [manifest_path root])%list -> p <> journal_path root.
Proof.
  rewrite elem_of_app, list_elem_of_singleton.
  intros [(k & -> & _)%list_elem_of_fmap| ->] E; [destruct k|]; by apply app_inv_head in E.
Qed.

Lemma prepare_sync_synced catalog health root edges clients check fs prepared desired :
  prepare_sync catalog health root edges (client_set clients) check fs = Ok (prepared, desired) ->
  desired_exact catalog edges desired /\
  synced root clients desired fs (installed prepared fs) /\
  forall f, f ∈ prepared -> pf_path f <> journal_path root.
Proof.
  intros R. unfold prepare_sync in R. apply bind_Ok in R as (desired1 & Hc & R).
  apply bind_Ok in R as ([] & _ & R). apply bind_Ok in R as (manifest & Hm & R).
  apply bind_Ok in R as ([] & _ & R). apply bind_Ok in R as ([files' owned] & Hp & R).
  injection R as <- ->.
  apply prepare_clients_synced in Hp as (Hps & Hks & Hos); [|apply NoDup_client_set].
  set (last := {| pf_path := manifest_path root; pf_bytes := _ |}).
  assert (Hpaths : pf_path <$> (files' ++ [last])%list =
    ((client_path root <$> client_set clients) ++ [manifest_path root])%list)
    by (by rewrite fmap_app, Hps).
  assert (Hn : NoDup (pf_path <$> (files' ++ [last])%list)) by (rewrite Hpaths; apply NoDup_sync_paths).
  split; [|split].
  - intros alias edge server. rewrite (collect_desired_lookup _ _ _ _ Hc). rewrite lookup_empty.
    split; [by intros [?|?]|by right].
  - eexists manifest, _. split; [done|]. split; [|split; [|split]].
    + unfold load_manifest. change (manifest_path root) with (pf_path last) at 1.
      rewrite lookup_installed; [|done|set_solver]. cbn -[with_newline]. by rewrite from_slice_with_newline.
    + intros kind Hk%elem_of_client_set. destruct (Hks kind Hk) as [Hf (file & Hin & Hfp & Hs)].
      split; [|done]. apply Hs. rewrite <- Hfp. apply lookup_installed; [done|set_solver].
    + intros kind Hk. apply Hos. intros (k & E%client_key_inj & Hin)%list_elem_of_fmap.
      rewrite elem_of_client_set in Hin. by subst.
    + intros p Hne Hpc. apply lookup_installed_out. rewrite Hpaths, elem_of_app, list_elem_of_singleton.
      intros [(k & -> & Hin)%list_elem_of_fmap| ->]; [|done].
      rewrite elem_of_client_set in Hin. apply Hpc. apply list_elem_of_fmap. eauto.
  - intros f Hf. assert (Hin : pf_path f ∈ pf_path <$> (files' ++ [last])%list) by (apply list_elem_of_fmap; eauto).
    rewrite Hpaths, elem_of_app, list_elem_of_singleton in Hin. apply (sync_paths_not_journal _ clients).
    by rewrite elem_of_app, list_elem_of_singleton.
Qed.

(** C9. A sync is all or nothing, and right when it succeeds. From any disk an
    earlier interrupted sync can have left, the files a reader should see end up
    either as they were or with exactly the servers of the chosen edges projected
    into every chosen client's configuration, hand-written entries and the rest of
    each document kept, and the manifest updated; success means the latter, with
    no journal left. *)
Theorem sync_all_or_nothing catalog health root edges clients check d d' r :
  recoverable root (files d) ->
  sync catalog health root edges clients check d = (d', r) ->
  recoverable root (files d') /\
  (view root (files d') = view root (files d) \/
   exists desired, desired_exact catalog edges desired /\
     synced root clients desired (view root (files d)) (view root (files d'))) /\
  (forall count, r = Ok count ->
     files d' !! journal_path root = None /\
     exists desired, desired_exact catalog edges desired /\ count = size desired /\
       synced root clients desired (view root (files d)) (files d')).
Proof.
  intros Hr R. unfold sync in R. hstep R; [|subst; split_and!; [done|by left|done]].
  hstep R; [|subst; split_and!; [done|by left|done]].
  apply bind_inv in R as [([] & d1 & Rec & R)|(e & Rec & ->)].
  2: { destruct (recover_run root d d' _ Hr Rec) as (? & ? & _). split_and!; [done|by left|done]. }
  destruct (recover_run root d d1 _ Hr Rec) as (Hr1 & Hv1 & Hok). destruct (Hok eq_refl) as [Hf Hj].
  hstep R. hstep R; [|subst; split_and!; [done|by left|done]].
  rewrite <- Hf. destruct (prepare_sync_synced _ _ _ _ _ _ _ _ _ E1) as (Hd & Hs & Hp).
  assert (Hd' : desired_exact catalog edges g).
  { intros alias edge server. rewrite (Hd alias edge server). by rewrite elem_of_edge_set. }
  apply bind_inv in R as [([] & d2 & C & R)|(e & C & ->)];
    destruct (commit_run root _ _ _ _ Hj Hp C) as (Hr2 & Hv2 & Hok2).
  - destruct (Hok2 eq_refl) as [Hi Hn]. injection R as <- <-. rewrite Hi. split_and!.
    + by rewrite <- Hi.
    + right. exists g. split; [done|]. rewrite view_clean; [done|by rewrite <- Hi].
    + intros count [= <-]. split; [by rewrite <- Hi|]. by exists g.
  - split_and!; [done| |done]. destruct Hv2 as [-> | ->]; [by left|]. right. by exists g.
Qed.
End Laws.
End Adapters.
