(* ===== verification/Toy.v ===== *)
(** * Instances that compute

    Concrete instances of the classes of [Deps.v], with proofs of their laws:
    identities are bit strings, a signature is a one-byte checksum, the hash is
    the identity and serialization is a prefix code. They are neither secure nor
    the formats of the real crates; they show that the hypotheses of the theorems
    are satisfiable and let the scenarios of [Scenario.v] run. *)
From S2P Require Import Prelude Deps RelayApi ControlApi.
Open Scope string_scope.
Open Scope Z_scope.
#[local] Unset Program Cases.

(** ** A prefix code for data *)

Class Codec (A : Type) := {
  enc : A -> bytes;
  dec : bytes -> option (A * bytes);
  dec_enc : forall x rest, dec (enc x ++ rest)%list = Some (x, rest);
}.

Program Definition codec_map {A B} `{Codec A} (f : A -> B) (g : B -> A)
  (Hfg : forall y, f (g y) = y) : Codec B := {|
  enc y := enc (g y);
  dec b := match dec b with Some (x, rest) => Some (f x, rest) | None => None end;
|}.
Next Obligation. intros A B C f g Hfg y rest. cbn. by rewrite dec_enc, Hfg. Qed.

#[global] Program Instance codec_byte : Codec Byte.byte := {|
  enc b := [b];
  dec b := match b with x :: rest => Some (x, rest) | [] => None end;
|}.
Next Obligation. done. Qed.

#[global] Program Instance codec_unit : Codec unit := {|
  enc _ := [];
  dec b := Some (tt, b);
|}.
Next Obligation. by intros []. Qed.

#[global] Program Instance codec_pair {A B} `{Codec A, Codec B} : Codec (A * B) := {|
  enc p := (enc (fst p) ++ enc (snd p))%list;
  dec b := match dec b with
           | Some (x, rest) =>
               match dec rest with Some (y, rest) => Some ((x, y), rest) | None => None end
           | None => None
           end;
|}.
Next Obligation. intros A B ? ? [x y] rest. cbn. by rewrite <- app_assoc, !dec_enc. Qed.

#[global] Program Instance codec_sum {A B} `{Codec A, Codec B} : Codec (A + B) := {|
  enc s := match s with inl x => Byte.x00 :: enc x | inr y => Byte.x01 :: enc y end;
  dec b := match b with
           | Byte.x00 :: b => match dec b with Some (x, rest) => Some (inl x, rest) | None => None end
           | Byte.x01 :: b => match dec b with Some (y, rest) => Some (inr y, rest) | None => None end
           | _ => None
           end;
|}.
Next Obligation. intros A B ? ? [x|y] rest; cbn; by rewrite dec_enc. Qed.

(** Lists: a marker before each element and one at the end. *)
Section Lists.
Context {A : Type} `{Codec A}.

Fixpoint enc_list (l : list A) : bytes :=
  match l with
  | [] => [Byte.x00]
  | x :: l => (Byte.x01 :: enc x ++ enc_list l)%list
  end.

Fixpoint dec_list (fuel : nat) (b : bytes) : option (list A * bytes) :=
  match fuel, b with
  | S fuel, Byte.x01 :: b =>
      match dec b with
      | Some (x, b) => match dec_list fuel b with
                       | Some (l, rest) => Some (x :: l, rest) | None => None end
      | None => None
      end
  | S _, Byte.x00 :: rest => Some ([], rest)
  | _, _ => None
  end.

Lemma dec_enc_list l rest fuel :
  (length (enc_list l) <= fuel)%nat -> dec_list fuel (enc_list l ++ rest) = Some (l, rest).
Proof.
  revert fuel. induction l as [|x l IH]; intros [|fuel] Hf; cbn in Hf; try lia; [done|].
  cbn. rewrite <- app_assoc, dec_enc, IH; [done|]. rewrite length_app in Hf. lia.
Qed.
End Lists.

#[global] Program Instance codec_list {A} `{Codec A} : Codec (list A) := {|
  enc := enc_list;
  dec b := dec_list (length b) b;
|}.
Next Obligation. intros A ? l rest. apply dec_enc_list. rewrite length_app. lia. Qed.

(** Numbers, from the sign and the bits. *)
Fixpoint enc_positive (p : positive) : bytes :=
  match p with
  | xH => [Byte.x00]
  | xO p => Byte.x01 :: enc_positive p
  | xI p => Byte.x02 :: enc_positive p
  end.
Fixpoint dec_positive (b : bytes) : option (positive * bytes) :=
  match b with
  | Byte.x00 :: rest => Some (xH, rest)
  | Byte.x01 :: b => match dec_positive b with Some (p, rest) => Some (xO p, rest) | None => None end
  | Byte.x02 :: b => match dec_positive b with Some (p, rest) => Some (xI p, rest) | None => None end
  | _ => None
  end.
#[global] Program Instance codec_positive : Codec positive := {|
  enc := enc_positive; dec := dec_positive |}.
Next Obligation. induction x as [p IH|p IH|]; intros rest; cbn; by rewrite ?IH. Qed.

#[global] Program Instance codec_Z : Codec Z :=
  codec_map (A := unit + (positive + positive))
    (fun s => match s with inl _ => Z0 | inr (inl p) => Zpos p | inr (inr p) => Zneg p end)
    (fun x => match x with Z0 => inl tt | Zpos p => inr (inl p) | Zneg p => inr (inr p) end) _.
Next Obligation. by intros []. Qed.

#[global] Program Instance codec_string : Codec string :=
  codec_map (A := bytes) String.string_of_list_byte String.list_byte_of_string
    String.string_of_list_byte_of_string.

#[global] Program Instance codec_option {A} `{Codec A} : Codec (option A) :=
  codec_map (A := unit + A) (fun s => match s with inl _ => None | inr x => Some x end)
    (fun o => match o with None => inl tt | Some x => inr x end) _.
Next Obligation. by intros A ? []. Qed.

#[global] Instance codec_bool : Codec bool :=
  codec_map (A := unit + unit) (fun s => match s with inl _ => true | inr _ => false end)
    (fun b : bool => if b then inl tt else inr tt)
    (fun b => match b with true => eq_refl | false => eq_refl end).

(** A codec is a serializer that round-trips; a final newline is skipped, as
    serde_json does. *)
#[global] Instance serde_codec {A} `{Codec A} : Serde A | 100 := {|
  to_vec := enc;
  from_slice b := match dec b with Some (x, []) | Some (x, [Byte.x0a]) => Some x | _ => None end |}.
#[global] Instance serde_codec_ok {A} `{Codec A} : SerdeLaws A.
Proof. split. intros x. cbn. rewrite <- (app_nil_r (enc x)). by rewrite dec_enc. Qed.

(** ** Identities *)

(** A secret key is a byte, its identity the byte's binary digits after the first. *)
Fixpoint positive_bits (p : positive) : list bool :=
  match p with
  | xH => []
  | xO p => positive_bits p ++ [false]
  | xI p => positive_bits p ++ [true]
  end%list.
Definition key_bits (key : Byte.byte) : list bool :=
  match Byte.to_N key with N0 => [] | Npos p => positive_bits p end.

Definition show_bits (l : list bool) : string :=
  String "k" (String.string_of_list_ascii ((fun b : bool => if b then "1"%char else "0"%char) <$> l)).
Fixpoint read_bits (s : string) : option (list bool) :=
  match s with
  | EmptyString => Some []
  | String "1" s => match read_bits s with Some l => Some (true :: l) | None => None end
  | String "0" s => match read_bits s with Some l => Some (false :: l) | None => None end
  | String _ _ => None
  end.

Definition checksum (key : list bool) (m : bytes) : Byte.byte :=
  default Byte.x00 (Byte.of_N
    (fold_left (fun a b => (5 * a + Byte.to_N b) mod 251)%N m (N.of_nat (length key)))).

#[global] Instance toy_keys : Keys := {|
  EndpointId := list bool;
  SecretKey := Byte.byte;
  Signature := Byte.byte;
  public := key_bits;
  id_to_string := show_bits;
  id_parse s := match s with String "k" s => read_bits s | _ => None end;
  key_sign key := checksum (key_bits key);
  id_verify id m s := bool_decide (s = checksum id m);
  sig_to_bytes := replicate 64;
  sig_from_bytes b := default Byte.x00 (head b);
|}.

#[global] Instance toy_keys_ok : KeysLaws.
Proof.
  split; try done.
  - intros l. cbn. induction l as [|[] l IH]; cbn in *; [done|by rewrite IH..].
  - intros k m. by apply bool_decide_eq_true.
  - intros l c. cbn. rewrite elem_of_cons, String.list_ascii_of_string_of_list_ascii. intros [->|Hc]; [done|].
    apply list_elem_of_fmap in Hc as ([] & -> & _); done.
Qed.

(** ** Encodings *)

Definition hex_digit (n : N) : ascii := Ascii.ascii_of_N (if (n <? 10)%N then 48 + n else 87 + n).
Definition unhex_digit (c : ascii) : option N :=
  let n := Ascii.N_of_ascii c in
  if ((48 <=? n) && (n <=? 57))%N then Some (n - 48)%N
  else if ((97 <=? n) && (n <=? 102))%N then Some (n - 87)%N
  else None.

Fixpoint to_hex (b : bytes) : string :=
  match b with
  | [] => EmptyString
  | x :: b => String (hex_digit (Byte.to_N x / 16)) (String (hex_digit (Byte.to_N x mod 16)) (to_hex b))
  end.
Fixpoint of_hex (s : string) : option bytes :=
  match s with
  | EmptyString => Some []
  | String c (String d s) =>
      match unhex_digit c, unhex_digit d, of_hex s with
      | Some hi, Some lo, Some b => match Byte.of_N (16 * hi + lo) with
                                    | Some x => Some (x :: b) | None => None end
      | _, _, _ => None
      end
  | _ => None
  end.

#[global] Instance toy_encodings : Encodings := {|
  sha256 := id;
  hex_encode := to_hex; hex_decode := of_hex;
  b64_encode := to_hex; b64_decode := of_hex;
|}.

Lemma of_to_hex b : of_hex (to_hex b) = Some b.
Proof. induction b as [|x b IH]; [done|]. cbn [to_hex of_hex]. rewrite IH. by destruct x. Qed.

#[global] Instance toy_encodings_ok : EncodingsLaws.
Proof.
  split; [exact of_to_hex| | |exact of_to_hex].
  - induction b as [|x b IH]; [done|]. cbn -[Nat.mul] in *. rewrite IH. lia.
  - intros b c. induction b as [|x b IH]; [by intros ?%not_elem_of_nil|].
    cbn. rewrite !elem_of_cons. intros [->|[->|?]]; [by destruct x..|by apply IH].
Qed.

(** ** Serializers of the messages *)

#[global] Instance codec_subject_kind : Codec RelaySubjectKind :=
  codec_map (A := unit + unit)
    (fun s => match s with inl _ => SubjectClient | inr _ => SubjectEdge end)
    (fun k => match k with SubjectClient => inl tt | SubjectEdge => inr tt end)
    (fun k => match k with SubjectClient => eq_refl | SubjectEdge => eq_refl end).

#[global] Instance codec_credential : Codec RelayCredential :=
  codec_map (A := Z * string * string * string * RelaySubjectKind * Z * Z * Z)
    (fun '(a, b, c, d, e, f, g, h) => Build_RelayCredential a b c d e f g h)
    (fun '(Build_RelayCredential a b c d e f g h) => (a, b, c, d, e, f, g, h))
    (fun '(Build_RelayCredential _ _ _ _ _ _ _ _) => eq_refl).
#[global] Instance codec_signed_credential : Codec SignedRelayCredential :=
  codec_map (A := RelayCredential * Byte.byte)
    (fun '(a, b) => {| src_credential := a; src_signature := b |})
    (fun s => (src_credential s, src_signature s))
    (fun '{| src_credential := a; src_signature := b |} => eq_refl).
#[global] Instance codec_revocation : Codec Revocation :=
  codec_map (A := string * Z * Z * Z)
    (fun '(a, b, c, d) => Build_Revocation a b c d)
    (fun '(Build_Revocation a b c d) => (a, b, c, d))
    (fun '(Build_Revocation _ _ _ _) => eq_refl).
#[global] Instance codec_update : Codec RevocationUpdate :=
  codec_map (A := Z * string * Z * Z * list Revocation)
    (fun '(a, b, c, d, e) => Build_RevocationUpdate a b c d e)
    (fun '(Build_RevocationUpdate a b c d e) => (a, b, c, d, e))
    (fun '(Build_RevocationUpdate _ _ _ _ _) => eq_refl).

#[global] Instance codec_kind : Codec InviteKind :=
  codec_map (A := unit + (string + string))
    (fun s => match s with inl _ => KClient | inr (inl x) => KEdge x | inr (inr x) => KRelay x end)
    (fun k => match k with KClient => inl tt | KEdge x => inr (inl x) | KRelay x => inr (inr x) end)
    (fun k => match k with KClient => eq_refl | KEdge _ => eq_refl | KRelay _ => eq_refl end).
#[global] Instance codec_invite : Codec Invite :=
  codec_map (A := Z * string * string * string * string * string * InviteKind * string * Z)
    (fun '(a, b, c, d, e, f, g, h, i) => Build_Invite a b c d e f g h i)
    (fun '(Build_Invite a b c d e f g h i) => (a, b, c, d, e, f, g, h, i))
    (fun '(Build_Invite _ _ _ _ _ _ _ _ _) => eq_refl).
#[global] Instance codec_join_token : Codec JoinToken :=
  codec_map (A := Invite * string * Byte.byte)
    (fun '(a, b, c) => {| jt_invite := a; jt_secret := b; jt_signature := c |})
    (fun t => (jt_invite t, jt_secret t, jt_signature t))
    (fun '{| jt_invite := a; jt_secret := b; jt_signature := c |} => eq_refl).
#[global] Instance codec_claim : Codec Claim :=
  codec_map (A := Z * string * string * Z * string * option Z * option bytes)
    (fun '(a, b, c, d, e, f, g) => Build_Claim a b c d e f g)
    (fun '(Build_Claim a b c d e f g) => (a, b, c, d, e, f, g))
    (fun '(Build_Claim _ _ _ _ _ _ _) => eq_refl).
#[global] Instance codec_relay_info : Codec RelayInfo :=
  codec_map (A := string * string * option Z)
    (fun '(a, b, c) => Build_RelayInfo a b c) (fun '(Build_RelayInfo a b c) => (a, b, c))
    (fun '(Build_RelayInfo _ _ _) => eq_refl).
#[global] Instance codec_edge_info : Codec EdgeInfo :=
  codec_map (A := string * string * string * string)
    (fun '(a, b, c, d) => Build_EdgeInfo a b c d) (fun '(Build_EdgeInfo a b c d) => (a, b, c, d))
    (fun '(Build_EdgeInfo _ _ _ _) => eq_refl).
#[global] Instance codec_node_map : Codec NodeMap :=
  codec_map (A := Z * string * string * string * Z * Z * string * list RelayInfo * option string *
                  bytes * list string * list EdgeInfo)
    (fun '(a, b, c, d, e, f, g, h, i, j, k, l) => Build_NodeMap a b c d e f g h i j k l)
    (fun '(Build_NodeMap a b c d e f g h i j k l) => (a, b, c, d, e, f, g, h, i, j, k, l))
    (fun '(Build_NodeMap _ _ _ _ _ _ _ _ _ _ _ _) => eq_refl).

Definition action_data : Type :=
  unit + (string * Z * string + (string * string * Z * string + (string + (string +
  (string * string + string * string * string * string))))).
#[global] Instance codec_action : Codec ProvisionerAction :=
  codec_map (A := action_data)
    (fun s => match s with
     | inl _ => GetTopology
     | inr (inl (a, b, c)) => InviteClient a b c
     | inr (inr (inl (a, b, c, d))) => InviteEdge a b c d
     | inr (inr (inr (inl a))) => RevokeInvite a
     | inr (inr (inr (inr (inl a)))) => RemoveClient a
     | inr (inr (inr (inr (inr (inl (a, b)))))) => RemoveEdge a b
     | inr (inr (inr (inr (inr (inr (a, b, c, d)))))) => TransferEdge a b c d
     end)
    (fun x => match x with
     | GetTopology => inl tt
     | InviteClient a b c => inr (inl (a, b, c))
     | InviteEdge a b c d => inr (inr (inl (a, b, c, d)))
     | RevokeInvite a => inr (inr (inr (inl a)))
     | RemoveClient a => inr (inr (inr (inr (inl a))))
     | RemoveEdge a b => inr (inr (inr (inr (inr (inl (a, b))))))
     | TransferEdge a b c d => inr (inr (inr (inr (inr (inr (a, b, c, d))))))
     end)
    (fun x => match x with
     | GetTopology | InviteClient _ _ _ | InviteEdge _ _ _ _ | RevokeInvite _ | RemoveClient _
     | RemoveEdge _ _ | TransferEdge _ _ _ _ => eq_refl end).
#[global] Instance codec_provisioner_request : Codec ProvisionerRequest :=
  codec_map (A := Z * string * string * Z * option Z * ProvisionerAction)
    (fun '(a, b, c, d, e, f) => Build_ProvisionerRequest a b c d e f)
    (fun '(Build_ProvisionerRequest a b c d e f) => (a, b, c, d, e, f))
    (fun '(Build_ProvisionerRequest _ _ _ _ _ _) => eq_refl).

#[global] Instance toy_serde : ControlSerde.
Proof. split; unfold EdgeInvitePayload, EdgeRemovePayload, StatusPayload, WatchPayload; apply _. Defined.
#[global] Instance toy_serde_ok : ControlSerdeLaws.
Proof. split; apply serde_codec_ok. Qed.

(** ** Addresses and certificates *)

Record ToyUrl := { tu_scheme : string; tu_host : string; tu_path : string; tu_fragment : option string }.

Definition split_fragment (s : string) : string * option string :=
  match Str.split_once "#" s with Some (s, fragment) => (s, Some fragment) | None => (s, None) end.

Definition toy_url_parse (s : string) : result string ToyUrl :=
  match Str.split_once ":" s with
  | Some (scheme, rest) =>
      match Str.strip_prefix "//" rest with
      | Some rest =>
          let '(rest, fragment) := split_fragment rest in
          let '(host, path) := default (rest, "") (Str.split_once "/" rest) in
          Ok {| tu_scheme := scheme; tu_host := host; tu_path := "/" ++ path; tu_fragment := fragment |}
      | None => Err "relative URL without a base"
      end
  | None => Err "relative URL without a base"
  end.

#[global] Instance toy_urls : Urls := {|
  Url := ToyUrl;
  url_parse := toy_url_parse;
  url_scheme := tu_scheme;
  url_host_str u := Some (tu_host u);
  url_path := tu_path;
  url_query _ := None;
  url_fragment := tu_fragment;
  url_set_path u p :=
    {| tu_scheme := tu_scheme u; tu_host := tu_host u; tu_path := p; tu_fragment := tu_fragment u |};
  url_to_string u := tu_scheme u ++ "://" ++ tu_host u ++ tu_path u ++
    match tu_fragment u with Some f => "#" ++ f | None => "" end;
|}.

(** A signing request is its host name; a certificate repeats it. *)
#[global] Instance toy_certificates : Certificates := {|
  Issuer := unit;
  SigningRequest := string;
  SanType := string;
  DistinguishedName := list string;
  csr_from_der b := if b == [] then Err "empty request" else Ok (String.string_of_list_byte b);
  csr_subject_alt_names r := [r];
  params_new h := Ok ([h], []);
  dn_push_common_name dn n := (dn ++ [n])%list;
  csr_signed_by r profile _ :=
    Ok (String.list_byte_of_string (String.concat ";" (r :: cp_distinguished_name profile)));
  issuer_from_ca_cert_der key_der cert_der :=
    if (key_der == []) || (cert_der == []) then Err "parse Relay CA certificate" else Ok tt;
|}.
