(* ===== verification/ToyNodes.v ===== *)
(** * Instances that compute, for Edges and Clients

    Concrete instances, with proofs of their laws, of the classes that the
    components of as-edge and agent-scale assume: serializers of their files and
    messages, key files, relay URLs, blobs, addresses, JSON and TOML documents. *)
From S2P Require Import Prelude Deps RelayApi ControlApi Toy.
From S2P Require Import Transport Files Protocol Proxy RelayTable EdgeNode ClientConfig McpRegistry Requests Transfer.
From S2P Require Import McpSync SyncJournal McpAdapters ControlCore DaemonRelays.
From S2P Require RelayNode.
Open Scope string_scope.
Open Scope Z_scope.
#[local] Unset Program Cases.

(** ** More codecs *)

#[global] Instance codec_gmap {A} `{Codec A} : Codec (gmap string A) :=
  codec_map (A := list (string * A)) list_to_map map_to_list (list_to_map_to_list (M := gmap string)).

(** Any countable type, through its numbers *)
Program Definition codec_countable {A} `{Countable A} (x0 : A) : Codec A :=
  codec_map (A := positive) (fun p => default x0 (decode p)) encode _.
Next Obligation. intros A ? ? x0 x. cbn. by rewrite decode_encode. Qed.

(** A pretty printer that prints like the other one *)
Definition pretty_codec {A} `{Codec A} : SerdePretty A := {| pretty_serde := serde_codec; to_vec_pretty := enc |}.
Lemma pretty_codec_ok {A} `{Codec A} : @SerdePrettyLaws A pretty_codec.
Proof.
  split; intros x; cbn.
  - rewrite <- (app_nil_r (enc x)). by rewrite dec_enc.
  - by rewrite dec_enc.
Qed.

(** ** The protocol *)

#[global] Instance codec_transport : Codec McpTransport :=
  codec_map (A := string * list string * option string + (string + string))
    (fun s => match s with inl (a, b, c) => Stdio a b c | inr (inl a) => Http a | inr (inr a) => Sse a end)
    (fun t => match t with Stdio a b c => inl (a, b, c) | Http a => inr (inl a) | Sse a => inr (inr a) end)
    (fun t => match t with Stdio _ _ _ => eq_refl | Http _ => eq_refl | Sse _ => eq_refl end).
#[global] Instance codec_catalog : Codec McpCatalog :=
  codec_map (A := Z * gmap string McpTransport)
    (fun '(a, b) => {| mcp_revision := a; mcp_servers := b |}) (fun c => (mcp_revision c, mcp_servers c))
    (fun '{| mcp_revision := a; mcp_servers := b |} => eq_refl).
#[global] Instance codec_remote_error : Codec RemoteError :=
  codec_map (A := string * string)
    (fun '(a, b) => {| re_code := a; re_message := b |}) (fun e => (re_code e, re_message e))
    (fun '{| re_code := a; re_message := b |} => eq_refl).
#[global] Instance codec_rpc {T} `{Codec T} : Codec (RpcResult T) :=
  codec_map (A := RemoteError + T)
    (fun s => match s with inl e => RpcError e | inr x => RpcOk x end)
    (fun r => match r with RpcError e => inl e | RpcOk x => inr x end)
    (fun r => match r with RpcError _ => eq_refl | RpcOk _ => eq_refl end).
#[global] Instance codec_transfer : Codec TransferResult :=
  codec_map (A := string + Z)
    (fun s => match s with inl h => DownloadReady h | inr n => Stored n end)
    (fun r => match r with DownloadReady h => inl h | Stored n => inr n end)
    (fun r => match r with DownloadReady _ => eq_refl | Stored _ => eq_refl end).
#[global] Instance codec_exec : Codec ExecParams :=
  codec_map (A := string * list string * option string)
    (fun '(a, b, c) => {| ex_command := a; ex_args := b; ex_cwd := c |})
    (fun p => (ex_command p, ex_args p, ex_cwd p))
    (fun '{| ex_command := a; ex_args := b; ex_cwd := c |} => eq_refl).
#[global] Instance codec_target : Codec ProxyTarget :=
  codec_map (A := string * Z) (fun '(a, b) => {| host := a; port := b |}) (fun t => (host t, port t))
    (fun '{| host := a; port := b |} => eq_refl).

Definition request_data : Type :=
  ExecParams + (string + (string * string * string * string + (unit + (string * McpTransport + (string + (string +
  (ProxyTarget * Z + Z))))))).
#[global] Instance codec_edge_request : Codec EdgeReq :=
  codec_map (A := request_data)
    (fun s => match s with
     | inl a => Exec a
     | inr (inl a) => PrepareDownload a
     | inr (inr (inl (a, b, c, d))) => ReceiveUpload a b c d
     | inr (inr (inr (inl _))) => McpList
     | inr (inr (inr (inr (inl (a, b))))) => McpUpsert a b
     | inr (inr (inr (inr (inr (inl a))))) => McpRemove a
     | inr (inr (inr (inr (inr (inr (inl a)))))) => McpConnect a
     | inr (inr (inr (inr (inr (inr (inr (inl (a, b)))))))) => ProxyTcpConnect a b
     | inr (inr (inr (inr (inr (inr (inr (inr a))))))) => ProxyUdpAssociate a
     end)
    (fun r => match r with
     | Exec a => inl a
     | PrepareDownload a => inr (inl a)
     | ReceiveUpload a b c d => inr (inr (inl (a, b, c, d)))
     | McpList => inr (inr (inr (inl tt)))
     | McpUpsert a b => inr (inr (inr (inr (inl (a, b)))))
     | McpRemove a => inr (inr (inr (inr (inr (inl a)))))
     | McpConnect a => inr (inr (inr (inr (inr (inr (inl a))))))
     | ProxyTcpConnect a b => inr (inr (inr (inr (inr (inr (inr (inl (a, b))))))))
     | ProxyUdpAssociate a => inr (inr (inr (inr (inr (inr (inr (inr a)))))))
     end)
    (fun r => match r with
     | Exec _ | PrepareDownload _ | ReceiveUpload _ _ _ _ | McpList | McpUpsert _ _ | McpRemove _
     | McpConnect _ | ProxyTcpConnect _ _ | ProxyUdpAssociate _ => eq_refl end).

(** ** The local protocol, without proxy commands *)

Definition op_data : Type :=
  ExecParams + (string * string + (string * string + (unit + (string * McpTransport + (string + string))))).
#[global] Instance codec_client_op : Codec ClientOp :=
  codec_map (A := op_data)
    (fun s => match s with
     | inl a => OpExec a
     | inr (inl (a, b)) => OpUpload a b
     | inr (inr (inl (a, b))) => OpDownload a b
     | inr (inr (inr (inl _))) => OpMcpList
     | inr (inr (inr (inr (inl (a, b))))) => OpMcpUpsert a b
     | inr (inr (inr (inr (inr (inl a))))) => OpMcpRemove a
     | inr (inr (inr (inr (inr (inr a))))) => OpMcpConnect a
     end)
    (fun r => match r with
     | OpExec a => inl a
     | OpUpload a b => inr (inl (a, b))
     | OpDownload a b => inr (inr (inl (a, b)))
     | OpMcpList => inr (inr (inr (inl tt)))
     | OpMcpUpsert a b => inr (inr (inr (inr (inl (a, b)))))
     | OpMcpRemove a => inr (inr (inr (inr (inr (inl a)))))
     | OpMcpConnect a => inr (inr (inr (inr (inr (inr a)))))
     end)
    (fun r => match r with
     | OpExec _ | OpUpload _ _ | OpDownload _ _ | OpMcpList | OpMcpUpsert _ _ | OpMcpRemove _
     | OpMcpConnect _ => eq_refl end).
#[global] Instance codec_admin : Codec DaemonAdmin :=
  codec_map (A := unit + (unit + unit))
    (fun s => match s with inl _ => AdminStatus | inr (inl _) => AdminReload | inr (inr _) => AdminShutdown end)
    (fun a => match a with AdminStatus => inl tt | AdminReload => inr (inl tt) | AdminShutdown => inr (inr tt) end)
    (fun a => match a with AdminStatus => eq_refl | AdminReload => eq_refl | AdminShutdown => eq_refl end).
#[global] Instance codec_status : Codec DaemonStatus :=
  codec_map (A := Z * string * Z * Z * Z * Z)
    (fun '(a, b, c, d, e, f) => Build_DaemonStatus a b c d e f)
    (fun '(Build_DaemonStatus a b c d e f) => (a, b, c, d, e, f))
    (fun '(Build_DaemonStatus _ _ _ _ _ _) => eq_refl).
#[global] Instance codec_local_request : Codec (LocalRequest unit) :=
  codec_map (A := string * Z * (string * ClientOp + (DaemonAdmin + unit)))
    (fun '(a, b, c) => {| lr_version := a; lr_protocol_version := b; lr_command :=
       match c with
       | inl (e, o) => LocalWork {| cr_edge := e; cr_op := o |}
       | inr (inl a) => LocalAdmin a
       | inr (inr u) => LocalProxy u
       end |})
    (fun r => (lr_version r, lr_protocol_version r,
       match lr_command r with
       | LocalWork q => inl (cr_edge q, cr_op q)
       | LocalAdmin a => inr (inl a)
       | LocalProxy u => inr (inr u)
       end))
    (fun '{| lr_version := a; lr_protocol_version := b; lr_command := c |} =>
       match c with LocalWork {| cr_edge := e; cr_op := o |} => eq_refl | LocalAdmin _ => eq_refl | LocalProxy _ => eq_refl end).

#[global] Instance toy_rpc_ok : RpcLaws (P := unit).
Proof. split; try apply serde_codec_ok. intros e. exact (from_slice_to_vec (RpcError e : RpcResult McpCatalog)). Qed.

(** ** Files *)

#[global] Instance codec_signed_map : Codec SignedNodeMap :=
  codec_map (A := NodeMap * Byte.byte)
    (fun '(a, b) => {| snm_map := a; snm_signature := b |}) (fun s => (snm_map s, snm_signature s))
    (fun '{| snm_map := a; snm_signature := b |} => eq_refl).
#[global] Instance codec_profile : Codec ControlProfile :=
  codec_map (A := Z * string * string * string * string * string * SignedNodeMap)
    (fun '(a, b, c, d, e, f, g) => Build_ControlProfile a b c d e f g)
    (fun '(Build_ControlProfile a b c d e f g) => (a, b, c, d, e, f, g))
    (fun '(Build_ControlProfile _ _ _ _ _ _ _) => eq_refl).
#[global] Instance pretty_profile : SerdePretty ControlProfile := pretty_codec.
#[global] Instance pretty_profile_ok : SerdePrettyLaws ControlProfile := pretty_codec_ok.

#[global] Instance codec_edge_cfg : Codec EdgeCfg :=
  codec_map (A := string * string * list string * bool)
    (fun '(a, b, c, d) => Build_EdgeCfg a b c d) (fun '(Build_EdgeCfg a b c d) => (a, b, c, d))
    (fun '(Build_EdgeCfg _ _ _ _) => eq_refl).
#[global] Instance codec_control_cfg : Codec ControlCfg :=
  codec_map (A := string * string * string * string * SignedNodeMap)
    (fun '(a, b, c, d, e) => Build_ControlCfg a b c d e) (fun '(Build_ControlCfg a b c d e) => (a, b, c, d, e))
    (fun '(Build_ControlCfg _ _ _ _ _) => eq_refl).
#[global] Instance codec_config : Codec Config :=
  codec_map (A := Z * list EdgeCfg * option ControlCfg)
    (fun '(a, b, c) => Build_Config a b c) (fun '(Build_Config a b c) => (a, b, c))
    (fun '(Build_Config _ _ _) => eq_refl).
#[global] Instance pretty_config : SerdePretty Config := pretty_codec.
#[global] Instance pretty_config_ok : SerdePrettyLaws Config := pretty_codec_ok.

#[global] Instance codec_registry : Codec RegistryFile :=
  codec_map (A := Z * Z * gmap string McpTransport)
    (fun '(a, b, c) => Build_RegistryFile a b c) (fun '(Build_RegistryFile a b c) => (a, b, c))
    (fun '(Build_RegistryFile _ _ _) => eq_refl).
#[global] Instance pretty_registry : SerdePretty RegistryFile := pretty_codec.
#[global] Instance pretty_registry_ok : SerdePrettyLaws RegistryFile := pretty_codec_ok.

#[global] Instance codec_manifest : Codec Manifest :=
  codec_map (A := Z * gmap string (gmap string string))
    (fun '(a, b) => {| mf_version := a; mf_clients := b |}) (fun m => (mf_version m, mf_clients m))
    (fun '{| mf_version := a; mf_clients := b |} => eq_refl).
#[global] Instance pretty_manifest : SerdePretty Manifest := pretty_codec.
#[global] Instance pretty_manifest_ok : SerdePrettyLaws Manifest := pretty_codec_ok.

#[global] Instance codec_component : Codec Component := codec_countable RootDir.
#[global] Instance codec_journal_file : Codec JournalFile :=
  codec_map (A := list Component * bytes)
    (fun '(a, b) => {| relative_path := a; jf_bytes := b |}) (fun f => (relative_path f, jf_bytes f))
    (fun '{| relative_path := a; jf_bytes := b |} => eq_refl).
#[global] Instance codec_journal : Codec SyncJournal :=
  codec_map (A := Z * list JournalFile)
    (fun '(a, b) => {| sj_version := a; sj_files := b |}) (fun j => (sj_version j, sj_files j))
    (fun '{| sj_version := a; sj_files := b |} => eq_refl).
#[global] Instance pretty_journal : SerdePretty SyncJournal := pretty_codec.
#[global] Instance pretty_journal_ok : SerdePrettyLaws SyncJournal := pretty_codec_ok.

(** ** Keys, relay URLs, blobs *)

#[global] Instance toy_key_bytes : KeyBytes := {|
  key_to_bytes k := replicate 32 (k : Byte.byte);
  key_from_bytes b := default Byte.x00 (head b) |}.
#[global] Instance toy_key_bytes_ok : KeyBytesLaws.
Proof. split; done. Qed.

(** A relay URL is what follows the scheme. *)
#[global] Instance toy_relay_urls : RelayUrls := {|
  RelayUrl := string;
  relay_url_parse s := of_option (Str.strip_prefix "https://" s) "not a relay URL";
  default_relay_urls := ["relay.default"];
  relay_config_from _ := {| quic_port := Some 7842; auth_token := None |} |}.
#[global] Instance toy_relay_url_text : RelayUrlText := {| relay_url_to_string url := "https://" ++ url |}.
#[global] Instance toy_relay_url_text_ok : RelayUrlTextLaws.
Proof. split; [|done]. intros url. unfold relay_url_parse, relay_url_to_string. cbn -[Str.strip_prefix]. by rewrite (Str.strip_prefix_app "https://"). Qed.

(** ** The Relay's profile and TLS keys *)

#[global] Instance codec_relay_profile : Codec RelayNode.ControlProfile :=
  codec_map (A := Z * string * string * string * string * string * string * option Z * bytes * bytes)
    (fun '(a, b, c, d, e, f, g, h, i, j) => RelayNode.Build_ControlProfile a b c d e f g h i j)
    (fun '(RelayNode.Build_ControlProfile a b c d e f g h i j) => (a, b, c, d, e, f, g, h, i, j))
    (fun '(RelayNode.Build_ControlProfile _ _ _ _ _ _ _ _ _ _) => eq_refl).
#[global] Instance pretty_relay_profile : SerdePretty RelayNode.ControlProfile := pretty_codec.
#[global] Instance pretty_relay_profile_ok : SerdePrettyLaws RelayNode.ControlProfile := pretty_codec_ok.

(** A signing request names the host; a key loads with any certificate. *)
#[global] Instance toy_tls_keys : RelayNode.TlsKeys := {|
  RelayNode.KeyPair := Byte.byte;
  RelayNode.serialize_request params _ _ _ :=
    match params.1 with host :: _ => Ok (String.list_byte_of_string host) | [] => Err "no name" end;
  RelayNode.serialize_der key := [key];
  RelayNode.with_single_cert chain key :=
    match chain with [] => Err "no certificate" | _ => if key == [] then Err "no key" else Ok tt end;
|}.
#[global] Instance toy_tls_keys_ok : RelayNode.TlsKeysLaws.
Proof.
  split. intros params usages extended key der csr profile issuer certificate ca _ Hc Hs. split; [done|].
  cbn in Hc, Hs. destruct der as [|b der]; cbn in Hc; [done|]. injection Hc as <-. injection Hs as <-.
  case_match; discriminate.
Qed.

(** ** Blobs, addresses *)

#[global] Instance toy_blobs : Blobs := {|
  Hash := bytes; blob_hash := id; hash_to_string := to_hex; hash_parse := of_hex |}.
#[global] Instance toy_blobs_ok : BlobsLaws.
Proof. split. exact of_to_hex. Qed.

(** ** Addresses and SOCKS packets *)

#[global] Instance toy_ip_text : IpText := {|
  ip_to_string ip := match ip with V4 n => String "4" (to_hex (enc n)) | V6 n => String "6" (to_hex (enc n)) end;
  ip_parse s :=
    match s with
    | String "4" s => V4 <$> (of_hex s ≫= from_slice)
    | String "6" s => V6 <$> (of_hex s ≫= from_slice)
    | _ => None
    end |}.

Lemma utf8_valid_hex b : utf8_valid (as_bytes (to_hex b)) = true.
Proof. induction b as [|x b IH]; [done|]. by destruct x. Qed.

#[global] Instance toy_ip_text_ok : IpTextLaws.
Proof.
  split.
  - intros [n|n]; unfold ip_parse, ip_to_string; cbn [toy_ip_text]; rewrite of_to_hex.
    + exact (f_equal (fmap V4) (from_slice_to_vec n)).
    + exact (f_equal (fmap V6) (from_slice_to_vec n)).
  - intros [n|n]; cbn -[to_hex]; apply utf8_valid_hex.
Qed.

(** A packet is a fragment number, a port and the payload; the name is fixed. *)
#[global] Instance toy_socks_packets : SocksPackets := {|
  parse_udp_request packet :=
    match packet with
    | fragment :: port :: payload =>
        Some (Z.of_N (Byte.to_N fragment), TargetDomain "dns.example" (Z.of_N (Byte.to_N port)), payload)
    | _ => None
    end;
  new_udp_header source := Ok [Byte.x00; default Byte.x00 (Byte.of_N (Z.to_N (sa_port source)))] |}.
#[global] Instance toy_socks_packets_ok : SocksPacketsLaws.
Proof.
  split. intros [|fragment [|port packet]] ? ? ? [=]; subst. split; [done|]. by destruct port.
Qed.

(** ** JSON and TOML *)

#[global] Instance toy_numbers : Numbers := {|
  Number := Z; F64 := Z; number_of_i64 := id; number_of_f64 := Some |}.

Notation json_tree := (gen_tree (bool + (Z + string))).

Fixpoint tree_of_json (x : Json) : json_tree :=
  match x with
  | JNull => GenNode 0 []
  | JBool b => GenLeaf (inl b)
  | JNumber n => GenLeaf (inr (inl n))
  | JString s => GenLeaf (inr (inr s))
  | JArray items => GenNode 1 (tree_of_json <$> items)
  | JObject members =>
      GenNode 2 (map_fold (fun k v acc => GenNode 3 [GenLeaf (inr (inr k)); tree_of_json v] :: acc) [] members)
  end.
Fixpoint json_of_tree (t : json_tree) : Json :=
  let member t := match t with GenNode 3 [GenLeaf (inr (inr k)); v] => Some (k, json_of_tree v) | _ => None end in
  match t with
  | GenLeaf (inl b) => JBool b
  | GenLeaf (inr (inl n)) => JNumber n
  | GenLeaf (inr (inr s)) => JString s
  | GenNode 1 ts => JArray (json_of_tree <$> ts)
  | GenNode 2 ts => JObject (list_to_map (omap member ts))
  | GenNode _ _ => JNull
  end.

Fixpoint json_size (x : Json) : nat :=
  match x with
  | JArray items => S (foldr (fun x n => json_size x + n) 0 items)
  | JObject members => S (map_fold (fun _ x n => json_size x + n) 0 members)
  | _ => 0
  end%nat.

Lemma json_size_item (items : list Json) x : x ∈ items -> (json_size x < json_size (JArray items))%nat.
Proof. induction 1 as [x items|x y items _ IH]; cbn in *; lia. Qed.

Lemma json_size_member (members : gmap string Json) k x :
  members !! k = Some x -> (json_size x < json_size (JObject members))%nat.
Proof.
  intros Hk. cbn. apply Nat.lt_succ_r. revert k x Hk.
  apply (map_fold_weak_ind (fun n (m : gmap string Json) => forall k x, m !! k = Some x -> (json_size x <= n)%nat)).
  - by intros k x Hk.
  - intros k v m n _ IH k' x [[<- <-]|[_ Hx]]%lookup_insert_Some; [lia|]. specialize (IH _ _ Hx). lia.
Qed.

Lemma json_of_tree_of_json x : json_of_tree (tree_of_json x) = x.
Proof.
  induction x as [x IH] using (induction_ltof1 _ json_size). unfold ltof in IH.
  destruct x as [|b|n|s|items|members]; try done; cbn -[json_size] in *; f_equal.
  - rewrite <- list_fmap_compose. rewrite <- (list_fmap_id items) at 2. apply list_fmap_ext.
    intros i x Hx. apply IH, json_size_item. by eapply list_elem_of_lookup_2.
  - assert (forall k x, members !! k = Some x -> json_of_tree (tree_of_json x) = x) as Hm.
    { intros k x Hk. by eapply IH, json_size_member. }
    clear IH. revert Hm.
    apply (map_fold_weak_ind (fun ts (m : gmap string Json) =>
      (forall k x, m !! k = Some x -> json_of_tree (tree_of_json x) = x) ->
      list_to_map (omap (fun t => match t with
        GenNode 3 [GenLeaf (inr (inr k)); v] => Some (k, json_of_tree v) | _ => None end) ts) = m)); [done|].
    intros k x m ts Hk IH Hm. cbn. rewrite (Hm k x) by by rewrite lookup_insert_eq. rewrite IH; [done|].
    intros k' x' Hk'. apply (Hm k'). rewrite lookup_insert_ne; [done|]. congruence.
Qed.

#[global] Instance json_eq : EqDecision Json.
Proof.
  intros x y. destruct (decide (tree_of_json x = tree_of_json y)) as [E|N]; [left|right].
  - by rewrite <- (json_of_tree_of_json x), E, json_of_tree_of_json.
  - congruence.
Defined.
#[global] Instance json_countable : Countable Json := inj_countable' tree_of_json json_of_tree json_of_tree_of_json.
#[global] Instance codec_json : Codec Json := codec_countable JNull.
#[global] Instance pretty_json : SerdePretty Json := pretty_codec.
#[global] Instance pretty_json_ok : SerdePrettyLaws Json := pretty_codec_ok.

(** A document is a table; only the empty text and a fixed one are read. *)
Inductive ToyItem := ToyValue (v : TomlValue) | ToyTable (members : gmap string ToyItem).

#[global] Instance toy_toml : Toml := {|
  DocumentMut := gmap string ToyItem;
  Item := ToyItem;
  Table := gmap string ToyItem;
  document_parse b := if b == [] then Some ∅ else None;
  document_to_bytes d := enc (map_to_list d).*1;
  document_get d k := d !! k;
  document_set d k i := <[k := i]> d;
  item_table := ToyTable;
  item_value := ToyValue;
  as_table i := match i with ToyTable t => Some t | ToyValue _ => None end;
  as_value i := match i with ToyValue v => Some v | ToyTable _ => None end;
  item_to_string _ := "item";
  table_new := ∅;
  table_iter := map_to_list;
  table_insert t k i := <[k := i]> t;
  table_remove t k := delete k t |}.
#[global] Instance toy_toml_ok : TomlLaws.
Proof.
  split; cbn; intros; rewrite ?list_to_map_to_list; try done.
  - apply lookup_insert_eq.
  - by apply lookup_insert_ne.
Qed.
