(* ===== verification/Scenario.v ===== *)
(** * A small home network, end to end

    Runs the model on a concrete history with the instances of [Toy.v]: Control
    enrolls a Relay, a Client, an Edge and a Provisioner, and each theorem that
    has hypotheses is applied to a state of this history at which they hold. *)
From S2P Require Import Prelude Deps RelayApi ControlApi State Database ControlCore ControlHandlers.
From S2P Require Import ControlSpec ControlInvariant NodeMaps Enrollment Isolation Relay System.
From S2P Require Import Transport Toy.
Open Scope string_scope.
Open Scope Z_scope.

(** ** The cast: the identities are k1, k10, k01, k0 and k11 *)

Definition control_key : SecretKey := Byte.x03.
Definition laptop_key : SecretKey := Byte.x06.
Definition camera_key : SecretKey := Byte.x05.
Definition relay_key : SecretKey := Byte.x02.
Definition ci_key : SecretKey := Byte.x07.

(** Everything works at time [t]; all random bytes are [r]. *)
Definition at_time (t : Z) (r : Byte.byte) : Env := {|
  env_received := t; env_now := t; env_random n := replicate n r; env_io := true;
  env_verification := Granted; env_mutation := Granted |}.

Definition first_state : ControlState := {|
  st_schema := STATE_SCHEMA; st_audience := "home"; st_public_url := "https://control.example";
  st_relay_ca_der := [Byte.x01]; st_revision := 0; st_relay_revision := 1;
  st_clients := []; st_edges := []; st_relays := []; st_invites := [];
  st_provisioners := []; st_revocations := [] |}.

Definition first_store : Store := {|
  s_database := {| db_metadata := Some (metadata_of first_state); db_provisioners := [];
    db_clients := []; db_edges := []; db_revocations := []; db_relays := []; db_invitations := [] |};
  s_key := control_key; s_relay_ca := tt; s_state := first_state;
  s_changed := 0%nat; s_relay_changed := 0%nat; s_watches := ∅ |}.

Lemma first_store_ok : store_ok first_store.
Proof.
  split; split; cbn; try done; unfold invitations_ok, Keyed.table, Keyed.unique, Keyed.secondary, Keyed.refers.
  1: by intros m [= <-].
  all: split_and?; try done; try constructor; intros;
    match goal with E : _ ∈ [] |- _ => by apply not_elem_of_nil in E end.
Qed.

Lemma first_numbered : numbering_ok first_state.
Proof. split; intros ? []%not_elem_of_nil. Qed.

(** ** The history *)

Definition laptop_invite : Invite := {|
  inv_protocol_version := CONTROL_PROTOCOL_VERSION; inv_audience := "home";
  inv_control_url := "https://control.example"; inv_control_id := id_to_string (public control_key);
  inv_invite_id := "i"; inv_name := "laptop"; inv_kind := KClient;
  inv_secret_hash := hash_secret "secret"; inv_expires_at := 4600 |}.
Definition blank_invite : InviteRecord := {|
  i_invite := laptop_invite; i_state := Pending; i_claimed_by := None; i_request_id := None;
  i_managed_by := None; i_request_hash := None; i_terminal_at := None |}.

(** The claim of the [n]th invitation, whose secret was made of bytes [r]. *)
Definition claim_of (s : Store) (n : nat) (r : Byte.byte) (key : SecretKey) (t : Z) : ClaimRequest :=
  let invite := i_invite (default blank_invite (st_invites (s_state s) !! n)) in
  let token := {| jt_invite := invite; jt_secret := to_hex (replicate 32 r);
                  jt_signature := key_sign (s_key s) (domain_bytes INVITE_DOMAIN invite) |} in
  match claim_sign token key t "nonce" with
  | Ok request => request
  | Err _ => {| cr_token := token; cr_signature := Byte.x00;
                cr_claim := {| cl_protocol_version := 0; cl_invite_id := ""; cl_endpoint_id := "";
                  cl_issued_at := 0; cl_nonce := ""; cl_relay_qad_port := None;
                  cl_relay_tls_csr := None |} |}
  end.

Definition then_do (s : Store) (t : Z) (r : Byte.byte) (op : Operation) : Store :=
  perform (at_time t r) op s.

Definition relay_invited := then_do first_store 1000 Byte.x01
  (OLocal (LInviteRelay "relay" "https://relay.example" 3600)).
Definition relay_joined := then_do relay_invited 1010 Byte.x02
  (OClaim (claim_of relay_invited 0 Byte.x01 relay_key 1010)).
Definition laptop_invited := then_do relay_joined 1020 Byte.x03 (OLocal (LInviteClient "laptop" 3600)).
Definition laptop_joined := then_do laptop_invited 1030 Byte.x04
  (OClaim (claim_of laptop_invited 1 Byte.x03 laptop_key 1030)).
Definition camera_invited := then_do laptop_joined 1040 Byte.x05
  (OLocal (LInviteEdge "camera" "laptop" 3600)).
Definition camera_joined := then_do camera_invited 1050 Byte.x06
  (OClaim (claim_of camera_invited 2 Byte.x05 camera_key 1050)).
Definition home := then_do camera_joined 1060 Byte.x07
  (OLocal (LAddProvisioner "ci" (id_to_string (public ci_key)))).

(** Everyone is there. *)
Lemma home_members :
  (c_name <$> st_clients (s_state home)) = ["laptop"] /\
  (e_name <$> st_edges (s_state home)) = ["camera"] /\
  (r_name <$> st_relays (s_state home)) = ["relay"] /\
  (p_name <$> st_provisioners (s_state home)) = ["ci"] /\
  st_revision (s_state home) = 7 /\ st_relay_revision (s_state home) = 1.
Proof. vm_compute. done. Qed.

(** A store whose database, snapshot and numbering are in order. *)
Definition good (s : Store) : Prop := store_ok s /\ numbering_ok (s_state s).

Lemma then_do_good s t r op : good s -> good (then_do s t r op).
Proof. intros [? ?]. unfold then_do. split; [by apply perform_ok|by apply perform_numbering]. Qed.

#[local] Opaque then_do.

Lemma relay_joined_good : good relay_joined.
Proof. do 2 (apply then_do_good). exact (conj first_store_ok first_numbered). Qed.

Lemma laptop_invited_good : good laptop_invited.
Proof. apply then_do_good, relay_joined_good. Qed.

Lemma home_good : good home.
Proof. do 4 (apply then_do_good). exact laptop_invited_good. Qed.

(** ** The API crates *)

Definition laptop_credential : RelayCredential := {|
  rc_protocol_version := RELAY_PROTOCOL_VERSION; rc_audience := "home";
  rc_control_id := id_to_string (public control_key);
  rc_endpoint_id := id_to_string (public laptop_key); rc_kind := SubjectClient;
  rc_generation := 4; rc_issued_at := 1030; rc_expires_at := 605830 |}.
Definition laptop_signed : SignedRelayCredential := {|
  src_credential := laptop_credential;
  src_signature := key_sign control_key (canonical_bytes CREDENTIAL_DOMAIN laptop_credential) |}.

Lemma credential_token_roundtrip_witness :
  src_credential laptop_signed = laptop_credential /\
  (token ← credential_encode laptop_signed; credential_decode token) = Ok laptop_signed /\
  credential_verify laptop_signed (public control_key) = Ok tt /\
  credential_validate (src_credential laptop_signed) = Ok tt.
Proof. apply (credential_token_roundtrip laptop_credential control_key laptop_signed); vm_compute; reflexivity. Defined.

Lemma signing_domains_separate_witness : CLAIM_DOMAIN = CLAIM_DOMAIN.
Proof.
  apply (signing_domains_separate CLAIM_DOMAIN CLAIM_DOMAIN (7 : Z) (7 : Z)); [..|reflexivity];
    by apply list_elem_of_further, list_elem_of_here.
Defined.

Lemma enrollment_roundtrip_witness :
  exists token request,
    token_new laptop_invite "secret" control_key = Ok token /\
    (fragment ← token_encode token; token_decode fragment) = Ok token /\
    token_verify token = Ok (public control_key) /\
    claim_sign_with_relay_qad token laptop_key 1030 "nonce" None None = Ok request /\
    claim_verify request = Ok (public laptop_key).
Proof.
  apply (enrollment_roundtrip laptop_invite "secret" "nonce" control_key laptop_key 1030 None None);
    reflexivity.
Defined.

Lemma request_signatures_verify_witness :
  (status_sign laptop_key "home" 1030 "nonce" ≫= status_verify) = Ok (public laptop_key).
Proof.
  destruct (request_signatures_verify laptop_key "home" "" "" "nonce" [] 1030 0 0 None)
    as (_ & _ & E & _). exact E.
Defined.

Lemma provisioner_authorization_roundtrip_witness :
  exists http request,
    provisioner_sign ci_key "home" "request-1" 1030 (Some 7) (RemoveClient "laptop") = Ok http /\
    provisioner_http_verify http = Ok (public ci_key) /\
    from_slice (ph_body http) = Some request /\
    verify_protocol request = Ok tt /\ pr_action request = RemoveClient "laptop".
Proof.
  apply (provisioner_authorization_roundtrip ci_key "home" "request-1" 1030 (Some 7)
    (RemoveClient "laptop")).
Defined.

(** A signature scheme in which a signature carries its message, for the one
    theorem that needs message-bound signatures. *)
Definition ideal_keys : Keys := {|
  EndpointId := list bool;
  SecretKey := list bool;
  Signature := list bool * bytes;
  public := id;
  id_to_string := show_bits;
  id_parse s := match s with String "k" s => read_bits s | _ => None end;
  key_sign k m := (k, m);
  id_verify id m s := bool_decide (s = (id, m));
  sig_to_bytes s := snd s;
  sig_from_bytes b := ([], b);
|}.

Definition codec_ideal_token : Codec (@JoinToken ideal_keys) :=
  codec_map (A := Invite * string * (list bool * bytes))
    (fun '(a, b, c) => {| jt_invite := a; jt_secret := b; jt_signature := (c : @Signature ideal_keys) |})
    (fun t => (jt_invite t, jt_secret t, jt_signature t))
    (fun '{| jt_invite := a; jt_secret := b; jt_signature := c |} => eq_refl).
Definition ideal_serde : @ControlSerde ideal_keys := {|
  serde_invite := serde_codec; serde_join_token := @serde_codec _ codec_ideal_token;
  serde_claim := serde_codec; serde_edge_invite := @serde_edge_invite toy_keys toy_serde;
  serde_edge_remove := @serde_edge_remove toy_keys toy_serde;
  serde_status := @serde_status toy_keys toy_serde; serde_watch := @serde_watch toy_keys toy_serde;
  serde_node_map := serde_codec; serde_action := serde_codec;
  serde_provisioner_request := serde_codec |}.

Lemma ideal_serde_ok : @ControlSerdeLaws ideal_keys ideal_serde.
Proof. split; first [exact (@serde_codec_ok _ codec_ideal_token) | apply serde_codec_ok]. Qed.

(** Claims of one invitation under two tokens, with the same signature. *)
Definition ideal_claim (secret : string) : @ClaimRequest ideal_keys :=
  let claim := {| cl_protocol_version := CONTROL_PROTOCOL_VERSION; cl_invite_id := "i";
    cl_endpoint_id := "k10"; cl_issued_at := 1030; cl_nonce := "nonce";
    cl_relay_qad_port := None; cl_relay_tls_csr := None |} in
  {| cr_token := {| jt_invite := laptop_invite; jt_secret := secret;
                    jt_signature := @key_sign ideal_keys [true] [] |};
     cr_claim := claim;
     cr_signature := @key_sign ideal_keys [true; false]
       (@domain_bytes _ (@serde_claim _ ideal_serde) CLAIM_DOMAIN claim) |}.

Lemma verified_messages_are_bound_witness :
  cr_claim (ideal_claim "secret") = cr_claim (ideal_claim "other").
Proof.
  refine (proj1 (proj2 (@verified_messages_are_bound ideal_keys toy_encodings ideal_serde ideal_serde_ok
    _ _ _ _ _ [true; false] [true; false])) (ideal_claim "secret") (ideal_claim "other") _ _ _);
    [|vm_compute; reflexivity..].
  intros id m m' s E E'. apply bool_decide_eq_true in E, E'. congruence.
Defined.

(** ** Control *)

Definition shop_relay : RelayRecord := {|
  r_name := "shop"; r_endpoint_id := "k000"; r_url := "https://shop.example"; r_qad_port := None |}.

Lemma apply_delta_sync_refines_witness :
  refines (apply_delta_sync true 7 1 8 1 (delta_topology [PutRelay shop_relay]) (s_database home))
    (commit_accepted true 7 1 8 1 (delta_topology [PutRelay shop_relay]) (s_state home))
    (with_revisions (delta_apply (delta_topology [PutRelay shop_relay]) (s_state home)) 8 1).
Proof.
  apply (apply_delta_sync_refines true 7 1 8 1 (delta_topology [PutRelay shop_relay])
           (s_database home) (s_state home)); apply home_good.
Defined.

Lemma load_recovers_witness :
  exists st', load (s_database home) = Ok st' /\ same_state st' (s_state home).
Proof.
  apply (load_recovers (s_database home) (s_state home)); [apply home_good..|].
  vm_compute. reflexivity.
Defined.

Definition camera_record : EdgeRecord := {|
  e_name := "camera"; e_endpoint_id := "k01"; e_owner_id := "k10"; e_generation := 6;
  e_issued_at := 1050; e_expires_at := 605850 |}.

Lemma camera_issued : issued (s_state home) "k01" 6 605850.
Proof.
  right. exists camera_record. split; [|done].
  assert (E : st_edges (s_state home) = [camera_record]) by (vm_compute; reflexivity).
  rewrite E. apply list_elem_of_here.
Qed.

(** The administrator removes the camera. *)
Definition remove_camera : list (Env * Operation) :=
  [(at_time 2000 Byte.x08, OLocal (LRemoveEdge "laptop/camera"))].

Lemma credentials_accounted_witness :
  accounted (s_state (run remove_camera home)) "k01" 6 605850 \/ expired_during remove_camera 605850.
Proof.
  apply (credentials_accounted remove_camera home "k01" 6 605850); [apply home_good|apply camera_issued].
Defined.

Lemma store_always_consistent_witness :
  store_ok (run remove_camera home) /\ state_ok (s_state (run remove_camera home)).
Proof. apply (store_always_consistent remove_camera home), home_good. Defined.

(** The camera's claim creates generation 6. *)
Definition claim_camera : Operation := OClaim (claim_of camera_invited 2 Byte.x05 camera_key 1050).

Lemma camera_invited_good : good camera_invited.
Proof. do 2 (apply then_do_good). exact laptop_invited_good. Qed.

Lemma new_generations_outrank_revocations_witness :
  6 = st_revision (s_state (perform (at_time 1050 Byte.x06) claim_camera camera_invited)) /\
  forall v, v ∈ st_revocations (s_state (perform (at_time 1050 Byte.x06) claim_camera camera_invited)) ->
    v_generation v < 6.
Proof.
  apply (new_generations_outrank_revocations (at_time 1050 Byte.x06) claim_camera camera_invited
           "k01" 6); [apply camera_invited_good..| |].
  - exists 605850. right. exists camera_record. split; [|done].
    assert (E : st_edges (s_state (perform (at_time 1050 Byte.x06) claim_camera camera_invited))
                = [camera_record]) by (vm_compute; reflexivity).
    rewrite E. apply list_elem_of_here.
  - assert (E : st_edges (s_state camera_invited) = []) by (vm_compute; reflexivity).
    assert (Ec : c_endpoint_id <$> st_clients (s_state camera_invited) = ["k10"])
      by (vm_compute; reflexivity).
    intros (x & [(c & Hc & Ei & _)|(e & He & _)]); [|rewrite E in He; by apply not_elem_of_nil in He].
    assert (Hin : c_endpoint_id c ∈ ["k10"]) by (rewrite <- Ec; by apply list_elem_of_fmap_2).
    rewrite Ei in Hin. apply list_elem_of_singleton in Hin. done.
Defined.

Definition camera_invite (s : Store) : InviteRecord := default blank_invite (st_invites (s_state s) !! 2%nat).

Lemma invitations_used_once_witness :
  let i := camera_invite camera_invited in
  let i' := camera_invite (perform (at_time 1050 Byte.x06) claim_camera camera_invited) in
  i' = i \/
  (i_state i = Pending /\ i_state i' <> Pending /\ is_Some (i_terminal_at i') /\
   i_invite i' = i_invite i /\ i_request_id i' = i_request_id i /\
   i_managed_by i' = i_managed_by i /\ i_request_hash i' = i_request_hash i).
Proof.
  apply (invitations_used_once (at_time 1050 Byte.x06) claim_camera camera_invited);
    [apply camera_invited_good|..|vm_compute; reflexivity].
  - apply (bool_decide_eq_true_1 _). vm_compute. reflexivity.
  - apply (list_elem_of_lookup_2 _ 2). vm_compute. reflexivity.
  - apply (list_elem_of_lookup_2 _ 2). vm_compute. reflexivity.
Defined.

Lemma cleanup_tick_agrees_witness :
  exists s', cleanup_tick (at_time 700000 Byte.x09) home = (s', Ok tt) /\ store_ok s' /\
    s_state s' = cleanup_revocations (cleanup_invitations (s_state home) 700000) 700000.
Proof.
  apply (cleanup_tick_agrees (at_time 700000 Byte.x09) home); [apply home_good|reflexivity|..];
    vm_compute; discriminate.
Defined.


Lemma revocation_update_signs_witness :
  let st := s_state (run remove_camera home) in
  exists u, update_sign (revocation_update 2000 st 1) (s_key home) = Ok u /\
    update_verify u (public (s_key home)) = Ok tt /\
    ru_version (sru_update u) = st_relay_revision st /\
    (forall v, v ∈ st_revocations st -> 1 < v_revision v ->
       revocation_of v ∈ ru_revocations (sru_update u)).
Proof. apply (revocation_update_signs 2000 remove_camera home 1); apply home_good. Defined.

Definition camera_claim : ClaimRequest := claim_of camera_invited 2 Byte.x05 camera_key 1050.

(** What a handler answers, as a test on its result. *)
Definition answered {A} (p : Store -> A -> bool) (x : Store * result ApiError A) : bool :=
  match x with (s, Ok a) => p s a | (_, Err _) => false end.

Lemma answered_elim {A} (p : Store -> A -> bool) x :
  answered p x = true -> exists s a, x = (s, Ok a) /\ p s a = true.
Proof. destruct x as [s [a|e]]; [|done]. intros E. by exists s, a. Qed.

Lemma claim_requires_secret_witness :
  exists s' r record, claim (at_time 1050 Byte.x06) camera_claim camera_invited = (s', Ok r) /\
    record ∈ st_invites (s_state camera_invited) /\
    hash_secret (jt_secret (cr_token camera_claim)) = inv_secret_hash (i_invite record).
Proof.
  destruct (answered_elim (fun _ _ => true) (claim (at_time 1050 Byte.x06) camera_claim camera_invited))
    as (s' & r & E & _); [vm_compute; reflexivity|].
  destruct (claim_requires_secret (at_time 1050 Byte.x06) camera_claim camera_invited s' r E)
    as (record & _ & _ & Hin & _ & Hh & _).
  exists s', r, record. exact (conj E (conj Hin Hh)).
Defined.


Lemma repeated_claim_is_idempotent_witness :
  exists s1 r', claim (at_time 1060 Byte.x07) camera_claim s1 = (s1, Ok r') /\ jr_name r' = "camera".
Proof.
  destruct (answered_elim
    (fun s r => (negb (is_relay_kind (jr_kind r)) && (jr_name r == "camera") &&
                 bool_decide (r_endpoint_id <$> st_relays (s_state s) = ["k0"]))%bool)
    (claim (at_time 1050 Byte.x06) camera_claim camera_invited)) as (s1 & r & E & Hp);
    [vm_compute; reflexivity|].
  apply andb_true_iff in Hp as [[Hk Hn]%andb_true_iff Hr].
  apply negb_true_iff in Hk. apply bool_decide_eq_true in Hn. apply bool_decide_eq_true in Hr.
  destruct (repeated_claim_is_idempotent (at_time 1050 Byte.x06) (at_time 1060 Byte.x07) camera_claim
      camera_invited s1 r (public camera_key)) as (r' & Hc & Hname & _);
    [apply camera_invited_good|exact E|vm_compute; reflexivity|exact Hk| |vm_compute; reflexivity|
     reflexivity|vm_compute; discriminate|vm_compute; reflexivity|vm_compute; reflexivity|].
  - intros relay Hin Hid. assert (Hk0 : r_endpoint_id relay ∈ ["k0"])
      by (rewrite <- Hr; apply list_elem_of_fmap_2, Hin).
    apply list_elem_of_singleton in Hk0. rewrite Hk0 in Hid. discriminate Hid.
  - exists s1, r'. rewrite <- Hn. exact (conj Hc Hname).
Defined.

(** The provisioner's requests. *)
Definition ci_request (expected : option Z) (action : ProvisionerAction) : ProvisionerRequest := {|
  pr_protocol_version := CONTROL_PROTOCOL_VERSION; pr_audience := "home";
  pr_request_id := "request-0001"; pr_issued_at := 1100; pr_expected_revision := expected;
  pr_action := action |}.
Definition ci_body (request : ProvisionerRequest) : bytes := to_vec request.
Definition ci_header (request : ProvisionerRequest) : option (result string string) :=
  Some (Ok (provisioner_authorization ci_key (ci_body request))).
Definition invite_runner : ProvisionerAction :=
  InviteClient "runner" 600 (to_hex (replicate 32 Byte.xaa)).

Lemma provisioner_is_confined_witness :
  confined "k11" (s_state home)
    (s_state (fst (provisioner_request (at_time 1100 Byte.x0a) (ci_header (ci_request None invite_runner))
                     (ci_body (ci_request None invite_runner)) home))).
Proof.
  apply (provisioner_is_confined (at_time 1100 Byte.x0a) (ci_header (ci_request None invite_runner))
    (ci_body (ci_request None invite_runner)) "k11" (ci_request None invite_runner) home _
    (snd (provisioner_request (at_time 1100 Byte.x0a) (ci_header (ci_request None invite_runner))
                     (ci_body (ci_request None invite_runner)) home)));
    [apply home_good| |vm_compute; reflexivity|apply surjective_pairing].
  apply (bool_decide_eq_true_1 _). vm_compute. reflexivity.
Defined.

Lemma stale_revision_changes_nothing_witness :
  fst (provisioner_request (at_time 1100 Byte.x0a) (ci_header (ci_request (Some 3) invite_runner))
         (ci_body (ci_request (Some 3) invite_runner)) home) = home.
Proof.
  apply (stale_revision_changes_nothing (at_time 1100 Byte.x0a)
    (ci_header (ci_request (Some 3) invite_runner)) (ci_body (ci_request (Some 3) invite_runner)) "k11"
    (ci_request (Some 3) invite_runner) 3 home _
    (snd (provisioner_request (at_time 1100 Byte.x0a) (ci_header (ci_request (Some 3) invite_runner))
                     (ci_body (ci_request (Some 3) invite_runner)) home)));
    [vm_compute; reflexivity|reflexivity|vm_compute; discriminate|apply surjective_pairing].
Defined.

Lemma invitation_request_replays_witness :
  exists s1 r,
    provisioner_invite (at_time 1100 Byte.x0a) "k11" (ci_request None invite_runner) "runner" KClient 600
      (to_hex (replicate 32 Byte.xaa)) home = (s1, Ok r) /\
    provisioner_invite (at_time 1500 Byte.x0b) "k11" (ci_request None invite_runner) "runner" KClient 600
      (to_hex (replicate 32 Byte.xaa)) s1 = (s1, Ok r).
Proof.
  destruct (answered_elim (fun _ _ => true)
    (provisioner_invite (at_time 1100 Byte.x0a) "k11" (ci_request None invite_runner) "runner" KClient 600
      (to_hex (replicate 32 Byte.xaa)) home)) as (s1 & r & E & _); [vm_compute; reflexivity|].
  exists s1, r. split; [exact E|].
  exact (invitation_request_replays (at_time 1100 Byte.x0a) (at_time 1500 Byte.x0b) "k11"
    (ci_request None invite_runner) "runner" KClient 600 _ home s1 r (proj1 home_good) E).
Defined.

Definition laptop_removes_camera : EdgeRemoveRequest :=
  match edge_remove_sign laptop_key "home" "nonce" 1100 "camera" "k01" with
  | Ok request => request
  | Err _ => {| err_protocol_version := 0; err_client_id := ""; err_audience := ""; err_nonce := "";
      err_issued_at := 0; err_name := ""; err_endpoint_id := ""; err_signature := Byte.x00 |}
  end.

Lemma client_removes_only_its_edges_witness :
  let s' := fst (client_edge_remove (at_time 1100 Byte.x0a) laptop_removes_camera home) in
  st_clients (s_state s') = st_clients (s_state home).
Proof.
  destruct (client_removes_only_its_edges (at_time 1100 Byte.x0a) laptop_removes_camera
    (public laptop_key) home (fst (client_edge_remove (at_time 1100 Byte.x0a) laptop_removes_camera home))
    (snd (client_edge_remove (at_time 1100 Byte.x0a) laptop_removes_camera home))) as [Hc _];
    [apply home_good|vm_compute; reflexivity|apply surjective_pairing|exact Hc].
Defined.

Lemma watches_are_bounded_witness :
  registry_ok (watch_acquire {["k10" := 2%nat]} "k10").1 /\
  registry_ok (watch_release {["k10" := 2%nat]} "k10").
Proof.
  destruct (watches_are_bounded {["k10" := 2%nat]} "k10") as (Ha & Hr & _); [|exact (conj Ha Hr)].
  apply map_Forall_singleton. unfold WATCHES_PER_ENDPOINT. lia.
Defined.

(** The camera's invitation expires unclaimed and the laptop leaves. *)
Definition laptop_gone := then_do camera_invited 5000 Byte.x0b (OLocal (LRemoveClient "laptop")).

Lemma orphaned_edge_invitation_is_stuck_witness :
  exists e, local_revoke_invite (at_time 5010 Byte.x0c) (i_id (camera_invite laptop_gone)) laptop_gone
            = (laptop_gone, Err e) /\ ae_status e = 500.
Proof.
  apply (orphaned_edge_invitation_is_stuck (at_time 5010 Byte.x0c) laptop_gone
           (camera_invite laptop_gone) "k10");
    [apply then_do_good, camera_invited_good| |vm_compute; reflexivity|vm_compute; reflexivity|].
  - apply (list_elem_of_lookup_2 _ 2). vm_compute. reflexivity.
  - assert (Ec : st_clients (s_state laptop_gone) = []) by (vm_compute; reflexivity).
    rewrite Ec. intros c Hc. destruct (not_elem_of_nil _ Hc).
Defined.

(** Another provisioner uses the request id of the first. *)
Definition ci_invited := then_do home 1100 Byte.x0a
  (OProvisioner (ci_header (ci_request None invite_runner)) (ci_body (ci_request None invite_runner))).
Definition other_invite : Store * result ApiError ProvisionerResponse :=
  provisioner_invite (at_time 1200 Byte.x0b) "k111" (ci_request None invite_runner) "other" KClient 600
    (to_hex (replicate 32 Byte.xaa)) ci_invited.

Lemma foreign_request_id_is_refused_witness :
  fst other_invite = ci_invited /\ exists e, snd other_invite = Err e.
Proof.
  apply (foreign_request_id_is_refused (at_time 1200 Byte.x0b) "k111" (ci_request None invite_runner)
    "other" KClient 600 (to_hex (replicate 32 Byte.xaa)) ci_invited (fst other_invite) (snd other_invite)
    (default blank_invite (st_invites (s_state ci_invited) !! 3%nat)));
    [apply then_do_good, home_good|..|apply surjective_pairing].
  - apply (bool_decide_eq_true_1 _). vm_compute. reflexivity.
  - apply (list_elem_of_lookup_2 _ 3). vm_compute. reflexivity.
  - vm_compute. reflexivity.
  - vm_compute. discriminate.
Defined.

(** ** The Relay *)

Definition home_relay : Relay := {|
  rl_audience := "home"; rl_authority_id := public control_key;
  rl_current := {| ru_protocol_version := RELAY_PROTOCOL_VERSION; ru_audience := "home";
                   ru_version := 0; ru_issued_at := 1015; ru_revocations := [] |};
  rl_state_file := {| ru_protocol_version := RELAY_PROTOCOL_VERSION; ru_audience := "home";
                      ru_version := 0; ru_issued_at := 1015; ru_revocations := [] |};
  rl_revoked := ∅; rl_enrollment_revoked := false; rl_revoked_marker := false;
  rl_disconnected := []; rl_shutdown := false |}.

Lemma home_relay_started : start true 1015 "k1" "home" false None = Ok home_relay.
Proof. vm_compute. reflexivity. Qed.

Lemma home_relay_ok : relay_ok home_relay.
Proof. exact (proj1 (start_ok _ _ _ _ _ _ _ home_relay_started)). Qed.

Lemma polling_keeps_relay_consistent_witness :
  let relay' := fst (poll_answer true 1020 (public control_key) "home" home_relay (Status 403)) in
  relay_ok relay' /\ ru_version (rl_current home_relay) <= ru_version (rl_current relay').
Proof.
  exact (polling_keeps_relay_consistent true 1020 (public control_key) "home" home_relay (Status 403)
           home_relay_ok).
Defined.

Definition camera_revocation : Revocation := {|
  rv_endpoint_id := "k01"; rv_revoked_through_generation := 6; rv_expires_at := 605850;
  rv_revision := 2 |}.
Definition camera_update : SignedRevocationUpdate :=
  let update := {| ru_protocol_version := RELAY_PROTOCOL_VERSION; ru_audience := "home";
    ru_version := 2; ru_issued_at := 2000; ru_revocations := [camera_revocation] |} in
  {| sru_update := update; sru_signature := key_sign control_key (canonical_bytes REVOCATION_DOMAIN update) |}.

Lemma revocations_take_effect_witness :
  exists relay' st, apply_revocation_update true 2000 home_relay camera_update = (relay', Ok st) /\
    public camera_key ∈ rl_disconnected relay'.
Proof.
  assert (Hok : is_ok (snd (apply_revocation_update true 2000 home_relay camera_update)) = true)
    by (vm_compute; reflexivity).
  destruct (apply_revocation_update true 2000 home_relay camera_update) as [relay' [st|e]] eqn:E;
    [|discriminate Hok].
  exists relay', st. split; [reflexivity|].
  refine (proj2 (revocations_take_effect true 2000 home_relay camera_update relay' st camera_revocation
    (public camera_key) home_relay_ok _ E _ _) _ _); [..|vm_compute; reflexivity];
    first [vm_compute; reflexivity | apply list_elem_of_here].
Defined.

Lemma restart_preserves_admission_witness :
  exists relay', restart true 3000 home_relay = Ok relay' /\ relay_ok relay' /\
    rl_current relay' = rl_current home_relay /\
    (rl_enrollment_revoked home_relay = false ->
     forall id token t, on_connect relay' id token t = on_connect home_relay id token t).
Proof.
  exact (restart_preserves_admission true 3000 home_relay home_relay_ok eq_refl).
Defined.

(** ** The whole system *)

Definition first_system : System := {| sys_control := relay_joined; sys_relay := home_relay |}.

Lemma first_system_joined : newly_joined first_system.
Proof.
  destruct relay_joined_good as [? ?]. split; [assumption|]. split; [assumption|].
  exists true, 1015. vm_compute. reflexivity.
Qed.

Definition laptop_and_camera_join : list Event :=
  [EControl (at_time 1020 Byte.x03) (OLocal (LInviteClient "laptop" 3600));
   EControl (at_time 1030 Byte.x04) (OClaim (claim_of laptop_invited 1 Byte.x03 laptop_key 1030));
   EControl (at_time 1040 Byte.x05) (OLocal (LInviteEdge "camera" "laptop" 3600));
   EControl (at_time 1050 Byte.x06) (OClaim camera_claim)].
Definition camera_leaves : list Event :=
  [EControl (at_time 2000 Byte.x08) (OLocal (LRemoveEdge "laptop/camera"));
   ERestart true 2005;
   EPoll (at_time 2010 Byte.x09) true 2010 (public relay_key)].

Definition camera_credential : SignedRelayCredential :=
  let credential := {| rc_protocol_version := RELAY_PROTOCOL_VERSION; rc_audience := "home";
    rc_control_id := "k1"; rc_endpoint_id := "k01"; rc_kind := SubjectEdge;
    rc_generation := 6; rc_issued_at := 1050; rc_expires_at := 605850 |} in
  {| src_credential := credential;
     src_signature := key_sign control_key (canonical_bytes CREDENTIAL_DOMAIN credential) |}.
Definition camera_token : string := b64_encode (to_vec camera_credential).

(** The token opened the door before the camera was removed. *)
Lemma camera_was_admitted :
  on_connect (sys_relay (sys_run laptop_and_camera_join first_system)) (public camera_key)
    (Some camera_token) 1100 = Allow.
Proof. vm_compute. reflexivity. Qed.

Lemma up_to_date_relay_refuses_revoked_witness :
  on_connect (sys_relay (sys_run camera_leaves (sys_run laptop_and_camera_join first_system)))
    (public camera_key) (Some camera_token) 2010 <> Allow.
Proof.
  apply (up_to_date_relay_refuses_revoked 2010 laptop_and_camera_join camera_leaves first_system
           (public camera_key) camera_token camera_credential); [exact first_system_joined|..].
  - repeat apply Forall_cons_2; try apply Forall_nil_2; vm_compute; try split; discriminate.
  - vm_compute. reflexivity.
  - right. exists camera_record. split; [|vm_compute; repeat split].
    apply (list_elem_of_lookup_2 _ 0). vm_compute. reflexivity.
  - set (st := s_state _).
    assert (Ee : st_edges st = []) by (vm_compute; reflexivity).
    assert (Ec : c_endpoint_id <$> st_clients st = ["k10"]) by (vm_compute; reflexivity).
    intros (x & _ & [(c & Hc & Ei & _)|(e & He & _)]).
    + assert (Hin : c_endpoint_id c ∈ ["k10"]) by (rewrite <- Ec; apply list_elem_of_fmap_2, Hc).
      rewrite Ei in Hin. apply list_elem_of_singleton in Hin. discriminate Hin.
    + rewrite Ee in He. exact (not_elem_of_nil _ He).
  - vm_compute. reflexivity.
Defined.

Lemma relay_catches_up_witness :
  let sys' := sys_run laptop_and_camera_join first_system in
  let sys'' := sys_step (EPoll (at_time 1060 Byte.x09) true 1060 (public relay_key)) sys' in
  sys_control sys'' = sys_control sys' /\
  ru_version (rl_current (sys_relay sys'')) = st_relay_revision (s_state (sys_control sys'')) /\
  rl_enrollment_revoked (sys_relay sys'') = rl_enrollment_revoked (sys_relay sys').
Proof.
  apply (relay_catches_up laptop_and_camera_join (at_time 1060 Byte.x09) 1060 (public relay_key)
           first_system); [exact first_system_joined|..].
  - repeat apply Forall_cons_2; try apply Forall_nil_2; vm_compute; try split; discriminate.
  - vm_compute. reflexivity.
  - vm_compute. discriminate.
Defined.

(** ** Frames *)

Lemma truncated_frame_is_an_error_witness : exists e, read_frame [Byte.x05; Byte.x02; Byte.x00] = Err e.
Proof.
  apply (truncated_frame_is_an_error {| tag := Data; payload := [Byte.x68; Byte.x69] |}
           [Byte.x05; Byte.x02; Byte.x00] [Byte.x00; Byte.x00; Byte.x68; Byte.x69]);
    [vm_compute; reflexivity|discriminate|discriminate].
Defined.
