(* ===== verification/NodeScenario.v ===== *)
(** * Edges and Clients at work

    Runs the models of as-edge, agent-scale and Control's start-up on concrete
    histories, with the instances of [Toy.v] and [ToyNodes.v]; each theorem that
    has hypotheses is applied at a state where they hold. *)
From S2P Require Import Prelude Deps RelayApi ControlApi State Database ControlCore ControlHandlers.
From S2P Require Import ControlSpec ControlInvariant Sync Startup NodeMaps Enrollment Isolation.
From S2P Require Import Transport Files FrameStream Protocol Exec McpSession McpBridge Proxy RelayTable.
From S2P Require Import EdgePin EdgeNode EdgeSystem ClientConfig ClientSystem ConnectionPool.
From S2P Require Import McpRegistry Requests Transfer McpSync SyncJournal McpAdapters Toy ToyNodes Scenario.
Open Scope string_scope.
Open Scope Z_scope.

(** ** Commands *)

(** The child prints two bytes and a complaint, and exits with 3. *)
Definition child_runs : list ExecEvent :=
  [StdoutRead (Ok [Byte.x68]) All; StderrRead (Ok [Byte.x21]) All; StdoutRead (Ok [Byte.x69]) All;
   StdoutRead (Ok []) All; StderrRead (Ok []) All; ChildExits (Ok (Some 3)) All].
Definition child_bytes : bytes := Eval vm_compute in xr_sent (exec_run child_runs exec_start).

Lemma child_codes_ok : codes_ok child_runs.
Proof.
  intros code written Hin. unfold child_runs in Hin.
  repeat (apply elem_of_cons in Hin as [E|Hin]; [first [discriminate E | injection E as -> _; split; [discriminate|reflexivity]]|]).
  destruct (not_elem_of_nil _ Hin).
Qed.

(** The daemon sees the stream in two pieces. *)
Definition daemon_relays : list RelayEvent := [EdgeSends (take 9 child_bytes); Wake All; EdgeSends (drop 9 child_bytes)].

Lemma exec_delivers_everything_witness :
  exec (rl_written (relay_run (daemon_relays ++ replicate 40 (Wake All)) (relay_exec "camera" (Ok tt)))) =
  {| sh_stdout := [Byte.x68; Byte.x69]; sh_stderr := [Byte.x21]; sh_code := Ok 3 |}.
Proof.
  apply (exec_delivers_everything child_runs daemon_relays "camera" 3 40);
    [exact child_codes_ok|reflexivity|reflexivity| |reflexivity|apply Nat.ltb_lt; reflexivity].
  repeat (apply Forall_cons_2; [reflexivity|]). apply Forall_nil_2.
Defined.

(** The client sees what the daemon wrote so far. *)
Definition shown_stream : bytes := Eval vm_compute in
  rl_written (relay_run (daemon_relays ++ replicate 2 (Wake All)) (relay_exec "camera" (Ok tt))).


(** ** MCP sessions *)

Definition ping : bytes := [Byte.x7b; Byte.x7d; Byte.x0a].
Definition ping_frame : bytes := Eval vm_compute in
  match write_frame Data ping with Ok bs => bs | Err _ => [] end.

Definition client_session : list McpRunEvent := [StdinRead (Ok ping) All; DaemonSends ping_frame; DaemonFrame].
Definition daemon_session : list McpRelayEvent :=
  [ClientSent ping_frame; ClientFrame All; EdgeSent ping_frame; EdgeFrame All].
Definition edge_session : list McpStdioEvent := [PeerSent ping_frame; PeerFrame All; ServerStdout (Ok ping) All].

Lemma mcp_session_is_a_pipe_witness :
  ms_stdin (mcp_stdio edge_session) `prefix_of` ping /\ mr_stdout (mcp_run client_session) `prefix_of` ping.
Proof.
  destruct (mcp_session_is_a_pipe client_session daemon_session edge_session) as (Hin & Hout & _);
    [exists []; reflexivity..|reflexivity|reflexivity|reflexivity|].
  exact (conj Hin Hout).
Defined.

(** The server answers with the bytes of a frame of its own. *)
Lemma mcp_relay_forges_frames_witness :
  exists header request,
    let relay := relay_mcp [EdgeSent header; EdgeFrame All; ClientSent request; ClientFrame All;
                            EdgeSent ping_frame; EdgeFrame All] in
    ml_phase relay = Looping /\ ml_to_client relay = ping_frame.
Proof.
  destruct (mcp_relay_forges_frames {| tag := Data; payload := ping |} ping_frame ping)
    as (header & sent & request & _ & _ & _ & Hp & _ & Hc);
    [left; reflexivity|reflexivity|discriminate|discriminate|].
  exists header, request. exact (conj Hp Hc).
Defined.

(** ** The HTTP bridge *)

Definition two_pings : list (result string Frame) :=
  [Ok {| tag := Data; payload := (ping ++ [Byte.x7b])%list |}; Ok {| tag := Data; payload := [Byte.x7d; Byte.x0a] |}].

Lemma read_messages_terminates_witness :
  (read_messages 100 two_pings []).2 <> Err "out of fuel" /\
  read_messages 100 two_pings [] = read_messages 50 two_pings [].
Proof.
  destruct (read_messages_terminates 100 two_pings []) as [Hne Hsame].
  - apply Nat.ltb_lt. reflexivity.
  - repeat (apply Forall_cons_2; [discriminate|]). apply Forall_nil_2.
  - split; [exact Hne|]. symmetry. apply Hsame. apply Nat.ltb_lt. reflexivity.
Defined.

Definition bridge_history : list BridgeEvent :=
  [SseStarts; LoopSends {| tag := Data; payload := ping |}; WriterRuns All; SseEnds; LoopReturns (Ok tt);
   WriterRuns All; BridgeRuns].

Lemma bridge_never_returns_witness : bt_returned (bridge bridge_history) = false.
Proof.
  apply (bridge_never_returns bridge_history).
  repeat (apply Forall_cons_2; [first [exact I | reflexivity | exists ping_frame; reflexivity]|]). apply Forall_nil_2.
Defined.

(** ** Which Clients an Edge accepts *)

Definition laptop_connects : list PinEvent :=
  [Replace {[public laptop_key]}; Connect (public laptop_key) 7 Written; Connect (public ci_key) 8 Written].

Lemma edge_serves_only_authorized_witness :
  let sv := pin_run laptop_connects (pin_start (managed ∅) ∅) in
  is_authorized (auth (sv_pin sv)) (public laptop_key) = true.
Proof.
  apply (edge_serves_only_authorized (managed ∅) ∅ laptop_connects (public laptop_key) 7).
  - apply (bool_decide_eq_true_1 _). vm_compute. reflexivity.
  - apply (bool_decide_eq_true_1 _). vm_compute. reflexivity.
Defined.

Definition first_use : list PinEvent := [Connect (public laptop_key) 7 Written; Connect (public ci_key) 8 Written].

Lemma first_use_pins_for_good_witness :
  load_pin (pin_files (sv_pin (pin_run first_use (pin_start (tofu None "trusted_client") ∅)))) "trusted_client" =
  Ok (Some (public laptop_key)).
Proof.
  apply (first_use_pins_for_good "trusted_client" ∅ first_use (public laptop_key)). vm_compute. reflexivity.
Defined.

(** ** UDP *)

Definition socks_client : SocketAddr := {| sa_ip := V4 1; sa_port := 5000 |}.
Definition name_server : SocketAddr := {| sa_ip := V4 8; sa_port := 53 |}.
Definition query : bytes := [Byte.x00; Byte.x35; Byte.x71].

Definition socks_history (answer : bytes) : list SocksUdpEvent :=
  [ClientPacket {| sa_ip := V4 2; sa_port := 5000 |} query All; ClientPacket socks_client query All;
   SuEdgeSent answer; SuEdgeFrame (Ok tt)].
Definition edge_udp_history (request : bytes) : list EdgeUdpEvent :=
  [EuClientSent request; EuClientFrame (fun _ _ => Ok [name_server]) (fun _ => Ok tt);
   NetPacket name_server [Byte.x61] All].
Definition udp_request : bytes := Eval vm_compute in su_sent (serve_socks_udp (V4 1) (socks_history [])).
Definition udp_answer : bytes := Eval vm_compute in eu_sent (serve_udp false (edge_udp_history udp_request)).


(** ** The MCP registry, on the Edge and from a Client *)

Definition files_server : McpTransport := Stdio "mcp-files" ["--root"; "/srv"] None.

Lemma registry_refines_map_witness :
  exists fs', history (registry_perform "mcp.json")
      [(Written, OpUpsert "files" files_server); (WriteFailed, OpRemove "files"); (Written, OpList)] ∅ =
    (fs', (history spec_registry
      [(Written, OpUpsert "files" files_server); (WriteFailed, OpRemove "files"); (Written, OpList)]
      {| mcp_revision := 0; mcp_servers := ∅ |}).2).
Proof.
  destruct (registry_refines_map "mcp.json"
    [(Written, OpUpsert "files" files_server); (WriteFailed, OpRemove "files"); (Written, OpList)] ∅)
    as (fs' & Hh & _); [reflexivity|]. exists fs'. exact Hh.
Defined.

Definition camera_cfg : EdgeCfg :=
  {| ec_name := "camera"; ec_endpoint_id := "k01"; ec_relays := ["https://relay.example"]; ec_managed := true |}.

Lemma remote_registry_is_local_witness :
  registry_call (P := unit) ensure_ok {["camera" := camera_cfg]} "camera" (OpMcpUpsert "files" files_server)
    Written "mcp.json" ∅ =
  ((registry_upsert Written "mcp.json" "files" files_server ∅).1, Ok tt).
Proof.
  destruct (remote_registry_is_local (P := unit) {["camera" := camera_cfg]} "camera" camera_cfg Written "mcp.json" ∅)
    as (_ & Hup & _); [reflexivity|].
  destruct (Hup "files" files_server) as [Hok _];
    [vm_compute; discriminate|vm_compute; discriminate|].
  refine (eq_trans (Hok _) _); [vm_compute; discriminate|]. vm_compute. reflexivity.
Defined.

(** ** File transfers *)

Definition serve_content (content : bytes) (_ : EndpointId) (h : Hash) : result string (list BlobItem) :=
  if h == content then Ok [Leaf content; BlobDone] else Err "not found".


(** ** MCP synchronisation *)

Definition project : list Component := [RootDir; Normal "home"; Normal "project"].
Definition camera_catalog (edge : string) : result string McpCatalog :=
  Ok {| mcp_revision := 1; mcp_servers := {["files" := files_server]} |}.
Definition project_disk : Disk := {| files := ∅; outcomes := [] |}.
Definition project_synced : Disk * result string nat :=
  McpAdapters.sync camera_catalog (fun _ _ => Ok tt) project ["camera"] [Claude; Codex] true project_disk.

Lemma sync_all_or_nothing_witness :
  files project_synced.1 !! journal_path project = None /\
  exists desired, desired_exact camera_catalog ["camera"] desired /\ size desired = 1%nat.
Proof.
  destruct (sync_all_or_nothing camera_catalog (fun _ _ => Ok tt) project ["camera"] [Claude; Codex] true project_disk
    project_synced.1 project_synced.2) as (_ & _ & Hok); [left; reflexivity|apply surjective_pairing|].
  destruct (Hok 1%nat) as (Hj & desired & Hd & Hs & _); [vm_compute; reflexivity|].
  split; [exact Hj|]. exists desired. exact (conj Hd (eq_sym Hs)).
Defined.

(** ** Control restarts *)

Definition reboot : Boot := {|
  b_key := control_key; b_ca_key := [Byte.x02]; b_ca_cert := [Byte.x01]; b_now := 3000;
  b_random n := replicate n Byte.x00; b_io := true; b_lock_free := true |}.

Lemma home_durable : durable [Byte.x01] home.
Proof.
  split; [apply home_good|apply home_good| |vm_compute; reflexivity|vm_compute; reflexivity].
  split; split; vm_compute; discriminate.
Qed.

Definition removal_and_restart : list LifeEvent :=
  [Served (at_time 2000 Byte.x08) (OLocal (LRemoveEdge "laptop/camera")); Restarted reboot].

Lemma credentials_survive_restarts_witness :
  accounted (s_state (fold_left (live [Byte.x02] [Byte.x01]) removal_and_restart home)) "k01" 6 605850 \/
  Exists (reached 605850) removal_and_restart.
Proof.
  apply (credentials_survive_restarts [Byte.x02] [Byte.x01] (tt : @Issuer toy_certificates)
           eq_refl removal_and_restart home "k01" 6 605850).
  - exact home_durable.
  - exact camera_issued.
Defined.

(** ** Maps that Control signs *)

Definition blank_map : SignedNodeMap := {|
  snm_map := Build_NodeMap 0 "" "" "" 0 0 "" [] None [] [] []; snm_signature := Byte.x00 |}.
Definition map_of (s : Store) (key : SecretKey) : SignedNodeMap :=
  match signed_map 1100 (s_state s) control_key (public key) with Ok m => m | Err _ => blank_map end.

(** Before and after the camera is removed *)
Definition laptop_map : SignedNodeMap := Eval vm_compute in map_of home laptop_key.
Definition later_map : SignedNodeMap := Eval vm_compute in map_of (run remove_camera home) laptop_key.

Definition laptop_control : ControlCfg := {|
  cc_name := "laptop"; cc_url := "https://control.example"; cc_control_id := "k1"; cc_audience := "home";
  cc_map := laptop_map |}.
Definition laptop_config : Config := {|
  cfg_schema_version := CONFIG_SCHEMA; cfg_edges := map_edges laptop_map; cfg_control := Some laptop_control |}.
Definition laptop_files : Fs string := {[config_path := to_vec_pretty laptop_config]}.

Lemma laptop_config_loads : load_config_or_default laptop_files = Ok laptop_config.
Proof. vm_compute. reflexivity. Qed.

Lemma laptop_config_ok : config_ok laptop_key laptop_config.
Proof.
  split.
  - intros control [= <-]. exists (public control_key). split; [reflexivity|vm_compute; reflexivity].
  - intros edge Hin _. exists laptop_control. split; [reflexivity|exact Hin].
Qed.

Lemma client_trusts_only_its_control_witness :
  exists config, load_config_or_default (cs_files (client_run laptop_key
      [CommandLoads; WatcherLoads; CommandEnds (CmdSync (WatchMap later_map)) Written;
       WatcherEnds (WatchMap laptop_map) Written; CommandLoads; CommandEnds (CmdRm "camera") WriteFailed]
      (client_idle laptop_files))) = Ok config /\ config_ok laptop_key config.
Proof.
  destruct (client_trusts_only_its_control laptop_key laptop_files laptop_config
      [CommandLoads; WatcherLoads; CommandEnds (CmdSync (WatchMap later_map)) Written;
       WatcherEnds (WatchMap laptop_map) Written; CommandLoads; CommandEnds (CmdRm "camera") WriteFailed])
    as (config & Hl & Hok & _); [exact laptop_config_loads|exact laptop_config_ok|].
  exists config. exact (conj Hl Hok).
Defined.

(** The removed camera comes back into the configuration. *)
Lemma watcher_can_roll_back_witness :
  exists before after,
    cfg_edges before = map_edges later_map /\ cfg_edges after = map_edges laptop_map /\
    load_config_or_default (cs_files (client_step laptop_key (WatcherEnds (WatchMap laptop_map) Written)
      (client_run laptop_key [WatcherLoads; CommandLoads; CommandEnds (CmdSync (WatchMap later_map)) Written]
        (client_idle laptop_files)))) = Ok after.
Proof.
  destruct (watcher_can_roll_back laptop_key laptop_files laptop_config laptop_control laptop_map later_map)
    as (before & after & _ & Ha & _ & Hb & _ & He); [exact laptop_config_loads|reflexivity|reflexivity|
    vm_compute; reflexivity|vm_compute; reflexivity|discriminate|reflexivity|].
  exists before, after. exact (conj Hb (conj He Ha)).
Defined.

Definition camera_map : SignedNodeMap := Eval vm_compute in map_of home camera_key.

Lemma both_ends_agree_witness :
  (exists entry, entry ∈ cfg_edges laptop_config /\ ec_endpoint_id entry = "k01") <->
  is_authorized (Managed {[public laptop_key]}) (public laptop_key) = true.
Proof.
  destruct (Vec.find (fun client => c_endpoint_id client == id_to_string (public laptop_key)) (st_clients (s_state home)))
    as [c|] eqn:Ec; [|exfalso; apply (f_equal (fun o => match o with Some _ => true | None => false end)) in Ec;
                      vm_compute in Ec; discriminate Ec].
  apply (both_ends_agree 1100 1100 (s_state home) control_key laptop_key camera_key laptop_config laptop_config c
    camera_record (public laptop_key) laptop_map camera_map {[public laptop_key]}).
  - apply store_ok_state, home_good.
  - reflexivity.
  - apply (list_elem_of_lookup_2 _ 0). vm_compute. reflexivity.
  - reflexivity.
  - reflexivity.
  - vm_compute. reflexivity.
  - exact Ec.
  - vm_compute. reflexivity.
  - vm_compute. reflexivity.
  - vm_compute. reflexivity.
  - vm_compute. reflexivity.
Defined.

(** ** The camera enrolls and follows the registry *)

Definition visit_in_order (m : gmap string (option Z * string)) : list (string * (option Z * string)) := map_to_list m.

Lemma visit_in_order_all m : visit_in_order m ≡ₚ map_to_list m.
Proof. reflexivity. Qed.

Lemma toy_urls_apart (values : gset string) : urls_apart values.
Proof.
  intros v v' url _ _ Hv Hv'. apply of_option_Ok, (Str.strip_prefix_inv "https://") in Hv as ->.
  apply of_option_Ok, (Str.strip_prefix_inv "https://") in Hv' as ->. reflexivity.
Qed.

Definition camera_link : string := Eval vm_compute in
  match token_join_url (cr_token camera_claim) with Ok url => url | Err _ => "" end.
Definition camera_joins : Fs string * result string (string * ControlProfile) :=
  join_control camera_link camera_key Written 1050 "nonce" (claim_answer (at_time 1050 Byte.x06) camera_invited) Written ∅.
Definition camera_profile : ControlProfile := Eval vm_compute in
  match camera_joins.2 with
  | Ok (_, profile) => profile
  | Err _ => Build_ControlProfile 0 "" "" "" "" "" blank_map
  end.

Lemma enrolled_edge_serves_owner_witness :
  exists dir key, who_dir "camera" = Ok dir /\ read_secret camera_joins.1 (dir "agent.key") = Some (Ok key).
Proof.
  destruct (enrolled_edge_serves_owner visit_in_order visit_in_order_all (at_time 1050 Byte.x06) camera_invited
    camera_link camera_key Written 1050 "nonce" Written ∅ camera_joins.1 "camera" camera_profile)
    as (dir & key & _ & _ & _ & Hd & Hk & _); [apply camera_invited_good| |].
  - assert (E : camera_joins.2 = Ok ("camera", camera_profile)) by (vm_compute; reflexivity).
    rewrite <- E. apply surjective_pairing.
  - exists dir, key. exact (conj Hd Hk).
Defined.

Definition camera_files : Fs string := {["camera/control.json" := to_vec_pretty camera_profile]}.
Definition camera_ids : gset EndpointId := {[public laptop_key]}.

Lemma camera_starts : exists node,
  in_force node camera_profile /\ en_key node = camera_key.
Proof.
  destruct (start_in_force visit_in_order visit_in_order_all camera_key (fun file => "camera/" ++ file) camera_files
    camera_profile camera_ids (default "" (nm_relay_credential (snm_map (pr_map camera_profile)))))
    as (node & _ & Hf & _ & _ & Hk).
  - vm_compute. reflexivity.
  - vm_compute. reflexivity.
  - split; [reflexivity|vm_compute; reflexivity|]. intros v Hv.
    apply elem_of_list_to_set in Hv. apply list_elem_of_singleton in Hv as ->. eexists. vm_compute. reflexivity.
  - apply toy_urls_apart.
  - discriminate.
  - exists node. exact (conj Hf Hk).
Qed.

Definition camera_watches : WatchRequest :=
  match watch_sign camera_key (revision_of camera_profile) 1100 "nonce" with
  | Ok request => request
  | Err _ => Build_WatchRequest 0 "" 0 0 "" None Byte.x00
  end.

Lemma edge_follows_registry_witness :
  exists node m, auth (sv_pin (en_serving (watch_step visit_in_order Written (WatchMap m) node))) = Managed {[public laptop_key]}.
Proof.
  destruct camera_starts as (node & Hf & Hk).
  destruct (answered_elim (fun s' r => match r with
    | Some m => (bool_decide (st_audience (s_state s') = "home") && bool_decide (s_key s' = control_key) &&
        bool_decide (st_public_url (s_state s') = "https://control.example") &&
        bool_decide (r_url <$> st_relays (s_state s') = ["https://relay.example/"]) && (6 <=? st_revision (s_state s')) &&
        bool_decide (e_owner_id <$> Vec.find (fun e => e_endpoint_id e == "k01") (st_edges (s_state s')) = Some "k10"))%bool
    | None => false end)
    (watch (at_time 1100 Byte.x08) id [] id camera_watches home)) as (s' & r & E & Hp); [vm_compute; reflexivity|].
  destruct r as [m|]; [|discriminate Hp].
  apply andb_true_iff in Hp as [[[[[Ha Hkey]%andb_true_iff Hu]%andb_true_iff Hr]%andb_true_iff Hrev]%andb_true_iff He].
  apply bool_decide_eq_true in Ha, Hkey, Hu, Hr, He. apply Z.leb_le in Hrev.
  destruct (Vec.find _ (st_edges (s_state s'))) as [e|] eqn:Ef; [|discriminate He]. injection He as Ho.
  exists node, m.
  refine (proj2 (proj1 (edge_follows_registry visit_in_order visit_in_order_all (at_time 1100 Byte.x08) id [] id 1100 "nonce"
    camera_watches Written node camera_profile home s' (Ok (Some m)) Hf _ _ _ _ E) m e (public laptop_key) eq_refl _ _ _ _ _)).
  - rewrite Hkey. reflexivity.
  - rewrite Ha. reflexivity.
  - rewrite Hu. reflexivity.
  - rewrite Hk. reflexivity.
  - rewrite Hk. exact Ef.
  - rewrite Ho. reflexivity.
  - intros v Hv. unfold state_urls in Hv. rewrite Hr in Hv. apply elem_of_list_to_set in Hv.
    apply list_elem_of_singleton in Hv as ->. eexists. reflexivity.
  - apply toy_urls_apart.
  - exact Hrev.
Defined.
