(* ===== verification/RelayScenario.v ===== *)
(** * The Relay, the requests and the daemon at work

    Runs the models of Retry.v, RelayNode.v, DaemonRelays.v and DaemonLife.v in the
    home of Scenario.v, with the instances of Toy.v and ToyNodes.v. *)
From S2P Require Import Prelude Deps RelayApi ControlApi State Database ControlCore ControlHandlers.
From S2P Require Import ControlSpec ControlInvariant NodeMaps Enrollment Isolation Retry Relay System.
From S2P Require Import Transport Files RelayNode RelayTable ClientConfig DaemonRelays Requests DaemonLife.
From S2P Require Import Toy ToyNodes Scenario.
Open Scope string_scope.
Open Scope Z_scope.

(** ** A busy Control *)

(** Verification is busy for the first two attempts. *)
Definition busy_twice (n : nat) : Env := {|
  env_received := 1030; env_now := 1030; env_random n := replicate n Byte.x04; env_io := true;
  env_verification := if (n <? 2)%nat then QueueFull else Granted; env_mutation := Granted |}.
Definition even_turns (n : nat) : Turn := {| tn_elapsed := MILLISECOND; tn_jitter := 300; tn_late := MILLISECOND |}.
Definition laptop_claims : Sendable := SendClaim (claim_of laptop_invited 1 Byte.x03 laptop_key 1030).

(** The laptop enrolls with its third attempt. *)
Lemma request_takes_effect_once_witness :
  exists sent,
    send (among_others (fun _ s => s) (control_exchange laptop_claims busy_twice (fun _ => Delivered))) even_turns
      (S (Z.to_nat (30 * SECOND))) (30 * SECOND) 0 laptop_invited = Some sent /\
    Z.of_nat (sn_attempts sent) <= 30 * SECOND / SECOND + 1.
Proof.
  destruct (request_takes_effect_once laptop_claims busy_twice (fun _ => Delivered) (fun _ s => s) even_turns
    (30 * SECOND) 0 laptop_invited) as (sent & Hs & Ha & _).
  - intros n. split; [reflexivity|]. split; discriminate.
  - discriminate.
  - exists sent. exact (conj Hs Ha).
Defined.

Lemma laptop_is_patient :
  match send (among_others (fun _ s => s) (control_exchange laptop_claims busy_twice (fun _ => Delivered))) even_turns
      10 (30 * SECOND) 0 laptop_invited with
  | Some sent => sn_attempts sent = 3%nat /\ c_name <$> st_clients (s_state (sn_server sent)) = ["laptop"]
  | None => False
  end.
Proof. vm_compute. exact (conj eq_refl eq_refl). Qed.

(** ** The Relay enrolls with QAD *)

Definition relay_link : string := Eval vm_compute in
  match token_join_url (cr_token (claim_of relay_invited 0 Byte.x01 relay_key 1010)) with Ok url => url | Err _ => "" end.
Definition relay_attempt : JoinAttempt := {|
  ja_directory := Ok tt; ja_generated := relay_key; ja_key_outcome := Written; ja_key_pair := Ok Byte.x09;
  ja_issued_at := 1010; ja_nonce := "nonce";
  ja_respond request := map_err JoinFailed (claim_answer (at_time 1010 Byte.x02) relay_invited request);
  ja_qad_outcome := Written; ja_outcome := Written |}.
Definition relay_joins : Fs string * result JoinError ControlProfile :=
  join_control relay_link None (Some 7842) relay_attempt ∅.
Definition relay_profile : ControlProfile := Eval vm_compute in
  match relay_joins.2 with
  | Ok profile => profile
  | Err _ => Build_ControlProfile 0 "" "" "" "" "" "" None [] []
  end.
Definition relay_options : RunOptions := {| ro_qad_port := None; ro_no_qad := false; ro_qad_bind_port := 7842 |}.

Lemma relay_invited_good : good relay_invited.
Proof. apply then_do_good. exact (conj first_store_ok first_numbered). Qed.

Lemma relay_profile_qad : pf_qad_port relay_profile = Some 7842 /\ pf_qad_certificate_der relay_profile <> [].
Proof. split; [reflexivity|discriminate]. Qed.

Lemma enrolled_relay_follows_control_witness :
  exists fs relay quic,
    run_start relay_options Written true 1020 relay_joins.1 = (fs, Ok (relay_profile, relay, quic)).
Proof.
  destruct (enrolled_relay_follows_control (at_time 1010 Byte.x02) relay_invited relay_link None (Some 7842) relay_attempt
    ∅ relay_joins.1 relay_profile relay_options Written 1020)
    as (key & claimed & s' & answer & relay & quic & fs & _ & _ & Hrun & _).
  - apply relay_invited_good.
  - apply relay_invited_good.
  - vm_compute. reflexivity.
  - intros request. reflexivity.
  - assert (E : relay_joins.2 = Ok relay_profile) by (vm_compute; reflexivity).
    rewrite <- E. apply surjective_pairing.
  - reflexivity.
  - reflexivity.
  - reflexivity.
  - reflexivity.
  - exists fs, relay, quic. exact Hrun.
Defined.

(** ** The daemon's relays *)

Definition with_relay (url : string) : Config := {|
  cfg_schema_version := CONFIG_SCHEMA; cfg_control := None;
  cfg_edges := [{| ec_name := "camera"; ec_endpoint_id := "k01"; ec_relays := [url]; ec_managed := false |}] |}.
Definition daemon_starts : DaemonRelays := Eval vm_compute in
  match daemon_relays_start map_to_list (with_relay "https://relay.one") with
  | Ok d => d
  | Err _ => {| dr_relays := ∅; dr_known := ∅ |}
  end.

Lemma with_relay_canonical rest : canonical_config (with_relay ("https://" +:+ rest)).
Proof.
  split; [|intros control relay E; discriminate E]. intros value Hv. apply list_elem_of_singleton in Hv as ->.
  exists rest. split; [|reflexivity]. exact (relay_url_parse_to_string rest).
Qed.

Lemma relays_follow_config_witness :
  relays_follow (with_relay "https://relay.two")
    (fold_left (fun d config => reload_relays map_to_list config d) [with_relay "https://relay.two"] daemon_starts).
Proof.
  apply (relays_follow_config map_to_list map_to_list (fun m => reflexivity _) (fun m => reflexivity _)
    (with_relay "https://relay.one") [with_relay "https://relay.two"] daemon_starts).
  - repeat (apply Forall_cons_2; [apply with_relay_canonical|]). apply Forall_nil_2.
  - vm_compute. reflexivity.
Defined.

(** ** A command starts the daemon *)

Definition status_answer : bytes := Eval vm_compute in
  match write_frame Result_ (to_vec (handle_admin AdminStatus VERSION LOCAL_PROTOCOL_VERSION 77 1 2 0).1) with
  | Ok bs => bs
  | Err _ => []
  end.
(** Nothing listens until the daemon is up at the fourth attempt. *)
Definition daemon_comes_up (n : nat) : Connect := if (n <? 3)%nat then NotListening else Connected status_answer.

Lemma command_finds_its_daemon_witness : en_stream (ensure_daemon daemon_comes_up (Ok tt)) = Ok 4%nat.
Proof.
  destruct (command_finds_its_daemon daemon_comes_up (Ok tt)) as (_ & _ & _ & _ & Hup).
  apply (Hup 2%nat).
  - apply Nat.ltb_lt. reflexivity.
  - intros i Hi. unfold daemon_comes_up. destruct i as [|[|[|i]]]; [reflexivity..|].
    exfalso. lia.
  - reflexivity.
  - exists 77, 1, 2, 0, status_answer. split; [vm_compute; reflexivity|reflexivity].
  - exists 77, 1, 2, 0, status_answer. split; [vm_compute; reflexivity|reflexivity].
Defined.
