(* ===== verification/LifeScenario.v ===== *)
(** * Upgrades, services and restarts at work

    Runs the models of Migrate.v, ClientControl.v, EdgeService.v and RelayLife.v in
    the home of Scenario.v, with the instances of Toy.v and ToyNodes.v. *)
From S2P Require Import Prelude Text Deps RelayApi ControlApi State Database ControlCore ControlHandlers.
From S2P Require Import ControlSpec ControlInvariant NodeMaps Enrollment Migrate Relay Transport Files RelayNode RelayLife.
From S2P Require Import RelayTable EdgePin EdgeNode EdgeSystem ClientConfig ClientControl CommandLine EdgeService.
From S2P Require Import Toy ToyNodes Scenario NodeScenario RelayScenario.
Open Scope string_scope.
Open Scope Z_scope.

(** ** The home upgrades its Control *)


(** ** The laptop invites the camera *)

#[local] Instance codec_invite_result : Codec InviteResult :=
  codec_map (A := string * string * Z) (fun '(a, b, c) => Build_InviteResult a b c)
    (fun '(Build_InviteResult a b c) => (a, b, c)) (fun '(Build_InviteResult _ _ _) => eq_refl).
#[local] Instance codec_nat : Codec nat := codec_countable 0%nat.
#[local] Instance codec_control_status : Codec ControlStatus :=
  codec_map (A := string * string * string * Z * nat * nat * nat)
    (fun '(a, b, c, d, e, f, g) => Build_ControlStatus a b c d e f g)
    (fun '(Build_ControlStatus a b c d e f g) => (a, b, c, d, e, f, g))
    (fun '(Build_ControlStatus _ _ _ _ _ _ _) => eq_refl).

Definition camera_request : EdgeInviteRequest := Eval vm_compute in
  match edge_invite_sign laptop_key "home" "request" 1040 "camera" 3600 with
  | Ok request => request
  | Err _ => Build_EdgeInviteRequest 0 "" "" "" 0 "" 0 Byte.x00
  end.
Definition invited_link : string := Eval vm_compute in
  match ClientControl.edge_invite laptop_config laptop_key "request" 1040 "camera" 3600
      (invite_response (at_time 1040 Byte.x05) laptop_joined) with
  | Ok url => url
  | Err e => e
  end.

Lemma laptop_joined_good : good laptop_joined.
Proof. apply then_do_good, laptop_invited_good. Qed.


(** ** The camera becomes a service *)

(** Programs do what they are asked for, and leave the files alone. *)
#[local] Instance quiet_programs : Processes :=
  {| spawn argv files := (files, Ok {| out_success := true; out_stdout := [] |}) |}.
Definition camera_env : EdgeService.Env := {|
  env_agent_scale_home := None; env_home_dir := Some "/home/cam"; env_localappdata := None;
  env_user := Some "cam"; env_current_exe := Ok "/tmp/as-edge" |}.
Definition camera_machine : Machine := {| mc_files := {["/tmp/as-edge" := [Byte.x7f]]}; mc_ran := [] |}.
Definition camera_install : Machine * result string unit :=
  EdgeService.install (fun _ => IoDone) camera_env Linux "camera" camera_machine.


(** ** The Relay starts again *)

Definition relay_started : Fs string * option (result string (RelayNode.ControlProfile * Relay * option (list bytes * bytes))) :=
  run_relay relay_options None None [] Written true 1020 relay_joins.1.

Lemma relay_has_started : match relay_started.2 with Some (Ok _) => True | _ => False end.
Proof. vm_compute. exact I. Qed.

Lemma relay_starts_again_as_it_was_witness :
  exists fs started, run_relay relay_options (Some None) None [] WriteFailed false 90000 fs = (fs, Some (Ok started)).
Proof.
  destruct relay_started as [fs [[started|e]|]] eqn:E; [|pose proof relay_has_started as Hs; rewrite E in Hs; destruct Hs..].
  exists fs, started. unfold relay_started in E.
  apply (relay_starts_again_as_it_was relay_options None None [] Written true 1020 relay_joins.1 fs started).
  exact E.
Defined.
